(* ===== verification/_CoqProject ===== *)
-Q . S2P
Prelude.v
GoMonad.v
GoPath.v
FsTypes.v
Policy.v
MemoryFS.v
MemoryFSWf.v
MemoryFSInv.v
MemoryFSTree.v
MemoryFSOps.v
MemoryFSMove.v
MemoryFSSafe.v
MemoryFSProps.v
MemoryFSResolve.v
Confinement.v
MemoryFSExamples.v
CondVar.v
VirtualPipe.v
VirtualPipeSpec.v
VirtualPipeSystem.v
CaptureBuffer.v
Fifo.v
FifoSystem.v
GoUtf8.v
GoUtf8Props.v
CommandSpec.v
CommandSpecProps.v
FileSystem.v
Mountable.v
MountableProps.v
MemoryMounts.v
Clone.v
MemoryFSLazy.v
Overlay.v
OverlayCache.v
GoStrconv.v
Braces.v
BracesProps.v
BracesSplit.v
BracesRoundtrip.v
BracesTheorems.v
Indexed.v
IndexedProps.v
IndexedTheorems.v
Pattern.v
ExtMatcher.v
ExtMatcherProps.v
PatternProps.v
PatternQuote.v
ArithSyntax.v
ArithGrammar.v
ArithSound.v
ArithPrint.v
ArithNumber.v
Arith.v
ArithRange.v
ArithLiteral.v
ArithEval.v
ArithInteger.v
ArithAssign.v
ArithTheorems.v
GoUrl.v
Network.v
NetworkProps.v
NetworkTheorems.v
Fields.v
FieldsSpec.v
FieldsProps.v
ReadFields.v
ReadFieldsProps.v
FieldsTheorems.v
Quote.v
WordRead.v
QuoteTheorems.v
Effects.v
CommandFS.v
Session.v
ReadFile.v
SessionIntegrity.v
SessionLimit.v
