(* ===== verification/Prelude.v ===== *)
(** * gbash: a verification library

    gbash is a Bash-like shell that runs in a sandbox: scripts see a virtual filesystem, a policy says
    which paths and commands they reach, pipelines run over in-memory pipes, and the network goes through
    an allowlist.  This library models the parts of the program that carry its guarantees and its own
    algorithms, and proves what they promise.  The names under [src/] are given for every file; a
    definition has the name of the Go function, method or type that it translates, and a loop that Go
    writes inside a function has a name of its own next to it.

    ** The program and its parts

    A session ([src/runtime]) builds a filesystem out of layers, a policy and a network client, and
    hands them to the interpreter ([src/internal/shell/interp]), which parses a script
    ([src/shell/syntax]), expands its words ([src/shell/expand]) and runs commands
    ([src/internal/builtins], on the helpers of [src/commands]).  A command reaches a path through
    the policy check, then the filesystem; its streams are virtual pipes, named pipes and capture buffers.

    The development follows these layers, in the order of [_CoqProject]:

    - Prelude: Go strings as lists of bytes, slices, results, panics, the shared tactics and lemmas.
      GoMonad: calls that may fail, over a state.  GoPath: Go's [path] package.  GoUtf8, GoUtf8Props:
      decoding as Go does it.  GoStrconv: decimal integers.  GoUrl: percent escapes.
    - Paths and policy: FsTypes ([fs/fs.go], [fs/flags.go]: errors, modes, flags, the view [PathFS]
      that the policy needs), Policy ([policy/policy.go], [policy/pathcheck.go]), Confinement (the
      policy over the in-memory filesystem).
    - The in-memory filesystem ([fs/memory.go]): MemoryFS has the state (a map from paths to node
      pointers and a store of nodes) and one definition per operation; MemoryFSWf the invariant;
      MemoryFSInv, MemoryFSTree, MemoryFSOps, MemoryFSMove and MemoryFSSafe that the operations keep
      it; MemoryFSResolve the theory of path resolution; MemoryFSProps the theorems; MemoryFSExamples
      instances.  MemoryFSLazy treats files with lazy content.
    - Layers: FileSystem is the contract between filesystems, as type classes; Mountable
      ([fs/mountable.go], [fs/copy_internal.go]) and MountableProps; MemoryMounts discharges the contract
      with MemoryFS; Clone ([fs/clone.go]); Overlay and OverlayCache ([fs/overlay.go]).
    - Sessions: CommandFS is the filesystem that commands have ([commands/invocation_capabilities.go]: names
      relative to the working directory, policy checks, exit statuses; [fs/limit.go]: the cap on the
      size of files; [commands/read.go]), Effects the rules that its calls are followed with, Session the
      sequences of requests of a script.  SessionIntegrity, SessionLimit and ReadFile are what holds of them.
    - Streams: CondVar (monitors with one condition variable), VirtualPipe, VirtualPipeSpec and
      VirtualPipeSystem ([internal/shell/interp/virtual_pipe.go]), Fifo and FifoSystem ([fs/fifo.go]),
      CaptureBuffer ([internal/runtime/buffer.go]).
    - Commands: CommandSpec and CommandSpecProps ([commands/command_spec.go], the option parser).
    - Words: Braces and its theorems ([shell/syntax/braces.go], [shell/expand/braces.go]); Fields,
      FieldsSpec, FieldsProps, ReadFields and its theorems (field splitting and [read], [shell/expand/expand.go]);
      Pattern, ExtMatcher and their theorems ([internal/shellpattern]); Indexed and its theorems
      ([shell/expand/indexed.go], compound assignment of [internal/shell/interp/vars.go]).
    - Quoting: Quote has the writers of quoted values ([shell/syntax/quote.go], [internal/printfutil/quote.go],
      [${v@Q}] of [shell/expand/param.go], [declare -p] of [internal/shell/interp/runner_decl.go] and
      [trace.go]) and the decoding of [$'...'] ([shell/expand/expand.go]).  WordRead has the reader: the
      lexer and the parser of words of literals and quotes ([shell/syntax/lexer.go], [parser.go]) and their
      expansion to fields ([wordFieldsOpt]).  QuoteTheorems ties them together.
    - Arithmetic: ArithSyntax, ArithGrammar, ArithSound, ArithPrint (the lexer and parser,
      [shell/syntax/parser_arithm.go]), ArithNumber, Arith and the files behind them (the evaluator,
      [shell/expand/arith.go]).
    - Network: Network, NetworkProps, NetworkTheorems ([network/network.go]).

    ** How code is modelled

    Effects are explicit.  A filesystem operation takes the state and returns a result and the next
    state; the evaluator of arithmetic and the network client use the monad of GoMonad; a call on a pipe
    is cut at its waits into atomic sections, and the sections of any number of calls interleave in an
    inductive step relation.  Aliasing is modelled where Go shares: hard links and open handles share
    a node of the store.  Errors are values ([result]), a nil dereference is the error [EPanic],
    and theorems show that it does not occur.  Machine integers are [Z] with [wrap64] where the code can
    overflow; bytes are [ascii], runes [Z].  Maps are [gmap] where the order does not matter, and
    lists where it does.

    Code outside the repository is a parameter: the clock, lazy providers, the unicode tables
    (case mapping, case folding, printable runes), URL and address parsing ([NetLib]), transports and resolvers, the
    words and variables that arithmetic asks the shell for ([ArithShell]; [ScalarShell] has what its evaluator
    relies on, for ordinary variables only: not for arrays, references, or names the shell computes).  Each theorem that uses a law
    of such a parameter has an instance with a concrete one.

    ** What the theorems show

    - Policy: a path that the check allows is opened inside the roots, whatever links there are; the
      resolver of the policy and the resolver of the filesystem agree.
    - MemoryFS: every reachable state keeps the tree invariant and no operation panics; what is
      written is read; [Rename] and [Remove] move and delete exactly one subtree.
    - Sessions: whatever the requests of a script are, what they change lies inside the write roots
      ([Remove], [Rename] and [Chown] without following links apart: the findings show how those get around
      it), no file outgrows the cap, and [ReadFile] answers with exactly the file, or fails with status 126
      where the policy denies it, or with the diagnostic about the size.
    - Pipes and named pipes: a reader gets what was written, in order and once, within the capacity,
      whatever the interleaving; no wake-up is lost.  The capture buffer and its spill file together
      hold the stream.
    - Option parser: command lines round-trip, grouped short options mean the separate ones, the
      counters agree with the occurrences, and the parser ends.
    - Mounts: an operation touches only the filesystem that its path is routed to, routing does not
      depend on the order of the table, paths translate back and forth, and a directory above mounts lists
      the base's entries and the mounts, also where the base has no such directory.  Overlay: the cache of
      lower directories is invisible.
    - Braces: the expansion is the Cartesian product within the budget, the scanner finds every valid
      brace expression, and text round-trips.  Field splitting: the splitter and [read] implement
      the grammar of POSIX and agree with each other.  Patterns: the matcher with its memo
      computes the meaning of the pattern, unless an alternative of a [+( )] can be empty, where the code
      departs from it (a finding); quoted text is matched literally, up to case where that is folded.  Indexed
      arrays refine finite maps, compound assignments too.
    - Quoting: what [Quote], [${v@Q}], [declare -p] and [printf %q] write for any value without null bytes
      is read back as one argument with that value; the exceptions (the C locale for the [\u] escapes of
      [Quote], escaped braces for [printf %q], mixed quotes in its GNU dialect) have examples.
    - Arithmetic: the parser is sound for the grammar, expressions round-trip, literals have their
      values in every base, evaluation is arithmetic modulo [2^64], reports cycles, and assigns
      what it returns, or nothing where the shell refuses the store, if the old value has a value of its own.
    - Network: every request has an allowed method and a URL below an entry of the allowlist, also
      for a server that decodes paths; credentials stay on the first origin; redirects and bodies are
      bounded; no address of the reserved ranges is dialed, in whatever form of IPv6 it is embedded.

    ** Bounds and fuel

    Recursion that is not structural takes fuel, and the fuel of the top-level definitions is shown
    to be enough by the theorems about them, none of which is conditional on it but [ReadFile_exact], which
    asks for as many turns of [io.ReadAll] as the file has bytes, and one more: link resolution is
    bounded by the code's own [maxSymlinkDepth]; the option parser has the length of the arguments and one
    turn more per end-of-options mark ([ParseCommandSpec_terminates]); the arithmetic parser has
    the length of the text, with the code's nesting limits; evaluation has the code's depth limit;
    loops over a text have its length, since each turn advances; the loop over redirects has
    [maxRedirects] and one more request; the matcher's work list has one entry per offset.

    ** Not modelled

    The parser of commands ([shell/syntax/parser.go]) and the interpreter are not modelled: they tie all
    other packages together, and each theorem about them would need all of those first.  Of words only
    literals and quotes are parsed and expanded, for arguments of commands outside backquotes and aliases;
    of parameter expansion only arithmetic, arrays, patterns, field splitting and quoting are modelled.
    The commands themselves, the server glue, the host filesystem (system calls), the trie and snapshot
    filesystems, and formatted output other than [%q] are left out.  Inside modelled components: locks that
    only serialise (an operation under a mutex is one step), timeouts and contexts of the network
    client, the texts of error messages, tracing and messages to standard error, the bytes that a session
    reads from a FIFO, the redaction of URLs, and the help output of commands. *)
From stdpp Require Export base gmap strings list fin_maps tactics.
From Stdlib Require Export Sorting.Sorted.
From Stdlib Require Export Ascii ZArith Lia.
From Stdlib Require String.

#[global] Open Scope Z_scope.
#[global] Open Scope list_scope.
#[global] Set Default Goal Selector "!".
#[global] Set Warnings "-clear-no-such-hyp".

Declare Scope go_scope.
Delimit Scope go_scope with go.
#[global] Open Scope go_scope.

(** ** Go values *)

(** A Go string is an immutable sequence of bytes; so is the content of a [[]byte].  Both are
    lists of [ascii]. *)
Abbreviation gostr := (list ascii).

(** [go "text"] is the Go string literal ["text"]. *)
Definition go (s : string) : gostr := String.list_ascii_of_string s.
Arguments go s%_string.

(** The length [len(s)] as the [int] Go computes. *)
Definition glen {A} (l : list A) : Z := Z.of_nat (length l).

(** [s[lo:hi]] for [0 <= lo <= hi <= len(s)]. *)
Definition slice {A} (lo hi : nat) (l : list A) : list A := take (hi - lo) (drop lo l).

(** [strings.HasPrefix(s, p)]. *)
Fixpoint has_prefix (p s : gostr) : bool :=
  match p, s with
  | [], _ => true
  | _, [] => false
  | c :: p', d :: s' => bool_decide (c = d) && has_prefix p' s'
  end.

(** [strings.TrimPrefix(s, p)]. *)
Definition trim_prefix (p s : gostr) : gostr :=
  if has_prefix p s then drop (length p) s else s.

(** [strings.HasSuffix(s, p)]. *)
Definition has_suffix (p s : gostr) : bool := has_prefix (reverse p) (reverse s).

(** [strings.IndexByte(s, c)], with [None] for -1. *)
Fixpoint index_byte (c : ascii) (s : gostr) : option nat :=
  match s with
  | [] => None
  | d :: s' => if decide (c = d) then Some O else S <$> index_byte c s'
  end.

(** [strings.Split(s, string(c))] for a one-byte separator. *)
Fixpoint split_byte (c : ascii) (s : gostr) : list gostr :=
  match s with
  | [] => [[]]
  | d :: s' =>
      if decide (c = d) then [] :: split_byte c s'
      else match split_byte c s' with
           | [] => [[d]]
           | part :: parts => (d :: part) :: parts
           end
  end.

(** [strings.Join(parts, sep)]. *)
Fixpoint join (sep : gostr) (parts : list gostr) : gostr :=
  match parts with
  | [] => []
  | [p] => p
  | p :: ps => p ++ sep ++ join sep ps
  end.

(** Byte order of Go strings ([<] on [string]). *)
Fixpoint str_ltb (a b : gostr) : bool :=
  match a, b with
  | _, [] => false
  | [], _ :: _ => true
  | c :: a', d :: b' =>
      if (N_of_ascii c <? N_of_ascii d)%N then true
      else if (N_of_ascii d <? N_of_ascii c)%N then false
      else str_ltb a' b'
  end.

Definition str_leb (a b : gostr) : bool := negb (str_ltb b a).

(** [slices.Sort] on strings: equal strings are indistinguishable, so the order of a sort is
    determined by its result; insertion sort is the reference. *)
Fixpoint sort_insert (x : gostr) (l : list gostr) : list gostr :=
  match l with
  | [] => [x]
  | y :: l' => if str_leb x y then x :: l else y :: sort_insert x l'
  end.

Definition sort_strings (l : list gostr) : list gostr := foldr sort_insert [] l.

(** The UTF-8 encodings of the runes [unicode.IsSpace] accepts, for [strings.TrimSpace]. *)
Definition bytes_of (l : list N) : gostr := map ascii_of_N l.
Definition space_encodings : list gostr :=
  map bytes_of
    ([[9]; [10]; [11]; [12]; [13]; [32]; [194; 133]; [194; 160]; [225; 154; 128];
      [226; 128; 168]; [226; 128; 169]; [226; 128; 175]; [226; 129; 159]; [227; 128; 128]]
     ++ map (fun k => [226; 128; 128 + k]) [0; 1; 2; 3; 4; 5; 6; 7; 8; 9; 10])%N.

Fixpoint trim_left_with (n : nat) (encs : list gostr) (s : gostr) : gostr :=
  match n with
  | O => s
  | S n' =>
      match filter (fun e => has_prefix e s = true) encs with
      | e :: _ => trim_left_with n' encs (drop (length e) s)
      | [] => s
      end
  end.

Definition TrimSpace (s : gostr) : gostr :=
  let left := trim_left_with (length s) space_encodings s in
  reverse (trim_left_with (length left) (map reverse space_encodings) (reverse left)).

(** ** Machine integers *)

(** Go's [int] and [int64] on the 64-bit targets: two's complement, wrapping. *)
Definition wrap64 (z : Z) : Z := (z + 2 ^ 63) mod 2 ^ 64 - 2 ^ 63.

Definition int64_ok (z : Z) : Prop := - 2 ^ 63 <= z < 2 ^ 63.

Definition wrapu64 (z : Z) : Z := z mod 2 ^ 64.

(** ** Results *)

(** A Go call that returns a value or a non-nil error. *)
Inductive result (E A : Type) : Type :=
| Ok (a : A)
| Err (e : E).
Arguments Ok {E A} a.
Arguments Err {E A} e.

#[export] Instance result_ret {E} : MRet (result E) := fun A a => Ok a.
#[export] Instance result_bind {E} : MBind (result E) := fun A B f r =>
  match r with Ok a => f a | Err e => Err e end.
#[export] Instance result_fmap {E} : FMap (result E) := fun A B f r =>
  match r with Ok a => Ok (f a) | Err e => Err e end.

Definition is_ok {E A} (r : result E A) : bool := match r with Ok _ => true | Err _ => false end.

(** ** Automation *)

Create HintDb go.

(** Case analysis on the tests of an executable definition. *)
Ltac case_tests :=
  repeat (case_match; simplify_eq/=; try done).

(** Turns a boolean decision into the proposition it decides. *)
Ltac to_prop :=
  repeat match goal with
  | H : bool_decide _ = true |- _ => apply bool_decide_eq_true_1 in H
  | H : bool_decide _ = false |- _ => apply bool_decide_eq_false_1 in H
  | H : (_ && _)%bool = true |- _ => apply andb_prop in H as [? ?]
  | H : (_ || _)%bool = false |- _ => apply orb_false_elim in H as [? ?]
  | H : negb _ = true |- _ => apply negb_true_iff in H
  | H : negb _ = false |- _ => apply negb_false_iff in H
  | H : (_ <=? _) = true |- _ => apply Z.leb_le in H
  | H : (_ <=? _) = false |- _ => apply Z.leb_gt in H
  | H : (_ <? _) = true |- _ => apply Z.ltb_lt in H
  | H : (_ <? _) = false |- _ => apply Z.ltb_ge in H
  | H : (_ =? _) = true |- _ => apply Z.eqb_eq in H
  | H : (_ =? _) = false |- _ => apply Z.eqb_neq in H
  end.

(** ** Lemmas on strings *)

Lemma has_prefix_spec p s : has_prefix p s = true ↔ p `prefix_of` s.
Proof.
  revert s; induction p as [|c p IHp]; intros s; simpl.
  - split; [intros _; apply prefix_nil|done].
  - destruct s as [|d s]; simpl.
    + split; [done|]. by intros ?%prefix_nil_not.
    + rewrite andb_true_iff, bool_decide_eq_true, IHp. split.
      * intros [-> ?]. by apply prefix_cons.
      * intros H. split; [by eapply prefix_cons_inv_1|by eapply prefix_cons_inv_2].
Qed.

Lemma has_prefix_app p s : has_prefix p (p ++ s) = true.
Proof. apply has_prefix_spec. by apply prefix_app_r. Qed.

Lemma index_byte_None c s : index_byte c s = None ↔ c ∉ s.
Proof.
  induction s as [|d s IH]; simpl; [split; [intros _; apply not_elem_of_nil|done]|].
  rewrite not_elem_of_cons. case_decide; [naive_solver|]. rewrite fmap_None, IH. naive_solver.
Qed.

Lemma index_byte_app c s t : c ∉ s → index_byte c (s ++ c :: t) = Some (length s).
Proof.
  induction s as [|d s IH]; intros Hc; simpl.
  - by rewrite decide_True.
  - rewrite decide_False by set_solver. rewrite IH by set_solver. done.
Qed.

Lemma split_byte_not_nil c s : split_byte c s ≠ [].
Proof. destruct s as [|d s]; simpl; [done|]. case_decide; [done|]. by destruct (split_byte c s). Qed.

Lemma split_byte_no_sep c s : c ∉ s → split_byte c s = [s].
Proof.
  induction s as [|d s IH]; intros Hc; simpl; [done|].
  rewrite decide_False by set_solver. rewrite IH by set_solver. done.
Qed.

Lemma split_byte_app c s t :
  c ∉ s → split_byte c (s ++ c :: t) = s :: split_byte c t.
Proof.
  induction s as [|d s IH]; intros Hc; simpl.
  - by rewrite decide_True.
  - rewrite decide_False by set_solver. rewrite IH by set_solver. done.
Qed.

Lemma split_byte_parts c s : Forall (fun p => c ∉ p) (split_byte c s).
Proof.
  induction s as [|d s IH]; simpl; [apply Forall_singleton; apply not_elem_of_nil|].
  case_decide; [constructor; [apply not_elem_of_nil|done]|].
  destruct (split_byte c s) as [|p ps] eqn:E; [by apply split_byte_not_nil in E|].
  apply Forall_cons_1 in IH as [??]. constructor; [by apply not_elem_of_cons|done].
Qed.

Lemma join_split c s : join [c] (split_byte c s) = s.
Proof.
  induction s as [|d s IH]; simpl; [done|]. case_decide as Hd.
  - subst. destruct (split_byte d s) eqn:E; [by apply split_byte_not_nil in E|].
    by rewrite <- IH.
  - destruct (split_byte c s) as [|p ps] eqn:E; [by apply split_byte_not_nil in E|].
    rewrite <- IH. by destruct ps.
Qed.

Lemma split_join c parts :
  parts ≠ [] → Forall (fun p => c ∉ p) parts → split_byte c (join [c] parts) = parts.
Proof.
  intros Hne Hall. induction parts as [|p ps IH]; [done|].
  apply Forall_cons_1 in Hall as [Hp Hps]. destruct ps as [|q ps].
  - by apply split_byte_no_sep.
  - change (join [c] (p :: q :: ps)) with (p ++ c :: join [c] (q :: ps)).
    rewrite split_byte_app by done. by rewrite IH.
Qed.

Lemma elem_of_sort_insert x y l : x ∈ sort_insert y l ↔ x = y ∨ x ∈ l.
Proof.
  induction l as [|z l IH]; simpl; [by rewrite list_elem_of_singleton, elem_of_nil; naive_solver|].
  destruct (str_leb y z); rewrite !elem_of_cons, ?IH; naive_solver.
Qed.

Lemma elem_of_sort_strings x l : x ∈ sort_strings l ↔ x ∈ l.
Proof.
  induction l as [|y l IH]; simpl; [done|].
  by rewrite elem_of_sort_insert, elem_of_cons, IH.
Qed.

Lemma sort_strings_nil l : sort_strings l = [] ↔ l = [].
Proof.
  split; [|by intros ->]. intros H. destruct l as [|x l]; [done|].
  assert (x ∈ sort_strings (x :: l)) as Hx
    by (rewrite elem_of_sort_strings; apply list_elem_of_here).
  rewrite H in Hx. by apply elem_of_nil in Hx.
Qed.

(** Byte order is a strict total order. *)
Lemma str_ltb_irrefl a : str_ltb a a = false.
Proof. induction a as [|c a IH]; simpl; [done|]. by rewrite N.ltb_irrefl. Qed.

Lemma str_ltb_trans a b c : str_ltb a b = true → str_ltb b c = true → str_ltb a c = true.
Proof.
  revert b c. induction a as [|x a IH]; intros [|y b] [|z c]; simpl; try done.
  destruct (N.ltb_spec (N_of_ascii x) (N_of_ascii y)), (N.ltb_spec (N_of_ascii y) (N_of_ascii x)),
    (N.ltb_spec (N_of_ascii y) (N_of_ascii z)), (N.ltb_spec (N_of_ascii z) (N_of_ascii y)),
    (N.ltb_spec (N_of_ascii x) (N_of_ascii z)), (N.ltb_spec (N_of_ascii z) (N_of_ascii x));
    try done; try lia. apply IH.
Qed.

Lemma str_ltb_total a b : str_ltb a b = true ∨ a = b ∨ str_ltb b a = true.
Proof.
  revert b. induction a as [|x a IH]; intros [|y b]; simpl; auto.
  destruct (N.ltb_spec (N_of_ascii x) (N_of_ascii y)), (N.ltb_spec (N_of_ascii y) (N_of_ascii x));
    auto; try lia.
  assert (x = y) as -> by (rewrite <- (ascii_N_embedding x), <- (ascii_N_embedding y); f_equal; lia).
  destruct (IH b) as [?|[->|?]]; auto.
Qed.

(** A sorted list without repetitions is strictly increasing. *)
Definition increasing (l : list gostr) : Prop := StronglySorted (fun a b => str_ltb a b = true) l.

Lemma sort_insert_increasing x l : x ∉ l → increasing l → increasing (sort_insert x l).
Proof.
  unfold increasing. induction l as [|y l IH]; intros Hx Hs; simpl.
  { constructor; constructor. }
  apply not_elem_of_cons in Hx as [Hxy Hx]. apply StronglySorted_inv in Hs as [Hs Hy].
  unfold str_leb. destruct (str_ltb y x) eqn:E; simpl.
  - constructor; [by apply IH|]. apply Forall_forall. intros z Hz%list_elem_of_In.
    apply elem_of_sort_insert in Hz as [->|Hz]; [done|].
    rewrite Forall_forall in Hy. by apply Hy, list_elem_of_In.
  - assert (str_ltb x y = true) as Hlt by (destruct (str_ltb_total x y) as [?|[?|?]]; congruence).
    constructor; [by constructor|]. constructor; [done|].
    revert Hy. apply Forall_impl. intros z. by apply str_ltb_trans.
Qed.

Lemma sort_strings_increasing l : NoDup l → increasing (sort_strings l).
Proof.
  induction 1 as [|x l Hx _ IH]; [constructor|]. apply sort_insert_increasing; [|done].
  by rewrite elem_of_sort_strings.
Qed.

(** ** Lemmas on machine integers *)

Lemma wrap64_range z : int64_ok (wrap64 z).
Proof. unfold int64_ok, wrap64. pose proof (Z.mod_pos_bound (z + 2 ^ 63) (2 ^ 64)). lia. Qed.

Lemma wrap64_id z : int64_ok z → wrap64 z = z.
Proof. unfold int64_ok, wrap64. intros ?. rewrite Z.mod_small; lia. Qed.

Lemma wrap64_mod z : wrap64 z mod 2 ^ 64 = z mod 2 ^ 64.
Proof.
  unfold wrap64. rewrite Zminus_mod_idemp_l. f_equal. lia.
Qed.

Lemma wrap64_eq_iff x y : wrap64 x = wrap64 y ↔ x mod 2 ^ 64 = y mod 2 ^ 64.
Proof.
  split.
  - intros H. by rewrite <- (wrap64_mod x), H, wrap64_mod.
  - intros H. unfold wrap64. f_equal.
    rewrite <- (Zplus_mod_idemp_l x), H, Zplus_mod_idemp_l. done.
Qed.

Lemma wrap64_idemp z : wrap64 (wrap64 z) = wrap64 z.
Proof. apply wrap64_id, wrap64_range. Qed.

Lemma wrap64_add x y : wrap64 (wrap64 x + wrap64 y) = wrap64 (x + y).
Proof.
  apply wrap64_eq_iff. rewrite Zplus_mod, !wrap64_mod. symmetry. apply Zplus_mod.
Qed.

Lemma wrap64_mul x y : wrap64 (wrap64 x * wrap64 y) = wrap64 (x * y).
Proof.
  apply wrap64_eq_iff. rewrite Zmult_mod, !wrap64_mod. symmetry. apply Zmult_mod.
Qed.

(** ** Lemmas on lists *)

Lemma glen_nonneg {A} (l : list A) : 0 <= glen l.
Proof. unfold glen. lia. Qed.

Lemma glen_app {A} (l k : list A) : glen (l ++ k) = glen l + glen k.
Proof. unfold glen. rewrite length_app. lia. Qed.

Lemma take_app_drop_app {A} (n : nat) (l k : list A) :
  take n l ++ drop n l ++ k = l ++ k.
Proof. by rewrite (assoc_L (++)), take_drop. Qed.

Lemma Forall_last {A} (P : A → Prop) l x : Forall P (l ++ [x]) ↔ Forall P l ∧ P x.
Proof. rewrite Forall_app, Forall_singleton. done. Qed.

#[export] Hint Resolve glen_nonneg wrap64_range : go.
