(* ===== verification/GoMonad.v ===== *)
(** Go calls that may fail, over a state: the monad of the evaluator of arithmetic and of the network
    client, with the reasoning about what a call returns and about what it keeps. *)
From S2P Require Import Prelude.

(** A call over the state [S], which also a failed call may change. *)
Definition stateful (E S A : Type) : Type := S → result E A * S.
#[export] Instance stateful_ret {E S} : MRet (stateful E S) := fun A a s => (Ok a, s).
#[export] Instance stateful_bind {E S} : MBind (stateful E S) := fun A B k m s =>
  match m s with (Ok a, s') => k a s' | (Err e, s') => (Err e, s') end.

Section operations.
Context {E S : Type}.
Definition throw {A} (e : E) : stateful E S A := fun s => (Err e, s).
Definition lift {A} (r : result E A) : stateful E S A := fun s => (r, s).
Definition map_error {A} (f : E → E) (m : stateful E S A) : stateful E S A := fun s =>
  match m s with (Err e, s') => (Err (f e), s') | r => r end.
Definition try_call {A} (m : stateful E S A) : stateful E S (result E A) := fun s => let '(r, s') := m s in (Ok r, s').

Lemma bind_Ok {A B} (m : stateful E S A) (k : A → stateful E S B) s a s' : m s = (Ok a, s') → (m ≫= k) s = k a s'.
Proof. intros H. unfold mbind, stateful_bind. by rewrite H. Qed.
Lemma bind_Err {A B} (m : stateful E S A) (k : A → stateful E S B) s e s' : m s = (Err e, s') → (m ≫= k) s = (Err e, s').
Proof. intros H. unfold mbind, stateful_bind. by rewrite H. Qed.

(** The values of a call all have the property [P]. *)
Definition returns {A} (P : A → Prop) (m : stateful E S A) : Prop := ∀ s a s', m s = (Ok a, s') → P a.

Lemma returns_bind {A B} (P : A → Prop) (Q : B → Prop) (m : stateful E S A) (k : A → stateful E S B) :
  returns P m → (∀ a, P a → returns Q (k a)) → returns Q (m ≫= k).
Proof.
  intros Hm Hk s b s'. unfold mbind, stateful_bind. destruct (m s) as [[a|e] s1] eqn:H; [|done]. by apply Hk, (Hm s a s1).
Qed.
Lemma returns_any {A} (m : stateful E S A) : returns (fun _ => True) m.
Proof. done. Qed.
Lemma returns_ret {A} (P : A → Prop) (a : A) : P a → returns P (mret a : stateful E S A).
Proof. by intros H s b s' [= <- _]. Qed.
Lemma returns_throw {A} (P : A → Prop) e : returns P (throw e : stateful E S A).
Proof. done. Qed.
Lemma returns_lift {A} (P : A → Prop) r : (∀ a, r = Ok a → P a) → returns P (lift r : stateful E S A).
Proof. by intros H s a s' [= -> _]; apply H. Qed.
Lemma returns_skip {A B} (Q : B → Prop) (m : stateful E S A) (k : A → stateful E S B) : (∀ a, returns Q (k a)) → returns Q (m ≫= k).
Proof. intros H. by eapply returns_bind; [apply returns_any|]. Qed.

(** A call keeps a property of the state, and its values have a property. *)
Definition keeps {A} (I : S → Prop) (P : A → S → Prop) (m : stateful E S A) : Prop :=
  ∀ s, I s → I (m s).2 ∧ ∀ a, (m s).1 = Ok a → P a (m s).2.

Lemma keeps_bind {A B} (I : S → Prop) (P : A → S → Prop) (Q : B → S → Prop) m (k : A → stateful E S B) :
  keeps I P m → (∀ a s, P a s → I s → I (k a s).2 ∧ ∀ b, (k a s).1 = Ok b → Q b (k a s).2) → keeps I Q (m ≫= k).
Proof.
  intros Hm Hk s Hs. destruct (Hm s Hs) as [Hi Hp]. unfold mbind, stateful_bind. destruct (m s) as [[a|e] s1]; [|done].
  by apply Hk; [apply Hp|].
Qed.
Lemma keeps_ret {A} (I : S → Prop) (P : A → S → Prop) a : (∀ s, I s → P a s) → keeps I P (mret a : stateful E S A).
Proof. intros H s Hs. split; [done|]. intros b [= <-]. by apply H. Qed.
Lemma keeps_throw {A} (I : S → Prop) (P : A → S → Prop) e : keeps I P (throw e : stateful E S A).
Proof. by intros s Hs. Qed.
End operations.
