(* ===== verification/GoPath.v ===== *)
(** Slash-separated paths: Go's [path] package as the sources use it, the path helpers of
    [fs/fs.go] and [fs/memory.go], and the correspondence between clean absolute paths and
    lists of components on which every filesystem theorem rests. *)
From S2P Require Import Prelude.

Definition slash : ascii := "/"%char.
Definition root_path : gostr := go "/".
Definition dot : gostr := go ".".
Definition dotdot : gostr := go "..".

(** ** Go's [path] package

    [path.Clean] by its documented rules: a stack of the components kept so far (innermost
    first), on which an empty component or "." is dropped and ".." removes the last named
    component, is dropped at the root, and is kept at the front of a relative path. *)
Definition clean_step (rooted : bool) (stack : list gostr) (c : gostr) : list gostr :=
  if decide (c = [] ∨ c = dot) then stack
  else if decide (c = dotdot) then
    match stack with
    | [] => if rooted then [] else [dotdot]
    | top :: rest => if decide (top = dotdot) then dotdot :: stack else rest
    end
  else c :: stack.

Definition clean_comps (rooted : bool) (parts : list gostr) : list gostr :=
  reverse (foldl (clean_step rooted) [] parts).

Definition path_Clean (p : gostr) : gostr :=
  match p with
  | [] => dot
  | c :: _ =>
      let rooted := bool_decide (c = slash) in
      let body := join [slash] (clean_comps rooted (split_byte slash p)) in
      if rooted then slash :: body else match body with [] => dot | _ => body end
  end.

(** [path.Split]: the text up to and including the last slash, and the rest. *)
Fixpoint take_base (r : gostr) : gostr :=
  match r with
  | [] => []
  | c :: r' => if decide (c = slash) then [] else c :: take_base r'
  end.

Definition path_Split (p : gostr) : gostr * gostr :=
  let base := reverse (take_base (reverse p)) in
  (take (length p - length base) p, base).

Definition path_Dir (p : gostr) : gostr := path_Clean (path_Split p).1.

Fixpoint drop_slashes (r : gostr) : gostr :=
  match r with
  | c :: r' => if decide (c = slash) then drop_slashes r' else r
  | [] => []
  end.

Definition path_Base (p : gostr) : gostr :=
  match p with
  | [] => dot
  | _ => match reverse (take_base (drop_slashes (reverse p))) with
         | [] => root_path
         | b => b
         end
  end.

Definition path_Join (a b : gostr) : gostr :=
  match a, b with
  | [], [] => []
  | [], _ => path_Clean b
  | _, [] => path_Clean a
  | _, _ => path_Clean (a ++ [slash] ++ b)
  end.

Definition path_IsAbs (p : gostr) : bool := has_prefix root_path p.

(** ** [fs/fs.go] and [fs/memory.go] *)

Definition Clean (name : gostr) : gostr :=
  match name with
  | [] => root_path
  | _ =>
      let name := if negb (has_prefix root_path name) then slash :: name else name in
      let name := path_Clean name in
      if decide (name = dot) then root_path else name
  end.

Definition Resolve (dir name : gostr) : gostr :=
  match name with
  | [] => Clean dir
  | _ =>
      if has_prefix root_path name then Clean name
      else
        let dir := match dir with [] => root_path | _ => dir end in
        Clean (path_Join dir name)
  end.

Definition joinClean (dir name : gostr) : gostr :=
  if decide (dir = root_path) then slash :: name else dir ++ slash :: name.

Definition parentDir (name : gostr) : gostr :=
  if decide (name = root_path) then root_path else Clean (path_Dir name).

Definition hasDotDotComponent (name : gostr) : bool :=
  existsb (fun part => bool_decide (part = dotdot)) (split_byte slash name).

(** One turn of the component loops, [i := strings.IndexByte(remaining, '/')]: the next
    component and what is left after it. *)
Definition next_part (remaining : gostr) : gostr * gostr :=
  match index_byte slash remaining with
  | None => (remaining, [])
  | Some i => (take i remaining, drop (S i) remaining)
  end.

Definition isDescendantPath (name parent : gostr) : bool :=
  let parent := Clean parent in
  let name := Clean name in
  andb (bool_decide (name ≠ parent)) (has_prefix (parent ++ [slash]) name).

(** ** Components of a path *)

Definition valid_comp (c : gostr) : Prop := c ≠ [] ∧ (slash ∉ c) ∧ c ≠ dot ∧ c ≠ dotdot.

Definition valid_comps (cs : list gostr) : Prop := Forall valid_comp cs.

(** The clean absolute path with components [cs]. *)
Definition render (cs : list gostr) : gostr :=
  match cs with [] => root_path | _ => slash :: join [slash] cs end.

(** The components of the absolute path that [p] denotes below "/". *)
Definition comps (p : gostr) : list gostr := clean_comps true (split_byte slash p).

Definition clean_abs (p : gostr) : Prop := ∃ cs, valid_comps cs ∧ p = render cs.

(** [p] followed from the directory with components [cs]. *)
Definition comps_at (cs : list gostr) (p : gostr) : list gostr :=
  reverse (foldl (clean_step true) (reverse cs) (split_byte slash p)).

(** ** Lemmas *)

Lemma valid_comp_ne c : valid_comp c → c ≠ [].
Proof. by intros []. Qed.

Lemma valid_comp_slash c : valid_comp c → slash ∉ c.
Proof. by intros (?&?&?). Qed.

Lemma valid_comps_slash cs : valid_comps cs → Forall (fun c => slash ∉ c) cs.
Proof. apply Forall_impl, valid_comp_slash. Qed.

Lemma valid_comps_snoc cs c : valid_comps (cs ++ [c]) ↔ valid_comps cs ∧ valid_comp c.
Proof. apply Forall_last. Qed.

Lemma clean_step_valid stack c :
  valid_comps stack → slash ∉ c → valid_comps (clean_step true stack c).
Proof.
  intros Hs Hc. unfold clean_step. case_decide as H1; [done|].
  case_decide as H2.
  - destruct stack as [|top rest]; [constructor|].
    apply Forall_cons_1 in Hs as [Htop ?].
    rewrite decide_False; [done|]. by destruct Htop as (?&?&?&?).
  - constructor; [|done]. repeat split; naive_solver.
Qed.

Lemma clean_foldl_valid stack parts :
  valid_comps stack → Forall (fun p => slash ∉ p) parts →
  valid_comps (foldl (clean_step true) stack parts).
Proof.
  revert stack; induction parts as [|p ps IH]; intros stack Hs Hp; simpl; [done|].
  apply Forall_cons_1 in Hp as [??]. apply IH; [by apply clean_step_valid|done].
Qed.

Lemma comps_at_valid cs p : valid_comps cs → valid_comps (comps_at cs p).
Proof.
  intros H. unfold comps_at, valid_comps. rewrite Forall_reverse.
  apply clean_foldl_valid; [by apply Forall_reverse|apply split_byte_parts].
Qed.

Lemma comps_valid p : valid_comps (comps p).
Proof. apply (comps_at_valid [] p). constructor. Qed.

Lemma clean_step_empty rooted stack : clean_step rooted stack [] = stack.
Proof. unfold clean_step. rewrite decide_True; naive_solver. Qed.

Lemma clean_step_push stack c :
  valid_comp c → clean_step true stack c = c :: stack.
Proof.
  intros (?&?&?&?). unfold clean_step. rewrite !decide_False by naive_solver. done.
Qed.

Lemma clean_foldl_push stack cs :
  valid_comps cs → foldl (clean_step true) stack cs = reverse cs ++ stack.
Proof.
  revert stack; induction cs as [|c cs IH]; intros stack H; simpl; [done|].
  apply Forall_cons_1 in H as [??]. rewrite clean_step_push, IH by done.
  by rewrite reverse_cons, <- (assoc_L (++)).
Qed.

Lemma comps_at_join cs rs :
  valid_comps rs → comps_at cs (join [slash] rs) = cs ++ rs.
Proof.
  intros H. unfold comps_at. destruct rs as [|r rs].
  - simpl. by rewrite clean_step_empty, reverse_involutive, app_nil_r.
  - rewrite split_join by (done || by apply valid_comps_slash).
    rewrite clean_foldl_push by done. by rewrite reverse_app, !reverse_involutive.
Qed.

Lemma comps_slash p : comps (slash :: p) = comps p.
Proof. unfold comps, clean_comps. simpl. by rewrite clean_step_empty. Qed.

Lemma comps_render cs : valid_comps cs → comps (render cs) = cs.
Proof.
  intros H. destruct cs as [|c cs]; [done|].
  change (render (c :: cs)) with (slash :: join [slash] (c :: cs)).
  rewrite comps_slash. by apply (comps_at_join []).
Qed.

Lemma render_inj cs ds : valid_comps cs → valid_comps ds → render cs = render ds → cs = ds.
Proof. intros Hc Hd H. by rewrite <- (comps_render cs), H, comps_render. Qed.

Lemma path_Clean_rooted p : path_Clean (slash :: p) = render (comps p).
Proof.
  rewrite <- comps_slash.
  assert (path_Clean (slash :: p) = slash :: join [slash] (comps (slash :: p))) as ->
    by done.
  by destruct (comps (slash :: p)).
Qed.

Lemma render_root_inv cs : valid_comps cs → render cs = root_path → cs = [].
Proof. intros H E. apply (render_inj cs []); [done|constructor|done]. Qed.

Lemma render_head cs : ∃ t, render cs = slash :: t.
Proof. destruct cs; eexists; reflexivity. Qed.

Lemma render_ne_dot cs : render cs ≠ dot.
Proof. by destruct (render_head cs) as [t ->]. Qed.

Lemma render_abs cs : has_prefix root_path (render cs) = true.
Proof. by destruct (render_head cs) as [t ->]. Qed.

Lemma has_root_prefix p : has_prefix root_path p = true → ∃ q, p = slash :: q.
Proof.
  destruct p as [|c p]; simpl; [done|]. intros ?. to_prop. subst. by eexists.
Qed.

Lemma Clean_comps p : Clean p = render (comps p).
Proof.
  destruct p as [|c p]; [done|]. unfold Clean.
  destruct (has_prefix root_path (c :: p)) eqn:E; cbn [negb].
  - apply has_root_prefix in E as [q ->]. cbv zeta. rewrite path_Clean_rooted, comps_slash.
    by rewrite decide_False by apply render_ne_dot.
  - cbv zeta. rewrite path_Clean_rooted. by rewrite decide_False by apply render_ne_dot.
Qed.

Lemma Clean_clean_abs p : clean_abs (Clean p).
Proof. exists (comps p). split; [apply comps_valid|apply Clean_comps]. Qed.

Lemma Clean_render cs : valid_comps cs → Clean (render cs) = render cs.
Proof. intros H. by rewrite Clean_comps, comps_render. Qed.

Lemma Clean_id p : clean_abs p → Clean p = p.
Proof. intros (cs&?&->). by apply Clean_render. Qed.

Lemma Clean_idemp p : Clean (Clean p) = Clean p.
Proof. apply Clean_id, Clean_clean_abs. Qed.

Lemma join_snoc cs c : cs ≠ [] → join [slash] (cs ++ [c]) = join [slash] cs ++ slash :: c.
Proof.
  induction cs as [|d cs IH]; [done|]. intros _. destruct cs as [|e cs]; [done|].
  change (join [slash] ((d :: e :: cs) ++ [c]))
    with (d ++ [slash] ++ join [slash] ((e :: cs) ++ [c])).
  rewrite IH by done. simpl. by rewrite <- (assoc_L (++)).
Qed.

(** What precedes the last component. *)
Lemma render_snoc cs c : ∃ x, render (cs ++ [c]) = x ++ slash :: c ∧
  (cs = [] ∧ x = [] ∨ cs ≠ [] ∧ x = render cs).
Proof.
  destruct cs as [|d cs].
  - exists []. simpl. eauto.
  - exists (render (d :: cs)). split; [|by right].
    assert (∀ l, l ≠ [] → render l = slash :: join [slash] l) as Hr by (by intros []).
    rewrite !Hr, join_snoc by (done || by destruct cs). done.
Qed.

Lemma take_base_app r s : slash ∉ r → take_base (r ++ slash :: s) = r.
Proof.
  induction r as [|c r IH]; intros Hr; simpl; [done|].
  apply not_elem_of_cons in Hr as [??]. rewrite decide_False by done. by rewrite IH.
Qed.

Lemma path_Split_app x c : slash ∉ c → path_Split (x ++ slash :: c) = (x ++ [slash], c).
Proof.
  intros Hc. unfold path_Split.
  assert (reverse (x ++ slash :: c) = reverse c ++ slash :: reverse x) as ->.
  { rewrite reverse_app, reverse_cons, <- (assoc_L (++)). done. }
  rewrite take_base_app by (by rewrite elem_of_reverse). rewrite reverse_involutive.
  f_equal. rewrite length_app. simpl.
  replace (length x + S (length c) - length c)%nat with (length (x ++ [slash]))
    by (rewrite length_app; simpl; lia).
  change (x ++ slash :: c) with (x ++ [slash] ++ c). rewrite (assoc_L (++)).
  by rewrite take_app_length.
Qed.

Lemma clean_step_comp_slash p : comps (p ++ [slash]) = comps p.
Proof.
  unfold comps, clean_comps. f_equal.
  assert (∀ stack, foldl (clean_step true) stack (split_byte slash (p ++ [slash])) =
                   foldl (clean_step true) stack (split_byte slash p)) as H; [|apply H].
  assert (split_byte slash (p ++ [slash]) = split_byte slash p ++ [[]]) as ->.
  { induction p as [|c p IH]; [done|]. simpl. rewrite IH.
    case_decide; [done|]. destruct (split_byte slash p) eqn:E; [|done].
    by apply split_byte_not_nil in E. }
  intros stack. rewrite foldl_app. simpl. by rewrite clean_step_empty.
Qed.

Lemma parentDir_snoc cs c : valid_comps (cs ++ [c]) → parentDir (render (cs ++ [c])) = render cs.
Proof.
  intros H. pose proof H as [Hcs Hc]%valid_comps_snoc. unfold parentDir.
  rewrite decide_False; last first.
  { intros E%render_root_inv; [|done]. by destruct cs. }
  unfold path_Dir. destruct (render_snoc cs c) as (x&->&Hx).
  rewrite path_Split_app by (by apply valid_comp_slash). cbn [fst].
  destruct Hx as [[-> ->]|[Hne ->]]; [done|].
  destruct (render_head cs) as [t Ht]. rewrite Ht. simpl app.
  rewrite path_Clean_rooted, clean_step_comp_slash, <- comps_slash, <- Ht.
  rewrite comps_render by done. by apply Clean_render.
Qed.

Lemma parentDir_root : parentDir root_path = root_path.
Proof. done. Qed.

Lemma drop_slashes_head c r : c ≠ slash → drop_slashes (c :: r) = c :: r.
Proof. intros H. simpl. by rewrite decide_False. Qed.

Lemma path_Base_snoc cs c : valid_comps (cs ++ [c]) → path_Base (render (cs ++ [c])) = c.
Proof.
  intros [Hcs Hc]%valid_comps_snoc.
  destruct (render_snoc cs c) as (x&E&_). destruct (render_head (cs ++ [c])) as [t Ht].
  unfold path_Base. rewrite Ht, <- Ht, E.
  rewrite reverse_app, reverse_cons, <- (assoc_L (++)). simpl app.
  destruct Hc as (Hne&Hs&_&_).
  assert (∃ d r, reverse c = d :: r ∧ d ≠ slash) as (d&r&Er&Hd).
  { destruct (reverse c) as [|d r] eqn:Er.
    - apply (f_equal reverse) in Er. rewrite reverse_involutive in Er. done.
    - exists d, r. split; [done|]. intros ->. apply Hs.
      apply elem_of_reverse. rewrite Er. apply list_elem_of_here. }
  rewrite Er. simpl app. rewrite drop_slashes_head by done.
  change (d :: r ++ slash :: reverse x) with ((d :: r) ++ slash :: reverse x).
  rewrite <- Er, take_base_app by (by rewrite elem_of_reverse).
  rewrite reverse_involutive. by destruct c.
Qed.

Lemma joinClean_render cs c : valid_comps cs → joinClean (render cs) c = render (cs ++ [c]).
Proof.
  intros H. unfold joinClean. destruct (render_snoc cs c) as (x&->&Hx).
  case_decide as E.
  - apply render_root_inv in E; [|done]. subst. by destruct Hx as [[_ ->]|[? _]].
  - destruct Hx as [[-> ->]|[? ->]]; [done|done].
Qed.

Lemma next_part_join c cs :
  valid_comp c → next_part (join [slash] (c :: cs)) = (c, join [slash] cs).
Proof.
  intros Hc%valid_comp_slash. unfold next_part. destruct cs as [|d cs].
  - simpl. by rewrite (proj2 (index_byte_None slash c)).
  - change (join [slash] (c :: d :: cs)) with (c ++ slash :: join [slash] (d :: cs)).
    rewrite index_byte_app by done. rewrite take_app_length.
    f_equal. rewrite <- (Nat.add_1_r (length c)), Nat.add_comm, <- skipn_skipn.
    by rewrite drop_app_length.
Qed.

Lemma drop1_render cs : drop 1 (render cs) = join [slash] cs.
Proof. by destruct cs. Qed.

Lemma join_nil_inv cs : valid_comps cs → join [slash] cs = [] → cs = [].
Proof.
  destruct cs as [|c cs]; [done|]. intros [[Hc _] _]%Forall_cons_1. simpl.
  destruct cs; [done|]. by destruct c.
Qed.

Lemma comps_app_slash a b : comps (a ++ slash :: b) = comps_at (comps a) b.
Proof.
  unfold comps, comps_at, clean_comps. rewrite reverse_involutive. f_equal.
  rewrite <- foldl_app. f_equal.
  induction a as [|c a IH]; simpl; [done|].
  rewrite IH. case_decide; [done|]. destruct (split_byte slash a) eqn:E; [|done].
  by apply split_byte_not_nil in E.
Qed.

Lemma Resolve_abs dir name :
  has_prefix root_path name = true → Resolve dir name = render (comps name).
Proof.
  intros H. unfold Resolve. destruct name as [|c n]; [done|]. rewrite H. apply Clean_comps.
Qed.

Lemma Resolve_rel cs name : valid_comps cs → has_prefix root_path name = false →
  Resolve (render cs) name = render (comps_at cs name).
Proof.
  intros Hcs H. unfold Resolve. destruct name as [|c n].
  { rewrite Clean_render by done. unfold comps_at. simpl.
    by rewrite clean_step_empty, reverse_involutive. }
  rewrite H. destruct (render_head cs) as [t Ht]. rewrite Ht.
  unfold path_Join. rewrite Clean_comps. simpl app. rewrite path_Clean_rooted.
  rewrite comps_render by apply comps_valid.
  rewrite (comps_app_slash t (c :: n)), <- comps_slash, <- Ht, comps_render by done. done.
Qed.

Lemma Resolve_clean_abs dir name : clean_abs dir → clean_abs (Resolve dir name).
Proof.
  intros (cs&Hcs&->). destruct (has_prefix root_path name) eqn:E.
  - rewrite Resolve_abs by done. eexists; split; [apply comps_valid|done].
  - rewrite Resolve_rel by done. eexists; split; [by apply comps_at_valid|done].
Qed.

Lemma join_not_abs rs : valid_comps rs → has_prefix root_path (join [slash] rs) = false.
Proof.
  destruct rs as [|c rs]; [done|]. intros [(Hne&Hs&_) _]%Forall_cons_1.
  destruct c as [|d c]; [done|]. apply not_elem_of_cons in Hs as [Hd _].
  destruct rs; simpl; by rewrite bool_decide_eq_false_2.
Qed.

Lemma Resolve_join cs rs : valid_comps cs → valid_comps rs →
  Resolve (render cs) (join [slash] rs) = render (cs ++ rs).
Proof.
  intros Hc Hr. rewrite Resolve_rel by (done || by apply join_not_abs).
  by rewrite comps_at_join.
Qed.

(** Byte prefixes of clean paths are component prefixes: "/a" is no prefix of "/ab". *)
Lemma prefix_render cs ds : valid_comps cs → valid_comps ds → cs ≠ [] →
  (render cs ++ [slash]) `prefix_of` render ds ↔ ∃ e es, ds = cs ++ e :: es.
Proof.
  intros Hc Hd Hne. split.
  - intros [k Hk]. rewrite <- (assoc_L (++)) in Hk. simpl in Hk.
    assert (comps_at cs k = ds) as Hcomps.
    { rewrite <- (comps_render ds), Hk, comps_app_slash, comps_render by done. done. }
    destruct (render_head cs) as [t Ht].
    assert (split_byte slash (render ds) = [] :: ds) as Hsd.
    { destruct ds as [|d ds'].
      - exfalso. rewrite Ht in Hk. destruct cs as [|c cs']; [done|].
        apply (f_equal length) in Hk. rewrite length_app in Hk. simpl in Hk. lia.
      - change (render (d :: ds')) with (slash :: join [slash] (d :: ds')).
        assert (∀ l, split_byte slash (slash :: l) = [] :: split_byte slash l) as -> by done.
        by rewrite split_join by (done || by apply valid_comps_slash). }
    assert (split_byte slash (render ds) = [] :: cs ++ split_byte slash k) as Hsk.
    { rewrite Hk. destruct cs as [|c cs']; [done|].
      change (render (c :: cs')) with (slash :: join [slash] (c :: cs')).
      assert (∀ l, split_byte slash (slash :: l) = [] :: split_byte slash l) as H0 by done.
      simpl app. rewrite H0. f_equal. clear -Hc. revert c Hc.
      induction cs' as [|d cs' IH]; intros c [Hv Hvs]%Forall_cons_1.
      - simpl join. by rewrite split_byte_app by (by apply valid_comp_slash).
      - change (join [slash] (c :: d :: cs')) with (c ++ slash :: join [slash] (d :: cs')).
        rewrite <- (assoc_L (++)). simpl app at 2.
        rewrite split_byte_app by (by apply valid_comp_slash). by rewrite IH. }
    rewrite Hsd in Hsk. simplify_eq. destruct (split_byte slash k) as [|e es] eqn:E;
      [by apply split_byte_not_nil in E|]. eauto.
  - intros (e&es&->). apply Forall_app in Hd as [_ Hd].
    exists (join [slash] (e :: es)).
    destruct cs as [|c cs]; [done|].
    clear Hne. assert (∀ l m, l ≠ [] → m ≠ [] →
      join [slash] (l ++ m) = join [slash] l ++ slash :: join [slash] m) as Hj.
    { intros l m Hl Hm. induction l as [|x l IH]; [done|]. destruct l as [|y l].
      - simpl. by destruct m.
      - change (join [slash] ((x :: y :: l) ++ m))
          with (x ++ slash :: join [slash] ((y :: l) ++ m)).
        rewrite IH by done. simpl. by rewrite <- (assoc_L (++)). }
    change (render ((c :: cs) ++ e :: es)) with (slash :: join [slash] ((c :: cs) ++ e :: es)).
    rewrite Hj by done. change (render (c :: cs)) with (slash :: join [slash] (c :: cs)).
    simpl. rewrite <- (assoc_L (++)). done.
Qed.

#[export] Hint Resolve comps_valid comps_at_valid Clean_clean_abs Resolve_clean_abs : go.
