(* ===== verification/FsTypes.v ===== *)
(** The values the filesystem layer exchanges: error values with [errors.Is], file modes, open
    flags, and the read-only view of a filesystem that the path policy relies on. *)
From S2P Require Import Prelude GoPath.

(** ** Errors *)

(** The sentinel errors of [io/fs], [io], [os] and [syscall] that the sources return or test,
    and the two of their own ([errTooManySymlinks] in [fs/memory.go] and [policy/pathcheck.go]).
    [ErrFuel] is no Go value: it marks the exhaustion of a recursion counter of the model. *)
Inductive errno :=
| ErrNotExist | ErrExist | ErrInvalid | ErrPermission | ErrClosed
| ENOENT | ENOTDIR
| ErrTooManySymlinks
| ErrEOF | ErrClosedPipe | ErrShortWrite | ErrDeadlineExceeded
| EXDEV | EBUSY | EFBIG | ErrUnsupported
| ErrFuel.

#[export] Instance errno_eq_dec : EqDecision errno.
Proof. solve_decision. Defined.

(** A Go [error]: a sentinel, an [*os.PathError] or [*os.LinkError] around another error, a
    [*policy.DeniedError]
    (its subject kept as the verb and the operand that the message quotes), or an error that
    came from code outside the model.  [EPanic] stands for a Go run-time panic: a dereference of
    a nil pointer or an assignment to a nil map. *)
Inductive error :=
| ESent (e : errno)
| EPath (op : gostr) (path : gostr) (err : error)
| ELink (op old new : gostr) (err : error)
| EDenied (verb operand reason : gostr)
| EForeign (n : nat)
| EPanic.

#[export] Instance error_eq_dec : EqDecision error.
Proof. solve_decision. Defined.

(** [errors.Is]: unwraps path and link errors; [syscall.ENOENT] matches [fs.ErrNotExist]. *)
Fixpoint errors_Is (err : error) (target : errno) : bool :=
  match err with
  | ESent e => bool_decide (e = target) || bool_decide (e = ENOENT ∧ target = ErrNotExist)
  | EPath _ _ e => errors_Is e target
  | ELink _ _ _ e => errors_Is e target
  | EDenied _ _ _ => false
  | EForeign _ => false
  | EPanic => false
  end.

(** ** [fs.FileMode] and open flags *)

Definition ModeDir : N := 2 ^ 31.
Definition ModeSymlink : N := 2 ^ 27.
Definition ModeDevice : N := 2 ^ 26.
Definition ModeNamedPipe : N := 2 ^ 25.
Definition ModeSocket : N := 2 ^ 24.
Definition ModeSetuid : N := 2 ^ 23.
Definition ModeSetgid : N := 2 ^ 22.
Definition ModeCharDevice : N := 2 ^ 21.
Definition ModeSticky : N := 2 ^ 20.
Definition ModeIrregular : N := 2 ^ 19.
Definition ModePerm : N := 511.
Definition ModeType : N :=
  Eval vm_compute in
  N.lor ModeDir (N.lor ModeSymlink (N.lor ModeNamedPipe (N.lor ModeSocket
    (N.lor ModeDevice (N.lor ModeCharDevice ModeIrregular))))).

(** [mode & bits != 0]. *)
Definition has_bits (mode bits : N) : bool := negb (N.land mode bits =? 0)%N.

Definition mode_IsDir (mode : N) : bool := has_bits mode ModeDir.
Definition mode_Type (mode : N) : N := N.land mode ModeType.
Definition mode_Perm (mode : N) : N := N.land mode ModePerm.

(** The open flags, with their Linux values. *)
Definition O_RDONLY : N := 0.
Definition O_WRONLY : N := 1.
Definition O_RDWR : N := 2.
Definition O_CREATE : N := 64.
Definition O_EXCL : N := 128.
Definition O_TRUNC : N := 512.
Definition O_APPEND : N := 1024.

Definition accmode (flag : N) : N := N.land flag (N.lor O_RDONLY (N.lor O_WRONLY O_RDWR)).

Definition canWrite (flag : N) : bool :=
  ((accmode flag =? O_WRONLY) || (accmode flag =? O_RDWR))%N.

Definition canRead (flag : N) : bool := negb (accmode flag =? O_WRONLY)%N.

Definition hasWriteIntent (flag : N) : bool :=
  if canWrite flag then true
  else has_bits flag (N.lor O_APPEND (N.lor O_CREATE O_TRUNC)).

(** ** The view of a filesystem that path checks use

    [Lstat] returns the mode of the entry and may load a lazy file, so it threads the state. *)
Class PathFS (S : Type) := {
  fs_Realpath : S → gostr → result error gostr;
  fs_Lstat : S → gostr → result error N * S;
  fs_Readlink : S → gostr → result error gostr;
}.
