(* ===== verification/Policy.v ===== *)
(** The sandbox policy: the static allowlists of [policy/policy.go] and the path check with its
    symlink resolution of [policy/pathcheck.go], over any filesystem with the [PathFS] view. *)
From S2P Require Import Prelude GoPath FsTypes.

(** ** Data *)

(** [FileAction] and [SymlinkMode] are Go string types with these constants. *)
Definition FileActionRead := go "read".
Definition FileActionWrite := go "write".
Definition FileActionStat := go "stat".
Definition FileActionLstat := go "lstat".
Definition FileActionReadlink := go "readlink".
Definition FileActionReadDir := go "readdir".
Definition FileActionMkdir := go "mkdir".
Definition FileActionRemove := go "remove".
Definition FileActionRename := go "rename".

Definition SymlinkDeny := go "deny".
Definition SymlinkFollow := go "follow".

Record Limits := {
  MaxCommandCount : Z;
  MaxGlobOperations : Z;
  MaxBraceExpansionWords : Z;
  MaxLoopIterations : Z;
  MaxSubstitutionDepth : Z;
  MaxFunctionDepth : Z;
  MaxStdoutBytes : Z;
  MaxStderrBytes : Z;
  MaxFileBytes : Z;
  MaxVariableBytes : Z;
  MaxTotalVariableBytes : Z;
}.

Definition zeroLimits : Limits := Build_Limits 0 0 0 0 0 0 0 0 0 0 0.

(** The [Policy] interface; a method returns [None] for a nil error. *)
Record Policy := {
  pol_AllowCommand : gostr → list gostr → option error;
  pol_AllowBuiltin : gostr → list gostr → option error;
  pol_AllowPath : gostr → gostr → option error;
  pol_Limits : Limits;
  pol_SymlinkMode : gostr;
}.

Record Config := {
  cfg_AllowedCommands : list gostr;
  cfg_AllowedBuiltins : list gostr;
  cfg_ReadRoots : list gostr;
  cfg_WriteRoots : list gostr;
  cfg_Limits : Limits;
  cfg_SymlinkMode : gostr;
}.

Record Static := {
  allowedCommands : list gostr;
  allowedBuiltins : list gostr;
  readRoots : list gostr;
  writeRoots : list gostr;
  limits : Limits;
  symlinkMode : gostr;
}.

(** ** Normalization *)

(** The loops of [normalizeNames] and [normalizeRoots]: transform, drop blanks, keep the first
    of equal values, then sort. *)
Fixpoint dedupe (seen : list gostr) (l : list gostr) : list gostr :=
  match l with
  | [] => []
  | x :: l' => if decide (x ∈ seen) then dedupe seen l' else x :: dedupe (x :: seen) l'
  end.

Definition normalizeNames (names : list gostr) : list gostr :=
  sort_strings (dedupe [] (filter (fun n => n ≠ []) (map TrimSpace names))).

Definition cleanAbs (name : gostr) : gostr :=
  match name with
  | [] => go "/"
  | _ =>
      let name := if negb (has_prefix (go "/") name) then slash :: name else name in
      let name := path_Clean name in
      if decide (name = go ".") then go "/" else name
  end.

Definition normalizeRoots (roots : list gostr) : list gostr :=
  sort_strings (dedupe [] (map cleanAbs roots)).

Definition underRoot (root target : gostr) : bool :=
  if decide (root = go "/") then true
  else bool_decide (target = root) || has_prefix (root ++ go "/") target.

Definition emptyConfig : Config := Build_Config [] [] [] [] zeroLimits [].

Definition NewStatic (cfg : option Config) : Static :=
  let cfg := default emptyConfig cfg in
  let readRoots := normalizeRoots (cfg_ReadRoots cfg) in
  let readRoots := match readRoots with [] => [go "/"] | _ => readRoots end in
  let writeRoots := normalizeRoots (cfg_WriteRoots cfg) in
  let writeRoots := match writeRoots with [] => [go "/"] | _ => writeRoots end in
  let symlinkMode := match cfg_SymlinkMode cfg with [] => SymlinkDeny | m => m end in
  Build_Static (normalizeNames (cfg_AllowedCommands cfg))
    (normalizeNames (cfg_AllowedBuiltins cfg)) readRoots writeRoots
    (cfg_Limits cfg) symlinkMode.

(** ** The methods of [Static] *)

Definition AllowCommand (p : Static) (name : gostr) (argv : list gostr) : option error :=
  if decide (allowedCommands p = []) then None
  else if decide (name ∈ allowedCommands p) then None
  else Some (EDenied (go "command") name (go "not in allowlist")).

Definition AllowBuiltin (p : Static) (name : gostr) (argv : list gostr) : option error :=
  if decide (allowedBuiltins p = []) then None
  else if decide (name ∈ allowedBuiltins p) then None
  else Some (EDenied (go "builtin") name (go "not in allowlist")).

Definition AllowPath (p : Static) (action target : gostr) : option error :=
  let target := cleanAbs target in
  let roots :=
    if decide (action ∈ [FileActionWrite; FileActionMkdir; FileActionRemove; FileActionRename])
    then writeRoots p else readRoots p in
  if existsb (fun root => underRoot root target) roots then None
  else Some (EDenied action target (go "outside allowed roots")).

(** [*Static] as a [Policy]. *)
Definition static_policy (p : Static) : Policy := {|
  pol_AllowCommand := AllowCommand p;
  pol_AllowBuiltin := AllowBuiltin p;
  pol_AllowPath := AllowPath p;
  pol_Limits := limits p;
  pol_SymlinkMode := symlinkMode p;
|}.

Fixpoint is_denied (e : error) : bool :=
  match e with
  | EDenied _ _ _ => true
  | EPath _ _ e' => is_denied e'
  | ELink _ _ _ e' => is_denied e'
  | _ => false
  end.

Definition IsDenied (err : option error) : bool :=
  match err with None => false | Some e => is_denied e end.

(** ** Path checks *)

Definition maxSymlinkHops : nat := 40.

Section checks.
Context {FS : Type} `{PathFS FS}.

(** [resolveMaybeMissing].  [h] is the number of calls left before [hops > maxSymlinkHops]
    fails, so [hops = 0] is [h = 41]; [n] bounds the recursion on [path.Dir target]. *)
Fixpoint resolve_hops (h : nat) : nat → FS → gostr → bool → result error gostr * FS :=
  match h with
  | O => fun _ s _ _ => (Err (ESent ErrTooManySymlinks), s)
  | S h' =>
      fix walk (n : nat) (s : FS) (target : gostr) (followFinal : bool)
          {struct n} : result error gostr * FS :=
        let target := cleanAbs target in
        let rp := fs_Realpath s target in
        match (if followFinal then
                 match rp with
                 | Ok resolved => Some (Ok (cleanAbs resolved))
                 | Err err => if errors_Is err ErrNotExist then None else Some (Err err)
                 end
               else None) with
        | Some r => (r, s)
        | None =>
            if decide (target = go "/") then (Ok target, s)
            else match n with
            | O => (Err (ESent ErrFuel), s)
            | S n' =>
                match walk n' s (path_Dir target) true with
                | (Err err, s) => (Err err, s)
                | (Ok parent, s) =>
                    let candidate := cleanAbs (path_Join parent (path_Base target)) in
                    if negb followFinal then (Ok candidate, s)
                    else match fs_Lstat s candidate with
                    | (Err err, s) =>
                        if errors_Is err ErrNotExist then (Ok candidate, s) else (Err err, s)
                    | (Ok mode, s) =>
                        if negb (has_bits mode ModeSymlink) then (Ok candidate, s)
                        else match fs_Readlink s candidate with
                        | Err err => (Err err, s)
                        | Ok linkTarget =>
                            let next := if path_IsAbs linkTarget then linkTarget
                                        else path_Join parent linkTarget in
                            resolve_hops h' (length (comps next)) s next true
                        end
                    end
                end
            end
        end
  end.

Definition resolveMaybeMissing (s : FS) (target : gostr) (followFinal : bool) (hops : nat)
  : result error gostr * FS :=
  resolve_hops (S maxSymlinkHops - hops) (length (comps target)) s target followFinal.

Definition resolveTarget (s : FS) (action target : gostr)
  : (gostr * bool * option error) * FS :=
  if decide (action ∈ [FileActionRead; FileActionStat; FileActionReadDir]) then
    match fs_Realpath s target with
    | Ok resolved =>
        ((cleanAbs resolved, bool_decide (cleanAbs resolved ≠ cleanAbs target), None), s)
    | Err err =>
        (* the Go call returns the empty path along with its error *)
        ((cleanAbs [], bool_decide (cleanAbs [] ≠ cleanAbs target), Some err), s)
    end
  else if decide (action ∈
      [FileActionLstat; FileActionReadlink; FileActionRemove; FileActionRename]) then
    match resolveMaybeMissing s target false 0 with
    | (Err err, s) => (([], false, Some err), s)
    | (Ok resolved, s) =>
        ((resolved, bool_decide (resolved ≠ cleanAbs target), None), s)
    end
  else if decide (action ∈ [FileActionWrite; FileActionMkdir]) then
    match resolveMaybeMissing s target true 0 with
    | (Err err, s) => (([], false, Some err), s)
    | (Ok resolved, s) =>
        ((resolved, bool_decide (resolved ≠ cleanAbs target), None), s)
    end
  else ((target, false, None), s).

(** [CheckPath]; [None] stands for a nil policy or filesystem. *)
Definition CheckPath (pol : option Policy) (fsys : option FS) (action target : gostr)
  : option error * option FS :=
  let target := cleanAbs target in
  match pol with
  | None => (None, fsys)
  | Some pol =>
      match pol_AllowPath pol action target with
      | Some err => (Some err, fsys)
      | None =>
          match fsys with
          | None => (None, fsys)
          | Some s =>
              match resolveTarget s action target with
              | ((_, _, Some err), s) =>
                  if errors_Is err ErrNotExist || errors_Is err ErrInvalid
                  then (None, Some s) else (Some err, Some s)
              | ((resolved, traversed, None), s) =>
                  if traversed && bool_decide (pol_SymlinkMode pol = SymlinkDeny)
                  then (Some (EDenied action target (go "symlink traversal denied")), Some s)
                  else if decide (resolved ≠ target) then
                    (pol_AllowPath pol action resolved, Some s)
                  else (None, Some s)
              end
          end
      end
  end.
End checks.

(** ** Lemmas *)

Lemma cleanAbs_Clean name : cleanAbs name = Clean name.
Proof. done. Qed.

Lemma elem_of_dedupe seen x l : x ∈ dedupe seen l ↔ x ∈ l ∧ x ∉ seen.
Proof.
  revert seen; induction l as [|y l IH]; intros seen; simpl.
  - rewrite elem_of_nil. naive_solver.
  - case_decide; rewrite ?elem_of_cons, IH, ?not_elem_of_cons; [naive_solver|].
    destruct (decide (x = y)); naive_solver.
Qed.

Lemma elem_of_normalizeRoots r roots :
  r ∈ normalizeRoots roots ↔ ∃ root, root ∈ roots ∧ r = cleanAbs root.
Proof.
  unfold normalizeRoots. rewrite elem_of_sort_strings, elem_of_dedupe, list_elem_of_fmap.
  split; [naive_solver|]. intros (root&?&->). split; [by eauto|apply not_elem_of_nil].
Qed.

Lemma elem_of_normalizeNames n names :
  n ∈ normalizeNames names ↔ n ≠ [] ∧ ∃ name, name ∈ names ∧ n = TrimSpace name.
Proof.
  unfold normalizeNames. rewrite elem_of_sort_strings, elem_of_dedupe, list_elem_of_filter,
    list_elem_of_fmap.
  split; [naive_solver|]. intros (?&name&?&->). split; [by eauto|apply not_elem_of_nil].
Qed.

(** Being under a root is a relation on components, not on bytes. *)
Lemma underRoot_render rs ts : valid_comps rs → valid_comps ts →
  underRoot (render rs) (render ts) = true ↔ rs `prefix_of` ts.
Proof.
  intros Hr Ht. unfold underRoot. case_decide as E.
  { apply render_root_inv in E as ->; [|done]. split; [intros _; apply prefix_nil|done]. }
  assert (rs ≠ []) as Hne by (by intros ->).
  rewrite orb_true_iff, bool_decide_eq_true, has_prefix_spec.
  change (go "/") with [slash]. rewrite prefix_render by done. split.
  - intros [Heq|(e&es&->)]; [|by apply prefix_app_r].
    by apply render_inj in Heq as ->.
  - intros [[|k ks] ->]; [left; by rewrite app_nil_r|right; eauto].
Qed.

Lemma underRoot_comps root target :
  underRoot (cleanAbs root) (cleanAbs target) = true ↔ comps root `prefix_of` comps target.
Proof.
  rewrite !cleanAbs_Clean, !Clean_comps. apply underRoot_render; apply comps_valid.
Qed.

Lemma comps_cleanAbs p : comps (cleanAbs p) = comps p.
Proof. rewrite cleanAbs_Clean, Clean_comps. apply comps_render, comps_valid. Qed.

Lemma cleanAbs_idemp p : cleanAbs (cleanAbs p) = cleanAbs p.
Proof. apply Clean_idemp. Qed.

Lemma cleanAbs_id p : clean_abs p → cleanAbs p = p.
Proof. apply Clean_id. Qed.

Lemma existsb_elem {A} (f : A → bool) l : existsb f l = true ↔ ∃ x, x ∈ l ∧ f x = true.
Proof.
  rewrite existsb_exists. split; intros (x&?&?); exists x; (split; [by apply list_elem_of_In|done]).
Qed.

(** The roots of a configuration that govern an action. *)
Definition configured_roots (cfg : Config) (action : gostr) : list gostr :=
  if decide (action ∈ [FileActionWrite; FileActionMkdir; FileActionRemove; FileActionRename])
  then cfg_WriteRoots cfg else cfg_ReadRoots cfg.

(** A path is inside a configuration when one of the roots is a component prefix of it; with
    no roots everything is inside. *)
Definition within_roots (cfg : Config) (action target : gostr) : Prop :=
  configured_roots cfg action = [] ∨
  ∃ root, root ∈ configured_roots cfg action ∧ comps root `prefix_of` comps target.

Lemma roots_default_spec roots target :
  existsb (fun root => underRoot root (cleanAbs target))
    (match normalizeRoots roots with [] => [go "/"] | _ => normalizeRoots roots end) = true ↔
  roots = [] ∨ ∃ root, root ∈ roots ∧ comps root `prefix_of` comps target.
Proof.
  destruct (normalizeRoots roots) as [|r rs] eqn:E.
  - assert (roots = []) as ->.
    { destruct roots as [|r rs]; [done|].
      assert (cleanAbs r ∈ normalizeRoots (r :: rs)) as Hr.
      { rewrite elem_of_normalizeRoots. exists r. split; [apply list_elem_of_here|done]. }
      rewrite E in Hr. by apply elem_of_nil in Hr. }
    split; [by left|done].
  - rewrite existsb_elem, <- E. split.
    + intros (x&(root&?&->)%elem_of_normalizeRoots&Hu). right. exists root.
      by rewrite <- underRoot_comps.
    + intros [->|(root&Hroot&Hu)]; [done|]. exists (cleanAbs root).
      rewrite underRoot_comps, elem_of_normalizeRoots. split; [by exists root|done].
Qed.

Lemma AllowPath_within cfg action target :
  AllowPath (NewStatic (Some cfg)) action target = None ↔ within_roots cfg action target.
Proof.
  unfold AllowPath, within_roots, configured_roots. cbv zeta. case_decide.
  - rewrite <- (roots_default_spec (cfg_WriteRoots cfg) target).
    change (writeRoots (NewStatic (Some cfg))) with
      (match normalizeRoots (cfg_WriteRoots cfg) with [] => [go "/"] | _ => normalizeRoots (cfg_WriteRoots cfg) end).
    by case_match.
  - rewrite <- (roots_default_spec (cfg_ReadRoots cfg) target).
    change (readRoots (NewStatic (Some cfg))) with
      (match normalizeRoots (cfg_ReadRoots cfg) with [] => [go "/"] | _ => normalizeRoots (cfg_ReadRoots cfg) end).
    by case_match.
Qed.

Section check_lemmas.
Context {FS : Type} `{PathFS FS}.

(** The body of [resolve_hops] for one call, with the recursive calls as arguments. *)
Lemma resolve_hops_eq h' n s target followFinal :
  resolve_hops (S h') n s target followFinal =
  let target := cleanAbs target in
  match (if followFinal then
           match fs_Realpath s target with
           | Ok resolved => Some (Ok (cleanAbs resolved))
           | Err err => if errors_Is err ErrNotExist then None else Some (Err err)
           end
         else None) with
  | Some r => (r, s)
  | None =>
      if decide (target = go "/") then (Ok target, s)
      else match n with
      | O => (Err (ESent ErrFuel), s)
      | S n' =>
          match resolve_hops (S h') n' s (path_Dir target) true with
          | (Err err, s) => (Err err, s)
          | (Ok parent, s) =>
              let candidate := cleanAbs (path_Join parent (path_Base target)) in
              if negb followFinal then (Ok candidate, s)
              else match fs_Lstat s candidate with
              | (Err err, s) =>
                  if errors_Is err ErrNotExist then (Ok candidate, s) else (Err err, s)
              | (Ok mode, s) =>
                  if negb (has_bits mode ModeSymlink) then (Ok candidate, s)
                  else match fs_Readlink s candidate with
                  | Err err => (Err err, s)
                  | Ok linkTarget =>
                      let next := if path_IsAbs linkTarget then linkTarget
                                  else path_Join parent linkTarget in
                      resolve_hops h' (length (comps next)) s next true
                  end
              end
          end
      end
  end.
Proof. by destruct n. Qed.

(** [path.Dir] of a clean path drops one component. *)
Lemma comps_path_Dir target : comps (path_Dir (cleanAbs target)) = take (length (comps target) - 1) (comps target).
Proof.
  rewrite cleanAbs_Clean, Clean_comps. pose proof (comps_valid target) as Hv.
  destruct (comps target) as [|c cs _] using rev_ind; [done|].
  rewrite length_app, Nat.add_sub, take_app_length.
  pose proof (parentDir_snoc cs c Hv) as Hp. unfold parentDir in Hp.
  rewrite decide_False in Hp; last first.
  { intros E%render_root_inv; [|done]. by destruct cs. }
  rewrite Clean_comps in Hp. apply valid_comps_snoc in Hv as [Hv _].
  apply render_inj in Hp; [done|apply comps_valid|done].
Qed.

(** Every resolution is a clean absolute path. *)
Lemma resolve_hops_clean h n s target ff r s' :
  resolve_hops h n s target ff = (Ok r, s') → clean_abs r.
Proof.
  revert n s target ff r s'. induction h as [|h IHh]; [done|].
  intros n. induction n as [|n IHn]; intros s target ff r s';
    rewrite resolve_hops_eq; cbv zeta; intros Hr;
    repeat (case_match; simplify_eq/=; try apply Clean_clean_abs); eauto.
Qed.

(** The recursion on [path.Dir] ends at "/" before the counter does: a call made with at least
    as much fuel as [target] has components never exhausts it. *)
Lemma resolve_hops_fuel h n s target ff s' :
  (∀ s p, fs_Realpath s p ≠ Err (ESent ErrFuel)) →
  (∀ s p, (fs_Lstat s p).1 ≠ Err (ESent ErrFuel)) →
  (∀ s p, fs_Readlink s p ≠ Err (ESent ErrFuel)) →
  (length (comps target) ≤ n)%nat →
  resolve_hops h n s target ff ≠ (Err (ESent ErrFuel), s').
Proof.
  intros Hrp Hls Hrl. revert n s target ff s'. induction h as [|h IHh]; [done|].
  intros n. induction n as [|n IHn]; intros s target ff s' Hn;
    rewrite resolve_hops_eq; cbv zeta; intros Hr.
  - assert (cleanAbs target = go "/") as Ht.
    { rewrite cleanAbs_Clean, Clean_comps. by destruct (comps target); [|simpl in Hn; lia]. }
    rewrite decide_True in Hr by done. repeat (case_match; simplify_eq/=); by eapply Hrp.
  - assert (∀ s'', resolve_hops (S h) n s (path_Dir (cleanAbs target)) true ≠
                   (Err (ESent ErrFuel), s'')) as Hpar.
    { intros s''. apply IHn. rewrite comps_path_Dir, length_take. lia. }
    repeat (case_match; simplify_eq/=); try (by eapply Hrp); try (by eapply Hrl);
      try (by eapply Hpar); try (by eapply IHh; [|done]).
    all: by eapply Hls; match goal with E : fs_Lstat ?s ?p = _ |- _ => rewrite (surjective_pairing (fs_Lstat s p)) in E end; simplify_eq.
Qed.
End check_lemmas.
