(* ===== verification/MemoryFS.v ===== *)
(** The in-memory filesystem of [fs/memory.go]: a map from clean absolute paths to node
    pointers over a store of nodes, so that hard links and open handles share a node. *)
From S2P Require Import Prelude GoPath FsTypes.

(** ** State *)

(** The address of a [*memoryNode] (or of a [*memoryFIFO]). *)
Abbreviation loc := positive.

(** [time.Time] in nanoseconds; 0 is the zero time. *)
Abbreviation time := Z.

Definition firstNonZeroTime (a b : time) : time := if a =? 0 then b else a.

Record memoryNode := MkNode {
  n_id : N;
  n_mode : N;
  n_data : gostr;
  n_fifo : option loc;
  n_lazy : option nat;       (* which [LazyFileProvider] *)
  n_lazySize : Z;
  n_lazySized : bool;
  n_target : gostr;
  n_children : option (gset gostr);   (* [None] is the nil map *)
  n_atime : time;
  n_modTime : time;
  n_uid : N;
  n_gid : N;
}.

Record MemoryFS := MkFS {
  cwd : gostr;
  nodes : gmap gostr loc;
  nextNodeID : N;
  implicitParents : bool;
  heap : gmap loc memoryNode;   (* what the pointers point to *)
  next_loc : loc;               (* the next address to allocate *)
}.

(** Field assignments. *)
Definition set_mode (v : N) (n : memoryNode) : memoryNode :=
  MkNode (n_id n) v (n_data n) (n_fifo n) (n_lazy n) (n_lazySize n) (n_lazySized n)
    (n_target n) (n_children n) (n_atime n) (n_modTime n) (n_uid n) (n_gid n).
Definition set_data (v : gostr) (n : memoryNode) : memoryNode :=
  MkNode (n_id n) (n_mode n) v (n_fifo n) (n_lazy n) (n_lazySize n) (n_lazySized n)
    (n_target n) (n_children n) (n_atime n) (n_modTime n) (n_uid n) (n_gid n).
Definition set_fifo (v : option loc) (n : memoryNode) : memoryNode :=
  MkNode (n_id n) (n_mode n) (n_data n) v (n_lazy n) (n_lazySize n) (n_lazySized n)
    (n_target n) (n_children n) (n_atime n) (n_modTime n) (n_uid n) (n_gid n).
Definition set_lazy (v : option nat) (n : memoryNode) : memoryNode :=
  MkNode (n_id n) (n_mode n) (n_data n) (n_fifo n) v (n_lazySize n) (n_lazySized n)
    (n_target n) (n_children n) (n_atime n) (n_modTime n) (n_uid n) (n_gid n).
Definition set_children (v : option (gset gostr)) (n : memoryNode) : memoryNode :=
  MkNode (n_id n) (n_mode n) (n_data n) (n_fifo n) (n_lazy n) (n_lazySize n) (n_lazySized n)
    (n_target n) v (n_atime n) (n_modTime n) (n_uid n) (n_gid n).
Definition set_times (a m : time) (n : memoryNode) : memoryNode :=
  MkNode (n_id n) (n_mode n) (n_data n) (n_fifo n) (n_lazy n) (n_lazySize n) (n_lazySized n)
    (n_target n) (n_children n) a m (n_uid n) (n_gid n).
Definition set_modTime (v : time) (n : memoryNode) : memoryNode := set_times (n_atime n) v n.
Definition set_owner (u g : N) (n : memoryNode) : memoryNode :=
  MkNode (n_id n) (n_mode n) (n_data n) (n_fifo n) (n_lazy n) (n_lazySize n) (n_lazySized n)
    (n_target n) (n_children n) (n_atime n) (n_modTime n) u g.

Definition set_cwd (v : gostr) (m : MemoryFS) : MemoryFS :=
  MkFS v (nodes m) (nextNodeID m) (implicitParents m) (heap m) (next_loc m).
Definition set_nodes (v : gmap gostr loc) (m : MemoryFS) : MemoryFS :=
  MkFS (cwd m) v (nextNodeID m) (implicitParents m) (heap m) (next_loc m).
Definition set_heap (v : gmap loc memoryNode) (m : MemoryFS) : MemoryFS :=
  MkFS (cwd m) (nodes m) (nextNodeID m) (implicitParents m) v (next_loc m).

(** ** Operations as state transformers that may fail *)

Definition M (A : Type) : Type := MemoryFS → result error A * MemoryFS.

#[export] Instance M_ret : MRet M := fun A a m => (Ok a, m).
#[export] Instance M_bind : MBind M := fun A B f c m =>
  match c m with (Ok a, m) => f a m | (Err e, m) => (Err e, m) end.

Definition throw {A} (e : error) : M A := fun m => (Err e, m).
Definition get : M MemoryFS := fun m => (Ok m, m).
Definition modify (f : MemoryFS → MemoryFS) : M unit := fun m => (Ok tt, f m).
(** A call whose error is inspected by the caller. *)
Definition attempt {A} (c : M A) : M (result error A) := fun m =>
  match c m with (r, m) => (Ok r, m) end.
Definition lift {A} (r : result error A) : M A := fun m => (r, m).

Definition throw_path {A} (op : string) (path : gostr) (err : error) : M A :=
  throw (EPath (go op) path err).

(** ** Constants *)

Definition maxSymlinkDepth : nat := 40.
Definition seedableTypeBits : N :=
  Eval vm_compute in N.lor ModeNamedPipe (N.lor ModeDevice ModeCharDevice).
Definition storedPermBits : N :=
  Eval vm_compute in N.lor ModePerm (N.lor ModeSetuid (N.lor ModeSetgid ModeSticky)).
Definition DefaultOwnerUID : N := 1000.
Definition DefaultOwnerGID : N := 1000.

(** ** Nodes *)

(** The node a pointer or a path leads to. *)
Definition node_at (m : MemoryFS) (p : gostr) : option memoryNode := nodes m !! p ≫= (heap m !!.).

(** A node with no content: what every composite literal starts from. *)
Definition zeroNode : memoryNode := MkNode 0 0 [] None None 0 false [] None 0 0 0 0.

Definition dirNode (id mode : N) (now : time) : memoryNode :=
  MkNode id mode [] None None 0 false [] (Some ∅) now now DefaultOwnerUID DefaultOwnerGID.

Definition isLazyFileNode (n : memoryNode) : bool :=
  bool_decide (n_lazy n ≠ None) && negb (mode_IsDir (n_mode n))
  && negb (has_bits (n_mode n) ModeSymlink).

Definition isSymlink (n : memoryNode) : bool := has_bits (n_mode n) ModeSymlink.

(** [newNodeIDLocked]; the counter is a [uint64]. *)
Definition newNodeIDLocked : M N := fun m =>
  let id := ((nextNodeID m + 1) mod 2 ^ 64)%N in
  (Ok id, MkFS (cwd m) (nodes m) id (implicitParents m) (heap m) (next_loc m)).

(** [&memoryNode{...}] and [&memoryFIFO{...}]: a fresh address. *)
Definition alloc (n : memoryNode) : M loc := fun m =>
  (Ok (next_loc m),
   MkFS (cwd m) (nodes m) (nextNodeID m) (implicitParents m)
     (<[next_loc m := n]> (heap m)) (Pos.succ (next_loc m))).

Definition newMemoryFIFO : M loc := fun m =>
  (Ok (next_loc m),
   MkFS (cwd m) (nodes m) (nextNodeID m) (implicitParents m) (heap m) (Pos.succ (next_loc m))).

(** Assignment through a node pointer. *)
Definition update_node (l : loc) (f : memoryNode → memoryNode) : M unit := fun m =>
  match heap m !! l with
  | None => (Err EPanic, m)
  | Some n => (Ok tt, set_heap (<[l := f n]> (heap m)) m)
  end.

Definition load (l : loc) : M memoryNode := fun m =>
  match heap m !! l with None => (Err EPanic, m) | Some n => (Ok n, m) end.

(** [m.nodes[abs] = node]. *)
Definition bind_path (abs : gostr) (l : loc) : M unit :=
  modify (fun m => set_nodes (<[abs := l]> (nodes m)) m).

(** [m.nodes[dir].children[name] = struct{}{}]: panics when there is no such node or its
    [children] map is nil. *)
Definition add_child_loc (l : loc) (name : gostr) : M unit := fun m =>
  match heap m !! l with
  | None => (Err EPanic, m)
  | Some n =>
      match n_children n with
      | None => (Err EPanic, m)
      | Some ch => (Ok tt, set_heap (<[l := set_children (Some ({[name]} ∪ ch)) n]> (heap m)) m)
      end
  end.

Definition add_child (dir name : gostr) : M unit := fun m =>
  match nodes m !! dir with
  | None => (Err EPanic, m)
  | Some l => add_child_loc l name m
  end.

(** [delete(m.nodes[dir].children, name)]: a no-op on a nil map. *)
Definition del_child (dir name : gostr) : M unit := fun m =>
  match nodes m !! dir with
  | None => (Err EPanic, m)
  | Some l =>
      match heap m !! l with
      | None => (Err EPanic, m)
      | Some n =>
          (Ok tt, set_heap (<[l := set_children ((.∖ {[name]}) <$> n_children n) n]> (heap m)) m)
      end
  end.

(** ** Path resolution *)

(** The component loop of [resolveAbsLocked]: [follow target] is its recursive call and [root]
    its final [return], which is reached when nothing remains; [n] is the fuel. *)
Fixpoint abs_walk (m : MemoryFS) (follow : gostr → result error (gostr * option loc))
    (root : result error (gostr * option loc)) (followFinal allowMissingFinal : bool)
    (n : nat) (current remaining : gostr) {struct n} : result error (gostr * option loc) :=
  match remaining with
  | [] => root
  | _ =>
      match n with
      | O => Err (ESent ErrFuel)
      | S n' =>
          let '(part, remaining) := next_part remaining in
          let next := joinClean current part in
          let isLast := bool_decide (remaining = []) in
          match nodes m !! next with
          | None =>
              if isLast && allowMissingFinal then Ok (next, None) else Err (ESent ErrNotExist)
          | Some l =>
              match heap m !! l with
              | None => Err EPanic
              | Some node =>
                  if isSymlink node && (negb isLast || followFinal) then
                    let target := Resolve (parentDir next) (n_target node) in
                    let target := if isLast then target else Resolve target remaining in
                    follow target
                  else if isLast then Ok (next, Some l)
                  else if negb (mode_IsDir (n_mode node)) then Err (ESent ErrInvalid)
                  else abs_walk m follow root followFinal allowMissingFinal n' next remaining
              end
          end
      end
  end.

(** [resolveAbsLocked].  [h] counts the calls left before [depth > maxSymlinkDepth] fails
    ([depth = 0] is [h = 41]); the loop runs with [len(abs)] as fuel. *)
Fixpoint resolveAbs_hops (h : nat) (m : MemoryFS) (abs : gostr)
    (followFinal allowMissingFinal : bool) {struct h} : result error (gostr * option loc) :=
  let abs := Clean abs in
  match h with
  | O => Err (ESent ErrTooManySymlinks)
  | S h' =>
      let root := match nodes m !! root_path with
                  | None => Err (ESent ErrNotExist)
                  | Some l => Ok (root_path, Some l)
                  end in
      if decide (abs = root_path) then root
      else abs_walk m (fun target => resolveAbs_hops h' m target true allowMissingFinal)
             root followFinal allowMissingFinal (length abs) root_path (drop 1 abs)
  end.

Definition resolveAbsLocked (m : MemoryFS) (abs : gostr) (followFinal allowMissingFinal : bool)
    (depth : nat) : result error (gostr * option loc) :=
  resolveAbs_hops (S maxSymlinkDepth - depth) m abs followFinal allowMissingFinal.

Definition resolvePathLocked (m : MemoryFS) (name : gostr) (followFinal allowMissingFinal : bool)
  : result error (gostr * option loc) :=
  resolveAbsLocked m (Resolve (cwd m) name) followFinal allowMissingFinal 0.

(** The component loop of [resolveCreatePathLocked]. *)
Fixpoint create_walk (m : MemoryFS) (follow : gostr → result error gostr) (abs : gostr)
    (n : nat) (current remaining : gostr) {struct n} : result error gostr :=
  match remaining with
  | [] => Ok abs
  | _ =>
      match n with
      | O => Err (ESent ErrFuel)
      | S n' =>
          let '(part, remaining) := next_part remaining in
          let next := joinClean current part in
          let isLast := bool_decide (remaining = []) in
          match nodes m !! next with
          | None => if isLast then Ok next else Ok (Resolve next remaining)
          | Some l =>
              match heap m !! l with
              | None => Err EPanic
              | Some node =>
                  if isSymlink node then
                    let target := Resolve (parentDir next) (n_target node) in
                    let target := if isLast then target else Resolve target remaining in
                    follow target
                  else if isLast then Ok next
                  else if negb (mode_IsDir (n_mode node)) then Err (ESent ErrInvalid)
                  else create_walk m follow abs n' next remaining
              end
          end
      end
  end.

(** [resolveCreatePathLocked]: where a created file lands, missing parents allowed. *)
Fixpoint resolveCreate_hops (h : nat) (m : MemoryFS) (abs : gostr) {struct h}
  : result error gostr :=
  let abs := Clean abs in
  match h with
  | O => Err (ESent ErrTooManySymlinks)
  | S h' =>
      if decide (abs = root_path) then Ok abs
      else create_walk m (fun target => resolveCreate_hops h' m target) abs
             (length abs) root_path (drop 1 abs)
  end.

Definition resolveCreatePathLocked (m : MemoryFS) (abs : gostr) (depth : nat) : result error gostr :=
  resolveCreate_hops (S maxSymlinkDepth - depth) m abs.

(** A resolution that found a node: its path and pointer. *)
Definition resolve_existing (name : gostr) (followFinal : bool) : M (result error (gostr * loc)) :=
  fun m =>
    match resolvePathLocked m name followFinal false with
    | Ok (abs, Some l) => (Ok (Ok (abs, l)), m)
    | Ok (_, None) => (Err EPanic, m)
    | Err e => (Ok (Err e), m)
    end.

(** [createParentError]. *)
Definition createParentError (err : error) : error :=
  if errors_Is err ErrInvalid then ESent ENOTDIR else err.

(** ** Directories *)

(** The component loop of [mkdirAllLocked]; directories made before a failure stay. *)
Fixpoint mkdir_loop (n : nat) (now : time) (current remaining : gostr) (perm : N) : M unit :=
  match remaining with
  | [] => mret tt
  | _ =>
      match n with
      | O => throw (ESent ErrFuel)
      | S n' =>
          let '(part, remaining) := next_part remaining in
          let next := joinClean current part in
          m ← get;
          match nodes m !! next with
          | Some l =>
              node ← load l;
              if isSymlink node then
                match resolveAbsLocked m next true false 0 with
                | Err err => throw_path "mkdir" next err
                | Ok (_, None) => throw_path "mkdir" next (ESent ErrNotExist)
                | Ok (resolved, Some l') =>
                    resolvedNode ← load l';
                    if negb (mode_IsDir (n_mode resolvedNode))
                    then throw_path "mkdir" next (ESent ErrInvalid)
                    else mkdir_loop n' now resolved remaining perm
                end
              else if negb (mode_IsDir (n_mode node)) then
                throw_path "mkdir" next (ESent ErrInvalid)
              else mkdir_loop n' now next remaining perm
          | None =>
              let perm := N.land perm storedPermBits in
              let perm := if (perm =? 0)%N then 493%N else perm in
              id ← newNodeIDLocked;
              l ← alloc (dirNode id (N.lor ModeDir perm) now);
              bind_path next l;;
              add_child current part;;
              mkdir_loop n' now next remaining perm
          end
      end
  end.

Definition mkdirAllLocked (now : time) (name : gostr) (perm : N) : M unit :=
  let name := Clean name in
  if decide (name = root_path) then mret tt
  else mkdir_loop (length name) now root_path (drop 1 name) perm.

Definition ensureParentLocked (now : time) (op : string) (abs : gostr) : M unit :=
  let parent := parentDir abs in
  m ← get;
  if implicitParents m then mkdirAllLocked now parent 493
  else match nodes m !! parent with
  | None => throw_path op abs (ESent ENOENT)
  | Some l =>
      node ← load l;
      if negb (mode_IsDir (n_mode node)) then throw_path op abs (ESent ENOTDIR) else mret tt
  end.

(** [m.nodes[abs] = node] and the entry in its parent's [children]. *)
Definition attach (abs : gostr) (l : loc) : M unit :=
  bind_path abs l;; add_child (parentDir abs) (path_Base abs).

(** ** Construction *)

Definition NewMemory (now : time) : MemoryFS :=
  MkFS (go "/") {[ root_path := 1%positive ]} 1 false
    {[ 1%positive := dirNode 1 (N.lor ModeDir 493) now ]} 2.

Definition newMemoryWithImplicitParents (now : time) : MemoryFS :=
  let m := NewMemory now in
  MkFS (cwd m) (nodes m) (nextNodeID m) true (heap m) (next_loc m).

(** [Clone]: a new node per path, so two paths that shared a node no longer do.  A FIFO's clone
    is a new FIFO (its buffered bytes are the FIFO component's state). *)
Definition clone_node (fresh_fifo : loc) (n : memoryNode) : memoryNode :=
  set_fifo ((fun _ => fresh_fifo) <$> n_fifo n) n.

Definition clone_entry (m : MemoryFS) (i : nat) (e : gostr * loc) : gostr * (loc * memoryNode) :=
  (e.1, (Pos.of_succ_nat (2 * i),
         clone_node (Pos.of_succ_nat (2 * i + 1)) (default zeroNode (heap m !! e.2)))).

Definition Clone (m : MemoryFS) : MemoryFS :=
  let entries := imap (clone_entry m) (map_to_list (nodes m)) in
  MkFS (cwd m) (list_to_map (map (fun e => (e.1, e.2.1)) entries)) (nextNodeID m)
    (implicitParents m) (list_to_map (map snd entries))
    (Pos.of_succ_nat (2 * length entries)).

(** ** Operations *)

Section operations.
(** What the [LazyFileProvider]s supplied by the embedder return. *)
Variable provider : nat → result error gostr.
(** The clock, as read by the operation. *)
Variable now : time.

Record InitialFile := MkInitialFile {
  if_Content : option gostr;
  if_Lazy : option nat;
  if_Mode : N;
  if_ModTime : time;
}.

Definition seedInitialFileLocked (name : gostr) (file : InitialFile) : M unit :=
  let abs := Clean name in
  if decide (abs = root_path) then throw_path "seed" abs (ESent ErrInvalid)
  else if decide (if_Lazy file ≠ None ∧ if_Content file ≠ None)
  then throw_path "seed" abs (ESent ErrInvalid)
  else if negb (N.ldiff (mode_Type (if_Mode file)) seedableTypeBits =? 0)%N
  then throw_path "seed" abs (ESent ErrInvalid)
  else
    mkdirAllLocked now (parentDir abs) 493;;
    let mode := mode_Perm (if_Mode file) in
    let mode := if (mode =? 0)%N then 420%N else mode in
    let modTime := if if_ModTime file =? 0 then now else if_ModTime file in
    id ← newNodeIDLocked;
    let pipe := has_bits (if_Mode file) ModeNamedPipe in
    f ← (if pipe then f ← newMemoryFIFO; mret (Some f) else mret None);
    l ← alloc (MkNode id (N.lor (mode_Type (if_Mode file)) mode)
                 (if pipe then [] else default [] (if_Content file)) f
                 (if pipe then None else if_Lazy file) 0 false [] None modTime modTime
                 DefaultOwnerUID DefaultOwnerGID);
    attach abs l.

(** [seedInitialFiles]: [files] is the Go map in the order one iteration visits it. *)
Fixpoint seedInitialFiles (files : list (gostr * InitialFile)) : M unit :=
  match files with
  | [] => mret tt
  | (name, file) :: rest => seedInitialFileLocked name file;; seedInitialFiles rest
  end.

(** Loading a lazy node in place, as [materializePath] and [materializeNode] do. *)
Definition materializeNode (l : loc) : M unit :=
  node ← load l;
  if negb (isLazyFileNode node) then mret tt
  else match n_lazy node with
  | None => mret tt
  | Some p =>
      match provider p with
      | Err err => throw err
      | Ok data => update_node l (fun n => set_lazy None (set_data data n))
      end
  end.

Definition materializePath (name : gostr) (followFinal metadataOnly : bool) : M gostr :=
  r ← resolve_existing name followFinal;
  '(abs, l) ← lift r;
  node ← load l;
  if negb (isLazyFileNode node) || (metadataOnly && n_lazySized node) then mret abs
  else materializeNode l;; mret abs.

Definition Symlink (target linkName : gostr) : M unit :=
  m ← get;
  let requested := Resolve (cwd m) linkName in
  abs ← match resolvePathLocked m linkName false true with
        | Ok (abs, Some _) => throw_path "symlink" abs (ESent ErrExist)
        | Ok (abs, None) => mret abs
        | Err err =>
            if errors_Is err ErrNotExist then
              match resolveCreatePathLocked m (parentDir requested) 0 with
              | Err parentErr => throw_path "symlink" requested parentErr
              | Ok parentAbs => mret (Resolve parentAbs (path_Base requested))
              end
            else throw_path "symlink" requested err
        end;
  if decide (is_Some (nodes m !! abs)) then throw_path "symlink" abs (ESent ErrExist)
  else
    ensureParentLocked now "symlink" abs;;
    id ← newNodeIDLocked;
    l ← alloc (MkNode id (N.lor ModeSymlink 511) [] None None 0 false target None now now
                 DefaultOwnerUID DefaultOwnerGID);
    attach abs l.

Definition Link (oldName newName : gostr) : M unit :=
  m ← get;
  r ← resolve_existing oldName false;
  match r with
  | Err err => throw_path "link" (Resolve (cwd m) oldName) err
  | Ok (oldAbs, l) =>
      node ← load l;
      if mode_IsDir (n_mode node) then throw_path "link" oldAbs (ESent ErrInvalid)
      else
        let requested := Resolve (cwd m) newName in
        newAbs ← match resolvePathLocked m newName false true with
                 | Ok (newAbs, Some _) => throw_path "link" newAbs (ESent ErrExist)
                 | Ok (newAbs, None) => mret newAbs
                 | Err err =>
                     if errors_Is err ErrNotExist then
                       match resolveCreatePathLocked m (parentDir requested) 0 with
                       | Err parentErr => throw_path "link" requested parentErr
                       | Ok parentAbs =>
                           let newAbs := Resolve parentAbs (path_Base requested) in
                           if decide (is_Some (nodes m !! newAbs))
                           then throw_path "link" newAbs (ESent ErrExist)
                           else mret newAbs
                       end
                     else throw_path "link" requested err
                 end;
        ensureParentLocked now "link" newAbs;;
        attach newAbs l;;
        update_node l (set_modTime now)
  end.

(** *** Open files *)

Record memoryFile := MkFile {
  f_path : gostr;
  f_node : loc;
  f_flag : N;
  f_offset : Z;
  f_closed : bool;
}.

(** What [OpenFile] returns: a handle bound to a node, or an end of a FIFO. *)
Inductive openFile :=
| MemFile (f : memoryFile)
| FifoFile (path : gostr) (fifo : loc) (flag : N).

(** The part of [OpenFile] after the path is resolved to a node: [created] says whether the node
    was made by this call. *)
Definition open_node (abs : gostr) (l : loc) (created : bool) (flag : N) : M openFile :=
  if negb created && has_bits flag O_CREATE && has_bits flag O_EXCL then
    throw_path "open" abs (ESent ErrExist)
  else
    node ← load l;
    if mode_IsDir (n_mode node) then throw_path "open" abs (ESent ErrInvalid)
    else if has_bits (n_mode node) ModeNamedPipe then
      match n_fifo node with
      | Some f => mret (FifoFile abs f flag)
      | None =>
          f ← newMemoryFIFO;
          update_node l (set_fifo (Some f));;
          mret (FifoFile abs f flag)
      end
    else
      (if has_bits flag O_TRUNC && canWrite flag
       then update_node l (fun n => set_modTime now (set_data [] (set_lazy None n)))
       else mret tt);;
      node ← load l;
      let offset := if has_bits flag O_APPEND then glen (n_data node) else 0 in
      mret (MemFile (MkFile abs l flag offset false)).

Definition open_create (abs : gostr) (flag perm : N) : M openFile :=
  ensureParentLocked now "open" abs;;
  let perm := N.land perm storedPermBits in
  let perm := if (perm =? 0)%N then 420%N else perm in
  id ← newNodeIDLocked;
  l ← alloc (MkNode id perm [] None None 0 false [] None now now DefaultOwnerUID DefaultOwnerGID);
  attach abs l;;
  open_node abs l true flag.

Definition OpenFile (name : gostr) (flag perm : N) : M openFile :=
  let creating := has_bits flag O_CREATE in
  (if (negb (has_bits flag O_TRUNC) || negb (canWrite flag))
      && negb (creating && has_bits flag O_EXCL) then
     r ← attempt (materializePath name true false);
     match r with
     | Ok _ => mret tt
     | Err EPanic => throw EPanic
     | Err err =>
         if negb creating || negb (errors_Is err ErrNotExist) then
           m ← get;
           throw_path "open" (Resolve (cwd m) name)
             (if creating then createParentError err else err)
         else mret tt
     end
   else mret tt);;
  m ← get;
  let requested := Resolve (cwd m) name in
  if creating then
    (if has_bits flag O_EXCL then
       match resolvePathLocked m name false true with
       | Ok (linkAbs, Some _) => throw_path "open" linkAbs (ESent ErrExist)
       | _ => mret tt
       end
     else mret tt);;
    match resolveCreatePathLocked m requested 0 with
    | Err err => throw_path "open" requested (createParentError err)
    | Ok abs =>
        match nodes m !! abs with
        | None => open_create abs flag perm
        | Some l => open_node abs l false flag
        end
    end
  else
    r ← resolve_existing name true;
    match r with
    | Err err => throw_path "open" requested err
    | Ok (abs, l) => open_node abs l false flag
    end.

Definition Open (name : gostr) : M openFile := OpenFile name O_RDONLY 0.

(** [memoryFile.Read] into a buffer of [k] bytes: the bytes read and the moved handle. *)
Definition file_Read (f : memoryFile) (k : nat) : M (gostr * memoryFile) :=
  if f_closed f then throw (ESent ErrClosed)
  else if negb (canRead (f_flag f)) then throw_path "read" (f_path f) (ESent ErrPermission)
  else
    r ← attempt (materializeNode (f_node f));
    match r with
    | Err err => throw_path "read" (f_path f) err
    | Ok _ =>
        node ← load (f_node f);
        if mode_IsDir (n_mode node) then throw_path "read" (f_path f) (ESent ErrInvalid)
        else if glen (n_data node) <=? f_offset f then throw (ESent ErrEOF)
        else
          let p := take k (drop (Z.to_nat (f_offset f)) (n_data node)) in
          mret (p, MkFile (f_path f) (f_node f) (f_flag f) (f_offset f + glen p) (f_closed f))
    end.

(** [growBytes] followed by [copy(data[off:], p)]: the gap past the old end reads as zeros. *)
Definition growBytes (data : gostr) (size : nat) : gostr :=
  data ++ replicate (size - length data) "000"%char.

Definition write_at (data : gostr) (off : nat) (p : gostr) : gostr :=
  let data := growBytes data (off + length p) in
  take off data ++ p ++ drop (off + length p) data.

(** [memoryFile.Write]. *)
Definition file_Write (f : memoryFile) (p : gostr) : M (Z * memoryFile) :=
  if f_closed f then throw (ESent ErrClosed)
  else if negb (canWrite (f_flag f)) then throw_path "write" (f_path f) (ESent ErrPermission)
  else
    r ← attempt (materializeNode (f_node f));
    match r with
    | Err err => throw_path "write" (f_path f) err
    | Ok _ =>
        node ← load (f_node f);
        if mode_IsDir (n_mode node) then throw_path "write" (f_path f) (ESent ErrInvalid)
        else
          let off := if has_bits (f_flag f) O_APPEND then glen (n_data node) else f_offset f in
          update_node (f_node f) (fun n =>
            set_modTime now (set_data (write_at (n_data n) (Z.to_nat off) p) n));;
          mret (glen p, MkFile (f_path f) (f_node f) (f_flag f) (off + glen p) (f_closed f))
    end.

Definition file_Close (f : memoryFile) : memoryFile :=
  MkFile (f_path f) (f_node f) (f_flag f) (f_offset f) true.

(** *** Metadata *)

Record fileInfo := MkInfo {
  fi_name : gostr;
  fi_size : Z;
  fi_mode : N;
  fi_atime : time;
  fi_modTime : time;
  fi_uid : N;
  fi_gid : N;
  fi_nodeID : N;
}.

Definition newFileInfo (name : gostr) (node : memoryNode) : fileInfo :=
  let size :=
    if isLazyFileNode node && n_lazySized node then n_lazySize node
    else if mode_IsDir (n_mode node) then 0
    else if has_bits (n_mode node) ModeNamedPipe then 0
    else if has_bits (n_mode node) ModeSymlink then glen (n_target node)
    else glen (n_data node) in
  MkInfo name size (n_mode node) (firstNonZeroTime (n_atime node) (n_modTime node))
    (n_modTime node) (n_uid node) (n_gid node) (n_id node).

Definition stat_path (op : string) (name : gostr) (followFinal : bool) : M fileInfo :=
  m ← get;
  let requested := Resolve (cwd m) name in
  r ← attempt (materializePath name followFinal true);
  match r with
  | Err err => throw_path op requested err
  | Ok abs =>
      m ← get;
      match nodes m !! abs with
      | None => throw_path op abs (ESent ErrNotExist)
      | Some l => node ← load l; mret (newFileInfo (path_Base abs) node)
      end
  end.

Definition Stat (name : gostr) : M fileInfo := stat_path "stat" name true.
Definition Lstat (name : gostr) : M fileInfo := stat_path "lstat" name false.

Definition file_Stat (f : memoryFile) : M fileInfo :=
  if f_closed f then throw (ESent ErrClosed)
  else
    node ← load (f_node f);
    (if isLazyFileNode node && negb (n_lazySized node) then
       r ← attempt (materializeNode (f_node f));
       match r with
       | Err err => throw_path "stat" (f_path f) err
       | Ok _ => mret tt
       end
     else mret tt);;
    node ← load (f_node f);
    mret (newFileInfo (path_Base (f_path f)) node).

Definition ReadDir (name : gostr) : M (list (gostr * N)) :=
  m ← get;
  r ← resolve_existing name true;
  match r with
  | Err err => throw_path "readdir" (Resolve (cwd m) name) err
  | Ok (abs, l) =>
      node ← load l;
      if negb (mode_IsDir (n_mode node)) then throw_path "readdir" abs (ESent ErrInvalid)
      else
        let names := sort_strings (elements (default ∅ (n_children node))) in
        match mapM (fun child => n ← node_at m (joinClean abs child); Some (child, n_mode n)) names with
        | None => throw EPanic
        | Some entries => mret entries
        end
  end.

Definition Readlink (name : gostr) : M gostr :=
  m ← get;
  r ← resolve_existing name false;
  match r with
  | Err err => throw_path "readlink" (Resolve (cwd m) name) err
  | Ok (abs, l) =>
      node ← load l;
      if negb (isSymlink node) then throw_path "readlink" abs (ESent ErrInvalid)
      else mret (n_target node)
  end.

Definition Realpath (name : gostr) : M gostr :=
  m ← get;
  r ← resolve_existing name true;
  match r with
  | Err err => throw_path "realpath" (Resolve (cwd m) name) err
  | Ok (abs, _) => mret abs
  end.

(** The shape shared by [Chmod], [Chown], [Chtimes] and [Lchtimes]: resolve, then assign to the
    node; the assignments [m.nodes[abs] = node] of the first two rebind what is bound already. *)
Definition update_meta (op : string) (name : gostr) (followFinal rebind : bool)
    (f : memoryNode → memoryNode) : M unit :=
  m ← get;
  r ← resolve_existing name followFinal;
  match r with
  | Err err => throw_path op (Resolve (cwd m) name) err
  | Ok (abs, l) => update_node l f;; if rebind then bind_path abs l else mret tt
  end.

Definition Chmod (name : gostr) (mode : N) : M unit :=
  update_meta "chmod" name true true (fun n =>
    set_modTime now
      (set_mode (N.lor (N.ldiff (n_mode n) storedPermBits) (N.land mode storedPermBits)) n)).

Definition Chown (name : gostr) (uid gid : N) (follow : bool) : M unit :=
  update_meta "chown" name follow true (set_owner uid gid).

Definition times_or_now (atime mtime : time) : memoryNode → memoryNode :=
  set_times (if atime =? 0 then now else atime) (if mtime =? 0 then now else mtime).

Definition Chtimes (name : gostr) (atime mtime : time) : M unit :=
  update_meta "chtimes" name true false (times_or_now atime mtime).

Definition Lchtimes (name : gostr) (atime mtime : time) : M unit :=
  update_meta "lchtimes" name false false (times_or_now atime mtime).

(** *** The tree *)

Definition MkdirAll (name : gostr) (perm : N) : M unit :=
  m ← get; mkdirAllLocked now (Resolve (cwd m) name) perm.

Definition Mkfifo (name : gostr) (perm : N) : M unit :=
  m ← get;
  let requested := Resolve (cwd m) name in
  match resolvePathLocked m name false true with
  | Err err => throw_path "mkfifo" requested err
  | Ok (abs, Some _) => throw_path "mkfifo" abs (ESent ErrExist)
  | Ok (abs, None) =>
      match resolveAbsLocked m (parentDir abs) true false 0 with
      | Err err => throw_path "mkfifo" requested err
      | Ok (parentAbs, None) => throw_path "mkfifo" parentAbs (ESent ErrInvalid)
      | Ok (parentAbs, Some pl) =>
          parentNode ← load pl;
          if negb (mode_IsDir (n_mode parentNode)) then
            throw_path "mkfifo" parentAbs (ESent ErrInvalid)
          else
            let perm := if (perm =? 0)%N then 438%N else perm in
            id ← newNodeIDLocked;
            f ← newMemoryFIFO;
            l ← alloc (MkNode id (N.lor ModeNamedPipe (N.land perm storedPermBits)) [] (Some f)
                         None 0 false [] None now now DefaultOwnerUID DefaultOwnerGID);
            bind_path abs l;;
            add_child_loc pl (path_Base abs)
      end
  end.

(** [candidate == abs || strings.HasPrefix(candidate, abs+"/")]. *)
Definition in_subtree (abs candidate : gostr) : Prop :=
  candidate = abs ∨ has_prefix (abs ++ go "/") candidate = true.

#[export] Instance in_subtree_dec abs candidate : Decision (in_subtree abs candidate).
Proof. unfold in_subtree. apply _. Defined.

Definition Remove (name : gostr) (recursive : bool) : M unit :=
  m ← get;
  r ← resolve_existing name false;
  match r with
  | Err err => throw_path "remove" (Resolve (cwd m) name) err
  | Ok (abs, l) =>
      if decide (abs = root_path) then throw_path "remove" abs (ESent ErrPermission)
      else
        node ← load l;
        if mode_IsDir (n_mode node) && bool_decide (default ∅ (n_children node) ≠ ∅)
           && negb recursive
        then throw_path "remove" abs (ESent ErrInvalid)
        else
          modify (fun m => set_nodes (filter (fun e => ¬ in_subtree abs e.1) (nodes m)) m);;
          del_child (parentDir abs) (path_Base abs)
  end.

(** [strings.Replace(s, old, new, 1)] for a non-empty [old]. *)
Fixpoint replace_first (old new s : gostr) : gostr :=
  if has_prefix old s then new ++ drop (length old) s
  else match s with [] => [] | c :: s' => c :: replace_first old new s' end.

(** [rebuildDirectoryChildrenLocked]: the first loop empties every directory's entries, the
    second enters every path in its parent. *)
Definition reset_children (m : MemoryFS) : gmap loc memoryNode :=
  foldr (fun e h =>
    match h !! e.2 with
    | Some n => if mode_IsDir (n_mode n) then <[e.2 := set_children (Some ∅) n]> h else h
    | None => h
    end) (heap m) (map_to_list (nodes m)).

Definition enter_child (ns : gmap gostr loc) (e : gostr * loc) (h : gmap loc memoryNode)
  : gmap loc memoryNode :=
  if decide (e.1 = root_path) then h
  else match ns !! parentDir e.1 with
  | None => h
  | Some pl =>
      match h !! pl with
      | None => h
      | Some pn =>
          if mode_IsDir (n_mode pn)
          then <[pl := set_children (({[path_Base e.1]} ∪.) <$> n_children pn) pn]> h else h
      end
  end.

Definition rebuildDirectoryChildrenLocked : M unit :=
  modify (fun m =>
    set_heap (foldr (enter_child (nodes m)) (reset_children m) (map_to_list (nodes m))) m).

(** The move of [Rename]: the entries of the subtree, renamed, over the entries outside it. *)
Definition move_nodes (oldAbs newAbs : gostr) (ns : gmap gostr loc) : gmap gostr loc :=
  let toMove := filter (fun e => in_subtree oldAbs e.1) ns in
  let rest := filter (fun e => ¬ in_subtree oldAbs e.1) ns in
  list_to_map (map (fun e => (replace_first oldAbs newAbs e.1, e.2)) (map_to_list toMove)) ∪ rest.

Definition Rename (oldName newName : gostr) : M unit :=
  m ← get;
  r ← resolve_existing oldName false;
  match r with
  | Err err => throw_path "rename" (Resolve (cwd m) oldName) err
  | Ok (oldAbs, _) =>
      if decide (oldAbs = root_path) then throw_path "rename" oldAbs (ESent ErrPermission)
      else
        '(newAbs, node) ←
          match resolvePathLocked m newName false true with
          | Ok (newAbs, node) => mret (newAbs, node)
          | Err err =>
              match (if implicitParents m && errors_Is err ErrNotExist
                     then resolveCreatePathLocked m (Resolve (cwd m) newName) 0
                     else Err err) with
              | Ok newAbs => mret (newAbs, None)
              | Err err =>
                  throw_path "rename" (Resolve (cwd m) newName) (createParentError err)
              end
          end;
        if decide (node ≠ None) then throw_path "rename" newAbs (ESent ErrExist)
        else if isDescendantPath newAbs oldAbs then throw_path "rename" newAbs (ESent ErrInvalid)
        else
          ensureParentLocked now "rename" newAbs;;
          del_child (parentDir oldAbs) (path_Base oldAbs);;
          modify (fun m => set_nodes (move_nodes oldAbs newAbs (nodes m)) m);;
          add_child (parentDir newAbs) (path_Base newAbs);;
          rebuildDirectoryChildrenLocked
  end.

Definition Chdir (name : gostr) : M unit :=
  m ← get;
  r ← resolve_existing name true;
  match r with
  | Err err => throw_path "chdir" (Resolve (cwd m) name) err
  | Ok (abs, l) =>
      node ← load l;
      if negb (mode_IsDir (n_mode node)) then throw_path "chdir" abs (ESent ErrInvalid)
      else modify (set_cwd abs)
  end.

Definition Getwd (m : MemoryFS) : gostr := cwd m.
End operations.
