(* ===== verification/MemoryFSWf.v ===== *)
(** The invariant of the in-memory filesystem and the lemmas on path resolution: the path map is
    a tree of directories, and every resolution answers with a physical path of that tree. *)
From S2P Require Import Prelude GoPath FsTypes MemoryFS.

(** ** The invariant *)

Definition dir_at (m : MemoryFS) (cs : list gostr) : Prop :=
  ∃ l n, nodes m !! render cs = Some l ∧ heap m !! l = Some n ∧ mode_IsDir (n_mode n) = true.

Definition children_at (m : MemoryFS) (cs : list gostr) : gset gostr :=
  match node_at m (render cs) with
  | Some n => default ∅ (n_children n)
  | None => ∅
  end.

(** Exactly the directories have an entry map, and no directory carries the symlink bit. *)
Definition node_ok (n : memoryNode) : Prop :=
  (mode_IsDir (n_mode n) = true ↔ is_Some (n_children n)) ∧
  (mode_IsDir (n_mode n) = true → isSymlink n = false).

Record wf (m : MemoryFS) : Prop := {
  wf_cwd : clean_abs (cwd m);
  wf_key : ∀ p l, nodes m !! p = Some l → clean_abs p ∧ is_Some (heap m !! l);
  wf_root : dir_at m [];
  wf_tree : ∀ cs c, valid_comps cs →
    valid_comp c ∧ is_Some (nodes m !! render (cs ++ [c])) ↔ c ∈ children_at m cs;
  wf_kind : ∀ l n, heap m !! l = Some n → node_ok n;
  wf_alias : ∀ p q l n, nodes m !! p = Some l → nodes m !! q = Some l →
    heap m !! l = Some n → mode_IsDir (n_mode n) = true → p = q;
  wf_fresh : ∀ l, is_Some (heap m !! l) → (l < next_loc m)%positive;
}.

(** No existing prefix of the path is a symbolic link: creating below it follows nothing. *)
Definition nolink (m : MemoryFS) (cs : list gostr) : Prop :=
  ∀ pre l n, pre `prefix_of` cs → nodes m !! render pre = Some l → heap m !! l = Some n →
    isSymlink n = false.

Lemma node_at_Some m p l n : nodes m !! p = Some l → heap m !! l = Some n → node_at m p = Some n.
Proof. unfold node_at. by intros ->. Qed.

Lemma children_at_dir m cs c : (∀ l n, heap m !! l = Some n → node_ok n) →
  c ∈ children_at m cs → dir_at m cs.
Proof.
  intros Hk. unfold children_at, node_at, dir_at.
  destruct (nodes m !! render cs) as [l|] eqn:El; simpl; [|set_solver].
  destruct (heap m !! l) as [n|] eqn:En; [|set_solver].
  destruct (n_children n) as [ch|] eqn:Ech; simpl; [|set_solver].
  intros _. exists l, n. split_and!; [done..|]. apply (Hk l n En). by eexists.
Qed.

Lemma wf_parent m cs c : wf m → valid_comps (cs ++ [c]) →
  is_Some (nodes m !! render (cs ++ [c])) → dir_at m cs.
Proof.
  intros Hwf [Hcs Hc]%valid_comps_snoc H. apply (children_at_dir m cs c); [apply Hwf|].
  by apply (wf_tree m Hwf).
Qed.

(** Every proper ancestor of a bound path is a directory. *)
Lemma wf_ancestor m cs k ks : wf m → valid_comps (cs ++ k :: ks) →
  is_Some (nodes m !! render (cs ++ k :: ks)) → dir_at m cs.
Proof.
  intros Hwf. revert k. induction ks as [|k' ks IH] using rev_ind; intros k Hv H.
  - by eapply wf_parent.
  - rewrite app_comm_cons, (assoc_L (++)) in Hv, H.
    apply (IH k); [by apply valid_comps_snoc in Hv as [??]|].
    pose proof (wf_parent _ _ _ Hwf Hv H) as (l&n&?&_). by eexists.
Qed.

Lemma dir_at_nolink m cs l n : wf m → dir_at m cs →
  nodes m !! render cs = Some l → heap m !! l = Some n → isSymlink n = false.
Proof.
  intros Hwf (l'&n'&?&?&?) ??. simplify_eq. by eapply (wf_kind m Hwf).
Qed.

Lemma length_render cs : valid_comps cs → (length cs ≤ length (render cs))%nat.
Proof.
  assert (∀ l, valid_comps l → (length l ≤ S (length (join [slash] l)))%nat) as Hj.
  { intros l. induction l as [|c l IH]; [simpl; lia|]. intros [Hc Hl]%Forall_cons_1.
    destruct l as [|d l]; [simpl; lia|]. specialize (IH Hl).
    change (join [slash] (c :: d :: l)) with (c ++ [slash] ++ join [slash] (d :: l)).
    rewrite !length_app. destruct Hc as (Hne&_). destruct c; [done|]. simpl in *. lia. }
  intros H. destruct cs as [|c cs]; [simpl; lia|]. apply Hj in H. simpl in *. lia.
Qed.

(** ** One turn of the component loops, on components *)

Lemma join_cons_ne c cs : valid_comp c → join [slash] (c :: cs) ≠ [].
Proof. intros [Hc _]. simpl. destruct cs; destruct c; done. Qed.

Lemma isLast_join cs : valid_comps cs →
  bool_decide (join [slash] cs = []) = bool_decide (cs = []).
Proof.
  intros H. destruct cs as [|c cs]; [done|]. apply Forall_cons_1 in H as [H _].
  rewrite !bool_decide_eq_false_2; [done|done|by apply join_cons_ne].
Qed.

Definition link_target (cs rs : list gostr) (t : gostr) : gostr :=
  let target := Resolve (render cs) t in
  if bool_decide (rs = []) then target else Resolve target (join [slash] rs).

Lemma link_target_clean cs rs t : valid_comps cs → clean_abs (link_target cs rs t).
Proof.
  intros H. unfold link_target. cbv zeta. assert (clean_abs (render cs)) by (by exists cs).
  case_bool_decide; auto with go.
Qed.

Lemma abs_walk_cons m follow root ff am n cs c rs :
  valid_comps cs → valid_comps (c :: rs) →
  abs_walk m follow root ff am (S n) (render cs) (join [slash] (c :: rs)) =
  match nodes m !! render (cs ++ [c]) with
  | None => if bool_decide (rs = []) && am then Ok (render (cs ++ [c]), None)
            else Err (ESent ErrNotExist)
  | Some l =>
      match heap m !! l with
      | None => Err EPanic
      | Some node =>
          if isSymlink node && (negb (bool_decide (rs = [])) || ff) then
            follow (link_target cs rs (n_target node))
          else if bool_decide (rs = []) then Ok (render (cs ++ [c]), Some l)
          else if negb (mode_IsDir (n_mode node)) then Err (ESent ErrInvalid)
          else abs_walk m follow root ff am n (render (cs ++ [c])) (join [slash] rs)
      end
  end.
Proof.
  intros Hcs [Hc Hrs]%Forall_cons_1. cbn [abs_walk].
  destruct (join [slash] (c :: rs)) as [|x xs] eqn:E; [by apply join_cons_ne in E|].
  rewrite <- E, next_part_join, joinClean_render, isLast_join by done.
  rewrite parentDir_snoc by (by apply valid_comps_snoc). done.
Qed.

Lemma create_walk_cons m follow abs n cs c rs :
  valid_comps cs → valid_comps (c :: rs) →
  create_walk m follow abs (S n) (render cs) (join [slash] (c :: rs)) =
  match nodes m !! render (cs ++ [c]) with
  | None => Ok (render (cs ++ c :: rs))
  | Some l =>
      match heap m !! l with
      | None => Err EPanic
      | Some node =>
          if isSymlink node then follow (link_target cs rs (n_target node))
          else if bool_decide (rs = []) then Ok (render (cs ++ [c]))
          else if negb (mode_IsDir (n_mode node)) then Err (ESent ErrInvalid)
          else create_walk m follow abs n (render (cs ++ [c])) (join [slash] rs)
      end
  end.
Proof.
  intros Hcs [Hc Hrs]%Forall_cons_1. cbn [create_walk].
  destruct (join [slash] (c :: rs)) as [|x xs] eqn:E; [by apply join_cons_ne in E|].
  rewrite <- E, next_part_join, joinClean_render, isLast_join by done.
  rewrite parentDir_snoc by (by apply valid_comps_snoc).
  rewrite Resolve_join by (done || by apply valid_comps_snoc).
  rewrite <- (assoc_L (++)). simpl app. unfold link_target.
  case_bool_decide; [by subst|done].
Qed.

(** The first step of a resolution: the loop runs over the components of the path. *)
Lemma resolveAbs_hops_S h m p ff am :
  resolveAbs_hops (S h) m p ff am =
  let root := match nodes m !! root_path with
              | None => Err (ESent ErrNotExist)
              | Some l => Ok (root_path, Some l)
              end in
  match comps p with
  | [] => root
  | _ => abs_walk m (fun t => resolveAbs_hops h m t true am) root ff am
           (length (render (comps p))) (render []) (join [slash] (comps p))
  end.
Proof.
  cbn [resolveAbs_hops]. rewrite Clean_comps. cbv zeta.
  destruct (comps p) as [|c cs] eqn:E; [done|].
  rewrite decide_False; [done|]. intros H%render_root_inv; [done|].
  rewrite <- E. apply comps_valid.
Qed.

Lemma resolveCreate_hops_S h m p :
  resolveCreate_hops (S h) m p =
  match comps p with
  | [] => Ok root_path
  | _ => create_walk m (fun t => resolveCreate_hops h m t) (render (comps p))
           (length (render (comps p))) (render []) (join [slash] (comps p))
  end.
Proof.
  cbn [resolveCreate_hops]. rewrite Clean_comps. cbv zeta.
  destruct (comps p) as [|c cs] eqn:E; [done|].
  rewrite decide_False; [done|]. intros H%render_root_inv; [done|].
  rewrite <- E. apply comps_valid.
Qed.

(** ** What a resolution returns *)

(** The answer of [resolveAbsLocked]: a bound path, never a symlink when the final component is
    followed; or, when allowed, an unbound path inside an existing directory. *)
Definition abs_result (m : MemoryFS) (ff am : bool) (r : result error (gostr * option loc)) : Prop :=
  match r with
  | Ok (p, Some l) =>
      nodes m !! p = Some l ∧ (ff = true → ∀ n, heap m !! l = Some n → isSymlink n = false)
  | Ok (p, None) =>
      am = true ∧ nodes m !! p = None ∧
      ∃ cs c, valid_comps (cs ++ [c]) ∧ p = render (cs ++ [c]) ∧ dir_at m cs
  | Err e => e = ESent ErrNotExist ∨ e = ESent ErrInvalid ∨ e = ESent ErrTooManySymlinks
  end.

Lemma abs_walk_spec m follow root ff am n cs rs : wf m →
  (∀ t, clean_abs t → abs_result m true am (follow t)) →
  valid_comps cs → valid_comps rs → rs ≠ [] → (length rs ≤ n)%nat → dir_at m cs →
  abs_result m ff am (abs_walk m follow root ff am n (render cs) (join [slash] rs)).
Proof.
  intros Hwf Hf. revert cs rs. induction n as [|n IH]; intros cs rs Hcs Hrs Hne Hn Hd;
    (destruct rs as [|c rs]; [done|]); [simpl in Hn; lia|].
  rewrite abs_walk_cons by done. apply Forall_cons_1 in Hrs as [Hc Hrs].
  assert (valid_comps (cs ++ [c])) as Hv by (by apply valid_comps_snoc).
  destruct (nodes m !! render (cs ++ [c])) as [l|] eqn:El.
  - destruct (wf_key m Hwf _ _ El) as [_ [nd En]]. rewrite En.
    destruct (isSymlink nd && _) eqn:Es.
    { assert (abs_result m true am (follow (link_target cs rs (n_target nd)))) as Hr
        by (by apply Hf, link_target_clean).
      destruct (follow _) as [[p [l'|]]|e]; simpl in *; naive_solver. }
    case_bool_decide as Hlast.
    { simpl in Es |- *. split; [done|]. intros -> n' ?. simplify_eq.
      by rewrite andb_true_r in Es. }
    destruct (mode_IsDir (n_mode nd)) eqn:Ed; simpl; [|by eauto].
    apply IH; [done..|simpl in Hn; lia|]. by exists l, nd.
  - case_bool_decide; simpl; [|by eauto]. destruct am; simpl; [|by eauto].
    split_and!; [done..|]. by exists cs, c.
Qed.

Lemma resolveAbs_hops_spec h m p ff am : wf m → abs_result m ff am (resolveAbs_hops h m p ff am).
Proof.
  intros Hwf. revert p ff. induction h as [|h IH]; intros p ff; [simpl; eauto|].
  rewrite resolveAbs_hops_S. cbv zeta.
  destruct (wf_root m Hwf) as (l&n&Hl&Hn&Hd). change root_path with (render []). rewrite Hl.
  pose proof (comps_valid p) as Hv. destruct (comps p) as [|c cs] eqn:E.
  - split; [done|]. intros _ n' ?. simplify_eq. by eapply (wf_kind m Hwf).
  - apply abs_walk_spec; [done|by intros; apply IH|constructor|done|done| |by exists l, n].
    by apply length_render.
Qed.

(** A physical path resolves to itself. *)
Lemma abs_walk_physical m follow root ff am n cs rs l nd : wf m →
  valid_comps (cs ++ rs) → rs ≠ [] → (length rs ≤ n)%nat →
  nodes m !! render (cs ++ rs) = Some l → heap m !! l = Some nd →
  (ff = true → isSymlink nd = false) →
  abs_walk m follow root ff am n (render cs) (join [slash] rs) = Ok (render (cs ++ rs), Some l).
Proof.
  intros Hwf. revert cs rs. induction n as [|n IH]; intros cs rs Hv Hne Hn Hl Hnd Hs;
    (destruct rs as [|c rs]; [done|]); [simpl in Hn; lia|].
  pose proof Hv as [Hcs Hrs]%Forall_app. rewrite abs_walk_cons by done.
  destruct rs as [|d rs].
  - rewrite Hl, Hnd. rewrite bool_decide_eq_true_2 by done. simpl.
    destruct ff; simpl; [by rewrite Hs|by rewrite andb_false_r].
  - rewrite (cons_middle c), (assoc_L (++)) in Hv, Hl.
    destruct (wf_ancestor m (cs ++ [c]) d rs Hwf Hv) as (l'&n'&Hl'&Hn'&Hd');
      [by eexists|]. rewrite Hl', Hn', bool_decide_eq_false_2, Hd' by done.
    rewrite (proj2 (wf_kind m Hwf _ _ Hn') Hd'). cbn [negb andb].
    replace (cs ++ c :: d :: rs) with ((cs ++ [c]) ++ d :: rs) by (by rewrite <- (assoc_L (++))).
    apply IH; [done..|simpl in *; lia|done|done|done].
Qed.

Lemma resolveAbs_physical h m p ff am l nd : wf m → clean_abs p →
  nodes m !! p = Some l → heap m !! l = Some nd → (ff = true → isSymlink nd = false) →
  resolveAbs_hops (S h) m p ff am = Ok (p, Some l).
Proof.
  intros Hwf (cs&Hcs&->) Hl Hnd Hs. rewrite resolveAbs_hops_S, comps_render by done. cbv zeta.
  destruct cs as [|c cs]; [change root_path with (render []); by rewrite Hl|].
  apply (abs_walk_physical _ _ _ _ _ _ []  (c :: cs) l nd); [done..| |done|done|done].
  by apply length_render.
Qed.

(** The answer of [resolveCreatePathLocked]: a clean path with no symlink on it. *)
Definition create_result (m : MemoryFS) (r : result error gostr) : Prop :=
  match r with
  | Ok p => ∃ cs, valid_comps cs ∧ p = render cs ∧ nolink m cs
  | Err e => e = ESent ErrInvalid ∨ e = ESent ErrTooManySymlinks
  end.

(** Below a name that is not bound nothing is bound. *)
Lemma unbound_below m cs c rs : wf m → valid_comps (cs ++ c :: rs) →
  nodes m !! render (cs ++ [c]) = None → nodes m !! render (cs ++ c :: rs) = None.
Proof.
  intros Hwf Hv Hn. destruct rs as [|d rs]; [done|].
  destruct (nodes m !! render (cs ++ c :: d :: rs)) as [l|] eqn:E; [|done].
  rewrite (cons_middle c), (assoc_L (++)) in E, Hv.
  destruct (wf_ancestor m (cs ++ [c]) d rs Hwf Hv) as (?&?&?&_); [by eexists|congruence].
Qed.

Lemma nolink_dir m cs : wf m → valid_comps cs → dir_at m cs → nolink m cs.
Proof.
  intros Hwf Hv Hd pre l n [k ->] Hl Hn. destruct k as [|k ks].
  - rewrite app_nil_r in Hd. by eapply dir_at_nolink.
  - eapply dir_at_nolink; [done| |done|done]. eapply wf_ancestor; [done|exact Hv|].
    destruct Hd as (?&?&?&_). by eexists.
Qed.

Lemma nolink_extend m cs c rs : wf m → valid_comps (cs ++ c :: rs) → dir_at m cs →
  nodes m !! render (cs ++ [c]) = None → nolink m (cs ++ c :: rs).
Proof.
  intros Hwf Hv Hd Hno pre l n Hpre Hl Hn.
  destruct Hpre as [k Hk]. pose proof Hv as [Hcs _]%Forall_app.
  apply app_eq_inv in Hk as [(es&->&Hk)|(es&->&Hk)].
  - apply (nolink_dir m _ Hwf Hcs Hd pre l n); [by apply prefix_app_r|done|done].
  - destruct es as [|e es].
    { rewrite app_nil_r in Hl. by eapply dir_at_nolink. }
    simplify_eq/=.
    rewrite (unbound_below m cs e es) in Hl; [done|done| |done].
    rewrite app_comm_cons, (assoc_L (++)) in Hv. by apply Forall_app in Hv as [? _].
Qed.

Lemma create_walk_spec m follow abs n cs rs : wf m →
  (∀ t, clean_abs t → create_result m (follow t)) →
  valid_comps cs → valid_comps rs → rs ≠ [] → (length rs ≤ n)%nat → dir_at m cs →
  create_result m (create_walk m follow abs n (render cs) (join [slash] rs)).
Proof.
  intros Hwf Hf. revert cs rs. induction n as [|n IH]; intros cs rs Hcs Hrs Hne Hn Hd;
    (destruct rs as [|c rs]; [done|]); [simpl in Hn; lia|].
  rewrite create_walk_cons by done. pose proof Hrs as [Hc Hrs']%Forall_cons_1.
  assert (valid_comps (cs ++ [c])) as Hv by (by apply valid_comps_snoc).
  assert (valid_comps (cs ++ c :: rs)) as Hv' by (by apply Forall_app).
  destruct (nodes m !! render (cs ++ [c])) as [l|] eqn:El.
  - destruct (wf_key m Hwf _ _ El) as [_ [nd En]]. rewrite En.
    destruct (isSymlink nd) eqn:Es; [by apply Hf, link_target_clean|].
    case_bool_decide as Hlast.
    + exists (cs ++ [c]). split_and!; [done..|]. intros pre l' n' [k Hk] Hl' Hn'.
      destruct k as [|k ks] using rev_ind; [rewrite app_nil_r in Hk; congruence|].
      rewrite (assoc_L (++)) in Hk. apply app_inj_tail in Hk as [Hk _].
      apply (nolink_dir m cs Hwf Hcs Hd pre l' n'); [by exists ks|done|done].
    + destruct (mode_IsDir (n_mode nd)) eqn:Ed; simpl; [|by eauto].
      apply IH; [done..|simpl in Hn; lia|]. by exists l, nd.
  - exists (cs ++ c :: rs). split_and!; [done..|]. by apply nolink_extend.
Qed.

Lemma resolveCreate_hops_spec h m p : wf m → create_result m (resolveCreate_hops h m p).
Proof.
  intros Hwf. revert p. induction h as [|h IH]; intros p; [simpl; eauto|].
  rewrite resolveCreate_hops_S.
  destruct (wf_root m Hwf) as (l&n&Hl&Hn&Hd).
  pose proof (comps_valid p) as Hv. destruct (comps p) as [|c cs] eqn:E.
  - exists []. split_and!; [constructor|done|]. apply nolink_dir; [done|constructor|apply Hwf].
  - apply create_walk_spec; [done|by intros; apply IH|constructor|done|done| |by exists l, n].
    by apply length_render.
Qed.

(** ** States that look the same to path resolution *)

(** Two states with the same bindings, kinds and link targets: what loading a lazy file, writing
    to a file or opening one may change is not part of the view. *)
Record same_view (m m' : MemoryFS) : Prop := {
  sv_nodes : nodes m' = nodes m;
  sv_cwd : cwd m' = cwd m;
  sv_heap : ∀ l, (fun n => (n_mode n, n_target n)) <$> heap m' !! l =
                 (fun n => (n_mode n, n_target n)) <$> heap m !! l;
}.

#[export] Instance same_view_equiv : Equivalence same_view.
Proof.
  split.
  - intros m. by split.
  - intros m m' [H1 H2 H3]. by split.
  - intros m1 m2 m3 [H1 H2 H3] [K1 K2 K3]. split; [congruence|congruence|].
    intros l. by rewrite K3, H3.
Qed.

Lemma sv_lookup m m' l : same_view m m' →
  match heap m !! l, heap m' !! l with
  | Some n, Some n' => n_mode n' = n_mode n ∧ n_target n' = n_target n
  | None, None => True
  | _, _ => False
  end.
Proof.
  intros [_ _ H]. specialize (H l). destruct (heap m !! l), (heap m' !! l); simplify_eq/=; auto.
Qed.

Lemma abs_walk_view m m' follow follow' root ff am n cur rem : same_view m m' →
  (∀ t, follow' t = follow t) →
  abs_walk m' follow' root ff am n cur rem = abs_walk m follow root ff am n cur rem.
Proof.
  intros Hsv Hf. revert cur rem. induction n as [|n IH]; intros cur rem; [done|].
  cbn [abs_walk]. destruct rem as [|x xs]; [done|]. destruct (next_part (x :: xs)) as [part rem].
  cbv zeta. rewrite (sv_nodes _ _ Hsv). destruct (nodes m !! _) as [l|]; [|done].
  pose proof (sv_lookup _ _ l Hsv) as Hl.
  destruct (heap m !! l) as [nd|], (heap m' !! l) as [nd'|]; try done.
  destruct Hl as [Hm Ht]. unfold isSymlink. by rewrite Hm, Ht, Hf, IH.
Qed.

Lemma resolveAbs_view m m' h p ff am : same_view m m' →
  resolveAbs_hops h m' p ff am = resolveAbs_hops h m p ff am.
Proof.
  intros Hsv. revert p ff. induction h as [|h IH]; intros p ff; [done|]. cbn [resolveAbs_hops].
  cbv zeta. rewrite (sv_nodes _ _ Hsv). case_decide; [done|]. by apply abs_walk_view.
Qed.

Lemma create_walk_view m m' follow follow' abs n cur rem : same_view m m' →
  (∀ t, follow' t = follow t) →
  create_walk m' follow' abs n cur rem = create_walk m follow abs n cur rem.
Proof.
  intros Hsv Hf. revert cur rem. induction n as [|n IH]; intros cur rem; [done|].
  cbn [create_walk]. destruct rem as [|x xs]; [done|]. destruct (next_part (x :: xs)) as [part rem].
  cbv zeta. rewrite (sv_nodes _ _ Hsv). destruct (nodes m !! _) as [l|]; [|done].
  pose proof (sv_lookup _ _ l Hsv) as Hl.
  destruct (heap m !! l) as [nd|], (heap m' !! l) as [nd'|]; try done.
  destruct Hl as [Hm Ht]. unfold isSymlink. by rewrite Hm, Ht, Hf, IH.
Qed.

Lemma resolveCreate_view m m' h p : same_view m m' →
  resolveCreate_hops h m' p = resolveCreate_hops h m p.
Proof.
  intros Hsv. revert p. induction h as [|h IH]; intros p; [done|]. cbn [resolveCreate_hops].
  case_decide; [done|]. by apply create_walk_view.
Qed.

(** An assignment to a node that keeps its kind and its target. *)
Lemma same_view_update m l n n' : heap m !! l = Some n → n_mode n' = n_mode n →
  n_target n' = n_target n → same_view m (set_heap (<[l := n']> (heap m)) m).
Proof.
  intros Hn Hm Ht. split; [done..|]. intros l'. simpl. rewrite lookup_insert.
  case_decide; [|done]. subst. rewrite Hn. simpl. by rewrite Hm, Ht.
Qed.
