(* ===== verification/MemoryFSInv.v ===== *)
(** The calculus of specifications for the in-memory filesystem: what a call ends in, from a well-formed
    state and without a nil dereference, and the state changes that operations are made of. *)
From S2P Require Import Prelude GoPath FsTypes MemoryFS MemoryFSWf.

(** ** State lemmas *)

Lemma children_at_eq m cs l n : nodes m !! render cs = Some l → heap m !! l = Some n →
  children_at m cs = default ∅ (n_children n).
Proof. intros Hl Hn. unfold children_at. by rewrite (node_at_Some _ _ _ _ Hl Hn). Qed.

Lemma children_at_unbound m cs : nodes m !! render cs = None → children_at m cs = ∅.
Proof. intros H. unfold children_at, node_at. by rewrite H. Qed.

Lemma node_ok_file n : mode_IsDir (n_mode n) = false → n_children n = None → node_ok n.
Proof. intros Hd Hc. split; [|by rewrite Hd]. rewrite Hd, Hc. split; [done|by intros []]. Qed.

(** Assignments that keep a node's kind and entries. *)
Lemma wf_update m l n n' : wf m → heap m !! l = Some n → node_ok n' →
  n_children n' = n_children n → wf (set_heap (<[l := n']> (heap m)) m).
Proof.
  intros Hwf Hn Hok Hch.
  assert (mode_IsDir (n_mode n') = mode_IsDir (n_mode n)) as Hd.
  { destruct (wf_kind m Hwf l n Hn) as [H1 _]. destruct Hok as [H2 _]. rewrite Hch in H2.
    destruct (mode_IsDir (n_mode n')), (mode_IsDir (n_mode n)); naive_solver. }
  assert (∀ l' x, <[l := n']> (heap m) !! l' = Some x → ∃ y, heap m !! l' = Some y ∧
    mode_IsDir (n_mode x) = mode_IsDir (n_mode y) ∧ n_children x = n_children y ∧ node_ok x) as Hh.
  { intros l' x. rewrite lookup_insert. case_decide; intros ?; simplify_eq; [by exists n|].
    exists x. split_and!; [done..|]. by eapply (wf_kind m Hwf). }
  assert (∀ l', is_Some (<[l := n']> (heap m) !! l') ↔ is_Some (heap m !! l')) as Hs.
  { intros l'. rewrite lookup_insert. case_decide; subst; [|done]. rewrite Hn. naive_solver. }
  split; simpl.
  - apply Hwf.
  - intros p l' Hp. split; [by eapply wf_key|]. apply Hs. by eapply (wf_key m Hwf).
  - destruct (wf_root m Hwf) as (rl&rn&Hrl&Hrn&Hrd). unfold dir_at. simpl.
    destruct (decide (l = rl)) as [->|Hne].
    + exists rl, n'. rewrite lookup_insert_eq. simplify_eq. by rewrite Hd.
    + exists rl, rn. by rewrite lookup_insert_ne.
  - intros cs c Hv. rewrite (wf_tree m Hwf cs c Hv). unfold children_at, node_at. simpl.
    destruct (nodes m !! render cs) as [l'|] eqn:El; simpl; [|done].
    destruct (<[l:=n']> (heap m) !! l') as [x|] eqn:Ex.
    + apply Hh in Ex as (y&->&_&->&_). done.
    + destruct (heap m !! l') eqn:Ey; [|done].
      exfalso. apply eq_None_not_Some in Ex. apply Ex, Hs. by rewrite Ey.
  - intros l' x Hx. by apply Hh in Hx as (?&?&?&?&?).
  - intros p q l' x Hp Hq Hx Hdir. apply Hh in Hx as (y&Hy&Hdx&_). rewrite Hdx in Hdir.
    by eapply (wf_alias m Hwf).
  - intros l' Hl'. apply (wf_fresh m Hwf). by apply Hs.
Qed.

(** A fresh node that no path leads to yet. *)
Lemma wf_alloc m n : wf m → node_ok n →
  wf (MkFS (cwd m) (nodes m) (nextNodeID m) (implicitParents m)
        (<[next_loc m := n]> (heap m)) (Pos.succ (next_loc m))).
Proof.
  intros Hwf Hok.
  assert (heap m !! next_loc m = None) as Hf.
  { destruct (heap m !! next_loc m) eqn:E; [|done].
    assert (next_loc m < next_loc m)%positive; [|lia]. apply (wf_fresh m Hwf). by rewrite E. }
  assert (∀ l x, heap m !! l = Some x → <[next_loc m := n]> (heap m) !! l = Some x) as Hup.
  { intros l x Hl. rewrite lookup_insert_ne; [done|]. congruence. }
  assert (∀ p l, nodes m !! p = Some l → <[next_loc m := n]> (heap m) !! l = heap m !! l) as Heq.
  { intros p l Hp. destruct (wf_key m Hwf p l Hp) as [_ [x Hx]]. by rewrite Hx, (Hup _ _ Hx). }
  split; simpl.
  - apply Hwf.
  - intros p l Hp. split; [by eapply (wf_key m Hwf)|]. rewrite (Heq _ _ Hp).
    by eapply (wf_key m Hwf).
  - destruct (wf_root m Hwf) as (rl&rn&Hrl&Hrn&Hrd). exists rl, rn. simpl. split_and!; auto.
  - intros cs c Hv. rewrite (wf_tree m Hwf cs c Hv). unfold children_at, node_at. simpl.
    destruct (nodes m !! render cs) as [l'|] eqn:El; simpl; [|done]. by rewrite (Heq _ _ El).
  - intros l x. rewrite lookup_insert. case_decide; [by intros; simplify_eq|apply Hwf].
  - intros p q l x Hp Hq Hx. rewrite (Heq _ _ Hp) in Hx. by eapply (wf_alias m Hwf).
  - intros l. rewrite lookup_insert. case_decide; [subst; lia|].
    intros Hl%(wf_fresh m Hwf). lia.
Qed.

(** Only fields that the tree does not depend on. *)
Lemma wf_other m id ip nl : wf m → (next_loc m ≤ nl)%positive →
  wf (MkFS (cwd m) (nodes m) id ip (heap m) nl).
Proof.
  intros [H1 H2 H3 H4 H5 H6 H7] Hle. split; [done..|]. simpl. intros l Hl%H7. lia.
Qed.

Lemma wf_set_cwd m p : wf m → clean_abs p → wf (set_cwd p m).
Proof. intros [H1 H2 H3 H4 H5 H6 H7] Hp. by split. Qed.

(** Binding an unbound name inside a directory, with the entry in that directory. *)
Lemma wf_attach m cs c l n pl pn ch : wf m → valid_comps (cs ++ [c]) →
  nodes m !! render (cs ++ [c]) = None →
  nodes m !! render cs = Some pl → heap m !! pl = Some pn → n_children pn = Some ch →
  heap m !! l = Some n →
  (mode_IsDir (n_mode n) = true → n_children n = Some ∅ ∧ ∀ p, nodes m !! p ≠ Some l) →
  wf (set_heap (<[pl := set_children (Some ({[c]} ∪ ch)) pn]> (heap m))
        (set_nodes (<[render (cs ++ [c]) := l]> (nodes m)) m)).
Proof.
  intros Hwf Hv Hno Hpl Hpn Hch Hl Hdir.
  pose proof Hv as [Hcs Hc]%valid_comps_snoc.
  assert (mode_IsDir (n_mode pn) = true) as Hpd by (apply (wf_kind m Hwf pl pn); by eauto).
  assert (l ≠ pl) as Hlp.
  { intros ->. simplify_eq. destruct Hdir as [_ Hd]; [done|]. by eapply Hd. }
  set (pn' := set_children (Some ({[c]} ∪ ch)) pn).
  assert (∀ l', l' ≠ pl → <[pl := pn']> (heap m) !! l' = heap m !! l') as Hh
    by (intros; by rewrite lookup_insert_ne).
  assert (∀ ds, valid_comps ds → ds ≠ cs → nodes m !! render ds ≠ Some pl) as Hpu.
  { intros ds Hds Hne E. apply Hne, render_inj; [done..|]. by eapply (wf_alias m Hwf). }
  split; simpl.
  - apply Hwf.
  - intros p l'. rewrite lookup_insert. intros Hp. case_decide; simplify_eq.
    + split; [by exists (cs ++ [c])|]. rewrite Hh by done. by eexists.
    + destruct (wf_key m Hwf p l' Hp) as [? Hs]. split; [done|].
      destruct (decide (l' = pl)) as [->|]; [rewrite lookup_insert_eq; by eexists|by rewrite Hh].
  - destruct (wf_root m Hwf) as (rl&rn&Hrl&Hrn&Hrd). unfold dir_at. simpl.
    rewrite lookup_insert_ne; last first.
    { intros E. apply (render_inj _ []) in E; [by destruct cs|done|constructor]. }
    destruct (decide (rl = pl)) as [->|Hne].
    + exists pl, pn'. rewrite lookup_insert_eq. done.
    + exists rl, rn. by rewrite Hh.
  - intros ds d Hds. destruct (decide (ds = cs)) as [->|Hne].
    + assert (children_at (set_heap (<[pl := pn']> (heap m))
        (set_nodes (<[render (cs ++ [c]) := l]> (nodes m)) m)) cs = {[c]} ∪ ch) as ->.
      { erewrite children_at_eq; [|simpl; rewrite lookup_insert_ne; [exact Hpl|]|
          simpl; apply lookup_insert_eq]; [done|].
        intros E%render_inj; [|done..]. by apply (f_equal length) in E;
          rewrite length_app in E; simpl in E; lia. }
      pose proof (wf_tree m Hwf cs d Hds) as Ht.
      rewrite (children_at_eq _ _ _ _ Hpl Hpn), Hch in Ht. simpl in Ht.
      rewrite elem_of_union, elem_of_singleton, <- Ht, lookup_insert.
      case_decide as E.
      * split; [|naive_solver]. intros [Hd _]. left.
        apply render_inj in E; [|done|by apply valid_comps_snoc]. by apply app_inj_tail in E as [_ ->].
      * split; [naive_solver|]. intros [->|?]; [done|done].
    + assert (children_at (set_heap (<[pl := pn']> (heap m))
        (set_nodes (<[render (cs ++ [c]) := l]> (nodes m)) m)) ds = children_at m ds) as ->.
      { unfold children_at, node_at. simpl. rewrite lookup_insert. case_decide as E.
        - apply render_inj in E as <-; [|done..]. simpl. rewrite Hh, Hl, Hno by done. simpl.
          destruct (n_children n) as [ch'|] eqn:En; [|done]. simpl.
          destruct (mode_IsDir (n_mode n)) eqn:Ed.
          + destruct Hdir as [? _]; [done|]. by simplify_eq.
          + destruct (wf_kind m Hwf l n Hl) as [[_ H2] _].
            rewrite En in H2. by rewrite H2 in Ed by eauto.
        - destruct (nodes m !! render ds) as [l'|] eqn:El'; simpl; [|done].
          rewrite Hh; [done|]. intros ->. by eapply Hpu. }
      rewrite <- (wf_tree m Hwf ds d Hds), lookup_insert. case_decide as E; [|done].
      split; [|by rewrite <- E, Hno; intros [_ []]]. intros [Hd _]. exfalso.
      apply render_inj in E; [|done|by apply valid_comps_snoc].
      by apply app_inj_tail in E as [-> _].
  - intros l' x. rewrite lookup_insert. case_decide; [|apply Hwf]. intros ?; simplify_eq.
    split; simpl; [|by apply (wf_kind m Hwf l' pn)]. rewrite Hpd. split; [by eexists|done].
  - intros p q l' x Hp Hq Hx Hd.
    assert (∃ y, heap m !! l' = Some y ∧ mode_IsDir (n_mode y) = true) as (y&Hy&Hyd).
    { rewrite lookup_insert in Hx. case_decide; simplify_eq; eauto. }
    rewrite lookup_insert in Hp, Hq.
    case_decide; case_decide; [congruence| | |by eapply (wf_alias m Hwf)].
    + exfalso. simplify_eq. by eapply (proj2 (Hdir Hyd)).
    + exfalso. simplify_eq. by eapply (proj2 (Hdir Hyd)).
  - intros l'. rewrite lookup_insert. case_decide; [|apply Hwf]. subst. intros _.
    apply (wf_fresh m Hwf). by eexists.
Qed.
