(* ===== verification/MemoryFSTree.v ===== *)
(** The two operations on whole subtrees, [Remove] and [Rename], as transformations of the path
    map: which paths they bind, and that the tree invariant survives them. *)
From S2P Require Import Prelude GoPath FsTypes MemoryFS MemoryFSWf MemoryFSInv.

(** ** Subtrees by components *)

(** The components of a path other than "/", each behind its slash. *)
Definition tail_str (cs : list gostr) : gostr := concat (map (cons slash) cs).

Lemma render_tail cs : cs ≠ [] → render cs = tail_str cs.
Proof.
  assert (∀ l, l ≠ [] → slash :: join [slash] l = tail_str l) as H.
  { intros l. induction l as [|c l IH]; [done|]. intros _. destruct l as [|d l].
    - unfold tail_str. simpl. by rewrite app_nil_r.
    - change (join [slash] (c :: d :: l)) with (c ++ slash :: join [slash] (d :: l)).
      rewrite IH by done. done. }
  intros Hne. rewrite <- H by done. by destruct cs.
Qed.

Lemma tail_str_app as_ k : tail_str (as_ ++ k) = tail_str as_ ++ tail_str k.
Proof. unfold tail_str. by rewrite map_app, concat_app. Qed.

Lemma render_app cs k : cs ≠ [] → render (cs ++ k) = render cs ++ tail_str k.
Proof. intros H. rewrite !render_tail by (by destruct cs). apply tail_str_app. Qed.

Lemma in_subtree_render cs ds : valid_comps cs → valid_comps ds → cs ≠ [] →
  in_subtree (render cs) (render ds) ↔ cs `prefix_of` ds.
Proof.
  intros Hc Hd Hne. unfold in_subtree. rewrite has_prefix_spec.
  change (go "/") with [slash]. rewrite prefix_render by done. split.
  - intros [E|(e&es&->)]; [|by apply prefix_app_r]. by apply render_inj in E as ->.
  - intros [[|e es] ->]; [left; by rewrite app_nil_r|right; eauto].
Qed.

Lemma replace_first_render as_ bs k : as_ ≠ [] → bs ≠ [] →
  replace_first (render as_) (render bs) (render (as_ ++ k)) = render (bs ++ k).
Proof.
  intros Ha Hb. rewrite !render_app by done.
  destruct (render_head as_) as [t Ht].
  assert (has_prefix (render as_) (render as_ ++ tail_str k) = true) as Hp
    by apply has_prefix_app.
  destruct (render as_ ++ tail_str k) as [|x s] eqn:E; [by rewrite Ht in E|].
  cbn [replace_first]. rewrite Hp, <- E, drop_app_length. done.
Qed.

(** ** Removing a subtree *)

Lemma filter_subtree_lookup (ns : gmap gostr loc) cs ds :
  valid_comps cs → valid_comps ds → cs ≠ [] →
  filter (fun e => ¬ in_subtree (render cs) e.1) ns !! render ds =
  if decide (cs `prefix_of` ds) then None else ns !! render ds.
Proof.
  intros Hc Hd Hne. case_decide as Hp.
  - apply map_lookup_filter_None. right. intros l _ Hn. apply Hn. by apply in_subtree_render.
  - destruct (ns !! render ds) as [l|] eqn:E.
    + apply map_lookup_filter_Some. split; [done|]. simpl. by rewrite in_subtree_render.
    + apply map_lookup_filter_None. by left.
Qed.

Lemma prefix_snoc_inv {A} (l k : list A) (x : A) :
  l `prefix_of` (k ++ [x]) → l = k ++ [x] ∨ l `prefix_of` k.
Proof.
  intros [r Hr]. destruct r as [|y r _] using rev_ind.
  - left. by rewrite app_nil_r in Hr.
  - right. rewrite (assoc_L (++)) in Hr. apply app_inj_tail in Hr as [-> _]. by exists r.
Qed.

Lemma prefix_snoc_eq {A} (l k : list A) (x y : A) :
  (l ++ [x]) `prefix_of` (l ++ [y]) → x = y.
Proof. intros H%prefix_app_inv. by apply prefix_cons_inv_1 in H. Qed.

Lemma wf_remove m cs c pl pn : wf m → valid_comps (cs ++ [c]) →
  nodes m !! render cs = Some pl → heap m !! pl = Some pn → mode_IsDir (n_mode pn) = true →
  wf (set_heap (<[pl := set_children ((.∖ {[c]}) <$> n_children pn) pn]> (heap m))
        (set_nodes (filter (fun e => ¬ in_subtree (render (cs ++ [c])) e.1) (nodes m)) m)).
Proof.
  intros Hwf Hv Hpl Hpn Hpd. pose proof Hv as [Hcs Hc]%valid_comps_snoc.
  assert (cs ++ [c] ≠ []) as Hne by (by destruct cs).
  destruct (wf_kind m Hwf pl pn Hpn) as [[Hk _] Hks].
  destruct Hk as [ch Hch]; [done|]. rewrite Hch. simpl.
  assert (∀ p l, filter (fun e => ¬ in_subtree (render (cs ++ [c])) e.1) (nodes m) !! p = Some l →
    nodes m !! p = Some l) as Hf.
  { intros p l H. by apply map_lookup_filter_Some in H as [? _]. }
  assert (∀ ds, valid_comps ds → ds ≠ cs → nodes m !! render ds ≠ Some pl) as Hpu.
  { intros ds Hds Hdne E. apply Hdne, render_inj; [done..|]. by eapply (wf_alias m Hwf). }
  split; simpl.
  - apply Hwf.
  - intros p l Hp%Hf. destruct (wf_key m Hwf p l Hp) as [? Hs]. split; [done|].
    rewrite lookup_insert. by case_decide.
  - destruct (wf_root m Hwf) as (rl&rn&Hrl&Hrn&Hrd).
    assert (filter (fun e => ¬ in_subtree (render (cs ++ [c])) e.1) (nodes m) !! render [] = Some rl).
    { rewrite filter_subtree_lookup by (done || constructor). rewrite decide_False; [done|].
      intros H%prefix_nil_inv. done. }
    unfold dir_at. simpl. destruct (decide (pl = rl)) as [->|Hn].
    + eexists rl, _. rewrite lookup_insert_eq. split_and!; [done..|]. simpl. by simplify_eq.
    + exists rl, rn. by rewrite lookup_insert_ne.
  - intros ds d Hds.
    set (m' := set_heap _ _).
    assert (valid_comp d → is_Some (nodes m' !! render (ds ++ [d])) ↔
      ¬ (cs ++ [c]) `prefix_of` (ds ++ [d]) ∧ is_Some (nodes m !! render (ds ++ [d]))) as Hb.
    { intros Hd. unfold m'. simpl.
      rewrite filter_subtree_lookup by (done || by apply valid_comps_snoc).
      case_decide; [|naive_solver]. split; [by intros []|naive_solver]. }
    assert (d ∈ children_at m' ds ↔
      ¬ (cs ++ [c]) `prefix_of` (ds ++ [d]) ∧ d ∈ children_at m ds) as Hx; last first.
    { rewrite Hx, <- (wf_tree m Hwf ds d Hds). split; [|naive_solver].
      intros [Hd Hs]. apply (Hb Hd) in Hs. naive_solver. }
    unfold children_at, node_at, m'. simpl.
    rewrite filter_subtree_lookup by done. case_decide as Hp.
    { split; [set_solver|]. intros [Hn _]. exfalso. apply Hn. by apply prefix_app_r. }
    destruct (nodes m !! render ds) as [l|] eqn:El; simpl; [|set_solver].
    destruct (decide (ds = cs)) as [->|Hdc].
    + rewrite Hpl in El. simplify_eq. rewrite lookup_insert_eq, Hpn. simpl. rewrite Hch. simpl.
      rewrite elem_of_difference, elem_of_singleton. split.
      * intros [? Hn]. split; [|done]. by intros ?%prefix_snoc_eq.
      * intros [Hn ?]. split; [done|]. by intros ->.
    + rewrite lookup_insert_ne by (intros ->; by eapply Hpu).
      split; [|naive_solver]. intros Hin. split; [|done].
      intros [E|?]%prefix_snoc_inv; [|done]. apply Hdc. by apply app_inj_tail in E as [-> _].
  - intros l n. rewrite lookup_insert. case_decide; [|apply Hwf]. intros ?; simplify_eq.
    split; simpl; [split; [by eexists|done]|done].
  - intros p q l n Hp%Hf Hq%Hf Hn Hd.
    assert (∃ y, heap m !! l = Some y ∧ mode_IsDir (n_mode y) = true) as (y&Hy&Hyd).
    { rewrite lookup_insert in Hn. case_decide; simplify_eq; eauto. }
    by eapply (wf_alias m Hwf).
  - intros l. rewrite lookup_insert. case_decide; [|apply Hwf]. subst. intros _.
    apply (wf_fresh m Hwf). by eexists.
Qed.

(** ** Rebuilding the entries of every directory *)

Lemma set_children_id n : set_children (n_children n) n = n.
Proof. by destruct n. Qed.

Definition bound_in (l : loc) (es : list (gostr * loc)) : bool := bool_decide (l ∈ es.*2).
#[local] Arguments bound_in : simpl never.

Lemma bound_in_cons l e es : bound_in l (e :: es) = bool_decide (l = e.2) || bound_in l es.
Proof.
  unfold bound_in. rewrite <- bool_decide_or. apply bool_decide_ext. apply elem_of_cons.
Qed.

Lemma reset_fold_lookup (h : gmap loc memoryNode) (es : list (gostr * loc)) l :
  foldr (fun e h => match h !! e.2 with
    | Some n => if mode_IsDir (n_mode n) then <[e.2 := set_children (Some ∅) n]> h else h
    | None => h
    end) h es !! l =
  (fun n => if mode_IsDir (n_mode n) && bound_in l es
            then set_children (Some ∅) n else n) <$> h !! l.
Proof.
  induction es as [|e es IH]; simpl.
  - destruct (h !! l) as [n|]; simpl; [|done]. by rewrite andb_false_r.
  - set (g := foldr _ h es) in *. rewrite bound_in_cons.
    destruct (decide (l = e.2)) as [->|Hne].
    + rewrite bool_decide_eq_true_2 by done. simpl.
      destruct (h !! e.2) as [n|] eqn:Eh; simpl in IH |- *.
      * destruct (g !! e.2) as [x|] eqn:Eg; simplify_eq.
        destruct (mode_IsDir (n_mode n)) eqn:Ed; simpl.
        -- destruct (bound_in e.2 es); simpl in *; rewrite Ed, lookup_insert_eq; done.
        -- by rewrite Ed.
      * by rewrite IH.
    + rewrite bool_decide_eq_false_2 by done. simpl.
      rewrite <- IH. destruct (g !! e.2) as [n|]; [|done]. case_match; [|done].
      by rewrite lookup_insert_ne.
Qed.

Lemma bound_in_lookup (ns : gmap gostr loc) p l :
  ns !! p = Some l → bound_in l (map_to_list ns) = true.
Proof.
  intros H. apply bool_decide_eq_true_2. apply list_elem_of_fmap.
  exists (p, l). by rewrite elem_of_map_to_list.
Qed.

(** The names that the second loop enters at [l]. *)
Definition entered (ns : gmap gostr loc) (l : loc) (es : list (gostr * loc)) : gset gostr :=
  list_to_set (path_Base <$> (filter (fun e => e.1 ≠ root_path ∧ ns !! parentDir e.1 = Some l) es).*1).

Lemma enter_fold_lookup ns h es l :
  foldr (enter_child ns) h es !! l =
  (fun n => if mode_IsDir (n_mode n)
            then set_children ((entered ns l es ∪.) <$> n_children n) n else n) <$> h !! l.
Proof.
  induction es as [|e es IH]; simpl.
  - destruct (h !! l) as [n|]; simpl; [|done]. f_equal. case_match; [|done].
    rewrite <- (set_children_id n) at 1. f_equal. destruct (n_children n); simpl; [|done].
    f_equal. unfold entered. simpl. set_solver.
  - set (g := foldr _ h es) in *. unfold enter_child.
    assert (entered ns l (e :: es) =
      (if decide (e.1 ≠ root_path ∧ ns !! parentDir e.1 = Some l)
       then {[path_Base e.1]} ∪ entered ns l es else entered ns l es)) as ->.
    { unfold entered. rewrite filter_cons. by case_decide. }
    case_decide as H1; [rewrite decide_False by naive_solver; done|].
    destruct (ns !! parentDir e.1) as [pl|] eqn:Epl;
      [|rewrite decide_False by naive_solver; done].
    destruct (decide (pl = l)) as [->|Hne].
    + rewrite decide_True by done. destruct (h !! l) as [n|] eqn:Eh; simpl in *.
      * rewrite IH. destruct (mode_IsDir (n_mode n)) eqn:Ed; simpl; rewrite Ed.
        -- rewrite lookup_insert_eq. unfold set_children. simpl. do 2 f_equal.
           destruct (n_children n); simpl; [|done]. f_equal. set_solver.
        -- by rewrite IH.
      * by rewrite IH.
    + rewrite decide_False by naive_solver. rewrite <- IH.
      destruct (g !! pl) as [pn|]; [|done]. case_match; [|done]. by rewrite lookup_insert_ne.
Qed.

Lemma rebuild_lookup m l :
  heap (rebuildDirectoryChildrenLocked m).2 !! l =
  (fun n => if mode_IsDir (n_mode n) then
              if bound_in l (map_to_list (nodes m))
              then set_children (Some (entered (nodes m) l (map_to_list (nodes m)))) n
              else set_children ((entered (nodes m) l (map_to_list (nodes m)) ∪.) <$> n_children n) n
            else n) <$> heap m !! l.
Proof.
  unfold rebuildDirectoryChildrenLocked, modify, reset_children. simpl.
  rewrite enter_fold_lookup, reset_fold_lookup, <- option_fmap_compose.
  destruct (heap m !! l) as [n|]; simpl; [|done]. f_equal.
  destruct (mode_IsDir (n_mode n)) eqn:Ed; simpl; [|by rewrite Ed].
  destruct (bound_in l _); simpl; rewrite Ed; [|done].
  unfold set_children. simpl. f_equal. f_equal. set_solver.
Qed.

(** The path map is parent-closed: what the rebuilding loops need to restore the invariant. *)
Record pre_wf (m : MemoryFS) : Prop := {
  pre_cwd : clean_abs (cwd m);
  pre_key : ∀ p l, nodes m !! p = Some l → clean_abs p ∧ is_Some (heap m !! l);
  pre_root : dir_at m [];
  pre_parent : ∀ cs c, valid_comps (cs ++ [c]) → is_Some (nodes m !! render (cs ++ [c])) → dir_at m cs;
  pre_kind : ∀ l n, heap m !! l = Some n → node_ok n;
  pre_alias : ∀ p q l n, nodes m !! p = Some l → nodes m !! q = Some l →
    heap m !! l = Some n → mode_IsDir (n_mode n) = true → p = q;
  pre_fresh : ∀ l, is_Some (heap m !! l) → (l < next_loc m)%positive;
}.

Lemma elem_of_entered m cs l c : pre_wf m → valid_comps cs → nodes m !! render cs = Some l →
  dir_at m cs →
  c ∈ entered (nodes m) l (map_to_list (nodes m)) ↔
  valid_comp c ∧ is_Some (nodes m !! render (cs ++ [c])).
Proof.
  intros Hwf Hcs Hl (l'&n&Hl'&Hn&Hd). simplify_eq. unfold entered.
  rewrite elem_of_list_to_set, list_elem_of_fmap. split.
  - intros (p&->&Hp). apply list_elem_of_fmap in Hp as ([q lq]&->&Hq).
    apply list_elem_of_filter in Hq as [[Hr Hpar] Hq]. simpl in *.
    apply elem_of_map_to_list in Hq. destruct (pre_key m Hwf _ _ Hq) as [(ds&Hds&->) _].
    destruct ds as [|d ds _] using rev_ind; [done|].
    rewrite parentDir_snoc in Hpar by done. rewrite path_Base_snoc by done.
    apply valid_comps_snoc in Hds as [Hds Hd'].
    assert (cs = ds) as ->.
    { apply render_inj; [done..|]. by eapply (pre_alias m Hwf). }
    split; [done|by eexists].
  - intros [Hc [lq Hq]]. assert (valid_comps (cs ++ [c])) as Hv by (by apply valid_comps_snoc).
    exists (render (cs ++ [c])). split; [by rewrite path_Base_snoc|].
    apply list_elem_of_fmap. exists (render (cs ++ [c]), lq). split; [done|].
    apply list_elem_of_filter. simpl. rewrite parentDir_snoc by done.
    split; [split; [|done]|by apply elem_of_map_to_list].
    intros E%render_root_inv; [by destruct cs|done].
Qed.

Lemma wf_rebuild m : pre_wf m → wf (rebuildDirectoryChildrenLocked m).2.
Proof.
  intros Hwf.
  assert (nodes (rebuildDirectoryChildrenLocked m).2 = nodes m) as Hns by done.
  assert (∀ l n', heap (rebuildDirectoryChildrenLocked m).2 !! l = Some n' → ∃ n,
    heap m !! l = Some n ∧ mode_IsDir (n_mode n') = mode_IsDir (n_mode n) ∧ node_ok n') as Hh.
  { intros l n'. rewrite rebuild_lookup. intros (n&Hn&->)%fmap_Some.
    pose proof (pre_kind m Hwf l n Hn) as Hok. exists n.
    destruct (mode_IsDir (n_mode n)) eqn:Ed; [|done].
    destruct Hok as [[H1 H2] H3]. destruct H1 as [ch Hch]; [done|].
    destruct (bound_in l _); simpl; rewrite Ed; (split_and!; [done..|]);
      (split; simpl; [|intros; by apply H3]).
    - naive_solver.
    - rewrite Hch. naive_solver. }
  assert (∀ l, is_Some (heap (rebuildDirectoryChildrenLocked m).2 !! l) ↔ is_Some (heap m !! l)) as Hs.
  { intros l. rewrite rebuild_lookup. apply fmap_is_Some. }
  assert (∀ cs, dir_at m cs → dir_at (rebuildDirectoryChildrenLocked m).2 cs) as Hdir.
  { intros cs (l&n&Hl&Hn&Hd). destruct (proj2 (Hs l)) as [n' Hn']; [by rewrite Hn|].
    exists l, n'. split_and!; [done..|]. apply Hh in Hn' as (?&?&->&_). by simplify_eq. }
  split.
  - apply Hwf.
  - intros p l Hp. split; [by eapply (pre_key m Hwf)|]. apply Hs. by eapply (pre_key m Hwf).
  - apply Hdir, Hwf.
  - intros cs c Hcs. rewrite Hns. split.
    + intros [Hc Hb]. assert (valid_comps (cs ++ [c])) as Hv by (by apply valid_comps_snoc).
      pose proof (pre_parent m Hwf cs c Hv Hb) as Hd. pose proof Hd as (l&n&Hl&Hn&Hnd).
      erewrite children_at_eq; [|by rewrite Hns|rewrite rebuild_lookup, Hn; done].
      rewrite Hnd, (bound_in_lookup _ _ _ Hl). simpl. by apply (elem_of_entered m cs).
    + intros Hin. pose proof Hin as (l&n'&Hl&Hn'&Hnd')%children_at_dir; [|by intros ?? (?&?&?&?)%Hh].
      rewrite (children_at_eq _ _ _ _ Hl Hn') in Hin. rewrite Hns in Hl.
      rewrite rebuild_lookup in Hn'. apply fmap_Some in Hn' as (n&Hn&->).
      destruct (mode_IsDir (n_mode n)) eqn:Ed; [|by rewrite Ed in Hnd'].
      rewrite (bound_in_lookup _ _ _ Hl) in Hin. simpl in Hin. apply (elem_of_entered m cs l) in Hin; [done..|]. by exists l, n.
  - intros l n Hn. by apply Hh in Hn as (?&?&?&?).
  - intros p q l n' Hp Hq Hn' Hd. apply Hh in Hn' as (n&Hn&Hdn&_). rewrite Hdn in Hd.
    by eapply (pre_alias m Hwf).
  - intros l Hl. apply (pre_fresh m Hwf). by apply Hs.
Qed.

(** ** Moving a subtree *)

Section move.
Context (m : MemoryFS) (as_ bs : list gostr).
Context (Hwf : wf m) (Has : valid_comps as_) (Hbs : valid_comps bs).
Context (Hane : as_ ≠ []) (Hbne : bs ≠ []).
Context (Hfree : nodes m !! render bs = None) (Hnd : ¬ as_ `prefix_of` bs).

Let moved := move_nodes (render as_) (render bs) (nodes m).

Lemma moved_free k : valid_comps k → nodes m !! render (bs ++ k) = None.
Proof.
  intros Hk. destruct k as [|c k]; [by rewrite app_nil_r|].
  destruct bs as [|b bs' _] using rev_ind; [done|].
  rewrite <- (assoc_L (++)). simpl. apply unbound_below; [done| |done].
  rewrite (cons_middle b), (assoc_L (++)). by apply Forall_app.
Qed.

Let moved_list := map (fun e => (replace_first (render as_) (render bs) e.1, e.2))
  (map_to_list (filter (fun e => in_subtree (render as_) e.1) (nodes m))).

Lemma elem_of_moved_list q l : (q, l) ∈ moved_list ↔
  ∃ k, valid_comps k ∧ q = render (bs ++ k) ∧ nodes m !! render (as_ ++ k) = Some l.
Proof using Hwf Has Hane Hbne.
  unfold moved_list. rewrite list_elem_of_fmap. split.
  - intros ([p l']&Hq&Hp). simplify_eq/=.
    apply elem_of_map_to_list, map_lookup_filter_Some in Hp as [Hp Hs]. simpl in Hs.
    destruct (wf_key m Hwf _ _ Hp) as [(ds&Hds&->) _].
    rewrite in_subtree_render in Hs by done. destruct Hs as [k ->].
    exists k. rewrite replace_first_render by done. apply Forall_app in Hds as [_ ?]. done.
  - intros (k&Hk&->&Hl). exists (render (as_ ++ k), l). simpl.
    rewrite replace_first_render by done. split; [done|].
    apply elem_of_map_to_list, map_lookup_filter_Some. split; [done|]. simpl.
    apply in_subtree_render; [done|by apply Forall_app|done|by apply prefix_app_r].
Qed.

Lemma moved_list_NoDup : NoDup moved_list.*1.
Proof using Hwf Has Hbs Hane Hbne.
  unfold moved_list. rewrite <- list_fmap_compose.
  apply NoDup_fmap_2_strong; [|apply NoDup_map_to_list].
  intros [p l] [q l'] Hp Hq E. simpl in E.
  apply elem_of_map_to_list, map_lookup_filter_Some in Hp as [Hp Hps], Hq as [Hq Hqs].
  simpl in *.
  destruct (wf_key m Hwf _ _ Hp) as [(ds&Hds&->) _].
  destruct (wf_key m Hwf _ _ Hq) as [(es&Hes&->) _].
  rewrite in_subtree_render in Hps, Hqs by done. destruct Hps as [k ->], Hqs as [k' ->].
  rewrite !replace_first_render in E by done.
  apply render_inj in E; [|apply Forall_app; split; [done|by apply Forall_app in Hds as [_ ?]]
    |apply Forall_app; split; [done|by apply Forall_app in Hes as [_ ?]]].
  apply app_inv_head in E as ->. congruence.
Qed.

Lemma moved_lookup ds : valid_comps ds →
  moved !! render ds =
  if decide (bs `prefix_of` ds) then nodes m !! render (as_ ++ drop (length bs) ds)
  else if decide (as_ `prefix_of` ds) then None else nodes m !! render ds.
Proof using All.
  intros Hds. unfold moved, move_nodes. fold moved_list.
  assert (∀ l, list_to_map (M := gmap gostr loc) moved_list !! render ds = Some l ↔
    (render ds, l) ∈ moved_list) as Hl.
  { intros l. symmetry. apply elem_of_list_to_map, moved_list_NoDup. }
  case_decide as Hb.
  - destruct Hb as [k ->]. rewrite drop_app_length. apply Forall_app in Hds as [_ Hk].
    rewrite lookup_union_l; last first.
    { apply map_lookup_filter_None. left. by apply moved_free. }
    apply option_eq. intros l. rewrite Hl, elem_of_moved_list. split.
    + intros (k'&Hk'&E&?). apply render_inj in E; [|by apply Forall_app..].
      by apply app_inv_head in E as ->.
    + intros ?. by exists k.
  - rewrite lookup_union_r; last first.
    { apply eq_None_not_Some. intros [l Hx]. rewrite Hl, elem_of_moved_list in Hx.
      destruct Hx as (k&Hk&E&_). apply render_inj in E; [|done|by apply Forall_app].
      apply Hb. rewrite E. by apply prefix_app_r. }
    by apply filter_subtree_lookup.
Qed.

(** Where a path of the moved tree was before. *)
Definition moved_from (ds : list gostr) : list gostr :=
  if decide (bs `prefix_of` ds) then as_ ++ drop (length bs) ds else ds.

Lemma moved_bound ds l : valid_comps ds → moved !! render ds = Some l →
  valid_comps (moved_from ds) ∧ nodes m !! render (moved_from ds) = Some l ∧
  (bs `prefix_of` ds ∨ ¬ as_ `prefix_of` ds).
Proof using All.
  intros Hds. rewrite moved_lookup by done. unfold moved_from.
  case_decide as Hb; [|case_decide; naive_solver]. intros Hl. split_and!; [|done|by left].
  apply Forall_app. split; [done|]. by apply Forall_drop.
Qed.

Lemma moved_dir cs b : bs = cs ++ [b] → dir_at m cs → moved !! render cs = nodes m !! render cs.
Proof using All.
  intros Hb Hd. pose proof Hbs as Hcs. rewrite Hb in Hcs. apply valid_comps_snoc in Hcs as [Hcs _].
  rewrite moved_lookup by done.
  rewrite decide_False; last first.
  { rewrite Hb. intros [k Hk]. apply (f_equal length) in Hk. rewrite !length_app in Hk.
    simpl in Hk. lia. }
  rewrite decide_False; [done|]. intros Hp. apply Hnd. rewrite Hb. by apply prefix_app_r.
Qed.

Lemma pre_wf_moved cs b : bs = cs ++ [b] → dir_at m cs → pre_wf (set_nodes moved m).
Proof using All.
  intros Hb Hd.
  assert (∀ p l, moved !! p = Some l → clean_abs p) as Hclean.
  { intros p l. unfold moved, move_nodes. fold moved_list.
    intros [Hx|[_ Hx]]%lookup_union_Some_raw.
    - apply elem_of_list_to_map_2, elem_of_moved_list in Hx as (k&?&->&_).
      exists (bs ++ k). split; [by apply Forall_app|done].
    - apply map_lookup_filter_Some in Hx as [Hx _]. by eapply (wf_key m Hwf). }
  split; simpl.
  - apply Hwf.
  - intros p l Hp. split; [by eapply Hclean|]. destruct (Hclean _ _ Hp) as (ds&Hds&->).
    apply moved_bound in Hp as (_&Hp&_); [|done]. by eapply (wf_key m Hwf).
  - destruct (wf_root m Hwf) as (l&n&Hl&?&?). exists l, n. split_and!; [|done..].
    change (moved !! render [] = Some l). rewrite moved_lookup by constructor.
    rewrite !decide_False; [done|by intros ?%prefix_nil_inv..].
  - intros ds c Hv [l Hl]. apply moved_bound in Hl as (Hv'&Hl&Hor); [|done].
    unfold dir_at. simpl. unfold moved_from in Hv', Hl. case_decide as Hp.
    + apply prefix_snoc_inv in Hp as [E|Hp].
      * rewrite Hb in E. apply app_inj_tail in E as [<- <-].
        by rewrite (moved_dir cs b).
      * destruct Hp as [k ->]. rewrite <- (assoc_L (++)), drop_app_length in Hv', Hl.
        rewrite (assoc_L (++)) in Hv', Hl.
        destruct (wf_parent m _ _ Hwf Hv') as (pl&pn&?&?&?); [by eexists|].
        exists pl, pn. pose proof Hv as [Hbk _]%valid_comps_snoc. rewrite moved_lookup by done.
        rewrite decide_True by (by apply prefix_app_r). by rewrite drop_app_length.
    + destruct Hor as [?|Hna]; [done|]. pose proof Hv as [Hds _]%valid_comps_snoc.
      rewrite moved_lookup by done. rewrite !decide_False.
      * by eapply wf_parent.
      * intros ?. apply Hna. by apply prefix_app_r.
      * intros ?. apply Hp. by apply prefix_app_r.
  - apply Hwf.
  - intros p q l n Hp Hq Hn Hdir.
    destruct (Hclean _ _ Hp) as (ds&Hds&->), (Hclean _ _ Hq) as (es&Hes&->).
    apply moved_bound in Hp as (Hv1&Hp&Hor1); [|done].
    apply moved_bound in Hq as (Hv2&Hq&Hor2); [|done].
    assert (moved_from ds = moved_from es) as E.
    { apply render_inj; [done..|]. by eapply (wf_alias m Hwf). }
    unfold moved_from in E. repeat case_decide; f_equal.
    + destruct H as [k ->], H0 as [k' ->]. rewrite !drop_app_length in E.
      by apply app_inv_head in E as ->.
    + exfalso. destruct Hor2 as [?|Hn2]; [done|]. apply Hn2. rewrite <- E. by apply prefix_app_r.
    + exfalso. destruct Hor1 as [?|Hn1]; [done|]. apply Hn1. rewrite E. by apply prefix_app_r.
    + done.
  - apply Hwf.
Qed.
End move.

(** The entry maps may change freely before a rebuild, as long as they stay maps. *)
Lemma pre_wf_heap m h : pre_wf m →
  (∀ l n, h !! l = Some n → ∃ n0, heap m !! l = Some n0 ∧
    mode_IsDir (n_mode n) = mode_IsDir (n_mode n0) ∧ node_ok n) →
  (∀ l, is_Some (heap m !! l) → is_Some (h !! l)) →
  pre_wf (set_heap h m).
Proof.
  intros Hwf Hh Hs.
  assert (∀ cs, dir_at m cs → dir_at (set_heap h m) cs) as Hdir.
  { intros cs (l&n&Hl&Hn&Hd). destruct (Hs l) as [n' Hn']; [by rewrite Hn|].
    exists l, n'. split_and!; [done..|]. apply Hh in Hn' as (?&?&->&_). by simplify_eq. }
  split; simpl.
  - apply Hwf.
  - intros p l Hp. destruct (pre_key m Hwf p l Hp). eauto.
  - apply Hdir, Hwf.
  - intros cs c Hv Hb. apply Hdir. by eapply (pre_parent m Hwf).
  - intros l n Hn. by apply Hh in Hn as (?&?&?&?).
  - intros p q l n Hp Hq Hn Hd. apply Hh in Hn as (n0&Hn0&E&_). rewrite E in Hd.
    by eapply (pre_alias m Hwf).
  - intros l [n Hn]. apply Hh in Hn as (n0&Hn0&_). apply (pre_fresh m Hwf). by eexists.
Qed.

Lemma pre_wf_set_children m l n ch : pre_wf m → heap m !! l = Some n →
  is_Some (n_children n) →
  pre_wf (set_heap (<[l := set_children (Some ch) n]> (heap m)) m).
Proof.
  intros Hwf Hn Hch. apply pre_wf_heap; [done| |].
  - intros l' n'. rewrite lookup_insert. case_decide; intros ?; simplify_eq.
    + exists n. split_and!; [done..|]. destruct (pre_kind m Hwf _ _ Hn) as [H1 H2].
      split; simpl; [naive_solver|done].
    + exists n'. split_and!; [done..|]. by eapply (pre_kind m Hwf).
  - intros l'. rewrite lookup_insert. by case_decide.
Qed.
