(* ===== verification/MemoryFSOps.v ===== *)
(** Specifications of the filesystem operations: from a well-formed state every call ends in a
    well-formed state and never panics. *)
From S2P Require Import Prelude GoPath FsTypes MemoryFS MemoryFSWf MemoryFSInv MemoryFSTree.

(** ** A weakest precondition

    [wp c m Q]: run from [m], [c] either returns [a] in a state with [Q a], or fails with an
    ordinary error and leaves a well-formed state. *)
Definition wp {A} (c : M A) (m : MemoryFS) (Q : A → MemoryFS → Prop) : Prop :=
  match c m with
  | (Ok a, m') => Q a m'
  | (Err e, m') => e ≠ EPanic ∧ wf m'
  end.

Definition safe {A} (c : M A) : Prop := ∀ m, wf m → wp c m (fun _ => wf).

Section rules.
Context {A B : Type}.
Implicit Types (m : MemoryFS).

Lemma wp_mono (c : M A) m (P Q : A → MemoryFS → Prop) :
  wp c m P → (∀ a m', P a m' → Q a m') → wp c m Q.
Proof. unfold wp. destruct (c m) as [[a|e] m']; auto. Qed.

Lemma wp_bind (c : M A) (f : A → M B) m Q :
  wp c m (fun a m' => wp (f a) m' Q) → wp (c ≫= f) m Q.
Proof. unfold wp, mbind, M_bind. by destruct (c m) as [[a|e] m']. Qed.

Lemma wp_ret (a : A) m Q : Q a m → wp (mret a) m Q.
Proof. done. Qed.

Lemma wp_throw e m (Q : A → MemoryFS → Prop) : e ≠ EPanic → wf m → wp (throw e) m Q.
Proof. done. Qed.

Lemma wp_throw_path op p e m (Q : A → MemoryFS → Prop) : wf m → wp (throw_path op p e) m Q.
Proof. done. Qed.
End rules.

Lemma wp_get m Q : Q m m → wp get m Q.
Proof. done. Qed.

Lemma wp_modify f m Q : Q tt (f m) → wp (modify f) m Q.
Proof. done. Qed.

Lemma wp_load l n m Q : heap m !! l = Some n → Q n m → wp (load l) m Q.
Proof. unfold wp, load. by intros ->. Qed.

Lemma wp_newNodeID m Q :
  (∀ id nid, Q id (MkFS (cwd m) (nodes m) nid (implicitParents m) (heap m) (next_loc m))) →
  wp newNodeIDLocked m Q.
Proof. unfold wp, newNodeIDLocked. eauto. Qed.

Lemma wp_update l f n m Q : heap m !! l = Some n →
  Q tt (set_heap (<[l := f n]> (heap m)) m) → wp (update_node l f) m Q.
Proof. unfold wp, update_node. by intros ->. Qed.

Lemma wp_resolve_existing name ff m Q : wf m →
  (∀ abs l n, nodes m !! abs = Some l → heap m !! l = Some n → clean_abs abs →
    (ff = true → isSymlink n = false) → Q (Ok (abs, l)) m) →
  (∀ e, e ≠ EPanic → Q (Err e) m) →
  wp (resolve_existing name ff) m Q.
Proof.
  intros Hwf Hok Herr. unfold wp, resolve_existing, resolvePathLocked, resolveAbsLocked.
  pose proof (resolveAbs_hops_spec (S maxSymlinkDepth - 0) m (Resolve (cwd m) name) ff false Hwf) as Hr.
  destruct (resolveAbs_hops _ _ _ _ _) as [[p [l|]]|e]; simpl in Hr.
  - destruct Hr as [Hl Hs]. destruct (wf_key m Hwf _ _ Hl) as [? [n Hn]].
    apply (Hok p l n); auto.
  - by destruct Hr.
  - apply Herr. naive_solver.
Qed.

Lemma wp_resolve_existing' name ff m Q : wf m →
  (∀ cs l n, valid_comps cs → nodes m !! render cs = Some l → heap m !! l = Some n →
    resolvePathLocked m name ff false = Ok (render cs, Some l) → Q (Ok (render cs, l)) m) →
  (∀ e, e ≠ EPanic → resolvePathLocked m name ff false = Err e → Q (Err e) m) →
  wp (resolve_existing name ff) m Q.
Proof.
  intros Hwf Hok Herr. unfold wp, resolve_existing, resolvePathLocked, resolveAbsLocked in *.
  pose proof (resolveAbs_hops_spec (S maxSymlinkDepth - 0) m (Resolve (cwd m) name) ff false Hwf) as Hr.
  destruct (resolveAbs_hops _ _ _ _ _) as [[p [l|]]|e]; simpl in Hr.
  - destruct Hr as [Hl Hs]. destruct (wf_key m Hwf _ _ Hl) as [(cs&?&->) [n Hn]].
    by apply (Hok cs l n).
  - by destruct Hr.
  - apply Herr; naive_solver.
Qed.

(** ** Building blocks *)

(** Creating a node of any kind and attaching it to an existing directory. *)
Lemma wp_attach cs c l n m Q : wf m → valid_comps (cs ++ [c]) →
  nodes m !! render (cs ++ [c]) = None → dir_at m cs → heap m !! l = Some n →
  (mode_IsDir (n_mode n) = true → n_children n = Some ∅ ∧ ∀ p, nodes m !! p ≠ Some l) →
  (∀ m', wf m' → nodes m' = <[render (cs ++ [c]) := l]> (nodes m) →
    (∀ l' n', heap m !! l' = Some n' → ∃ ch, heap m' !! l' = Some (set_children ch n') ∧
       (n_children n' = None → ch = None)) →
    cwd m' = cwd m → implicitParents m' = implicitParents m →
    Q tt m') →
  wp (attach (render (cs ++ [c])) l) m Q.
Proof.
  intros Hwf Hv Hno (pl&pn&Hpl&Hpn&Hpd) Hl Hdir HQ.
  destruct (wf_kind m Hwf _ _ Hpn) as [[Hk _] _]. destruct Hk as [ch Hch]; [done|].
  unfold wp, attach, mbind, M_bind, bind_path, modify. simpl.
  rewrite parentDir_snoc, path_Base_snoc by done. unfold add_child. simpl.
  rewrite lookup_insert_ne; last first.
  { intros E. apply render_inj in E; [|done|by apply valid_comps_snoc in Hv as [??]].
    apply (f_equal length) in E. rewrite length_app in E. simpl in E. lia. }
  rewrite Hpl. unfold add_child_loc. simpl. rewrite Hpn, Hch.
  apply HQ; [by eapply wf_attach|done| |done|done].
  intros l' n' Hl'. simpl. rewrite lookup_insert. case_decide as E.
  - subst. simplify_eq. eexists. split; [done|]. intros E. by rewrite E in Hch.
  - exists (n_children n'). rewrite set_children_id. done.
Qed.

Lemma dir_lookup m p l n : wf m → nodes m !! p = Some l → heap m !! l = Some n →
  ∃ cs, valid_comps cs ∧ p = render cs.
Proof. intros Hwf Hl _. destruct (wf_key m Hwf _ _ Hl) as [(cs&?&->) _]. eauto. Qed.

(** How a state may grow while directories are made: everything bound stays bound, nodes keep
    everything but their entries. *)
Record grows (m m' : MemoryFS) : Prop := {
  grows_nodes : ∀ p l, nodes m !! p = Some l → nodes m' !! p = Some l;
  grows_heap : ∀ l n, heap m !! l = Some n →
    ∃ ch, heap m' !! l = Some (set_children ch n) ∧ (n_children n = None → ch = None);
  grows_cwd : cwd m' = cwd m;
  grows_implicit : implicitParents m' = implicitParents m;
}.

#[export] Instance grows_refl : Reflexive grows.
Proof.
  intros m. split; [done| |done|done]. intros l n Hn. exists (n_children n).
  by rewrite set_children_id.
Qed.

#[export] Instance grows_trans : Transitive grows.
Proof.
  intros m1 m2 m3 [H1 H2 H3 H4] [K1 K2 K3 K4]. split; [auto| |congruence|congruence].
  intros l n (ch&Hch&Hn)%H2. apply K2 in Hch as (ch'&Hch'&Hn'). exists ch'.
  split; [done|]. intros E. apply Hn'. simpl. auto.
Qed.

Lemma grows_dir m m' cs : grows m m' → dir_at m cs → dir_at m' cs.
Proof.
  intros [H1 H2 _ _] (l&n&Hl&Hn&Hd). apply H2 in Hn as (ch&Hn&_).
  exists l, (set_children ch n). auto.
Qed.

(** Binding a path adds that path and grows the rest. *)
Lemma attach_grows m m' cs c l :
  nodes m !! render (cs ++ [c]) = None →
  nodes m' = <[render (cs ++ [c]) := l]> (nodes m) →
  (∀ l' n', heap m !! l' = Some n' → ∃ ch, heap m' !! l' = Some (set_children ch n') ∧
     (n_children n' = None → ch = None)) →
  cwd m' = cwd m → implicitParents m' = implicitParents m → grows m m'.
Proof.
  intros Hno Hn Hh Hc Hi. split; [|done..]. intros p lp Hp. rewrite Hn, lookup_insert_ne; [done|].
  congruence.
Qed.

(** A fresh node attached to an existing directory. *)
Lemma wp_create cs c n m Q : wf m → valid_comps (cs ++ [c]) →
  nodes m !! render (cs ++ [c]) = None → dir_at m cs → node_ok n →
  (mode_IsDir (n_mode n) = true → n_children n = Some ∅) →
  (∀ l m', wf m' → grows m m' → nodes m' = <[render (cs ++ [c]) := l]> (nodes m) →
    heap m !! l = None → (∃ ch, heap m' !! l = Some (set_children ch n)) → Q tt m') →
  wp (l ← alloc n; attach (render (cs ++ [c])) l) m Q.
Proof.
  intros Hwf Hv Hno Hd Hok Hdir HQ. apply wp_bind. unfold wp at 1, alloc.
  set (m1 := MkFS _ _ _ _ _ _).
  assert (wf m1) as Hwf1 by (by apply wf_alloc).
  assert (heap m !! next_loc m = None) as Hfr.
  { destruct (heap m !! next_loc m) eqn:E; [|done].
    assert (next_loc m < next_loc m)%positive; [apply Hwf; by rewrite E|lia]. }
  assert (∀ l x, heap m !! l = Some x → heap m1 !! l = Some x) as Hup.
  { intros l x Hl. simpl. rewrite lookup_insert_ne; [done|]. congruence. }
  apply (wp_attach cs c _ n); [done..| |simpl; apply lookup_insert_eq| |].
  - destruct Hd as (pl&pn&?&?&?). exists pl, pn. auto.
  - intros Hnd. split; [by apply Hdir|]. intros p Hp. simpl in Hp.
    destruct (wf_key m Hwf _ _ Hp) as [_ [x Hx]]. congruence.
  - intros m' Hwf' Hns Hh Hcw Him. apply (HQ (next_loc m) m'); [done| |done|done|].
    + eapply (attach_grows m m'); [done..| |done|done]. intros l' n' Hl'. apply Hh. by apply Hup.
    + destruct (Hh (next_loc m) n) as (ch&?&_); [simpl; apply lookup_insert_eq|]. by exists ch.
Qed.

Lemma mode_IsDir_or perm : mode_IsDir (N.lor ModeDir perm) = true.
Proof.
  unfold mode_IsDir, has_bits. apply negb_true_iff, N.eqb_neq. intros E.
  apply (f_equal (fun x => N.testbit x 31)) in E.
  rewrite N.land_spec, N.lor_spec in E. simpl in E. done.
Qed.

(** Bits of a mode: a test of one type bit looks at that bit only. *)
Lemma has_bits_testbit mode k : has_bits mode (2 ^ k) = N.testbit mode k.
Proof.
  unfold has_bits. destruct (N.testbit mode k) eqn:E.
  - apply negb_true_iff, N.eqb_neq. intros H.
    apply (f_equal (fun x => N.testbit x k)) in H.
    by rewrite N.land_spec, N.pow2_bits_true, E in H.
  - apply negb_false_iff, N.eqb_eq. apply N.bits_inj. intros j.
    rewrite N.land_spec, N.pow2_bits_eqb, N.bits_0.
    destruct (N.eqb_spec k j) as [->|]; [by rewrite E|by rewrite andb_false_r].
Qed.

Lemma IsDir_testbit mode : mode_IsDir mode = N.testbit mode 31.
Proof. apply (has_bits_testbit mode 31). Qed.

Lemma isSymlink_testbit n : isSymlink n = N.testbit (n_mode n) 27.
Proof. apply (has_bits_testbit _ 27). Qed.

Lemma storedPermBits_31 : N.testbit storedPermBits 31 = false.
Proof. done. Qed.

Lemma storedPermBits_27 : N.testbit storedPermBits 27 = false.
Proof. done. Qed.

Lemma dirNode_ok id perm now : node_ok (dirNode id (N.lor ModeDir (N.land perm storedPermBits)) now).
Proof.
  split; simpl; [rewrite mode_IsDir_or; split; [by eexists|done]|].
  intros _. rewrite isSymlink_testbit. simpl.
  rewrite N.lor_spec, N.land_spec, storedPermBits_27, andb_false_r. done.
Qed.

(** *** [mkdirAllLocked] *)

Lemma wp_new_dir now cs c perm m Q : wf m → valid_comps (cs ++ [c]) →
  nodes m !! render (cs ++ [c]) = None → dir_at m cs →
  (∀ m', wf m' → grows m m' → dir_at m' (cs ++ [c]) →
    (∀ p, p ≠ render (cs ++ [c]) → nodes m' !! p = nodes m !! p) → Q tt m') →
  wp (id ← newNodeIDLocked;
      l ← alloc (dirNode id (N.lor ModeDir (N.land perm storedPermBits)) now);
      bind_path (render (cs ++ [c])) l;; add_child (render cs) c) m Q.
Proof.
  intros Hwf Hv Hno Hd HQ. apply wp_bind, wp_newNodeID. intros id nid.
  set (m1 := MkFS _ _ _ _ _ _).
  assert (wf m1) as Hwf1 by (apply wf_other; [done|reflexivity]).
  assert (∀ l, (bind_path (render (cs ++ [c])) l;; add_child (render cs) c) =
               attach (render (cs ++ [c])) l) as Hat.
  { intros l. unfold attach. by rewrite parentDir_snoc, path_Base_snoc. }
  assert (wp (l ← alloc (dirNode id (N.lor ModeDir (N.land perm storedPermBits)) now);
      attach (render (cs ++ [c])) l) m1 Q) as H.
  { apply (wp_create cs c); [done..|by apply dirNode_ok|done|].
    intros l m' Hwf' Hg Hns _ [ch Hl]. apply HQ; [done| | |].
    - destruct Hg. by split.
    - exists l. eexists. rewrite Hns, lookup_insert_eq. split_and!; [done..|].
      simpl. apply mode_IsDir_or.
    - intros p Hp. by rewrite Hns, lookup_insert_ne. }
  unfold wp in *. unfold mbind, M_bind in *. unfold alloc in *. by rewrite <- Hat in H.
Qed.

Lemma perm_default_stored perm d : N.land d storedPermBits = d →
  N.land (if (N.land perm storedPermBits =? 0)%N then d else N.land perm storedPermBits)
    storedPermBits =
  (if (N.land perm storedPermBits =? 0)%N then d else N.land perm storedPermBits).
Proof.
  intros Hd. case_match; [done|]. by rewrite <- N.land_assoc, N.land_diag.
Qed.

(** The loop from a directory [cs] along the components [rs]: if no symlink is in the way it ends
    with a directory at [cs ++ rs]; it binds nothing but prefixes of that path. *)
Lemma wp_mkdir_loop n now cs rs perm m : wf m → valid_comps cs → valid_comps rs →
  dir_at m cs → (length rs ≤ n)%nat →
  wp (mkdir_loop n now (render cs) (join [slash] rs) perm) m (fun _ m' =>
    wf m' ∧ grows m m' ∧
    (nolink m (cs ++ rs) → dir_at m' (cs ++ rs) ∧
       ∀ p, (∀ pre, pre `prefix_of` (cs ++ rs) → p ≠ render pre) → nodes m' !! p = nodes m !! p)).
Proof.
  revert cs rs perm m. induction n as [|n IH]; intros cs rs perm m Hwf Hcs Hrs Hd Hn.
  { destruct rs; [|simpl in Hn; lia]. simpl. apply wp_ret. rewrite app_nil_r. done. }
  destruct rs as [|c rs].
  { simpl. apply wp_ret. rewrite app_nil_r. done. }
  apply Forall_cons_1 in Hrs as [Hc Hrs].
  assert (valid_comps (cs ++ [c])) as Hv by (by apply valid_comps_snoc).
  assert (cs ++ c :: rs = (cs ++ [c]) ++ rs) as Happ by (by rewrite <- (assoc_L (++))).
  cbn [mkdir_loop]. destruct (join [slash] (c :: rs)) as [|x xs] eqn:E.
  { by apply join_cons_ne in E. }
  rewrite <- E, next_part_join, joinClean_render by done.
  apply wp_bind, wp_get. destruct (nodes m !! render (cs ++ [c])) as [l|] eqn:El.
  - destruct (wf_key m Hwf _ _ El) as [_ [nd En]].
    apply wp_bind. eapply wp_load; [done|]. destruct (isSymlink nd) eqn:Es.
    + pose proof (resolveAbs_hops_spec (S maxSymlinkDepth - 0) m (render (cs ++ [c])) true false Hwf) as Hr.
      unfold resolveAbsLocked. destruct (resolveAbs_hops _ _ _ _ _) as [[p [l'|]]|e]; simpl in Hr.
      * destruct Hr as [Hl' _]. destruct (wf_key m Hwf _ _ Hl') as [(ds&Hds&->) [nd' En']].
        apply wp_bind. eapply wp_load; [done|].
        destruct (mode_IsDir (n_mode nd')) eqn:Ed; simpl; [|by apply wp_throw_path].
        eapply wp_mono; [apply IH; [done..| |simpl in Hn; lia]; by exists l', nd'|].
        intros [] m' (?&?&_). split_and!; [done..|]. intros Hno. exfalso.
        enough (isSymlink nd = false) by congruence.
        apply (Hno (cs ++ [c]) l nd); [|done|done]. rewrite Happ. by apply prefix_app_r.
      * by apply wp_throw_path.
      * by apply wp_throw_path.
    + destruct (mode_IsDir (n_mode nd)) eqn:Ed; simpl; [|by apply wp_throw_path].
      rewrite Happ. eapply wp_mono; [apply IH; [done..| |simpl in Hn; lia]; by exists l, nd|].
      done.
  - set (perm1 := if (N.land perm storedPermBits =? 0)%N then 493%N else N.land perm storedPermBits).
    assert (N.land perm1 storedPermBits = perm1) as Hp1 by (by apply perm_default_stored).
    pose proof (wp_new_dir now cs c perm1 m (fun _ m' => wp (mkdir_loop n now (render (cs ++ [c]))
      (join [slash] rs) perm1) m' (fun _ m'' => wf m'' ∧ grows m m'' ∧
      (nolink m (cs ++ c :: rs) → dir_at m'' (cs ++ c :: rs) ∧
       ∀ p, (∀ pre, pre `prefix_of` (cs ++ c :: rs) → p ≠ render pre) → nodes m'' !! p = nodes m !! p)))
      Hwf Hv El Hd) as H.
    rewrite Hp1 in H.
    assert (∀ A (c1 : M N) (c2 : N → M loc) (c3 : loc → M unit) (c4 : M unit) (k : M A) m0 Q,
      wp (id ← c1; l ← c2 id; c3 l;; c4) m0 (fun _ m1 => wp k m1 Q) →
      wp (id ← c1; l ← c2 id; c3 l;; c4;; k) m0 Q) as Hassoc.
    { clear. intros A c1 c2 c3 c4 k m0 Q. unfold wp, mbind, M_bind.
      destruct (c1 m0) as [[id|] m1]; [|done]. destruct (c2 id m1) as [[l|] m2]; [|done].
      destruct (c3 l m2) as [[[]|] m3]; [|done]. by destruct (c4 m3) as [[[]|] m4]. }
    apply Hassoc, H. clear H Hassoc.
    intros m' Hwf' Hg Hd' Hfr. eapply wp_mono; [apply IH; [done..|simpl in Hn; lia]|].
    intros [] m'' (Hwf''&Hg'&Hk). split_and!; [done|by etrans|].
    intros Hno. rewrite Happ in *. destruct Hk as [Hd'' Hfr'].
    { intros pre l0 n0 Hpre Hl0 Hn0. destruct (decide (pre `prefix_of` (cs ++ [c]))) as [Hp|Hp].
      - eapply (nolink_dir m' (cs ++ [c])); done.
      - assert (render pre ≠ render (cs ++ [c])) as Hne.
        { intros E'. apply Hp. apply render_inj in E' as ->; [done| |done].
          destruct Hpre as [k Hk']. assert (valid_comps ((cs ++ [c]) ++ rs)) as Hall
            by (by apply Forall_app). rewrite Hk' in Hall. by apply Forall_app in Hall as [? _]. }
        rewrite Hfr in Hl0 by done.
        destruct (wf_key m Hwf _ _ Hl0) as [_ [n1 Hn1]].
        destruct (grows_heap _ _ Hg _ _ Hn1) as (ch&Hch&_). rewrite Hn0 in Hch. simplify_eq.
        exact (Hno pre l0 n1 Hpre Hl0 Hn1). }
    split; [done|]. intros p Hp. rewrite Hfr', Hfr; [done| |done].
    apply Hp. by apply prefix_app_r.
Qed.

Lemma wp_mkdirAllLocked now cs perm m : wf m → valid_comps cs →
  wp (mkdirAllLocked now (render cs) perm) m (fun _ m' =>
    wf m' ∧ grows m m' ∧ (nolink m cs → dir_at m' cs ∧
      ∀ p, (∀ pre, pre `prefix_of` cs → p ≠ render pre) → nodes m' !! p = nodes m !! p)).
Proof.
  intros Hwf Hcs. unfold mkdirAllLocked. rewrite Clean_render by done. cbv zeta.
  pose proof (wf_root m Hwf) as Hroot.
  case_decide as E.
  - apply render_root_inv in E as ->; [|done]. apply wp_ret. done.
  - rewrite drop1_render. change root_path with (render []).
    apply (wp_mkdir_loop _ now [] cs); [done|constructor|done|done|by apply length_render].
Qed.

(** *** [ensureParentLocked] *)

Lemma wp_ensureParent now op cs c m Q : wf m → valid_comps (cs ++ [c]) →
  nodes m !! render (cs ++ [c]) = None → nolink m cs →
  (∀ m', wf m' → grows m m' → dir_at m' cs → nodes m' !! render (cs ++ [c]) = None →
    (∀ p, (∀ pre, pre `prefix_of` cs → p ≠ render pre) → nodes m' !! p = nodes m !! p) → Q tt m') →
  wp (ensureParentLocked now op (render (cs ++ [c]))) m Q.
Proof.
  intros Hwf Hv Hno Hnl HQ. pose proof Hv as [Hcs Hc]%valid_comps_snoc.
  unfold ensureParentLocked. rewrite parentDir_snoc by done. cbv zeta.
  apply wp_bind, wp_get. destruct (implicitParents m).
  - eapply wp_mono; [by apply wp_mkdirAllLocked|]. intros [] m' (Hwf'&Hg&Hk).
    destruct Hk as [Hd Hfr]; [done|]. apply HQ; [done..| |done].
    rewrite Hfr; [done|]. intros pre Hpre E. apply render_inj in E; [|done|].
    + subst. destruct Hpre as [k Hk]. apply (f_equal length) in Hk.
      rewrite !length_app in Hk. simpl in Hk. lia.
    + destruct Hpre as [k ->]. by apply Forall_app in Hcs as [? _].
  - destruct (nodes m !! render cs) as [l|] eqn:El; [|by apply wp_throw_path].
    destruct (wf_key m Hwf _ _ El) as [_ [n Hn]].
    apply wp_bind. eapply wp_load; [done|].
    destruct (mode_IsDir (n_mode n)) eqn:Ed; simpl; [|by apply wp_throw_path].
    apply wp_ret. apply HQ; [done|reflexivity|by exists l, n|done..].
Qed.

(** ** Creating operations *)

Lemma Resolve_base ps rs b : valid_comps ps → valid_comps (rs ++ [b]) →
  Resolve (render ps) (path_Base (render (rs ++ [b]))) = render (ps ++ [b]).
Proof.
  intros Hps Hv. rewrite path_Base_snoc by done. apply valid_comps_snoc in Hv as [_ Hb].
  apply (Resolve_join ps [b]); [done|by apply Forall_singleton].
Qed.

Lemma nolink_parent m cs c : nolink m (cs ++ [c]) → nolink m cs.
Proof. intros H pre l n Hp. apply H. by apply prefix_app_r. Qed.

Lemma nolink_snoc m cs c : wf m → nolink m cs → nodes m !! render (cs ++ [c]) = None →
  nolink m (cs ++ [c]).
Proof.
  intros Hwf Hnl Hno pre l n [->|Hp]%prefix_snoc_inv Hl Hn; [congruence|by eapply Hnl].
Qed.

Lemma root_bound m : wf m → is_Some (nodes m !! render []).
Proof. intros Hwf. destruct (wf_root m Hwf) as (l&?&?&_). by eexists. Qed.

(** A clean path that is not bound has a last component. *)
Lemma unbound_snoc m cs : wf m → nodes m !! render cs = None → ∃ ds c, cs = ds ++ [c].
Proof.
  intros Hwf Hno. destruct cs as [|c ds _] using rev_ind; [|by eauto].
  destruct (root_bound m Hwf) as [l Hl]. congruence.
Qed.

(** Making the parent, a node and its entry: the tail of every creating operation. *)
Lemma wp_make now op cs c (mk : N → memoryNode) m Q : wf m → valid_comps (cs ++ [c]) →
  nodes m !! render (cs ++ [c]) = None → nolink m cs →
  (∀ id, node_ok (mk id)) → (∀ id, mode_IsDir (n_mode (mk id)) = false) →
  (∀ id l m', wf m' → grows m m' → nodes m' !! render (cs ++ [c]) = Some l →
    (∃ ch, heap m' !! l = Some (set_children ch (mk id))) → Q tt m') →
  wp (ensureParentLocked now op (render (cs ++ [c]));;
      id ← newNodeIDLocked; l ← alloc (mk id); attach (render (cs ++ [c])) l) m Q.
Proof.
  intros Hwf Hv Hno Hnl Hok Hnd HQ.
  apply wp_bind. eapply wp_ensureParent; [done..|]. intros m1 Hwf1 Hg Hd Hno1 _.
  apply wp_bind, wp_newNodeID. intros id nid. set (m2 := MkFS _ _ _ _ _ _).
  assert (wf m2) as Hwf2 by (apply wf_other; [done|reflexivity]).
  apply (wp_create cs c); [done..| |].
  - by rewrite Hnd.
  - intros l m' Hwf' Hg' Hns _ Hl. apply (HQ id l m'); [done| | |done].
    + etrans; [exact Hg|]. by destruct Hg'; split.
    + by rewrite Hns, lookup_insert_eq.
Qed.

Section specs.
Variable provider : nat → result error gostr.
Hypothesis provider_total : ∀ p, provider p ≠ Err EPanic.
Variable now : time.

(** The target of [Symlink] and [Link]: a clean path whose existing ancestors are no symlinks. *)
Definition create_target (op : string) (name : gostr) (m : MemoryFS) : M gostr :=
  let requested := Resolve (cwd m) name in
  match resolvePathLocked m name false true with
  | Ok (abs, Some _) => throw_path op abs (ESent ErrExist)
  | Ok (abs, None) => mret abs
  | Err err =>
      if errors_Is err ErrNotExist then
        match resolveCreatePathLocked m (parentDir requested) 0 with
        | Err parentErr => throw_path op requested parentErr
        | Ok parentAbs => mret (Resolve parentAbs (path_Base requested))
        end
      else throw_path op requested err
  end.

Lemma cwd_resolve m name : wf m → ∃ rs, valid_comps rs ∧ Resolve (cwd m) name = render rs.
Proof.
  intros Hwf. pose proof (wf_cwd m Hwf) as Hc.
  pose proof (Resolve_clean_abs (cwd m) name Hc) as (rs&?&?). eauto.
Qed.

Lemma wp_create_target op name m : wf m →
  wp (create_target op name m) m (fun abs m' => m' = m ∧
    ((∃ cs c, valid_comps (cs ++ [c]) ∧ abs = render (cs ++ [c]) ∧ nolink m cs) ∨
     is_Some (nodes m !! abs))).
Proof.
  intros Hwf. unfold create_target, resolvePathLocked, resolveAbsLocked, resolveCreatePathLocked.
  pose proof (resolveAbs_hops_spec (S maxSymlinkDepth - 0) m (Resolve (cwd m) name) false true Hwf) as Hr.
  destruct (resolveAbs_hops _ _ _ _ _) as [[p [l|]]|e]; simpl in Hr.
  - by apply wp_throw_path.
  - destruct Hr as (_&Hno&cs&c&Hv&->&Hd). apply wp_ret. split; [done|]. left. exists cs, c.
    split_and!; [done..|]. apply nolink_dir; [done| |done]. by apply valid_comps_snoc in Hv as [? _].
  - case_match; [|by apply wp_throw_path].
    destruct (cwd_resolve m name Hwf) as (rs&Hrs&->).
    pose proof (resolveCreate_hops_spec (S maxSymlinkDepth - 0) m (parentDir (render rs)) Hwf) as Hp.
    destruct (resolveCreate_hops _ _ _) as [pa|e']; simpl in Hp; [|by apply wp_throw_path].
    destruct Hp as (ps&Hps&->&Hnl). apply wp_ret. split; [done|].
    destruct rs as [|b rs _] using rev_ind.
    + right. rewrite Resolve_abs by done. by apply root_bound.
    + left. rewrite Resolve_base by done. apply valid_comps_snoc in Hrs as [_ Hb].
      exists ps, b. split_and!; [by apply valid_comps_snoc|done|done].
Qed.

Lemma bind_assoc_M {A B C} (c : M A) (f : A → M B) (g : B → M C) m :
  ((c ≫= f) ≫= g) m = (c ≫= (fun a => f a ≫= g)) m.
Proof. unfold mbind, M_bind. by destruct (c m) as [[a|e] m']. Qed.

Lemma Symlink_safe target linkName : safe (Symlink now target linkName).
Proof.
  intros m Hwf. unfold Symlink. apply wp_bind, wp_get.
  change (wp (abs ← create_target "symlink" linkName m;
    if decide (is_Some (nodes m !! abs)) then throw_path "symlink" abs (ESent ErrExist)
    else ensureParentLocked now "symlink" abs;;
      id ← newNodeIDLocked;
      l ← alloc (MkNode id (N.lor ModeSymlink 511) [] None None 0 false target None now now
                   DefaultOwnerUID DefaultOwnerGID);
      attach abs l) m (fun _ => wf)).
  apply wp_bind. eapply wp_mono; [by apply wp_create_target|].
  intros abs m' [-> Habs]. case_decide as Hb; [by apply wp_throw_path|].
  destruct Habs as [(cs&c&Hv&->&Hnl)|?]; [|done]. apply eq_None_not_Some in Hb.
  apply (wp_make now "symlink" cs c (fun id => MkNode id (N.lor ModeSymlink 511) [] None None 0
    false target None now now DefaultOwnerUID DefaultOwnerGID)); [done..| | |].
  - intros id. by apply node_ok_file.
  - done.
  - done.
Qed.

Lemma Link_safe oldName newName : safe (Link now oldName newName).
Proof.
  intros m Hwf. unfold Link. apply wp_bind, wp_get.
  apply wp_bind, wp_resolve_existing; [done| |by intros; apply wp_throw_path].
  intros oldAbs l n Hl Hn _ _. apply wp_bind. eapply wp_load; [done|].
  destruct (mode_IsDir (n_mode n)) eqn:Ed; [by apply wp_throw_path|].
  cbv zeta. apply wp_bind.
  assert (wp (newAbs ← create_target "link" newName m;
    if decide (is_Some (nodes m !! newAbs)) then throw_path "link" newAbs (ESent ErrExist)
    else mret newAbs) m (fun abs m' => m' = m ∧ nodes m !! abs = None ∧
      ∃ cs c, valid_comps (cs ++ [c]) ∧ abs = render (cs ++ [c]) ∧ nolink m cs)) as Ht.
  { apply wp_bind. eapply wp_mono; [by apply wp_create_target|].
    intros abs m' [-> Habs]. case_decide as Hb; [by apply wp_throw_path|].
    apply wp_ret. destruct Habs as [?|?]; [|done]. by rewrite <- eq_None_not_Some in Hb. }
  eapply (wp_mono _ _ (fun abs m' => m' = m ∧ nodes m !! abs = None ∧
      ∃ cs c, valid_comps (cs ++ [c]) ∧ abs = render (cs ++ [c]) ∧ nolink m cs)).
  { unfold wp, create_target, mbind, M_bind in *.
    destruct (resolvePathLocked m newName false true) as [[p [lp|]]|e] eqn:E; simpl in *; [done| |].
    - case_decide as Hb; [|done]. exfalso. revert Hb.
      unfold resolvePathLocked, resolveAbsLocked in E.
      pose proof (resolveAbs_hops_spec (S maxSymlinkDepth - 0) m (Resolve (cwd m) newName) false true Hwf) as Hr.
      rewrite E in Hr. destruct Hr as (_&->&_). by intros [].
    - destruct (errors_Is e ErrNotExist); [|done].
      by destruct (resolveCreatePathLocked m _ 0); simpl in *; [case_decide|]. }
  intros newAbs m' (->&Hno&cs&c&Hv&->&Hnl).
  apply wp_bind. eapply wp_ensureParent; [done..|]. intros m1 Hwf1 Hg Hd Hno1 _.
  destruct (grows_heap _ _ Hg _ _ Hn) as (ch1&Hn1&Hch1).
  apply wp_bind. eapply wp_attach; [done..| |].
  { intros E. simpl in E. congruence. }
  intros m2 Hwf2 _ Hh2 _ _. destruct (Hh2 _ _ Hn1) as (ch2&Hn2&Hch2).
  eapply wp_update; [done|].
  eapply wf_update; [done..| |done].
  destruct (wf_kind m2 Hwf2 _ _ Hn2) as [H1 H2]. by split.
Qed.

(** *** Opening *)

Lemma has_bits_lor_dir mode : has_bits (N.land mode storedPermBits) ModeDir = false.
Proof.
  change (mode_IsDir (N.land mode storedPermBits) = false).
  by rewrite IsDir_testbit, N.land_spec, storedPermBits_31, andb_false_r.
Qed.

(** What an open handle refers to exists. *)
Definition handle_ok (m : MemoryFS) (f : openFile) : Prop :=
  match f with
  | MemFile f => is_Some (heap m !! f_node f)
  | FifoFile _ _ _ => True
  end.

(** What [open_node] returns for the node [l] at [abs]: a handle on that node, at an offset
    inside the file, or an end of its FIFO. *)
Definition opened (m : MemoryFS) (abs : gostr) (l : loc) (flag : N) (f : openFile) : Prop :=
  match f with
  | MemFile f => f_path f = abs ∧ f_node f = l ∧ f_flag f = flag ∧ f_closed f = false ∧
      ∃ n, heap m !! l = Some n ∧ mode_IsDir (n_mode n) = false ∧
        f_offset f = (if has_bits flag O_APPEND then glen (n_data n) else 0) ∧
        (has_bits flag O_TRUNC = true → canWrite flag = true → n_data n = [])
  | FifoFile path fifo flag' => path = abs ∧ flag' = flag ∧
      ∃ n, heap m !! l = Some n ∧ n_fifo n = Some fifo
  end.

Definition open_path (f : openFile) : gostr :=
  match f with MemFile f => f_path f | FifoFile path _ _ => path end.

Lemma opened_path m abs l flag f : opened m abs l flag f → open_path f = abs.
Proof. destruct f; simpl; naive_solver. Qed.

Lemma opened_handle_ok m abs l flag f : opened m abs l flag f → handle_ok m f.
Proof. destruct f; simpl; [|done]. intros (?&->&?&?&n&?&_). by eexists. Qed.

Lemma wp_open_node abs l n created flag m : wf m → heap m !! l = Some n →
  wp (open_node now abs l created flag) m (fun f m' =>
    wf m' ∧ opened m' abs l flag f ∧ same_view m m' ∧
    negb created && has_bits flag O_CREATE && has_bits flag O_EXCL = false).
Proof.
  intros Hwf Hn. unfold open_node. destruct (negb created && _ && _) eqn:Eex;
    [by apply wp_throw_path|].
  apply wp_bind. eapply wp_load; [done|].
  destruct (mode_IsDir (n_mode n)) eqn:Ed; [by apply wp_throw_path|].
  destruct (has_bits (n_mode n) ModeNamedPipe).
  - destruct (n_fifo n) as [f|] eqn:Ef.
    { apply wp_ret. split_and!; [done|simpl; eauto|done|done]. }
    apply wp_bind. unfold wp at 1, newMemoryFIFO. set (m1 := MkFS _ _ _ _ _ _).
    assert (wf m1) as Hwf1 by (apply wf_other; [done|lia]).
    apply wp_bind. eapply wp_update; [exact Hn|]. apply wp_ret.
    split_and!; [| | |done].
    + eapply wf_update; [done|exact Hn| |done]. destruct (wf_kind m Hwf _ _ Hn). by split.
    + simpl. split_and!; [done..|]. eexists. by rewrite lookup_insert_eq.
    + by destruct (same_view_update m l n (set_fifo (Some (next_loc m)) n) Hn); split.
  - apply wp_bind. destruct (has_bits flag O_TRUNC && canWrite flag) eqn:Et.
    + eapply wp_update; [done|]. set (m1 := set_heap _ _).
      assert (wf m1) as Hwf1.
      { eapply wf_update; [done|done| |done]. destruct (wf_kind m Hwf _ _ Hn). by split. }
      apply wp_bind. eapply wp_load; [simpl; apply lookup_insert_eq|].
      apply wp_ret. split_and!; [done| |by eapply (same_view_update m l n)|done].
      simpl. split_and!; [done..|]. eexists. by rewrite lookup_insert_eq.
    + apply wp_ret. apply wp_bind. eapply wp_load; [done|]. apply wp_ret.
      split_and!; [done| |done|done]. simpl. split_and!; [done..|]. exists n.
      split_and!; [done..|]. intros E1 E2. by rewrite E1, E2 in Et.
Qed.

Lemma perm_file_ok id perm (d : N) : d = 420%N →
  node_ok (MkNode id (if (N.land perm storedPermBits =? 0)%N then d else N.land perm storedPermBits)
    [] None None 0 false [] None now now DefaultOwnerUID DefaultOwnerGID).
Proof.
  intros ->. apply node_ok_file; [|done]. simpl. case_match; [done|apply has_bits_lor_dir].
Qed.

Lemma wp_open_create cs c flag perm m : wf m → valid_comps (cs ++ [c]) →
  nodes m !! render (cs ++ [c]) = None → nolink m cs →
  wp (open_create now (render (cs ++ [c])) flag perm) m (fun f m' =>
    wf m' ∧ ∃ l, heap m !! l = None ∧ nodes m' !! render (cs ++ [c]) = Some l ∧
      opened m' (render (cs ++ [c])) l flag f).
Proof.
  intros Hwf Hv Hno Hnl. unfold open_create. cbv zeta.
  apply wp_bind. eapply wp_ensureParent; [done..|]. intros m1 Hwf1 Hg Hd Hno1 _.
  apply wp_bind, wp_newNodeID. intros id nid. set (m2 := MkFS _ _ _ _ _ _).
  assert (wf m2) as Hwf2 by (apply wf_other; [done|reflexivity]).
  set (n := MkNode id _ _ _ _ _ _ _ _ _ _ _ _).
  assert (node_ok n) as Hok by (by apply perm_file_ok).
  assert (mode_IsDir (n_mode n) = false) as Hnd.
  { unfold n. simpl. case_match; [done|apply has_bits_lor_dir]. }
  apply wp_bind. unfold wp at 1, alloc. set (m3 := MkFS _ _ _ _ _ _).
  assert (wf m3) as Hwf3 by (by apply wf_alloc).
  assert (dir_at m3 cs) as Hd3.
  { destruct Hd as (pl&pn&?&Hpn&?). exists pl, pn. split_and!; [done| |done]. simpl.
    rewrite lookup_insert_ne; [done|]. intros E.
    assert (next_loc m2 < next_loc m2)%positive; [|lia].
    apply (wf_fresh m2 Hwf2). simpl in *. rewrite E, Hpn. by eexists. }
  apply wp_bind. eapply wp_attach; [done..|simpl; apply lookup_insert_eq| |].
  { by rewrite Hnd. }
  intros m4 Hwf4 Hns Hh _ _. destruct (Hh (next_loc m2) n) as (ch&Hl&_);
    [simpl; apply lookup_insert_eq|].
  eapply wp_mono; [by eapply wp_open_node|]. intros f m' (Hwf'&Ho&Hsv&_).
  split; [done|]. exists (next_loc m2). split_and!; [| |done].
  - destruct (heap m !! next_loc m2) as [x|] eqn:Ex; [|done].
    destruct (grows_heap _ _ Hg _ _ Ex) as (?&Hx&_).
    assert (next_loc m2 < next_loc m2)%positive; [|lia].
    apply (wf_fresh m2 Hwf2). simpl in *. rewrite Hx. by eexists.
  - rewrite (sv_nodes _ _ Hsv), Hns. apply lookup_insert_eq.
Qed.

Lemma wp_materializeNode l n m : wf m → heap m !! l = Some n →
  wp (materializeNode provider l) m (fun _ m' => wf m' ∧ same_view m m' ∧
    ∃ n', heap m' !! l = Some n' ∧ n_mode n' = n_mode n ∧ isLazyFileNode n' = false).
Proof using provider_total.
  intros Hwf Hn. unfold materializeNode. apply wp_bind. eapply wp_load; [done|].
  destruct (isLazyFileNode n) eqn:El; cbn [negb]; [|by apply wp_ret; split_and!; [|done|by exists n]].
  destruct (n_lazy n) as [p|] eqn:Ep; last first.
  { unfold isLazyFileNode in El. by rewrite Ep in El. }
  destruct (provider p) as [data|e] eqn:E.
  - eapply wp_update; [done|]. split_and!; [|by eapply same_view_update|].
    + eapply wf_update; [done|done| |done]. destruct (wf_kind m Hwf _ _ Hn). by split.
    + simpl. rewrite lookup_insert_eq. eexists. split_and!; [done..|]. done.
  - apply wp_throw; [|done]. intros ->. by eapply provider_total.
Qed.

Lemma wp_materializePath name ff mo m : wf m →
  wp (materializePath provider name ff mo) m (fun abs m' =>
    wf m' ∧ same_view m m' ∧ ∃ cs l, valid_comps cs ∧ abs = render cs ∧ nodes m !! abs = Some l ∧
      resolvePathLocked m name ff false = Ok (abs, Some l)).
Proof using provider_total.
  intros Hwf. unfold materializePath. apply wp_bind, wp_resolve_existing'; [done| |].
  - intros cs l n Hcs Hl Hn Hr. apply wp_bind. unfold wp at 1, lift.
    apply wp_bind. eapply wp_load; [done|].
    case_match; [apply wp_ret; naive_solver|].
    apply wp_bind. eapply wp_mono; [by eapply wp_materializeNode|].
    intros [] m' (?&?&_). apply wp_ret. naive_solver.
  - intros e He _. apply wp_bind. by apply (wp_throw (A := gostr * loc) e).
Qed.

(** Errors inspected by the caller. *)
Lemma wp_attempt {A} (c : M A) m (P : A → MemoryFS → Prop) (Q : result error A → MemoryFS → Prop) :
  wp c m P → (∀ a m', P a m' → Q (Ok a) m') → (∀ e m', e ≠ EPanic → wf m' → Q (Err e) m') →
  wp (attempt c) m Q.
Proof. unfold wp, attempt. destruct (c m) as [[a|e] m']; naive_solver. Qed.

(** Where [OpenFile] opens: the resolution of the name, for creation or of an existing path. *)
Definition open_target (m : MemoryFS) (name : gostr) (flag : N) (abs : gostr) : Prop :=
  if has_bits flag O_CREATE then resolveCreatePathLocked m (Resolve (cwd m) name) 0 = Ok abs
  else ∃ l, resolvePathLocked m name true false = Ok (abs, Some l).

Definition open_result (m : MemoryFS) (name : gostr) (flag : N) (f : openFile) (m' : MemoryFS) : Prop :=
  ∃ abs l, open_target m name flag abs ∧ nodes m' !! abs = Some l ∧ opened m' abs l flag f ∧
    (nodes m !! abs = None → heap m !! l = None) ∧
    (has_bits flag O_CREATE && has_bits flag O_EXCL = true → nodes m !! abs = None).

Lemma open_target_view m m' name flag abs : same_view m m' →
  open_target m' name flag abs → open_target m name flag abs.
Proof.
  intros Hsv. unfold open_target, resolvePathLocked, resolveAbsLocked, resolveCreatePathLocked.
  rewrite (sv_cwd _ _ Hsv), (resolveCreate_view m m' _ _ Hsv).
  case_match; [done|]. intros [l Hl]. exists l. by rewrite <- (resolveAbs_view m m').
Qed.

(** A load that fails changes nothing. *)
Lemma materializePath_err name ff mo m e m' :
  materializePath provider name ff mo m = (Err e, m') → m' = m.
Proof.
  unfold materializePath, materializeNode, resolve_existing, lift, load, update_node, throw, mbind, M_bind, mret, M_ret.
  repeat (case_match; simplify_eq/=); intros; by simplify_eq/=.
Qed.

(** The first part of [OpenFile]: loading the file if it is lazy. *)
Lemma wp_open_materialize name flag m : wf m →
  wp (r ← attempt (materializePath provider name true false);
      match r with
      | Ok _ => mret tt
      | Err EPanic => throw EPanic
      | Err err =>
          if negb (has_bits flag O_CREATE) || negb (errors_Is err ErrNotExist) then
            m ← get;
            throw_path "open" (Resolve (cwd m) name)
              (if has_bits flag O_CREATE then createParentError err else err)
          else mret tt
      end) m (fun _ m' => wf m' ∧ same_view m m').
Proof using provider_total.
  intros Hwf. apply wp_bind. unfold wp, attempt.
  pose proof (wp_materializePath name true false m Hwf) as H. unfold wp in H.
  pose proof (materializePath_err name true false m) as He.
  destruct (materializePath _ _ _ _ m) as [[a|e] m']; [naive_solver|].
  destruct H as [Hne Hwf']. specialize (He e m' eq_refl) as ->.
  destruct e; try done; (destruct (_ || _); [by split|by split]).
Qed.

Lemma OpenFile_spec name flag perm m : wf m →
  wp (OpenFile provider now name flag perm) m (fun f m' => wf m' ∧ open_result m name flag f m').
Proof using provider_total.
  intros Hwf. unfold OpenFile. apply wp_bind.
  apply (wp_mono _ _ (fun _ m' => wf m' ∧ same_view m m')).
  { destruct (_ && negb _); [by apply wp_open_materialize|by apply wp_ret]. }
  intros [] m1 [Hwf1 Hsv]. apply wp_bind, wp_get. cbv zeta.
  enough (∀ f m', (∃ abs l, open_target m1 name flag abs ∧ nodes m' !! abs = Some l ∧
    opened m' abs l flag f ∧ (nodes m1 !! abs = None → heap m1 !! l = None) ∧
    (has_bits flag O_CREATE && has_bits flag O_EXCL = true → nodes m1 !! abs = None)) →
    open_result m name flag f m') as Hres.
  2: { intros f m' (abs&l&Ht&Hl&Ho&Hf&Hx). exists abs, l.
    rewrite (sv_nodes _ _ Hsv) in *. split_and!; [by eapply open_target_view|done..| |done].
    intros Hno. pose proof (sv_lookup _ _ l Hsv) as Hs. rewrite (Hf Hno) in Hs.
    by destruct (heap m !! l). }
  unfold open_target in Hres. destruct (has_bits flag O_CREATE) eqn:Ecr.
  - apply wp_bind. apply (wp_mono _ _ (fun _ m' => m' = m1)).
    { case_match; [|by apply wp_ret]. repeat case_match; by first [apply wp_ret|apply wp_throw_path]. }
    intros [] m' ->. unfold resolveCreatePathLocked in *.
    pose proof (resolveCreate_hops_spec (S maxSymlinkDepth - 0) m1 (Resolve (cwd m1) name) Hwf1) as Hr.
    destruct (resolveCreate_hops _ _ _) as [abs|e]; simpl in Hr; [|by apply wp_throw_path].
    destruct Hr as (cs&Hcs&->&Hnl). destruct (nodes m1 !! render cs) as [l|] eqn:El.
    + destruct (wf_key m1 Hwf1 _ _ El) as [_ [n Hn]].
      eapply wp_mono; [by eapply wp_open_node|]. intros f m' (?&?&Hsv'&Hex).
      split; [done|]. apply Hres. exists (render cs), l.
      rewrite (sv_nodes _ _ Hsv'). split_and!; [done..|congruence|].
      rewrite Ecr in Hex. simpl in *. congruence.
    + destruct (unbound_snoc m1 cs Hwf1 El) as (ds&c&->).
      eapply wp_mono; [apply wp_open_create; [done..|by eapply nolink_parent]|].
      intros f m' (?&l&?&?&?). split; [done|]. apply Hres. exists (render (ds ++ [c])), l.
      split_and!; done.
  - apply wp_bind, wp_resolve_existing'; [done| |by intros; apply wp_throw_path].
    intros cs l n Hcs Hl Hn Hr. eapply wp_mono; [by eapply wp_open_node|].
    intros f m' (?&?&Hsv'&_). split; [done|]. apply Hres. exists (render cs), l.
    rewrite (sv_nodes _ _ Hsv'). split_and!; [by exists l|done..|congruence|done].
Qed.
End specs.
