(* ===== verification/MemoryFSMove.v ===== *)
(** The operations that change the shape of the tree: [Remove], [Rename], [Mkfifo], [MkdirAll]. *)
From S2P Require Import Prelude GoPath FsTypes MemoryFS MemoryFSWf MemoryFSInv MemoryFSTree MemoryFSOps.

(** ** A resolution that finds nothing *)

(** Where [resolveAbsLocked] reports a missing parent, [resolveCreatePathLocked] answers with a
    path that is not bound. *)
Lemma create_walk_missing m follow root followc abs ff n cs rs q : wf m →
  (∀ t, clean_abs t → follow t = Err (ESent ErrNotExist) → ∀ q, followc t = Ok q → nodes m !! q = None) →
  valid_comps cs → valid_comps rs → rs ≠ [] → (length rs ≤ n)%nat → dir_at m cs →
  abs_walk m follow root ff true n (render cs) (join [slash] rs) = Err (ESent ErrNotExist) →
  create_walk m followc abs n (render cs) (join [slash] rs) = Ok q → nodes m !! q = None.
Proof.
  intros Hwf Hf. revert cs rs. induction n as [|n IH]; intros cs rs Hcs Hrs Hne Hn Hd;
    (destruct rs as [|c rs]; [done|]); [simpl in Hn; lia|].
  rewrite abs_walk_cons, create_walk_cons by done. pose proof Hrs as [Hc Hrs']%Forall_cons_1.
  assert (valid_comps (cs ++ [c])) as Hv by (by apply valid_comps_snoc).
  assert (valid_comps (cs ++ c :: rs)) as Hv' by (by apply Forall_app).
  destruct (nodes m !! render (cs ++ [c])) as [l|] eqn:El.
  - destruct (wf_key m Hwf _ _ El) as [_ [nd En]]. rewrite En.
    destruct (isSymlink nd) eqn:Es; simpl.
    + destruct (bool_decide (rs = []) && negb ff) eqn:Elast.
      { rewrite bool_decide_eq_true_2 by (destruct ff, (bool_decide_reflect (rs = [])); done).
        destruct ff; [by rewrite andb_false_r in Elast|done]. }
      replace (negb (bool_decide (rs = [])) || ff) with true
        by (by destruct ff, (bool_decide (rs = []))).
      intros H Hq. eapply Hf; [|exact H|exact Hq]. by apply link_target_clean.
    + case_bool_decide; [done|]. destruct (mode_IsDir (n_mode nd)) eqn:Ed; simpl; [|done].
      apply IH; [done..|simpl in Hn; lia|]. by exists l, nd.
  - intros _ Hq. simplify_eq. by apply unbound_below.
Qed.

Lemma resolveCreate_missing h m p ff q : wf m →
  resolveAbs_hops h m p ff true = Err (ESent ErrNotExist) →
  resolveCreate_hops h m p = Ok q → nodes m !! q = None.
Proof.
  intros Hwf. revert p ff q. induction h as [|h IH]; intros p ff q; [done|].
  rewrite resolveAbs_hops_S, resolveCreate_hops_S. cbv zeta.
  destruct (wf_root m Hwf) as (l&n&Hl&Hn&Hd). change root_path with (render []). rewrite Hl.
  pose proof (comps_valid p) as Hv. destruct (comps p) as [|c cs] eqn:E; [done|].
  apply create_walk_missing; [done| |constructor|done|done| |by exists l, n].
  - intros t _ Ht q' Hq'. by eapply IH.
  - by apply length_render.
Qed.

(** ** [Remove] *)

(** Only the entries of nodes may differ between two stores. *)
Definition same_files (h h' : gmap loc memoryNode) : Prop :=
  ∀ l n, h !! l = Some n → ∃ ch, h' !! l = Some (set_children ch n).

Lemma same_files_refl h : same_files h h.
Proof. intros l n Hl. exists (n_children n). by rewrite set_children_id. Qed.

Lemma same_files_trans h1 h2 h3 : same_files h1 h2 → same_files h2 h3 → same_files h1 h3.
Proof.
  intros H1 H2 l n (ch&Hch)%H1. apply H2 in Hch as (ch'&Hch'). by exists ch'.
Qed.

Lemma same_files_insert h l n ch : h !! l = Some n →
  same_files h (<[l := set_children ch n]> h).
Proof.
  intros Hl l' n' Hl'. rewrite lookup_insert. case_decide; [|by apply same_files_refl].
  subst. simplify_eq. by exists ch.
Qed.

Lemma grows_same_files m m' : grows m m' → same_files (heap m) (heap m').
Proof. intros Hg l n (ch&?&_)%(grows_heap _ _ Hg). by exists ch. Qed.

(** A successful [Remove]: the path resolved without following a final symlink, everything at or
    below it is unbound, everything else is as it was. *)
Definition removed (m m' : MemoryFS) (cs : list gostr) : Prop :=
  (∀ ds, valid_comps ds → nodes m' !! render ds =
     if decide (cs `prefix_of` ds) then None else nodes m !! render ds) ∧
  same_files (heap m) (heap m').

Lemma snoc_of_ne {A} (l : list A) : l ≠ [] → ∃ k x, l = k ++ [x].
Proof. destruct l as [|x k _] using rev_ind; [done|eauto]. Qed.

Lemma wp_Remove name recursive m : wf m →
  wp (Remove name recursive) m (fun _ m' => wf m' ∧ ∃ cs l n,
    valid_comps cs ∧ cs ≠ [] ∧
    resolvePathLocked m name false false = Ok (render cs, Some l) ∧ heap m !! l = Some n ∧
    (recursive = false → mode_IsDir (n_mode n) = true → n_children n = Some ∅) ∧
    removed m m' cs).
Proof.
  intros Hwf. unfold Remove. apply wp_bind, wp_get.
  apply wp_bind, wp_resolve_existing'; [done| |by intros; apply wp_throw_path].
  intros cs l n Hcs Hl Hn Hr. case_decide as Hroot; [by apply wp_throw_path|].
  assert (cs ≠ []) as Hne by (by intros ->).
  destruct (snoc_of_ne cs Hne) as (ds&c&->).
  apply wp_bind. eapply wp_load; [done|].
  destruct (mode_IsDir (n_mode n) && _ && _) eqn:Eg; [by apply wp_throw_path|].
  apply wp_bind, wp_modify.
  destruct (wf_parent m ds c Hwf Hcs) as (pl&pn&Hpl&Hpn&Hpd); [by eexists|].
  rewrite parentDir_snoc, path_Base_snoc by done.
  pose proof Hcs as [Hds Hc]%valid_comps_snoc.
  assert (¬ (ds ++ [c]) `prefix_of` ds) as Hnp.
  { intros [k Hk]. apply (f_equal length) in Hk. rewrite !length_app in Hk. simpl in Hk. lia. }
  unfold wp, del_child. cbn [nodes set_nodes heap].
  rewrite filter_subtree_lookup, decide_False, Hpl, Hpn by done.
  split; [by apply wf_remove|]. exists (ds ++ [c]), l, n. split_and!; [done..| |].
  - intros -> Hd. rewrite Hd in Eg. simpl in Eg. rewrite andb_true_r in Eg.
    destruct (wf_kind m Hwf _ _ Hn) as [[Hk _] _]. destruct Hk as [ch Hch]; [done|].
    rewrite Hch in *. simpl in Eg. case_bool_decide as E; [done|].
    by rewrite E.
  - split; [|by apply same_files_insert]. intros es Hes. simpl.
    by rewrite filter_subtree_lookup.
Qed.

(** ** [Rename] *)

(** A successful [Rename]: below the new path is what was below the old one, the old path and
    everything below it is unbound, and every other path that was bound still leads to the same
    node ([ensureParentLocked] may have added directories above the new path). *)
Record renamed (m m' : MemoryFS) (as_ bs : list gostr) : Prop := {
  renamed_new : ∀ k, valid_comps k → nodes m' !! render (bs ++ k) = nodes m !! render (as_ ++ k);
  renamed_old : ∀ k, valid_comps k → nodes m' !! render (as_ ++ k) = None;
  renamed_rest : ∀ ds l, valid_comps ds → ¬ as_ `prefix_of` ds →
    nodes m !! render ds = Some l → nodes m' !! render ds = Some l;
  renamed_files : same_files (heap m) (heap m');
}.

Lemma isDescendantPath_render bs as_ : valid_comps bs → valid_comps as_ → as_ ≠ [] → as_ ≠ bs →
  isDescendantPath (render bs) (render as_) = false → ¬ as_ `prefix_of` bs.
Proof.
  intros Hbs Has Hne Hab. unfold isDescendantPath. rewrite !Clean_render by done. cbv zeta.
  rewrite bool_decide_eq_true_2 by (intros E%render_inj; congruence). cbn [andb].
  intros H Hp. assert (in_subtree (render as_) (render bs)) as [E|E]
    by (by apply in_subtree_render).
  - apply render_inj in E; congruence.
  - by change (go "/") with [slash] in E; rewrite H in E.
Qed.

Lemma same_files_rebuild m : same_files (heap m) (heap (rebuildDirectoryChildrenLocked m).2).
Proof.
  intros l n Hl. rewrite rebuild_lookup, Hl. simpl. repeat case_match; [by eexists..|].
  exists (n_children n). by rewrite set_children_id.
Qed.

(** The part of [Rename] after both paths are resolved and the parent is there. *)
Definition rename_tail (oldAbs newAbs : gostr) : M unit :=
  del_child (parentDir oldAbs) (path_Base oldAbs);;
  modify (fun m => set_nodes (move_nodes oldAbs newAbs (nodes m)) m);;
  add_child (parentDir newAbs) (path_Base newAbs);;
  rebuildDirectoryChildrenLocked.

Lemma dir_children m cs l n : wf m → nodes m !! render cs = Some l → heap m !! l = Some n →
  dir_at m cs → is_Some (n_children n).
Proof. intros Hwf Hl Hn (?&?&?&?&?). simplify_eq. by apply (wf_kind m Hwf l n Hn). Qed.

Lemma wp_rename_tail m ds d es e : wf m → valid_comps (ds ++ [d]) → valid_comps (es ++ [e]) →
  is_Some (nodes m !! render (ds ++ [d])) → nodes m !! render (es ++ [e]) = None →
  dir_at m es → ¬ (ds ++ [d]) `prefix_of` (es ++ [e]) →
  wp (rename_tail (render (ds ++ [d])) (render (es ++ [e]))) m (fun _ m' => wf m' ∧
    nodes m' = move_nodes (render (ds ++ [d])) (render (es ++ [e])) (nodes m) ∧
    same_files (heap m) (heap m')).
Proof.
  intros Hwf Hd He Hold Hnew Hdir Hnp.
  assert (ds ++ [d] ≠ []) as Hdne by (by destruct ds).
  assert (es ++ [e] ≠ []) as Hene by (by destruct es).
  pose proof (pre_wf_moved m _ _ Hwf Hd He Hdne Hene Hnew Hnp es e eq_refl Hdir) as Hpre.
  pose proof (moved_dir m _ _ Hwf Hd He Hdne Hene Hnew Hnp es e eq_refl Hdir) as Hmd.
  destruct (wf_parent m ds d Hwf Hd Hold) as (pl&pn&Hpl&Hpn&Hpd).
  destruct Hdir as (ql&qn&Hql&Hqn&Hqd).
  assert (∀ l n, heap m !! l = Some n → mode_IsDir (n_mode n) = true → is_Some (n_children n)) as Hch
    by (intros l n Hl; apply (wf_kind m Hwf l n Hl)).
  destruct (Hch _ _ Hpn Hpd) as [pch Hpch].
  unfold wp, rename_tail, mbind, M_bind, del_child, modify.
  rewrite !parentDir_snoc, !path_Base_snoc by done.
  rewrite Hpl, Hpn, Hpch. cbn [fmap option_fmap option_map].
  set (h1 := <[pl := _]> (heap m)).
  assert (same_files (heap m) h1) as Hs1 by (by apply same_files_insert).
  destruct (Hs1 _ _ Hqn) as [qch0 Hq1].
  assert (is_Some (n_children (set_children qch0 qn))) as [qch Hqch].
  { destruct (decide (pl = ql)) as [<-|Hne].
    - unfold h1 in Hq1. rewrite lookup_insert_eq in Hq1.
      apply (f_equal (option_map n_children)) in Hq1. simplify_eq/=. by eexists.
    - unfold h1 in Hq1. rewrite lookup_insert_ne, Hqn in Hq1 by done.
      apply (f_equal (option_map n_children)) in Hq1. simplify_eq/=. by eapply Hch. }
  unfold add_child. cbn [nodes set_nodes set_heap]. rewrite Hmd, Hql. unfold add_child_loc.
  cbn [nodes set_nodes set_heap heap]. rewrite Hq1, Hqch.
  set (m2 := set_heap _ _).
  assert (pre_wf m2) as Hpre2.
  { apply (pre_wf_set_children (set_heap h1 (set_nodes _ m)) ql (set_children qch0 qn));
      [|done|by eexists].
    by apply (pre_wf_set_children (set_nodes _ m) pl pn). }
  split_and!; [by apply (wf_rebuild m2)|done|].
  eapply same_files_trans; [exact Hs1|]. eapply same_files_trans; [|apply (same_files_rebuild m2)].
  by apply same_files_insert.
Qed.

(** The destination of [Rename]: an unbound path, possibly below missing directories. *)
Definition rename_target (newName : gostr) : M (gostr * option loc) := fun m =>
  match resolvePathLocked m newName false true with
  | Ok (newAbs, node) => (Ok (newAbs, node), m)
  | Err err =>
      match (if implicitParents m && errors_Is err ErrNotExist
             then resolveCreatePathLocked m (Resolve (cwd m) newName) 0
             else Err err) with
      | Ok newAbs => (Ok (newAbs, None), m)
      | Err err => throw_path "rename" (Resolve (cwd m) newName) (createParentError err) m
      end
  end.

Lemma wp_rename_target newName m : wf m →
  wp (rename_target newName) m (fun r m' => m' = m ∧ (r.2 = None →
    ∃ es e, valid_comps (es ++ [e]) ∧ r.1 = render (es ++ [e]) ∧
      nodes m !! render (es ++ [e]) = None ∧ nolink m es)).
Proof.
  intros Hwf. unfold wp, rename_target, resolvePathLocked, resolveAbsLocked, resolveCreatePathLocked.
  pose proof (resolveAbs_hops_spec (S maxSymlinkDepth - 0) m (Resolve (cwd m) newName) false true Hwf) as Hr.
  pose proof (resolveCreate_missing (S maxSymlinkDepth - 0) m (Resolve (cwd m) newName) false) as Hm.
  pose proof (resolveCreate_hops_spec (S maxSymlinkDepth - 0) m (Resolve (cwd m) newName) Hwf) as Hc.
  destruct (resolveAbs_hops _ _ _ _ _) as [[p [l|]]|e]; simpl in Hr; [done| |].
  - destruct Hr as (_&Hno&cs&c&Hv&->&Hd). split; [done|]. intros _. exists cs, c.
    split_and!; [done..|]. apply nolink_dir; [done| |done]. by apply valid_comps_snoc in Hv as [? _].
  - destruct (implicitParents m); cbn [andb]; [|done].
    destruct (errors_Is e ErrNotExist) eqn:Ee; [|done].
    destruct (resolveCreate_hops _ _ _) as [q|e']; [|done].
    assert (e = ESent ErrNotExist) as -> by (destruct Hr as [?|[->| ->]]; done).
    destruct Hc as (cs&Hcs&->&Hnl). split; [done|]. intros _.
    specialize (Hm _ Hwf eq_refl eq_refl). destruct (unbound_snoc m cs Hwf Hm) as (es&x&->).
    exists es, x. split_and!; [done..|]. by eapply nolink_parent.
Qed.

Lemma wp_Rename now oldName newName m : wf m →
  wp (Rename now oldName newName) m (fun _ m' => wf m' ∧ ∃ as_ bs l,
    valid_comps as_ ∧ valid_comps bs ∧ as_ ≠ [] ∧ ¬ as_ `prefix_of` bs ∧
    resolvePathLocked m oldName false false = Ok (render as_, Some l) ∧
    nodes m !! render bs = None ∧ renamed m m' as_ bs).
Proof.
  intros Hwf. unfold Rename. apply wp_bind, wp_get.
  apply wp_bind, wp_resolve_existing'; [done| |by intros; apply wp_throw_path].
  intros as_ l n Has Hl Hn Hr. case_decide as Hroot; [by apply wp_throw_path|].
  assert (as_ ≠ []) as Hne by (by intros ->).
  apply wp_bind. eapply (wp_mono _ _ (fun r m' => m' = m ∧ (r.2 = None →
    ∃ es e, valid_comps (es ++ [e]) ∧ r.1 = render (es ++ [e]) ∧
      nodes m !! render (es ++ [e]) = None ∧ nolink m es))).
  { pose proof (wp_rename_target newName m Hwf) as H. unfold wp, rename_target in *.
    destruct (resolvePathLocked m newName false true) as [[? ?]|?]; [done|].
    by destruct (if implicitParents m && _ then _ else _). }
  intros [newAbs node] m' [-> Ht]. simpl in Ht.
  destruct node as [nl|]; [rewrite decide_True by done; by apply wp_throw_path|].
  destruct Ht as (es&e&He&->&Hno&Hnl); [done|]. rewrite decide_False by (by intros []).
  destruct (isDescendantPath _ _) eqn:Edesc; [by apply wp_throw_path|].
  assert (as_ ≠ es ++ [e]) as Hab by (intros ->; congruence).
  assert (¬ as_ `prefix_of` (es ++ [e])) as Hnp by (by eapply isDescendantPath_render).
  apply wp_bind. eapply wp_ensureParent; [done..|]. intros m1 Hwf1 Hg Hd Hno1 Hfr.
  destruct (snoc_of_ne as_ Hne) as (ds&d&->).
  eapply wp_mono; [apply (wp_rename_tail m1); [done..| |done|done|done]|].
  { exists l. by apply (grows_nodes _ _ Hg). }
  intros [] m2 (Hwf2&Hns&Hsf). split; [done|].
  exists (ds ++ [d]), (es ++ [e]), l. split_and!; [done..|].
  assert (es ++ [e] ≠ []) as Hene by (by destruct es).
  pose proof (moved_lookup m1 _ _ Hwf1 Has He Hne Hene Hno1 Hnp) as Hml.
  assert (∀ pre, pre `prefix_of` es → ¬ (ds ++ [d]) `prefix_of` pre) as Hpre.
  { intros pre Hpre Hp. apply Hnp. etrans; [exact Hp|]. by apply prefix_app_r. }
  assert (∀ k, valid_comps k → nodes m1 !! render ((ds ++ [d]) ++ k) = nodes m !! render ((ds ++ [d]) ++ k))
    as Heq.
  { intros k Hk. apply Hfr. intros pre Hp E. apply render_inj in E;
      [|by apply Forall_app|destruct Hp as [r ->]; apply Forall_app in He as [He _];
        by apply Forall_app in He as [? _]].
    subst pre. apply (Hpre _ Hp). by apply prefix_app_r. }
  split.
  - intros k Hk. rewrite Hns, Hml by (by apply Forall_app).
    rewrite decide_True by (by apply prefix_app_r). by rewrite drop_app_length, Heq.
  - intros k Hk. rewrite Hns, Hml by (by apply Forall_app).
    rewrite (decide_False (P := (es ++ [e]) `prefix_of` _)).
    { by rewrite decide_True by (by apply prefix_app_r). }
    intros Hp. destruct (prefix_weak_total (ds ++ [d]) (es ++ [e]) ((ds ++ [d]) ++ k))
      as [?|[r Hr']]; [by apply prefix_app_r|done|done|].
    rewrite <- (app_nil_r (ds ++ [d])) in Hl. rewrite <- Heq in Hl by constructor.
    rewrite app_nil_r, Hr' in Hl. rewrite Hr' in Has. apply Forall_app in Has as [_ Hrv].
    by rewrite (moved_free m1 (ds ++ [d]) _ Hwf1 He Hene Hno1 Hnp r Hrv) in Hl.
  - intros fs lf Hfs Hnpf Hlf. rewrite Hns, Hml by done.
    apply (grows_nodes _ _ Hg) in Hlf. rewrite (decide_False (P := (ds ++ [d]) `prefix_of` fs)) by done.
    case_decide as Hp; [|done]. destruct Hp as [k ->]. exfalso.
    apply Forall_app in Hfs as [_ Hk].
    by rewrite (moved_free m1 (ds ++ [d]) _ Hwf1 He Hene Hno1 Hnp k Hk) in Hlf.
  - eapply same_files_trans; [by apply grows_same_files|done].
Qed.
