(* ===== verification/MemoryFSSafe.v ===== *)
(** Every operation of the in-memory filesystem keeps its invariant and never dereferences nil:
    the remaining operations, the handles, and the system of all of them as a transition
    relation. *)
From S2P Require Import Prelude GoPath FsTypes MemoryFS MemoryFSWf MemoryFSInv MemoryFSTree.
From S2P Require Import MemoryFSOps MemoryFSMove.

(** ** Nodes are never freed

    A handle keeps its node; the store only grows. *)
Definition keeps (h h' : gmap loc memoryNode) : Prop := ∀ l, is_Some (h !! l) → is_Some (h' !! l).

#[export] Instance keeps_preorder : PreOrder keeps.
Proof. split; [by intros h l|]. intros h1 h2 h3 H1 H2 l H. auto. Qed.

Lemma keeps_insert h l n : keeps h (<[l := n]> h).
Proof. intros l' H. rewrite lookup_insert. case_decide; [by eexists|done]. Qed.

Create HintDb keeping.

(** A computation that keeps every node, whatever it returns. *)
Definition keeping {A} (c : M A) : Prop := ∀ m, keeps (heap m) (heap (c m).2).

Lemma keeping_bind {A B} (c : M A) (f : A → M B) :
  keeping c → (∀ a, keeping (f a)) → keeping (c ≫= f).
Proof.
  intros Hc Hf m. unfold mbind, M_bind. specialize (Hc m). destruct (c m) as [[a|e] m']; [|done].
  etrans; [exact Hc|]. apply Hf.
Qed.

Lemma keeping_pure {A} (c : M A) : (∀ m, (c m).2 = m) → keeping c.
Proof. intros H m. by rewrite H. Qed.

Lemma keeping_modify f : (∀ m, heap (f m) = heap m) → keeping (modify f).
Proof. intros H m. simpl. by rewrite H. Qed.

Lemma keeping_newNodeID : keeping newNodeIDLocked.
Proof. by intros m. Qed.

Lemma keeping_newFIFO : keeping newMemoryFIFO.
Proof. by intros m. Qed.

Lemma keeping_alloc n : keeping (alloc n).
Proof. intros m. apply keeps_insert. Qed.

Lemma keeping_update l f : keeping (update_node l f).
Proof. intros m. unfold update_node. destruct (heap m !! l); [apply keeps_insert|done]. Qed.

Lemma keeping_add_child_loc l c : keeping (add_child_loc l c).
Proof.
  intros m. unfold add_child_loc. destruct (heap m !! l) as [n|]; [|done].
  destruct (n_children n); [apply keeps_insert|done].
Qed.

Lemma keeping_add_child d c : keeping (add_child d c).
Proof. intros m. unfold add_child. destruct (nodes m !! d); [apply keeping_add_child_loc|done]. Qed.

Lemma keeping_del_child d c : keeping (del_child d c).
Proof.
  intros m. unfold del_child. destruct (nodes m !! d) as [l|]; [|done].
  destruct (heap m !! l); [apply keeps_insert|done].
Qed.

Lemma keeping_load l : keeping (load l).
Proof. intros m. unfold load. by destruct (heap m !! l). Qed.

Lemma keeping_resolve n ff : keeping (resolve_existing n ff).
Proof.
  intros m. unfold resolve_existing. by destruct (resolvePathLocked m n ff false) as [[? [?|]]|?].
Qed.

Lemma keeping_attempt {A} (c : M A) : keeping c → keeping (attempt c).
Proof. intros H m. unfold attempt. specialize (H m). by destruct (c m). Qed.

Lemma keeping_rebuild : keeping rebuildDirectoryChildrenLocked.
Proof.
  intros m l [n Hn]. rewrite rebuild_lookup, Hn. simpl. by eexists.
Qed.

#[export] Hint Resolve keeping_newNodeID keeping_newFIFO keeping_alloc keeping_update
  keeping_add_child_loc keeping_add_child keeping_del_child keeping_load keeping_resolve
  keeping_attempt keeping_rebuild : keeping.

(** Reads the structure of an operation. *)
Ltac keeping_step := first
  [ apply keeping_bind; [|intros]
  | apply keeping_pure; done
  | apply keeping_modify; done
  | apply keeping_attempt
  | solve [eauto with keeping]
  | case_match ].
Ltac keeping := repeat keeping_step.

Lemma keeping_mkdir_loop n now cur rem perm : keeping (mkdir_loop n now cur rem perm).
Proof.
  revert cur rem perm. induction n as [|n IH]; intros cur rem perm; simpl; keeping; apply IH.
Qed.
#[export] Hint Resolve keeping_mkdir_loop : keeping.

Section ops.
Variable provider : nat → result error gostr.
Variable now : time.

Lemma keeping_mkdirAll p perm : keeping (mkdirAllLocked now p perm).
Proof. unfold mkdirAllLocked. keeping. Qed.

Lemma keeping_ensureParent op p : keeping (ensureParentLocked now op p).
Proof. pose proof keeping_mkdirAll. unfold ensureParentLocked. keeping. Qed.

Lemma keeping_attach p l : keeping (attach p l).
Proof. unfold attach, bind_path. keeping. Qed.

Lemma keeping_materializeNode l : keeping (materializeNode provider l).
Proof. unfold materializeNode. keeping. Qed.

Lemma keeping_materializePath p ff mo : keeping (materializePath provider p ff mo).
Proof. pose proof keeping_materializeNode. unfold materializePath. keeping. Qed.

Lemma keeping_open_node p l created flag : keeping (open_node now p l created flag).
Proof. unfold open_node. keeping. Qed.

#[local] Hint Resolve keeping_mkdirAll keeping_ensureParent keeping_attach keeping_materializeNode
  keeping_materializePath keeping_open_node : keeping.

Lemma keeping_open_create p flag perm : keeping (open_create now p flag perm).
Proof. unfold open_create. keeping. Qed.
#[local] Hint Resolve keeping_open_create : keeping.

Lemma keeping_OpenFile name flag perm : keeping (OpenFile provider now name flag perm).
Proof. unfold OpenFile. keeping. Qed.

Lemma keeping_file_Read f k : keeping (file_Read provider f k).
Proof. unfold file_Read. keeping. Qed.

Lemma keeping_file_Write f p : keeping (file_Write provider now f p).
Proof. unfold file_Write. keeping. Qed.

Lemma keeping_file_Stat f : keeping (file_Stat provider f).
Proof. unfold file_Stat. keeping. Qed.

Lemma keeping_stat op name ff : keeping (stat_path provider op name ff).
Proof. unfold stat_path. keeping. Qed.

Lemma keeping_ReadDir name : keeping (ReadDir name).
Proof. unfold ReadDir. keeping. Qed.

Lemma keeping_Readlink name : keeping (Readlink name).
Proof. unfold Readlink. keeping. Qed.

Lemma keeping_Realpath name : keeping (Realpath name).
Proof. unfold Realpath. keeping. Qed.

Lemma keeping_update_meta op name ff rb f : keeping (update_meta op name ff rb f).
Proof. unfold update_meta, bind_path. keeping. Qed.

Lemma keeping_Symlink t n : keeping (Symlink now t n).
Proof. unfold Symlink. keeping. Qed.

Lemma keeping_Link a b : keeping (Link now a b).
Proof. unfold Link. keeping. Qed.

Lemma keeping_Mkfifo a p : keeping (Mkfifo now a p).
Proof. unfold Mkfifo, bind_path. keeping. Qed.

Lemma keeping_Remove a r : keeping (Remove a r).
Proof. unfold Remove. keeping. Qed.

Lemma keeping_Rename a b : keeping (Rename now a b).
Proof. unfold Rename. keeping. Qed.

Lemma keeping_Chdir a : keeping (Chdir a).
Proof. unfold Chdir. keeping. Qed.

Lemma keeping_MkdirAll a p : keeping (MkdirAll now a p).
Proof. unfold MkdirAll. keeping. Qed.
End ops.

(** ** The remaining specifications *)

Section specs.
Variable provider : nat → result error gostr.
Hypothesis provider_total : ∀ p, provider p ≠ Err EPanic.
Variable now : time.

Lemma node_ok_kind n n' : node_ok n → mode_IsDir (n_mode n') = mode_IsDir (n_mode n) →
  isSymlink n' = isSymlink n → n_children n' = n_children n → node_ok n'.
Proof. intros [H1 H2] Hd Hs Hc. split; rewrite ?Hd, ?Hs, ?Hc; done. Qed.

Lemma wp_update_meta op name ff rb f m : wf m →
  (∀ n, mode_IsDir (n_mode (f n)) = mode_IsDir (n_mode n)) →
  (∀ n, isSymlink (f n) = isSymlink n) → (∀ n, n_children (f n) = n_children n) →
  wp (update_meta op name ff rb f) m (fun _ m' => wf m' ∧ nodes m' = nodes m ∧
    ∃ cs l n, resolvePathLocked m name ff false = Ok (render cs, Some l) ∧
      heap m !! l = Some n ∧ heap m' = <[l := f n]> (heap m)).
Proof.
  intros Hwf Hd Hs Hc. unfold update_meta. apply wp_bind, wp_get.
  apply wp_bind, wp_resolve_existing'; [done| |by intros; apply wp_throw_path].
  intros cs l n Hcs Hl Hn Hr. apply wp_bind. eapply wp_update; [done|].
  set (m1 := set_heap _ _).
  assert (wf m1) as Hwf1.
  { eapply wf_update; [done|done| |done].
    eapply node_ok_kind; [by eapply (wf_kind m Hwf)|done..]. }
  destruct rb; [|apply wp_ret; naive_solver].
  apply wp_modify. replace (set_nodes _ m1) with m1; [naive_solver|].
  unfold m1, set_nodes, set_heap. simpl. by rewrite (insert_id (nodes m)).
Qed.

Lemma chmod_bit mode new k : N.testbit storedPermBits k = false →
  N.testbit (N.lor (N.ldiff mode storedPermBits) (N.land new storedPermBits)) k = N.testbit mode k.
Proof.
  intros H. by rewrite N.lor_spec, N.ldiff_spec, N.land_spec, H, andb_false_r, orb_false_r, andb_true_r.
Qed.

Lemma Chmod_safe name mode : safe (Chmod now name mode).
Proof.
  intros m Hwf. eapply wp_mono; [apply wp_update_meta; [done|..]|naive_solver].
  - intros n. rewrite !IsDir_testbit. by apply chmod_bit.
  - intros n. rewrite !isSymlink_testbit. by apply chmod_bit.
  - done.
Qed.

Lemma Chown_safe name uid gid ff : safe (Chown name uid gid ff).
Proof. intros m Hwf. eapply wp_mono; [by apply wp_update_meta|naive_solver]. Qed.

Lemma Chtimes_safe name a t : safe (Chtimes now name a t).
Proof. intros m Hwf. eapply wp_mono; [by apply wp_update_meta|naive_solver]. Qed.

Lemma Lchtimes_safe name a t : safe (Lchtimes now name a t).
Proof. intros m Hwf. eapply wp_mono; [by apply wp_update_meta|naive_solver]. Qed.

Lemma MkdirAll_safe name perm : safe (MkdirAll now name perm).
Proof.
  intros m Hwf. unfold MkdirAll. apply wp_bind, wp_get.
  destruct (cwd_resolve m name Hwf) as (rs&Hrs&->).
  eapply wp_mono; [by apply wp_mkdirAllLocked|naive_solver].
Qed.

Lemma Remove_safe name r : safe (Remove name r).
Proof. intros m Hwf. eapply wp_mono; [by apply wp_Remove|naive_solver]. Qed.

Lemma Rename_safe a b : safe (Rename now a b).
Proof. intros m Hwf. eapply wp_mono; [by apply wp_Rename|naive_solver]. Qed.

Lemma Chdir_safe name : safe (Chdir name).
Proof.
  intros m Hwf. unfold Chdir. apply wp_bind, wp_get.
  apply wp_bind, wp_resolve_existing'; [done| |by intros; apply wp_throw_path].
  intros cs l n Hcs Hl Hn Hr. apply wp_bind. eapply wp_load; [done|].
  case_match; [by apply wp_throw_path|]. apply wp_modify, wf_set_cwd; [done|by exists cs].
Qed.

Lemma Readlink_safe name : safe (Readlink name).
Proof.
  intros m Hwf. unfold Readlink. apply wp_bind, wp_get.
  apply wp_bind, wp_resolve_existing'; [done| |by intros; apply wp_throw_path].
  intros cs l n Hcs Hl Hn Hr. apply wp_bind. eapply wp_load; [done|].
  case_match; [by apply wp_throw_path|]. by apply wp_ret.
Qed.

Lemma Realpath_safe name : safe (Realpath name).
Proof.
  intros m Hwf. unfold Realpath. apply wp_bind, wp_get.
  apply wp_bind, wp_resolve_existing'; [done| |by intros; apply wp_throw_path].
  intros. by apply wp_ret.
Qed.

Lemma mapM_total {A B} (f : A → option B) l : (∀ x, x ∈ l → is_Some (f x)) → is_Some (mapM f l).
Proof.
  intros H. destruct (mapM f l) eqn:E; [by eexists|]. apply mapM_None, Exists_exists in E
    as (x&Hx&Hf). apply list_elem_of_In, H in Hx as [y Hy]. congruence.
Qed.

(** The entries of a directory, as [ReadDir] lists them, all lead to nodes. *)
Lemma readdir_total m cs l n : wf m → valid_comps cs → nodes m !! render cs = Some l →
  heap m !! l = Some n →
  is_Some (mapM (fun child => x ← node_at m (joinClean (render cs) child); Some (child, n_mode x))
    (sort_strings (elements (default ∅ (n_children n))))).
Proof.
  intros Hwf Hcs Hl Hn. apply mapM_total. intros c Hc.
  apply elem_of_sort_strings, elem_of_elements in Hc.
  rewrite <- (children_at_eq m cs l n) in Hc by done.
  apply (wf_tree m Hwf) in Hc as (Hc&[lc Hlc]); [|done].
  rewrite joinClean_render by done.
  destruct (wf_key m Hwf _ _ Hlc) as [_ [nc Hnc]].
  rewrite (node_at_Some _ _ _ _ Hlc Hnc). by eexists.
Qed.

Lemma wp_ReadDir name m : wf m →
  wp (ReadDir name) m (fun es m' => m' = m ∧ ∃ cs l n, valid_comps cs ∧
    resolvePathLocked m name true false = Ok (render cs, Some l) ∧
    nodes m !! render cs = Some l ∧ heap m !! l = Some n ∧ mode_IsDir (n_mode n) = true ∧
    mapM (fun child => x ← node_at m (joinClean (render cs) child); Some (child, n_mode x))
      (sort_strings (elements (default ∅ (n_children n)))) = Some es).
Proof.
  intros Hwf. unfold ReadDir. apply wp_bind, wp_get.
  apply wp_bind, wp_resolve_existing'; [done| |by intros; apply wp_throw_path].
  intros cs l n Hcs Hl Hn Hr. apply wp_bind. eapply wp_load; [done|].
  case_match eqn:Ed; [by apply wp_throw_path|]. apply negb_false_iff in Ed.
  cbv zeta. destruct (readdir_total m cs l n Hwf Hcs Hl Hn) as [es Hes]. rewrite Hes.
  apply wp_ret. split; [done|]. by exists cs, l, n.
Qed.

Lemma ReadDir_safe name : safe (ReadDir name).
Proof. intros m Hwf. eapply wp_mono; [by apply wp_ReadDir|naive_solver]. Qed.

Lemma Mkfifo_safe name perm : safe (Mkfifo now name perm).
Proof.
  intros m Hwf. unfold Mkfifo. apply wp_bind, wp_get. cbv zeta.
  unfold resolvePathLocked, resolveAbsLocked.
  pose proof (resolveAbs_hops_spec (S maxSymlinkDepth - 0) m (Resolve (cwd m) name) false true Hwf) as Hr.
  destruct (resolveAbs_hops _ _ _ _ _) as [[p [l|]]|e]; simpl in Hr; [by apply wp_throw_path| |by apply wp_throw_path].
  destruct Hr as (_&Hno&cs&c&Hv&->&Hd).
  pose proof Hv as [Hcs Hc]%valid_comps_snoc. rewrite parentDir_snoc by done.
  destruct Hd as (pl&pn&Hpl&Hpn&Hpd).
  change (S maxSymlinkDepth - 0)%nat with (S maxSymlinkDepth).
  erewrite resolveAbs_physical; [|done|by exists cs|done|done|by intros; eapply (wf_kind m Hwf)].
  apply wp_bind. eapply wp_load; [done|]. rewrite Hpd. simpl negb. cbv iota.
  apply wp_bind, wp_newNodeID. intros id nid. set (m1 := MkFS _ _ _ _ _ _).
  assert (wf m1) as Hwf1 by (apply wf_other; [done|reflexivity]).
  apply wp_bind. unfold wp at 1, newMemoryFIFO. set (m2 := MkFS _ _ _ _ _ _).
  assert (wf m2) as Hwf2 by (apply (wf_other m1); [done|lia]).
  set (n := MkNode _ _ _ _ _ _ _ _ _ _ _ _ _).
  assert (mode_IsDir (n_mode n) = false) as Hnd.
  { unfold n. simpl. rewrite IsDir_testbit, N.lor_spec, N.land_spec, storedPermBits_31, andb_false_r.
    done. }
  assert (wp (l ← alloc n; attach (render (cs ++ [c])) l) m2 (fun _ => wf)) as H.
  { apply (wp_create cs c); [done..|by exists pl, pn| |by rewrite Hnd|done].
    by apply node_ok_file. }
  unfold wp in H |- *. unfold attach, mbind, M_bind, alloc, bind_path, modify, add_child in *.
  cbn [nodes set_nodes] in *. rewrite parentDir_snoc in H by done.
  rewrite lookup_insert_ne in H; [change (nodes m2) with (nodes m) in H; by rewrite Hpl in H|].
  intros E%render_inj; [|done..]. apply (f_equal length) in E. rewrite length_app in E. simpl in E. lia.
Qed.
End specs.

(** ** Handles and metadata reads *)

Section handles.
Variable provider : nat → result error gostr.
Hypothesis provider_total : ∀ p, provider p ≠ Err EPanic.
Variable now : time.

(** An attempt to load a lazy node, whatever becomes of it. *)
Lemma wp_try_materialize {B} l n (k : result error unit → M B) m Q : wf m → heap m !! l = Some n →
  (∀ m' n', wf m' → heap m' !! l = Some n' → same_view m m' → n_mode n' = n_mode n →
     isLazyFileNode n' = false → wp (k (Ok tt)) m' Q) →
  (∀ e m', e ≠ EPanic → wf m' → wp (k (Err e)) m' Q) →
  wp (r ← attempt (materializeNode provider l); k r) m Q.
Proof using provider_total.
  intros Hwf Hn Hok Herr. apply wp_bind. eapply wp_attempt.
  - by eapply (wp_materializeNode provider).
  - intros [] m' (?&?&n'&?&?&?). by eapply Hok.
  - intros e m' He Hwf'. by apply Herr.
Qed.

Lemma wp_file_Read f k m : wf m → is_Some (heap m !! f_node f) →
  wp (file_Read provider f k) m (fun r m' => wf m' ∧ f_node r.2 = f_node f).
Proof using provider_total.
  intros Hwf [n Hn]. unfold file_Read. case_match; [by apply wp_throw|].
  case_match; [by apply wp_throw_path|].
  eapply wp_try_materialize; [done..| |by intros; apply wp_throw_path].
  intros m' n' Hwf' Hn' _ _ _. apply wp_bind. eapply wp_load; [done|].
  case_match; [by apply wp_throw_path|]. case_match; [by apply wp_throw|]. by apply wp_ret.
Qed.

Lemma wp_file_Write f p m : wf m → is_Some (heap m !! f_node f) →
  wp (file_Write provider now f p) m (fun r m' => wf m' ∧ f_node r.2 = f_node f).
Proof using provider_total.
  intros Hwf [n Hn]. unfold file_Write. case_match; [by apply wp_throw|].
  case_match; [by apply wp_throw_path|].
  eapply wp_try_materialize; [done..| |by intros; apply wp_throw_path].
  intros m' n' Hwf' Hn' _ _ _. apply wp_bind. eapply wp_load; [done|].
  case_match; [by apply wp_throw_path|].
  apply wp_bind. eapply wp_update; [done|]. apply wp_ret. split; [|done].
  eapply wf_update; [done|done| |done].
  eapply node_ok_kind; [by eapply (wf_kind m' Hwf')|done..].
Qed.

Lemma file_Stat_safe f m : wf m → is_Some (heap m !! f_node f) →
  wp (file_Stat provider f) m (fun _ => wf).
Proof using provider_total.
  intros Hwf [n Hn]. unfold file_Stat. case_match; [by apply wp_throw|].
  apply wp_bind. eapply wp_load; [done|].
  apply wp_bind. apply (wp_mono _ _ (fun _ m' => wf m' ∧ is_Some (heap m' !! f_node f))).
  - case_match; [|by apply wp_ret].
    eapply wp_try_materialize; [done..| |by intros; apply wp_throw_path].
    intros m' n' ?????. apply wp_ret. split; [done|]. by eexists.
  - intros [] m' [Hwf' [n' Hn']]. apply wp_bind. eapply wp_load; [done|]. by apply wp_ret.
Qed.

Lemma stat_safe op name ff : safe (stat_path provider op name ff).
Proof using provider_total.
  intros m Hwf. unfold stat_path. apply wp_bind, wp_get. cbv zeta. apply wp_bind.
  eapply wp_attempt; [by apply wp_materializePath| |by intros; apply wp_throw_path].
  intros abs m' (Hwf'&Hsv&cs&l&_&->&Hl&_). apply wp_bind, wp_get.
  rewrite <- (sv_nodes _ _ Hsv) in Hl. rewrite Hl. destruct (wf_key m' Hwf' _ _ Hl) as [_ [n Hn]].
  apply wp_bind. eapply wp_load; [done|]. by apply wp_ret.
Qed.
End handles.

(** ** The filesystem as a transition system *)

(** The operations of [fs.FileSystem] and of the files it opened; a file is named by its index
    among those opened so far. *)
Inductive fs_op :=
| OpMkdirAll (name : gostr) (perm : N)
| OpSymlink (target linkName : gostr)
| OpLink (oldName newName : gostr)
| OpMkfifo (name : gostr) (perm : N)
| OpOpenFile (name : gostr) (flag perm : N)
| OpRead (i k : nat)
| OpWrite (i : nat) (p : gostr)
| OpFileStat (i : nat)
| OpClose (i : nat)
| OpStat (name : gostr)
| OpLstat (name : gostr)
| OpReadDir (name : gostr)
| OpReadlink (name : gostr)
| OpRealpath (name : gostr)
| OpChmod (name : gostr) (mode : N)
| OpChown (name : gostr) (uid gid : N) (follow : bool)
| OpChtimes (name : gostr) (atime mtime : time)
| OpLchtimes (name : gostr) (atime mtime : time)
| OpRemove (name : gostr) (recursive : bool)
| OpRename (oldName newName : gostr)
| OpChdir (name : gostr).

Record fs_config := MkConfig { fc_fs : MemoryFS; fc_files : list openFile }.

(** An operation on a memory file leaves the table of open files at its (moved) handle. *)
Definition on_file {A} (i : nat) (c : fs_config) (run : memoryFile → M (A * memoryFile))
  : result error unit * fs_config :=
  match fc_files c !! i with
  | Some (MemFile f) =>
      match run f (fc_fs c) with
      | (Ok (_, f'), m) => (Ok tt, MkConfig m (<[i := MemFile f']> (fc_files c)))
      | (Err e, m) => (Err e, MkConfig m (fc_files c))
      end
  | _ => (Err (ESent ErrClosed), c)
  end.

Definition on_fs {A} (c : fs_config) (run : M A) : result error unit * fs_config :=
  match run (fc_fs c) with
  | (Ok _, m) => (Ok tt, MkConfig m (fc_files c))
  | (Err e, m) => (Err e, MkConfig m (fc_files c))
  end.

Definition run_op (provider : nat → result error gostr) (now : time) (o : fs_op) (c : fs_config)
  : result error unit * fs_config :=
  match o with
  | OpMkdirAll name perm => on_fs c (MkdirAll now name perm)
  | OpSymlink target linkName => on_fs c (Symlink now target linkName)
  | OpLink a b => on_fs c (Link now a b)
  | OpMkfifo name perm => on_fs c (Mkfifo now name perm)
  | OpOpenFile name flag perm =>
      match OpenFile provider now name flag perm (fc_fs c) with
      | (Ok f, m) => (Ok tt, MkConfig m (fc_files c ++ [f]))
      | (Err e, m) => (Err e, MkConfig m (fc_files c))
      end
  | OpRead i k => on_file i c (fun f => file_Read provider f k)
  | OpWrite i p => on_file i c (fun f => file_Write provider now f p)
  | OpFileStat i => on_file i c (fun f => info ← file_Stat provider f; mret (info, f))
  | OpClose i => on_file i c (fun f => mret (tt, file_Close f))
  | OpStat name => on_fs c (Stat provider name)
  | OpLstat name => on_fs c (Lstat provider name)
  | OpReadDir name => on_fs c (ReadDir name)
  | OpReadlink name => on_fs c (Readlink name)
  | OpRealpath name => on_fs c (Realpath name)
  | OpChmod name mode => on_fs c (Chmod now name mode)
  | OpChown name uid gid follow => on_fs c (Chown name uid gid follow)
  | OpChtimes name a t => on_fs c (Chtimes now name a t)
  | OpLchtimes name a t => on_fs c (Lchtimes now name a t)
  | OpRemove name r => on_fs c (Remove name r)
  | OpRename a b => on_fs c (Rename now a b)
  | OpChdir name => on_fs c (Chdir name)
  end.

(** One call by any client: the lazy providers and the clock are whatever they are then. *)
Inductive fs_step (c c' : fs_config) : Prop :=
| FsStep provider now o r :
    (∀ p, provider p ≠ Err EPanic) → run_op provider now o c = (r, c') → fs_step c c'.

Definition config_ok (c : fs_config) : Prop :=
  wf (fc_fs c) ∧ Forall (handle_ok (fc_fs c)) (fc_files c).

Lemma handle_ok_keeps m m' f : keeps (heap m) (heap m') → handle_ok m f → handle_ok m' f.
Proof. intros Hk. destruct f; simpl; auto. Qed.

Lemma handles_keep m m' fs : keeps (heap m) (heap m') →
  Forall (handle_ok m) fs → Forall (handle_ok m') fs.
Proof. intros Hk. apply Forall_impl. intros f. by apply handle_ok_keeps. Qed.

Lemma on_fs_ok {A} (run : M A) c r c' : safe run → keeping run → config_ok c →
  on_fs c run = (r, c') → r ≠ Err EPanic ∧ config_ok c'.
Proof.
  intros Hs Hk [Hwf Hf]. specialize (Hs (fc_fs c) Hwf). specialize (Hk (fc_fs c)).
  unfold on_fs, wp in *. destruct (run (fc_fs c)) as [[a|e] m]; simpl in *; intros ?; simplify_eq.
  - split; [done|]. split; [done|]. by eapply handles_keep.
  - destruct Hs as [? ?]. split; [congruence|]. split; [done|]. by eapply handles_keep.
Qed.

Lemma on_file_ok {A} (run : memoryFile → M (A * memoryFile)) i c r c' :
  (∀ f m, wf m → is_Some (heap m !! f_node f) →
     wp (run f) m (fun x m' => wf m' ∧ f_node x.2 = f_node f)) →
  (∀ f, keeping (run f)) → config_ok c →
  on_file i c run = (r, c') → r ≠ Err EPanic ∧ config_ok c'.
Proof.
  intros Hs Hk [Hwf Hf]. unfold on_file.
  destruct (fc_files c !! i) as [[f|]|] eqn:Ei; [|by intros; simplify_eq..].
  pose proof (Forall_lookup_1 _ _ _ _ Hf Ei) as Hfi.
  specialize (Hs f (fc_fs c) Hwf Hfi). specialize (Hk f (fc_fs c)). unfold wp in Hs.
  destruct (run f (fc_fs c)) as [[[a f']|e] m]; simpl in *; intros ?; simplify_eq.
  - destruct Hs as [? Hn]. split; [done|]. split; [done|]. simpl.
    apply Forall_insert; [by eapply handles_keep|]. simpl. rewrite Hn. auto.
  - destruct Hs as [? ?]. split; [congruence|]. split; [done|]. by eapply handles_keep.
Qed.

Section step.
Variable provider : nat → result error gostr.
Hypothesis provider_total : ∀ p, provider p ≠ Err EPanic.
Variable now : time.

Lemma open_ok name flag perm c r c' : config_ok c →
  run_op provider now (OpOpenFile name flag perm) c = (r, c') → r ≠ Err EPanic ∧ config_ok c'.
Proof using provider_total.
  intros [Hwf Hf]. simpl.
  pose proof (OpenFile_spec provider provider_total now name flag perm _ Hwf) as Hs.
  pose proof (keeping_OpenFile provider now name flag perm (fc_fs c)) as Hk. unfold wp in Hs.
  destruct (OpenFile _ _ _ _ _ _) as [[f|e] m]; simpl in *; intros ?; simplify_eq.
  - destruct Hs as (?&abs&l&_&_&Ho&_). split; [done|]. split; [done|]. simpl. apply Forall_app.
    split; [by eapply handles_keep|]. apply Forall_singleton. by eapply opened_handle_ok.
  - destruct Hs as [? ?]. split; [congruence|]. split; [done|]. by eapply handles_keep.
Qed.

Lemma file_Stat_handle f m : wf m → is_Some (heap m !! f_node f) →
  wp (info ← file_Stat provider f; mret (info, f)) m
     (fun x m' => wf m' ∧ f_node x.2 = f_node f).
Proof using provider_total.
  intros Hwf Hn. apply wp_bind. eapply wp_mono; [by apply file_Stat_safe|].
  intros. by apply wp_ret.
Qed.

Lemma run_op_ok o c r c' : config_ok c → run_op provider now o c = (r, c') →
  r ≠ Err EPanic ∧ config_ok c'.
Proof using provider_total.
  intros Hc. destruct o; simpl run_op; try (by apply open_ok);
    first [ apply on_fs_ok; [| |done] | apply on_file_ok; [| |done] ].
  all: eauto using Symlink_safe, Link_safe, Mkfifo_safe, MkdirAll_safe, Chmod_safe, Chown_safe,
    Chtimes_safe, Lchtimes_safe, Remove_safe, Rename_safe, Chdir_safe, Readlink_safe,
    Realpath_safe, ReadDir_safe, stat_safe, wp_file_Read, wp_file_Write, file_Stat_handle,
    keeping_MkdirAll, keeping_Symlink, keeping_Link, keeping_Mkfifo, keeping_file_Read,
    keeping_file_Write, keeping_file_Stat, keeping_stat, keeping_ReadDir, keeping_Readlink,
    keeping_Realpath, keeping_update_meta, keeping_Remove, keeping_Rename, keeping_Chdir.
  - intros f. pose proof keeping_file_Stat. keeping.
  - intros f m Hwf Hn. by apply wp_ret.
  - intros f. keeping.
Qed.
End step.
