(* ===== verification/MemoryFSProps.v ===== *)
(** What the in-memory filesystem promises its clients: the invariant of every reachable state,
    the functional behaviour of the operations, and what is read after what was written. *)
From S2P Require Import Prelude GoPath FsTypes MemoryFS MemoryFSWf MemoryFSInv MemoryFSTree.
From S2P Require Import MemoryFSOps MemoryFSMove MemoryFSSafe.

(** ** Reachable states *)

Definition init_config (m : MemoryFS) : fs_config := MkConfig m [].

Lemma fresh_wf now ip : wf (MkFS (go "/") {[ root_path := 1%positive ]} 1 ip
    {[ 1%positive := dirNode 1 (N.lor ModeDir 493) now ]} 2).
Proof.
  assert (∀ cs, valid_comps cs → cs ≠ [] →
    ({[ root_path := 1%positive ]} : gmap gostr loc) !! render cs = None) as Hno.
  { intros cs Hcs Hne. apply lookup_singleton_ne. intros E. apply Hne.
    apply (render_inj _ [] Hcs); [constructor|done]. }
  split; simpl.
  - exists []. split; [constructor|done].
  - intros p l [<- <-]%lookup_singleton_Some. split; [exists []; split; [constructor|done]|].
    by eexists.
  - exists 1%positive. eexists. split_and!; [reflexivity..|done].
  - intros cs c Hcs. split.
    + intros [Hc [l Hl]]. rewrite Hno in Hl; [done| |by destruct cs].
      by apply valid_comps_snoc.
    + unfold children_at, node_at. simpl. destruct cs as [|d cs].
      * change (render []) with root_path. rewrite lookup_singleton_eq. simpl.
        rewrite lookup_singleton_eq. simpl. set_solver.
      * rewrite Hno by done. simpl. set_solver.
  - intros l n [<- <-]%lookup_singleton_Some. split; [|done]. split; [by eexists|done].
  - intros p q l n [<- <-]%lookup_singleton_Some [<- _]%lookup_singleton_Some. done.
  - intros l [n [<- <-]%lookup_singleton_Some]. lia.
Qed.

Lemma run_op_reachable c c' : config_ok c → rtc fs_step c c' → config_ok c'.
Proof.
  intros Hc. induction 1 as [|c1 c2 c3 Hs _ IH]; [done|]. apply IH.
  destruct Hs as [provider now o r Hp Hr]. by eapply run_op_ok.
Qed.

(** C3: from a new filesystem (with or without implicit parents) no sequence of operations, with
    any files open and whatever the lazy providers return, breaks the invariant: the bound paths
    form a tree of directories whose entries are exactly the bound children, every pointer
    leads to a node, no directory has two names, open files keep their nodes; and no operation
    ever dereferences nil or writes to a nil map. *)
Theorem memfs_reachable_ok t c o provider now r c' :
  (rtc fs_step (init_config (NewMemory t)) c ∨
   rtc fs_step (init_config (newMemoryWithImplicitParents t)) c) →
  (∀ p, provider p ≠ Err EPanic) →
  run_op provider now o c = (r, c') →
  config_ok c ∧ r ≠ Err EPanic ∧ config_ok c'.
Proof.
  intros Hr Hp Ho.
  assert (config_ok c) as Hc.
  { destruct Hr as [Hr|Hr]; (eapply run_op_reachable; [|exact Hr]);
      (split; [apply fresh_wf|constructor]). }
  split; [done|]. by eapply run_op_ok.
Qed.

(** ** [Realpath] *)

Lemma Realpath_inv m name p m' : wf m → Realpath name m = (Ok p, m') →
  m' = m ∧ ∃ cs l n, valid_comps cs ∧ p = render cs ∧ nodes m !! p = Some l ∧
    heap m !! l = Some n ∧ isSymlink n = false ∧
    resolvePathLocked m name true false = Ok (p, Some l).
Proof.
  intros Hwf. unfold Realpath, resolve_existing, get, mbind, M_bind, mret, M_ret.
  unfold resolvePathLocked, resolveAbsLocked.
  pose proof (resolveAbs_hops_spec (S maxSymlinkDepth - 0) m (Resolve (cwd m) name) true false Hwf) as Hr.
  destruct (resolveAbs_hops _ _ _ _ _) as [[q [l|]]|e]; simpl in Hr; [|by destruct Hr|done].
  intros [= <- <-]. split; [done|]. destruct Hr as [Hl Hs].
  destruct (wf_key m Hwf _ _ Hl) as [(cs&?&->) [n Hn]]. exists cs, l, n. split_and!; auto.
Qed.

Lemma Realpath_physical m p l n : wf m → clean_abs p → nodes m !! p = Some l → heap m !! l = Some n →
  isSymlink n = false → Realpath p m = (Ok p, m).
Proof.
  intros Hwf Hp Hl Hn Hs. unfold Realpath, resolve_existing, get, mbind, M_bind, mret, M_ret.
  unfold resolvePathLocked, resolveAbsLocked.
  assert (Resolve (cwd m) p = p) as ->.
  { destruct Hp as (cs&Hcs&->). rewrite Resolve_abs; [|by destruct (render_head cs) as [t ->]].
    by rewrite comps_render. }
  change (S maxSymlinkDepth - 0)%nat with (S maxSymlinkDepth).
  by erewrite resolveAbs_physical.
Qed.

(** [Realpath] answers with a canonical path: clean and absolute, bound to a node that is not
    a symbolic link, every proper ancestor a directory, and a fixed point of [Realpath]. *)
Theorem Realpath_canonical m name p m' : wf m → Realpath name m = (Ok p, m') →
  m' = m ∧ Realpath p m = (Ok p, m) ∧
  ∃ cs l n, valid_comps cs ∧ p = render cs ∧ nodes m !! p = Some l ∧ heap m !! l = Some n ∧
    isSymlink n = false ∧ ∀ ds c ds', cs = ds ++ c :: ds' → dir_at m ds.
Proof.
  intros Hwf Hr. destruct (Realpath_inv m _ _ _ Hwf Hr) as (->&cs&l&n&Hcs&->&Hl&Hn&Hs&_).
  split; [done|]. split.
  - eapply Realpath_physical; [done|by exists cs|done..].
  - exists cs, l, n. split_and!; [done..|]. intros ds c ds' ->.
    eapply wf_ancestor; [done..|]. by eexists.
Qed.

(** ** [Remove] and [Rename] *)

Lemma wp_Ok {A} (c : M A) m (Q : A → MemoryFS → Prop) a m' : wp c m Q → c m = (Ok a, m') → Q a m'.
Proof. unfold wp. intros H E. by rewrite E in H. Qed.



(** ** [ReadDir] *)

Lemma mapM_fst_eq {A C} (f : A → option C) l k :
  mapM (fun a => x ← f a; Some (a, x)) l = Some k → k.*1 = l.
Proof.
  intros H%mapM_Some. induction H as [|a b l k Hab H IH]; [done|]. rewrite fmap_cons, IH.
  destruct (f a); by simplify_eq/=.
Qed.

Lemma elem_of_readdir m cs l n c md es : wf m → valid_comps cs →
  nodes m !! render cs = Some l → heap m !! l = Some n →
  mapM (fun child => x ← node_at m (joinClean (render cs) child); Some (child, n_mode x))
    (sort_strings (elements (default ∅ (n_children n)))) = Some es →
  (c, md) ∈ es ↔ valid_comp c ∧ ∃ n, node_at m (render (cs ++ [c])) = Some n ∧ md = n_mode n.
Proof.
  intros Hwf Hcs Hl Hn Hes.
  apply mapM_Some in Hes.
  assert (∀ c, c ∈ sort_strings (elements (default ∅ (n_children n))) ↔
    valid_comp c ∧ is_Some (nodes m !! render (cs ++ [c]))) as Hmem.
  { intros d. rewrite elem_of_sort_strings, elem_of_elements, <- (children_at_eq m cs l n) by done.
    by rewrite (wf_tree m Hwf). }
  split.
  - intros [i Hi]%list_elem_of_lookup.
    destruct (Forall2_lookup_r _ _ _ _ _ Hes Hi) as (d&Hd&E).
    apply list_elem_of_lookup_2, Hmem in Hd as [Hdv _]. rewrite joinClean_render in E by done.
    destruct (node_at m _) eqn:En; simplify_eq/=. eauto.
  - intros [Hc (x&Hx&->)].
    assert (c ∈ sort_strings (elements (default ∅ (n_children n)))) as Hm.
    { apply Hmem. split; [done|]. unfold node_at in Hx. by destruct (nodes m !! render (cs ++ [c])). }
    apply list_elem_of_lookup in Hm as [i Hi].
    destruct (Forall2_lookup_l _ _ _ _ _ Hes Hi) as (e&He&E).
    rewrite joinClean_render, Hx in E by done. simplify_eq/=. by eapply list_elem_of_lookup_2.
Qed.

(** [ReadDir] lists a directory exactly: names in strictly increasing byte order (so without
    repetition), a name listed if and only if that child path is bound, and the listed mode that
    of the child itself (a link is not followed). *)
Theorem ReadDir_exact m name es m' : wf m → ReadDir name m = (Ok es, m') →
  m' = m ∧ ∃ cs l, valid_comps cs ∧ resolvePathLocked m name true false = Ok (render cs, Some l) ∧
    increasing es.*1 ∧
    ∀ c md, (c, md) ∈ es ↔ valid_comp c ∧ ∃ n, node_at m (render (cs ++ [c])) = Some n ∧ md = n_mode n.
Proof.
  intros Hwf Hr. eapply wp_Ok in Hr; [|by apply wp_ReadDir].
  destruct Hr as (->&cs&l&n&Hcs&Hr&Hl&Hn&Hd&Hes). split; [done|]. exists cs, l. split_and!; [done..| |].
  - rewrite (mapM_fst_eq (fun c => n_mode <$> node_at m (joinClean (render cs) c))
      (sort_strings (elements (default ∅ (n_children n)))) es).
    + apply sort_strings_increasing, NoDup_elements.
    + rewrite <- Hes. apply mapM_ext. intros c. by destruct (node_at m (joinClean (render cs) c)).
  - intros c md. by apply (elem_of_readdir m cs l n).
Qed.

(** ** Opening and creating *)

(** [OpenFile] opens the path its name resolves to (for creation, past links and missing
    parents; otherwise an existing path): the path is bound, and the handle is on its node, at
    offset 0 or, with [O_APPEND], at the end, with [O_TRUNC] of an empty file; a path that was
    not bound gets a fresh node; with [O_CREATE] and [O_EXCL] the path was not bound. *)
Theorem OpenFile_opens m provider now name flag perm f m' : wf m →
  (∀ p, provider p ≠ Err EPanic) → OpenFile provider now name flag perm m = (Ok f, m') →
  wf m' ∧ ∃ abs l, open_target m name flag abs ∧ nodes m' !! abs = Some l ∧ opened m' abs l flag f ∧
    (nodes m !! abs = None → heap m !! l = None) ∧
    (has_bits flag O_CREATE && has_bits flag O_EXCL = true → nodes m !! abs = None).
Proof. intros Hwf Hp Ho. by eapply wp_Ok in Ho; [|by apply OpenFile_spec]. Qed.

(** ** Reading and writing *)

(** The bytes of a file after a write of [p] at [off]: those of [p], around them the old ones,
    and zeros between the old end and [off]. *)
Lemma lookup_write_at data off p i : (i < off + length p ∨ i < length data)%nat →
  write_at data off p !! i =
  if decide (off ≤ i < off + length p)%nat then p !! (i - off)%nat
  else if decide (i < length data)%nat then data !! i else Some "000"%char.
Proof.
  intros Hi. unfold write_at, growBytes. set (g := data ++ _).
  assert (length g = Nat.max (length data) (off + length p)) as Hg.
  { unfold g. rewrite length_app, length_replicate. lia. }
  assert (length (take off g) = off) as Ht by (rewrite length_take; lia).
  assert (∀ j, (j < length g)%nat →
    g !! j = if decide (j < length data)%nat then data !! j else Some "000"%char) as Hlk.
  { intros j Hj. unfold g. case_decide; [by rewrite lookup_app_l|].
    rewrite lookup_app_r by lia. apply lookup_replicate. split; [done|]. lia. }
  destruct (decide (i < off)%nat).
  { rewrite lookup_app_l by lia. rewrite lookup_take_lt by done.
    rewrite decide_False by lia. apply Hlk. lia. }
  rewrite lookup_app_r by lia. rewrite Ht. case_decide.
  - by rewrite lookup_app_l by lia.
  - rewrite lookup_app_r by lia. rewrite lookup_drop.
    replace (off + length p + (i - off - length p))%nat with i by lia. apply Hlk. lia.
Qed.

Lemma length_write_at data off p :
  length (write_at data off p) = Nat.max (length data) (off + length p).
Proof.
  unfold write_at, growBytes. rewrite !length_app, length_take, length_drop, length_app, length_replicate.
  lia.
Qed.

Lemma write_at_read data off p : take (length p) (drop off (write_at data off p)) = p.
Proof.
  apply list_eq. intros i. destruct (decide (i < length p)%nat) as [Hi|Hi].
  - rewrite lookup_take_lt, lookup_drop, lookup_write_at by lia.
    rewrite decide_True by lia. f_equal. lia.
  - by rewrite lookup_take_ge, lookup_ge_None_2 by lia.
Qed.

(** The content of a node as a reader sees it: a lazy file's content is its provider's. *)
Definition content (provider : nat → result error gostr) (n : memoryNode) : result error gostr :=
  if isLazyFileNode n then
    match n_lazy n with Some p => provider p | None => Ok (n_data n) end
  else Ok (n_data n).

(** Loading a node: afterwards its bytes are its content, and nothing else changed. *)
Lemma materializeNode_eq provider l n m : heap m !! l = Some n →
  materializeNode provider l m =
  match content provider n with
  | Ok data =>
      if isLazyFileNode n then (Ok tt, set_heap (<[l := set_lazy None (set_data data n)]> (heap m)) m)
      else (Ok tt, m)
  | Err e => (Err e, m)
  end.
Proof.
  intros Hn. unfold materializeNode, load, mbind, M_bind, mret, M_ret, content. rewrite Hn.
  destruct (isLazyFileNode n) eqn:E; [|done]. cbn [negb].
  destruct (n_lazy n) as [p|] eqn:Ep; [|by unfold isLazyFileNode in E; rewrite Ep in E].
  destruct (provider p); [|done]. unfold update_node. by rewrite Hn.
Qed.

(** The state after a node's content has been loaded. *)
Lemma materialized provider l n m data : heap m !! l = Some n → content provider n = Ok data →
  ∃ m1 n1, materializeNode provider l m = (Ok tt, m1) ∧ heap m1 !! l = Some n1 ∧ n_data n1 = data ∧
    n_mode n1 = n_mode n ∧ isLazyFileNode n1 = false ∧ nodes m1 = nodes m ∧
    ∀ l', l' ≠ l → heap m1 !! l' = heap m !! l'.
Proof.
  intros Hn Hc. rewrite (materializeNode_eq _ _ n) by done. rewrite Hc. unfold content in Hc.
  destruct (isLazyFileNode n) eqn:E.
  - eexists _, _. split_and!; [done|simpl; apply lookup_insert_eq|done..|].
    intros l' Hl'. simpl. by rewrite lookup_insert_ne.
  - simplify_eq/=. by exists m, n.
Qed.

Lemma file_Write_ok m provider now f p n data : heap m !! f_node f = Some n →
  mode_IsDir (n_mode n) = false → content provider n = Ok data →
  f_closed f = false → canWrite (f_flag f) = true →
  let off := if has_bits (f_flag f) O_APPEND then glen data else f_offset f in
  ∃ m' n', file_Write provider now f p m =
      (Ok (glen p, MkFile (f_path f) (f_node f) (f_flag f) (off + glen p) false), m') ∧
    heap m' !! f_node f = Some n' ∧ n_data n' = write_at data (Z.to_nat off) p ∧
    isLazyFileNode n' = false ∧ mode_IsDir (n_mode n') = false ∧
    nodes m' = nodes m ∧ (∀ l, l ≠ f_node f → heap m' !! l = heap m !! l).
Proof.
  intros Hn Hd Hc Hcl Hw off.
  destruct (materialized provider _ n m data Hn Hc) as (m1&n1&Hm&Hn1&Hd1&Hk&Hlz&Hns&Hh).
  unfold file_Write. rewrite Hcl, Hw. unfold attempt, mbind, M_bind. cbn [negb].
  rewrite Hm. unfold load. rewrite Hn1, Hk, Hd, Hd1. fold off.
  unfold update_node. rewrite Hn1, Hd1.
  eexists _, _. split_and!; [done|simpl; apply lookup_insert_eq|done|done|by simpl; rewrite Hk|done|].
  intros l Hl. simpl. rewrite lookup_insert_ne by done. by apply Hh.
Qed.

Lemma content_loaded provider n : isLazyFileNode n = false → content provider n = Ok (n_data n).
Proof. unfold content. by intros ->. Qed.

(** A [Write] on an open writable handle of a file whose content can be loaded stores exactly
    its bytes at the handle's offset (the end of the file with [O_APPEND]), leaves every other
    byte of the file and every other node as it was, fills a gap with zeros, and moves the
    offset to the end of what was written; a read-only or closed handle writes nothing. *)
Theorem file_Write_spec m provider now f p n data : heap m !! f_node f = Some n →
  mode_IsDir (n_mode n) = false → content provider n = Ok data → 0 ≤ f_offset f →
  f_closed f = false → canWrite (f_flag f) = true →
  let off := if has_bits (f_flag f) O_APPEND then glen data else f_offset f in
  ∃ m' n', file_Write provider now f p m =
      (Ok (glen p, MkFile (f_path f) (f_node f) (f_flag f) (off + glen p) false), m') ∧
    heap m' !! f_node f = Some n' ∧ content provider n' = Ok (write_at data (Z.to_nat off) p) ∧
    nodes m' = nodes m ∧ (∀ l, l ≠ f_node f → heap m' !! l = heap m !! l) ∧
    ∀ i, (i < Z.to_nat off + length p ∨ i < length data)%nat →
      write_at data (Z.to_nat off) p !! i =
      if decide (Z.to_nat off ≤ i < Z.to_nat off + length p)%nat then p !! (i - Z.to_nat off)%nat
      else if decide (i < length data)%nat then data !! i else Some "000"%char.
Proof.
  intros Hn Hd Hc Hoff Hcl Hw off.
  destruct (file_Write_ok m provider now f p n data Hn Hd Hc Hcl Hw) as (m'&n'&H1&H2&H3&H4&H5&H6&H7).
  exists m', n'. rewrite content_loaded, H3 by done. split_and!; [done..|].
  intros i. apply lookup_write_at.
Qed.

(** C6: what is written is what is read: after a [Write], a [Read] of as many bytes through any
    open readable handle of the same node — however it was opened, under whatever name of the
    file, as hard links share the node — at the offset the write started at returns exactly the
    bytes written and changes nothing but the handle's offset. *)
Theorem write_then_read m provider now f p g n data m' f' : heap m !! f_node f = Some n →
  mode_IsDir (n_mode n) = false → content provider n = Ok data → 0 ≤ f_offset f →
  file_Write provider now f p m = (Ok (glen p, f'), m') → p ≠ [] →
  f_node g = f_node f → f_closed g = false → canRead (f_flag g) = true →
  f_offset g = f_offset f' - glen p →
  file_Read provider g (length p) m' =
    (Ok (p, MkFile (f_path g) (f_node g) (f_flag g) (f_offset f') false), m').
Proof.
  intros Hn Hd Hc Hoff Hw Hp Hnode Hcl Hrd Hgo.
  assert (f_closed f = false ∧ canWrite (f_flag f) = true) as [Hfc Hfw].
  { unfold file_Write, throw, throw_path in Hw. destruct (f_closed f); [done|].
    by destruct (canWrite (f_flag f)). }
  destruct (file_Write_ok m provider now f p n data Hn Hd Hc Hfc Hfw) as (m1&n1&H1&H2&H3&H4&H5&_).
  rewrite Hw in H1. injection H1 as -> ->. simpl in Hgo |- *.
  set (off := if has_bits (f_flag f) O_APPEND then glen data else f_offset f) in *.
  assert (0 ≤ off) as Hoff' by (unfold off, glen; case_match; lia).
  assert (f_offset g = off) as Hg by lia.
  unfold file_Read. rewrite Hcl, Hrd, Hnode, Hg. cbn [negb].
  unfold attempt, mbind, M_bind.
  rewrite (materializeNode_eq _ _ n1), content_loaded, H4 by done.
  unfold load. rewrite H2, H5, H3.
  assert (length p ≠ 0)%nat by (by destruct p).
  rewrite (proj2 (Z.leb_gt _ _)).
  - rewrite write_at_read. done.
  - unfold glen. rewrite length_write_at. lia.
Qed.

(** Reading goes forward through the file: on an open readable handle a [Read] into a buffer
    of [k] bytes returns the next [min k (len - offset)] bytes of the content and moves the
    offset past them; at or after the end it answers [io.EOF]; bytes and bindings never change. *)
Theorem file_Read_spec m provider f k n data : heap m !! f_node f = Some n →
  mode_IsDir (n_mode n) = false → content provider n = Ok data → 0 ≤ f_offset f →
  f_closed f = false → canRead (f_flag f) = true →
  ∃ m', nodes m' = nodes m ∧ (∀ l, content provider <$> heap m' !! l = content provider <$> heap m !! l) ∧
    file_Read provider f k m =
    (if decide (glen data ≤ f_offset f) then (Err (ESent ErrEOF), m')
     else let p := take k (drop (Z.to_nat (f_offset f)) data) in
       (Ok (p, MkFile (f_path f) (f_node f) (f_flag f) (f_offset f + glen p) false), m')).
Proof.
  intros Hn Hd Hc Hoff Hcl Hrd.
  destruct (materialized provider _ n m data Hn Hc) as (m1&n1&Hm&Hn1&Hd1&Hk&Hlz&Hns&Hh).
  exists m1. split_and!; [done| |].
  - intros l. destruct (decide (l = f_node f)) as [->|Hl]; [|by rewrite Hh].
    rewrite Hn1, Hn. simpl. by rewrite Hc, content_loaded, Hd1.
  - unfold file_Read. rewrite Hcl, Hrd. unfold attempt, mbind, M_bind. cbn [negb]. rewrite Hm.
    unfold load. rewrite Hn1, Hk, Hd, Hd1.
    case_decide as E; [by rewrite (proj2 (Z.leb_le _ _) E)|].
    rewrite (proj2 (Z.leb_gt _ _)) by lia. done.
Qed.
