(* ===== verification/MemoryFSResolve.v ===== *)
(** The theory of path resolution on the in-memory filesystem: the two resolvers agree, answers
    are fixed points, the symlink budget does not change an answer, and the resolution of
    [dir/base] is one step from the resolution of [dir]. *)
From S2P Require Import Prelude GoPath FsTypes MemoryFS MemoryFSWf MemoryFSInv.

(** A path that resolution leaves alone: what exists of its proper ancestors are directories, and
    it is not a link itself. *)
Definition landing (m : MemoryFS) (cs : list gostr) : Prop :=
  (∀ pre k ks l n, cs = pre ++ k :: ks → nodes m !! render pre = Some l →
     heap m !! l = Some n → mode_IsDir (n_mode n) = true) ∧
  (∀ l n, nodes m !! render cs = Some l → heap m !! l = Some n → isSymlink n = false).

Lemma landing_bound m cs l n : wf m → valid_comps cs → nodes m !! render cs = Some l →
  heap m !! l = Some n → isSymlink n = false → landing m cs.
Proof.
  intros Hwf Hcs Hl Hn Hs. split; [|intros; simplify_eq; done].
  intros pre k ks l' n' -> Hl' Hn'. destruct (wf_ancestor m pre k ks Hwf Hcs) as (?&?&?&?&?);
    [by eexists|]. by simplify_eq.
Qed.

Lemma landing_unbound m cs c rs : wf m → valid_comps (cs ++ c :: rs) → dir_at m cs →
  nodes m !! render (cs ++ [c]) = None → landing m (cs ++ c :: rs).
Proof.
  intros Hwf Hv Hd Hno. split; [|intros l n Hl; by rewrite unbound_below in Hl].
  assert (∀ l n, nodes m !! render cs = Some l → heap m !! l = Some n →
    mode_IsDir (n_mode n) = true) as Hcsd by (destruct Hd as (?&?&?&?&?); intros; by simplify_eq).
  intros pre k ks l n E Hl Hn. apply app_eq_inv in E as [(es&->&E)|(es&->&E)].
  - destruct es as [|e es]; [rewrite app_nil_r in *; eauto|].
    pose proof Hv as [Hcs _]%Forall_app.
    destruct (wf_ancestor m pre e es Hwf Hcs) as (?&?&?&?&?); [|by simplify_eq].
    destruct Hd as (?&?&?&_). by eexists.
  - destruct es as [|e es]; [rewrite app_nil_r in *; eauto|]. simplify_eq/=.
    rewrite (unbound_below m cs e es) in Hl; [done|done| |done].
    rewrite app_comm_cons, (assoc_L (++)) in Hv. by apply Forall_app in Hv as [? _].
Qed.

Lemma create_walk_lands m follow abs n cs rs q : wf m →
  (∀ t q, clean_abs t → follow t = Ok q → ∃ ds, valid_comps ds ∧ q = render ds ∧ landing m ds) →
  valid_comps cs → valid_comps rs → rs ≠ [] → (length rs ≤ n)%nat → dir_at m cs →
  create_walk m follow abs n (render cs) (join [slash] rs) = Ok q →
  ∃ ds, valid_comps ds ∧ q = render ds ∧ landing m ds.
Proof.
  intros Hwf Hf. revert cs rs. induction n as [|n IH]; intros cs rs Hcs Hrs Hne Hn Hd;
    (destruct rs as [|c rs]; [done|]); [simpl in Hn; lia|].
  rewrite create_walk_cons by done. pose proof Hrs as [Hc Hrs']%Forall_cons_1.
  assert (valid_comps (cs ++ [c])) as Hv by (by apply valid_comps_snoc).
  destruct (nodes m !! render (cs ++ [c])) as [l|] eqn:El.
  - destruct (wf_key m Hwf _ _ El) as [_ [nd En]]. rewrite En.
    destruct (isSymlink nd) eqn:Es; [by apply Hf, link_target_clean|].
    case_bool_decide as Hlast.
    + intros [= <-]. exists (cs ++ [c]). split_and!; [done..|]. by eapply landing_bound.
    + destruct (mode_IsDir (n_mode nd)) eqn:Ed; simpl; [|done].
      apply IH; [done..|simpl in Hn; lia|]. by exists l, nd.
  - intros [= <-]. exists (cs ++ c :: rs). split_and!; [by apply Forall_app|done|].
    apply landing_unbound; [done|by apply Forall_app|done..].
Qed.

Lemma create_lands h m p q : wf m → resolveCreate_hops h m p = Ok q →
  ∃ cs, valid_comps cs ∧ q = render cs ∧ landing m cs.
Proof.
  intros Hwf. revert p q. induction h as [|h IH]; intros p q; [done|].
  rewrite resolveCreate_hops_S. destruct (wf_root m Hwf) as (l&n&Hl&Hn&Hd).
  pose proof (comps_valid p) as Hv. destruct (comps p) as [|c cs] eqn:E.
  - intros [= <-]. exists []. split_and!; [constructor|done|].
    eapply landing_bound; [done|constructor|done|done|]. by apply (wf_kind m Hwf l n Hn).
  - apply (create_walk_lands _ _ _ _ []); [done|by intros; eapply IH|constructor|done|done| |by exists l, n].
    by apply length_render.
Qed.

Lemma create_walk_fix m follow abs n cs rs : wf m →
  valid_comps cs → valid_comps rs → rs ≠ [] → (length rs ≤ n)%nat → landing m (cs ++ rs) →
  create_walk m follow abs n (render cs) (join [slash] rs) = Ok (render (cs ++ rs)).
Proof.
  intros Hwf. revert cs rs. induction n as [|n IH]; intros cs rs Hcs Hrs Hne Hn Hland;
    (destruct rs as [|c rs]; [done|]); [simpl in Hn; lia|].
  rewrite create_walk_cons by done. pose proof Hrs as [Hc Hrs']%Forall_cons_1.
  assert (valid_comps (cs ++ [c])) as Hv by (by apply valid_comps_snoc).
  assert (valid_comps ((cs ++ [c]) ++ rs)) as Hv' by (by apply Forall_app).
  assert ((cs ++ [c]) ++ rs = cs ++ c :: rs) as Happ by (by rewrite <- (assoc_L (++))).
  destruct (nodes m !! render (cs ++ [c])) as [l|] eqn:El; [|done].
  destruct (wf_key m Hwf _ _ El) as [_ [nd En]]. rewrite En.
  destruct Hland as [Hdir Hsym]. destruct rs as [|r rs].
  - rewrite (Hsym l nd) by done. by rewrite bool_decide_eq_true_2.
  - assert (mode_IsDir (n_mode nd) = true) as Hd by (by eapply (Hdir (cs ++ [c]) r rs l nd)).
    rewrite (proj2 (wf_kind m Hwf _ _ En)), bool_decide_eq_false_2, Hd by done. cbn [negb].
    rewrite IH, Happ; [done..|simpl in *; lia|by rewrite Happ].
Qed.

(** An answer of [resolveCreatePathLocked] is a fixed point of it. *)
Lemma create_fix h m cs : wf m → valid_comps cs → landing m cs →
  resolveCreate_hops (S h) m (render cs) = Ok (render cs).
Proof.
  intros Hwf Hcs Hl. rewrite resolveCreate_hops_S, comps_render by done.
  destruct cs as [|c cs]; [done|].
  apply (create_walk_fix _ _ _ _ []); [done|constructor|done|done| |done]. by apply length_render.
Qed.

(** ** The symlink budget *)

Lemma create_walk_mono m f1 f2 abs n cur rem :
  (∀ t, f1 t ≠ Err (ESent ErrTooManySymlinks) → f2 t = f1 t) →
  create_walk m f1 abs n cur rem ≠ Err (ESent ErrTooManySymlinks) →
  create_walk m f2 abs n cur rem = create_walk m f1 abs n cur rem.
Proof.
  intros Hf. revert cur rem. induction n as [|n IH]; intros cur rem; [done|].
  cbn [create_walk]. destruct rem as [|x xs]; [done|]. destruct (next_part (x :: xs)) as [part rem].
  cbv zeta. repeat case_match; auto.
Qed.

Lemma create_mono1 h m p : resolveCreate_hops h m p ≠ Err (ESent ErrTooManySymlinks) →
  resolveCreate_hops (S h) m p = resolveCreate_hops h m p.
Proof.
  revert p. induction h as [|h IH]; intros p; [done|].
  rewrite (resolveCreate_hops_S (S h)), (resolveCreate_hops_S h).
  destruct (comps p); [done|]. intros Hr. by apply create_walk_mono.
Qed.

(** More budget never changes an answer. *)
Lemma create_mono h h' m p : (h ≤ h')%nat →
  resolveCreate_hops h m p ≠ Err (ESent ErrTooManySymlinks) →
  resolveCreate_hops h' m p = resolveCreate_hops h m p.
Proof.
  intros Hle Hr. induction Hle as [|h' _ IH]; [done|]. rewrite create_mono1; [done|]. by rewrite IH.
Qed.

Lemma create_agree h h' m p r r' : resolveCreate_hops h m p = r → resolveCreate_hops h' m p = r' →
  r ≠ Err (ESent ErrTooManySymlinks) → r' ≠ Err (ESent ErrTooManySymlinks) → r = r'.
Proof.
  intros <- <- Hr Hr'. destruct (Nat.le_ge_cases h h') as [Hle|Hle].
  - by rewrite (create_mono h h').
  - by rewrite (create_mono h' h).
Qed.

(** ** [resolveAbsLocked] against [resolveCreatePathLocked] *)

(** What the answer of the first says about the answer of the second. *)
Definition agrees (m : MemoryFS) (r : result error (gostr * option loc)) (c : result error gostr) : Prop :=
  match r with
  | Ok (q, _) => c = Ok q
  | Err (ESent ErrNotExist) => ∃ q, c = Ok q ∧ nodes m !! q = None
  | Err e => c = Err e
  end.

Lemma abs_walk_agrees m follow root followc abs am n cs rs : wf m →
  (∀ t, clean_abs t → agrees m (follow t) (followc t)) →
  valid_comps cs → valid_comps rs → rs ≠ [] → (length rs ≤ n)%nat → dir_at m cs →
  agrees m (abs_walk m follow root true am n (render cs) (join [slash] rs))
    (create_walk m followc abs n (render cs) (join [slash] rs)).
Proof.
  intros Hwf Hf. revert cs rs. induction n as [|n IH]; intros cs rs Hcs Hrs Hne Hn Hd;
    (destruct rs as [|c rs]; [done|]); [simpl in Hn; lia|].
  rewrite abs_walk_cons, create_walk_cons by done. pose proof Hrs as [Hc Hrs']%Forall_cons_1.
  assert (valid_comps (cs ++ [c])) as Hv by (by apply valid_comps_snoc).
  assert (valid_comps (cs ++ c :: rs)) as Hv' by (by apply Forall_app).
  destruct (nodes m !! render (cs ++ [c])) as [l|] eqn:El.
  - destruct (wf_key m Hwf _ _ El) as [_ [nd En]]. rewrite En.
    destruct (isSymlink nd) eqn:Es; cbn [andb].
    { rewrite orb_true_r. by apply Hf, link_target_clean. }
    case_bool_decide; [done|]. destruct (mode_IsDir (n_mode nd)) eqn:Ed; cbn [negb]; [|done].
    apply IH; [done..|simpl in Hn; lia|]. by exists l, nd.
  - assert (∃ q, (Ok (render (cs ++ c :: rs)) : result error gostr) = Ok q ∧ nodes m !! q = None) as Hq
      by (eexists; split; [done|by apply unbound_below]).
    case_bool_decide as E; [subst rs; by destruct am|done].
Qed.

Lemma resolve_agrees h m p am : wf m →
  agrees m (resolveAbs_hops h m p true am) (resolveCreate_hops h m p).
Proof.
  intros Hwf. revert p. induction h as [|h IH]; intros p; [done|].
  rewrite resolveAbs_hops_S, resolveCreate_hops_S. cbv zeta.
  destruct (wf_root m Hwf) as (l&n&Hl&Hn&Hd). change root_path with (render []). rewrite Hl.
  pose proof (comps_valid p) as Hv. destruct (comps p) as [|c cs] eqn:E; [done|].
  apply abs_walk_agrees; [done|intros; apply IH|constructor|done|done| |by exists l, n].
  by apply length_render.
Qed.

(** ** One component more *)

(** The resolution of [b] in a directory whose own resolution is [ps]; [follow] continues
    through a link. *)
Definition create_step (m : MemoryFS) (follow : gostr → result error gostr) (ps : list gostr) (b : gostr)
  : result error gostr :=
  match nodes m !! render ps ≫= (heap m !!.) with
  | Some nd =>
      if negb (mode_IsDir (n_mode nd)) then Err (ESent ErrInvalid)
      else match nodes m !! render (ps ++ [b]) ≫= (heap m !!.) with
      | Some nd' =>
          if isSymlink nd' then follow (Resolve (render ps) (n_target nd'))
          else Ok (render (ps ++ [b]))
      | None => Ok (render (ps ++ [b]))
      end
  | None => Ok (render (ps ++ [b]))
  end.

(** How the resolution [r' k] of [dir/b] depends on the resolution [r] of [dir], with [k] more
    links allowed. *)
Definition one_more (m : MemoryFS) (b : gostr) (r : result error gostr)
    (r' : nat → result error gostr) : Prop :=
  match r with
  | Err e => r' 0%nat = Err e
  | Ok q => ∃ ps h', valid_comps ps ∧ q = render ps ∧
      ∀ k, r' k = create_step m (resolveCreate_hops (h' + k) m) ps b
  end.

Lemma link_target_snoc cs rs t b : valid_comps cs → valid_comps rs → valid_comp b →
  ∃ xs, valid_comps xs ∧ link_target cs rs t = render xs ∧ link_target cs (rs ++ [b]) t = render (xs ++ [b]).
Proof.
  intros Hcs Hrs Hb. unfold link_target. cbv zeta.
  destruct (Resolve_clean_abs (render cs) t) as (ts&Hts&->); [by exists cs|].
  rewrite (bool_decide_eq_false_2 (rs ++ [b] = [])) by (by destruct rs).
  assert (valid_comps (rs ++ [b])) as Hrb by (by apply valid_comps_snoc).
  case_bool_decide as E.
  - subst rs. exists ts. split_and!; [done..|]. by apply (Resolve_join ts [b]).
  - exists (ts ++ rs). rewrite !Resolve_join by done. split_and!; [by apply Forall_app|done|].
    by rewrite (assoc_L (++)).
Qed.

Lemma create_walk_last m f abs n cs b : wf m → valid_comps cs → valid_comp b → dir_at m cs →
  create_walk m f abs (S n) (render cs) (join [slash] [b]) = create_step m f cs b.
Proof.
  intros Hwf Hcs Hb (l&nd&Hl&Hn&Hd).
  rewrite create_walk_cons by (done || by apply Forall_singleton). unfold create_step.
  rewrite Hl. cbn [mbind option_bind]. rewrite Hn, Hd. cbn [negb].
  destruct (nodes m !! render (cs ++ [b])) as [l'|] eqn:El; [|done]. cbn [mbind option_bind].
  destruct (wf_key m Hwf _ _ El) as [_ [nd' En]]. rewrite En. done.
Qed.

Lemma create_walk_snoc m h abs abs' n n' cs rs b : wf m →
  (∀ xs, valid_comps xs → one_more m b (resolveCreate_hops h m (render xs))
     (fun k => resolveCreate_hops (h + k) m (render (xs ++ [b])))) →
  valid_comps cs → valid_comps rs → valid_comp b → rs ≠ [] → (length rs ≤ n)%nat →
  (length rs < n')%nat → dir_at m cs →
  one_more m b
    (create_walk m (resolveCreate_hops h m) abs n (render cs) (join [slash] rs))
    (fun k => create_walk m (resolveCreate_hops (h + k) m) abs' n' (render cs) (join [slash] (rs ++ [b]))).
Proof.
  intros Hwf Hf. revert n' cs rs. induction n as [|n IH]; intros n' cs rs Hcs Hrs Hb Hne Hn Hn' Hd;
    (destruct rs as [|c rs]; [done|]); [simpl in Hn; lia|].
  destruct n' as [|n']; [simpl in Hn'; lia|].
  pose proof Hrs as [Hc Hrs']%Forall_cons_1.
  assert (valid_comps (cs ++ [c])) as Hv by (by apply valid_comps_snoc).
  assert (valid_comps (rs ++ [b])) as Hrb by (by apply valid_comps_snoc).
  assert (valid_comps (c :: (rs ++ [b]))) as Hcrb by (by apply Forall_cons).
  assert (∀ k, create_walk m (resolveCreate_hops (h + k) m) abs' (S n') (render cs)
    (join [slash] ((c :: rs) ++ [b])) = _) as Hk
    by (intros k; apply (create_walk_cons _ _ _ _ _ c (rs ++ [b])); done).
  rewrite (bool_decide_eq_false_2 (rs ++ [b] = [])) in Hk by (by destruct rs).
  rewrite create_walk_cons by done.
  destruct (nodes m !! render (cs ++ [c])) as [l|] eqn:El.
  - destruct (wf_key m Hwf _ _ El) as [_ [nd En]]. rewrite En in *.
    destruct (isSymlink nd) eqn:Es.
    { destruct (link_target_snoc cs rs (n_target nd) b) as (xs&Hxs&Hx1&Hx2); [done..|].
      rewrite Hx1. rewrite Hx2 in Hk. specialize (Hf xs Hxs).
      unfold one_more in *. destruct (resolveCreate_hops h m (render xs)); [|by rewrite Hk].
      destruct Hf as (ps&h'&?&?&Hr). exists ps, h'. split_and!; [done..|].
      intros k. by rewrite Hk, Hr. }
    destruct (mode_IsDir (n_mode nd)) eqn:Ed.
    + assert (dir_at m (cs ++ [c])) as Hd' by (by exists l, nd). cbn [negb] in *.
      case_bool_decide as Ers; [subst rs|].
      * exists (cs ++ [c]), h. split_and!; [done..|]. intros k. rewrite Hk.
        destruct n' as [|n']; [simpl in Hn'; lia|]. by apply create_walk_last.
      * specialize (IH n' (cs ++ [c]) rs). unfold one_more in *.
        destruct (create_walk m _ _ n _ _); [|rewrite Hk; apply IH; try done; simpl in *; lia].
        destruct IH as (ps&h'&?&?&Hr); [done..|simpl in *; lia|simpl in *; lia|done|].
        exists ps, h'. split_and!; [done..|]. intros k. by rewrite Hk, Hr.
    + cbn [negb] in *. case_bool_decide as Ers; [|by unfold one_more; rewrite Hk].
      exists (cs ++ [c]), h. split_and!; [done..|]. intros k. rewrite Hk.
      unfold create_step. rewrite El. cbn [mbind option_bind]. by rewrite En, Ed.
  - exists (cs ++ c :: rs), h. split_and!; [by apply Forall_app|done|]. intros k. rewrite Hk.
    unfold create_step. rewrite unbound_below; [|done|by apply Forall_app|done].
    cbn [mbind option_bind]. f_equal. by rewrite <- (assoc_L (++)).
Qed.

Lemma create_snoc h m ts b : wf m → valid_comps ts → valid_comp b →
  one_more m b (resolveCreate_hops h m (render ts))
    (fun k => resolveCreate_hops (h + k) m (render (ts ++ [b]))).
Proof.
  intros Hwf. revert ts. induction h as [|h IH]; intros ts Hts Hb; [done|].
  assert (valid_comps (ts ++ [b])) as Htb by (by apply valid_comps_snoc).
  pose proof (wf_root m Hwf) as Hd.
  assert (∀ k, resolveCreate_hops (S h + k) m (render (ts ++ [b])) =
    create_walk m (resolveCreate_hops (h + k) m) (render (ts ++ [b])) (length (render (ts ++ [b])))
      (render []) (join [slash] (ts ++ [b]))) as Hk.
  { intros k. change (S h + k)%nat with (S (h + k)). rewrite resolveCreate_hops_S, comps_render by done.
    by destruct (ts ++ [b]) eqn:E; [destruct ts|]. }
  pose proof (length_render _ Htb) as Hlen. rewrite length_app in Hlen. simpl in Hlen.
  rewrite resolveCreate_hops_S, comps_render by done.
  assert (one_more m b
    match ts with
    | [] => Ok root_path
    | _ => create_walk m (resolveCreate_hops h m) (render ts) (length (render ts)) (render []) (join [slash] ts)
    end
    (fun k => create_walk m (resolveCreate_hops (h + k) m) (render (ts ++ [b])) (length (render (ts ++ [b])))
      (render []) (join [slash] (ts ++ [b])))) as H.
  - destruct ts as [|t ts].
    + exists [], h. split_and!; [constructor|done|]. intros k. cbn [app].
      destruct (length (render ([] ++ [b]))) as [|n] eqn:E; [simpl in *; lia|].
      by apply create_walk_last.
    + apply create_walk_snoc; [done|by intros; apply IH|constructor|done..| | |done].
      * by apply length_render.
      * simpl in *; lia.
  - unfold one_more in *. destruct (match ts with [] => _ | _ => _ end); [|by rewrite Hk].
    destruct H as (ps&h'&?&?&Hr). exists ps, h'. split_and!; [done..|]. intros k. by rewrite Hk, Hr.
Qed.

(** ** The entry itself, without following it *)

Definition entry_step (m : MemoryFS) (ps : list gostr) (b : gostr) : result error (gostr * option loc) :=
  match nodes m !! render ps ≫= (heap m !!.) with
  | Some nd =>
      if negb (mode_IsDir (n_mode nd)) then Err (ESent ErrInvalid)
      else match nodes m !! render (ps ++ [b]) with
      | Some l => Ok (render (ps ++ [b]), Some l)
      | None => Err (ESent ErrNotExist)
      end
  | None => Err (ESent ErrNotExist)
  end.

Lemma abs_walk_entry m follow root n cs rs b : wf m →
  valid_comps cs → valid_comps rs → valid_comp b → (length rs < n)%nat → dir_at m cs →
  landing m (cs ++ rs) →
  abs_walk m follow root false false n (render cs) (join [slash] (rs ++ [b])) =
  entry_step m (cs ++ rs) b.
Proof.
  intros Hwf. revert n cs. induction rs as [|c rs IH]; intros n cs Hcs Hrs Hb Hn Hd Hland;
    (destruct n as [|n]; [simpl in Hn; lia|]).
  - destruct Hd as (l&nd&Hl&Hnd&Hdir). cbn [app].
    rewrite abs_walk_cons, app_nil_r by (done || by apply Forall_singleton).
    unfold entry_step. rewrite Hl. cbn [mbind option_bind]. rewrite Hnd, Hdir. cbn [negb].
    rewrite bool_decide_eq_true_2 by done. cbn [negb orb andb].
    destruct (nodes m !! render (cs ++ [b])) as [l'|] eqn:El; [|done].
    destruct (wf_key m Hwf _ _ El) as [_ [nd' En]]. by rewrite En, andb_false_r.
  - pose proof Hrs as [Hc Hrs']%Forall_cons_1.
    assert (valid_comps (cs ++ [c])) as Hv by (by apply valid_comps_snoc).
    assert (valid_comps ((cs ++ [c]) ++ rs)) as Hv' by (by apply Forall_app).
    assert (valid_comps (rs ++ [b])) as Hrb by (by apply valid_comps_snoc).
    assert ((cs ++ [c]) ++ rs = cs ++ c :: rs) as Happ by (by rewrite <- (assoc_L (++))).
    change ((c :: rs) ++ [b]) with (c :: (rs ++ [b])).
    rewrite abs_walk_cons by (try done; by apply Forall_cons).
    rewrite (bool_decide_eq_false_2 (rs ++ [b] = [])) by (by destruct rs).
    rewrite <- Happ in *.
    destruct (nodes m !! render (cs ++ [c])) as [l|] eqn:El.
    + destruct (wf_key m Hwf _ _ El) as [_ [nd En]]. rewrite En.
      assert (isSymlink nd = false) as Hs.
      { destruct rs as [|r rs]; [rewrite app_nil_r in Hland; by eapply Hland|].
        destruct Hland as [Hdir _].
        apply (wf_kind m Hwf l nd En). by eapply (Hdir (cs ++ [c]) r rs). }
      rewrite Hs. cbn [andb]. destruct (mode_IsDir (n_mode nd)) eqn:Ed; cbn [negb].
      * apply IH; [done..|simpl in Hn; lia|by exists l, nd|done].
      * destruct rs as [|r rs].
        { unfold entry_step. rewrite app_nil_r, El. cbn [mbind option_bind]. by rewrite En, Ed. }
        destruct Hland as [Hdir _]. exfalso.
        rewrite (Hdir (cs ++ [c]) r rs l nd) in Ed; done.
    + cbn [andb]. unfold entry_step.
      assert (nodes m !! render ((cs ++ [c]) ++ rs) = None) as ->; [|done].
      rewrite Happ. rewrite Happ in Hv'. by apply unbound_below.
Qed.

(** The resolution of [b] in a resolved directory, as [Lstat] and [Readlink] do it. *)
Lemma resolve_entry h m ps b : wf m → valid_comps ps → valid_comp b → landing m ps →
  resolveAbs_hops (S h) m (render (ps ++ [b])) false false = entry_step m ps b.
Proof.
  intros Hwf Hps Hb Hland. assert (valid_comps (ps ++ [b])) as Hpb by (by apply valid_comps_snoc).
  rewrite resolveAbs_hops_S, comps_render by done. cbv zeta.
  pose proof (length_render _ Hpb) as Hlen. rewrite length_app in Hlen. simpl in Hlen.
  pose proof (abs_walk_entry m (fun t => resolveAbs_hops h m t true false)
    match nodes m !! root_path with None => Err (ESent ErrNotExist) | Some l => Ok (root_path, Some l) end
    (length (render (ps ++ [b]))) [] ps b Hwf) as H.
  destruct (ps ++ [b]) as [|x xs] eqn:E; [by destruct ps|]. apply H; [constructor|done..|lia|apply Hwf|done].
Qed.
