(* ===== verification/Confinement.v ===== *)
(** The path policy over the in-memory filesystem: the check of [policy/pathcheck.go] predicts
    where the filesystem's own resolution ends, so an operation it allows stays inside the roots,
    whatever symbolic links there are. *)
From S2P Require Import Prelude GoPath FsTypes Policy MemoryFS MemoryFSWf MemoryFSInv MemoryFSTree.
From S2P Require Import MemoryFSOps MemoryFSMove MemoryFSSafe MemoryFSProps MemoryFSResolve.

Section memory.
Variable provider : nat → result error gostr.
Hypothesis provider_total : ∀ p, provider p ≠ Err EPanic.

(** [MemoryFS] as the filesystem of a path check. *)
Definition memory_PathFS : PathFS MemoryFS := {|
  fs_Realpath m p := (Realpath p m).1;
  fs_Lstat m p := let '(r, m') := Lstat provider p m in (fi_mode <$> r, m');
  fs_Readlink m p := (Readlink p m).1;
|}.
#[local] Existing Instance memory_PathFS.

(** ** The three reads *)

Lemma Resolve_clean m cs : valid_comps cs → Resolve (cwd m) (render cs) = render cs.
Proof. intros H. rewrite Resolve_abs by apply render_abs. by rewrite comps_render. Qed.

Lemma resolve_clean m cs ff am : valid_comps cs →
  resolvePathLocked m (render cs) ff am = resolveAbs_hops (S maxSymlinkDepth) m (render cs) ff am.
Proof. intros H. unfold resolvePathLocked, resolveAbsLocked. by rewrite Resolve_clean. Qed.

(** [Realpath] answers as [resolveCreatePathLocked] does, or says why it cannot. *)
Lemma Realpath_cases m ts : wf m → valid_comps ts →
  match fs_Realpath m (render ts) with
  | Ok q => clean_abs q ∧ resolveCreate_hops (S maxSymlinkDepth) m (render ts) = Ok q
  | Err e => ∃ x, e = EPath (go "realpath") (render ts) (ESent x) ∧
      ((x = ErrNotExist ∧ ∃ q, resolveCreate_hops (S maxSymlinkDepth) m (render ts) = Ok q ∧
          nodes m !! q = None) ∨
       (x = ErrInvalid ∧ resolveCreate_hops (S maxSymlinkDepth) m (render ts) = Err (ESent ErrInvalid)) ∨
       x = ErrTooManySymlinks)
  end.
Proof.
  intros Hwf Hts. cbn [fs_Realpath memory_PathFS]. unfold Realpath, get, resolve_existing, mbind, M_bind.
  rewrite resolve_clean, Resolve_clean by done.
  pose proof (resolve_agrees (S maxSymlinkDepth) m (render ts) false Hwf) as Ha.
  pose proof (resolveAbs_hops_spec (S maxSymlinkDepth) m (render ts) true false Hwf) as Hs.
  destruct (resolveAbs_hops _ _ _ _ _) as [[q [l|]]|e]; unfold agrees, abs_result in *.
  - split; [|done]. destruct Hs as [Hl _]. by eapply (wf_key m Hwf).
  - by destruct Hs.
  - destruct Hs as [->|[->| ->]]; (eexists; split; [reflexivity|]); auto.
Qed.

Lemma Lstat_cases m xs r m' : wf m → valid_comps xs →
  fs_Lstat m (render xs) = (r, m') →
  wf m' ∧ same_view m m' ∧
  match r with
  | Ok md => ∃ p l n, resolveAbs_hops (S maxSymlinkDepth) m (render xs) false false = Ok (p, Some l) ∧
      heap m !! l = Some n ∧ md = n_mode n
  | Err e =>
      (∃ e', resolveAbs_hops (S maxSymlinkDepth) m (render xs) false false = Err e' ∧
         e = EPath (go "lstat") (render xs) e') ∨
      (∃ p l n, resolveAbs_hops (S maxSymlinkDepth) m (render xs) false false = Ok (p, Some l) ∧
         heap m !! l = Some n ∧ isLazyFileNode n = true)
  end.
Proof using provider_total.
  intros Hwf Hxs. cbn [fs_Lstat memory_PathFS]. unfold Lstat, stat_path, get, mbind, M_bind, attempt.
  rewrite Resolve_clean by done.
  unfold materializePath, resolve_existing, mbind, M_bind. rewrite resolve_clean by done.
  pose proof (resolveAbs_hops_spec (S maxSymlinkDepth) m (render xs) false false Hwf) as Hs.
  destruct (resolveAbs_hops _ _ _ _ _) as [[q [l|]]|e]; unfold abs_result in Hs.
  - destruct Hs as [Hl _]. destruct (wf_key m Hwf _ _ Hl) as [_ [n Hn]].
    unfold lift, load at 1. rewrite Hn.
    destruct (negb (isLazyFileNode n) || _) eqn:El.
    + unfold mret, M_ret. rewrite Hl. unfold load. rewrite Hn. intros [= <- <-].
      split_and!; [done..|]. by exists q, l, n.
    + apply orb_false_iff in El as [El _]. apply negb_false_iff in El.
      pose proof (wp_materializeNode provider provider_total l n m Hwf Hn) as Hm. unfold wp in Hm.
      rewrite (materializeNode_eq provider l n m Hn) in *.
      destruct (content provider n) as [data|e].
      * rewrite El in *. destruct Hm as (Hwf'&Hsv&_). unfold mret, M_ret. cbn [nodes set_heap].
        rewrite Hl. unfold load. cbn [heap set_heap]. rewrite lookup_insert_eq.
        intros [= <- <-]. split_and!; [done..|]. by exists q, l, n.
      * intros [= <- <-]. split_and!; [done..|]. right. by exists q, l, n.
  - by destruct Hs.
  - intros [= <- <-]. split_and!; [done..|]. left. by eexists.
Qed.

Lemma Readlink_entry m xs l n : wf m → valid_comps xs → nodes m !! render xs = Some l →
  heap m !! l = Some n → isSymlink n = true → fs_Readlink m (render xs) = Ok (n_target n).
Proof.
  intros Hwf Hxs Hl Hn Hs. cbn [fs_Readlink memory_PathFS]. unfold Readlink, get, resolve_existing, mbind, M_bind.
  rewrite resolve_clean by done. erewrite resolveAbs_physical; [|done|by exists xs|done..].
  unfold load. by rewrite Hn, Hs.
Qed.

(** Where a link read in the directory [ps] leads. *)
Lemma next_Resolve ps t : valid_comps ps →
  render (comps (if path_IsAbs t then t else path_Join (render ps) t)) = Resolve (render ps) t.
Proof.
  intros Hps. unfold path_IsAbs. destruct (has_prefix root_path t) eqn:E.
  { by rewrite Resolve_abs. }
  unfold Resolve, path_Join. rewrite E. destruct (render_head ps) as [x Hx]. rewrite Hx.
  destruct t as [|c t]; [by rewrite path_Clean_rooted, Clean_comps, comps_render by apply comps_valid|].
  by rewrite Clean_comps.
Qed.

(** ** [resolveMaybeMissing] finds where the filesystem would create *)

(** The path is where creation lands. *)
Definition lands (m : MemoryFS) (ts : list gostr) (r : result error gostr) : Prop :=
  match r with
  | Ok q => ∃ h, resolveCreate_hops h m (render ts) = Ok q
  | Err e => errors_Is e ErrNotExist || errors_Is e ErrInvalid = true →
      ∀ h q, resolveCreate_hops h m (render ts) ≠ Ok q
  end.

Lemma lands_view m m' ts r : same_view m m' → lands m' ts r → lands m ts r.
Proof.
  intros Hsv. destruct r as [q|e]; simpl.
  - intros [h Hh]. exists h. by rewrite <- (resolveCreate_view m m').
  - intros H He h q. rewrite <- (resolveCreate_view m m' h _ Hsv). by apply H.
Qed.

Lemma create_Ok_le h k m p q : resolveCreate_hops h m p = Ok q → resolveCreate_hops (h + k) m p = Ok q.
Proof. intros H. rewrite (create_mono h (h + k)); [done|lia|by rewrite H]. Qed.

Lemma create_det h h' m p q q' : resolveCreate_hops h m p = Ok q → resolveCreate_hops h' m p = Ok q' → q = q'.
Proof.
  intros H H'. assert ((Ok q : result error gostr) = Ok q') as E; [|by injection E].
  by eapply (create_agree h h').
Qed.

(** A parent that cannot be resolved. *)
Lemma lands_parent_err m ds b e : wf m → valid_comps ds → valid_comp b →
  lands m ds (Err e) → lands m (ds ++ [b]) (Err e).
Proof.
  intros Hwf Hds Hb Hl He h q Hq. specialize (Hl He).
  pose proof (create_snoc h m ds b Hwf Hds Hb) as Ho. unfold one_more in Ho.
  destruct (resolveCreate_hops h m (render ds)) as [q'|e'] eqn:E; [by eapply Hl|].
  rewrite Nat.add_0_r in Ho. congruence.
Qed.

(** One component: from the resolution of the directory to that of the entry. *)
Lemma lands_step m ds b h P : wf m → valid_comps ds → valid_comp b →
  resolveCreate_hops h m (render ds) = Ok P →
  ∃ ps h0, valid_comps ps ∧ P = render ps ∧ landing m ps ∧
    ∀ k, resolveCreate_hops (h + k) m (render (ds ++ [b])) =
      create_step m (resolveCreate_hops (h0 + k) m) ps b.
Proof.
  intros Hwf Hds Hb HP. pose proof (create_snoc h m ds b Hwf Hds Hb) as Ho. unfold one_more in Ho.
  rewrite HP in Ho. destruct Ho as (ps&h0&Hps&->&Hk). exists ps, h0. split_and!; [done..| |done].
  destruct (create_lands _ _ _ _ Hwf HP) as (qs&Hqs&E&Hl). by apply render_inj in E as ->.
Qed.

(** The branch of [resolveMaybeMissing] after the parent is resolved to [ps]. *)
Definition after_parent (h : nat) (m : MemoryFS) (ps : list gostr) (b : gostr)
  : result error gostr * MemoryFS :=
  let candidate := render (ps ++ [b]) in
  match fs_Lstat m candidate with
  | (Err err, s) => if errors_Is err ErrNotExist then (Ok candidate, s) else (Err err, s)
  | (Ok mode, s) =>
      if negb (has_bits mode ModeSymlink) then (Ok candidate, s)
      else match fs_Readlink s candidate with
      | Err err => (Err err, s)
      | Ok linkTarget =>
          let next := if path_IsAbs linkTarget then linkTarget else path_Join (render ps) linkTarget in
          resolve_hops h (length (comps next)) s next true
      end
  end.

Definition hops_ok (h : nat) : Prop := ∀ n m target r m', wf m →
  resolve_hops h n m target true = (r, m') →
  wf m' ∧ same_view m m' ∧ lands m (comps target) r.

Lemma entry_step_bound m ps b q l : entry_step m ps b = Ok (q, Some l) →
  q = render (ps ++ [b]) ∧ nodes m !! render (ps ++ [b]) = Some l ∧
  ∃ nd, nodes m !! render ps ≫= (heap m !!.) = Some nd ∧ mode_IsDir (n_mode nd) = true.
Proof.
  unfold entry_step. destruct (nodes m !! render ps ≫= _) as [nd|]; [|done].
  destruct (mode_IsDir (n_mode nd)) eqn:Ed; [|done]. cbn [negb].
  destruct (nodes m !! render (ps ++ [b])); [|done]. intros [= <- <-]. eauto.
Qed.

Lemma create_step_bound m f ps b q l n : entry_step m ps b = Ok (q, Some l) → heap m !! l = Some n →
  create_step m f ps b =
  if isSymlink n then f (Resolve (render ps) (n_target n)) else Ok (render (ps ++ [b])).
Proof.
  intros (_&Hl&nd&Hnd&Hd)%entry_step_bound Hn. unfold create_step. rewrite Hnd, Hd, Hl.
  cbn [negb mbind option_bind]. by rewrite Hn.
Qed.

Lemma after_parent_ok h m ds b H0 ps h0 : hops_ok h → wf m →
  valid_comps ds → valid_comp b → valid_comps ps → landing m ps →
  (∀ k, resolveCreate_hops (H0 + k) m (render (ds ++ [b])) =
      create_step m (resolveCreate_hops (h0 + k) m) ps b) →
  (∃ q, resolveCreate_hops (S maxSymlinkDepth) m (render (ds ++ [b])) = Ok q ∧ nodes m !! q = None) →
  ∀ r m', after_parent h m ps b = (r, m') → wf m' ∧ same_view m m' ∧ lands m (ds ++ [b]) r.
Proof using provider_total.
  intros IH Hwf Hds Hb Hps Hland Hk (q0&Hq0&Hfree) r m'. unfold after_parent.
  assert (valid_comps (ps ++ [b])) as Hpb by (by apply valid_comps_snoc).
  destruct (fs_Lstat m (render (ps ++ [b]))) as [ls m1] eqn:Els.
  destruct (Lstat_cases m _ _ _ Hwf Hpb Els) as (Hwf1&Hsv1&Hls).
  rewrite resolve_entry in Hls by done.
  assert (∀ x, (∀ f, create_step m f ps b = Ok x) → lands m (ds ++ [b]) (Ok x)) as Hsimple.
  { intros x Hx. exists (H0 + 0)%nat. by rewrite Hk. }
  destruct ls as [md|e].
  - destruct Hls as (q&l&n&Hent&Hn&->).
    pose proof (fun f => create_step_bound m f ps b q l n Hent Hn) as Hcs.
    apply entry_step_bound in Hent as (->&Hl&_).
    change (has_bits (n_mode n) ModeSymlink) with (isSymlink n).
    destruct (isSymlink n) eqn:Es; cbn [negb].
    + pose proof (sv_lookup _ _ l Hsv1) as Hv. rewrite Hn in Hv.
      destruct (heap m1 !! l) as [n1|] eqn:Hn1; [|done]. destruct Hv as [Hmd Htg].
      rewrite (Readlink_entry m1 _ l n1); [|done|done|by rewrite (sv_nodes _ _ Hsv1)|done|].
      2: { unfold isSymlink. by rewrite Hmd. }
      rewrite Htg. cbv zeta. intros Hr. apply IH in Hr as (Hwf'&Hsv'&Hlands); [|done].
      split_and!; [done|by etrans|]. apply (lands_view _ _ _ _ Hsv1) in Hlands.
      unfold lands in *. rewrite next_Resolve in Hlands by done.
      destruct r as [q|e].
      * destruct Hlands as [h1 Hh1]. exists (H0 + h1)%nat. rewrite Hk, Hcs.
        rewrite Nat.add_comm. by apply create_Ok_le.
      * intros He h1 q Hq. apply (Hlands He (h0 + h1)%nat q). rewrite <- Hcs, <- Hk, Nat.add_comm.
        by apply create_Ok_le.
    + intros [= <- <-]. split_and!; [done..|]. by apply Hsimple.
  - destruct Hls as [(e'&Hent&->)|(q&l&n&Hent&Hn&Hlz)].
    + cbn [errors_Is].
      assert (e' = ESent ErrNotExist ∧ (∀ f, create_step m f ps b = Ok (render (ps ++ [b]))) ∨
              e' = ESent ErrInvalid ∧ (∀ f, create_step m f ps b = Err (ESent ErrInvalid))) as Hc.
      { unfold entry_step in Hent. unfold create_step. destruct (nodes m !! render ps ≫= _) as [nd|];
          [|left; by simplify_eq]. destruct (mode_IsDir (n_mode nd)); cbn [negb] in *; [|right; by simplify_eq].
        destruct (nodes m !! render (ps ++ [b])); [done|]. left. by simplify_eq. }
      destruct Hc as [[-> Hc]|[-> Hc]].
      * cbn. intros [= <- <-]. split_and!; [done..|]. by apply Hsimple.
      * cbn. intros [= <- <-]. split_and!; [done..|]. intros _ h1 q Hq.
        apply (create_Ok_le _ H0) in Hq. rewrite Nat.add_comm, Hk, Hc in Hq. done.
    + exfalso. pose proof (fun f => create_step_bound m f ps b q l n Hent Hn) as Hcs.
      assert (isSymlink n = false) as Es.
      { unfold isLazyFileNode in Hlz. rewrite andb_true_iff, negb_true_iff in Hlz. by destruct Hlz. }
      rewrite Es in Hcs. apply entry_step_bound in Hent as (->&Hl&_).
      assert (q0 = render (ps ++ [b])) as ->; [|congruence].
      eapply (create_det _ (H0 + 0)); [exact Hq0|]. by rewrite Hk, Hcs.
Qed.

(** The first thing [resolveMaybeMissing] asks: the answer of [Realpath], if it is final. *)
Lemma realpath_lands m ts : wf m → valid_comps ts →
  match fs_Realpath m (render ts) with
  | Ok q => cleanAbs q = q ∧ lands m ts (Ok q)
  | Err e => (errors_Is e ErrNotExist = true ∧ ∃ q,
        resolveCreate_hops (S maxSymlinkDepth) m (render ts) = Ok q ∧ nodes m !! q = None) ∨
      (errors_Is e ErrNotExist = false ∧ lands m ts (Err e))
  end.
Proof.
  intros Hwf Hts. pose proof (Realpath_cases m ts Hwf Hts) as H.
  destruct (fs_Realpath m (render ts)) as [q|e].
  - destruct H as [Hc Hq]. split; [by apply cleanAbs_id|]. by eexists.
  - destruct H as (x&->&[[-> Hm]|[[-> Hi]| ->]]); [by left|right..]; (split; [done|]); [|done].
    intros _ h q Hq. assert ((Ok q : result error gostr) = Err (ESent ErrInvalid)); [|done].
    by eapply create_agree.
Qed.

Lemma resolve_hops_lands h : hops_ok h.
Proof using provider_total.
  induction h as [|h IH].
  { intros n m target r m' Hwf [= <- <-]. split_and!; [done..|]. done. }
  intros n. induction n as [|n IHn]; intros m target r m' Hwf; rewrite resolve_hops_eq; cbv zeta;
    rewrite cleanAbs_Clean, Clean_comps; pose proof (comps_valid target) as Hts;
    pose proof (realpath_lands m (comps target) Hwf Hts) as Hrp;
    destruct (fs_Realpath m (render (comps target))) as [q|e].
  - destruct Hrp as [-> ?]. by intros [= <- <-].
  - destruct Hrp as [[-> _]|[-> Hl]]; [|by intros [= <- <-]]. case_decide as E.
    + intros [= <- <-]. split_and!; [done..|]. exists 1%nat.
      apply render_root_inv in E; [|done]. by rewrite E.
    + intros [= <- <-]. split_and!; [done..|]. done.
  - destruct Hrp as [-> ?]. by intros [= <- <-].
  - destruct Hrp as [[-> Hmiss]|[-> Hl]]; [|by intros [= <- <-]]. case_decide as E.
    { intros [= <- <-]. split_and!; [done..|]. exists 1%nat.
      apply render_root_inv in E; [|done]. by rewrite E. }
    destruct (snoc_of_ne (comps target)) as (ds&b&Hds); [by intros E'; rewrite E' in E|].
    rewrite Hds in *. pose proof Hts as [Hdv Hbv]%valid_comps_snoc.
    assert (comps (path_Dir (render (ds ++ [b]))) = ds) as Hdir.
    { rewrite <- Hds, <- Clean_comps, <- cleanAbs_Clean, comps_path_Dir, Hds.
      by rewrite length_app, Nat.add_sub, take_app_length. }
    destruct (resolve_hops (S h) n m (path_Dir (render (ds ++ [b]))) true) as [pr m1] eqn:Epar.
    apply IHn in Epar as (Hwf1&Hsv1&Hl1); [|done]. rewrite Hdir in Hl1.
    destruct pr as [P|e'].
    + destruct Hl1 as [h1 Hh1]. rewrite <- (resolveCreate_view m m1 _ _ Hsv1) in Hh1.
      destruct (lands_step m1 ds b h1 P Hwf1 Hdv Hbv Hh1) as (ps&h0&Hps&->&Hland&Hk).
      rewrite path_Base_snoc by done. cbn [negb].
      assert (cleanAbs (path_Join (render ps) b) = render (ps ++ [b])) as Hcand.
      { rewrite cleanAbs_Clean, Clean_comps. pose proof (next_Resolve ps b Hps) as Hn.
        assert (valid_comps [b]) as Hvb by (by apply Forall_singleton).
        assert (path_IsAbs b = false) as Hnab by exact (join_not_abs [b] Hvb).
        rewrite Hnab in Hn. rewrite Hn. by apply (Resolve_join ps [b]). }
      rewrite Hcand. intros Hr.
      destruct Hmiss as (q0&Hq0&Hfree).
      rewrite <- (resolveCreate_view m m1 _ _ Hsv1) in Hq0. rewrite <- (sv_nodes _ _ Hsv1) in Hfree.
      destruct (after_parent_ok h m1 ds b h1 ps h0 IH Hwf1 Hdv Hbv Hps Hland Hk
        (ex_intro _ q0 (conj Hq0 Hfree)) r m' Hr) as (Hwf'&Hsv'&Hl').
      split_and!; [done|by etrans|by eapply lands_view].
    + intros [= <- <-]. split_and!; [done..|]. by apply lands_parent_err.
Qed.

(** ** Confinement *)

(** What [CheckPath] has established when it lets a [Static] policy's operation through. *)
Lemma CheckPath_allows cfg m action target m1 : wf m →
  CheckPath (Some (static_policy (NewStatic (Some cfg)))) (Some m) action target = (None, Some m1) →
  within_roots cfg action (cleanAbs target) ∧
  ∃ res, resolveTarget m action (cleanAbs target) = (res, m1) ∧
    match res with
    | (_, _, Some e) => errors_Is e ErrNotExist || errors_Is e ErrInvalid = true
    | (resolved, _, None) => within_roots cfg action resolved
    end.
Proof.
  intros Hwf. unfold CheckPath. cbv zeta. cbn [pol_AllowPath static_policy].
  destruct (AllowPath _ action (cleanAbs target)) as [e|] eqn:Ea; [done|].
  apply AllowPath_within in Ea. intros Hc. split; [done|].
  destruct (resolveTarget m action (cleanAbs target)) as [[[resolved traversed] oe] m2].
  destruct oe as [e|].
  - destruct (errors_Is e ErrNotExist || _) eqn:E; [|done]. simplify_eq. by eexists.
  - destruct (traversed && _); [done|]. case_decide as Hne.
    + simplify_eq. eexists. split; [done|]. by apply AllowPath_within.
    + simplify_eq. by eexists.
Qed.

(** Opening goes where creation lands. *)
Lemma open_target_lands m name flag abs : wf m → open_target m name flag abs →
  resolveCreate_hops (S maxSymlinkDepth) m (Resolve (cwd m) name) = Ok abs.
Proof.
  intros Hwf. unfold open_target, resolveCreatePathLocked, resolvePathLocked, resolveAbsLocked.
  change (S maxSymlinkDepth - 0)%nat with (S maxSymlinkDepth).
  destruct (has_bits flag O_CREATE); [done|]. intros [l Hl].
  pose proof (resolve_agrees (S maxSymlinkDepth) m (Resolve (cwd m) name) false Hwf) as Ha.
  by rewrite Hl in Ha.
Qed.

Lemma Realpath_resolved m ts abs l : valid_comps ts →
  resolvePathLocked m (render ts) true false = Ok (abs, Some l) → fs_Realpath m (render ts) = Ok abs.
Proof.
  intros Hts Hr. cbn [fs_Realpath memory_PathFS]. unfold Realpath, get, resolve_existing, mbind, M_bind.
  by rewrite Hr.
Qed.

(** An open that a check for writing (or, without [O_CREATE], for reading) let through. *)
Lemma open_confined cfg m m1 m' now action target flag perm f : wf m →
  CheckPath (Some (static_policy (NewStatic (Some cfg)))) (Some m) action target = (None, Some m1) →
  action = FileActionWrite ∨ action = FileActionRead ∧ has_bits flag O_CREATE = false →
  OpenFile provider now (cleanAbs target) flag perm m1 = (Ok f, m') →
  within_roots cfg action (open_path f).
Proof using provider_total.
  intros Hwf Hcheck Ha Hopen.
  destruct (CheckPath_allows cfg m action target m1 Hwf Hcheck) as (_&res&Hres&Hin).
  rewrite cleanAbs_Clean, Clean_comps in *. set (ts := comps target) in *.
  assert (valid_comps ts) as Hts by apply comps_valid.
  assert (wf m1 → ∃ abs, open_target m1 (render ts) flag abs ∧ open_path f = abs ∧
    resolveCreate_hops (S maxSymlinkDepth) m1 (render ts) = Ok abs) as Hop.
  { intros Hwf1. pose proof (OpenFile_spec provider provider_total now (render ts) flag perm m1 Hwf1) as Hs.
    unfold wp in Hs. rewrite Hopen in Hs. destruct Hs as (_&abs&l&Ht&_&Ho&_). exists abs.
    split_and!; [done|by eapply opened_path|]. apply open_target_lands in Ht; [|done].
    by rewrite Resolve_clean in Ht. }
  destruct Ha as [->|[-> Hflag]]; unfold resolveTarget in Hres; cbv zeta in Hres.
  - rewrite decide_False, decide_False, decide_True in Hres by set_solver.
    unfold resolveMaybeMissing in Hres.
    destruct (resolve_hops _ _ m (render ts) true) as [r m2] eqn:Er.
    apply resolve_hops_lands in Er as (Hwf2&Hsv&Hl); [|done]. rewrite comps_render in Hl by done.
    destruct r as [q|e]; injection Hres as <- <-; destruct (Hop Hwf2) as (abs&_&->&Hc);
      rewrite (resolveCreate_view m m2 _ _ Hsv) in Hc.
    + destruct Hl as [h Hh]. by rewrite (create_det _ _ _ _ _ _ Hc Hh).
    + by destruct (Hl Hin _ _ Hc).
  - rewrite decide_True in Hres by set_solver.
    pose proof (realpath_lands m ts Hwf Hts) as Hrp.
    destruct (fs_Realpath m (render ts)) as [q|e] eqn:Eq.
    + destruct Hrp as [Hq [h Hh]]. injection Hres as <- <-. destruct (Hop Hwf) as (abs&_&->&Hc).
      rewrite Hq in Hin. by rewrite (create_det _ _ _ _ _ _ Hc Hh).
    + injection Hres as _ <-. destruct (Hop Hwf) as (abs&Ht&_).
      unfold open_target in Ht. rewrite Hflag in Ht. destruct Ht as [l Hl].
      apply Realpath_resolved in Hl; [|done]. congruence.
Qed.
End memory.

(** C1: the path policy confines the filesystem.  When [CheckPath] with a [Static] policy lets a
    write (or a read) of a path through, a file that [MemoryFS.OpenFile] then opens at that path
    (creating it or not for a write; without [O_CREATE] for a read) lies, after all links are
    followed, inside the configured write (or read) roots. *)
Theorem CheckPath_confines_open cfg provider now m m1 m' action target flag perm f :
  wf m → (∀ p, provider p ≠ Err EPanic) →
  @CheckPath MemoryFS (memory_PathFS provider) (Some (static_policy (NewStatic (Some cfg)))) (Some m)
    action target = (None, Some m1) →
  action = FileActionWrite ∨ action = FileActionRead ∧ has_bits flag O_CREATE = false →
  OpenFile provider now (cleanAbs target) flag perm m1 = (Ok f, m') →
  within_roots cfg action (open_path f).
Proof. intros Hwf Hp. by apply open_confined. Qed.

(** C4: the resolution of the policy check is the resolution of the filesystem: whenever
    [resolveMaybeMissing] answers, and [resolveCreatePathLocked] answers, they answer the same
    path; and when [resolveMaybeMissing] says that the path does not exist or is invalid, nothing
    can be created there. *)
Theorem resolveMaybeMissing_agrees provider m target r m1 : wf m → (∀ p, provider p ≠ Err EPanic) →
  @resolveMaybeMissing MemoryFS (memory_PathFS provider) m target true 0 = (r, m1) →
  match r with
  | Ok q => ∀ q', resolveCreatePathLocked m (Clean target) 0 = Ok q' → q = q'
  | Err e => errors_Is e ErrNotExist || errors_Is e ErrInvalid = true →
      ∀ q', resolveCreatePathLocked m (Clean target) 0 ≠ Ok q'
  end.
Proof.
  intros Hwf Hp Hr. apply resolve_hops_lands in Hr as (_&_&Hl); [|done..].
  rewrite Clean_comps. destruct r as [q|e].
  - destruct Hl as [h Hh]. intros q' Hq'. by eapply create_det.
  - intros He q'. by apply Hl.
Qed.

(** [resolveMaybeMissing] always answers: its recursion on [path.Dir] ends at "/" and the
    number of links it follows is bounded, so the counters of the model are never exhausted, over
    any filesystem whose own calls do not report exhaustion. *)
Theorem resolveMaybeMissing_terminates {FS} (fsys : PathFS FS) s target followFinal s' :
  (∀ s p, fs_Realpath s p ≠ Err (ESent ErrFuel)) →
  (∀ s p, (fs_Lstat s p).1 ≠ Err (ESent ErrFuel)) →
  (∀ s p, fs_Readlink s p ≠ Err (ESent ErrFuel)) →
  resolveMaybeMissing s target followFinal 0 ≠ (Err (ESent ErrFuel), s').
Proof. intros H1 H2 H3. by apply resolve_hops_fuel. Qed.

(** A [Static] policy allows exactly the paths inside its roots: with no configured root every
    path, otherwise those with one of the roots as a prefix of their components ("/ab" is not
    inside "/a"); the write roots govern write, mkdir, remove and rename, the read roots the
    rest. *)
Theorem AllowPath_exact cfg action target :
  AllowPath (NewStatic (Some cfg)) action target = None ↔ within_roots cfg action target.
Proof. apply AllowPath_within. Qed.
