(* ===== verification/MemoryFSExamples.v ===== *)
(** Concrete filesystems, on which the theorems of the in-memory filesystem and of the path policy
    are applied. *)
From S2P Require Import Prelude GoPath FsTypes Policy MemoryFS MemoryFSWf MemoryFSInv MemoryFSTree.
From S2P Require Import MemoryFSOps MemoryFSMove MemoryFSSafe MemoryFSProps MemoryFSResolve Confinement.

(** No lazy files. *)
Definition no_lazy (p : nat) : result error gostr := Err (EForeign 0).

Lemma no_lazy_total p : no_lazy p ≠ Err EPanic.
Proof. done. Qed.

(** A workspace with a directory of files, a hard link, a link to a missing file and a link out
    of the workspace. *)
Definition demo_ops : list fs_op := [
  OpMkdirAll (go "/w/d/e") 493;
  OpOpenFile (go "/w/d/f") (N.lor O_RDWR O_CREATE) 420;
  OpWrite 0 (go "hello");
  OpLink (go "/w/d/f") (go "/w/g");
  OpSymlink (go "new.txt") (go "/w/l");
  OpSymlink (go "/etc") (go "/w/out");
  OpMkdirAll (go "/etc") 493
].

Definition run_ops (ops : list fs_op) (c : fs_config) : fs_config :=
  foldl (fun c o => (run_op no_lazy 7 o c).2) c ops.

Definition demo : fs_config := run_ops demo_ops (init_config (NewMemory 1)).
Definition demo_fs : MemoryFS := fc_fs demo.

Lemma run_ops_reachable ops c : rtc fs_step c (run_ops ops c).
Proof.
  revert c. induction ops as [|o ops IH]; intros c; [reflexivity|].
  eapply rtc_l; [|apply IH].
  apply (FsStep _ _ no_lazy 7 o (run_op no_lazy 7 o c).1); [apply no_lazy_total|].
  by destruct (run_op no_lazy 7 o c).
Qed.

Lemma demo_reachable : rtc fs_step (init_config (NewMemory 1)) demo.
Proof. apply run_ops_reachable. Qed.

(** The result of a call whose outcome is known. *)
Lemma call_eq {A} (c : M A) m a : (c m).1 = Ok a → c m = (Ok a, (c m).2).
Proof. destruct (c m) as [r m']. simpl. by intros ->. Qed.

Lemma demo_wf : wf demo_fs.
Proof.
  assert (config_ok (init_config (NewMemory 1))) as H0 by (split; [apply fresh_wf|constructor]).
  pose proof (run_op_reachable _ _ H0 demo_reachable) as [H _]. exact H.
Qed.

Lemma memfs_reachable_ok_witness :
  config_ok demo ∧ config_ok (run_op no_lazy 8 (OpRename (go "/w/d") (go "/x")) demo).2.
Proof.
  destruct (run_op no_lazy 8 (OpRename (go "/w/d") (go "/x")) demo) as [r c'] eqn:E.
  destruct (memfs_reachable_ok 1 demo _ no_lazy 8 r c' (or_introl demo_reachable) no_lazy_total E)
    as (H1&_&H2).
  split; assumption.
Defined.

Lemma Realpath_canonical_witness :
  (Realpath (go "/w/./out/../d") demo_fs).1 = Ok (go "/w/d") ∧
  Realpath (go "/w/d") demo_fs = (Ok (go "/w/d"), demo_fs).
Proof.
  assert ((Realpath (go "/w/./out/../d") demo_fs).1 = Ok (go "/w/d")) as H
    by (vm_compute; reflexivity).
  split; [exact H|].
  exact (proj1 (proj2 (Realpath_canonical demo_fs _ _ _ demo_wf (call_eq _ _ _ H)))).
Defined.



Lemma ReadDir_exact_witness : ∃ es,
  (ReadDir (go "/w") demo_fs).1 = Ok es ∧ es.*1 = [go "d"; go "g"; go "l"; go "out"] ∧ increasing es.*1.
Proof.
  set (es := [(go "d", N.lor ModeDir 493); (go "g", 420%N); (go "l", N.lor ModeSymlink 511);
              (go "out", N.lor ModeSymlink 511)]).
  assert ((ReadDir (go "/w") demo_fs).1 = Ok es) as H by (vm_compute; reflexivity).
  destruct (ReadDir_exact demo_fs (go "/w") es _ demo_wf (call_eq _ _ _ H)) as (_&cs&l&_&_&Hs&_).
  exists es. split; [exact H|]. split; [reflexivity|exact Hs].
Defined.

Lemma OpenFile_opens_witness :
  let m' := (OpenFile no_lazy 9 (go "/w/l") (N.lor O_WRONLY (N.lor O_CREATE O_APPEND)) 0 demo_fs).2 in
  wf m' ∧ ∃ abs l, abs = go "/w/new.txt" ∧ nodes m' !! abs = Some l ∧ heap demo_fs !! l = None.
Proof.
  destruct (OpenFile no_lazy 9 (go "/w/l") (N.lor O_WRONLY (N.lor O_CREATE O_APPEND)) 0 demo_fs)
    as [[f|e] m'] eqn:H.
  - destruct (OpenFile_opens demo_fs no_lazy 9 _ _ _ f m' demo_wf no_lazy_total H)
      as (Hwf&abs&l&Ht&Hl&_&Hfresh&_).
    split; [exact Hwf|]. exists abs, l.
    assert (abs = go "/w/new.txt") as ->.
    { assert (resolveCreatePathLocked demo_fs (Resolve (cwd demo_fs) (go "/w/l")) 0 =
        Ok (go "/w/new.txt")) as E by (vm_compute; reflexivity).
      unfold open_target in Ht. change (has_bits _ O_CREATE) with true in Ht. cbv iota in Ht.
      rewrite E in Ht. injection Ht as <-. reflexivity. }
    split; [reflexivity|]. split; [exact Hl|]. apply Hfresh. vm_compute. reflexivity.
  - exfalso. apply (f_equal fst) in H. revert H. vm_compute. discriminate.
Defined.

(** The open handle on "/w/d/f", also known as "/w/g", and its node. *)
Definition demo_file : memoryFile :=
  match fc_files demo !! 0%nat with Some (MemFile f) => f | _ => MkFile [] 1 0 0 true end.
Definition demo_node : memoryNode := default zeroNode (heap demo_fs !! f_node demo_file).
(** A handle on the same node through the hard link, at offset 3. *)
Definition demo_reader : memoryFile :=
  MkFile (go "/w/g") (default 1%positive (nodes demo_fs !! go "/w/g")) O_RDONLY 5 false.

Lemma demo_node_at : heap demo_fs !! f_node demo_file = Some demo_node.
Proof. vm_compute. reflexivity. Qed.

Lemma file_Write_spec_witness : ∃ m' n',
  file_Write no_lazy 9 demo_file (go "abc") demo_fs =
    (Ok (3, MkFile (f_path demo_file) (f_node demo_file) (f_flag demo_file) 8 false), m') ∧
  heap m' !! f_node demo_file = Some n' ∧ content no_lazy n' = Ok (go "helloabc").
Proof.
  destruct (file_Write_spec demo_fs no_lazy 9 demo_file (go "abc") demo_node (go "hello") demo_node_at
    eq_refl eq_refl) as (m'&n'&H1&H2&H3&_); [vm_compute; discriminate|reflexivity|reflexivity|].
  exists m', n'. split; [exact H1|]. split; [exact H2|exact H3].
Defined.

Lemma file_Read_spec_witness : ∃ m',
  file_Read no_lazy (MkFile (go "/w/g") (f_node demo_file) O_RDONLY 1 false) 3 demo_fs =
    (Ok (go "ell", MkFile (go "/w/g") (f_node demo_file) O_RDONLY 4 false), m') ∧
  nodes m' = nodes demo_fs.
Proof.
  destruct (file_Read_spec demo_fs no_lazy (MkFile (go "/w/g") (f_node demo_file) O_RDONLY 1 false) 3
    demo_node (go "hello") demo_node_at eq_refl eq_refl) as (m'&H1&_&H3);
    [vm_compute; discriminate|reflexivity|reflexivity|].
  exists m'. split; [exact H3|exact H1].
Defined.

Lemma write_then_read_witness :
  let m' := (file_Write no_lazy 9 demo_file (go "abc") demo_fs).2 in
  f_node demo_reader = f_node demo_file ∧
  file_Read no_lazy demo_reader 3 m' =
    (Ok (go "abc", MkFile (go "/w/g") (f_node demo_reader) O_RDONLY 8 false), m').
Proof.
  split; [vm_compute; reflexivity|].
  set (f' := MkFile (f_path demo_file) (f_node demo_file) (f_flag demo_file) 8 false).
  assert ((file_Write no_lazy 9 demo_file (go "abc") demo_fs).1 = Ok (glen (go "abc"), f')) as H
    by (vm_compute; reflexivity).
  apply (write_then_read demo_fs no_lazy 9 demo_file (go "abc") demo_reader demo_node (go "hello") _ f'
    demo_node_at); try (vm_compute; reflexivity); try (vm_compute; discriminate).
Defined.

(** *** The policy *)

(** Only "/w" may be written; links are followed. *)
Definition demo_config : Config :=
  Build_Config [] [] [] [go "/w"] zeroLimits SymlinkFollow.

Definition demo_check (action target : gostr) : option error * option MemoryFS :=
  @CheckPath MemoryFS (memory_PathFS no_lazy) (Some (static_policy (NewStatic (Some demo_config))))
    (Some demo_fs) action target.

(** Writing through the link inside the workspace is allowed, through the one out of it not. *)
Example demo_check_inside : (demo_check FileActionWrite (go "/w/l")).1 = None.
Proof. vm_compute. reflexivity. Qed.

Example demo_check_outside : IsDenied (demo_check FileActionWrite (go "/w/out/passwd")).1 = true.
Proof. vm_compute. reflexivity. Qed.

(** The state after the check, and the file opened then. *)
Definition demo_checked : MemoryFS :=
  default demo_fs (@CheckPath MemoryFS (memory_PathFS no_lazy)
    (Some (static_policy (NewStatic (Some demo_config)))) (Some demo_fs) FileActionWrite (go "/w/l")).2.
Abbreviation demo_opened :=
  (OpenFile no_lazy 9 (cleanAbs (go "/w/l")) (N.lor O_WRONLY O_CREATE) 0 demo_checked).

Lemma check_split (c : option error * option MemoryFS) d :
  c.1 = None → is_Some c.2 → c = (None, Some (default d c.2)).
Proof. destruct c as [e o]. simpl. intros -> [m ->]. done. Qed.

Lemma demo_checked_eq :
  @CheckPath MemoryFS (memory_PathFS no_lazy) (Some (static_policy (NewStatic (Some demo_config))))
    (Some demo_fs) FileActionWrite (go "/w/l") = (None, Some demo_checked).
Proof. apply check_split; vm_compute; [reflexivity|by eexists]. Qed.

Lemma CheckPath_confines_open_witness : ∃ f,
  demo_opened.1 = Ok f ∧ open_path f = go "/w/new.txt" ∧
  within_roots demo_config FileActionWrite (open_path f).
Proof.
  assert (∃ f, demo_opened.1 = Ok f ∧ open_path f = go "/w/new.txt") as (f&H1&H2)
    by (vm_compute; eexists; split; reflexivity).
  exists f. split; [exact H1|]. split; [exact H2|].
  exact (CheckPath_confines_open demo_config no_lazy 9 demo_fs demo_checked demo_opened.2
    FileActionWrite (go "/w/l") (N.lor O_WRONLY O_CREATE) 0 f demo_wf no_lazy_total
    demo_checked_eq (or_introl eq_refl)
    (call_eq (OpenFile no_lazy 9 (cleanAbs (go "/w/l")) (N.lor O_WRONLY O_CREATE) 0) demo_checked f H1)).
Defined.

Lemma resolveMaybeMissing_agrees_witness :
  let '(r, m1) := @resolveMaybeMissing MemoryFS (memory_PathFS no_lazy) demo_fs (go "/w/l") true 0 in
  ∃ q, r = Ok q ∧ resolveCreatePathLocked demo_fs (go "/w/l") 0 = Ok (go "/w/new.txt") ∧
    q = go "/w/new.txt".
Proof.
  assert (resolveCreatePathLocked demo_fs (go "/w/l") 0 = Ok (go "/w/new.txt")) as Hc
    by (vm_compute; reflexivity).
  destruct (@resolveMaybeMissing MemoryFS (memory_PathFS no_lazy) demo_fs (go "/w/l") true 0)
    as [r m1] eqn:E.
  pose proof (resolveMaybeMissing_agrees no_lazy demo_fs (go "/w/l") r m1 demo_wf no_lazy_total E) as H.
  destruct r as [q|e].
  - exists q. split; [reflexivity|]. split; [exact Hc|]. exact (H _ Hc).
  - exfalso. apply (f_equal fst) in E. revert E. vm_compute. discriminate.
Defined.

(** A filesystem with nothing but its root. *)
Definition empty_PathFS : PathFS unit := {|
  fs_Realpath _ p := if decide (p = root_path) then Ok p else Err (ESent ErrNotExist);
  fs_Lstat s _ := (Err (ESent ErrNotExist), s);
  fs_Readlink _ _ := Err (ESent ErrInvalid);
|}.

Lemma resolveMaybeMissing_terminates_witness :
  @resolveMaybeMissing unit empty_PathFS tt (go "/a/b") true 0 = (Ok (go "/a/b"), tt) ∧
  @resolveMaybeMissing unit empty_PathFS tt (go "/a/b") true 0 ≠ (Err (ESent ErrFuel), tt).
Proof.
  split; [vm_compute; reflexivity|].
  apply (resolveMaybeMissing_terminates empty_PathFS tt (go "/a/b") true tt).
  - intros s p. simpl. destruct (decide (p = root_path)); discriminate.
  - intros s p. discriminate.
  - intros s p. discriminate.
Defined.

(** Behind a link to a directory a final link is followed even by the calls that must not: [Remove] of
    the link [/d/x], which is [/r/x], takes away the file [/r/y] it points to and leaves the link. *)
Definition behind_link : MemoryFS := fc_fs (run_ops [
  OpMkdirAll (go "/r") 493;
  OpOpenFile (go "/r/y") (N.lor O_RDWR O_CREATE) 420;
  OpSymlink (go "/r/y") (go "/r/x");
  OpSymlink (go "/r") (go "/d")] (init_config (NewMemory 1))).

Example remove_follows_behind_link :
  is_Some (nodes behind_link !! go "/r/x") ∧ is_Some (nodes behind_link !! go "/r/y") ∧
  (Remove (go "/d/x") false behind_link).1 = Ok tt ∧
  is_Some (nodes (Remove (go "/d/x") false behind_link).2 !! go "/r/x") ∧
  nodes (Remove (go "/d/x") false behind_link).2 !! go "/r/y" = None ∧
  nodes (Remove (go "/r/x") false behind_link).2 !! go "/r/x" = None.
Proof. split_and!; try (eexists; vm_compute; reflexivity); vm_compute; reflexivity. Qed.

(** Under a policy that follows links, that takes a removal out of the roots it is allowed in: the
    check of [/w/d/x] allows [/w/r/x], and [Remove] then removes [/etc/p]. *)
Definition behind_link_policy : MemoryFS := fc_fs (run_ops [
  OpMkdirAll (go "/w/r") 493; OpMkdirAll (go "/etc") 493;
  OpOpenFile (go "/etc/p") (N.lor O_RDWR O_CREATE) 420;
  OpSymlink (go "/etc/p") (go "/w/r/x");
  OpSymlink (go "/w/r") (go "/w/d")] (init_config (NewMemory 1))).

Example remove_escapes_roots :
  let policy := static_policy (NewStatic (Some (Build_Config [] [] [go "/"] [go "/w"] zeroLimits SymlinkFollow))) in
  (@CheckPath MemoryFS (memory_PathFS no_lazy) (Some policy) (Some behind_link_policy) FileActionRemove (go "/w/d/x")).1 = None ∧
  pol_AllowPath policy FileActionRemove (go "/etc/p") ≠ None ∧
  is_Some (nodes behind_link_policy !! go "/etc/p") ∧
  (Remove (go "/w/d/x") false behind_link_policy).1 = Ok tt ∧
  nodes (Remove (go "/w/d/x") false behind_link_policy).2 !! go "/etc/p" = None.
Proof. split_and!; try (eexists; vm_compute; reflexivity); try (vm_compute; reflexivity). vm_compute. discriminate. Qed.
