(* ===== verification/CondVar.v ===== *)
(** Monitors with one condition variable: calls cut at their waits into atomic sections, the table
    of calls in progress, and what a broadcast does to it. *)
From S2P Require Import Prelude.

(** Where a section ends: the call returns, waits on the condition variable, or panics. *)
Inductive outcome (A : Type) :=
| Return (a : A)
| Wait
| Panic.
Arguments Return {A} a.
Arguments Wait {A}.
Arguments Panic {A}.

Definition is_panic {A} (o : outcome A) : bool := match o with Panic => true | _ => false end.

(** A call in progress: what it has left to do; [th_asleep] says that it is inside [cond.Wait]. *)
Record thread (C : Type) := Thread { th_call : C; th_asleep : bool }.
Arguments Thread {C} th_call th_asleep.
Arguments th_call {C} t.
Arguments th_asleep {C} t.

Section table.
Context {C : Type}.

(** [cond.Broadcast], when [b] says that it was called. *)
Definition wake_all (b : bool) (ths : list (thread C)) : list (thread C) :=
  if b then map (fun th => Thread (th_call th) false) ths else ths.

(** The table after the call [i] ends a section: it stays, asleep, if it waits. *)
Definition after_section {A} (o : outcome A) (c : C) (i : nat) (b : bool) (ths : list (thread C))
  : list (thread C) :=
  let ths := wake_all b ths in
  match o with Wait => <[i := Thread c true]> ths | _ => delete i ths end.

(** A call is well-formed, and when it sleeps it has reason to. *)
Definition thread_ok (call_ok may_sleep : C → Prop) (th : thread C) : Prop :=
  call_ok (th_call th) ∧ (th_asleep th = true → may_sleep (th_call th)).

Lemma wake_all_ok (ok ms ms' : C → Prop) b ths : Forall (thread_ok ok ms) ths →
  (b = false → ∀ c, ms c → ms' c) → Forall (thread_ok ok ms') (wake_all b ths).
Proof.
  intros H Hb. destruct b; simpl.
  - apply Forall_fmap. revert H. apply Forall_impl. intros th [Hc _]. by split.
  - revert H. apply Forall_impl. intros th [Hc Hs]. split; auto.
Qed.

Lemma after_section_ok {A} (o : outcome A) (ok ms ms' : C → Prop) c i b ths :
  Forall (thread_ok ok ms) ths → (b = false → ∀ c, ms c → ms' c) →
  (o = Wait → ok c ∧ ms' c) → Forall (thread_ok ok ms') (after_section o c i b ths).
Proof.
  intros H Hb Hw. pose proof (wake_all_ok ok ms ms' b ths H Hb) as Hk. unfold after_section.
  destruct o; try by apply Forall_delete. apply Forall_insert; [done|]. destruct Hw; [done|]. by split.
Qed.
End table.
