(* ===== verification/VirtualPipe.v ===== *)
(** The in-memory pipe of [internal/shell/interp/virtual_pipe.go]: a growable buffer with two
    positions, used by concurrent readers and writers that wait on one condition variable.

    A call is cut at its [cond.Wait]s into atomic sections (the code holds the mutex between
    them).  A section is a function from the pipe to the pipe it leaves, its outcome and whether
    it broadcast; calls in progress and their sections interleave in [vp_step]. *)
From S2P Require Import Prelude FsTypes CondVar.

(** ** The pipe *)

Definition defaultPipeBufferSize : Z := 65536.
Definition minVirtualPipeAllocSize : Z := 4 * 1024.
Definition virtualPipeBufferBuckets : list Z := [4 * 1024; 8 * 1024; 16 * 1024; 32 * 1024; 64 * 1024].

Record virtualPipe := MkPipe {
  vp_buf : option gostr;      (* [None] is the nil slice *)
  vp_readPos : Z;
  vp_writePos : Z;
  vp_bufSize : Z;
  vp_bufPooled : bool;
  vp_closed : bool;
  vp_wrClosed : bool;
  vp_err : option error;
  vp_readDeadline : Z;        (* [time.Time] in nanoseconds; 0 is the zero time *)
}.

Definition newVirtualPipeSize (size : Z) : virtualPipe :=
  MkPipe None 0 0 (if size <=? 0 then defaultPipeBufferSize else size) false false false None 0.

Definition NewVirtualPipe : virtualPipe := newVirtualPipeSize defaultPipeBufferSize.

Definition set_buf (b : option gostr) (r w : Z) (pooled : bool) (p : virtualPipe) : virtualPipe :=
  MkPipe b r w (vp_bufSize p) pooled (vp_closed p) (vp_wrClosed p) (vp_err p) (vp_readDeadline p).
Definition set_pos (r w : Z) (p : virtualPipe) : virtualPipe := set_buf (vp_buf p) r w (vp_bufPooled p) p.
Definition set_flags (closed wrClosed : bool) (err : option error) (p : virtualPipe) : virtualPipe :=
  MkPipe (vp_buf p) (vp_readPos p) (vp_writePos p) (vp_bufSize p) (vp_bufPooled p) closed wrClosed err
    (vp_readDeadline p).
Definition set_deadline (t : Z) (p : virtualPipe) : virtualPipe :=
  MkPipe (vp_buf p) (vp_readPos p) (vp_writePos p) (vp_bufSize p) (vp_bufPooled p) (vp_closed p)
    (vp_wrClosed p) (vp_err p) t.

Definition unreadLen (p : virtualPipe) : Z := vp_writePos p - vp_readPos p.

(** [len(p.buf)]. *)
Definition buf_len (p : virtualPipe) : Z := match vp_buf p with None => 0 | Some b => glen b end.

(** [b[i:j]]: panics out of range ([None]). *)
Definition subslice (b : gostr) (i j : Z) : option gostr :=
  if (0 <=? i) && (i <=? j) && (j <=? glen b)
  then Some (take (Z.to_nat (j - i)) (drop (Z.to_nat i) b)) else None.

(** [copy(b[off:], src)] for [src] that fits. *)
Definition overwrite (b : gostr) (off : Z) (src : gostr) : gostr :=
  take (Z.to_nat off) b ++ src ++ drop (Z.to_nat off + length src) b.

(** The bytes written and not read yet. *)
Definition unread (p : virtualPipe) : gostr :=
  match vp_buf p with
  | None => []
  | Some b => take (Z.to_nat (unreadLen p)) (drop (Z.to_nat (vp_readPos p)) b)
  end.

Definition pooledCapacityFor (p : virtualPipe) (needed : Z) : Z :=
  if existsb (Z.eqb (vp_bufSize p)) virtualPipeBufferBuckets then
    match find (fun size => (needed <=? size) && (size <=? vp_bufSize p)) virtualPipeBufferBuckets with
    | Some size => size
    | None => 0
    end
  else 0.

(** The doubling loop of [nextBufferCapacity]; [size * 2] wraps as [int] does. *)
Fixpoint double_loop (fuel : nat) (size needed bufSize : Z) : Z :=
  match fuel with
  | O => size
  | S fuel =>
      if (size <? needed) && (size <? bufSize) then
        let next := wrap64 (size * 2) in
        if (next <=? size) || (bufSize <? next) then bufSize
        else double_loop fuel next needed bufSize
      else size
  end.

Definition nextBufferCapacity (p : virtualPipe) (needed : Z) : Z :=
  if needed <=? 0 then 0
  else
    let pooled := pooledCapacityFor p needed in
    if negb (pooled =? 0) then pooled
    else
      let size := buf_len p in
      let size := if size =? 0 then Z.min (vp_bufSize p) (Z.max minVirtualPipeAllocSize needed) else size in
      let size := double_loop 64 size needed (vp_bufSize p) in
      let size := if size <? needed then needed else size in
      if vp_bufSize p <? size then vp_bufSize p else size.

(** *** Buffer management

    [scratch n] is the buffer of [n] bytes that [borrowVirtualPipeBuffer(n)] hands out: from a
    [sync.Pool] it holds whatever its last user left. *)
Section buffers.
Variable scratch : Z → gostr.

Definition is_pooled (size : Z) : bool := existsb (Z.eqb size) virtualPipeBufferBuckets.

Definition borrowVirtualPipeBuffer (size : Z) : gostr * bool := (scratch size, is_pooled size).

Definition releaseBufferLocked (p : virtualPipe) : virtualPipe := set_buf None 0 0 false p.

Definition compactBufferLocked (p : virtualPipe) : option virtualPipe :=
  let unread := unreadLen p in
  if unread =? 0 then Some (set_pos 0 0 p)
  else if vp_readPos p =? 0 then Some p
  else
    let b := default [] (vp_buf p) in
    src ← subslice b (vp_readPos p) (vp_writePos p);
    Some (set_buf (Some (overwrite b 0 src)) 0 unread (vp_bufPooled p) p).

Definition growBufferLocked (newSize : Z) (p : virtualPipe) : option virtualPipe :=
  let unread := unreadLen p in
  let '(buf, pooled) := borrowVirtualPipeBuffer newSize in
  buf ← match vp_buf p with
        | Some b =>
            if 0 <? unread then
              src ← subslice b (vp_readPos p) (vp_writePos p);
              Some (overwrite buf 0 (take (length buf) src))
            else Some buf
        | None => Some buf
        end;
  let p := releaseBufferLocked p in
  Some (set_buf (Some buf) 0 unread pooled p).

Definition ensureWriteCapacityLocked (toWrite : Z) (p : virtualPipe) : option virtualPipe :=
  if toWrite <=? 0 then Some p
  else if decide (vp_buf p = None) then growBufferLocked (nextBufferCapacity p toWrite) p
  else if toWrite <=? buf_len p - vp_writePos p then Some p
  else
    p ← (if 0 <? vp_readPos p then compactBufferLocked p else Some p);
    if toWrite <=? buf_len p - vp_writePos p then Some p
    else growBufferLocked (nextBufferCapacity p (unreadLen p + toWrite)) p.

Definition resetOrReleaseEmptyBufferLocked (p : virtualPipe) : virtualPipe :=
  if 0 <? unreadLen p then p
  else if vp_closed p || vp_wrClosed p then releaseBufferLocked p
  else set_pos 0 0 p.

(** *** The atomic sections *)

Definition checkDeadline (now : Z) (p : virtualPipe) : option error :=
  if negb (vp_readDeadline p =? 0) && (vp_readDeadline p <=? now)
  then Some (ESent ErrDeadlineExceeded) else None.

(** [virtualPipeReader.Read] into [k > 0] bytes, from its start or after a [Wait]: the bytes
    and the error, and whether it broadcast. *)
Definition read_section (now : Z) (k : nat) (p : virtualPipe)
  : outcome (gostr * option error) * virtualPipe * bool :=
  if unreadLen p =? 0 then
    if vp_closed p then (Return ([], vp_err p), p, false)
    else if vp_wrClosed p then (Return ([], Some (ESent ErrEOF)), p, false)
    else match checkDeadline now p with
    | Some err => (Return ([], Some err), p, false)
    | None => (Wait, p, false)
    end
  else if vp_closed p then (Return ([], vp_err p), p, false)
  else match checkDeadline now p with
  | Some err => (Return ([], Some err), p, false)
  | None =>
      match subslice (default [] (vp_buf p)) (vp_readPos p) (vp_writePos p) with
      | None => (Panic, p, false)
      | Some src =>
          let out := take k src in
          let p := set_pos (vp_readPos p + glen out) (vp_writePos p) p in
          (Return (out, None), resetOrReleaseEmptyBufferLocked p, true)
      end
  end.

(** One chunk of [Write]: as many of the bytes left as there is space for. *)
Definition write_chunk (rest : gostr) (p : virtualPipe) : option (Z * virtualPipe) :=
  let space := vp_bufSize p - unreadLen p in
  let toWrite := Z.min (glen rest) space in
  p ← ensureWriteCapacityLocked toWrite p;
  let b := default [] (vp_buf p) in
  _ ← subslice b (vp_writePos p) (vp_writePos p + toWrite);
  let src := take (Z.to_nat toWrite) rest in
  Some (toWrite, set_buf (Some (overwrite b (vp_writePos p) src)) (vp_readPos p)
                   (vp_writePos p + toWrite) (vp_bufPooled p) p).

(** [virtualPipeWriter.Write] of [data] with [written] bytes done: from the head of its outer
    loop, or, when [resumed], from the inner loop that waits for space.  [written] only counts up
    to the call's return, which reports it; so does the section, with whether it broadcast. *)
Fixpoint write_section (fuel : nat) (data : gostr) (written : Z) (resumed : bool) (p : virtualPipe)
    (bcast : bool) {struct fuel} : outcome (option error) * Z * virtualPipe * bool :=
  match fuel with
  | O => (Return (Some (ESent ErrFuel)), written, p, bcast)
  | S fuel =>
      if negb resumed && (glen data <=? written) then (Return None, written, p, bcast)
      else if negb resumed && vp_closed p then (Return (vp_err p), written, p, bcast)
      else if negb resumed && vp_wrClosed p then (Return (Some (ESent ErrClosedPipe)), written, p, bcast)
      else if vp_bufSize p <=? unreadLen p then
        if vp_closed p then (Return (vp_err p), written, p, bcast)
        else if vp_wrClosed p then (Return (Some (ESent ErrClosedPipe)), written, p, bcast)
        else (Wait, written, p, bcast)
      else if vp_closed p then (Return (vp_err p), written, p, bcast)
      else match write_chunk (drop (Z.to_nat written) data) p with
      | None => (Panic, written, p, bcast)
      | Some (n, p) => write_section fuel data (written + n) false p true
      end
  end.

(** A section writes at most one chunk before it returns or waits: three turns of the loop are
    enough, as [write_section_fuel] shows. *)
Definition write_fuel : nat := 3.

Definition Reader_CloseWithError (err : option error) (p : virtualPipe) : virtualPipe * bool :=
  if vp_closed p then (p, false)
  else
    let err := match err with None => Some (ESent ErrClosedPipe) | _ => err end in
    (releaseBufferLocked (set_flags true (vp_wrClosed p) err p), true).

Definition Reader_Close : virtualPipe → virtualPipe * bool :=
  Reader_CloseWithError (Some (ESent ErrClosedPipe)).

Definition Writer_CloseWithError (err : option error) (p : virtualPipe) : virtualPipe * bool :=
  if vp_wrClosed p then (p, false)
  else match err with
  | Some _ => (releaseBufferLocked (set_flags true true err p), true)
  | None =>
      let p := set_flags (vp_closed p) true (vp_err p) p in
      (if unreadLen p =? 0 then releaseBufferLocked p else p, true)
  end.

Definition Writer_Close : virtualPipe → virtualPipe * bool := Writer_CloseWithError None.

Definition SetReadDeadline (t : Z) (p : virtualPipe) : virtualPipe * bool := (set_deadline t p, true).
End buffers.
