(* ===== verification/VirtualPipeSpec.v ===== *)
(** The pipe refines a bounded queue: what each atomic section does to the unread bytes, that it
    stays inside its buffer, and that the buffer stays inside the pipe's capacity. *)
From S2P Require Import Prelude FsTypes CondVar VirtualPipe.

(** ** Slices *)

Lemma subslice_ok b i j : 0 ≤ i ≤ j → j ≤ glen b →
  subslice b i j = Some (take (Z.to_nat (j - i)) (drop (Z.to_nat i) b)).
Proof.
  intros Hij Hj. unfold subslice. rewrite (proj2 (Z.leb_le 0 i)), (proj2 (Z.leb_le i j)),
    (proj2 (Z.leb_le j _)) by lia. done.
Qed.

Lemma glen_overwrite b off src : 0 ≤ off → off + glen src ≤ glen b → glen (overwrite b off src) = glen b.
Proof.
  unfold glen, overwrite. intros H1 H2. rewrite !length_app, length_take, length_drop. lia.
Qed.

(** The bytes before what is overwritten stay, and then come those written. *)
Lemma overwrite_window b r w src : 0 ≤ r ≤ w → w + glen src ≤ glen b →
  take (Z.to_nat (w + glen src - r)) (drop (Z.to_nat r) (overwrite b w src)) =
  take (Z.to_nat (w - r)) (drop (Z.to_nat r) b) ++ src.
Proof.
  unfold glen, overwrite. intros Hr Hw.
  rewrite drop_app_le by (rewrite length_take; lia).
  rewrite skipn_firstn_comm.
  rewrite take_app, length_take, length_drop.
  replace (Z.to_nat (w + Z.of_nat (length src) - r) - _)%nat with (length src) by lia.
  rewrite take_app_length. f_equal. rewrite take_take. f_equal. lia.
Qed.

(** ** The invariant *)

Record pipe_ok (p : virtualPipe) : Prop := {
  po_size : 0 < vp_bufSize p;
  po_pos : 0 ≤ vp_readPos p ≤ vp_writePos p;
  po_write : vp_writePos p ≤ buf_len p;
  po_cap : buf_len p ≤ vp_bufSize p;
  po_closed : vp_closed p = true → vp_buf p = None ∧ vp_err p ≠ None;
}.

Lemma length_unread p : pipe_ok p → glen (unread p) = unreadLen p.
Proof.
  intros [_ H1 H2 _ _]. unfold unread, unreadLen, buf_len, glen in *. destruct (vp_buf p); [|simpl; lia].
  rewrite length_take, length_drop. lia.
Qed.

Lemma unread_bound p : pipe_ok p → 0 ≤ unreadLen p ≤ vp_bufSize p.
Proof. intros [? ? ? ? ?]. unfold unreadLen. lia. Qed.

Lemma unread_nil p : pipe_ok p → unreadLen p = 0 → unread p = [].
Proof. intros Hok H. apply length_unread in Hok. rewrite H in Hok. by destruct (unread p). Qed.

Lemma closed_unread p : pipe_ok p → vp_closed p = true → unreadLen p = 0.
Proof.
  intros [_ H1 H2 _ H3] Hc. destruct (H3 Hc) as [Hb _]. unfold buf_len, unreadLen in *.
  rewrite Hb in H2. lia.
Qed.

Lemma released_ok p : 0 < vp_bufSize p → (vp_closed p = true → vp_err p ≠ None) →
  pipe_ok (releaseBufferLocked p).
Proof. intros Hs Hc. split; simpl; [done|lia|unfold buf_len; simpl; lia|unfold buf_len; simpl; lia|auto]. Qed.

Lemma new_pipe_ok size : pipe_ok (newVirtualPipeSize size).
Proof.
  unfold newVirtualPipeSize. destruct (Z.leb_spec size 0);
    (split; simpl; [unfold defaultPipeBufferSize; lia|lia|unfold buf_len; simpl; lia|
     unfold buf_len, defaultPipeBufferSize; simpl; lia|done]).
Qed.

(** What a section may not touch. *)
Definition same_state (p p' : virtualPipe) : Prop :=
  vp_bufSize p' = vp_bufSize p ∧ vp_closed p' = vp_closed p ∧ vp_wrClosed p' = vp_wrClosed p ∧
  vp_err p' = vp_err p ∧ vp_readDeadline p' = vp_readDeadline p.

#[export] Instance same_state_preorder : PreOrder same_state.
Proof. unfold same_state. split; [by intros p|]. intros p1 p2 p3. naive_solver congruence. Qed.

(** ** Buffer sizes *)

Lemma pooledCapacityFor_bounds p needed : pooledCapacityFor p needed ≠ 0 →
  needed ≤ pooledCapacityFor p needed ≤ vp_bufSize p.
Proof.
  unfold pooledCapacityFor. destruct (existsb _ _); [|done].
  destruct (find _ _) as [size|] eqn:E; [|done]. apply find_some in E as [_ H].
  apply andb_true_iff in H as [?%Z.leb_le ?%Z.leb_le]. done.
Qed.

(** The next buffer holds what is needed and never exceeds the pipe's capacity. *)
Lemma nextBufferCapacity_bounds p needed : 0 < needed ≤ vp_bufSize p →
  needed ≤ nextBufferCapacity p needed ≤ vp_bufSize p.
Proof.
  intros Hn. unfold nextBufferCapacity. rewrite (proj2 (Z.leb_gt _ _)) by lia. cbv zeta.
  destruct (Z.eqb_spec (pooledCapacityFor p needed) 0) as [_|Hp]; cbn [negb].
  - repeat match goal with |- context [(?a <? ?b)] => destruct (Z.ltb_spec a b) end; lia.
  - by apply pooledCapacityFor_bounds.
Qed.

Section spec.
Variable scratch : Z → gostr.
Hypothesis scratch_len : ∀ n, 0 ≤ n → glen (scratch n) = n.

Lemma compact_spec p : pipe_ok p → vp_closed p = false →
  ∃ p', compactBufferLocked p = Some p' ∧ pipe_ok p' ∧ same_state p p' ∧ unread p' = unread p ∧
    vp_readPos p' = 0 ∧ buf_len p' = buf_len p.
Proof.
  intros Hok Hcl. pose proof Hok as [H1 H2 H3 H4 H5]. unfold compactBufferLocked.
  assert (∀ q : virtualPipe, same_state p q → vp_closed q = false) as Hclq by (intros q (?&?&_); congruence).
  destruct (Z.eqb_spec (unreadLen p) 0) as [Hz|Hz].
  { eexists. split; [done|]. split_and!; [|done| |done|done].
    - split; simpl; [done|lia|change (0 ≤ buf_len p); lia|done|by rewrite Hcl].
    - rewrite (unread_nil p) by done. unfold unread, unreadLen. simpl. by destruct (vp_buf p). }
  destruct (Z.eqb_spec (vp_readPos p) 0) as [Hr|Hr]; [by exists p|].
  unfold unread. unfold unreadLen, buf_len in *. destruct (vp_buf p) as [b|] eqn:Eb; [|lia].
  change (default [] (Some b)) with b. rewrite subslice_ok by lia. cbn [mbind option_bind].
  set (src := take _ _). assert (glen src = vp_writePos p - vp_readPos p) as Hlen.
  { unfold src, glen in *. rewrite length_take, length_drop. lia. }
  eexists. split; [done|].
  assert (glen (overwrite b 0 src) = glen b) as Hov by (apply glen_overwrite; lia).
  split_and!; [|done| |done|done].
  - split; simpl; unfold buf_len; simpl; rewrite ?Hov; try lia. by rewrite Hcl.
  - simpl. pose proof (overwrite_window b 0 0 src) as Hw. rewrite Z.add_0_l, !Z.sub_0_r in Hw.
    rewrite Z.sub_0_r, <- Hlen, Hw by lia. done.
Qed.

Lemma grow_spec p newSize : pipe_ok p → vp_closed p = false → unreadLen p ≤ newSize → 0 < newSize ≤ vp_bufSize p →
  ∃ p', growBufferLocked scratch newSize p = Some p' ∧ pipe_ok p' ∧ same_state p p' ∧ unread p' = unread p ∧
    vp_readPos p' = 0 ∧ buf_len p' = newSize ∧ vp_buf p' ≠ None ∧ unreadLen p' = unreadLen p.
Proof using scratch_len.
  intros Hok Hcl Hle Hn. pose proof Hok as [H1 H2 H3 H4 H5]. unfold growBufferLocked.
  cbn [borrowVirtualPipeBuffer]. pose proof (unread_bound p Hok) as Hub.
  pose proof (scratch_len newSize) as Hsl. specialize (Hsl ltac:(lia)).
  set (fin := fun buf : gostr => set_buf (Some buf) 0 (unreadLen p) (is_pooled newSize) (releaseBufferLocked p)).
  assert (∀ buf, glen buf = newSize → take (Z.to_nat (unreadLen p)) buf = unread p →
    ∃ p', Some (fin buf) = Some p' ∧ pipe_ok p' ∧ same_state p p' ∧ unread p' = unread p ∧
      vp_readPos p' = 0 ∧ buf_len p' = newSize ∧ vp_buf p' ≠ None ∧ unreadLen p' = unreadLen p) as Hfin.
  { intros buf Hb Hu. eexists. split; [done|]. split_and!; [|done| |done|done|done|].
    - split; simpl; unfold buf_len; simpl; try lia. by rewrite Hcl.
    - unfold unread. simpl. unfold unreadLen at 1. simpl. by rewrite Z.sub_0_r.
    - change (unreadLen (fin buf)) with (unreadLen p - 0). lia. }
  pose proof (length_unread p Hok) as Hlu.
  destruct (vp_buf p) as [b|] eqn:Eb.
  - destruct (Z.ltb_spec 0 (unreadLen p)) as [Hpos|Hpos].
    + assert (buf_len p = glen b) as Hbl by (unfold buf_len; by rewrite Eb).
      rewrite subslice_ok by lia. cbn [mbind option_bind]. apply Hfin.
      * rewrite glen_overwrite; [done|lia|]. unfold glen in *. rewrite length_take. lia.
      * assert (unread p = take (Z.to_nat (vp_writePos p - vp_readPos p)) (drop (Z.to_nat (vp_readPos p)) b)) as Hu.
        { unfold unread. by rewrite Eb. }
        rewrite <- Hu. rewrite (firstn_all2 (unread p)) by (unfold glen in *; lia).
        unfold overwrite. simpl. rewrite take_app_le by (unfold glen in *; lia).
        apply firstn_all2. unfold glen in *. lia.
    + cbn [mbind option_bind]. apply Hfin; [done|]. rewrite (unread_nil p) by (done || lia).
      replace (Z.to_nat (unreadLen p)) with 0%nat by lia. done.
  - cbn [mbind option_bind]. apply Hfin; [done|].
    assert (unreadLen p = 0) as Hz by (unfold unreadLen, buf_len in *; rewrite Eb in H3; lia).
    by rewrite (unread_nil p), Hz by done.
Qed.

Lemma ensure_spec p toWrite : pipe_ok p → vp_closed p = false → 0 < toWrite →
  unreadLen p + toWrite ≤ vp_bufSize p →
  ∃ p', ensureWriteCapacityLocked scratch toWrite p = Some p' ∧ pipe_ok p' ∧ same_state p p' ∧
    unread p' = unread p ∧ unreadLen p' = unreadLen p ∧ toWrite ≤ buf_len p' - vp_writePos p' ∧
    vp_buf p' ≠ None.
Proof using scratch_len.
  intros Hok Hcl Hw Hsp. unfold ensureWriteCapacityLocked.
  pose proof (unread_bound p Hok) as Hub. pose proof Hok as [H1 H2 H3 H4 H5].
  rewrite (proj2 (Z.leb_gt _ _)) by lia.
  assert (∀ q, pipe_ok q → same_state p q → unread q = unread p → unreadLen q = unreadLen p → ∃ p',
    growBufferLocked scratch (nextBufferCapacity q (unreadLen q + toWrite)) q = Some p' ∧ pipe_ok p' ∧
    same_state p p' ∧ unread p' = unread p ∧ unreadLen p' = unreadLen p ∧
    toWrite ≤ buf_len p' - vp_writePos p' ∧ vp_buf p' ≠ None) as Hgrow.
  { intros q Hq Hs Hu Hl. pose proof Hs as (Hbs&Hc&_).
    destruct (nextBufferCapacity_bounds q (unreadLen q + toWrite)) as [Hn1 Hn2]; [lia|].
    destruct (grow_spec q (nextBufferCapacity q (unreadLen q + toWrite))) as (p'&->&?&?&?&?&?&?&?);
      [done|congruence|lia|lia|]. eexists. split; [done|].
    split_and!; [done|by etrans|congruence|lia| |done]. unfold unreadLen in *. lia. }
  case_decide as Eb.
  { assert (unreadLen p = 0) as Hz by (unfold unreadLen, buf_len in *; rewrite Eb in H3; lia).
    replace (nextBufferCapacity p toWrite) with (nextBufferCapacity p (unreadLen p + toWrite)) by (by rewrite Hz).
    by apply Hgrow. }
  destruct (Z.leb_spec toWrite (buf_len p - vp_writePos p)) as [Hfit|Hfit]; [by exists p|].
  assert (∃ q, (if 0 <? vp_readPos p then compactBufferLocked p else Some p) = Some q ∧ pipe_ok q ∧
    same_state p q ∧ unread q = unread p ∧ unreadLen q = unreadLen p ∧ buf_len q = buf_len p)
    as (q&->&Hq&Hs&Hu&Hl&Hb).
  { destruct (Z.ltb_spec 0 (vp_readPos p)); [|by exists p].
    destruct (compact_spec p Hok Hcl) as (q&->&Hq&Hs&Hu&_&Hb). exists q. split_and!; try done.
    rewrite <- (length_unread q), <- (length_unread p) by done. by rewrite Hu. }
  cbn [mbind option_bind].
  destruct (Z.leb_spec toWrite (buf_len q - vp_writePos q)) as [Hfit'|Hfit']; [|by apply Hgrow].
  exists q. split_and!; try done. intros Hn. unfold buf_len in Hfit'. rewrite Hn in Hfit'.
  destruct Hq as [_ ? ? _ _]. lia.
Qed.

(** ** The sections *)

(** [write_chunk] appends to the queue as much as fits. *)
Lemma write_chunk_spec rest p : pipe_ok p → vp_closed p = false → unreadLen p < vp_bufSize p → rest ≠ [] →
  ∃ n p', write_chunk scratch rest p = Some (n, p') ∧ pipe_ok p' ∧ same_state p p' ∧
    n = Z.min (glen rest) (vp_bufSize p - unreadLen p) ∧ 0 < n ∧
    unread p' = unread p ++ take (Z.to_nat n) rest.
Proof using scratch_len.
  intros Hok Hcl Hsp Hr. unfold write_chunk.
  assert (0 < glen rest) by (destruct rest; [done|unfold glen; simpl; lia]).
  set (n := Z.min (glen rest) (vp_bufSize p - unreadLen p)).
  destruct (ensure_spec p n) as (q&->&Hq&Hs&Hu&Hl&Hfit&Hb); [done|done|lia|lia|].
  cbn [mbind option_bind]. destruct (vp_buf q) as [b|] eqn:Eb; [|done]. change (default [] (Some b)) with b.
  pose proof Hq as [H1 H2 H3 H4 H5]. assert (buf_len q = glen b) as Hbl by (unfold buf_len; by rewrite Eb).
  rewrite subslice_ok by lia. cbn [mbind option_bind].
  set (src := take (Z.to_nat n) rest).
  assert (glen src = n) as Hsrc by (unfold src, glen in *; rewrite length_take; lia).
  eexists n, _. split; [done|].
  assert (glen (overwrite b (vp_writePos q) src) = glen b) as Hov by (apply glen_overwrite; lia).
  split_and!; [|done|done|lia|].
  - destruct Hs as (Hbs&Hc&_). split; simpl; unfold buf_len; simpl; rewrite ?Hov; try lia. congruence.
  - assert (unread q = take (Z.to_nat (vp_writePos q - vp_readPos q)) (drop (Z.to_nat (vp_readPos q)) b))
      as Hq' by (unfold unread; by rewrite Eb).
    fold src. rewrite <- Hu, Hq', <- (overwrite_window b (vp_readPos q) (vp_writePos q) src) by lia. unfold unread, unreadLen. simpl. by rewrite Hsrc.
Qed.

(** What a call of [Write] can answer at the end of a section. *)
Definition write_result (data : gostr) (written : Z) (p : virtualPipe)
    (r : outcome (option error) * Z * virtualPipe * bool) : Prop :=
  let '(o, written', p', bcast) := r in
  pipe_ok p' ∧ same_state p p' ∧ written ≤ written' ≤ glen data ∧
  unread p' = unread p ++ take (Z.to_nat (written' - written)) (drop (Z.to_nat written) data) ∧
  (written < written' → bcast = true) ∧
  match o with
  | Return None => written' = glen data
  | Return (Some e) => e ≠ ESent ErrFuel ∨ vp_err p = Some e
  | Wait => written' < glen data ∧ vp_bufSize p' ≤ unreadLen p' ∧ vp_closed p' = false ∧ vp_wrClosed p' = false
  | Panic => False
  end.

Lemma write_result_nil data written p o b : pipe_ok p → 0 ≤ written ≤ glen data →
  match o with
  | Return None => written = glen data
  | Return (Some e) => e ≠ ESent ErrFuel ∨ vp_err p = Some e
  | Wait => written < glen data ∧ vp_bufSize p ≤ unreadLen p ∧ vp_closed p = false ∧ vp_wrClosed p = false
  | Panic => False
  end → write_result data written p (o, written, p, b).
Proof.
  intros Hok Hw Ho. split_and!; [done|done|lia|lia| |lia|done].
  by rewrite Z.sub_diag, take_0, app_nil_r.
Qed.

Lemma closed_err p : pipe_ok p → vp_closed p = true → ∃ e, vp_err p = Some e.
Proof. intros Hok Hc. destruct (po_closed p Hok Hc) as [_ H]. destruct (vp_err p); [eauto|done]. Qed.

(** A section that has broadcast has broadcast when it ends. *)
Lemma write_section_bcast fuel data written resumed p o w' p' b :
  write_section scratch fuel data written resumed p true = (o, w', p', b) → b = true.
Proof.
  revert written resumed p. induction fuel as [|fuel IH]; intros written resumed p; cbn [write_section];
    [congruence|]. repeat (case_match; try congruence). apply IH.
Qed.

(** A section that has not broadcast has left the pipe as it was. *)
Lemma write_section_idle fuel data written resumed p o w' p' :
  write_section scratch fuel data written resumed p false = (o, w', p', false) → p' = p.
Proof.
  destruct fuel as [|fuel]; cbn [write_section]; [congruence|].
  repeat (case_match; try congruence). intros H'. by apply write_section_bcast in H'.
Qed.

(** A turn of the loop that writes nothing: the call has returned or waits. *)
Lemma write_stop fuel data written resumed p b : pipe_ok p → 0 ≤ written ≤ glen data →
  (resumed = true → written < glen data) →
  (written = glen data ∨ vp_bufSize p ≤ unreadLen p ∨ vp_closed p = true) →
  write_result data written p (write_section scratch (S fuel) data written resumed p b).
Proof.
  intros Hok Hw Hres Hstop. cbn [write_section].
  destruct (negb resumed && (glen data <=? written)) eqn:E1.
  { apply andb_true_iff in E1 as [_ ?%Z.leb_le]. apply write_result_nil; [done|lia|]. lia. }
  assert (written < glen data) as Hlt.
  { destruct resumed; [auto|]. apply Z.leb_gt in E1. lia. }
  destruct (vp_closed p) eqn:Ec.
  - destruct (closed_err p Hok Ec) as [e He].
    repeat case_match; apply write_result_nil; rewrite ?He; try done; try (by right); try (by left).
  - destruct (Z.leb_spec (vp_bufSize p) (unreadLen p)); [|naive_solver lia].
    rewrite andb_false_r. destruct (vp_wrClosed p) eqn:Ew.
    + destruct resumed; cbn [negb andb]; (apply write_result_nil; [done|done|by left]).
    + rewrite andb_false_r. apply write_result_nil; done.
Qed.

(** A turn of the loop that writes a chunk. *)
Lemma write_step fuel data written resumed p b n p' : written < glen data → vp_closed p = false →
  (resumed = false → vp_wrClosed p = false) → unreadLen p < vp_bufSize p →
  write_chunk scratch (drop (Z.to_nat written) data) p = Some (n, p') →
  write_section scratch (S fuel) data written resumed p b =
  write_section scratch fuel data (written + n) false p' true.
Proof.
  intros Hlt Hcl Hwc Hsp Hch. cbn [write_section]. rewrite Hcl, Hch, !andb_false_r.
  rewrite (proj2 (Z.leb_gt (vp_bufSize p) _)) by lia.
  rewrite (proj2 (Z.leb_gt (glen data) written)), andb_false_r by lia.
  by replace (negb resumed && vp_wrClosed p) with false by (destruct resumed; [done|by rewrite Hwc]).
Qed.

Lemma write_section_spec data written resumed p : pipe_ok p → 0 ≤ written ≤ glen data →
  (resumed = true → written < glen data) →
  write_result data written p (write_section scratch write_fuel data written resumed p false).
Proof using scratch_len.
  intros Hok Hw Hres. unfold write_fuel.
  destruct (decide (written = glen data ∨ vp_bufSize p ≤ unreadLen p ∨ vp_closed p = true ∨
    resumed = false ∧ vp_wrClosed p = true)) as [Hs|Hs].
  { destruct Hs as [?|[?|[?|[-> Hwc]]]]; try (apply write_stop; naive_solver).
    cbn [write_section negb andb]. rewrite Hwc.
    destruct (Z.leb_spec (glen data) written); [apply write_result_nil; [done|lia|lia]|].
    destruct (vp_closed p) eqn:Ec; cbn [andb].
    - destruct (closed_err p Hok Ec) as [e He]. apply write_result_nil; [done|done|]. rewrite He. by right.
    - apply write_result_nil; [done|done|by left]. }
  assert (written < glen data ∧ unreadLen p < vp_bufSize p ∧ vp_closed p = false ∧
    (resumed = false → vp_wrClosed p = false)) as (Hlt&Hsp&Hcl&Hwc).
  { split_and!; [lia|destruct (Z.lt_ge_cases (unreadLen p) (vp_bufSize p)); naive_solver|
      destruct (vp_closed p); naive_solver|destruct (vp_wrClosed p); naive_solver]. }
  set (rest := drop (Z.to_nat written) data).
  assert (glen rest = glen data - written) as Hrest by (unfold rest, glen in *; rewrite length_drop; lia).
  assert (rest ≠ []) as Hrne by (intros E; rewrite E in Hrest; change (glen []) with 0 in Hrest; lia).
  destruct (write_chunk_spec rest p Hok Hcl Hsp Hrne) as (n&p'&Hch&Hok'&Hs'&Hn&Hn0&Hu).
  rewrite (write_step 2 data written resumed p false n p') by done.
  assert (write_result data (written + n) p'
    (write_section scratch 2 data (written + n) false p' true)) as Hr.
  { assert (unreadLen p' = unreadLen p + n) as Hl.
    { rewrite <- (length_unread p'), Hu, glen_app, (length_unread p) by done. f_equal.
      unfold glen in *. rewrite length_take. lia. }
    apply write_stop; [done|lia|done|]. destruct Hs' as (Hbs&_). lia. }
  destruct (write_section scratch 2 data (written + n) false p' true) as [[[o w'] p''] b] eqn:Hsec.
  destruct Hr as (H1&H2&H3&H4&H5&H6).
  unfold write_result. split_and!; [done|by etrans|lia|lia| | |].
  - rewrite H4, Hu, <- (assoc_L (++)). f_equal.
    replace (Z.to_nat (w' - written)) with (Z.to_nat n + Z.to_nat (w' - (written + n)))%nat by lia.
    rewrite <- take_take_drop. f_equal. f_equal. unfold rest. rewrite drop_drop. f_equal. lia.
  - intros _. by apply (write_section_bcast 2 data (written + n) false p') in Hsec.
  - destruct Hs' as (_&_&_&He&_). by rewrite <- He.
Qed.
End spec.

(** [Read] takes from the front of the queue. *)
Definition read_result (k : nat) (p : virtualPipe)
    (r : outcome (gostr * option error) * virtualPipe * bool) : Prop :=
  let '(o, p', bcast) := r in
  pipe_ok p' ∧ same_state p p' ∧
  match o with
  | Return (out, None) => out = take k (unread p) ∧ out ≠ [] ∧ unread p = out ++ unread p' ∧ bcast = true
  | Return (out, Some e) => out = [] ∧ p' = p ∧ bcast = false ∧ (e = ESent ErrEOF → unread p = [] ∧ (vp_wrClosed p = true ∨ vp_closed p = true))
  | Wait => p' = p ∧ bcast = false ∧ unreadLen p = 0 ∧ vp_closed p = false ∧ vp_wrClosed p = false
  | Panic => False
  end.

Lemma reset_spec p : pipe_ok p → vp_closed p = false →
  pipe_ok (resetOrReleaseEmptyBufferLocked p) ∧ same_state p (resetOrReleaseEmptyBufferLocked p) ∧
  unread (resetOrReleaseEmptyBufferLocked p) = unread p.
Proof.
  intros Hok Hcl. unfold resetOrReleaseEmptyBufferLocked. destruct (Z.ltb_spec 0 (unreadLen p)); [done|].
  pose proof (unread_bound p Hok) as Hub. rewrite (unread_nil p) by (done || lia).
  pose proof Hok as [H1 H2 H3 H4 H5]. rewrite Hcl. cbn [orb].
  destruct (vp_wrClosed p).
  - split_and!; [apply released_ok; [done|by rewrite Hcl]|done|done].
  - split_and!; [|done|unfold unread, unreadLen; simpl; by destruct (vp_buf p)].
    split; simpl; [done|lia|change (0 ≤ buf_len p); lia|done|by rewrite Hcl].
Qed.

Lemma read_section_spec now k p : pipe_ok p → (0 < k)%nat → read_result k p (read_section now k p).
Proof.
  intros Hok Hk. unfold read_section.
  assert (∀ e, checkDeadline now p = Some e → e ≠ ESent ErrEOF) as Hdl.
  { unfold checkDeadline. intros e. case_match; [|done]. by intros [= <-]. }
  assert (∀ b, vp_closed p = true → unread p = [] → read_result k p (Return ([], vp_err p), p, b)
    ∨ b = true) as Hclosed.
  { intros b Hc Hu. destruct b; [by right|left]. destruct (po_closed p Hok Hc) as [_ He].
    destruct (vp_err p) eqn:Ee; [|done]. split_and!; [done|done|done|done|done|]. auto. }
  destruct (Z.eqb_spec (unreadLen p) 0) as [Hz|Hz].
  - pose proof (unread_nil p Hok Hz) as Hu. destruct (vp_closed p) eqn:Ec.
    { by destruct (Hclosed false). }
    destruct (vp_wrClosed p) eqn:Ew; [by split_and!; auto|].
    destruct (checkDeadline now p) eqn:Ed; [|done].
    split_and!; [done..|]. intros ->. by destruct (Hdl _ eq_refl).
  - destruct (vp_closed p) eqn:Ec; [by apply closed_unread in Ec|].
    destruct (checkDeadline now p) eqn:Ed.
    { split_and!; [done..|]. intros ->. by destruct (Hdl _ eq_refl). }
    pose proof Hok as [H1 H2 H3 H4 H5]. pose proof (unread_bound p Hok) as Hub.
    destruct (vp_buf p) as [b|] eqn:Eb; [|unfold buf_len, unreadLen in *; rewrite Eb in *; lia].
    change (default [] (Some b)) with b.
    assert (buf_len p = glen b) as Hbl by (unfold buf_len; by rewrite Eb).
    rewrite subslice_ok by lia.
    assert (unread p = take (Z.to_nat (vp_writePos p - vp_readPos p)) (drop (Z.to_nat (vp_readPos p)) b))
      as Hu by (unfold unread; by rewrite Eb).
    rewrite <- Hu. pose proof (length_unread p Hok) as Hlu.
    set (out := take k (unread p)).
    assert (glen out = Z.min (Z.of_nat k) (unreadLen p)) as Hout.
    { unfold out, glen in *. rewrite length_take. lia. }
    set (q := set_pos _ _ p).
    assert (pipe_ok q) as Hq.
    { split; simpl; [done|unfold unreadLen in *; lia|change (vp_writePos p ≤ buf_len p); lia|done|by rewrite Ec]. }
    assert (unread q = drop k (unread p)) as Huq.
    { rewrite Hu, skipn_firstn_comm, drop_drop. unfold unread, unreadLen in *. simpl. rewrite Eb.
      destruct (Z.le_ge_cases (Z.of_nat k) (vp_writePos p - vp_readPos p)).
      - f_equal; [lia|]. f_equal. lia.
      - replace (Z.to_nat (vp_writePos p - (vp_readPos p + glen out))) with 0%nat by lia.
        replace (Z.to_nat (vp_writePos p - vp_readPos p) - k)%nat with 0%nat by lia. done. }
    destruct (reset_spec q Hq Ec) as (Hr1&Hr2&Hr3).
    split_and!; [done|by etrans|done| | |done].
    + intros E. rewrite E in Hout. change (glen []) with 0 in Hout. lia.
    + rewrite Hr3, Huq. unfold out. by rewrite take_drop.
Qed.
