(* ===== verification/VirtualPipeSystem.v ===== *)
(** Concurrent use of a virtual pipe: the calls in progress interleave at their waits, in any
    number and order, with closes of both ends, deadlines and the clock. *)
From S2P Require Import Prelude FsTypes CondVar VirtualPipe VirtualPipeSpec.

(** A call in progress: what it has left to do, as its next section takes it. *)
Inductive vp_call :=
| WriteCall (data : gostr) (written : Z) (resumed : bool)
| ReadCall (k : nat).

(** The pipe, its users, and two ghosts: all bytes that writers have copied into the buffer and
    all bytes that [Read]s have returned, in order.  [vs_panicked] records a panic. *)
Record vp_sys := MkSys {
  vs_pipe : virtualPipe;
  vs_threads : list (thread vp_call);
  vs_sent : gostr;
  vs_recv : gostr;
  vs_panicked : bool;
}.

Definition vp_init (size : Z) : vp_sys := MkSys (newVirtualPipeSize size) [] [] [] false.

Definition out_bytes (o : outcome (gostr * option error)) : gostr :=
  match o with Return (out, _) => out | _ => [] end.

Inductive vp_step (s : vp_sys) : vp_sys → Prop :=
| VpStartWrite data : data ≠ [] →
    vp_step s (MkSys (vs_pipe s) (vs_threads s ++ [Thread (WriteCall data 0 false) false])
                 (vs_sent s) (vs_recv s) (vs_panicked s))
| VpStartRead k : (0 < k)%nat →
    vp_step s (MkSys (vs_pipe s) (vs_threads s ++ [Thread (ReadCall k) false])
                 (vs_sent s) (vs_recv s) (vs_panicked s))
| VpWrite scratch i data written resumed o written' p' b :
    (∀ n, 0 ≤ n → glen (scratch n) = n) →
    vs_threads s !! i = Some (Thread (WriteCall data written resumed) false) →
    write_section scratch write_fuel data written resumed (vs_pipe s) false = (o, written', p', b) →
    vp_step s (MkSys p' (after_section o (WriteCall data written' true) i b (vs_threads s))
                 (vs_sent s ++ take (Z.to_nat (written' - written)) (drop (Z.to_nat written) data))
                 (vs_recv s) (vs_panicked s || is_panic o))
| VpRead now i k o p' b :
    vs_threads s !! i = Some (Thread (ReadCall k) false) →
    read_section now k (vs_pipe s) = (o, p', b) →
    vp_step s (MkSys p' (after_section o (ReadCall k) i b (vs_threads s))
                 (vs_sent s) (vs_recv s ++ out_bytes o) (vs_panicked s || is_panic o))
| VpCloseReader err p' b : Reader_CloseWithError err (vs_pipe s) = (p', b) →
    vp_step s (MkSys p' (wake_all b (vs_threads s)) (vs_sent s) (vs_recv s) (vs_panicked s))
| VpCloseWriter err p' b : Writer_CloseWithError err (vs_pipe s) = (p', b) →
    vp_step s (MkSys p' (wake_all b (vs_threads s)) (vs_sent s) (vs_recv s) (vs_panicked s))
| VpDeadline t p' b : SetReadDeadline t (vs_pipe s) = (p', b) →
    vp_step s (MkSys p' (wake_all b (vs_threads s)) (vs_sent s) (vs_recv s) (vs_panicked s))
| VpTimer :   (* the wake-up scheduled by [SetReadDeadline] *)
    vp_step s (MkSys (vs_pipe s) (wake_all true (vs_threads s)) (vs_sent s) (vs_recv s) (vs_panicked s)).

(** ** The invariant *)

Definition call_ok (c : vp_call) : Prop :=
  match c with
  | WriteCall data written resumed => 0 ≤ written ≤ glen data ∧ (resumed = true → written < glen data)
  | ReadCall k => (0 < k)%nat
  end.

(** Why a call may sleep: a writer because the pipe is full, a reader because it is empty, and
    neither when an end is closed. *)
Definition may_sleep (p : virtualPipe) (c : vp_call) : Prop :=
  vp_closed p = false ∧ vp_wrClosed p = false ∧
  match c with
  | WriteCall _ _ _ => vp_bufSize p ≤ unreadLen p
  | ReadCall _ => unreadLen p = 0
  end.

Record sys_ok (s : vp_sys) : Prop := {
  so_pipe : pipe_ok (vs_pipe s);
  so_stream : ∃ lost, vs_sent s = vs_recv s ++ unread (vs_pipe s) ++ lost ∧
    (vp_closed (vs_pipe s) = false → lost = []);
  so_threads : Forall (thread_ok call_ok (may_sleep (vs_pipe s))) (vs_threads s);
  so_panic : vs_panicked s = false;
}.

Lemma sys_ok_init size : sys_ok (vp_init size).
Proof.
  split; simpl; [apply new_pipe_ok| |constructor|done]. exists []. split; [|done].
  unfold unread. by unfold newVirtualPipeSize.
Qed.

(** A close drops at most what is unread. *)
Lemma close_ok s p' b lost : sys_ok s → pipe_ok p' →
  unread (vs_pipe s) = unread p' ++ lost → (vp_closed p' = false → lost = [] ∧ vp_closed (vs_pipe s) = false) →
  (b = false → p' = vs_pipe s) →
  sys_ok (MkSys p' (wake_all b (vs_threads s)) (vs_sent s) (vs_recv s) (vs_panicked s)).
Proof.
  intros [H1 (l&H2&H3) H4 H5] Hp Hu Hc Hb. split; simpl; [done| |eapply wake_all_ok; [done|by intros E; rewrite (Hb E)]|done].
  exists (lost ++ l). rewrite H2, Hu, <- !(assoc_L (++)). split; [done|].
  intros E. destruct (Hc E) as [-> ?]. by rewrite H3.
Qed.

Lemma reader_close_ok err p p' b : pipe_ok p → Reader_CloseWithError err p = (p', b) →
  pipe_ok p' ∧ vp_closed p' = true ∧ (b = false → p' = p) ∧ ∃ lost, unread p = unread p' ++ lost.
Proof.
  intros Hok. unfold Reader_CloseWithError. destruct (vp_closed p) eqn:Ec; intros [= <- <-].
  - split_and!; [done..|]. exists []. by rewrite app_nil_r.
  - split_and!; [|done|done|by eexists]. apply released_ok; [apply Hok|]. by destruct err.
Qed.

Lemma writer_close_ok err p p' b : pipe_ok p → Writer_CloseWithError err p = (p', b) →
  pipe_ok p' ∧ (b = false → p' = p) ∧
  ∃ lost, unread p = unread p' ++ lost ∧ (vp_closed p' = false → lost = [] ∧ vp_closed p = false).
Proof.
  intros Hok. unfold Writer_CloseWithError.
  destruct (vp_wrClosed p) eqn:Ew; [|destruct err as [e|]]; intros [= <- <-].
  - split_and!; [done..|]. exists []. by rewrite app_nil_r.
  - split_and!; [|done|]; [by apply released_ok; [apply Hok|]|]. by exists (unread p).
  - set (q := set_flags _ _ _ p). assert (pipe_ok q) as Hq by (by destruct Hok; split).
    assert (unread q = unread p) as Hu by done.
    destruct (Z.eqb_spec (unreadLen q) 0) as [Hz|Hz].
    + split_and!; [apply released_ok; [apply Hq|by apply (po_closed q)]|done|].
      exists []. rewrite <- Hu, (unread_nil q) by done. split; [done|]. done.
    + split_and!; [done..|]. exists []. by rewrite app_nil_r.
Qed.

Lemma write_step_ok s scratch i data written resumed o written' p' b :
  sys_ok s → (∀ n, 0 ≤ n → glen (scratch n) = n) →
  vs_threads s !! i = Some (Thread (WriteCall data written resumed) false) →
  write_section scratch write_fuel data written resumed (vs_pipe s) false = (o, written', p', b) →
  sys_ok (MkSys p' (after_section o (WriteCall data written' true) i b (vs_threads s))
            (vs_sent s ++ take (Z.to_nat (written' - written)) (drop (Z.to_nat written) data))
            (vs_recv s) (vs_panicked s || is_panic o)).
Proof.
  intros [H1 (l&H2&H3) H4 H5] Hscr Hi Hsec.
  destruct (Forall_lookup_1 _ _ _ _ H4 Hi) as [[Hw Hres] _].
  pose proof (write_section_spec scratch Hscr data written resumed (vs_pipe s) H1 Hw Hres) as Hr.
  rewrite Hsec in Hr. destruct Hr as (Hok&Hs&Hw'&Hu&Hb&Ho). destruct Hs as (Hs1&Hcl&Hwc&_).
  split; simpl; [done| | |].
  - destruct (decide (written < written')) as [Hlt|Hge].
    + destruct (vp_closed (vs_pipe s)) eqn:Ec.
      * exfalso. apply closed_unread in H1 as Hz; [|done].
        apply closed_unread in Hcl as Hz'; [|done].
        rewrite <- (length_unread p'), Hu, glen_app, (length_unread _ H1), Hz in Hz' by done.
        unfold glen in *. rewrite length_take, length_drop in Hz'. lia.
      * exists []. rewrite H2, H3, Hu, !app_nil_r, <- (assoc_L (++)) by done. done.
    + replace (Z.to_nat (written' - written)) with 0%nat in * by lia. rewrite app_nil_r in *.
      exists l. rewrite Hu, Hcl. done.
  - eapply after_section_ok; [done| |].
    + intros -> c. enough (p' = vs_pipe s) as -> by done. destruct (decide (written < written')) as [Hlt|Hge]; [by apply Hb in Hlt|].
      by eapply write_section_idle.
    + intros ->. destruct Ho as (?&?&?&?). split; [split; [lia|done]|done].
  - rewrite H5. by destruct o.
Qed.

Lemma read_step_ok s now i k o p' b : sys_ok s →
  vs_threads s !! i = Some (Thread (ReadCall k) false) →
  read_section now k (vs_pipe s) = (o, p', b) →
  sys_ok (MkSys p' (after_section o (ReadCall k) i b (vs_threads s)) (vs_sent s)
            (vs_recv s ++ out_bytes o) (vs_panicked s || is_panic o)).
Proof.
  intros [H1 (l&H2&H3) H4 H5] Hi Hsec.
  destruct (Forall_lookup_1 _ _ _ _ H4 Hi) as [Hk _].
  pose proof (read_section_spec now k (vs_pipe s) H1 Hk) as Hr.
  rewrite Hsec in Hr. destruct Hr as (Hok&Hs&Ho). destruct Hs as (_&Hcl&_).
  assert (unread (vs_pipe s) = out_bytes o ++ unread p' ∧ (b = false → p' = vs_pipe s) ∧
    (o = Wait → may_sleep p' (ReadCall k)) ∧ is_panic o = false) as (Hu&Hb&Hw&Hp).
  { destruct o as [[out [e|]]| |]; simpl; [destruct Ho as (->&->&->&_)|destruct Ho as (_&_&Hu&->)|
      destruct Ho as (->&->&?&?&?)|done]; by split_and!. }
  split; simpl; [done| | |by rewrite H5].
  - exists l. rewrite Hcl. split; [|done]. by rewrite H2, Hu, <- !(assoc_L (++)).
  - eapply after_section_ok; [done|by intros Eb; rewrite (Hb Eb)|]. intros E. split; [done|by apply Hw].
Qed.

Lemma vp_step_ok s s' : sys_ok s → vp_step s s' → sys_ok s'.
Proof.
  intros Hok Hs. pose proof Hok as [H1 H2 H3 H4].
  destruct Hs as [data Hd|k Hk|scratch i data written resumed o written' p' b Hscr Hi Hsec|
    now i k o p' b Hi Hsec|err p' b Hc|err p' b Hc|t p' b Hc|].
  - split; simpl; [done..| |done]. apply Forall_app. split; [done|]. apply Forall_singleton.
    split; [|done]. simpl. unfold glen. lia.
  - split; simpl; [done..| |done]. apply Forall_app. split; [done|]. by apply Forall_singleton.
  - by eapply write_step_ok.
  - by eapply read_step_ok.
  - destruct (reader_close_ok _ _ _ _ H1 Hc) as (Hp&Hcl&Hb&lost&Hu). apply (close_ok s p' b lost); [done..|by rewrite Hcl|done].
  - destruct (writer_close_ok _ _ _ _ H1 Hc) as (Hp&Hb&lost&Hu&Hcl). by apply (close_ok s p' b lost).
  - injection Hc as <- <-. apply (close_ok s _ true []); [done| |by rewrite app_nil_r|done|done].
    by destruct H1; split.
  - apply (close_ok s _ true []); [done|done|by rewrite app_nil_r|done|done].
Qed.

Lemma vp_reachable_ok size s : rtc vp_step (vp_init size) s → sys_ok s.
Proof.
  assert (∀ s0 s, rtc vp_step s0 s → sys_ok s0 → sys_ok s) as H.
  { induction 1; [done|]. intros. by eapply IHrtc, vp_step_ok. }
  intros Hr. eapply H; [done|apply sys_ok_init].
Qed.

(** ** The theorems *)

(** C10: a virtual pipe is a first-in first-out byte stream under any interleaving of reads, writes,
    closes and deadlines: what readers have received, followed by what is still unread, is what
    writers have put in, byte for byte and in order, until an end is closed with bytes pending;
    then the received bytes are a prefix of those put in.  The buffer never holds more than the
    pipe's capacity, and no slice is ever taken out of range. *)
Theorem virtual_pipe_fifo size s : rtc vp_step (vp_init size) s →
  (vp_closed (vs_pipe s) = false → vs_sent s = vs_recv s ++ unread (vs_pipe s)) ∧
  vs_recv s `prefix_of` vs_sent s ∧
  glen (unread (vs_pipe s)) ≤ vp_bufSize (vs_pipe s) ∧ buf_len (vs_pipe s) ≤ vp_bufSize (vs_pipe s) ∧
  vs_panicked s = false.
Proof.
  intros Hr. destruct (vp_reachable_ok size s Hr) as [H1 (l&H2&H3) H4 H5]. split_and!.
  - intros Hc. rewrite H2, H3, app_nil_r by done. done.
  - rewrite H2. by apply prefix_app_r.
  - rewrite length_unread by done. apply unread_bound, H1.
  - apply H1.
  - done.
Qed.

(** C11: no wake-up is lost: in every reachable state a call that sleeps has reason to: a sleeping
    writer's pipe is full, a sleeping reader's is empty, and neither end is closed. *)
Theorem virtual_pipe_no_lost_wakeup size s i c : rtc vp_step (vp_init size) s →
  vs_threads s !! i = Some (Thread c true) →
  vp_closed (vs_pipe s) = false ∧ vp_wrClosed (vs_pipe s) = false ∧
  match c with
  | WriteCall _ _ _ => glen (unread (vs_pipe s)) = vp_bufSize (vs_pipe s)
  | ReadCall _ => unread (vs_pipe s) = []
  end.
Proof.
  intros Hr Hi. destruct (vp_reachable_ok size s Hr) as [H1 _ H4 _].
  destruct (Forall_lookup_1 _ _ _ _ H4 Hi) as [_ (Hc&Hw&Hs)]; [done|].
  split_and!; [done..|]. pose proof (unread_bound _ H1). destruct c; simpl in Hs.
  - rewrite length_unread by done. lia.
  - by apply unread_nil.
Qed.

(** The buffer that a write asks for is never larger than the pipe's capacity and never smaller
    than what it must hold, however the doubling wraps. *)
Theorem nextBufferCapacity_fits p needed : 0 < needed ≤ vp_bufSize p →
  needed ≤ nextBufferCapacity p needed ≤ vp_bufSize p.
Proof. apply nextBufferCapacity_bounds. Qed.

(** A [Write] in one section (up to its first wait) puts in as much as fits, and reports what it
    did: it returns without error exactly when all of its bytes are in, it waits only when the pipe
    is full and open, and it stops with the error of a closed pipe otherwise. *)
Theorem virtual_pipe_write_section scratch data written resumed p :
  (∀ n, 0 ≤ n → glen (scratch n) = n) → pipe_ok p → 0 ≤ written ≤ glen data →
  (resumed = true → written < glen data) →
  write_result data written p (write_section scratch write_fuel data written resumed p false).
Proof. intros Hs. by apply write_section_spec. Qed.

(** ** Examples *)

Definition zeros (n : Z) : gostr := replicate (Z.to_nat n) "000"%char.

Lemma zeros_len n : 0 ≤ n → glen (zeros n) = n.
Proof. intros H. unfold zeros, glen. rewrite length_replicate. lia. Qed.

(** A pipe of 4 bytes: a write of 6 bytes fills it and waits. *)
Definition demo_full : vp_sys :=
  match write_section zeros write_fuel (go "abcdef") 0 false (newVirtualPipeSize 4) false with
  | (o, w, p, b) =>
      MkSys p (after_section o (WriteCall (go "abcdef") w true) 0 b
                 [Thread (WriteCall (go "abcdef") 0 false) false])
        (take (Z.to_nat (w - 0)) (drop (Z.to_nat 0) (go "abcdef"))) [] (false || is_panic o)
  end.

Lemma demo_full_reachable : rtc vp_step (vp_init 4) demo_full.
Proof.
  eapply rtc_l; [by apply (VpStartWrite _ (go "abcdef"))|]. apply rtc_once.
  unfold demo_full.
  destruct (write_section zeros write_fuel (go "abcdef") 0 false (newVirtualPipeSize 4) false)
    as [[[o w] p] b] eqn:E.
  exact (VpWrite (MkSys (newVirtualPipeSize 4) [Thread (WriteCall (go "abcdef") 0 false) false] [] [] false)
    zeros 0 (go "abcdef") 0 false o w p b zeros_len eq_refl E).
Qed.

Lemma virtual_pipe_fifo_witness :
  vs_sent demo_full = go "abcd" ∧ unread (vs_pipe demo_full) = go "abcd" ∧
  vs_sent demo_full = vs_recv demo_full ++ unread (vs_pipe demo_full).
Proof.
  split; [vm_compute; reflexivity|]. split; [vm_compute; reflexivity|].
  apply (virtual_pipe_fifo 4 demo_full demo_full_reachable). vm_compute. reflexivity.
Defined.

Lemma virtual_pipe_no_lost_wakeup_witness :
  vs_threads demo_full !! 0%nat = Some (Thread (WriteCall (go "abcdef") 4 true) true) ∧
  glen (unread (vs_pipe demo_full)) = vp_bufSize (vs_pipe demo_full).
Proof.
  assert (vs_threads demo_full !! 0%nat = Some (Thread (WriteCall (go "abcdef") 4 true) true)) as H
    by (vm_compute; reflexivity).
  split; [exact H|].
  exact (proj2 (proj2 (virtual_pipe_no_lost_wakeup 4 demo_full 0 _ demo_full_reachable H))).
Defined.

Lemma nextBufferCapacity_fits_witness :
  nextBufferCapacity (newVirtualPipeSize 5000) 4500 = 4500 ∧
  4500 ≤ nextBufferCapacity (newVirtualPipeSize 5000) 4500 ≤ 5000.
Proof.
  split; [vm_compute; reflexivity|].
  apply (nextBufferCapacity_fits (newVirtualPipeSize 5000) 4500). vm_compute. split; [reflexivity|discriminate].
Defined.

Lemma virtual_pipe_write_section_witness :
  write_result (go "abcdef") 0 (newVirtualPipeSize 4)
    (write_section zeros write_fuel (go "abcdef") 0 false (newVirtualPipeSize 4) false).
Proof.
  apply (virtual_pipe_write_section zeros (go "abcdef") 0 false (newVirtualPipeSize 4) zeros_len).
  - apply new_pipe_ok.
  - vm_compute. split; discriminate.
  - discriminate.
Defined.
