(* ===== verification/CaptureBuffer.v ===== *)
(** The capped output buffer of [internal/runtime/buffer.go], which spills what is over its limit
    to a host file: what the memory and the file hold of the stream that was written. *)
From S2P Require Import Prelude FsTypes.

Definition defaultMaxSpillBytes : Z := Z.shiftl 64 20.

(** [cb_disk] is the content of the file at [cb_spillPath] on the host; [cb_open] whether
    [spillFile] is a handle on it (not nil). *)
Record captureBuffer := MkCapture {
  cb_buf : gostr;
  cb_limit : Z;
  cb_truncated : bool;
  cb_spillDir : gostr;
  cb_spillMax : Z;
  cb_spillPath : gostr;
  cb_open : bool;
  cb_spillBytes : Z;
  cb_spillDone : bool;
  cb_spillCut : bool;
  cb_disk : gostr;
}.

Definition newCaptureBuffer (limit : Z) : captureBuffer :=
  MkCapture [] limit false [] 0 [] false 0 false false [].

Definition newSpillingCaptureBuffer (limit : Z) (spillDir : gostr) (spillMax : Z) : captureBuffer :=
  let spillMax := if spillMax <=? 0 then defaultMaxSpillBytes else spillMax in
  MkCapture [] limit false spillDir spillMax [] false 0 false false [].

(** What the host does during a call: the path that [os.CreateTemp] returns or an error, how many
    bytes [File.Write] manages (it fails when that is fewer than it was given), and whether
    [File.Close] succeeds. *)
Record host := Host { h_create : option gostr; h_write : nat; h_close : bool }.

Definition set_memory (buf : gostr) (truncated : bool) (b : captureBuffer) : captureBuffer :=
  MkCapture buf (cb_limit b) truncated (cb_spillDir b) (cb_spillMax b) (cb_spillPath b) (cb_open b)
    (cb_spillBytes b) (cb_spillDone b) (cb_spillCut b) (cb_disk b).

Definition set_spill (path : gostr) (is_open : bool) (bytes : Z) (done cut : bool) (disk : gostr)
    (b : captureBuffer) : captureBuffer :=
  MkCapture (cb_buf b) (cb_limit b) (cb_truncated b) (cb_spillDir b) (cb_spillMax b) path is_open
    bytes done cut disk.

Definition abandonSpillLocked (b : captureBuffer) : captureBuffer :=
  set_spill [] false (cb_spillBytes b) true (cb_spillCut b) [] b.

(** The part of [spillLocked] after the file is there. *)
Definition spill_write (h : host) (p : gostr) (b : captureBuffer) : captureBuffer :=
  let room := cb_spillMax b - cb_spillBytes b in
  let cut := room <? glen p in
  let p := if cut then take (Z.to_nat room) p else p in
  let n := Nat.min (h_write h) (length p) in
  let b := set_spill (cb_spillPath b) true (cb_spillBytes b + Z.of_nat n) (cb_spillDone b || cut)
             (cb_spillCut b || cut) (cb_disk b ++ take n p) b in
  if bool_decide (n < length p)%nat then abandonSpillLocked b else b.

Definition spillLocked (h : host) (p : gostr) (b : captureBuffer) : captureBuffer :=
  if bool_decide (cb_spillDir b = []) || cb_spillDone b then b
  else if cb_open b then spill_write h p b
  else match h_create h with
  | None => set_spill (cb_spillPath b) false (cb_spillBytes b) true (cb_spillCut b) (cb_disk b) b
  | Some path => spill_write h p (set_spill path true (cb_spillBytes b) (cb_spillDone b) (cb_spillCut b) [] b)
  end.

(** [Write]: it always reports [len(p)] bytes and no error. *)
Definition cb_Write (h : host) (p : gostr) (b : captureBuffer) : Z * captureBuffer :=
  if cb_limit b <=? 0 then (glen p, set_memory (cb_buf b ++ p) (cb_truncated b) b)
  else
    let remaining := cb_limit b - glen (cb_buf b) in
    if remaining <=? 0 then (glen p, spillLocked h p (set_memory (cb_buf b) true b))
    else if glen p <=? remaining then (glen p, set_memory (cb_buf b ++ p) (cb_truncated b) b)
    else
      let b := set_memory (cb_buf b ++ take (Z.to_nat remaining) p) true b in
      (glen p, spillLocked h (drop (Z.to_nat remaining) p) b).

Definition cb_String (b : captureBuffer) : gostr := cb_buf b.
Definition Truncated (b : captureBuffer) : bool := cb_truncated b.
Definition SpillPath (b : captureBuffer) : gostr := cb_spillPath b.
Definition SpillTruncated (b : captureBuffer) : bool := cb_spillCut b && bool_decide (cb_spillPath b ≠ []).

Definition cb_Close (h : host) (b : captureBuffer) : captureBuffer :=
  if negb (cb_open b) then
    set_spill (cb_spillPath b) false (cb_spillBytes b) true (cb_spillCut b) (cb_disk b) b
  else
    let b := set_spill (cb_spillPath b) false (cb_spillBytes b) true (cb_spillCut b) (cb_disk b) b in
    if h_close h then b else abandonSpillLocked b.

(** ** Runs *)

Inductive cb_op := OpW (h : host) (p : gostr) | OpClose (h : host).

Definition cb_step (b : captureBuffer) (o : cb_op) : captureBuffer :=
  match o with OpW h p => (cb_Write h p b).2 | OpClose h => cb_Close h b end.

Definition cb_run (ops : list cb_op) (b : captureBuffer) : captureBuffer := foldl cb_step b ops.

(** Everything written. *)
Definition written_by (o : cb_op) : gostr := match o with OpW _ p => p | OpClose _ => [] end.
Definition stream (ops : list cb_op) : gostr := concat (map written_by ops).

(** What the temp file should reproduce: what was written until the first [Close]. *)
Fixpoint before_close (ops : list cb_op) : list cb_op :=
  match ops with
  | [] => []
  | OpClose _ :: _ => []
  | o :: ops => o :: before_close ops
  end.

(** A real host names its files. *)
Definition host_ok (h : host) : Prop := h_create h ≠ Some [].
Definition op_ok (o : cb_op) : Prop := match o with OpW h _ | OpClose h => host_ok h end.

(** ** The invariant of a run

    [s] is the stream so far, [u] the stream until [Close]. *)
Record mem_ok (limit : Z) (s : gostr) (b : captureBuffer) : Prop := {
  mo_limit : cb_limit b = limit;
  mo_buf : cb_buf b = if limit <=? 0 then s else take (Z.to_nat limit) s;
  mo_lost : 0 < limit < glen s → cb_truncated b = true;
  mo_truncated : cb_truncated b = true → 0 < limit ≤ glen s;
}.

Record spill_ok (limit : Z) (u : gostr) (closed : bool) (b : captureBuffer) : Prop := {
  sp_closed : closed = true → cb_open b = false ∧ cb_spillDone b = true;
  sp_none : cb_spillPath b = [] → cb_open b = false;
  sp_path : cb_spillPath b ≠ [] → closed = false → cb_open b = true;
  sp_dir : cb_spillPath b ≠ [] → cb_spillDir b ≠ [];
  sp_fresh : cb_spillPath b = [] → cb_spillDone b = false →
    cb_spillBytes b = 0 ∧ cb_spillCut b = false ∧
    (glen u ≤ limit ∨ limit ≤ 0 ∨ cb_spillDir b = []);
  sp_disk : cb_spillPath b ≠ [] → 0 < limit ≤ glen u ∧ cb_spillBytes b = glen (cb_disk b) ∧
    cb_disk b = (if cb_spillCut b then take (Z.to_nat (cb_spillMax b)) (drop (Z.to_nat limit) u)
                 else drop (Z.to_nat limit) u);
  sp_cut : cb_spillPath b ≠ [] → cb_spillCut b = true → cb_spillDone b = true ∧ limit + cb_spillMax b < glen u;
  sp_done : cb_spillPath b ≠ [] → closed = false → cb_spillDone b = cb_spillCut b;
  sp_max : cb_spillPath b ≠ [] → glen (cb_disk b) ≤ cb_spillMax b;
  sp_pos : cb_spillDir b ≠ [] → 0 < cb_spillMax b;
  sp_lost : cb_spillPath b ≠ [] → cb_truncated b = true;
}.

(** Bytes that fit in memory do not concern the spill. *)
Lemma spill_ok_grow limit u p b : spill_ok limit u false b → limit ≤ 0 ∨ glen (u ++ p) ≤ limit →
  spill_ok limit (u ++ p) false b.
Proof.
  intros [H1 H2 H3 H4 H5 H6 H7 H8 H9 H10 H11] Hl.
  destruct (decide (cb_spillPath b = [])) as [Hp|Hp].
  - split; try done. intros _ Hd. destruct (H5 Hp Hd) as (?&?&?). split_and!; [done..|].
    destruct Hl; auto.
  - destruct (H6 Hp) as (Hlim&_). assert (p = []) as ->; [|by rewrite app_nil_r].
    rewrite glen_app in Hl. destruct p; [done|]. unfold glen in *. simpl in *. lia.
Qed.

Lemma abandon_ok limit u b : (cb_spillDir b ≠ [] → 0 < cb_spillMax b) →
  spill_ok limit u false (abandonSpillLocked b).
Proof. intros H. by split. Qed.

Lemma drop_app_overflow (l : Z) (u p : gostr) : 0 ≤ l ≤ glen u →
  drop (Z.to_nat l) (u ++ p) = drop (Z.to_nat l) u ++ p.
Proof. intros H. unfold glen in H. rewrite drop_app_le by lia. done. Qed.

Lemma spill_write_ok limit u h p b : 0 < limit ≤ glen u → cb_spillPath b ≠ [] → cb_spillDir b ≠ [] →
  0 < cb_spillMax b → cb_spillDone b = false → cb_spillCut b = false →
  cb_disk b = drop (Z.to_nat limit) u → cb_spillBytes b = glen (cb_disk b) →
  glen (cb_disk b) ≤ cb_spillMax b → cb_truncated b = true →
  spill_ok limit (u ++ p) false (spill_write h p b).
Proof.
  intros Hl Hp Hdir Hmax Hdone Hcut Hdisk Hbytes Hle Htr. pose proof (glen_nonneg p). unfold spill_write. cbv zeta.
  set (room := cb_spillMax b - cb_spillBytes b). set (cut := room <? glen p).
  set (q := if cut then take (Z.to_nat room) p else p).
  rewrite Hdone, Hcut. cbn [orb].
  case_bool_decide as Hshort; [by apply abandon_ok|].
  assert (Nat.min (h_write h) (length q) = length q) as -> by lia. rewrite firstn_all.
  assert (0 ≤ room) as Hroom by lia.
  assert (glen (cb_disk b ++ q) ≤ cb_spillMax b) as Hlen.
  { rewrite glen_app. unfold q, cut. destruct (Z.ltb_spec room (glen p)); [|lia].
    unfold glen at 2. rewrite length_take. lia. }
  split; simpl; try done.
  - intros _. split; [rewrite glen_app; lia|]. split; [rewrite glen_app, Hbytes; done|].
    rewrite drop_app_overflow, Hdisk by lia. unfold q. destruct cut; [|done].
    rewrite Hdisk in *. assert (length (drop (Z.to_nat limit) u) + Z.to_nat room = Z.to_nat (cb_spillMax b))%nat
      as <- by (unfold glen in *; lia).
    by rewrite take_app_add.
  - intros _ Hc. split; [done|]. apply Z.ltb_lt in Hc. rewrite glen_app.
    assert (glen (cb_disk b) = glen u - limit); [|lia].
    rewrite Hdisk. unfold glen. rewrite length_drop. unfold glen in Hl. lia.
Qed.

Lemma spillLocked_ok limit u h p b : host_ok h → 0 < limit ≤ glen u → spill_ok limit u false b →
  cb_truncated b = true →
  spill_ok limit (u ++ p) false (spillLocked h p b).
Proof.
  intros Hh Hl Hok Htr. pose proof (glen_nonneg p). pose proof Hok as [H1 H2 H3 H4 H5 H6 H7 H8 H9 H10 H11]. unfold spillLocked.
  destruct (bool_decide (cb_spillDir b = []) || cb_spillDone b) eqn:E.
  - apply orb_true_iff in E. rewrite bool_decide_eq_true in E.
    destruct (decide (cb_spillPath b = [])) as [Hp|Hp].
    + split; try done. intros _ Hd. destruct (H5 Hp Hd) as (?&?&_). split_and!; [done..|].
      destruct E as [?|?]; [auto|congruence].
    + destruct E as [E|E]; [by apply H4 in E|]. rewrite (H8 Hp eq_refl) in E.
      destruct (H6 Hp) as (_&Hb&Hd). destruct (H7 Hp E) as [Hdn Hlen]. rewrite E in Hd.
      split; try done.
      * intros _. split; [rewrite glen_app; lia|]. split; [done|]. rewrite E, Hd.
        rewrite drop_app_overflow, take_app_le; [done| |lia]. rewrite length_drop. unfold glen in *. lia.
      * intros _ _. split; [done|]. rewrite glen_app. unfold glen in *. lia.
  - apply orb_false_iff in E as [Hdir%bool_decide_eq_false Hdone].
    destruct (cb_open b) eqn:Eo.
    + assert (cb_spillPath b ≠ []) as Hp by (intros Hp; by apply H2 in Hp).
      destruct (H6 Hp) as (_&Hb&Hd). assert (cb_spillCut b = false) as Hc by (rewrite <- (H8 Hp eq_refl); done).
      rewrite Hc in Hd. by apply spill_write_ok; auto.
    + assert (cb_spillPath b = []) as Hp.
      { destruct (decide (cb_spillPath b = [])) as [|Hp]; [done|]. by discriminate (H3 Hp eq_refl). }
      destruct (H5 Hp Hdone) as (Hb0&Hc0&Hfirst).
      destruct (h_create h) as [path|] eqn:Eh.
      * assert (path ≠ []) as Hpath by (intros ->; by apply Hh).
        assert (glen u = limit) as Hu by (destruct Hfirst as [?|[?|?]]; [lia|lia|done]).
        apply spill_write_ok; simpl; try done; auto.
        -- symmetry. apply drop_ge. unfold glen in Hu. lia.
        -- apply H10 in Hdir. change (glen []) with 0. lia.
      * split; simpl; try done; by rewrite Hp.
Qed.

Lemma spillLocked_closed limit u h p b : spill_ok limit u true b → spillLocked h p b = b.
Proof.
  intros Hok. destruct (sp_closed _ _ _ _ Hok eq_refl) as [_ Hd]. unfold spillLocked.
  by rewrite Hd, orb_true_r.
Qed.

Lemma spillLocked_mem h p b : cb_limit (spillLocked h p b) = cb_limit b ∧
  cb_buf (spillLocked h p b) = cb_buf b ∧ cb_truncated (spillLocked h p b) = cb_truncated b.
Proof.
  unfold spillLocked, spill_write, abandonSpillLocked. cbv zeta. repeat case_match; done.
Qed.

Lemma mem_ok_spill limit s h p b : mem_ok limit s b → mem_ok limit s (spillLocked h p b).
Proof.
  intros [H1 H2 H3 H4]. destruct (spillLocked_mem h p b) as (E1&E2&E3).
  split; rewrite ?E1, ?E2, ?E3; done.
Qed.

(** The spill part of a [Write]: the bytes [p2] of [p1 ++ p2] that do not fit. *)
Definition stream_ok (limit : Z) (s u : gostr) (closed : bool) (b : captureBuffer) : Prop :=
  mem_ok limit s b ∧ spill_ok limit u closed b ∧ (if closed then u `prefix_of` s else u = s).

Lemma spill_ok_memory limit u closed b buf t :
  spill_ok limit u closed b → (cb_truncated b = true → t = true) →
  spill_ok limit u closed (set_memory buf t b).
Proof. intros [H1 H2 H3 H4 H5 H6 H7 H8 H9 H10 H11] Ht. split; simpl; auto. Qed.

Lemma glen_take (r : Z) (p : gostr) : 0 ≤ r ≤ glen p → glen (take (Z.to_nat r) p) = r.
Proof. unfold glen. rewrite length_take. lia. Qed.

(** How much of a write fits: [remaining], when it is positive. *)
Definition fits (b : captureBuffer) : Z := Z.max 0 (cb_limit b - glen (cb_buf b)).

Lemma mem_split limit s p b : 0 < limit → mem_ok limit s b → fits b ≤ glen p →
  limit ≤ glen (s ++ p) →
  mem_ok limit (s ++ p) (set_memory (cb_buf b ++ take (Z.to_nat (fits b)) p) true b) ∧
  limit ≤ glen (s ++ take (Z.to_nat (fits b)) p) ∧ (0 < fits b → glen s = limit - fits b).
Proof.
  intros Hl [H1 H2 H3 H4] Hr Hfull. unfold fits in *. rewrite H1 in *.
  set (r := Z.max 0 (limit - glen (cb_buf b))) in *.
  rewrite (proj2 (Z.leb_gt limit 0)) in H2 by done.
  assert (glen (cb_buf b) = Z.min limit (glen s)) as Hlen.
  { rewrite H2. unfold glen. rewrite length_take. lia. }
  split_and!; [|rewrite glen_app, glen_take; lia|lia].
  split; simpl; [done| |done|].
  - rewrite (proj2 (Z.leb_gt limit 0)), H2 by done. rewrite take_app. f_equal. f_equal.
    unfold glen in *. lia.
  - rewrite glen_app in *. lia.
Qed.

(** A write that does not fit. *)
Lemma overflow_ok limit s u closed h p b : host_ok h → 0 < limit → stream_ok limit s u closed b →
  fits b ≤ glen p → limit ≤ glen (s ++ p) →
  stream_ok limit (s ++ p) (if closed then u else u ++ p) closed
    (spillLocked h (drop (Z.to_nat (fits b)) p)
       (set_memory (cb_buf b ++ take (Z.to_nat (fits b)) p) true b)).
Proof.
  intros Hh Hl (Hm&Hs&Hu) Hr Hfull.
  destruct (mem_split limit s p b Hl Hm Hr Hfull) as (Hm'&Hlen&Hsl).
  split_and!; [by apply mem_ok_spill| |destruct closed; [by apply prefix_app_r|by rewrite Hu]].
  destruct closed.
  - erewrite spillLocked_closed; by apply spill_ok_memory.
  - subst u. rewrite <- (take_drop (Z.to_nat (fits b)) p) at 1. rewrite (assoc_L (++)).
    apply spillLocked_ok; [done|lia| |done]. apply spill_ok_memory; [|done].
    destruct (decide (0 < fits b)) as [Hpos|Hz].
    + apply spill_ok_grow; [done|]. right. rewrite glen_app, glen_take; [|lia].
      specialize (Hsl Hpos). lia.
    + assert (fits b = 0) as -> by (unfold fits in *; lia). rewrite take_0. by rewrite app_nil_r.
Qed.

Lemma write_ok limit s u closed h p b : host_ok h → stream_ok limit s u closed b →
  stream_ok limit (s ++ p) (if closed then u else u ++ p) closed (cb_Write h p b).2.
Proof.
  intros Hh Hok. pose proof Hok as (Hm&Hs&Hu). pose proof Hm as [H1 H2 H3 H4]. unfold cb_Write.
  pose proof (glen_nonneg p) as Hp0.
  assert (∀ b', limit ≤ 0 ∨ glen (s ++ p) ≤ limit → mem_ok limit (s ++ p) b' →
    spill_ok limit u closed b' → stream_ok limit (s ++ p) (if closed then u else u ++ p) closed b') as Hfit.
  { intros b' Hl Hm' Hs'. split_and!; [done| |destruct closed; [by apply prefix_app_r|by rewrite Hu]].
    destruct closed; [done|]. apply spill_ok_grow; [done|]. by rewrite Hu. }
  rewrite H1. destruct (Z.leb_spec limit 0) as [Hl|Hl].
  { simpl. apply Hfit; [by left| |by apply spill_ok_memory].
    split; simpl; [done| |lia|intros Ht; apply H4 in Ht; lia].
    by rewrite (proj2 (Z.leb_le limit 0)), H2 by done. }
  assert (glen (cb_buf b) = Z.min limit (glen s)) as Hlen.
  { rewrite H2. unfold glen. rewrite length_take. lia. }
  destruct (Z.leb_spec (limit - glen (cb_buf b)) 0) as [Hr|Hr].
  { pose proof (overflow_ok limit s u closed h p b Hh Hl Hok) as H.
    assert (fits b = 0) as Hf by (unfold fits; rewrite H1; lia). rewrite Hf in H.
    change (Z.to_nat 0) with 0%nat in H. rewrite take_0, drop_0, app_nil_r in H.
    apply H; [lia|]. rewrite glen_app. lia. }
  destruct (Z.leb_spec (glen p) (limit - glen (cb_buf b))) as [Hp|Hp].
  - simpl. apply Hfit; [right; rewrite glen_app; lia| |by apply spill_ok_memory].
    split; simpl; [done| |rewrite glen_app; lia|intros Ht; apply H4 in Ht; rewrite glen_app; lia].
    rewrite (proj2 (Z.leb_gt limit 0)), H2 by done.
    rewrite !firstn_all2; [done|rewrite length_app; unfold glen in *; lia|unfold glen in *; lia].
  - pose proof (overflow_ok limit s u closed h p b Hh Hl Hok) as H.
    assert (fits b = limit - glen (cb_buf b)) as Hf by (unfold fits; rewrite H1; lia). rewrite Hf in H.
    apply H; [lia|]. rewrite glen_app. lia.
Qed.

Lemma capture_close_ok limit s u closed h b : stream_ok limit s u closed b → stream_ok limit s u true (cb_Close h b).
Proof.
  intros ([H1 H2 H3 H4]&[K1 K2 K3 K4 K5 K6 K7 K8 K9 K10 K11]&Hu).
  assert (u `prefix_of` s) as Hpre by (destruct closed; [done|by rewrite Hu]).
  unfold cb_Close, abandonSpillLocked. destruct (cb_open b) eqn:Eo; cbn [negb].
  - destruct (h_close h); split_and!; try done; split; simpl; try done; naive_solver.
  - split_and!; try done; split; simpl; try done; naive_solver.
Qed.

Definition is_close (o : cb_op) : bool := match o with OpClose _ => true | _ => false end.

Lemma run_ok limit s u closed ops b : Forall op_ok ops → stream_ok limit s u closed b →
  stream_ok limit (s ++ stream ops) (if closed then u else u ++ stream (before_close ops))
    (closed || existsb is_close ops) (cb_run ops b).
Proof.
  revert s u closed b. induction ops as [|o ops IH]; intros s u closed b Hops Hok.
  { simpl. rewrite !app_nil_r, orb_false_r. by destruct closed. }
  apply Forall_cons_1 in Hops as [Ho Hops]. destruct o as [h p|h]; simpl.
  - pose proof (IH (s ++ p) (if closed then u else u ++ p) closed (cb_Write h p b).2 Hops
      (write_ok limit s u closed h p b Ho Hok)) as H.
    unfold stream in *. simpl. rewrite (assoc_L (++)). destruct closed; [done|].
    rewrite (assoc_L (++)). done.
  - pose proof (IH s u true (cb_Close h b) Hops (capture_close_ok limit s u closed h b Hok)) as H.
    unfold stream in *. simpl. rewrite orb_true_r. destruct closed; [done|]. by rewrite app_nil_r.
Qed.

Lemma new_ok limit dir max : stream_ok limit [] [] false (newSpillingCaptureBuffer limit dir max).
Proof.
  split_and!; [| |done].
  - split; simpl; [done| |change (glen []) with 0; lia|done]. rewrite take_nil. by destruct (limit <=? 0).
  - split; simpl; try done.
    + intros _ _. change (glen []) with 0. split_and!; [done..|]. lia.
    + intros _. destruct (Z.leb_spec max 0); [by vm_compute|done].
Qed.

Lemma new_plain_ok limit : stream_ok limit [] [] false (newCaptureBuffer limit).
Proof.
  split_and!; [| |done].
  - split; simpl; [done| |change (glen []) with 0; lia|done]. rewrite take_nil. by destruct (limit <=? 0).
  - split; simpl; try done. intros _ _. split_and!; [done..|]. by right; right.
Qed.

Lemma run_prefix ops : stream (before_close ops) `prefix_of` stream ops.
Proof.
  induction ops as [|[h p|h] ops IH]; [done| |apply prefix_nil].
  unfold stream in *. simpl. by apply prefix_app.
Qed.

Lemma spillLocked_max h p b : cb_spillMax (spillLocked h p b) = cb_spillMax b.
Proof. unfold spillLocked, spill_write, abandonSpillLocked. cbv zeta. repeat case_match; done. Qed.

Lemma run_spillMax ops b : cb_spillMax (cb_run ops b) = cb_spillMax b.
Proof.
  revert b. induction ops as [|o ops IH]; intros b; [done|]. unfold cb_run in *. simpl. rewrite IH.
  destruct o as [h p|h]; simpl.
  - unfold cb_Write. repeat case_match; simpl; rewrite ?spillLocked_max; done.
  - unfold cb_Close, abandonSpillLocked. repeat case_match; done.
Qed.

(** C14: a capture buffer never loses track of the stream: whatever the host does, after any writes
    and closes the memory holds exactly the first [limit] bytes written (everything, without a
    limit), so nothing is lost unless [Truncated] says so; and when [SpillPath] names a file, that
    file holds exactly the bytes that followed, up to the first [Close]: all of them, so that
    memory and file together are the stream, or, when [SpillTruncated] says so, the first
    [spillMax] of them. *)
Theorem capture_reproduces_stream limit dir max ops : Forall op_ok ops →
  let b := cb_run ops (newSpillingCaptureBuffer limit dir max) in
  let cap := if max <=? 0 then defaultMaxSpillBytes else max in
  cb_String b = (if limit <=? 0 then stream ops else take (Z.to_nat limit) (stream ops)) ∧
  (Truncated b = false → cb_String b = stream ops) ∧
  (SpillPath b ≠ [] →
     glen (cb_disk b) ≤ cap ∧ Truncated b = true ∧
     if SpillTruncated b
     then cb_disk b = take (Z.to_nat cap) (drop (Z.to_nat limit) (stream (before_close ops))) ∧
          limit + cap < glen (stream (before_close ops))
     else cb_String b ++ cb_disk b = stream (before_close ops)).
Proof.
  intros Hops b cap. pose proof (run_ok limit [] [] false ops _ Hops (new_ok limit dir max)) as Hok.
  change (cb_run ops (newSpillingCaptureBuffer limit dir max)) with b in Hok. cbn [app orb] in Hok.
  destruct Hok as ([H1 H2 H3 H4]&[K1 K2 K3 K4 K5 K6 K7 K8 K9 K10 K11]&_).
  split_and!; [done| |].
  - intros Ht. unfold cb_String. rewrite H2. destruct (Z.leb_spec limit 0); [done|].
    apply firstn_all2. destruct (decide (glen (stream ops) ≤ limit)); [unfold glen in *; lia|].
    unfold Truncated in Ht. rewrite H3 in Ht; [done|lia].
  - intros Hp.
    assert (cb_spillMax b = cap) as Hcap by (apply run_spillMax).
    destruct (K6 Hp) as (Hl&_&Hd). rewrite <- Hcap. split_and!; [by apply K9|by apply K11|].
    unfold SpillTruncated, SpillPath in *. rewrite bool_decide_eq_true_2, andb_true_r by done.
    destruct (cb_spillCut b) eqn:Ec; [split; [done|by apply K7]|].
    unfold cb_String. rewrite H2, Hd, (proj2 (Z.leb_gt limit 0)) by lia.
    destruct (run_prefix ops) as [k Hk]. rewrite Hk at 1. rewrite take_app_le by (unfold glen in *; lia).
    apply take_drop.
Qed.

(** ** Examples *)

Definition demo_host : host := Host (Some (go "/tmp/gbash-output-1")) 1000 true.
Definition demo_writes : list cb_op := [OpW demo_host (go "hello "); OpW demo_host (go "world"); OpClose demo_host].

Lemma capture_reproduces_stream_witness :
  let b := cb_run demo_writes (newSpillingCaptureBuffer 4 (go "/tmp") 0) in
  SpillPath b = go "/tmp/gbash-output-1" ∧ SpillTruncated b = false ∧
  cb_String b ++ cb_disk b = go "hello world".
Proof.
  split; [vm_compute; reflexivity|]. split; [vm_compute; reflexivity|].
  destruct (capture_reproduces_stream 4 (go "/tmp") 0 demo_writes) as (_&_&H).
  - repeat constructor; discriminate.
  - destruct H as (_&_&H); [vm_compute; discriminate|]. exact H.
Defined.

(** An empty write to a buffer that is exactly full marks it truncated and creates an empty spill
    file, though nothing is lost. *)
Example empty_write_spills :
  let b := cb_run [OpW demo_host (go "abcd"); OpW demo_host []] (newSpillingCaptureBuffer 4 (go "/tmp") 0) in
  Truncated b = true ∧ SpillPath b ≠ [] ∧ cb_disk b = [] ∧ cb_String b = go "abcd".
Proof. vm_compute. done. Qed.
