(* ===== verification/Fifo.v ===== *)
(** The named pipe of [fs/fifo.go]: a bounded byte queue with counts and epochs of the readers and
    writers attached to it.  As in [VirtualPipe], a call is cut at its waits into atomic sections. *)
From S2P Require Import Prelude FsTypes CondVar.

Record memoryFIFO := MkFIFO {
  ff_buf : gostr;
  ff_readers : Z;
  ff_writers : Z;
  ff_readerEpoch : N;   (* uint64: epochs count opens, which do not reach 2^64 *)
  ff_writerEpoch : N;
}.

Definition memoryFIFOCapacity : Z := Z.shiftl 64 10.

Definition empty_FIFO : memoryFIFO := MkFIFO [] 0 0 0 0.

(** [clone]: the buffered bytes, nobody attached. *)
Definition fifo_clone (f : memoryFIFO) : memoryFIFO := MkFIFO (ff_buf f) 0 0 0 0.

Record memoryFIFOFile := MkFifoFile {
  fo_path : gostr;
  fo_readable : bool;
  fo_writable : bool;
  fo_closed : bool;
  fo_readerEpoch : N;
  fo_sawReader : bool;
  fo_writerEpoch : N;
  fo_sawWriter : bool;
}.

Definition set_seen (readerEpoch : N) (sawReader sawWriter : bool) (o : memoryFIFOFile) : memoryFIFOFile :=
  MkFifoFile (fo_path o) (fo_readable o) (fo_writable o) (fo_closed o) readerEpoch sawReader
    (fo_writerEpoch o) sawWriter.
Definition set_fifo_closed (o : memoryFIFOFile) : memoryFIFOFile :=
  MkFifoFile (fo_path o) (fo_readable o) (fo_writable o) true (fo_readerEpoch o) (fo_sawReader o)
    (fo_writerEpoch o) (fo_sawWriter o).
Definition set_fifo_buf (b : gostr) (f : memoryFIFO) : memoryFIFO :=
  MkFIFO b (ff_readers f) (ff_writers f) (ff_readerEpoch f) (ff_writerEpoch f).

(** [newMemoryFIFOFile]: attaching an end. *)
Definition newMemoryFIFOFile (path : gostr) (flag : N) (f : memoryFIFO) : memoryFIFOFile * memoryFIFO :=
  let readable := canRead flag in
  let writable := canWrite flag in
  let f := if readable
           then MkFIFO (ff_buf f) (ff_readers f + 1) (ff_writers f)
                  (if (ff_readers f =? 0)%Z then ff_readerEpoch f + 1 else ff_readerEpoch f)%N (ff_writerEpoch f)
           else f in
  let o := MkFifoFile path readable writable false
             (if writable then ff_readerEpoch f else 0) (writable && (0 <? ff_readers f))
             (if readable then ff_writerEpoch f else 0) (readable && (0 <? ff_writerEpoch f)%N) in
  let f := if writable
           then MkFIFO (ff_buf f) (ff_readers f) (ff_writers f + 1) (ff_readerEpoch f) (ff_writerEpoch f + 1)%N
           else f in
  (o, f).

(** [Read] into [k] bytes, from its start or after a wait; [ctx] is the error of the context. *)
Definition fifo_read_section (ctx : option error) (k : nat) (o : memoryFIFOFile) (f : memoryFIFO)
  : outcome (gostr * option error) * memoryFIFOFile * memoryFIFO * bool :=
  if decide (ff_buf f = []) then
    if fo_closed o then (Return ([], Some (ESent ErrClosed)), o, f, false)
    else if (ff_writers f =? 0) && (fo_sawWriter o || negb (ff_writerEpoch f =? fo_writerEpoch o)%N)
    then (Return ([], Some (ESent ErrEOF)), o, f, false)
    else
      let o := set_seen (fo_readerEpoch o) (fo_sawReader o) (fo_sawWriter o || (0 <? ff_writers f)) o in
      match ctx with
      | Some err => (Return ([], Some (EPath (go "read") (fo_path o) err)), o, f, false)
      | None => (Wait, o, f, false)
      end
  else
    let o := set_seen (fo_readerEpoch o) (fo_sawReader o) true o in
    let out := take k (ff_buf f) in
    (Return (out, None), o, set_fifo_buf (drop k (ff_buf f)) f, true).

Definition fifo_Read (ctx : option error) (k : nat) (o : memoryFIFOFile) (f : memoryFIFO)
  : outcome (gostr * option error) * memoryFIFOFile * memoryFIFO * bool :=
  if fo_closed o then (Return ([], Some (ESent ErrClosed)), o, f, false)
  else if negb (fo_readable o)
  then (Return ([], Some (EPath (go "read") (fo_path o) (ESent ErrPermission))), o, f, false)
  else if decide (k = 0%nat) then (Return ([], None), o, f, false)
  else fifo_read_section ctx k o f.

(** The loop of [Write] with [written] bytes done; [resumed] after a wait, that is, in the inner
    loop, which the outer one enters when bytes are left. *)
Fixpoint fifo_write_section (fuel : nat) (ctx : option error) (data : gostr) (written : Z)
    (o : memoryFIFOFile) (f : memoryFIFO) (bcast : bool) {struct fuel}
  : outcome (option error) * Z * memoryFIFOFile * memoryFIFO * bool :=
  match fuel with
  | O => (Return (Some (ESent ErrFuel)), written, o, f, bcast)
  | S fuel =>
      if glen data <=? written then (Return None, written, o, f, bcast)
      else if (ff_readers f =? 0) || (memoryFIFOCapacity <=? glen (ff_buf f)) then
        if fo_closed o then (Return (Some (ESent ErrClosed)), written, o, f, bcast)
        else if (ff_readers f =? 0) && (fo_sawReader o || negb (ff_readerEpoch f =? fo_readerEpoch o)%N)
        then (Return (Some (EPath (go "write") (fo_path o) (ESent ErrClosedPipe))), written, o, f, bcast)
        else match ctx with
        | Some err => (Return (Some (EPath (go "write") (fo_path o) err)), written, o, f, bcast)
        | None => (Wait, written, o, f, bcast)
        end
      else
        let o := set_seen (ff_readerEpoch f) true (fo_sawWriter o) o in
        let chunk := Z.min (glen data - written) (memoryFIFOCapacity - glen (ff_buf f)) in
        let f := set_fifo_buf (ff_buf f ++ take (Z.to_nat chunk) (drop (Z.to_nat written) data)) f in
        fifo_write_section fuel ctx data (written + chunk) o f true
  end.

(** One chunk fills the queue or ends the call. *)
Definition fifo_fuel : nat := 3.

Definition fifo_Write (ctx : option error) (data : gostr) (o : memoryFIFOFile) (f : memoryFIFO)
  : outcome (option error) * Z * memoryFIFOFile * memoryFIFO * bool :=
  if fo_closed o then (Return (Some (ESent ErrClosed)), 0, o, f, false)
  else if negb (fo_writable o)
  then (Return (Some (EPath (go "write") (fo_path o) (ESent ErrPermission))), 0, o, f, false)
  else if decide (data = []) then (Return None, 0, o, f, false)
  else fifo_write_section fifo_fuel ctx data 0 o f false.

(** [Close]: the end is marked closed without the lock, then detached under it, with a broadcast. *)
Definition fifo_detach (o : memoryFIFOFile) (f : memoryFIFO) : memoryFIFO :=
  MkFIFO (ff_buf f)
    (if fo_readable o && (0 <? ff_readers f) then ff_readers f - 1 else ff_readers f)
    (if fo_writable o && (0 <? ff_writers f) then ff_writers f - 1 else ff_writers f)
    (ff_readerEpoch f) (ff_writerEpoch f).

Definition fifo_Close (o : memoryFIFOFile) (f : memoryFIFO) : memoryFIFOFile * memoryFIFO * bool :=
  if fo_closed o then (o, f, false) else (set_fifo_closed o, fifo_detach o f, true).

(** ** Sections *)

Lemma glen_app_take (b data : gostr) w c : 0 ≤ c → w + c ≤ glen data → 0 ≤ w →
  glen (b ++ take (Z.to_nat c) (drop (Z.to_nat w) data)) = glen b + c.
Proof. intros. rewrite glen_app. f_equal. unfold glen in *. rewrite length_take, length_drop. lia. Qed.

(** Attached ends and epochs: what only opens and closes change. *)
Definition same_ends (f f' : memoryFIFO) : Prop :=
  ff_readers f' = ff_readers f ∧ ff_writers f' = ff_writers f ∧
  ff_readerEpoch f' = ff_readerEpoch f ∧ ff_writerEpoch f' = ff_writerEpoch f.

(** An end as a section leaves it: the same end, having seen more. *)
Definition same_end (o o' : memoryFIFOFile) : Prop :=
  fo_path o' = fo_path o ∧ fo_readable o' = fo_readable o ∧ fo_writable o' = fo_writable o ∧
  fo_closed o' = fo_closed o ∧ fo_writerEpoch o' = fo_writerEpoch o.

(** When a reader waits, and when a writer does. *)
Definition reader_waits (o : memoryFIFOFile) (f : memoryFIFO) : Prop :=
  ff_buf f = [] ∧
  (ff_writers f = 0 → fo_sawWriter o = false ∧ ff_writerEpoch f = fo_writerEpoch o).
Definition writer_waits (o : memoryFIFOFile) (f : memoryFIFO) : Prop :=
  (ff_readers f = 0 ∨ memoryFIFOCapacity ≤ glen (ff_buf f)) ∧
  (ff_readers f = 0 → fo_sawReader o = false ∧ ff_readerEpoch f = fo_readerEpoch o).

Definition fifo_read_result (k : nat) (o : memoryFIFOFile) (f : memoryFIFO)
    (r : outcome (gostr * option error) * memoryFIFOFile * memoryFIFO * bool) : Prop :=
  let '(out, o', f', bcast) := r in
  same_ends f f' ∧ same_end o o' ∧ (bcast = false → f' = f) ∧
  match out with
  | Return (bytes, e) => ff_buf f = bytes ++ ff_buf f' ∧ (e = None → bytes ≠ []) ∧
      (e = Some (ESent ErrEOF) → ff_buf f = [] ∧ ff_writers f = 0)
  | Wait => f' = f ∧ bcast = false ∧ fo_closed o' = false ∧ reader_waits o' f'
  | Panic => False
  end.

Lemma fifo_read_section_spec ctx k o f : (0 < k)%nat → fifo_read_result k o f (fifo_read_section ctx k o f).
Proof.
  intros Hk. unfold fifo_read_section. case_decide as Eb.
  - destruct (fo_closed o) eqn:Ec; [split_and!; done|].
    destruct ((ff_writers f =? 0) && (fo_sawWriter o || negb _)) eqn:Ew.
    { apply andb_true_iff in Ew as [?%Z.eqb_eq _]. by split_and!. }
    cbv zeta. destruct ctx as [err|]; [by split_and!|].
    do 3 (split; [done|]). do 3 (split; [done|]). split; [done|]. simpl. intros Hw. rewrite Hw in *.
    simpl in Ew. apply orb_false_iff in Ew as [-> Ew]. apply negb_false_iff, N.eqb_eq in Ew. done.
  - split_and!; try done; simpl.
    + by rewrite take_drop.
    + intros _. destruct k; [lia|]. by destruct (ff_buf f).
Qed.

Definition fifo_write_result (data : gostr) (written : Z) (o : memoryFIFOFile) (f : memoryFIFO)
    (r : outcome (option error) * Z * memoryFIFOFile * memoryFIFO * bool) : Prop :=
  let '(out, w', o', f', bcast) := r in
  same_ends f f' ∧ same_end o o' ∧ written ≤ w' ≤ glen data ∧
  ff_buf f' = ff_buf f ++ take (Z.to_nat (w' - written)) (drop (Z.to_nat written) data) ∧
  glen (ff_buf f') ≤ memoryFIFOCapacity ∧ (bcast = false → w' = written) ∧
  match out with
  | Return None => w' = glen data
  | Return (Some e) => e ≠ ESent ErrFuel
  | Wait => w' < glen data ∧ fo_closed o' = false ∧ writer_waits o' f'
  | Panic => False
  end.

(** A turn of the loop that writes nothing: the call returns or waits. *)
Lemma fifo_write_stop fuel ctx data written o f b : 0 ≤ written ≤ glen data →
  glen (ff_buf f) ≤ memoryFIFOCapacity →
  written = glen data ∨ ff_readers f = 0 ∨ memoryFIFOCapacity ≤ glen (ff_buf f) →
  fifo_write_result data written o f (fifo_write_section (S fuel) ctx data written o f b).
Proof.
  intros Hw Hcap Hstop. cbn [fifo_write_section].
  assert (∀ out, match out with
    | Return None => written = glen data | Return (Some e) => e ≠ ESent ErrFuel
    | Wait => written < glen data ∧ fo_closed o = false ∧ writer_waits o f | Panic => False end →
    fifo_write_result data written o f (out, written, o, f, b)) as Hnil.
  { intros out Ho. split_and!; try done; try lia. by rewrite Z.sub_diag, take_0, app_nil_r. }
  destruct (Z.leb_spec (glen data) written); [apply Hnil; lia|].
  destruct (_ || _) eqn:Eg; last first.
  { apply orb_false_iff in Eg as [?%Z.eqb_neq ?%Z.leb_gt]. lia. }
  apply orb_true_iff in Eg. rewrite Z.eqb_eq, Z.leb_le in Eg.
  destruct (fo_closed o) eqn:Ec; [by apply Hnil|].
  destruct ((ff_readers f =? 0) && (fo_sawReader o || negb _)) eqn:Er; [by apply Hnil|].
  destruct ctx; [by apply Hnil|]. apply Hnil. split; [done|]. split; [done|]. split; [done|].
  intros Hr. rewrite Hr in Er. simpl in Er. apply orb_false_iff in Er as [-> Er].
  apply negb_false_iff, N.eqb_eq in Er. done.
Qed.

Lemma fifo_write_bcast fuel ctx data written o f out w' o' f' b' :
  fifo_write_section fuel ctx data written o f true = (out, w', o', f', b') → b' = true.
Proof.
  revert written o f. induction fuel as [|fuel IH]; intros written o f; cbn [fifo_write_section]; [congruence|].
  repeat (case_match; try congruence). apply IH.
Qed.

Lemma fifo_write_section_spec ctx data written o f : 0 ≤ written ≤ glen data →
  glen (ff_buf f) ≤ memoryFIFOCapacity →
  fifo_write_result data written o f (fifo_write_section fifo_fuel ctx data written o f false).
Proof.
  intros Hw Hcap. unfold fifo_fuel.
  destruct (decide (written = glen data ∨ ff_readers f = 0 ∨ memoryFIFOCapacity ≤ glen (ff_buf f)))
    as [Hs|Hs]; [by apply fifo_write_stop|].
  change 3%nat with (S 2). remember 2%nat as fuel eqn:Hfuel. cbn [fifo_write_section].
  rewrite (proj2 (Z.leb_gt _ _)), (proj2 (Z.eqb_neq _ _)), (proj2 (Z.leb_gt _ _)) by lia. cbn [orb].
  set (chunk := Z.min _ _). set (o1 := set_seen _ _ _ o). set (f1 := set_fifo_buf _ f).
  assert (0 < chunk ≤ glen data - written) as Hc by (unfold chunk; lia).
  assert (glen (ff_buf f1) = glen (ff_buf f) + chunk) as Hl by (apply glen_app_take; lia).
  assert (fifo_write_result data (written + chunk) o1 f1
    (fifo_write_section fuel ctx data (written + chunk) o1 f1 true)) as Hr.
  { subst fuel. apply fifo_write_stop; [lia|unfold chunk in *; lia|unfold chunk in *; lia]. }
  destruct (fifo_write_section fuel ctx data (written + chunk) o1 f1 true)
    as [[[[out w'] o'] f'] b'] eqn:E.
  destruct Hr as (H1&H2&H3&H4&H5&_&H7). apply fifo_write_bcast in E as ->.
  split_and!; [done|done|lia|lia| |done|done|done]. rewrite H4. unfold f1. simpl.
  rewrite <- (assoc_L (++)). f_equal.
  replace (Z.to_nat (w' - written)) with (Z.to_nat chunk + Z.to_nat (w' - (written + chunk)))%nat by lia.
  rewrite <- take_take_drop. f_equal. f_equal. rewrite drop_drop. f_equal. lia.
Qed.

(** A section that does not broadcast leaves what the others wait for. *)
Lemma fifo_read_quiet ctx k o f out o' f' : fifo_read_section ctx k o f = (out, o', f', false) →
  (reader_waits o f → reader_waits o' f') ∧ (writer_waits o f → writer_waits o' f').
Proof.
  unfold fifo_read_section. case_decide; [|done].
  repeat (case_match; try done); intros [= <- <- <-]; try done;
  (split; [|done]); intros [Hb Hw]; (split; [done|]); intros Hz; destruct (Hw Hz) as [-> ?];
  simpl; (split; [|done]); by rewrite Hz.
Qed.

Lemma fifo_write_quiet fuel ctx data written o f out w' o' f' :
  fifo_write_section fuel ctx data written o f false = (out, w', o', f', false) → o' = o ∧ f' = f.
Proof.
  destruct fuel as [|fuel]; cbn [fifo_write_section]; [naive_solver|].
  repeat (case_match; try naive_solver). intros E. by apply fifo_write_bcast in E.
Qed.

(** Attaching: the counts, and the end that results. *)
Lemma newMemoryFIFOFile_spec path flag f : let '(o, f') := newMemoryFIFOFile path flag f in
  fo_readable o = canRead flag ∧ fo_writable o = canWrite flag ∧ fo_closed o = false ∧
  ff_buf f' = ff_buf f ∧ ff_readers f' = ff_readers f + Z.b2z (canRead flag) ∧
  ff_writers f' = ff_writers f + Z.b2z (canWrite flag).
Proof.
  unfold newMemoryFIFOFile. destruct (canRead flag), (canWrite flag); simpl; split_and!; done || lia.
Qed.
