(* ===== verification/FifoSystem.v ===== *)
(** A named pipe in use: any number of ends opened, read, written and closed, with the calls in
    progress interleaved at their waits. *)
From S2P Require Import Prelude FsTypes CondVar Fifo.

(** An end and whether it still counts as attached: [Close] marks it closed before it takes the
    lock to detach it. *)
Record fifo_end := MkEnd { fe_file : memoryFIFOFile; fe_attached : bool }.

(** A call in progress on the end [e]. *)
Inductive fifo_call :=
| FifoRead (e k : nat)
| FifoWrite (e : nat) (data : gostr) (written : Z).

(** The pipe, its ends and users, and two ghosts: the bytes written and the bytes read, in order. *)
Record fifo_sys := MkFS {
  fs_fifo : memoryFIFO;
  fs_ends : list fifo_end;
  fs_threads : list (thread fifo_call);
  fs_sent : gostr;
  fs_recv : gostr;
}.

Definition fifo_init : fifo_sys := MkFS empty_FIFO [] [] [] [].

Definition read_bytes (o : outcome (gostr * option error)) : gostr :=
  match o with Return (out, _) => out | _ => [] end.

Inductive fifo_step (s : fifo_sys) : fifo_sys → Prop :=
| FOpen path flag o f' : newMemoryFIFOFile path flag (fs_fifo s) = (o, f') →
    fifo_step s (MkFS f' (fs_ends s ++ [MkEnd o true]) (wake_all true (fs_threads s)) (fs_sent s) (fs_recv s))
| FStartRead e k en : fs_ends s !! e = Some en →   (* past the checks before the lock *)
    fo_closed (fe_file en) = false → fo_readable (fe_file en) = true → (0 < k)%nat →
    fifo_step s (MkFS (fs_fifo s) (fs_ends s) (fs_threads s ++ [Thread (FifoRead e k) false])
                   (fs_sent s) (fs_recv s))
| FStartWrite e data en : fs_ends s !! e = Some en →
    fo_closed (fe_file en) = false → fo_writable (fe_file en) = true → data ≠ [] →
    fifo_step s (MkFS (fs_fifo s) (fs_ends s) (fs_threads s ++ [Thread (FifoWrite e data 0) false])
                   (fs_sent s) (fs_recv s))
| FRead ctx i e k en out o' f' b :
    fs_threads s !! i = Some (Thread (FifoRead e k) false) → fs_ends s !! e = Some en →
    fifo_read_section ctx k (fe_file en) (fs_fifo s) = (out, o', f', b) →
    fifo_step s (MkFS f' (<[e := MkEnd o' (fe_attached en)]> (fs_ends s))
                   (after_section out (FifoRead e k) i b (fs_threads s))
                   (fs_sent s) (fs_recv s ++ read_bytes out))
| FWrite ctx i e data written en out w' o' f' b :
    fs_threads s !! i = Some (Thread (FifoWrite e data written) false) → fs_ends s !! e = Some en →
    fifo_write_section fifo_fuel ctx data written (fe_file en) (fs_fifo s) false = (out, w', o', f', b) →
    fifo_step s (MkFS f' (<[e := MkEnd o' (fe_attached en)]> (fs_ends s))
                   (after_section out (FifoWrite e data w') i b (fs_threads s))
                   (fs_sent s ++ take (Z.to_nat (w' - written)) (drop (Z.to_nat written) data)) (fs_recv s))
| FMark e en : fs_ends s !! e = Some en → fo_closed (fe_file en) = false →
    fifo_step s (MkFS (fs_fifo s) (<[e := MkEnd (set_fifo_closed (fe_file en)) (fe_attached en)]> (fs_ends s))
                   (fs_threads s) (fs_sent s) (fs_recv s))
| FDetach e en : fs_ends s !! e = Some en → fo_closed (fe_file en) = true → fe_attached en = true →
    fifo_step s (MkFS (fifo_detach (fe_file en) (fs_fifo s)) (<[e := MkEnd (fe_file en) false]> (fs_ends s))
                   (wake_all true (fs_threads s)) (fs_sent s) (fs_recv s))
| FContext :   (* a context that ends wakes the waiting calls *)
    fifo_step s (MkFS (fs_fifo s) (fs_ends s) (wake_all true (fs_threads s)) (fs_sent s) (fs_recv s)).

(** ** The invariant *)

(** How many attached ends satisfy [p]. *)
Fixpoint attached (p : memoryFIFOFile → bool) (ens : list fifo_end) : Z :=
  match ens with
  | [] => 0
  | en :: ens => Z.b2z (fe_attached en && p (fe_file en)) + attached p ens
  end.

Definition fcall_ok (n : nat) (c : fifo_call) : Prop :=
  match c with
  | FifoRead e k => (e < n)%nat ∧ (0 < k)%nat
  | FifoWrite e data written => (e < n)%nat ∧ 0 ≤ written ≤ glen data
  end.

(** Why a call may sleep. *)
Definition fmay_sleep (ens : list fifo_end) (f : memoryFIFO) (c : fifo_call) : Prop :=
  match c with
  | FifoRead e _ => ∃ en, ens !! e = Some en ∧ reader_waits (fe_file en) f ∧
      (fo_closed (fe_file en) = true → fe_attached en = true)
  | FifoWrite e data written => written < glen data ∧ ∃ en, ens !! e = Some en ∧ writer_waits (fe_file en) f ∧
      (fo_closed (fe_file en) = true → fe_attached en = true)
  end.

Record fifo_ok (s : fifo_sys) : Prop := {
  fk_stream : fs_sent s = fs_recv s ++ ff_buf (fs_fifo s);
  fk_bound : glen (ff_buf (fs_fifo s)) ≤ memoryFIFOCapacity;
  fk_readers : ff_readers (fs_fifo s) = attached fo_readable (fs_ends s);
  fk_writers : ff_writers (fs_fifo s) = attached fo_writable (fs_ends s);
  fk_threads : Forall (thread_ok (fcall_ok (length (fs_ends s))) (fmay_sleep (fs_ends s) (fs_fifo s))) (fs_threads s);
  fk_ends : Forall (fun en => fe_attached en = false → fo_closed (fe_file en) = true) (fs_ends s);
}.

Lemma attached_app p ens en : attached p (ens ++ [en]) = attached p ens + Z.b2z (fe_attached en && p (fe_file en)).
Proof. induction ens as [|x ens IH]; simpl; lia. Qed.

Lemma attached_insert p ens e en en' : ens !! e = Some en →
  attached p (<[e := en']> ens) =
  attached p ens - Z.b2z (fe_attached en && p (fe_file en)) + Z.b2z (fe_attached en' && p (fe_file en')).
Proof.
  revert e. induction ens as [|x ens IH]; intros [|e]; simpl; try done; intros H.
  - injection H as ->. lia.
  - rewrite (IH e) by done. lia.
Qed.

Lemma attached_pos p ens e en : ens !! e = Some en → fe_attached en = true → p (fe_file en) = true →
  0 < attached p ens.
Proof.
  assert (∀ l, 0 ≤ attached p l) as Hnn by (induction l as [|x l IH]; simpl; [|destruct (_ && _); simpl]; lia).
  revert e. induction ens as [|x ens IH]; intros [|e]; simpl; try done; intros H Ha Hp.
  - injection H as ->. rewrite Ha, Hp. simpl. pose proof (Hnn ens). lia.
  - pose proof (IH e H Ha Hp). destruct (_ && _); simpl; lia.
Qed.

(** Replacing an end by one that waits for no less. *)
Lemma fmay_sleep_insert ens f f' e en en' c : ens !! e = Some en →
  fe_attached en' = fe_attached en →
  (fo_closed (fe_file en') = true → fo_closed (fe_file en) = true ∨ fe_attached en = true) →
  (∀ o, reader_waits o f → reader_waits o f') → (∀ o, writer_waits o f → writer_waits o f') →
  (reader_waits (fe_file en) f → reader_waits (fe_file en') f') →
  (writer_waits (fe_file en) f → writer_waits (fe_file en') f') →
  fmay_sleep ens f c → fmay_sleep (<[e := en']> ens) f' c.
Proof.
  intros He Ha Hcl Hr Hw Hr' Hw'.
  assert (∀ e0 en0 (P P' : memoryFIFOFile → memoryFIFO → Prop), ens !! e0 = Some en0 → P (fe_file en0) f →
    (∀ o, P o f → P' o f') → (P (fe_file en) f → P' (fe_file en') f') →
    (fo_closed (fe_file en0) = true → fe_attached en0 = true) →
    ∃ en1, <[e := en']> ens !! e0 = Some en1 ∧ P' (fe_file en1) f' ∧
      (fo_closed (fe_file en1) = true → fe_attached en1 = true)) as H.
  { intros e0 en0 P P' H0 HP Ho Hn Hc. destruct (decide (e = e0)) as [<-|Hne].
    - rewrite He in H0. injection H0 as <-. exists en'.
      rewrite list_lookup_insert_eq by (by eapply lookup_lt_Some). split; [done|]. split; [auto|].
      rewrite Ha. intros Hx. destruct (Hcl Hx); auto.
    - exists en0. rewrite list_lookup_insert_ne by done. auto. }
  destruct c as [e0 k|e0 data w]; simpl.
  - intros (en0&H0&HP&Hc). by eapply (H e0 en0 reader_waits reader_waits).
  - intros (Hlt&en0&H0&HP&Hc). split; [done|]. by eapply (H e0 en0 writer_waits writer_waits).
Qed.

Lemma fcall_ok_mono n n' c : (n ≤ n')%nat → fcall_ok n c → fcall_ok n' c.
Proof. destruct c; simpl; lia. Qed.

(** A step that wakes everyone. *)
Lemma woken_ok n n' (ms ms' : fifo_call → Prop) ths : (n ≤ n')%nat →
  Forall (thread_ok (fcall_ok n) ms) ths → Forall (thread_ok (fcall_ok n') ms') (wake_all true ths).
Proof.
  intros Hn H. apply Forall_fmap. revert H. apply Forall_impl. intros th [Hc _]. split; [|done].
  by eapply fcall_ok_mono.
Qed.

Lemma fifo_ok_init : fifo_ok fifo_init.
Proof. split; simpl; try done; constructor. Qed.

(** What a section leaves of its end is the same end. *)
Lemma section_ends f f' ens e en o' : ens !! e = Some en → same_ends f f' → same_end (fe_file en) o' →
  ff_readers f = attached fo_readable ens → ff_writers f = attached fo_writable ens →
  Forall (fun en => fe_attached en = false → fo_closed (fe_file en) = true) ens →
  let ens' := <[e := MkEnd o' (fe_attached en)]> ens in
  ff_readers f' = attached fo_readable ens' ∧ ff_writers f' = attached fo_writable ens' ∧
  Forall (fun en => fe_attached en = false → fo_closed (fe_file en) = true) ens'.
Proof.
  intros He (Hr&Hw&_) (_&Er&Ew&Ec&_) H1 H2 H3 ens'. split_and!.
  - unfold ens'. rewrite (attached_insert _ _ _ en) by done. simpl. rewrite Er. lia.
  - unfold ens'. rewrite (attached_insert _ _ _ en) by done. simpl. rewrite Ew. lia.
  - apply Forall_insert; [done|]. simpl. rewrite Ec. by apply (Forall_lookup_1 _ _ _ _ H3 He).
Qed.

Lemma fifo_read_ok s ctx i e k en out o' f' b : fifo_ok s →
  fs_threads s !! i = Some (Thread (FifoRead e k) false) → fs_ends s !! e = Some en →
  fifo_read_section ctx k (fe_file en) (fs_fifo s) = (out, o', f', b) →
  fifo_ok (MkFS f' (<[e := MkEnd o' (fe_attached en)]> (fs_ends s))
             (after_section out (FifoRead e k) i b (fs_threads s)) (fs_sent s) (fs_recv s ++ read_bytes out)).
Proof.
  intros [H1 H2 H3 H4 H5 H6] Hi He Hsec. destruct (Forall_lookup_1 _ _ _ _ H5 Hi) as [[Hlt Hk] _].
  pose proof (fifo_read_section_spec ctx k (fe_file en) (fs_fifo s) Hk) as Hr. rewrite Hsec in Hr.
  destruct Hr as (Hse&Hsd&Hb&Ho). destruct (section_ends _ _ _ _ _ _ He Hse Hsd H3 H4 H6) as (Hn1&Hn2&Hn3).
  assert (ff_buf (fs_fifo s) = read_bytes out ++ ff_buf f') as Hbuf.
  { destruct out as [[bytes er]| |]; [apply Ho|destruct Ho as (->&_); done|done]. }
  split; simpl; [|by rewrite Hbuf, glen_app in H2; pose proof (glen_nonneg (read_bytes out)); lia|done|done| |done].
  - by rewrite H1, Hbuf, (assoc_L (++)).
  - rewrite length_insert. eapply after_section_ok; [exact H5| |].
    + intros -> c. assert (f' = fs_fifo s) as -> by auto. apply fifo_read_quiet in Hsec as [Q1 Q2].
      eapply fmay_sleep_insert; try done. simpl. destruct Hsd as (_&_&_&Hc&_). rewrite Hc. auto.
    + intros ->. destruct Ho as (_&_&Hc&Hw). split; [done|]. simpl. eexists.
      rewrite list_lookup_insert_eq by done. split; [done|]. split; [done|]. simpl. by rewrite Hc.
Qed.

Lemma fifo_write_ok s ctx i e data written en out w' o' f' b : fifo_ok s →
  fs_threads s !! i = Some (Thread (FifoWrite e data written) false) → fs_ends s !! e = Some en →
  fifo_write_section fifo_fuel ctx data written (fe_file en) (fs_fifo s) false = (out, w', o', f', b) →
  fifo_ok (MkFS f' (<[e := MkEnd o' (fe_attached en)]> (fs_ends s))
             (after_section out (FifoWrite e data w') i b (fs_threads s))
             (fs_sent s ++ take (Z.to_nat (w' - written)) (drop (Z.to_nat written) data)) (fs_recv s)).
Proof.
  intros [H1 H2 H3 H4 H5 H6] Hi He Hsec. destruct (Forall_lookup_1 _ _ _ _ H5 Hi) as [[Hlt Hk] _].
  pose proof (fifo_write_section_spec ctx data written (fe_file en) (fs_fifo s) Hk H2) as Hr. rewrite Hsec in Hr.
  destruct Hr as (Hse&Hsd&Hw'&Hbuf&Hcap&_&Ho).
  destruct (section_ends _ _ _ _ _ _ He Hse Hsd H3 H4 H6) as (Hn1&Hn2&Hn3).
  split; simpl; [|done|done|done| |done].
  - by rewrite H1, Hbuf, (assoc_L (++)).
  - rewrite length_insert. eapply after_section_ok; [exact H5| |].
    + intros -> c. apply fifo_write_quiet in Hsec as [-> ->].
      eapply fmay_sleep_insert; try done. simpl. auto.
    + intros ->. destruct Ho as (Hd&Hc&Hw). split; [split; [done|lia]|]. simpl. split; [done|]. eexists.
      rewrite list_lookup_insert_eq by done. split; [done|]. split; [done|]. simpl. by rewrite Hc.
Qed.

Lemma fifo_step_ok s s' : fifo_ok s → fifo_step s s' → fifo_ok s'.
Proof.
  intros Hok Hs. pose proof Hok as [H1 H2 H3 H4 H5 H6].
  assert (∀ c, fcall_ok (length (fs_ends s)) c → fifo_ok (MkFS (fs_fifo s) (fs_ends s)
    (fs_threads s ++ [Thread c false]) (fs_sent s) (fs_recv s))) as Hstart.
  { intros c Hc. split; simpl; try done. apply Forall_app. split; [done|]. apply Forall_singleton. by split. }
  destruct Hs as [path flag o f' Hn|e k en He _ _ Hk|e data en He _ _ _|ctx i e k en out o' f' b Hi He Hsec|
    ctx i e data written en out w' o' f' b Hi He Hsec|e en He Hc|e en He Hc Ha|].
  - pose proof (newMemoryFIFOFile_spec path flag (fs_fifo s)) as Hsp. rewrite Hn in Hsp.
    destruct Hsp as (Er&Ew&_&Eb&En1&En2).
    split; simpl; rewrite ?attached_app; simpl; rewrite ?Er, ?Ew, ?Eb; [done..|lia|lia| |].
    + eapply woken_ok; [|exact H5]. rewrite length_app. lia.
    + apply Forall_app. split; [done|]. by apply Forall_singleton.
  - apply Hstart. split; [by eapply lookup_lt_Some|done].
  - apply Hstart. split; [by eapply lookup_lt_Some|]. pose proof (glen_nonneg data). lia.
  - by eapply fifo_read_ok.
  - by eapply fifo_write_ok.
  - assert (fe_attached en = true) as Ha.
    { destruct (fe_attached en) eqn:E; [done|]. pose proof (Forall_lookup_1 _ _ _ _ H6 He E). congruence. }
    split; simpl; rewrite ?(attached_insert _ _ _ en) by done; [done..|simpl; lia|simpl; lia| |].
    + rewrite length_insert. revert H5. apply Forall_impl. intros th [Hc' Hs]. split; [done|]. intros Hsl.
      eapply fmay_sleep_insert; try done; [simpl; auto|auto].
    + apply Forall_insert; [done|]. done.
  - assert (∀ p, p (fe_file en) = true → 0 < attached p (fs_ends s)) as Hp by (intros; by eapply attached_pos).
    split; simpl; rewrite ?(attached_insert _ _ _ en), ?Ha by done; simpl; [done|done| | | |].
    + rewrite H3. destruct (fo_readable (fe_file en)) eqn:E; simpl; [|lia].
      rewrite (proj2 (Z.ltb_lt _ _)) by (by apply Hp). lia.
    + rewrite H4. destruct (fo_writable (fe_file en)) eqn:E; simpl; [|lia].
      rewrite (proj2 (Z.ltb_lt _ _)) by (by apply Hp). lia.
    + rewrite length_insert. by eapply woken_ok.
    + by apply Forall_insert.
  - split; simpl; try done. by eapply woken_ok.
Qed.

Lemma fifo_reachable_ok s : rtc fifo_step fifo_init s → fifo_ok s.
Proof.
  assert (∀ s0 s, rtc fifo_step s0 s → fifo_ok s0 → fifo_ok s) as H.
  { induction 1; [done|]. intros. by eapply IHrtc, fifo_step_ok. }
  intros Hr. eapply H; [done|apply fifo_ok_init].
Qed.

Lemma attached_none p ens : attached p ens = 0 → Forall (fun en => fe_attached en && p (fe_file en) = false) ens.
Proof.
  assert (∀ l, 0 ≤ attached p l) as Hnn by (induction l as [|x l IH]; simpl; [|destruct (_ && _); simpl]; lia).
  induction ens as [|x ens IH]; simpl; intros H; [constructor|]. pose proof (Hnn ens).
  destruct (_ && _) eqn:E; simpl in H; [lia|]. constructor; [done|]. apply IH. lia.
Qed.

(** ** The theorems *)

(** C12: a named pipe is a first-in first-out byte stream of bounded size, whoever has it open and
    however opens, reads, writes and closes interleave: what the readers have taken, followed by
    what is buffered, is exactly what the writers have put in, and at most 64 KiB are buffered; the
    pipe's reader and writer counts are the numbers of ends attached. *)
Theorem fifo_stream s : rtc fifo_step fifo_init s →
  fs_sent s = fs_recv s ++ ff_buf (fs_fifo s) ∧ glen (ff_buf (fs_fifo s)) ≤ memoryFIFOCapacity ∧
  ff_readers (fs_fifo s) = attached fo_readable (fs_ends s) ∧
  ff_writers (fs_fifo s) = attached fo_writable (fs_ends s).
Proof. intros Hr. destruct (fifo_reachable_ok s Hr) as [H1 H2 H3 H4 _ _]. by split_and!. Qed.

(** C13: no wake-up is lost on a named pipe: a sleeping reader's pipe is empty, and unless its own
    end is being closed it is still waiting for a writer to attach or to write; a sleeping writer's
    pipe is full or has no reader yet. *)
Theorem fifo_no_lost_wakeup s i c : rtc fifo_step fifo_init s →
  fs_threads s !! i = Some (Thread c true) →
  match c with
  | FifoRead e _ => ff_buf (fs_fifo s) = [] ∧ ∃ en, fs_ends s !! e = Some en ∧
      (fo_closed (fe_file en) = true → fe_attached en = true) ∧
      (attached fo_writable (fs_ends s) = 0 → fo_sawWriter (fe_file en) = false ∧
         ff_writerEpoch (fs_fifo s) = fo_writerEpoch (fe_file en))
  | FifoWrite e data written => written < glen data ∧ ∃ en, fs_ends s !! e = Some en ∧
      (fo_closed (fe_file en) = true → fe_attached en = true) ∧
      (0 < attached fo_readable (fs_ends s) → glen (ff_buf (fs_fifo s)) = memoryFIFOCapacity) ∧
      (attached fo_readable (fs_ends s) = 0 → fo_sawReader (fe_file en) = false ∧
         ff_readerEpoch (fs_fifo s) = fo_readerEpoch (fe_file en))
  end.
Proof.
  intros Hr Hi. destruct (fifo_reachable_ok s Hr) as [_ H2 H3 H4 H5 _].
  destruct (Forall_lookup_1 _ _ _ _ H5 Hi) as [_ Hs]. specialize (Hs eq_refl). rewrite <- H3, <- H4.
  destruct c as [e k|e data w]; simpl in Hs.
  - destruct Hs as (en&He&[Hb Hw]&Hc). split; [done|]. by exists en.
  - destruct Hs as (Hlt&en&He&[Hb Hw]&Hc). split; [done|]. exists en. split_and!; [done..| |done].
    intros Hp. destruct Hb as [Hb|Hb]; lia.
Qed.

(** End of file is not reported early: a [Read] that returns EOF leaves nothing behind, since no
    open end can write and all that was ever written has been read; and a [Read] that returns bytes
    returns the oldest unread ones. *)
Theorem fifo_eof_sound s ctx e k en bytes er o' f' b : rtc fifo_step fifo_init s → (0 < k)%nat →
  fs_ends s !! e = Some en →
  fifo_read_section ctx k (fe_file en) (fs_fifo s) = (Return (bytes, er), o', f', b) →
  fs_sent s = (fs_recv s ++ bytes) ++ ff_buf f' ∧
  (er = None → bytes ≠ []) ∧
  (er = Some (ESent ErrEOF) → fs_sent s = fs_recv s ∧
     Forall (fun en => fe_attached en = true → fo_writable (fe_file en) = false) (fs_ends s)).
Proof.
  intros Hr Hk He Hsec. destruct (fifo_reachable_ok s Hr) as [H1 H2 H3 H4 _ _].
  pose proof (fifo_read_section_spec ctx k (fe_file en) (fs_fifo s) Hk) as Hsp. rewrite Hsec in Hsp.
  destruct Hsp as (_&_&_&Hb&Hne&Heof). split; [by rewrite H1, Hb, (assoc_L (++))|]. split; [done|].
  intros E. destruct (Heof E) as [Hnil Hw]. split; [by rewrite H1, Hnil, app_nil_r|].
  rewrite H4 in Hw. apply attached_none in Hw. revert Hw. apply Forall_impl. intros x Hx Ha.
  rewrite Ha in Hx. done.
Qed.

(** ** Examples *)

(** A reader attaches, then a writer, whose two bytes are in the pipe; the writer closes. *)
Definition wr_flag : N := 1%N.   (* O_WRONLY *)
Definition demo_opens : fifo_sys := Eval vm_compute in
  let '(r, f) := newMemoryFIFOFile (go "/p") 0 empty_FIFO in
  let '(w, f) := newMemoryFIFOFile (go "/p") wr_flag f in
  MkFS f [MkEnd r true; MkEnd w true] [Thread (FifoWrite 1 (go "hi") 0) false] [] [].

Definition demo_written : fifo_sys := Eval vm_compute in
  match fs_ends demo_opens with
  | [r; w] =>
      let '(out, w', o, f, b) := fifo_write_section fifo_fuel None (go "hi") 0 (fe_file w) (fs_fifo demo_opens) false in
      MkFS f [r; MkEnd o true] [] (go "hi") []
  | _ => demo_opens
  end.

(** A step whose result is given up to computation. *)
Lemma fifo_step_to s s' s'' : fifo_step s s' → s' = s'' → fifo_step s s''.
Proof. by intros ? <-. Qed.

Lemma demo_opens_reachable : rtc fifo_step fifo_init demo_opens.
Proof.
  pose (s1 := MkFS (newMemoryFIFOFile (go "/p") 0 empty_FIFO).2
    [MkEnd (newMemoryFIFOFile (go "/p") 0 empty_FIFO).1 true] [] [] []).
  vm_compute in s1. pose (s2 := MkFS (newMemoryFIFOFile (go "/p") wr_flag (fs_fifo s1)).2
    (fs_ends s1 ++ [MkEnd (newMemoryFIFOFile (go "/p") wr_flag (fs_fifo s1)).1 true]) [] [] []).
  vm_compute in s2.
  apply (rtc_l _ _ s1); [eapply fifo_step_to; [by apply (FOpen _ (go "/p") 0)|by vm_compute]|].
  apply (rtc_l _ _ s2); [eapply fifo_step_to; [by apply (FOpen _ (go "/p") wr_flag)|by vm_compute]|].
  apply rtc_once. eapply fifo_step_to; [by eapply (FStartWrite _ 1 (go "hi"))|by vm_compute].
Qed.

Lemma demo_written_reachable : rtc fifo_step fifo_init demo_written.
Proof.
  eapply rtc_r; [exact demo_opens_reachable|].
  eapply fifo_step_to; [by eapply (FWrite _ None 0 1 (go "hi") 0)|by vm_compute].
Qed.

Lemma fifo_stream_witness : fs_sent demo_written = go "hi" ∧ ff_buf (fs_fifo demo_written) = go "hi" ∧
  fs_sent demo_written = fs_recv demo_written ++ ff_buf (fs_fifo demo_written).
Proof.
  split; [reflexivity|]. split; [reflexivity|]. exact (proj1 (fifo_stream demo_written demo_written_reachable)).
Defined.

(** A reader alone waits for a writer. *)
Definition demo_reader : fifo_sys := Eval vm_compute in
  let '(r, f) := newMemoryFIFOFile (go "/p") 0 empty_FIFO in
  MkFS f [MkEnd r true] [Thread (FifoRead 0 8) true] [] [].

Lemma demo_reader_reachable : rtc fifo_step fifo_init demo_reader.
Proof.
  set (s1 := MkFS (fs_fifo demo_reader) (fs_ends demo_reader) [] [] []).
  set (s2 := MkFS (fs_fifo demo_reader) (fs_ends demo_reader) [Thread (FifoRead 0 8) false] [] []).
  apply (rtc_l _ _ s1); [eapply fifo_step_to; [by apply (FOpen _ (go "/p") 0)|by vm_compute]|].
  apply (rtc_l _ _ s2); [eapply fifo_step_to; [eapply (FStartRead _ 0 8); [done..|lia]|by vm_compute]|].
  apply rtc_once. eapply fifo_step_to; [by eapply (FRead _ None 0 0 8)|by vm_compute].
Qed.

Lemma fifo_no_lost_wakeup_witness :
  fs_threads demo_reader !! 0%nat = Some (Thread (FifoRead 0 8) true) ∧ ff_buf (fs_fifo demo_reader) = [].
Proof.
  split; [reflexivity|].
  exact (proj1 (fifo_no_lost_wakeup demo_reader 0 (FifoRead 0 8) demo_reader_reachable eq_refl)).
Defined.

Lemma fifo_eof_sound_witness : fs_sent demo_written = (fs_recv demo_written ++ go "hi") ++ [].
Proof.
  assert (0 < 8)%nat as Hk by lia.
  destruct (fs_ends demo_written !! 0%nat) as [en|] eqn:He; [|discriminate He].
  destruct (fifo_read_section None 8 (fe_file en) (fs_fifo demo_written)) as [[[out o'] f'] b] eqn:E.
  injection He as <-. vm_compute in E. injection E as <- <- <- <-.
  exact (proj1 (fifo_eof_sound demo_written None 0 8 _ (go "hi") None _ _ _
    demo_written_reachable Hk eq_refl eq_refl)).
Defined.
