(* ===== verification/GoUtf8.v ===== *)
(** UTF-8 as Go decodes it: [utf8.DecodeRuneInString], [range] over a string, [string(r)]. *)
From S2P Require Import Prelude.

(** A Go [rune]. *)
Abbreviation rune := Z.

Definition byte_val (c : ascii) : Z := Z.of_N (N_of_ascii c).
Definition byte_of (z : Z) : ascii := ascii_of_N (Z.to_N z).

Definition RuneError : rune := 65533.
Definition RuneSelf : Z := 128.

Definition between (lo x hi : Z) : bool := (lo <=? x) && (x <=? hi).

(** The range that the second byte must be in, by the first. *)
Definition accept_range (b0 : Z) : Z * Z :=
  if b0 =? 224 then (160, 191)
  else if b0 =? 237 then (128, 159)
  else if b0 =? 240 then (144, 191)
  else if b0 =? 244 then (128, 143)
  else (128, 191).

Definition low6 (b : Z) : Z := Z.land b 63.

(** The rune at the start of [s] and its width; an invalid byte is [RuneError] of width 1. *)
Definition DecodeRuneInString (s : gostr) : rune * nat :=
  match s with
  | [] => (RuneError, 0%nat)
  | c0 :: s1 =>
      let b0 := byte_val c0 in
      let '(lo, hi) := accept_range b0 in
      if b0 <? RuneSelf then (b0, 1%nat)
      else if between 194 b0 223 then
        match s1 with
        | c1 :: _ =>
            if between lo (byte_val c1) hi
            then (Z.lor (Z.shiftl (Z.land b0 31) 6) (low6 (byte_val c1)), 2%nat)
            else (RuneError, 1%nat)
        | _ => (RuneError, 1%nat)
        end
      else if between 224 b0 239 then
        match s1 with
        | c1 :: c2 :: _ =>
            if between lo (byte_val c1) hi && between 128 (byte_val c2) 191
            then (Z.lor (Z.shiftl (Z.land b0 15) 12)
                    (Z.lor (Z.shiftl (low6 (byte_val c1)) 6) (low6 (byte_val c2))), 3%nat)
            else (RuneError, 1%nat)
        | _ => (RuneError, 1%nat)
        end
      else if between 240 b0 244 then
        match s1 with
        | c1 :: c2 :: c3 :: _ =>
            if between lo (byte_val c1) hi && between 128 (byte_val c2) 191 && between 128 (byte_val c3) 191
            then (Z.lor (Z.shiftl (Z.land b0 7) 18) (Z.lor (Z.shiftl (low6 (byte_val c1)) 12)
                    (Z.lor (Z.shiftl (low6 (byte_val c2)) 6) (low6 (byte_val c3)))), 4%nat)
            else (RuneError, 1%nat)
        | _ => (RuneError, 1%nat)
        end
      else (RuneError, 1%nat)
  end.

(** [for i, r := range s]: the pairs the loop runs over; [skip] bytes of the current rune are left. *)
Fixpoint range_from (i : nat) (skip : nat) (s : gostr) : list (nat * rune) :=
  match s with
  | [] => []
  | c :: s' =>
      match skip with
      | S k => range_from (S i) k s'
      | O => let '(r, w) := DecodeRuneInString s in (i, r) :: range_from (S i) (Nat.pred w) s'
      end
  end.
Definition range_string (s : gostr) : list (nat * rune) := range_from 0 0 s.

(** [string(r)]. *)
Definition encode_rune (r : rune) : gostr :=
  let r := if between 0 r 1114111 && negb (between 55296 r 57343) then r else RuneError in
  let cont k := byte_of (128 + low6 (Z.shiftr r k)) in
  if r <? 128 then [byte_of r]
  else if r <? 2048 then [byte_of (192 + Z.shiftr r 6); cont 0]
  else if r <? 65536 then [byte_of (224 + Z.shiftr r 12); cont 6; cont 0]
  else [byte_of (240 + Z.shiftr r 18); cont 12; cont 6; cont 0].

(** ** ASCII *)

Definition is_ascii (c : ascii) : Prop := byte_val c < RuneSelf.

Lemma byte_val_range c : 0 ≤ byte_val c < 256.
Proof. unfold byte_val. pose proof (N_ascii_bounded c). lia. Qed.

Lemma byte_of_val c : byte_of (byte_val c) = c.
Proof. unfold byte_of, byte_val. by rewrite N2Z.id, ascii_N_embedding. Qed.

Lemma byte_val_of z : 0 ≤ z < 256 → byte_val (byte_of z) = z.
Proof. intros H. unfold byte_of, byte_val. rewrite N_ascii_embedding; lia. Qed.

Lemma decode_ascii c s : is_ascii c → DecodeRuneInString (c :: s) = (byte_val c, 1%nat).
Proof.
  unfold is_ascii. intros H. unfold DecodeRuneInString. destruct (accept_range _).
  by rewrite (proj2 (Z.ltb_lt _ _)).
Qed.

Lemma encode_ascii c : is_ascii c → encode_rune (byte_val c) = [c].
Proof.
  unfold is_ascii, RuneSelf. intros H. pose proof (byte_val_range c). unfold encode_rune.
  assert (between 0 (byte_val c) 1114111 = true) as -> by (unfold between; lia).
  assert (between 55296 (byte_val c) 57343 = false) as -> by (unfold between; lia).
  cbn [andb negb]. rewrite (proj2 (Z.ltb_lt (byte_val c) 128)) by done. by rewrite byte_of_val.
Qed.

Lemma range_from_ascii i s : Forall is_ascii s →
  range_from i 0 s = zip (seq i (length s)) (map byte_val s).
Proof.
  intros H. revert i. induction H as [|c s Hc _ IH]; intros i; [done|].
  cbn [range_from]. rewrite decode_ascii by done. cbn [Nat.pred length seq map zip zip_with].
  by rewrite IH.
Qed.

(** The width of a rune is positive on a non-empty string and stays inside the string. *)
Lemma decode_size c s : (1 ≤ (DecodeRuneInString (c :: s)).2 ≤ S (length s))%nat.
Proof. unfold DecodeRuneInString. repeat case_match; simpl in *; simplify_eq/=; lia. Qed.

Lemma decode_size_drop i (s : gostr) : (i < length s)%nat →
  (1 ≤ (DecodeRuneInString (drop i s)).2 ∧ i + (DecodeRuneInString (drop i s)).2 ≤ length s)%nat.
Proof.
  intros Hi. destruct (drop i s) as [|c t] eqn:E.
  - apply (f_equal length) in E. rewrite length_drop in E. simpl in E. lia.
  - pose proof (decode_size c t). apply (f_equal length) in E. rewrite length_drop in E. simpl in E. lia.
Qed.

(** ** Facts about single bytes *)

(** A property of all bytes is checked by evaluation. *)
Definition all_bytes : list ascii := map (fun n => ascii_of_nat n) (seq 0 256).
Lemma all_bytes_spec c : In c all_bytes.
Proof.
  apply in_map_iff. exists (nat_of_ascii c). split; [apply ascii_nat_embedding|].
  apply in_seq. pose proof (nat_ascii_bounded c). lia.
Qed.
Lemma check_bytes (f : ascii → bool) : forallb f all_bytes = true → ∀ c, f c = true.
Proof. rewrite forallb_forall. intros H c. apply H, all_bytes_spec. Qed.
