(* ===== verification/GoUtf8Props.v ===== *)
(** UTF-8: decoding a valid encoding and encoding the rune again gives back the same bytes. *)
From S2P Require Import Prelude GoUtf8.

Lemma lor_shiftl a b k : 0 ≤ k → 0 ≤ b < 2 ^ k → Z.lor (Z.shiftl a k) b = a * 2 ^ k + b.
Proof.
  intros Hk Hb. rewrite <-Z.shiftl_mul_pow2 by done.
  assert (Z.land (Z.shiftl a k) b = 0) as Hl.
  { apply Z.bits_inj'. intros i Hi. rewrite Z.land_spec, Z.bits_0. destruct (Z.lt_ge_cases i k).
    - by rewrite Z.shiftl_spec_low.
    - rewrite <-(Z.mod_small b (2 ^ k)) by done. rewrite Z.mod_pow2_bits_high by lia. apply andb_false_r. }
  rewrite Z.add_nocarry_lxor by done. symmetry. by apply Z.lxor_lor.
Qed.

Lemma low6_mod z : low6 z = z mod 64.
Proof. apply (Z.land_ones z 6). lia. Qed.

Lemma shiftr_div z k : 0 ≤ k → Z.shiftr z k = z / 2 ^ k.
Proof. apply Z.shiftr_div_pow2. Qed.

Lemma land_mod b k m : 0 ≤ k → m = Z.ones k → Z.land b m = b mod 2 ^ k.
Proof. intros Hk ->. by apply Z.land_ones. Qed.

(** The rune of two, three and four bytes, by arithmetic. *)
Lemma rune2 b0 b1 : 192 ≤ b0 < 224 → 128 ≤ b1 < 192 →
  Z.lor (Z.shiftl (Z.land b0 31) 6) (low6 b1) = (b0 - 192) * 64 + (b1 - 128).
Proof.
  intros. rewrite low6_mod, (land_mod b0 5 31), lor_shiftl by (done || apply Z.mod_pos_bound; lia).
  change (2 ^ 5) with 32. change (2 ^ 6) with 64. Z.div_mod_to_equations. lia.
Qed.

Lemma rune3 b0 b1 b2 : 224 ≤ b0 < 240 → 128 ≤ b1 < 192 → 128 ≤ b2 < 192 →
  Z.lor (Z.shiftl (Z.land b0 15) 12) (Z.lor (Z.shiftl (low6 b1) 6) (low6 b2)) =
  (b0 - 224) * 4096 + (b1 - 128) * 64 + (b2 - 128).
Proof.
  intros. rewrite !low6_mod, (land_mod b0 4 15) by done.
  assert (b1 mod 64 = b1 - 128) as -> by (Z.div_mod_to_equations; lia).
  assert (b2 mod 64 = b2 - 128) as -> by (Z.div_mod_to_equations; lia).
  assert (b0 mod 2 ^ 4 = b0 - 224) as -> by (change (2 ^ 4) with 16; Z.div_mod_to_equations; lia).
  rewrite (lor_shiftl (b1 - 128)) by (change (2 ^ 6) with 64; lia).
  rewrite lor_shiftl by (change (2 ^ 6) with 64; change (2 ^ 12) with 4096; lia).
  change (2 ^ 6) with 64. change (2 ^ 12) with 4096. lia.
Qed.

Lemma rune4 b0 b1 b2 b3 : 240 ≤ b0 < 248 → 128 ≤ b1 < 192 → 128 ≤ b2 < 192 → 128 ≤ b3 < 192 →
  Z.lor (Z.shiftl (Z.land b0 7) 18) (Z.lor (Z.shiftl (low6 b1) 12) (Z.lor (Z.shiftl (low6 b2) 6) (low6 b3))) =
  (b0 - 240) * 262144 + (b1 - 128) * 4096 + (b2 - 128) * 64 + (b3 - 128).
Proof.
  intros. rewrite !low6_mod, (land_mod b0 3 7) by done.
  assert (b1 mod 64 = b1 - 128) as -> by (Z.div_mod_to_equations; lia).
  assert (b2 mod 64 = b2 - 128) as -> by (Z.div_mod_to_equations; lia).
  assert (b3 mod 64 = b3 - 128) as -> by (Z.div_mod_to_equations; lia).
  assert (b0 mod 2 ^ 3 = b0 - 240) as -> by (change (2 ^ 3) with 8; Z.div_mod_to_equations; lia).
  change 6 with (6 + 0). rewrite (lor_shiftl (b2 - 128)) by (change (2 ^ (6 + 0)) with 64; lia).
  rewrite (lor_shiftl (b1 - 128)) by (change (2 ^ (6 + 0)) with 64; change (2 ^ 12) with 4096; lia).
  rewrite lor_shiftl by (change (2 ^ (6 + 0)) with 64; change (2 ^ 12) with 4096; change (2 ^ 18) with 262144; lia).
  change (2 ^ (6 + 0)) with 64. change (2 ^ 12) with 4096. change (2 ^ 18) with 262144. lia.
Qed.

Lemma byte_of_eq z c : z = byte_val c → byte_of z = c.
Proof. intros ->. apply byte_of_val. Qed.

(** A byte that starts no valid encoding. *)
Definition invalid (s : gostr) : Prop := DecodeRuneInString s = (RuneError, 1%nat).

Ltac between_facts :=
  unfold between in *;
  repeat match goal with
  | H : (_ && _)%bool = true |- _ => apply andb_prop in H as [? ?]
  | H : (_ <=? _) = true |- _ => apply Z.leb_le in H
  | H : (_ <? _) = true |- _ => apply Z.ltb_lt in H
  | H : (_ <? _) = false |- _ => apply Z.ltb_ge in H
  end.

Lemma accept_range_bounds b : 128 ≤ (accept_range b).1 ∧ (accept_range b).2 < 192 ∧
  (b = 224 → (accept_range b).1 = 160) ∧ (b = 237 → (accept_range b).2 = 159) ∧
  (b = 240 → (accept_range b).1 = 144) ∧ (b = 244 → (accept_range b).2 = 143).
Proof.
  unfold accept_range. destruct (Z.eqb_spec b 224), (Z.eqb_spec b 237), (Z.eqb_spec b 240), (Z.eqb_spec b 244); simpl; lia.
Qed.

(** The tests of [encode_rune], decided by the bounds at hand. *)
Ltac encode_tests :=
  unfold encode_rune;
  match goal with |- context [between 0 ?r 1114111] =>
    replace (between 0 r 1114111) with true by (symmetry; unfold between; apply andb_true_intro; split; apply Z.leb_le; lia);
    replace (between 55296 r 57343) with false
      by (symmetry; unfold between; apply andb_false_iff; rewrite !Z.leb_gt; lia)
  end; cbn [andb negb];
  repeat match goal with |- context [?x <? ?y] =>
    first [replace (x <? y) with true by (symmetry; apply Z.ltb_lt; lia)
          |replace (x <? y) with false by (symmetry; apply Z.ltb_ge; lia)]
  end; rewrite ?shiftr_div, ?low6_mod by lia;
  change (2 ^ 0) with 1; change (2 ^ 6) with 64; change (2 ^ 12) with 4096; change (2 ^ 18) with 262144.

Theorem decode_encode c s : ¬ invalid (c :: s) →
  encode_rune (DecodeRuneInString (c :: s)).1 = take (DecodeRuneInString (c :: s)).2 (c :: s).
Proof.
  unfold invalid. unfold DecodeRuneInString. pose proof (accept_range_bounds (byte_val c)) as Hacc.
  destruct (accept_range (byte_val c)) as [lo hi]. cbn [fst snd] in Hacc.
  destruct (byte_val c <? RuneSelf) eqn:E1; [|destruct (between 194 (byte_val c) 223) eqn:E2;
    [|destruct (between 224 (byte_val c) 239) eqn:E3; [|destruct (between 240 (byte_val c) 244) eqn:E4; [|done]]]].
  - intros _. apply encode_ascii. unfold is_ascii. by apply Z.ltb_lt.
  - destruct s as [|c1 s]; [done|]. destruct (between lo (byte_val c1) hi) eqn:E; [intros _|done].
    between_facts. unfold RuneSelf in *. cbn [fst snd take]. rewrite rune2 by lia. encode_tests.
    f_equal; [|f_equal]; apply byte_of_eq; Z.div_mod_to_equations; lia.
  - destruct s as [|c1 [|c2 s]]; [done..|]. destruct (between lo (byte_val c1) hi && _) eqn:E; [intros _|done].
    between_facts. unfold RuneSelf in *. cbn [fst snd take]. rewrite rune3 by lia. encode_tests.
    f_equal; [|f_equal; [|f_equal]]; apply byte_of_eq; Z.div_mod_to_equations; lia.
  - destruct s as [|c1 [|c2 [|c3 s]]]; [done..|]. destruct (between lo (byte_val c1) hi && _ && _) eqn:E; [intros _|done].
    between_facts. unfold RuneSelf in *. cbn [fst snd take]. rewrite rune4 by lia. encode_tests.
    f_equal; [|f_equal; [|f_equal; [|f_equal]]]; apply byte_of_eq; Z.div_mod_to_equations; lia.
Qed.

(** The bytes of an encoding after its first are no ASCII bytes. *)
Lemma decode_tail c s i d : (1 ≤ i < (DecodeRuneInString (c :: s)).2)%nat → (c :: s) !! i = Some d → 128 ≤ byte_val d.
Proof.
  unfold DecodeRuneInString. pose proof (accept_range_bounds (byte_val c)) as Hacc.
  destruct (accept_range (byte_val c)) as [lo hi]. cbn [fst snd] in Hacc. intros Hi Hd.
  destruct i as [|[|[|[|i]]]]; [lia| | | |]; destruct s as [|c1 [|c2 [|c3 s]]]; simpl in Hd; simplify_eq;
    repeat (case_match; cbn [snd] in Hi; try lia); between_facts; lia.
Qed.

(** * UTF-8: what decoding reads of a text, and the ASCII runes of a text. *)

Lemma decode_high c s : ¬ is_ascii c → 128 ≤ (DecodeRuneInString (c :: s)).1.
Proof.
  unfold is_ascii, DecodeRuneInString. pose proof (accept_range_bounds (byte_val c)) as Hacc.
  destruct (accept_range (byte_val c)) as [lo hi]. cbn [fst snd] in Hacc. intros Hc.
  destruct (byte_val c <? RuneSelf) eqn:E1; [between_facts; lia|]. destruct (between 194 (byte_val c) 223) eqn:E2;
    [|destruct (between 224 (byte_val c) 239) eqn:E3; [|destruct (between 240 (byte_val c) 244) eqn:E4; [|done]]].
  - destruct s as [|c1 s]; [done|]. destruct (between lo (byte_val c1) hi) eqn:E; [|done]. between_facts. cbn [fst]. rewrite rune2; lia.
  - destruct s as [|c1 [|c2 s]]; [done..|]. destruct (between lo (byte_val c1) hi && _) eqn:E; [|done]. between_facts. cbn [fst]. rewrite rune3; lia.
  - destruct s as [|c1 [|c2 [|c3 s]]]; [done..|]. destruct (between lo (byte_val c1) hi && _ && _) eqn:E; [|done].
    between_facts. cbn [fst]. rewrite rune4; lia.
Qed.

(** Decoding depends on the bytes that it reads. *)
Lemma decode_prefix u t :
  u ≠ [] → ((DecodeRuneInString (u ++ t)).2 ≤ length u)%nat → DecodeRuneInString u = DecodeRuneInString (u ++ t).
Proof.
  intros Hu. destruct u as [|c0 [|c1 [|c2 [|c3 u]]]]; [done| | | |by cbn [app DecodeRuneInString]];
    cbn [app length]; unfold DecodeRuneInString; destruct (accept_range (byte_val c0)) as [lo hi];
    destruct (byte_val c0 <? RuneSelf), (between 194 (byte_val c0) 223), (between 224 (byte_val c0) 239), (between 240 (byte_val c0) 244);
    try done; repeat (case_match; try done); cbn [snd]; intros; lia.
Qed.

(** ** [range] *)

Lemma range_from_skip i k s : (k ≤ length s)%nat → range_from i k s = range_from (i + k) 0 (drop k s).
Proof.
  revert i s. induction k as [|k IH]; intros i s Hk; [by rewrite Nat.add_0_r, drop_0|].
  destruct s as [|c s]; [simpl in Hk; lia|]. cbn [range_from drop]. rewrite IH by (simpl in Hk; lia). f_equal. lia.
Qed.
Lemma range_from_step i c s :
  let '(r, w) := DecodeRuneInString (c :: s) in range_from i 0 (c :: s) = (i, r) :: range_from (i + w) 0 (drop w (c :: s)).
Proof.
  pose proof (decode_size c s) as Hw. cbn [range_from]. destruct (DecodeRuneInString (c :: s)) as [r w]. cbn [snd] in Hw.
  f_equal. destruct w as [|w]; [lia|]. cbn [Nat.pred drop]. rewrite range_from_skip by lia. f_equal. lia.
Qed.
(** An ASCII rune occurs in a text exactly when its byte does. *)
Lemma range_ascii c s i : is_ascii c → existsb (fun p => byte_val c =? p.2) (range_from i 0 s) = existsb (Ascii.eqb c) s.
Proof.
  intros Hc. remember (length s) as n eqn:Hn. assert (length s ≤ n)%nat as Hle by lia. clear Hn. revert i s Hle.
  induction n as [|n IH]; intros i s Hle; [by destruct s; [|simpl in Hle; lia]|]. destruct s as [|d s]; [done|].
  pose proof (range_from_step i d s) as Hr. pose proof (decode_size d s) as Hw. pose proof (decode_tail d s) as Htail.
  pose proof (decode_high d s) as Hhigh. destruct (DecodeRuneInString (d :: s)) as [r w] eqn:Hdec. cbn [fst snd] in *. rewrite Hr.
  change (existsb ?f ((i, r) :: ?l)) with ((byte_val c =? r) || existsb f l).
  rewrite IH by (rewrite length_drop; simpl in *; lia). replace (existsb (Ascii.eqb c) (d :: s)) with (existsb (Ascii.eqb c) (take w (d :: s) ++ drop w (d :: s))) by (by rewrite take_drop).
  rewrite existsb_app. f_equal.
  assert (∀ e, (byte_val c =? byte_val e) = Ascii.eqb c e) as Hbyte.
  { intros e. apply Bool.eq_iff_eq_true. rewrite Z.eqb_eq, Ascii.eqb_eq. split; [|by intros ->].
    intros H. by rewrite <- (byte_of_val c), H, byte_of_val. }
  destruct (decide (is_ascii d)) as [Hd|Hd].
  - rewrite decode_ascii in Hdec by done. injection Hdec as <- <-. cbn. by rewrite Hbyte, orb_false_r.
  - specialize (Hhigh Hd). unfold is_ascii, RuneSelf in *. rewrite (proj2 (Z.eqb_neq _ _)) by lia. symmetry.
    destruct (existsb _ _) eqn:He; [|done]. apply existsb_exists in He as (e&He&Heq%Ascii.eqb_eq). subst e.
    apply list_elem_of_In, list_elem_of_lookup in He as (k&Hk). apply lookup_take_Some in Hk as [Hk Hkw].
    destruct k as [|k]; [simpl in Hk; simplify_eq; lia|]. specialize (Htail (S k) c ltac:(lia) Hk). lia.
Qed.

(** ** [FullRune] *)

(** [utf8.FullRune]: enough bytes to decode, also when they are invalid. *)
Definition rune_size (b0 : Z) : nat :=
  if between 194 b0 223 then 2 else if between 224 b0 239 then 3 else if between 240 b0 244 then 4 else 1.
Definition FullRune (p : gostr) : bool :=
  match p with
  | [] => false
  | c0 :: p1 =>
      let '(lo, hi) := accept_range (byte_val c0) in
      (rune_size (byte_val c0) <=? length p)%nat ||
      match p1 with
      | c1 :: p2 => negb (between lo (byte_val c1) hi) || match p2 with c2 :: _ => negb (between 128 (byte_val c2) 191) | [] => false end
      | [] => false
      end
  end.
(** A full rune decodes in the same way whatever follows. *)
Lemma decode_full p t : FullRune p = true → DecodeRuneInString (p ++ t) = DecodeRuneInString p.
Proof.
  destruct p as [|c0 [|c1 [|c2 [|c3 p]]]]; [done| | | |by cbn [app DecodeRuneInString]];
    cbn [app]; unfold FullRune, rune_size, DecodeRuneInString; destruct (accept_range (byte_val c0)) as [lo hi];
    destruct (byte_val c0 <? RuneSelf), (between 194 (byte_val c0) 223), (between 224 (byte_val c0) 239), (between 240 (byte_val c0) 244);
    cbn; try done; destruct t as [|t0 [|t1 [|t2 t]]]; try done;
    repeat match goal with |- context [between ?x ?y ?z] => destruct (between x y z); cbn; try done end.
Qed.
Lemma FullRune_long p : (4 ≤ length p)%nat → FullRune p = true.
Proof.
  intros Hp. destruct p as [|c0 p]; [simpl in Hp; lia|]. unfold FullRune. destruct (accept_range _) as [lo hi].
  apply orb_true_intro. left. apply Nat.leb_le. unfold rune_size. repeat case_match; lia.
Qed.
