(* ===== verification/CommandSpec.v ===== *)
(** The shared option parser of [commands/command_spec.go]: declarative command descriptions and
    [ParseCommandSpec].  The renderers of help texts are not modelled. *)
From S2P Require Import Prelude GoUtf8.

(** ** Data *)

Inductive OptionArity := OptionNoValue | OptionRequiredValue | OptionOptionalValue.

#[export] Instance OptionArity_eq_dec : EqDecision OptionArity.
Proof. solve_decision. Defined.

Record ParseConfig := MkConfig {
  InferLongOptions : bool;
  GroupShortOptions : bool;
  ContinueShortGroupValues : bool;
  ShortOptionValueAttached : bool;
  LongOptionValueEquals : bool;
  StopAtFirstPositional : bool;
  NegativeNumberPositional : bool;
  AutoHelp : bool;
  AutoVersion : bool;
}.

Record OptionSpec := MkOption {
  os_Name : gostr;
  os_Short : rune;
  os_ShortAliases : list rune;
  os_Long : gostr;
  os_Aliases : list gostr;
  os_HelpAliases : list gostr;
  os_Help : gostr;
  os_ValueName : gostr;
  os_Arity : OptionArity;
  os_Repeatable : bool;
  os_Hidden : bool;
  os_Overrides : list gostr;
  os_OptionalValueEqualsOnly : bool;
}.

Record ArgSpec := MkArg {
  as_Name : gostr;
  as_ValueName : gostr;
  as_Help : gostr;
  as_Required : bool;
  as_Repeatable : bool;
  as_Default : list gostr;
}.

(** The callbacks [HelpRenderer] and [VersionRenderer] take no part in parsing. *)
Record CommandSpec := MkSpec {
  cs_Name : gostr;
  cs_About : gostr;
  cs_Usage : gostr;
  cs_AfterHelp : gostr;
  cs_Options : list OptionSpec;
  cs_Args : list ArgSpec;
  cs_Parse : ParseConfig;
}.

Record ParsedOptionOccurrence := MkOcc {
  po_Name : gostr;
  po_Raw : gostr;
  po_Value : gostr;
  po_HasValue : bool;
}.

Record ParsedCommand := MkParsed {
  pc_Spec : CommandSpec;
  optionValues : gmap gostr (list gostr);
  optionCount : gmap gostr Z;
  optionOrder : list gostr;
  optionEvents : list ParsedOptionOccurrence;
  argValues : gmap gostr (list gostr);
  positionals : list gostr;
}.

Definition set_argValues (v : gmap gostr (list gostr)) (p : ParsedCommand) : ParsedCommand :=
  MkParsed (pc_Spec p) (optionValues p) (optionCount p) (optionOrder p) (optionEvents p) v (positionals p).
Definition set_positionals (v : list gostr) (p : ParsedCommand) : ParsedCommand :=
  MkParsed (pc_Spec p) (optionValues p) (optionCount p) (optionOrder p) (optionEvents p) (argValues p) v.

(** ** Accessors; on a nil receiver they return the zero value, as [None] here. *)

Definition Count (m : option ParsedCommand) (name : gostr) : Z :=
  match m with None => 0 | Some m => default 0 (optionCount m !! name) end.
Definition Has (m : option ParsedCommand) (name : gostr) : bool :=
  match m with None => false | Some _ => 0 <? Count m name end.
Definition Values (m : option ParsedCommand) (name : gostr) : list gostr :=
  match m with None => [] | Some m => default [] (optionValues m !! name) end.
Definition Value (m : option ParsedCommand) (name : gostr) : gostr := default [] (reverse (Values m name) !! 0%nat).
Definition Args (m : option ParsedCommand) (name : gostr) : list gostr :=
  match m with None => [] | Some m => default [] (argValues m !! name) end.
Definition Arg (m : option ParsedCommand) (name : gostr) : gostr := default [] (Args m name !! 0%nat).
Definition Positionals (m : option ParsedCommand) : list gostr :=
  match m with None => [] | Some m => positionals m end.
Definition OptionOrder (m : option ParsedCommand) : list gostr :=
  match m with None => [] | Some m => optionOrder m end.
Definition OptionOccurrences (m : option ParsedCommand) : list ParsedOptionOccurrence :=
  match m with None => [] | Some m => optionEvents m end.

(** ** Usage errors *)

Inductive usage :=
| UnrecognizedOption (raw : gostr)
| HelpWithArgument
| VersionWithArgument
| InvalidShort (ch : rune)
| ArgumentNotAllowed (shownName : gostr)
| LongRequiresArgument (long : gostr)
| ShortRequiresArgument (short : rune)
| MissingOperand
| ExtraOperand (operand : gostr).

Definition single_quote : ascii := "'"%char.

(** Every quote becomes: end of quoting, an escaped quote, start of quoting. *)
Definition quoteGNUOperand (value : gostr) : gostr :=
  [single_quote] ++ flat_map (fun c => if decide (c = single_quote) then go "'\''" else [c]) value ++ [single_quote].

Definition usage_text (u : usage) : gostr :=
  match u with
  | UnrecognizedOption raw => go "unrecognized option '" ++ raw ++ go "'"
  | HelpWithArgument => go "option '--help' doesn't allow an argument"
  | VersionWithArgument => go "option '--version' doesn't allow an argument"
  | InvalidShort ch => go "invalid option -- '" ++ encode_rune ch ++ go "'"
  | ArgumentNotAllowed shown => go "option '" ++ shown ++ go "' doesn't allow an argument"
  | LongRequiresArgument long => go "option '--" ++ long ++ go "' requires an argument"
  | ShortRequiresArgument short => go "option requires an argument -- '" ++ encode_rune short ++ go "'"
  | MissingOperand => go "missing operand"
  | ExtraOperand operand => go "extra operand " ++ quoteGNUOperand operand
  end.

(** The error [exitf] returns; it also writes the text and a newline to the standard error. *)
Record ExitError := MkExit { ee_Code : Z; ee_Err : gostr }.

Definition newline : ascii := ascii_of_N 10.

Definition commandUsageError (name : gostr) (u : usage) : ExitError :=
  MkExit 1 (name ++ go ": " ++ usage_text u ++ [newline] ++ go "Try '" ++ name ++ go " --help' for more information.").

(** ** Matching options *)

Inductive name_match := Exact | Prefix | NoMatch.

(** The inner loop over the names of one option. *)
Fixpoint match_names (infer : bool) (name : gostr) (names : list gostr) : name_match :=
  match names with
  | [] => NoMatch
  | candidate :: names =>
      if decide (candidate = []) then match_names infer name names
      else if decide (candidate = name) then Exact
      else if infer && has_prefix name candidate then Prefix
      else match_names infer name names
  end.

(** The outer loop; [None] for the error. *)
Fixpoint match_options (infer : bool) (name : gostr) (opts candidates : list OptionSpec) : option OptionSpec :=
  match opts with
  | [] => match candidates with [opt] => Some opt | _ => None end
  | opt :: opts =>
      match match_names infer name (os_Long opt :: os_Aliases opt) with
      | Exact => Some opt
      | Prefix => match_options infer name opts (candidates ++ [opt])
      | NoMatch => match_options infer name opts candidates
      end
  end.

Definition matchLongOption (spec : CommandSpec) (name : gostr) : option OptionSpec :=
  match_options (InferLongOptions (cs_Parse spec)) name (cs_Options spec) [].

Definition short_is (short : rune) (opt : OptionSpec) : bool :=
  (os_Short opt =? short) || existsb (Z.eqb short) (os_ShortAliases opt).

Definition matchShortOption (spec : CommandSpec) (short : rune) : option OptionSpec :=
  List.find (short_is short) (cs_Options spec).

(** ** Recording *)

Definition recordOption (parsed : ParsedCommand) (name raw value : gostr) (hasValue : bool) : ParsedCommand :=
  MkParsed (pc_Spec parsed)
    (if hasValue || bool_decide (name = go "output-error")
     then <[name := default [] (optionValues parsed !! name) ++ [value]]> (optionValues parsed)
     else optionValues parsed)
    (<[name := default 0 (optionCount parsed !! name) + 1]> (optionCount parsed))
    (optionOrder parsed ++ [name])
    (optionEvents parsed ++ [MkOcc name raw value hasValue])
    (argValues parsed) (positionals parsed).

(** [applyOptionValue] on the arguments [rest] that are left. *)
Definition applyOptionValue (spec : CommandSpec) (parsed : ParsedCommand) (opt : OptionSpec)
    (shownName value : gostr) (hasValue : bool) (rest : list gostr) (long : bool)
  : result ExitError unit * ParsedCommand * list gostr :=
  let fail u := (Err (commandUsageError (cs_Name spec) u), parsed, rest) in
  let record value hasValue rest := (Ok tt, recordOption parsed (os_Name opt) shownName value hasValue, rest) in
  match os_Arity opt with
  | OptionNoValue =>
      if hasValue then fail (ArgumentNotAllowed shownName) else record [] false rest
  | OptionRequiredValue =>
      if hasValue then record value true rest
      else match rest with
           | [] => fail (if long then LongRequiresArgument (os_Long opt) else ShortRequiresArgument (os_Short opt))
           | v :: rest => record v true rest
           end
  | OptionOptionalValue =>
      match rest with
      | v :: rest' =>
          if negb hasValue && long && negb (os_OptionalValueEqualsOnly opt) && negb (has_prefix (go "-") v)
          then record v true rest' else record value hasValue rest
      | [] => record value hasValue rest
      end
  end.

(** ** Parsing *)

(** What an argument does: on to the next, an automatic action, or an error. *)
Inductive handled := Continue | Action (action : gostr) | Failed (e : ExitError).

(** [strings.Cut(s, string(c))]. *)
Fixpoint cut_byte (c : ascii) (s : gostr) : gostr * gostr * bool :=
  match s with
  | [] => ([], [], false)
  | d :: s' => if decide (c = d) then ([], s', true)
               else let '(before, after, found) := cut_byte c s' in (d :: before, after, found)
  end.

Definition parseLongOption (spec : CommandSpec) (parsed : ParsedCommand) (raw : gostr) (rest : list gostr)
  : handled * ParsedCommand * list gostr :=
  let fail u := (Failed (commandUsageError (cs_Name spec) u), parsed, rest) in
  let name := trim_prefix (go "--") raw in
  let '(name, value, hasValue) :=
    if LongOptionValueEquals (cs_Parse spec) then cut_byte "="%char name else (name, [], false) in
  match matchLongOption spec name with
  | None => fail (UnrecognizedOption raw)
  | Some opt =>
      if bool_decide (os_Name opt = go "help") && AutoHelp (cs_Parse spec) then
        if hasValue then fail HelpWithArgument else (Action (go "help"), parsed, rest)
      else if bool_decide (os_Name opt = go "version") && AutoVersion (cs_Parse spec) then
        if hasValue then fail VersionWithArgument else (Action (go "version"), parsed, rest)
      else
        match applyOptionValue spec parsed opt raw value hasValue rest true with
        | (Ok _, parsed, rest) => (Continue, parsed, rest)
        | (Err e, parsed, rest) => (Failed e, parsed, rest)
        end
  end.

(** The options of a group whose values are taken from the arguments that follow. *)
Fixpoint apply_pending (spec : CommandSpec) (parsed : ParsedCommand) (pending : list (OptionSpec * gostr))
    (rest : list gostr) : handled * ParsedCommand * list gostr :=
  match pending with
  | [] => (Continue, parsed, rest)
  | (opt, shownName) :: pending =>
      match applyOptionValue spec parsed opt shownName [] false rest false with
      | (Ok _, parsed, rest) => apply_pending spec parsed pending rest
      | (Err e, parsed, rest) => (Failed e, parsed, rest)
      end
  end.

(** The value attached to the short option [opt] by the rest [remaining] of its group. *)
Definition attached_value (spec : CommandSpec) (opt : OptionSpec) (remaining : gostr) : gostr * bool :=
  if ShortOptionValueAttached (cs_Parse spec) && negb (bool_decide (remaining = [])) then
    if bool_decide (os_Arity opt = OptionOptionalValue) && os_OptionalValueEqualsOnly opt then
      if has_prefix (go "=") remaining then (drop 1 remaining, true) else ([], false)
    else (remaining, true)
  else ([], false).

(** The loop over the runes of a group; [shorts] is the whole group. *)
Fixpoint short_loop (spec : CommandSpec) (shorts : gostr) (runes : list (nat * rune)) (parsed : ParsedCommand)
    (pending : list (OptionSpec * gostr)) (rest : list gostr) : handled * ParsedCommand * list gostr :=
  match runes with
  | [] => apply_pending spec parsed pending rest
  | (i, ch) :: runes =>
      let fail u := (Failed (commandUsageError (cs_Name spec) u), parsed, rest) in
      let shown := go "-" ++ encode_rune ch in
      let auto action :=
        match shorts !! S i with
        | Some c => fail (InvalidShort (byte_val c))
        | None => (Action action, parsed, rest)
        end in
      match matchShortOption spec ch with
      | None => fail (InvalidShort ch)
      | Some opt =>
          if bool_decide (os_Name opt = go "help") && AutoHelp (cs_Parse spec) then auto (go "help")
          else if bool_decide (os_Name opt = go "version") && AutoVersion (cs_Parse spec) then auto (go "version")
          else if decide (os_Arity opt = OptionNoValue) then
            short_loop spec shorts runes (recordOption parsed (os_Name opt) shown [] false) pending rest
          else
            let '(value, hasValue) := attached_value spec opt (drop (S i) shorts) in
            if bool_decide (os_Arity opt = OptionRequiredValue) && ContinueShortGroupValues (cs_Parse spec)
               && negb hasValue
            then short_loop spec shorts runes parsed (pending ++ [(opt, shown)]) rest
            else
              match applyOptionValue spec parsed opt shown value hasValue rest false with
              | (Err e, parsed, rest) => (Failed e, parsed, rest)
              | (Ok _, parsed, rest) =>
                  if bool_decide (os_Arity opt = OptionOptionalValue) && negb hasValue
                  then short_loop spec shorts runes parsed pending rest
                  else apply_pending spec parsed pending rest
              end
      end
  end.

Definition parseShortOptions (spec : CommandSpec) (parsed : ParsedCommand) (raw : gostr) (rest : list gostr)
  : handled * ParsedCommand * list gostr :=
  let shorts := trim_prefix (go "-") raw in
  match shorts with
  | c :: _ :: _ =>
      if negb (GroupShortOptions (cs_Parse spec))
      then (Failed (commandUsageError (cs_Name spec) (InvalidShort (byte_val c))), parsed, rest)
      else short_loop spec shorts (range_string shorts) parsed [] rest
  | _ => short_loop spec shorts (range_string shorts) parsed [] rest
  end.

Definition looksNegativeNumeric (value : gostr) : bool :=
  match value with
  | c :: d :: _ => bool_decide (c = "-"%char) && existsb (fun x => bool_decide (d = x)) (go ".0123456789iInN")
  | _ => false
  end.

Definition help_option : OptionSpec :=
  MkOption (go "help") 104 [] (go "help") [] [] (go "display this help and exit") [] OptionNoValue
    false false [] false.
Definition version_option : OptionSpec :=
  MkOption (go "version") 0 [] (go "version") [] [] (go "output version information and exit") [] OptionNoValue
    false false [] false.

Definition with_options (opts : list OptionSpec) (spec : CommandSpec) : CommandSpec :=
  MkSpec (cs_Name spec) (cs_About spec) (cs_Usage spec) (cs_AfterHelp spec) opts (cs_Args spec) (cs_Parse spec).

Definition normalizeCommandSpec (spec : CommandSpec) : CommandSpec :=
  let opts := cs_Options spec in
  let opts := if AutoHelp (cs_Parse spec) then opts ++ [help_option] else opts in
  let opts := if AutoVersion (cs_Parse spec) then opts ++ [version_option] else opts in
  with_options opts spec.

(** ** Positional arguments *)

(** The loop over the argument specs. *)
Fixpoint assign_loop (name : gostr) (args : list ArgSpec) (positionals : list gostr)
    (values : gmap gostr (list gostr)) : result ExitError (gmap gostr (list gostr)) :=
  match args with
  | [] => Ok values
  | arg :: args =>
      let next positionals values :=
        match args, positionals with
        | [], extra :: _ => Err (commandUsageError name (ExtraOperand extra))
        | _, _ => assign_loop name args positionals values
        end in
      if as_Repeatable arg then
        let vs := if decide (positionals = []) then as_Default arg else positionals in
        if as_Required arg && bool_decide (vs = []) then Err (commandUsageError name MissingOperand)
        else next [] (<[as_Name arg := vs]> values)
      else
        match positionals with
        | [] =>
            if as_Required arg then Err (commandUsageError name MissingOperand)
            else next [] (if decide (as_Default arg = []) then values
                          else <[as_Name arg := as_Default arg]> values)
        | p :: positionals => next positionals (<[as_Name arg := [p]]> values)
        end
  end.

Definition assignArgSpecs (parsed : ParsedCommand) : result ExitError ParsedCommand :=
  let args := cs_Args (pc_Spec parsed) in
  match args, positionals parsed with
  | [], (_ :: _) as ps => Ok (set_argValues (<[go "args" := ps]> (argValues parsed)) parsed)
  | _, ps => (fun v => set_argValues v parsed) <$> assign_loop (cs_Name (pc_Spec parsed)) args ps (argValues parsed)
  end.

(** ** The argument loop *)

Inductive arg_kind := EndOfOptions | LongOption | ShortOptions | Operand.

(** How the loop of [ParseCommandSpec] classifies an argument while it parses options. *)
Definition classify (spec : CommandSpec) (arg : gostr) : arg_kind :=
  if decide (arg = go "--") then EndOfOptions
  else if negb (bool_decide (arg = go "-")) && has_prefix (go "--") arg then LongOption
  else if negb (bool_decide (arg = go "-")) && has_prefix (go "-") arg
          && (negb (NegativeNumberPositional (cs_Parse spec)) || negb (looksNegativeNumeric arg)) then ShortOptions
  else Operand.

Definition add_positionals (ps : list gostr) (p : ParsedCommand) : ParsedCommand :=
  set_positionals (positionals p ++ ps) p.

(** Each turn takes at least one argument, so the length of [args] is fuel enough; [None] is the
    exhaustion of it. *)
Fixpoint args_loop (fuel : nat) (spec : CommandSpec) (parsingOptions : bool) (args : list gostr)
    (parsed : ParsedCommand) : option (handled * ParsedCommand) :=
  match args with
  | [] => Some (Continue, parsed)
  | arg :: args =>
      match fuel with
      | O => None
      | S fuel =>
          let after r :=
            match r with
            | (Continue, parsed, rest) => args_loop fuel spec parsingOptions rest parsed
            | (h, parsed, _) => Some (h, parsed)
            end in
          match (if parsingOptions then classify spec arg else Operand) with
          | EndOfOptions => args_loop fuel spec false args parsed
          | LongOption => after (parseLongOption spec parsed arg args)
          | ShortOptions => after (parseShortOptions spec parsed arg args)
          | Operand =>
              if StopAtFirstPositional (cs_Parse spec)
              then Some (Continue, add_positionals (arg :: args) parsed)
              else args_loop fuel spec parsingOptions args (add_positionals [arg] parsed)
          end
      end
  end.

Definition new_parsed (spec : CommandSpec) : ParsedCommand := MkParsed spec ∅ ∅ [] [] ∅ [].

(** The parsed command (nil when the operands do not fit), the action and the error. *)
Definition ParseCommandSpec (args : list gostr) (spec : CommandSpec)
  : option (option ParsedCommand * gostr * option ExitError) :=
  let spec := normalizeCommandSpec spec in
  match args_loop (length args) spec true args (new_parsed spec) with
  | None => None
  | Some (Failed e, parsed) => Some (Some parsed, [], Some e)
  | Some (Action a, parsed) => Some (Some parsed, a, None)
  | Some (Continue, parsed) =>
      match assignArgSpecs parsed with
      | Err e => Some (None, [], Some e)
      | Ok parsed => Some (Some parsed, [], None)
      end
  end.
