(* ===== verification/CommandSpecProps.v ===== *)
(** What the option parser does: it terminates, its books balance, operands keep their order, and
    a command line written out from option occurrences and operands is read back as them. *)
From S2P Require Import Prelude GoUtf8 CommandSpec.

#[local] Arguments go : simpl never.

(** ** Steps only record and take arguments *)

Section preserve.
Context (P : ParsedCommand → Prop).
Context (Hrec : ∀ p name raw value h, P p → P (recordOption p name raw value h)).

(** The parsed command satisfies [P] and the arguments left end those there were. *)
Definition keeps (rest : list gostr) {A} (r : A * ParsedCommand * list gostr) : Prop :=
  P r.1.2 ∧ r.2 `suffix_of` rest.

Lemma applyOptionValue_keeps spec p opt shown v h rest long : P p →
  keeps rest (applyOptionValue spec p opt shown v h rest long).
Proof.
  intros Hp. unfold applyOptionValue, keeps.
  destruct (os_Arity opt), h, rest as [|x rest]; repeat case_match; simpl;
    split; auto; done || by eexists [_].
Qed.

Lemma apply_pending_keeps spec p pending rest : P p → keeps rest (apply_pending spec p pending rest).
Proof.
  revert p rest. induction pending as [|[opt shown] pending IH]; intros p rest Hp; [by split|].
  cbn [apply_pending].
  pose proof (applyOptionValue_keeps spec p opt shown [] false rest false Hp) as [H1 H2].
  destruct (applyOptionValue spec p opt shown [] false rest false) as [[[u|e] p'] rest']; [|by split].
  destruct (IH p' rest' H1) as [H3 H4]. split; [done|]. by transitivity rest'.
Qed.

(** Running [k] after a call that keeps [P]. *)
Lemma keeps_trans {A B} rest (r : A * ParsedCommand * list gostr) (r' : B * ParsedCommand * list gostr) :
  keeps rest r → (P r.1.2 → keeps r.2 r') → keeps rest r'.
Proof. intros [H1 H2] H. destruct (H H1) as [H3 H4]. split; [done|]. by transitivity r.2. Qed.

Lemma short_loop_keeps spec shorts runes p pending rest : P p →
  keeps rest (short_loop spec shorts runes p pending rest).
Proof.
  revert p pending rest. induction runes as [|[i ch] runes IH]; intros p pending rest Hp; cbn [short_loop].
  { by apply apply_pending_keeps. }
  destruct (matchShortOption spec ch) as [opt|]; [|by split].
  destruct (_ && AutoHelp _); [by case_match; split|].
  destruct (_ && AutoVersion _); [by case_match; split|].
  case_decide; [by apply IH, Hrec|].
  destruct (attached_value spec opt _) as [value h].
  destruct (_ && ContinueShortGroupValues _ && _); [by apply IH|].
  eapply keeps_trans; [by apply (applyOptionValue_keeps spec p opt (go "-" ++ encode_rune ch) value h rest false)|].
  destruct (applyOptionValue _ _ _ _ _ _ _ _) as [[[u|e] p'] rest']; simpl; intros Hp'; [|by split].
  destruct (_ && negb h); [by apply IH|by apply apply_pending_keeps].
Qed.

Lemma parseShortOptions_keeps spec p raw rest : P p → keeps rest (parseShortOptions spec p raw rest).
Proof.
  intros Hp. unfold parseShortOptions. destruct (trim_prefix _ _) as [|c [|d s]];
    [by apply short_loop_keeps..|]. destruct (negb _); [by split|by apply short_loop_keeps].
Qed.

Lemma parseLongOption_keeps spec p raw rest : P p → keeps rest (parseLongOption spec p raw rest).
Proof.
  intros Hp. unfold parseLongOption. destruct (if LongOptionValueEquals _ then _ else _) as [[name value] h].
  destruct (matchLongOption spec name) as [opt|]; [|by split].
  destruct (_ && AutoHelp _); [by destruct h; split|].
  destruct (_ && AutoVersion _); [by destruct h; split|].
  eapply keeps_trans; [by apply (applyOptionValue_keeps spec p opt raw value h rest true)|].
  by destruct (applyOptionValue _ _ _ _ _ _ _ _) as [[[u|e] p'] rest'].
Qed.

Context (Hpos : ∀ p ps, P p → P (add_positionals ps p)).

Lemma args_loop_keeps fuel spec b args p h p' : P p →
  args_loop fuel spec b args p = Some (h, p') → P p'.
Proof.
  revert b args p. induction fuel as [|fuel IH]; intros b [|arg args] p Hp; cbn [args_loop]; try done;
    try by intros [= <- <-].
  assert (∀ r : handled * ParsedCommand * list gostr, keeps args r →
    match r with (Continue, q, rest) => args_loop fuel spec b rest q | (g, q, _) => Some (g, q) end = Some (h, p') →
    P p') as Hafter.
  { intros [[[|a|e] q] rest] [Hq _]; simpl in *; [by apply IH|by intros [= <- <-]..]. }
  destruct (if b then _ else _); [by apply IH|..].
  - apply Hafter, parseLongOption_keeps, Hp.
  - apply Hafter, parseShortOptions_keeps, Hp.
  - destruct (StopAtFirstPositional _); [intros [= <- <-]; by apply Hpos|by apply IH, Hpos].
Qed.
End preserve.

(** ** Termination *)

Lemma args_loop_total fuel spec b args p : (length args ≤ fuel)%nat →
  args_loop fuel spec b args p ≠ None.
Proof.
  revert b args p. induction fuel as [|fuel IH]; intros b [|arg args] p Hf; cbn [args_loop length] in *; try done; [lia|].
  assert (∀ r : handled * ParsedCommand * list gostr, keeps (λ _, True) args r →
    match r with (Continue, q, rest) => args_loop fuel spec b rest q | (g, q, _) => Some (g, q) end ≠ None) as Hafter.
  { intros [[[|a|e] q] rest] [_ Hs]; simpl in *; [|done..]. apply IH. apply suffix_length in Hs. lia. }
  destruct (if b then _ else _); [apply IH; lia|..].
  - apply Hafter. by apply parseLongOption_keeps.
  - apply Hafter. by apply parseShortOptions_keeps.
  - destruct (StopAtFirstPositional _); [done|]. apply IH. lia.
Qed.

(** More fuel than enough changes nothing. *)
Lemma args_loop_fuel fuel spec b args p r :
  args_loop fuel spec b args p = Some r → ∀ fuel', (fuel ≤ fuel')%nat → args_loop fuel' spec b args p = Some r.
Proof.
  revert b args p. induction fuel as [|fuel IH]; intros b [|arg args] p Hr [|fuel'] Hf; cbn [args_loop] in *;
    try done; try lia.
  assert (fuel ≤ fuel')%nat as Hf' by lia.
  destruct (if b then _ else _); [by eapply IH|..].
  - destruct (parseLongOption _ _ _ _) as [[[|a|e] q] rest]; [by eapply IH|done..].
  - destruct (parseShortOptions _ _ _ _) as [[[|a|e] q] rest]; [by eapply IH|done..].
  - destruct (StopAtFirstPositional _); [done|by eapply IH].
Qed.

Lemma args_loop_enough fuel spec b args p : (length args ≤ fuel)%nat →
  args_loop fuel spec b args p = args_loop (length args) spec b args p.
Proof.
  intros Hf. destruct (args_loop (length args) spec b args p) as [r|] eqn:E.
  - by eapply args_loop_fuel.
  - by apply args_loop_total in E.
Qed.

(** ** The books balance *)

Definition is_named (name : gostr) (ev : ParsedOptionOccurrence) : bool := bool_decide (po_Name ev = name).
Definition has_stored (name : gostr) (ev : ParsedOptionOccurrence) : bool :=
  is_named name ev && (po_HasValue ev || bool_decide (name = go "output-error")).

Definition num_named (name : gostr) (evs : list ParsedOptionOccurrence) : Z :=
  glen (List.filter (is_named name) evs).
Definition stored_values (name : gostr) (evs : list ParsedOptionOccurrence) : list gostr :=
  map po_Value (List.filter (has_stored name) evs).

Record books (p : ParsedCommand) : Prop := {
  bk_order : optionOrder p = map po_Name (optionEvents p);
  bk_count : ∀ name, default 0 (optionCount p !! name) = num_named name (optionEvents p);
  bk_values : ∀ name, default [] (optionValues p !! name) = stored_values name (optionEvents p);
}.

Lemma filter_snoc {A} (f : A → bool) l x :
  List.filter f (l ++ [x]) = List.filter f l ++ (if f x then [x] else []).
Proof. rewrite List.filter_app. simpl. by destruct (f x). Qed.

Lemma recordOption_books p name raw value h : books p → books (recordOption p name raw value h).
Proof.
  intros [H1 H2 H3]. split; simpl.
  - by rewrite H1, map_app.
  - intros n. unfold num_named. rewrite filter_snoc, glen_app. unfold is_named at 2. simpl.
    destruct (decide (name = n)) as [->|Hne].
    + rewrite lookup_insert_eq, bool_decide_true by done. simpl. rewrite H2. done.
    + rewrite lookup_insert_ne, bool_decide_false by done. rewrite H2. unfold num_named, glen. simpl. lia.
  - intros n. unfold stored_values. rewrite filter_snoc, map_app. unfold has_stored at 2, is_named. simpl.
    destruct (decide (name = n)) as [->|Hne].
    + rewrite (bool_decide_true (n = n)) by done. simpl. destruct (h || bool_decide _); simpl.
      * rewrite lookup_insert_eq. simpl. by rewrite H3.
      * by rewrite app_nil_r, H3.
    + rewrite (bool_decide_false (name = n)) by done. simpl. rewrite app_nil_r.
      destruct (h || bool_decide _); [rewrite lookup_insert_ne by done|]; apply H3.
Qed.

Lemma new_parsed_books spec : books (new_parsed spec).
Proof. by split. Qed.

Lemma add_positionals_books ps p : books p → books (add_positionals ps p).
Proof. by intros []. Qed.

Lemma assignArgSpecs_inv p p' : assignArgSpecs p = Ok p' → ∃ v, p' = set_argValues v p.
Proof.
  unfold assignArgSpecs. generalize (assign_loop (cs_Name (pc_Spec p))). intros f.
  destruct (cs_Args _) as [|arg args], (positionals p) as [|x ps]; try (intros [= <-]; by eexists).
  all: destruct (f _ _ _) as [v|]; [|done]; intros [= <-]; by exists v.
Qed.

(** What any parse that yields a parsed command satisfies, if its steps preserve it. *)
Lemma parse_keeps (P : ParsedCommand → Prop) args spec p a e :
  (∀ p name raw value h, P p → P (recordOption p name raw value h)) →
  (∀ p ps, P p → P (add_positionals ps p)) → (∀ p v, P p → P (set_argValues v p)) →
  P (new_parsed (normalizeCommandSpec spec)) →
  ParseCommandSpec args spec = Some (Some p, a, e) → P p.
Proof.
  intros Hr Hp Hv H0. unfold ParseCommandSpec.
  destruct (args_loop _ _ _ _ _) as [[h q]|] eqn:E; [|done].
  apply (args_loop_keeps P Hr Hp) in E; [|done]. destruct h; try by intros [= <- <- <-].
  destruct (assignArgSpecs q) as [p'|] eqn:Ea; [|done]. intros [= <- <- <-].
  apply assignArgSpecs_inv in Ea as [v ->]. by apply Hv.
Qed.

(** C18: the parser always answers, on every argument list and specification. *)
Theorem ParseCommandSpec_terminates args spec : ParseCommandSpec args spec ≠ None.
Proof.
  unfold ParseCommandSpec.
  destruct (args_loop _ _ _ _ _) as [[[|a|e] p]|] eqn:E; [|done|done|by apply args_loop_total in E].
  by destruct (assignArgSpecs p).
Qed.

(** The parser's three records of the options agree, whatever it was given: the order list is
    the names of the occurrences, the count of a name is its number of occurrences, and the values
    of a name are those its occurrences carried, in order; so [Has] and [Value] answer for the
    occurrences. *)
Theorem parsed_options_consistent args spec p a e : ParseCommandSpec args spec = Some (Some p, a, e) →
  OptionOrder (Some p) = map po_Name (OptionOccurrences (Some p)) ∧
  ∀ name, Count (Some p) name = num_named name (OptionOccurrences (Some p)) ∧
    Values (Some p) name = stored_values name (OptionOccurrences (Some p)) ∧
    (Has (Some p) name = true ↔ name ∈ OptionOrder (Some p)).
Proof.
  intros H. assert (books p) as [H1 H2 H3].
  { eapply parse_keeps; [| | | |exact H].
    - intros. by apply recordOption_books.
    - intros. by apply add_positionals_books.
    - by intros ? ? [].
    - apply new_parsed_books. }
  split; [done|]. intros name. split; [apply H2|]. split; [apply H3|].
  unfold Has, Count, OptionOrder. rewrite H2, H1, Z.ltb_lt. unfold num_named, glen.
  rewrite list_elem_of_In, in_map_iff. split.
  - intros Hl. destruct (List.filter _ _) as [|ev l] eqn:E; [simpl in Hl; lia|].
    exists ev. assert (In ev (List.filter (is_named name) (optionEvents p))) as Hin by (rewrite E; by left).
    apply filter_In in Hin as [Hin Hn]. split; [|done]. by apply bool_decide_eq_true in Hn.
  - intros (ev&Hn&Hin). assert (In ev (List.filter (is_named name) (optionEvents p))) as Hf.
    { apply filter_In. split; [done|]. by apply bool_decide_eq_true. }
    destruct (List.filter _ _); [done|]. simpl. lia.
Qed.

(** ** Reading back a command line *)

(** An option written with the long name [n] (its name, an alias or an unambiguous abbreviation) or
    with the letter [c]. *)
Inductive occurrence :=
| LongFlag (n : gostr) (o : OptionSpec)                    (* --n *)
| LongEquals (n : gostr) (o : OptionSpec) (v : gostr)      (* --n=v *)
| LongSeparate (n : gostr) (o : OptionSpec) (v : gostr)    (* --n v *)
| ShortFlag (c : ascii) (o : OptionSpec)                   (* -c *)
| ShortSeparate (c : ascii) (o : OptionSpec) (v : gostr)   (* -c v *)
| ShortAttached (c : ascii) (o : OptionSpec) (v : gostr).  (* -cv *)

Definition long_arg (n : gostr) : gostr := go "--" ++ n.
Definition short_arg (c : ascii) : gostr := go "-" ++ [c].
Definition equals : ascii := "="%char.

Definition render_occ (oc : occurrence) : list gostr :=
  match oc with
  | LongFlag n _ => [long_arg n]
  | LongEquals n _ v => [long_arg (n ++ equals :: v)]
  | LongSeparate n _ v => [long_arg n; v]
  | ShortFlag c _ => [short_arg c]
  | ShortSeparate c _ v => [short_arg c; v]
  | ShortAttached c _ v => [short_arg c ++ v]
  end.

Definition occ_event (oc : occurrence) : ParsedOptionOccurrence :=
  match oc with
  | LongFlag n o => MkOcc (os_Name o) (long_arg n) [] false
  | LongEquals n o v => MkOcc (os_Name o) (long_arg (n ++ equals :: v)) v true
  | LongSeparate n o v => MkOcc (os_Name o) (long_arg n) v true
  | ShortFlag c o => MkOcc (os_Name o) (short_arg c) [] false
  | ShortSeparate c o v | ShortAttached c o v => MkOcc (os_Name o) (short_arg c) v true
  end.

(** Not one of the automatic options. *)
Definition not_auto (spec : CommandSpec) (o : OptionSpec) : Prop :=
  bool_decide (os_Name o = go "help") && AutoHelp (cs_Parse spec) = false ∧
  bool_decide (os_Name o = go "version") && AutoVersion (cs_Parse spec) = false.

Definition long_ok (spec : CommandSpec) (n : gostr) (o : OptionSpec) : Prop :=
  matchLongOption spec n = Some o ∧ n ≠ [] ∧ not_auto spec o ∧
  (LongOptionValueEquals (cs_Parse spec) = true → equals ∉ n).

Definition short_ok (spec : CommandSpec) (c : ascii) (o : OptionSpec) : Prop :=
  matchShortOption spec (byte_val c) = Some o ∧ is_ascii c ∧ c ≠ "-"%char ∧ not_auto spec o.

(** [-c...] is not taken for a negative number. *)
Definition not_number (spec : CommandSpec) (raw : gostr) : Prop :=
  NegativeNumberPositional (cs_Parse spec) && looksNegativeNumeric raw = false.

Definition occ_ok (spec : CommandSpec) (oc : occurrence) : Prop :=
  match oc with
  | LongFlag n o => long_ok spec n o ∧
      (os_Arity o = OptionNoValue ∨ os_Arity o = OptionOptionalValue ∧ os_OptionalValueEqualsOnly o = true)
  | LongEquals n o v => long_ok spec n o ∧ os_Arity o ≠ OptionNoValue ∧ LongOptionValueEquals (cs_Parse spec) = true
  | LongSeparate n o v => long_ok spec n o ∧ os_Arity o = OptionRequiredValue
  | ShortFlag c o => short_ok spec c o ∧ not_number spec (short_arg c) ∧ os_Arity o ≠ OptionRequiredValue
  | ShortSeparate c o v => short_ok spec c o ∧ not_number spec (short_arg c) ∧ os_Arity o = OptionRequiredValue
  | ShortAttached c o v => short_ok spec c o ∧ not_number spec (short_arg c ++ v) ∧ v ≠ [] ∧
      GroupShortOptions (cs_Parse spec) = true ∧ ShortOptionValueAttached (cs_Parse spec) = true ∧
      (os_Arity o = OptionRequiredValue ∨
       os_Arity o = OptionOptionalValue ∧ os_OptionalValueEqualsOnly o = false)
  end.

Definition record_event (p : ParsedCommand) (ev : ParsedOptionOccurrence) : ParsedCommand :=
  recordOption p (po_Name ev) (po_Raw ev) (po_Value ev) (po_HasValue ev).

(** The loop with fuel enough, and its turns. *)
Definition run (spec : CommandSpec) (b : bool) (args : list gostr) (p : ParsedCommand) : option (handled * ParsedCommand) :=
  args_loop (length args) spec b args p.

Lemma run_after spec (r : handled * ParsedCommand * list gostr) arg args p p' rest : keeps (λ _, True) args r →
  r = (Continue, p', rest) → run spec true (arg :: args) p =
    match r with
    | (Continue, q, rest) => args_loop (length args) spec true rest q
    | (g, q, _) => Some (g, q)
    end → run spec true (arg :: args) p = run spec true rest p'.
Proof.
  intros [_ Hs] -> ->. unfold run. rewrite args_loop_enough; [done|]. by apply suffix_length in Hs.
Qed.

Lemma run_long spec n args p p' rest : n ≠ [] → parseLongOption spec p (long_arg n) args = (Continue, p', rest) →
  run spec true (long_arg n :: args) p = run spec true rest p'.
Proof.
  intros Hn Hp. eapply run_after; [by apply (parseLongOption_keeps (λ _, True))|exact Hp|].
  unfold run. cbn [args_loop length]. assert (classify spec (long_arg n) = LongOption) as ->; [|done].
  unfold classify, long_arg. destruct n as [|x n]; [done|]. by rewrite decide_False.
Qed.

Lemma run_short spec c v args p p' rest : c ≠ "-"%char → not_number spec (short_arg c ++ v) →
  parseShortOptions spec p (short_arg c ++ v) args = (Continue, p', rest) →
  run spec true ((short_arg c ++ v) :: args) p = run spec true rest p'.
Proof.
  intros Hc Hn Hp. eapply run_after; [by apply (parseShortOptions_keeps (λ _, True))|exact Hp|].
  unfold run. cbn [args_loop length].
  assert (classify spec (short_arg c ++ v) = ShortOptions) as ->; [|done].
  unfold classify. unfold not_number in Hn. rewrite decide_False by (intros [=]; congruence).
  assert (has_prefix (go "--") (short_arg c ++ v) = false) as ->.
  { change (bool_decide ("-"%char = "-"%char) && (bool_decide ("-"%char = c) && true) = false).
    rewrite (bool_decide_false ("-"%char = c)) by congruence. apply andb_false_r. }
  assert (has_prefix (go "-") (short_arg c ++ v) = true) as -> by done.
  rewrite (bool_decide_false (short_arg c ++ v = go "-")) by done.
  by destruct (NegativeNumberPositional _), (looksNegativeNumeric _).
Qed.

Lemma run_operands spec ops p : run spec false ops p = Some (Continue, add_positionals ops p).
Proof.
  unfold run. revert p. induction ops as [|x ops IH]; intros p; cbn [args_loop length].
  - unfold add_positionals. rewrite app_nil_r. by destruct p.
  - destruct (StopAtFirstPositional _); [done|]. rewrite IH. unfold add_positionals. simpl.
    by rewrite <- (assoc_L (++)).
Qed.

Lemma run_end spec ops p : run spec true (go "--" :: ops) p = Some (Continue, add_positionals ops p).
Proof. unfold run at 1. cbn [args_loop length]. apply run_operands. Qed.

(** ** Long options *)

Lemma cut_byte_app c s t : c ∉ s → cut_byte c (s ++ c :: t) = (s, t, true).
Proof.
  induction s as [|d s IH]; intros Hc; simpl; [by rewrite decide_True|].
  rewrite decide_False by set_solver. by rewrite IH by set_solver.
Qed.

Lemma cut_byte_none c s : c ∉ s → cut_byte c s = (s, [], false).
Proof.
  induction s as [|d s IH]; intros Hc; simpl; [done|].
  rewrite decide_False by set_solver. by rewrite IH by set_solver.
Qed.

Lemma parseLong_step spec p n o raw args value h r : not_auto spec o → matchLongOption spec n = Some o →
  (if LongOptionValueEquals (cs_Parse spec) then cut_byte equals (trim_prefix (go "--") raw)
   else (trim_prefix (go "--") raw, [], false)) = (n, value, h) →
  applyOptionValue spec p o raw value h args true = (Ok tt, r.1, r.2) →
  parseLongOption spec p raw args = (Continue, r.1, r.2).
Proof.
  intros [H1 H2] Hm Hc Ha. unfold parseLongOption. unfold equals in Hc. rewrite Hc, Hm, H1, H2, Ha. done.
Qed.

Lemma trim_long n : trim_prefix (go "--") (long_arg n) = n.
Proof. unfold trim_prefix, long_arg. by rewrite has_prefix_app. Qed.

Lemma parse_long_flag spec p n o args : occ_ok spec (LongFlag n o) →
  parseLongOption spec p (long_arg n) args = (Continue, record_event p (occ_event (LongFlag n o)), args).
Proof.
  intros [(Hm&Hn&Ha&He) Hk].
  apply (parseLong_step _ _ n o _ _ [] false (record_event p (occ_event (LongFlag n o)), args)); [done|done| |].
  - rewrite trim_long. destruct (LongOptionValueEquals _); [by apply cut_byte_none, He|done].
  - unfold applyOptionValue. destruct Hk as [->|[-> ->]]; [done|]. destruct args; [done|]. done.
Qed.

Lemma parse_long_equals spec p n o v args : occ_ok spec (LongEquals n o v) →
  parseLongOption spec p (long_arg (n ++ equals :: v)) args =
    (Continue, record_event p (occ_event (LongEquals n o v)), args).
Proof.
  intros [(Hm&Hn&Ha&He) [Hk Hq]].
  apply (parseLong_step _ _ n o _ _ v true (record_event p (occ_event (LongEquals n o v)), args)); [done|done| |].
  - rewrite trim_long, Hq. by apply cut_byte_app, He.
  - unfold applyOptionValue. destruct (os_Arity o); [done|done|]. by destruct args.
Qed.

Lemma parse_long_separate spec p n o v args : occ_ok spec (LongSeparate n o v) →
  parseLongOption spec p (long_arg n) (v :: args) = (Continue, record_event p (occ_event (LongSeparate n o v)), args).
Proof.
  intros [(Hm&Hn&Ha&He) Hk].
  apply (parseLong_step _ _ n o _ _ [] false (record_event p (occ_event (LongSeparate n o v)), args)); [done|done| |].
  - rewrite trim_long. destruct (LongOptionValueEquals _); [by apply cut_byte_none, He|done].
  - unfold applyOptionValue. by rewrite Hk.
Qed.

(** ** Short options *)

Lemma trim_short c v : trim_prefix (go "-") (short_arg c ++ v) = c :: v.
Proof. done. Qed.

Lemma parseShort_loop spec p c v args : v = [] ∨ GroupShortOptions (cs_Parse spec) = true →
  parseShortOptions spec p (short_arg c ++ v) args = short_loop spec (c :: v) (range_string (c :: v)) p [] args.
Proof. unfold parseShortOptions. rewrite trim_short. intros H. destruct v; [done|]. by destruct H as [ | -> ]. Qed.

Lemma range_string_cons c v : is_ascii c → range_string (c :: v) = (0%nat, byte_val c) :: range_from 1 0 v.
Proof. intros H. unfold range_string. cbn [range_from]. by rewrite decode_ascii. Qed.

Lemma short_loop_option spec shorts i c o runes p pending args : short_ok spec c o →
  short_loop spec shorts ((i, byte_val c) :: runes) p pending args =
    if decide (os_Arity o = OptionNoValue)
    then short_loop spec shorts runes (recordOption p (os_Name o) (short_arg c) [] false) pending args
    else
      let '(value, hasValue) := attached_value spec o (drop (S i) shorts) in
      if bool_decide (os_Arity o = OptionRequiredValue) && ContinueShortGroupValues (cs_Parse spec) && negb hasValue
      then short_loop spec shorts runes p (pending ++ [(o, short_arg c)]) args
      else
        match applyOptionValue spec p o (short_arg c) value hasValue args false with
        | (Err e, p, args) => (Failed e, p, args)
        | (Ok _, p, args) =>
            if bool_decide (os_Arity o = OptionOptionalValue) && negb hasValue
            then short_loop spec shorts runes p pending args
            else apply_pending spec p pending args
        end.
Proof.
  intros (Hm&Hc&_&[H1 H2]). cbn [short_loop]. rewrite Hm, H1, H2, encode_ascii by done. done.
Qed.

Lemma attached_nil spec o : attached_value spec o [] = ([], false).
Proof. unfold attached_value. by rewrite andb_false_r. Qed.

Lemma parse_short_flag spec p c o args : occ_ok spec (ShortFlag c o) →
  parseShortOptions spec p (short_arg c ++ []) args = (Continue, record_event p (occ_event (ShortFlag c o)), args).
Proof.
  intros (Hok&_&Hk). rewrite parseShort_loop, range_string_cons by (auto; apply Hok).
  rewrite short_loop_option with (o := o) by done. cbn [range_from short_loop apply_pending].
  case_decide as Hn; [done|]. change (drop 1 [c]) with (@nil ascii). rewrite attached_nil.
  rewrite (bool_decide_false (os_Arity o = OptionRequiredValue)) by done. cbn [andb].
  unfold applyOptionValue. destruct (os_Arity o) eqn:E; [done|done|].
  destruct args; simpl; by rewrite ?andb_false_r.
Qed.

Lemma parse_short_separate spec p c o v args : occ_ok spec (ShortSeparate c o v) →
  parseShortOptions spec p (short_arg c ++ []) (v :: args) =
    (Continue, record_event p (occ_event (ShortSeparate c o v)), args).
Proof.
  intros (Hok&_&Hk). rewrite parseShort_loop, range_string_cons by (auto; apply Hok).
  rewrite short_loop_option with (o := o) by done. cbn [range_from].
  rewrite decide_False by congruence. change (drop 1 [c]) with (@nil ascii). rewrite attached_nil.
  rewrite bool_decide_true by done. cbn [andb negb]. destruct (ContinueShortGroupValues _); cbn [andb];
    cbn [short_loop app apply_pending]; unfold applyOptionValue; by rewrite Hk.
Qed.

Lemma attached_some spec o v : v ≠ [] → ShortOptionValueAttached (cs_Parse spec) = true →
  os_Arity o = OptionRequiredValue ∨ os_Arity o = OptionOptionalValue ∧ os_OptionalValueEqualsOnly o = false →
  attached_value spec o v = (v, true).
Proof.
  intros Hv Ha Hk. unfold attached_value. rewrite Ha, bool_decide_false by done. cbn [andb negb].
  destruct Hk as [->|[-> ->]]; [done|]. by rewrite andb_false_r.
Qed.

(** An option with its value attached ends the group, and the pending ones of it take theirs. *)
Lemma short_loop_attached spec shorts i c o v runes p args : short_ok spec c o → drop (S i) shorts = v →
  v ≠ [] → ShortOptionValueAttached (cs_Parse spec) = true →
  os_Arity o = OptionRequiredValue ∨ os_Arity o = OptionOptionalValue ∧ os_OptionalValueEqualsOnly o = false →
  short_loop spec shorts ((i, byte_val c) :: runes) p [] args =
    (Continue, recordOption p (os_Name o) (short_arg c) v true, args).
Proof.
  intros Hok Hd Hv Ha Hk. rewrite short_loop_option with (o := o) by done.
  rewrite decide_False by (by destruct Hk as [->|[-> ?]]). rewrite Hd, attached_some by done.
  rewrite andb_false_r. unfold applyOptionValue. destruct Hk as [->|[-> ?]]; [done|]. by destruct args.
Qed.

Lemma parse_short_attached spec p c o v args : occ_ok spec (ShortAttached c o v) →
  parseShortOptions spec p (short_arg c ++ v) args =
    (Continue, record_event p (occ_event (ShortAttached c o v)), args).
Proof.
  intros (Hok&_&Hv&Hg&Ha&Hk). rewrite parseShort_loop, range_string_cons by (auto; apply Hok).
  by rewrite (short_loop_attached _ _ _ _ o v).
Qed.

Lemma run_occ spec p oc args : occ_ok spec oc →
  run spec true (render_occ oc ++ args) p = run spec true args (record_event p (occ_event oc)).
Proof.
  intros Hok. destruct oc as [n o|n o v|n o v|c o|c o v|c o v]; cbn [render_occ app].
  - apply run_long; [apply Hok|by apply parse_long_flag].
  - apply run_long; [by destruct n|by apply parse_long_equals].
  - apply run_long; [apply Hok|by apply parse_long_separate].
  - rewrite <- (app_nil_r (short_arg c)). apply run_short; [apply Hok|apply Hok|by apply parse_short_flag].
  - rewrite <- (app_nil_r (short_arg c)). apply run_short; [apply Hok|apply Hok|by apply parse_short_separate].
  - apply run_short; [apply Hok|apply Hok|by apply parse_short_attached].
Qed.

(** ** Items: options and operands, in any order *)

Inductive item := Opt (oc : occurrence) | Bare (x : gostr).

Definition render_item (it : item) : list gostr := match it with Opt oc => render_occ oc | Bare x => [x] end.

(** An operand may stand before the end of the options when it does not look like one. *)
Definition item_ok (spec : CommandSpec) (it : item) : Prop :=
  match it with
  | Opt oc => occ_ok spec oc
  | Bare x => classify spec x = Operand ∧ StopAtFirstPositional (cs_Parse spec) = false
  end.

Definition item_events (its : list item) : list ParsedOptionOccurrence :=
  flat_map (fun it => match it with Opt oc => [occ_event oc] | Bare _ => [] end) its.
Definition item_operands (its : list item) : list gostr :=
  flat_map (fun it => match it with Opt _ => [] | Bare x => [x] end) its.

Lemma run_bare spec x args p : item_ok spec (Bare x) →
  run spec true (x :: args) p = run spec true args (add_positionals [x] p).
Proof. intros [Hc Hs]. unfold run. cbn [args_loop length]. by rewrite Hc, Hs. Qed.

Lemma run_items spec its ops p : Forall (item_ok spec) its →
  ∃ p', run spec true (flat_map render_item its ++ go "--" :: ops) p = Some (Continue, p') ∧
    optionEvents p' = optionEvents p ++ item_events its ∧
    positionals p' = positionals p ++ item_operands its ++ ops ∧
    argValues p' = argValues p ∧ pc_Spec p' = pc_Spec p.
Proof.
  intros H. revert p. induction H as [|it its Hit _ IH]; intros p.
  - exists (add_positionals ops p). split; [apply run_end|]. by rewrite app_nil_r.
  - cbn [flat_map]. rewrite <- (assoc_L (++)). destruct it as [oc|x]; cbn [render_item].
    + rewrite run_occ by done. destruct (IH (record_event p (occ_event oc))) as (p'&->&He&Hp&Ha&Hs).
      exists p'. split; [done|]. rewrite He, Hp, Ha, Hs. split_and!; try done.
      change (item_events (Opt oc :: its)) with (occ_event oc :: item_events its).
      unfold record_event, recordOption. cbn [optionEvents]. rewrite <- (assoc_L (++)). by destruct (occ_event oc).
    + cbn [app]. rewrite run_bare by done. destruct (IH (add_positionals [x] p)) as (p'&->&He&Hp&Ha&Hs).
      exists p'. split; [done|]. rewrite He, Hp, Ha, Hs. cbn. by rewrite <- !(assoc_L (++)).
Qed.

(** The outcome of a parse that reaches the end of the arguments. *)
Definition finish (p : ParsedCommand) : option ParsedCommand * gostr * option ExitError :=
  match assignArgSpecs p with Ok p => (Some p, [], None) | Err e => (None, [], Some e) end.

(** C17: a command line written out from options (in long or short form, abbreviated if unambiguous,
    their values attached, after an equals sign or in the next argument) and operands, in any order,
    is read back: the parsed command has exactly these occurrences with these values, and exactly
    these operands, those after a double dash unchanged whatever they look like.  What the caller gets is
    [finish] of it: the command with its operands assigned, or, where there are too few or too many of
    them, the error that says so. *)
Theorem ParseCommandSpec_roundtrip spec its ops : Forall (item_ok (normalizeCommandSpec spec)) its →
  ∃ p, ParseCommandSpec (flat_map render_item its ++ go "--" :: ops) spec = Some (finish p) ∧
    OptionOccurrences (Some p) = item_events its ∧ Positionals (Some p) = item_operands its ++ ops ∧
    pc_Spec p = normalizeCommandSpec spec.
Proof.
  intros H. destruct (run_items _ its ops (new_parsed (normalizeCommandSpec spec)) H) as (p&Hr&He&Hp&_&Hs).
  exists p. split; [|done]. unfold ParseCommandSpec. unfold run in Hr. rewrite Hr. unfold finish.
  by destruct (assignArgSpecs p).
Qed.

(** ** Groups *)

(** Letters of options without a value. *)
Definition flag_ok (spec : CommandSpec) (f : ascii * OptionSpec) : Prop :=
  short_ok spec f.1 f.2 ∧ os_Arity f.2 = OptionNoValue ∧ not_number spec (short_arg f.1).

Definition record_flag (p : ParsedCommand) (f : ascii * OptionSpec) : ParsedCommand :=
  recordOption p (os_Name f.2) (short_arg f.1) [] false.

Lemma short_loop_flags spec shorts fs tl i p pending args : Forall (flag_ok spec) fs →
  short_loop spec shorts (range_from i 0 (map fst fs ++ tl)) p pending args =
  short_loop spec shorts (range_from (i + length fs) 0 tl) (foldl record_flag p fs) pending args.
Proof.
  intros H. revert i p. induction H as [|[c o] fs [Hok [Hn _]] _ IH]; intros i p; [by rewrite Nat.add_0_r|].
  assert (is_ascii c) as Hc by apply Hok.
  cbn [map app range_from fst]. rewrite decode_ascii by done. cbn [Nat.pred].
  rewrite short_loop_option with (o := o) by done. cbn [snd] in Hn. rewrite decide_True by done.
  rewrite IH. cbn [foldl length]. by rewrite Nat.add_succ_comm.
Qed.

Lemma run_flags spec fs args p : Forall (flag_ok spec) fs →
  run spec true (map (λ f, short_arg f.1) fs ++ args) p = run spec true args (foldl record_flag p fs).
Proof.
  intros H. revert p. induction H as [|[c o] fs (Hok&Ha&Hn) _ IH]; intros p; [done|].
  cbn [map app foldl]. rewrite <- IH.
  apply (run_occ spec p (ShortFlag c o) (map (λ f, short_arg f.1) fs ++ args)). split; [done|]. split; [done|].
  cbn [snd] in Ha. by rewrite Ha.
Qed.

Lemma run_group spec f fs args p : GroupShortOptions (cs_Parse spec) = true → Forall (flag_ok spec) (f :: fs) →
  not_number spec (short_arg f.1 ++ map fst fs) →
  run spec true ((short_arg f.1 ++ map fst fs) :: args) p = run spec true args (foldl record_flag p (f :: fs)).
Proof.
  intros Hg Hf Hn. inversion Hf as [|? ? Hok Hfs]; subst. apply run_short; [apply Hok|done|].
  rewrite parseShort_loop by auto. unfold range_string.
  pose proof (short_loop_flags spec (f.1 :: map fst fs) (f :: fs) [] 0 p [] args Hf) as E.
  rewrite app_nil_r in E. cbn [map] in E. rewrite E. done.
Qed.

Lemma run_group_value spec f fs c o v args p : GroupShortOptions (cs_Parse spec) = true →
  Forall (flag_ok spec) (f :: fs) → not_number spec (short_arg f.1 ++ map fst fs ++ c :: v) →
  occ_ok spec (ShortAttached c o v) →
  run spec true ((short_arg f.1 ++ map fst fs ++ c :: v) :: args) p =
  run spec true args (recordOption (foldl record_flag p (f :: fs)) (os_Name o) (short_arg c) v true).
Proof.
  intros Hg Hf Hn (Hok&_&Hv&_&Ha&Hk). inversion Hf as [|? ? Hokf Hfs]; subst.
  apply run_short; [apply Hokf|done|]. rewrite parseShort_loop by auto. unfold range_string.
  pose proof (short_loop_flags spec (f.1 :: map fst fs ++ c :: v) (f :: fs) (c :: v) 0 p [] args Hf) as E.
  cbn [map app] in E. rewrite E. cbn [range_from]. rewrite decode_ascii by apply Hok.
  apply (short_loop_attached _ _ _ _ o v); [done| |done..].
  cbn [length Nat.add]. change (S (S (length fs))) with (S (S (length fs))). cbn [drop].
  rewrite <- (length_map fst fs), <- Nat.add_1_r, <- drop_drop, drop_app_length. done.
Qed.

Lemma parse_run spec args args' :
  (∀ p, run (normalizeCommandSpec spec) true args p = run (normalizeCommandSpec spec) true args' p) →
  ParseCommandSpec args spec = ParseCommandSpec args' spec.
Proof. intros H. unfold ParseCommandSpec. specialize (H (new_parsed (normalizeCommandSpec spec))). unfold run in H. by rewrite H. Qed.

(** A group of option letters means what the letters mean one by one: [-abc] is [-a -b -c], and
    [-abcVALUE] is [-a -b -c VALUE] when [c] takes a value. *)
Theorem short_group_equiv spec f fs args : let nspec := normalizeCommandSpec spec in
  GroupShortOptions (cs_Parse nspec) = true → Forall (flag_ok nspec) (f :: fs) →
  (not_number nspec (short_arg f.1 ++ map fst fs) →
   ParseCommandSpec ((short_arg f.1 ++ map fst fs) :: args) spec =
   ParseCommandSpec (map (λ f, short_arg f.1) (f :: fs) ++ args) spec) ∧
  (∀ c o v, occ_ok nspec (ShortAttached c o v) → os_Arity o = OptionRequiredValue →
   not_number nspec (short_arg c) → not_number nspec (short_arg f.1 ++ map fst fs ++ c :: v) →
   ParseCommandSpec ((short_arg f.1 ++ map fst fs ++ c :: v) :: args) spec =
   ParseCommandSpec (map (λ f, short_arg f.1) (f :: fs) ++ [short_arg c; v] ++ args) spec).
Proof.
  intros nspec Hg Hf. split.
  - intros Hn. apply parse_run. intros p. rewrite run_group, run_flags by done. done.
  - intros c o v Hoc Ho Hc Hn. apply parse_run. intros p. rewrite run_flags by done.
    rewrite (run_group_value _ _ _ _ o) by done. symmetry.
    apply (run_occ nspec _ (ShortSeparate c o v)). split; [apply Hoc|]. by split.
Qed.

(** ** Long names *)

Definition match_kind (spec : CommandSpec) (name : gostr) (o : OptionSpec) : name_match :=
  match_names (InferLongOptions (cs_Parse spec)) name (os_Long o :: os_Aliases o).
Definition exact_for (spec : CommandSpec) (name : gostr) (o : OptionSpec) : bool :=
  match match_kind spec name o with Exact => true | _ => false end.
Definition prefix_for (spec : CommandSpec) (name : gostr) (o : OptionSpec) : bool :=
  match match_kind spec name o with Prefix => true | _ => false end.

Lemma match_options_spec spec name opts cands :
  match_options (InferLongOptions (cs_Parse spec)) name opts cands =
  match List.filter (exact_for spec name) opts with
  | o :: _ => Some o
  | [] => match cands ++ List.filter (prefix_for spec name) opts with [o] => Some o | _ => None end
  end.
Proof.
  revert cands. induction opts as [|o opts IH]; intros cands; cbn [match_options List.filter].
  { by rewrite app_nil_r. }
  unfold exact_for at 1, prefix_for at 1. fold (match_kind spec name o). destruct (match_kind spec name o).
  - done.
  - rewrite IH. by rewrite <- (assoc_L (++)).
  - apply IH.
Qed.

Lemma match_names_sound infer name names : match match_names infer name names with
  | Exact => name ∈ names ∧ name ≠ []
  | Prefix => infer = true ∧ ∃ n, n ∈ names ∧ n ≠ [] ∧ name `prefix_of` n
  | NoMatch => name ∈ names → name = []
  end.
Proof.
  induction names as [|n names IH]; cbn [match_names]; [by intros ?%elem_of_nil|].
  case_decide as Hn; [|case_decide as He; [|destruct (infer && has_prefix name n) eqn:Ep]].
  - subst n. destruct (match_names infer name names).
    + destruct IH. split; [by right|done].
    + destruct IH as [? (n&?&?&?)]. split; [done|]. exists n. split; [by right|done].
    + intros [->|H]%elem_of_cons; auto.
  - subst n. split; [by left|done].
  - apply andb_true_iff in Ep as [-> Ep%has_prefix_spec]. split; [done|]. exists n. split; [by left|done].
  - destruct (match_names infer name names).
    + destruct IH. split; [by right|done].
    + destruct IH as [? (n'&?&?&?)]. split; [done|]. exists n'. split; [by right|done].
    + intros [->|H]%elem_of_cons; [done|auto].
Qed.

(** A long name selects the first option that it matches exactly, or else the only option that
    it abbreviates, or none; what it selects has the name, or with abbreviations allowed a name
    that extends it. *)
Theorem matchLongOption_exact spec name :
  matchLongOption spec name =
    match List.filter (exact_for spec name) (cs_Options spec) with
    | o :: _ => Some o
    | [] => match List.filter (prefix_for spec name) (cs_Options spec) with [o] => Some o | _ => None end
    end ∧
  ∀ o, matchLongOption spec name = Some o → o ∈ cs_Options spec ∧
    ∃ n, n ∈ os_Long o :: os_Aliases o ∧ n ≠ [] ∧
      (n = name ∨ InferLongOptions (cs_Parse spec) = true ∧ name `prefix_of` n).
Proof.
  unfold matchLongOption. rewrite match_options_spec, app_nil_l. split; [done|]. intros o Ho.
  assert (∃ k, In o (List.filter k (cs_Options spec)) ∧ (k o = true → match_kind spec name o ≠ NoMatch))
    as (k&Hin&Hk).
  { destruct (List.filter (exact_for _ _) _) as [|o1 l1] eqn:E1.
    - destruct (List.filter (prefix_for _ _) _) as [|o2 [|? ?]] eqn:E2; try done. injection Ho as ->.
      exists (prefix_for spec name). rewrite E2. split; [by left|]. unfold prefix_for. by destruct (match_kind _ _ _).
    - injection Ho as ->. exists (exact_for spec name). rewrite E1. split; [by left|].
      unfold exact_for. by destruct (match_kind _ _ _). }
  apply filter_In in Hin as [Hin Hkind]. apply Hk in Hkind. split; [by apply list_elem_of_In|].
  pose proof (match_names_sound (InferLongOptions (cs_Parse spec)) name (os_Long o :: os_Aliases o)) as Hs.
  fold (match_kind spec name o) in Hs. destruct (match_kind spec name o); [| |congruence].
  - destruct Hs. exists name. auto.
  - destruct Hs as (Hi&n&?&?&?). exists n. auto.
Qed.

(** An option that takes its value from the next argument drops the rest of its group, when values
    are not attached and groups do not go on past it. *)
Lemma group_rest_dropped spec p c o tl v args : short_ok spec c o → os_Arity o = OptionRequiredValue →
  ShortOptionValueAttached (cs_Parse spec) = false → ContinueShortGroupValues (cs_Parse spec) = false →
  GroupShortOptions (cs_Parse spec) = true →
  parseShortOptions spec p (short_arg c ++ tl) (v :: args) =
    (Continue, recordOption p (os_Name o) (short_arg c) v true, args).
Proof.
  intros Hok Ha Hat Hct Hg. rewrite parseShort_loop, range_string_cons by (auto; apply Hok).
  rewrite short_loop_option with (o := o) by done. rewrite decide_False by congruence.
  unfold attached_value. rewrite Hat, Hct. rewrite andb_false_r. unfold applyOptionValue. by rewrite Ha.
Qed.

(** ** Operands *)

(** Only the last argument of a specification may repeat. *)
Definition last_repeats (args : list ArgSpec) : Prop :=
  ∀ i a, args !! i = Some a → as_Repeatable a = true → S i = length args.

(** What the argument [a], the [i]th, gets of the operands [ps]. *)
Definition arg_value (i : nat) (a : ArgSpec) (ps : list gostr) : option (list gostr) :=
  if as_Repeatable a then Some (if decide (drop i ps = []) then as_Default a else drop i ps)
  else match ps !! i with
       | Some x => Some [x]
       | None => if decide (as_Default a = []) then None else Some (as_Default a)
       end.

(** Every required argument gets an operand (or a default, when it repeats) and none is left over. *)
Definition operands_fit (args : list ArgSpec) (ps : list gostr) : Prop :=
  (∀ i a, args !! i = Some a → as_Required a = true →
     (i < length ps)%nat ∨ (as_Repeatable a = true ∧ as_Default a ≠ [])) ∧
  (Forall (λ a, as_Repeatable a = false) args → (length ps ≤ length args)%nat).

Definition assign_result (args : list ArgSpec) (ps : list gostr) (m m' : gmap gostr (list gostr)) : Prop :=
  (∀ i a, args !! i = Some a → m' !! as_Name a = match arg_value i a ps with Some v => Some v | None => m !! as_Name a end) ∧
  (∀ n, n ∉ map as_Name args → m' !! n = m !! n).

Lemma last_repeats_tail a args : last_repeats (a :: args) → last_repeats args.
Proof. intros H i b Hi Hb. specialize (H (S i) b Hi Hb). simpl in H. lia. Qed.

Lemma fit_none args : operands_fit args [] ↔
  ∀ i a, args !! i = Some a → as_Required a = true → as_Repeatable a = true ∧ as_Default a ≠ [].
Proof.
  split.
  - intros [H _] i a Hi Hr. destruct (H i a Hi Hr); [simpl in *; lia|done].
  - intros H. split; [by right; eapply H|simpl; lia].
Qed.

(** The turn for an argument that does not repeat. *)
Lemma fit_cons a args ps : as_Repeatable a = false →
  operands_fit (a :: args) ps ↔ (ps = [] → as_Required a = false) ∧ operands_fit args (tail ps) ∧
    (args = [] → tail ps = []).
Proof.
  intros Ha. split.
  - intros [H1 H2]. split; [|split; [split|]].
    + intros ->. destruct (as_Required a) eqn:E; [|done]. destruct (H1 0%nat a eq_refl E) as [?|[? _]]; [simpl in *; lia|congruence].
    + intros i b Hi Hr. destruct (H1 (S i) b Hi Hr) as [Hl|?]; [left|by right]. destruct ps; simpl in *; lia.
    + intros Hf. assert (length ps ≤ length (a :: args))%nat as Hl by (apply H2; by constructor).
      destruct ps; simpl in *; lia.
    + intros ->. assert (length ps ≤ 1)%nat as Hl by (apply H2; by repeat constructor).
      destruct ps as [|x [|? ?]]; simpl in *; done || lia.
  - intros (H1&[H2 H3]&H4). split.
    + intros [|i] b Hi Hr; [|destruct (H2 i b Hi Hr) as [Hl|?]; [left; destruct ps; simpl in *; lia|by right]].
      injection Hi as <-. left. destruct ps; [by rewrite H1 in Hr|simpl; lia].
    + intros Hf. inversion Hf as [|? ? _ Hf']; subst. apply H3 in Hf'. destruct ps; simpl in *; lia.
Qed.

Definition next_assign (name : gostr) (args : list ArgSpec) (ps : list gostr) (values : gmap gostr (list gostr))
  : result ExitError (gmap gostr (list gostr)) :=
  match args, ps with
  | [], extra :: _ => Err (commandUsageError name (ExtraOperand extra))
  | _, _ => assign_loop name args ps values
  end.

Definition assign_spec (name : gostr) (args : list ArgSpec) (ps : list gostr) (m : gmap gostr (list gostr))
    (r : result ExitError (gmap gostr (list gostr))) : Prop :=
  match r with
  | Ok m' => operands_fit args ps ∧ assign_result args ps m m'
  | Err _ => ¬ operands_fit args ps
  end.

Lemma assign_result_cons a args ps v m m' : NoDup (map as_Name (a :: args)) →
  arg_value 0 a ps = v → (∀ i b, args !! i = Some b → arg_value (S i) b ps = arg_value i b (tail ps)) →
  assign_result args (tail ps) (match v with Some v => <[as_Name a := v]> m | None => m end) m' →
  assign_result (a :: args) ps m m'.
Proof.
  intros Hd Hv Htl [H1 H2]. apply NoDup_cons_1_1 in Hd as Hn. split.
  - intros [|i] b Hi.
    + injection Hi as <-. rewrite Hv, H2 by done. destruct v; [by rewrite lookup_insert_eq|done].
    + simpl in Hi. rewrite (Htl i b Hi), (H1 i b Hi). destruct (arg_value i b (tail ps)); [done|].
      assert (as_Name a ≠ as_Name b) as Hne.
      { intros E. apply Hn. rewrite E. apply list_elem_of_fmap_2, list_elem_of_lookup. by exists i. }
      destruct v; [by rewrite lookup_insert_ne|done].
  - intros n Hnn. simpl in Hnn. apply not_elem_of_cons in Hnn as [? ?]. rewrite H2 by done.
    destruct v; [by rewrite lookup_insert_ne|done].
Qed.

Lemma arg_value_tail i a ps : arg_value (S i) a ps = arg_value i a (tail ps).
Proof. unfold arg_value. destruct ps; simpl; [by rewrite drop_nil|done]. Qed.

Lemma next_assign_spec name args ps m :
  (args ≠ [] → assign_spec name args ps m (assign_loop name args ps m)) →
  match next_assign name args ps m with
  | Ok m' => operands_fit args ps ∧ (args = [] → ps = []) ∧ assign_result args ps m m'
  | Err _ => ¬ (operands_fit args ps ∧ (args = [] → ps = []))
  end.
Proof.
  intros H. destruct args as [|a args].
  - destruct ps as [|x ps]; simpl.
    + split; [|split; [done|]]; [|by split]. split; [by intros i b ?|simpl; lia].
    + intros [_ Hx]. by specialize (Hx eq_refl).
  - specialize (H ltac:(done)). unfold next_assign. unfold assign_spec in H.
    replace (match ps with [] | _ => assign_loop name (a :: args) ps m end) with (assign_loop name (a :: args) ps m)
      by (by destruct ps).
    destruct (assign_loop name (a :: args) ps m); [destruct H; by split_and!|by intros [? _]].
Qed.

Lemma assign_loop_cons name a args ps m : assign_loop name (a :: args) ps m =
  if as_Repeatable a then
    let vs := if decide (ps = []) then as_Default a else ps in
    if as_Required a && bool_decide (vs = []) then Err (commandUsageError name MissingOperand)
    else next_assign name args [] (<[as_Name a := vs]> m)
  else
    match ps with
    | [] =>
        if as_Required a then Err (commandUsageError name MissingOperand)
        else next_assign name args [] (if decide (as_Default a = []) then m else <[as_Name a := as_Default a]> m)
    | p :: ps => next_assign name args ps (<[as_Name a := [p]]> m)
    end.
Proof. done. Qed.

Lemma assign_loop_repeat name a ps m : as_Repeatable a = true →
  assign_spec name [a] ps m (assign_loop name [a] ps m).
Proof.
  intros Ha. rewrite assign_loop_cons, Ha. cbv zeta. set (vs := if decide (ps = []) then _ else ps).
  assert (operands_fit [a] ps ↔ (as_Required a = true → vs ≠ [])) as Hfit.
  { unfold vs. split.
    - intros [H _] Hr. destruct (H 0%nat a eq_refl Hr) as [Hl|[_ Hd]]; case_decide as Hp; try done. rewrite Hp in Hl. simpl in Hl. lia.
    - intros H. split; [|intros Hf; inversion Hf; congruence]. intros [|i] b Hi Hr; [|by destruct i].
      injection Hi as <-. specialize (H Hr). case_decide; [by right|]. left. destruct ps; [done|simpl; lia]. }
  destruct (as_Required a && bool_decide (vs = [])) eqn:E; simpl.
  - apply andb_true_iff in E as [Hr Hv%bool_decide_eq_true]. rewrite Hfit. auto.
  - split.
    + rewrite Hfit. intros Hr Hv. by rewrite Hr, bool_decide_true in E.
    + split.
      * intros [|i] b Hi; [|by destruct i]. injection Hi as <-. rewrite lookup_insert_eq.
        unfold arg_value. by rewrite Ha.
      * intros n Hn. rewrite lookup_insert_ne; [done|]. simpl in Hn. set_solver.
Qed.

Lemma assign_loop_spec name args ps m : args ≠ [] → last_repeats args → NoDup (map as_Name args) →
  assign_spec name args ps m (assign_loop name args ps m).
Proof.
  revert ps m. induction args as [|a args IH]; intros ps m Hne Hlast Hd; [done|].
  destruct (as_Repeatable a) eqn:Ha.
  { assert (args = []) as -> by (specialize (Hlast 0%nat a eq_refl Ha); destruct args; [done|simpl in Hlast; lia]).
    by apply assign_loop_repeat. }
  assert (∀ ps' v, tail ps = ps' → arg_value 0 a ps = v → (ps = [] → as_Required a = false) →
    assign_spec name (a :: args) ps m
      (next_assign name args ps' (match v with Some v => <[as_Name a := v]> m | None => m end))) as Hnext.
  { intros ps' v Hps Hv Hr. set (m1 := match v with Some v => _ | None => m end).
    pose proof (next_assign_spec name args ps' m1) as Hn.
    assert (args ≠ [] → assign_spec name args ps' m1 (assign_loop name args ps' m1)) as HIH.
    { intros Hn'. apply IH; [done|by eapply last_repeats_tail|by apply NoDup_cons_1_2 in Hd]. }
    specialize (Hn HIH). unfold assign_spec. destruct (next_assign name args ps' m1) as [m'|].
    - destruct Hn as (H1&H2&H3). rewrite fit_cons, Hps by done. split; [by split_and!|].
      apply (assign_result_cons a args ps v); [done|done| |by rewrite Hps].
      intros i b _. apply arg_value_tail.
    - rewrite fit_cons, Hps by done. naive_solver. }
  rewrite assign_loop_cons, Ha. destruct ps as [|p ps].
  - destruct (as_Required a) eqn:Hr.
    + simpl. rewrite fit_cons by done. intros [H _]. specialize (H eq_refl). congruence.
    + specialize (Hnext [] (arg_value 0 a []) eq_refl eq_refl ltac:(done)).
      unfold arg_value in Hnext at 1. rewrite Ha in Hnext. cbn in Hnext. by case_decide.
  - specialize (Hnext ps (Some [p]) eq_refl). apply Hnext; [|done]. unfold arg_value. by rewrite Ha.
Qed.

(** Operands are handed out as the specification says: parsing succeeds exactly when every
    required argument gets one (or has a default, if it repeats) and none is left over, and then
    the [i]th argument gets the [i]th operand, a repeating last argument all the remaining ones, and
    an argument without operand its default. *)
Theorem assignArgSpecs_exact p : let args := cs_Args (pc_Spec p) in
  args ≠ [] → last_repeats args → NoDup (map as_Name args) → argValues p = ∅ →
  match assignArgSpecs p with
  | Ok p' => operands_fit args (positionals p) ∧
      ∀ i a, args !! i = Some a → argValues p' !! as_Name a = arg_value i a (positionals p)
  | Err e => ¬ operands_fit args (positionals p) ∧ ee_Code e = 1
  end.
Proof.
  intros args Hne Hlast Hd Hm. pose proof (assign_loop_spec (cs_Name (pc_Spec p)) args (positionals p) ∅ Hne Hlast Hd) as H.
  assert (assignArgSpecs p = (fun v => set_argValues v p) <$> assign_loop (cs_Name (pc_Spec p)) args (positionals p) ∅) as ->.
  { unfold assignArgSpecs. fold args. rewrite Hm. by destruct args. }
  destruct (assign_loop _ _ _ _) as [m'|e] eqn:E; simpl in *.
  - destruct H as [H1 [H2 _]]. split; [done|]. intros i a Hi. rewrite (H2 i a Hi). by destruct (arg_value i a _).
  - split; [done|]. clear H. revert E. generalize (∅ : gmap gostr (list gostr)). generalize (positionals p).
    clear. induction args as [|a args IH]; intros ps m; [done|]. rewrite assign_loop_cons.
    assert (∀ ps m, next_assign (cs_Name (pc_Spec p)) args ps m = Err e → ee_Code e = 1) as Hn.
    { intros ps' m'. unfold next_assign. destruct args, ps'; try apply IH. by intros [= <-]. }
    destruct (as_Repeatable a); cbv zeta; [destruct (_ && _); [by intros [= <-]|apply Hn]|].
    destruct ps; [destruct (as_Required a); [by intros [= <-]|apply Hn]|apply Hn].
Qed.

(** ** Examples *)

Definition opt_ (name : string) (short : ascii) (aliases : list gostr) (arity : OptionArity) : OptionSpec :=
  MkOption (go name) (byte_val short) [] (go name) aliases [] [] [] arity false false [] false.
Definition arg_ (name : string) (required repeatable : bool) (dflt : list gostr) : ArgSpec :=
  MkArg (go name) [] [] required repeatable dflt.

Definition demo_spec : CommandSpec :=
  MkSpec (go "head") [] [] []
    [opt_ "lines" "n" [] OptionRequiredValue; opt_ "quiet" "q" [go "silent"] OptionNoValue;
     opt_ "verbose" "v" [] OptionNoValue]
    [arg_ "file" false true [go "-"]]
    (MkConfig true true false true true false false true true).

Definition lines_opt : OptionSpec := opt_ "lines" "n" [] OptionRequiredValue.
Definition quiet_opt : OptionSpec := opt_ "quiet" "q" [go "silent"] OptionNoValue.

(** [head --lines=5 a -q -- -b] *)
Definition demo_items : list item :=
  [Opt (LongEquals (go "lines") lines_opt (go "5")); Bare (go "a"); Opt (ShortFlag "q" quiet_opt);
   Opt (ShortAttached "n" lines_opt (go "7"))].

Lemma demo_items_ok : Forall (item_ok (normalizeCommandSpec demo_spec)) demo_items.
Proof.
  assert (short_ok (normalizeCommandSpec demo_spec) "q" quiet_opt ∧
          short_ok (normalizeCommandSpec demo_spec) "n" lines_opt) as [Hq Hn]
    by (split; split; [vm_compute; reflexivity|done|vm_compute; reflexivity|done]).
  repeat constructor; try done; try (vm_compute; reflexivity).
  intros _ Hin. rewrite list_elem_of_In in Hin. vm_compute in Hin. intuition congruence.
Qed.

Lemma ParseCommandSpec_roundtrip_witness :
  flat_map render_item demo_items ++ go "--" :: [go "-b"] =
    [go "--lines=5"; go "a"; go "-q"; go "-n7"; go "--"; go "-b"] ∧
  ∃ p, ParseCommandSpec [go "--lines=5"; go "a"; go "-q"; go "-n7"; go "--"; go "-b"] demo_spec = Some (finish p) ∧
    Positionals (Some p) = [go "a"; go "-b"].
Proof.
  split; [reflexivity|].
  destruct (ParseCommandSpec_roundtrip demo_spec demo_items [go "-b"] demo_items_ok) as (p&H1&_&H2&_).
  exists p. split; [exact H1|exact H2].
Defined.

Lemma parsed_options_consistent_witness : ∃ p,
  ParseCommandSpec [go "-qv"; go "-n"; go "3"] demo_spec = Some (Some p, [], None) ∧
  OptionOrder (Some p) = map po_Name (OptionOccurrences (Some p)) ∧ Value (Some p) (go "lines") = go "3".
Proof.
  destruct (ParseCommandSpec [go "-qv"; go "-n"; go "3"] demo_spec) as [[[[p|] a] e]|] eqn:E; [|vm_compute in E; discriminate..].
  assert (a = [] ∧ e = None ∧ Value (Some p) (go "lines") = go "3") as (->&->&Hv).
  { vm_compute in E. injection E as <- <- <-. split; [reflexivity|]. split; [reflexivity|]. vm_compute. reflexivity. }
  exists p. split; [reflexivity|]. split; [|exact Hv].
  exact (proj1 (parsed_options_consistent _ demo_spec p [] None E)).
Defined.

Lemma short_group_equiv_witness :
  ParseCommandSpec [go "-qv"; go "f"] demo_spec = ParseCommandSpec [go "-q"; go "-v"; go "f"] demo_spec.
Proof.
  refine (proj1 (short_group_equiv demo_spec ("q"%char, quiet_opt) [("v"%char, opt_ "verbose" "v" [] OptionNoValue)]
    [go "f"] _ _) _); [vm_compute; reflexivity| |vm_compute; reflexivity].
  repeat constructor; try done; vm_compute; reflexivity.
Defined.

(** Two operands, one of them required. *)
Definition demo_parsed : ParsedCommand :=
  MkParsed (MkSpec (go "cp") [] [] [] [] [arg_ "source" true false []; arg_ "dest" false false [go "."]]
    (MkConfig false false false false false false false false false)) ∅ ∅ [] [] ∅ [go "x"].

Lemma assignArgSpecs_exact_witness : ∃ p', assignArgSpecs demo_parsed = Ok p' ∧
  argValues p' !! go "source" = Some [go "x"] ∧ argValues p' !! go "dest" = Some [go "."].
Proof.
  pose proof (assignArgSpecs_exact demo_parsed) as H. cbv zeta in H.
  assert (last_repeats (cs_Args (pc_Spec demo_parsed))) as Hl by (intros [|[|i]] a [= <-]; discriminate).
  assert (NoDup (map as_Name (cs_Args (pc_Spec demo_parsed)))) as Hd.
  { apply (bool_decide_unpack _). vm_compute. exact I. }
  specialize (H ltac:(discriminate) Hl Hd eq_refl).
  destruct (assignArgSpecs demo_parsed) as [p'|e] eqn:E; [|discriminate E].
  exists p'. split; [reflexivity|]. destruct H as [_ H].
  split; [exact (H 0%nat _ eq_refl)|exact (H 1%nat _ eq_refl)].
Defined.

(** An exact alias is not recognized when an earlier name of its option extends it and another
    option extends it too. *)
Definition shadow_spec : CommandSpec :=
  MkSpec (go "cmd") [] [] []
    [opt_ "sleep-interval" "s" [go "sleep"] OptionNoValue; opt_ "sleepy" "y" [] OptionNoValue] []
    (MkConfig true true false true true false false false false).

Lemma exact_alias_unrecognized : matchLongOption shadow_spec (go "sleep") = None ∧
  go "sleep" ∈ os_Aliases (opt_ "sleep-interval" "s" [go "sleep"] OptionNoValue).
Proof. split; [vm_compute; reflexivity|]. left. Qed.
