(* ===== verification/FileSystem.v ===== *)
(** The filesystem contract of [fs/fs.go] as an interface: what wrappers such as [MountableFS]
    call, and the laws they rely on. *)
From S2P Require Import Prelude GoPath FsTypes MemoryFS.

(** [fs.FileInfo], with [OwnershipFromFileInfo] as a field. *)
Record FileInfo := MkFileInfo {
  fi_Name : gostr;
  fi_Size : Z;
  fi_Mode : N;
  fi_ModTime : Z;
  fi_Ownership : option (N * N);
}.

Definition info_IsDir (info : FileInfo) : bool := mode_IsDir (fi_Mode info).

(** [errors.As] for a path error and for a link error. *)
Fixpoint as_path_error (err : error) : option (gostr * gostr * error) :=
  match err with
  | EPath op path e => Some (op, path, e)
  | ELink _ _ _ e => as_path_error e
  | _ => None
  end.
Fixpoint as_link_error (err : error) : option (gostr * gostr * gostr * error) :=
  match err with
  | ELink op old new e => Some (op, old, new, e)
  | EPath _ _ e => as_link_error e
  | _ => None
  end.

(** A call on the world [W] that holds all filesystems. *)
Definition act (W A : Type) : Type := W → result error A * W.

#[export] Instance act_ret {W} : MRet (act W) := fun A a w => (Ok a, w).
#[export] Instance act_bind {W} : MBind (act W) := fun A B f c w =>
  let '(r, w) := c w in match r with Ok a => f a w | Err e => (Err e, w) end.

Definition fail {W A} (e : error) : act W A := fun w => (Err e, w).
Definition attempt_ {W A} (c : act W A) : act W (result error A) := fun w => let '(r, w) := c w in (Ok r, w).
(** [defer close()] around [c]; the error of [close] is dropped. *)
Definition deferring {W A} (close : act W unit) (c : act W A) : act W A := fun w =>
  let '(r, w) := c w in (r, (close w).2).

(** [fs.DirEntry]: its [Info] may look at the filesystem again. *)
Record DirEntry (W : Type) := MkEntry {
  de_Name : gostr;
  de_Type : N;
  de_Info : act W FileInfo;
}.
Arguments MkEntry {W} de_Name de_Type de_Info.
Arguments de_Name {W} d.
Arguments de_Type {W} d.
Arguments de_Info {W} d.

(** [F] are references to filesystems in the world, [H] references to open files.  The last two
    operations are optional capabilities, which a filesystem may not have. *)
Class FileSystem (W F H : Type) := {
  op_Open : F → gostr → act W H;
  op_OpenFile : F → gostr → N → N → act W H;
  op_Close : H → act W unit;
  op_Copy : H → H → act W unit;   (* [io.Copy(writer, reader)] *)
  op_Stat : F → gostr → act W FileInfo;
  op_Lstat : F → gostr → act W FileInfo;
  op_ReadDir : F → gostr → act W (list (DirEntry W));
  op_Readlink : F → gostr → act W gostr;
  op_Realpath : F → gostr → act W gostr;
  op_Symlink : F → gostr → gostr → act W unit;
  op_Link : F → gostr → gostr → act W unit;
  op_Chown : F → gostr → N → N → bool → act W unit;
  op_Chmod : F → gostr → N → act W unit;
  op_Chtimes : F → gostr → Z → Z → act W unit;
  op_MkdirAll : F → gostr → N → act W unit;
  op_Remove : F → gostr → bool → act W unit;
  op_Rename : F → gostr → gostr → act W unit;
  op_Getwd : F → W → gostr;
  op_Chdir : F → gostr → act W unit;
  op_Lchtimes : F → option (gostr → Z → Z → act W unit);
  op_Mkfifo : F → option (gostr → N → act W unit);
}.

(** [mkfifoViaOptional] of [fs/fifo.go]. *)
Definition mkfifoViaOptional `{FileSystem W F H} (f : F) (name : gostr) (perm : N) : act W unit :=
  match op_Mkfifo f with
  | Some mkfifo => mkfifo name perm
  | None => fail (EPath (go "mkfifo") (Clean name) (ESent ErrPermission))
  end.

(** [joinChildPath] of [fs/clone.go]. *)
Definition joinChildPath (parent child : gostr) : gostr :=
  if decide (parent = root_path) then slash :: child else parent ++ slash :: child.

Lemma act_bind_Ok {W A B} (c : act W A) (k : A → act W B) w b w' :
  (c ≫= k) w = (Ok b, w') → ∃ a w1, c w = (Ok a, w1) ∧ k a w1 = (Ok b, w').
Proof. unfold mbind, act_bind. destruct (c w) as [[a|e] w1]; [|done]. intros Hk. by exists a, w1. Qed.

(** ** What an action may touch *)

Section touches.
Context {W V : Type} (same : W → W → Prop) `{!PreOrder same}.

(** [c] changes the world only as [same] allows. *)
Definition touches {A} (c : act W A) : Prop := ∀ w, same w (c w).2.

Lemma touches_ret {A} (a : A) : touches (mret a).
Proof. intros w. by simpl. Qed.

Lemma touches_fail {A} e : touches (@fail W A e).
Proof. intros w. by simpl. Qed.

Lemma touches_bind {A B} (c : act W A) (k : A → act W B) :
  touches c → (∀ a, touches (k a)) → touches (c ≫= k).
Proof.
  intros Hc Hk w. specialize (Hc w). unfold mbind, act_bind. destruct (c w) as [[a|e] w'] eqn:E; simpl in *; [|done].
  specialize (Hk a w'). by etransitivity.
Qed.

Lemma touches_attempt {A} (c : act W A) : touches c → touches (attempt_ c).
Proof. intros Hc w. specialize (Hc w). unfold attempt_. by destruct (c w). Qed.

Lemma touches_deferring {A} (close : act W unit) (c : act W A) :
  touches close → touches c → touches (deferring close c).
Proof.
  intros Hd Hc w. specialize (Hc w). unfold deferring. destruct (c w) as [r w']. simpl in *.
  etransitivity; [done|]. apply Hd.
Qed.
End touches.

(** ** The law of the interface: a call touches its filesystem only *)

(** The calls on the filesystem [f]. *)
Inductive fs_call `{FileSystem W F H} (f : F) : ∀ A, act W A → Prop :=
| call_Open n : fs_call f H (op_Open f n)
| call_OpenFile n flag perm : fs_call f H (op_OpenFile f n flag perm)
| call_Stat n : fs_call f FileInfo (op_Stat f n)
| call_Lstat n : fs_call f FileInfo (op_Lstat f n)
| call_ReadDir n : fs_call f (list (DirEntry W)) (op_ReadDir f n)
| call_Readlink n : fs_call f gostr (op_Readlink f n)
| call_Realpath n : fs_call f gostr (op_Realpath f n)
| call_Symlink t n : fs_call f unit (op_Symlink f t n)
| call_Link o n : fs_call f unit (op_Link f o n)
| call_Chown n u g follow : fs_call f unit (op_Chown f n u g follow)
| call_Chmod n mode : fs_call f unit (op_Chmod f n mode)
| call_Chtimes n a m : fs_call f unit (op_Chtimes f n a m)
| call_MkdirAll n perm : fs_call f unit (op_MkdirAll f n perm)
| call_Remove n recursive : fs_call f unit (op_Remove f n recursive)
| call_Rename o n : fs_call f unit (op_Rename f o n)
| call_Chdir n : fs_call f unit (op_Chdir f n)
| call_Lchtimes k n a m : op_Lchtimes f = Some k → fs_call f unit (k n a m)
| call_Mkfifo k n perm : op_Mkfifo f = Some k → fs_call f unit (k n perm).

Class FileSystemLaws (W F H V : Type) `{FileSystem W F H} := {
  contents : F → W → V;   (* what a filesystem holds *)
  owner : H → F;          (* where an open file is *)
  law_call : ∀ f A (c : act W A) w g, fs_call f A c → g ≠ f → contents g (c w).2 = contents g w;
  law_Open : ∀ f n w h w', op_Open f n w = (Ok h, w') → owner h = f;
  law_OpenFile : ∀ f n flag perm w h w', op_OpenFile f n flag perm w = (Ok h, w') → owner h = f;
  law_Close : ∀ h w g, g ≠ owner h → contents g (op_Close h w).2 = contents g w;
  law_Copy : ∀ h k w g, g ≠ owner h → g ≠ owner k → contents g (op_Copy h k w).2 = contents g w;
  law_Info : ∀ f n w es w', op_ReadDir f n w = (Ok es, w') →
    Forall (fun e => ∀ w g, g ≠ f → contents g (de_Info e w).2 = contents g w) es;
}.

Section same_but.
Context `{FileSystemLaws W F H V}.

(** The filesystems outside [fs] hold what they held. *)
Definition same_but (fs : list F) (w w' : W) : Prop := ∀ g, g ∉ fs → contents g w' = contents g w.

#[export] Instance same_but_preorder fs : PreOrder (same_but fs).
Proof.
  split; [done|]. intros w1 w2 w3 H12 H23 g Hg. rewrite H23 by done. by apply H12.
Qed.

Lemma touches_call fs f A (c : act W A) : f ∈ fs → fs_call f A c → touches (same_but fs) c.
Proof. intros Hf Hc w g Hg. apply (law_call f A c); [done|]. by intros ->. Qed.

(** A bind whose second part may rely on what the first returned. *)
Lemma touches_bind_Ok {A B} fs (c : act W A) (k : A → act W B) : touches (same_but fs) c →
  (∀ a w w', c w = (Ok a, w') → touches (same_but fs) (k a)) → touches (same_but fs) (c ≫= k).
Proof.
  intros Hc Hk w. specialize (Hc w). unfold mbind, act_bind. destruct (c w) as [[a|e] w'] eqn:E; [|done].
  etransitivity; [exact Hc|]. by apply (Hk a w w').
Qed.
End same_but.

(** * The read side of the filesystem contract of [fs/fs.go]: what a copy-on-write layer or a clone
    asks of the filesystem below it, and [MemoryFS] as such a filesystem. *)

(** What [ReadDir] returns of an entry: its name, the type bits of its mode and its [Info]. *)
Record dir_entry := MkDirEntry { en_Name : gostr; en_Type : N; en_Info : result error FileInfo }.

(** [L] is the state of the filesystem, [H] its open files.  The calls are functions of the state:
    reading loads lazy content, which later reads cannot tell. *)
Class ReadFS (L H : Type) := {
  rd_Stat : L → gostr → result error FileInfo;
  rd_Lstat : L → gostr → result error FileInfo;
  rd_ReadDir : L → gostr → result error (list dir_entry);
  rd_Readlink : L → gostr → result error gostr;
  rd_OpenFile : L → gostr → N → N → result error H;
  rd_ReadAll : L → H → gostr * option error;   (* [io.ReadAll]: the bytes before the error, if any *)
}.

(** [Open] and [io.ReadAll], as the providers of lazy files do. *)
Definition read_file `{ReadFS L H} (lower : L) (name : gostr) : result error gostr :=
  match rd_OpenFile lower name O_RDONLY 0 with
  | Err err => Err err
  | Ok h => match rd_ReadAll lower h with (data, None) => Ok data | (_, Some err) => Err err end
  end.

Definition info_symlink (info : FileInfo) : bool := has_bits (fi_Mode info) ModeSymlink.

(** [FileMode.IsRegular]. *)
Definition info_regular (info : FileInfo) : bool := (N.land (fi_Mode info) ModeType =? 0)%N.

(** ** The in-memory filesystem *)

Definition to_FileInfo (i : fileInfo) : FileInfo :=
  MkFileInfo (fi_name i) (fi_size i) (fi_mode i) (fi_modTime i) (Some (fi_uid i, fi_gid i)).

Section memory.
Context (provider : nat → result error gostr) (now : time).

Definition run {A} (c : M A) (m : MemoryFS) : result error A := (c m).1.

(** An open file of a snapshot of the state: the handle and the state it was opened in. *)
Definition memory_ReadAll (h : openFile * MemoryFS) : gostr * option error :=
  match h.1 with
  | MemFile f =>
      match materializeNode provider (f_node f) h.2 with
      | (Err err, _) => ([], Some (EPath (go "read") (f_path f) err))
      | (Ok _, m) => (default [] (n_data <$> heap m !! f_node f), None)
      end
  | FifoFile _ _ _ => ([], Some (EForeign 0))
  end.

Definition memory_ReadFS : ReadFS MemoryFS (openFile * MemoryFS) := {|
  rd_Stat := fun m n => to_FileInfo <$> run (Stat provider n) m;
  rd_Lstat := fun m n => to_FileInfo <$> run (Lstat provider n) m;
  rd_ReadDir := fun m n =>
    match run (ReadDir n) m, run (Realpath n) m with
    | Ok es, Ok abs => Ok (map (fun e => MkDirEntry e.1 (mode_Type e.2) (to_FileInfo <$> run (Lstat provider (joinClean abs e.1)) m)) es)
    | Err err, _ | _, Err err => Err err
    end;
  rd_Readlink := fun m n => run (Readlink n) m;
  rd_OpenFile := fun m n flag perm =>
    match OpenFile provider now n flag perm m with (Ok f, m) => Ok (f, m) | (Err err, _) => Err err end;
  rd_ReadAll := fun _ h => memory_ReadAll h;
|}.
End memory.
