(* ===== verification/Mountable.v ===== *)
(** The multi-mount filesystem of [fs/mountable.go] and the recursive copy of
    [fs/copy_internal.go], over any filesystems with the interface of [FileSystem]. *)
From S2P Require Import Prelude GoPath FsTypes FileSystem.

(** ** Errors and paths of a mounted filesystem *)

Definition prefixMountPath (mountPoint pathValue : gostr) : gostr :=
  let pathValue := Clean pathValue in
  if decide (pathValue = root_path) then mountPoint
  else Resolve mountPoint (trim_prefix root_path pathValue).

Definition namespaceError (err : error) (mountPoint : gostr) : error :=
  if decide (mountPoint = []) then err
  else match as_path_error err with
       | Some (op, path, e) => EPath op (prefixMountPath mountPoint path) e
       | None =>
           match as_link_error err with
           | Some (op, old, new, e) =>
               ELink op (prefixMountPath mountPoint old) (prefixMountPath mountPoint new) e
           | None => err
           end
       end.

Definition namespaced {W A} (mountPoint : gostr) (c : act W A) : act W A := fun w =>
  let '(r, w) := c w in
  (match r with Ok a => Ok a | Err e => Err (namespaceError e mountPoint) end, w).

(** ** State *)

Record mountedEntry (F : Type) := MkMounted { me_mountPoint : gostr; me_fs : F }.
Arguments MkMounted {F} me_mountPoint me_fs.
Arguments me_mountPoint {F} m.
Arguments me_fs {F} m.

Record MountableFS (F : Type) := MkMountable {
  mf_base : F;
  mf_cwd : gostr;
  mf_mounts : gmap gostr (mountedEntry F);
}.
Arguments MkMountable {F} mf_base mf_cwd mf_mounts.
Arguments mf_base {F} m.
Arguments mf_cwd {F} m.
Arguments mf_mounts {F} m.

Definition NewMountable {F} (base : F) : MountableFS F := MkMountable base root_path ∅.

(** ** The mount table *)

Inductive mount_error :=
| NilFilesystem | NotAbsolute | DotSegments | AtRoot | InsideMount | ContainsMount | NotMounted | MountBusy.

Definition within (mountPoint pathValue : gostr) : bool := has_prefix (mountPoint ++ root_path) pathValue.

Definition pathWithinMount (pathValue mountPoint : gostr) : bool :=
  bool_decide (pathValue = mountPoint) || within mountPoint pathValue.

Definition validateMountPath (mountPoint : gostr) : option mount_error :=
  let mountPoint := TrimSpace mountPoint in
  if decide (mountPoint = []) then Some NotAbsolute
  else if negb (has_prefix root_path mountPoint) then Some NotAbsolute
  else if existsb (fun s => bool_decide (s = dot) || bool_decide (s = dotdot)) (split_byte slash mountPoint)
  then Some DotSegments
  else if decide (Clean mountPoint = root_path) then Some AtRoot
  else None.

(** The first conflict in the order that the range over the map takes. *)
Definition validateMount_in {F} (entries : list (gostr * mountedEntry F)) (mountPoint : gostr) : option mount_error :=
  match List.find (fun e => negb (bool_decide (e.1 = mountPoint)) && (within e.1 mountPoint || within mountPoint e.1)) entries with
  | Some (existing, _) => Some (if within existing mountPoint then InsideMount else ContainsMount)
  | None => None
  end.

Definition entries_of {F} (m : MountableFS F) : list (gostr * mountedEntry F) := map_to_list (mf_mounts m).

Definition validateMountLocked {F} (m : MountableFS F) (mountPoint : gostr) : option mount_error :=
  validateMount_in (entries_of m) mountPoint.

Definition set_mounts {F} (v : gmap gostr (mountedEntry F)) (m : MountableFS F) : MountableFS F :=
  MkMountable (mf_base m) (mf_cwd m) v.

(** [fsys] is [None] for the nil interface. *)
Definition Mount {F} (mountPoint : gostr) (fsys : option F) (m : MountableFS F) : result mount_error (MountableFS F) :=
  match fsys with
  | None => Err NilFilesystem
  | Some fsys =>
      match validateMountPath mountPoint with
      | Some e => Err e
      | None =>
          let normalized := Clean (TrimSpace mountPoint) in
          if decide (normalized = root_path) then Err AtRoot
          else match validateMountLocked m normalized with
               | Some e => Err e
               | None => Ok (set_mounts (<[normalized := MkMounted normalized fsys]> (mf_mounts m)) m)
               end
      end
  end.

Definition Unmount {F} (mountPoint : gostr) (m : MountableFS F) : result mount_error (MountableFS F) :=
  let normalized := Clean (TrimSpace mountPoint) in
  match mf_mounts m !! normalized with
  | None => Err NotMounted
  | Some entry =>
      if pathWithinMount (mf_cwd m) (me_mountPoint entry) then Err MountBusy
      else Ok (set_mounts (delete normalized (mf_mounts m)) m)
  end.

(** The mount table sorted by mount point. *)
Definition Mounts {F} (m : MountableFS F) : list (mountedEntry F) :=
  omap (fun p => mf_mounts m !! p) (sort_strings (entries_of m).*1).

Definition IsMountPoint {F} (m : MountableFS F) (pathValue : gostr) : bool :=
  bool_decide (is_Some (mf_mounts m !! Clean pathValue)).

(** ** Routing *)

Definition mnt_resolve {F} (m : MountableFS F) (name : gostr) : gostr := Resolve (mf_cwd m) name.

(** The range over the mounts of [routeLocked], in the order [entries]. *)
Definition route_in {F} (entries : list (gostr * mountedEntry F)) (abs : gostr) : option (mountedEntry F * gostr) :=
  match List.find (fun e => within e.1 abs) entries with
  | Some (mountPoint, entry) => Some (entry, trim_prefix mountPoint abs)
  | None => None
  end.

(** The entry that [abs] is routed to, if any, and the path in the filesystem. *)
Definition routeLocked {F} (m : MountableFS F) (abs : gostr) : option (mountedEntry F) * gostr :=
  let abs := Clean abs in
  match mf_mounts m !! abs with
  | Some entry => (Some entry, root_path)
  | None =>
      match route_in (entries_of m) abs with
      | Some (entry, rel) => (Some entry, rel)
      | None => (None, abs)
      end
  end.

Definition isSyntheticParentLocked {F} (m : MountableFS F) (abs : gostr) : bool :=
  match mf_mounts m !! abs with
  | Some _ => false
  | None => existsb (fun e => bool_decide (abs = root_path) || within abs e.1) (entries_of m)
  end.

Definition pathContainsMount {F} (m : MountableFS F) (abs : gostr) : bool :=
  if decide (abs = root_path) then negb (bool_decide (mf_mounts m = ∅))
  else existsb (fun e => bool_decide (e.1 = abs) || within abs e.1) (entries_of m).

(** The names directly below [abs] that lead to mounts. *)
Definition child_of (prefix mountPoint : gostr) : gostr :=
  let remainder := if decide (prefix = []) then trim_prefix root_path mountPoint
                   else trim_prefix (prefix ++ root_path) mountPoint in
  default [] (split_byte slash remainder !! 0%nat).

Definition childMountNames {F} (m : MountableFS F) (abs : gostr) : list gostr :=
  let abs := Clean abs in
  let prefix := if decide (abs = root_path) then [] else abs in
  let names := flat_map (fun e : gostr * mountedEntry F =>
      if negb (bool_decide (prefix = [])) && negb (within prefix e.1) then []
      else let child := child_of prefix e.1 in if decide (child = []) then [] else [child]) (entries_of m) in
  sort_strings (elements (list_to_set names : gset gostr)).

Definition syntheticDirInfo (abs : gostr) : FileInfo :=
  let name := if decide (abs = root_path) then root_path else path_Base abs in
  MkFileInfo name 0 (N.lor ModeDir 493) 0 (Some (1000%N, 1000%N)).   (* 0o755; [DefaultOwnership] *)

Definition remapFileInfoName (name : gostr) (info : FileInfo) : FileInfo :=
  MkFileInfo name (fi_Size info) (fi_Mode info) (fi_ModTime info) (fi_Ownership info).


(** ** Views: a filesystem, or one behind its mount point ([namespacedFS]) *)

Inductive fs_view (F : Type) := Plain (f : F) | Namespaced (mountPoint : gostr) (inner : F).
Arguments Plain {F} f.
Arguments Namespaced {F} mountPoint inner.

Definition view_of {F} (entry : mountedEntry F) : fs_view F := Namespaced (me_mountPoint entry) (me_fs entry).

Definition routedView {F} (m : MountableFS F) (abs : gostr) : fs_view F * gostr :=
  match routeLocked m abs with
  | (Some entry, rel) => (view_of entry, rel)
  | (None, rel) => (Plain (mf_base m), rel)
  end.

Section mountable.
Context {W F H : Type} `{FileSystem W F H}.
#[local] Abbreviation view := (fs_view F).
#[local] Abbreviation mountable := (MountableFS F).

(** A method that only renames errors. *)
Definition on_view {A} (v : view) (c : F → act W A) : act W A :=
  match v with Plain f => c f | Namespaced mp f => namespaced mp (c f) end.

Definition v_Open (v : view) (name : gostr) : act W H := on_view v (fun f => op_Open f name).
Definition v_OpenFile (v : view) (name : gostr) (flag perm : N) : act W H :=
  on_view v (fun f => op_OpenFile f name flag perm).
Definition v_Stat (v : view) (name : gostr) : act W FileInfo := on_view v (fun f => op_Stat f name).
Definition v_Lstat (v : view) (name : gostr) : act W FileInfo := on_view v (fun f => op_Lstat f name).
Definition v_ReadDir (v : view) (name : gostr) : act W (list (DirEntry W)) := on_view v (fun f => op_ReadDir f name).
Definition v_Readlink (v : view) (name : gostr) : act W gostr := on_view v (fun f => op_Readlink f name).
Definition v_Realpath (v : view) (name : gostr) : act W gostr :=
  match v with
  | Plain f => op_Realpath f name
  | Namespaced mp f => resolved ← namespaced mp (op_Realpath f name); mret (prefixMountPath mp resolved)
  end.
Definition v_Symlink (v : view) (target linkName : gostr) : act W unit := on_view v (fun f => op_Symlink f target linkName).
Definition v_Link (v : view) (oldName newName : gostr) : act W unit := on_view v (fun f => op_Link f oldName newName).
Definition v_Chown (v : view) (name : gostr) (uid gid : N) (follow : bool) : act W unit :=
  on_view v (fun f => op_Chown f name uid gid follow).
Definition v_Chmod (v : view) (name : gostr) (mode : N) : act W unit := on_view v (fun f => op_Chmod f name mode).
Definition v_Chtimes (v : view) (name : gostr) (atime mtime : Z) : act W unit :=
  on_view v (fun f => op_Chtimes f name atime mtime).
(** [Lchtimes], with [Chtimes] for a filesystem without it. *)
Definition v_Lchtimes (v : view) (name : gostr) (atime mtime : Z) : act W unit :=
  on_view v (fun f => match op_Lchtimes f with
                      | None => op_Chtimes f name atime mtime
                      | Some lchtimes => lchtimes name atime mtime
                      end).
Definition v_MkdirAll (v : view) (name : gostr) (perm : N) : act W unit := on_view v (fun f => op_MkdirAll f name perm).
Definition v_Mkfifo (v : view) (name : gostr) (perm : N) : act W unit := on_view v (fun f => mkfifoViaOptional f name perm).
Definition v_Remove (v : view) (name : gostr) (recursive : bool) : act W unit :=
  on_view v (fun f => op_Remove f name recursive).
Definition v_Rename (v : view) (oldName newName : gostr) : act W unit := on_view v (fun f => op_Rename f oldName newName).
Definition v_Getwd (v : view) (w : W) : gostr :=
  match v with Plain f => op_Getwd f w | Namespaced mp f => prefixMountPath mp (op_Getwd f w) end.
Definition v_Chdir (v : view) (name : gostr) : act W unit := on_view v (fun f => op_Chdir f name).

(** ** Recursive copy *)

Definition copy_owner (dst : view) (absDst : gostr) (info : FileInfo) (follow : bool) : act W unit :=
  match fi_Ownership info with
  | Some (uid, gid) => v_Chown dst absDst uid gid follow
  | None => mret tt
  end.

Definition copyFileInto (src : view) (srcName : gostr) (dst : view) (dstName : gostr) (info : FileInfo) : act W unit :=
  reader ← v_Open src srcName;
  deferring (op_Close reader)
    (writer ← v_OpenFile dst dstName (N.lor O_CREATE (N.lor O_WRONLY O_TRUNC)) (mode_Perm (fi_Mode info));
     deferring (op_Close writer)
       (op_Copy writer reader;;
        v_Chmod dst dstName (mode_Perm (fi_Mode info));;
        copy_owner dst dstName info true)).

Definition is_regular (mode : N) : bool := (mode_Type mode =? 0)%N.

(** [fuel] bounds the depth of the tree; [ErrFuel] is no error of the source. *)
Fixpoint copyPathIntoWithInfo (fuel : nat) (src : view) (srcName : gostr) (info : option FileInfo) (dst : view)
    (dstName : gostr) {struct fuel} : act W unit :=
  match fuel with
  | O => fail (ESent ErrFuel)
  | S fuel =>
      info ← match info with Some info => mret info | None => v_Lstat src srcName end;
      let absDst := Clean dstName in
      let perm := mode_Perm (fi_Mode info) in
      if has_bits (fi_Mode info) ModeSymlink then
        target ← v_Readlink src srcName;
        v_Symlink dst target absDst;;
        copy_owner dst absDst info false
      else if info_IsDir info then
        v_MkdirAll dst absDst perm;;
        v_Chmod dst absDst perm;;
        copy_owner dst absDst info false;;
        entries ← v_ReadDir src srcName;
        foldr (fun entry rest =>
            childInfo ← (if has_bits (de_Type entry) ModeSymlink then mret None
                         else r ← attempt_ (de_Info entry);
                              mret (match r with Ok info => Some info | Err _ => None end));
            copyPathIntoWithInfo fuel src (joinChildPath (Clean srcName) (de_Name entry)) childInfo dst
              (joinChildPath absDst (de_Name entry));;
            rest) (mret tt) entries
      else if has_bits (fi_Mode info) ModeNamedPipe then
        v_Mkfifo dst absDst perm;;
        copy_owner dst absDst info false
      else if negb (is_regular (fi_Mode info)) then
        fail (EPath (go "copy") srcName (ESent ErrInvalid))
      else copyFileInto src srcName dst absDst info
  end.

Definition copyPathInto (fuel : nat) (src : view) (srcName : gostr) (dst : view) (dstName : gostr) : act W unit :=
  copyPathIntoWithInfo fuel src srcName None dst dstName.

(** ** The operations of [MountableFS] *)

Definition Mountable_OpenFile (m : mountable) (name : gostr) (flag perm : N) : act W H :=
  let '(v, rel) := routedView m (mnt_resolve m name) in v_OpenFile v rel flag perm.

Definition Mountable_Open (m : mountable) (name : gostr) : act W H := Mountable_OpenFile m name O_RDONLY 0.

(** A directory that exists only because mounts are below it. *)
Definition or_synthetic {A} (c : act W A) (synthetic : A) : act W A :=
  r ← attempt_ c;
  match r with
  | Ok a => mret a
  | Err err => if errors_Is err ErrNotExist then mret synthetic else fail err
  end.

(** [Stat] and [Lstat] alike. *)
Definition stat_like (call : F → gostr → act W FileInfo) (m : mountable) (name : gostr) : act W FileInfo :=
  let abs := mnt_resolve m name in
  let synthetic := isSyntheticParentLocked m abs in
  match routeLocked m abs with
  | (Some entry, rel) =>
      if decide (rel = root_path) then
        r ← attempt_ (call (me_fs entry) root_path);
        match r with
        | Ok info => mret (remapFileInfoName (path_Base abs) info)
        | Err _ => mret (syntheticDirInfo abs)
        end
      else namespaced (me_mountPoint entry) (call (me_fs entry) rel)
  | (None, _) =>
      if synthetic then or_synthetic (call (mf_base m) abs) (syntheticDirInfo abs)
      else call (mf_base m) abs
  end.

Definition Mountable_Stat : mountable → gostr → act W FileInfo := stat_like op_Stat.
Definition Mountable_Lstat : mountable → gostr → act W FileInfo := stat_like op_Lstat.

(** The entry map of [ReadDir], from the entries of the base and the names of the mounts. *)
Definition merge_entries (abs : gostr) (base : list (DirEntry W)) (children : list gostr) : gmap gostr (DirEntry W) :=
  let from_base := foldl (fun es e => <[de_Name e := e]> es) ∅ base in
  foldl (fun es child =>
      match es !! child with
      | Some _ => es
      | None =>
          let info := syntheticDirInfo (joinChildPath abs child) in
          <[child := MkEntry (fi_Name info) (mode_Type (fi_Mode info)) (mret info)]> es
      end) from_base children.

Definition sorted_entries (es : gmap gostr (DirEntry W)) : list (DirEntry W) :=
  omap (fun name => es !! name) (sort_strings (map_to_list es).*1).

Definition Mountable_ReadDir (m : mountable) (name : gostr) : act W (list (DirEntry W)) :=
  let abs := mnt_resolve m name in
  let synthetic := isSyntheticParentLocked m abs in
  match routeLocked m abs with
  | (Some entry, rel) => v_ReadDir (view_of entry) rel
  | (None, _) =>
      if negb synthetic then op_ReadDir (mf_base m) abs
      else
        base ← or_synthetic (op_ReadDir (mf_base m) abs) [];
        mret (sorted_entries (merge_entries abs base (childMountNames m abs)))
  end.

Definition Mountable_Readlink (m : mountable) (name : gostr) : act W gostr :=
  let abs := mnt_resolve m name in
  match routeLocked m abs with
  | (Some entry, rel) => v_Readlink (view_of entry) rel
  | (None, _) => op_Readlink (mf_base m) abs
  end.

Definition Mountable_Realpath (m : mountable) (name : gostr) : act W gostr :=
  let abs := mnt_resolve m name in
  let synthetic := isSyntheticParentLocked m abs in
  match routeLocked m abs with
  | (Some entry, rel) =>
      if decide (rel = root_path) then mret (me_mountPoint entry) else v_Realpath (view_of entry) rel
  | (None, _) =>
      if synthetic then or_synthetic (op_Realpath (mf_base m) abs) abs else op_Realpath (mf_base m) abs
  end.

Definition Mountable_Symlink (m : mountable) (target linkName : gostr) : act W unit :=
  let '(v, rel) := routedView m (mnt_resolve m linkName) in v_Symlink v target rel.

(** Both paths are in the same filesystem of the table. *)
Definition same_mount (a b : option (mountedEntry F)) : bool :=
  match a, b with
  | None, None => true
  | Some a, Some b => bool_decide (me_mountPoint a = me_mountPoint b)
  | _, _ => false
  end.

Definition view_at (m : mountable) (entry : option (mountedEntry F)) : view :=
  match entry with Some entry => view_of entry | None => Plain (mf_base m) end.

Definition Mountable_Link (m : mountable) (oldName newName : gostr) : act W unit :=
  let oldAbs := mnt_resolve m oldName in
  let newAbs := mnt_resolve m newName in
  let '(oldEntry, oldRel) := routeLocked m oldAbs in
  let '(newEntry, newRel) := routeLocked m newAbs in
  if negb (same_mount oldEntry newEntry) then fail (ELink (go "link") oldAbs newAbs (ESent EXDEV))
  else v_Link (view_at m oldEntry) oldRel newRel.

Definition Mountable_Chown (m : mountable) (name : gostr) (uid gid : N) (follow : bool) : act W unit :=
  let '(v, rel) := routedView m (mnt_resolve m name) in v_Chown v rel uid gid follow.
Definition Mountable_Chmod (m : mountable) (name : gostr) (mode : N) : act W unit :=
  let '(v, rel) := routedView m (mnt_resolve m name) in v_Chmod v rel mode.
Definition Mountable_Chtimes (m : mountable) (name : gostr) (atime mtime : Z) : act W unit :=
  let '(v, rel) := routedView m (mnt_resolve m name) in v_Chtimes v rel atime mtime.
Definition Mountable_Lchtimes (m : mountable) (name : gostr) (atime mtime : Z) : act W unit :=
  let '(v, rel) := routedView m (mnt_resolve m name) in v_Lchtimes v rel atime mtime.

(** What [MkdirAll] and [Chdir] require of a synthetic directory that the base may have. *)
Definition check_synthetic_dir (op : gostr) (m : mountable) (abs : gostr) : act W unit :=
  r ← attempt_ (op_Stat (mf_base m) abs);
  match r with
  | Ok info => if info_IsDir info then mret tt else fail (EPath op abs (ESent ErrInvalid))
  | Err err => if errors_Is err ErrNotExist then mret tt else fail err
  end.

Definition Mountable_MkdirAll (m : mountable) (name : gostr) (perm : N) : act W unit :=
  let abs := mnt_resolve m name in
  if isSyntheticParentLocked m abs then check_synthetic_dir (go "mkdir") m abs
  else
    let '(entry, rel) := routeLocked m abs in
    match entry with
    | Some _ => if decide (rel = root_path) then mret tt else v_MkdirAll (view_at m entry) rel perm
    | None => v_MkdirAll (view_at m entry) rel perm
    end.

Definition Mountable_Mkfifo (m : mountable) (name : gostr) (perm : N) : act W unit :=
  let abs := mnt_resolve m name in
  let exists_ := fail (EPath (go "mkfifo") abs (ESent ErrExist)) in
  (if isSyntheticParentLocked m abs then
     r ← attempt_ (Mountable_Stat m abs);
     match r with
     | Ok _ => exists_
     | Err err => if errors_Is err ErrNotExist then mret tt else fail err
     end
   else mret tt);;
  match routeLocked m abs with
  | (Some entry, rel) => if decide (rel = root_path) then exists_ else v_Mkfifo (view_of entry) rel perm
  | (None, _) => mkfifoViaOptional (mf_base m) abs perm
  end.

Definition Mountable_Remove (m : mountable) (name : gostr) (recursive : bool) : act W unit :=
  let abs := mnt_resolve m name in
  if pathContainsMount m abs then fail (EPath (go "remove") abs (ESent EBUSY))
  else let '(v, rel) := routedView m abs in v_Remove v rel recursive.

(** Copy and remove, with the copy undone when either fails and nothing was there before. *)
Definition move_across (fuel : nat) (src : view) (oldRel : gostr) (dst : view) (newRel : gostr) : act W unit :=
  st ← attempt_ (v_Lstat dst newRel);
  let dstExisted := is_ok st in
  let undo := if dstExisted then mret tt else (_ ← attempt_ (v_Remove dst newRel true); mret tt) in
  r ← attempt_ (copyPathInto fuel src oldRel dst newRel);
  match r with
  | Err err => undo;; fail err
  | Ok _ =>
      r ← attempt_ (v_Remove src oldRel true);
      match r with
      | Err err => undo;; fail err
      | Ok _ => mret tt
      end
  end.

Definition Mountable_Rename (fuel : nat) (m : mountable) (oldName newName : gostr) : act W unit :=
  let oldAbs := mnt_resolve m oldName in
  let newAbs := mnt_resolve m newName in
  if pathContainsMount m oldAbs then fail (EPath (go "rename") oldAbs (ESent EBUSY))
  else if pathContainsMount m newAbs then fail (EPath (go "rename") newAbs (ESent EBUSY))
  else
    let '(oldEntry, oldRel) := routeLocked m oldAbs in
    let '(newEntry, newRel) := routeLocked m newAbs in
    if same_mount oldEntry newEntry then v_Rename (view_at m oldEntry) oldRel newRel
    else move_across fuel (view_at m oldEntry) oldRel (view_at m newEntry) newRel.

Definition set_mf_cwd (cwd : gostr) (m : mountable) : mountable := MkMountable (mf_base m) cwd (mf_mounts m).

Definition Mountable_Chdir (m : mountable) (name : gostr) : act W mountable :=
  let abs := mnt_resolve m name in
  let is_dir (info : FileInfo) : act W unit :=
    if info_IsDir info then mret tt else fail (EPath (go "chdir") abs (ESent ErrInvalid)) in
  (match routeLocked m abs with
   | (Some entry, rel) => v_Stat (view_of entry) rel ≫= is_dir
   | (None, _) =>
       if isSyntheticParentLocked m abs then check_synthetic_dir (go "chdir") m abs
       else op_Stat (mf_base m) abs ≫= is_dir
   end);;
  mret (set_mf_cwd abs m).
End mountable.

Definition Mountable_Getwd {F} (m : MountableFS F) : gostr := mf_cwd m.
