(* ===== verification/MountableProps.v ===== *)
(** The multi-mount filesystem: the mount table stays well-formed, every path is routed to one
    place whatever the order of the table, paths translate back and forth, and an operation touches
    only the filesystems that its paths are routed to. *)
From S2P Require Import Prelude GoPath FsTypes FileSystem Mountable.

(** ** Paths below a mount point *)

Lemma join_app l m : l ≠ [] → m ≠ [] → join [slash] (l ++ m) = join [slash] l ++ slash :: join [slash] m.
Proof.
  intros Hl Hm. induction l as [|x l IH]; [done|]. destruct l as [|y l].
  - simpl. by destruct m.
  - change (join [slash] ((x :: y :: l) ++ m)) with (x ++ slash :: join [slash] ((y :: l) ++ m)).
    rewrite IH by done. simpl. by rewrite <- (assoc_L (++)).
Qed.

Lemma render_below ms rs : ms ≠ [] → rs ≠ [] → render (ms ++ rs) = render ms ++ render rs.
Proof.
  intros Hm Hr. destruct ms as [|x ms]; [done|]. destruct rs as [|y rs]; [done|].
  change (render ((x :: ms) ++ y :: rs)) with (slash :: join [slash] ((x :: ms) ++ y :: rs)).
  by rewrite join_app by done.
Qed.

Lemma within_render cs ds : valid_comps cs → valid_comps ds → cs ≠ [] →
  within (render cs) (render ds) = true ↔ ∃ e es, ds = cs ++ e :: es.
Proof. intros. unfold within. rewrite has_prefix_spec. by apply prefix_render. Qed.

Lemma trim_prefix_app p s : trim_prefix p (p ++ s) = s.
Proof. unfold trim_prefix. by rewrite has_prefix_app, drop_app_length. Qed.

Lemma render_trim ms e es : ms ≠ [] → trim_prefix (render ms) (render (ms ++ e :: es)) = render (e :: es).
Proof. intros H. by rewrite render_below, trim_prefix_app. Qed.

Lemma render_nil cs : valid_comps cs → render cs = root_path ↔ cs = [].
Proof. intros H. split; [by apply render_root_inv|by intros ->]. Qed.

Lemma prefixMountPath_render ms rs : valid_comps ms → valid_comps rs →
  prefixMountPath (render ms) (render rs) = render (ms ++ rs).
Proof.
  intros Hm Hr. unfold prefixMountPath. rewrite Clean_render by done. case_decide as E.
  - apply render_nil in E as ->; [|done]. by rewrite app_nil_r.
  - destruct rs as [|r rs]; [done|].
    change (render (r :: rs)) with (root_path ++ join [slash] (r :: rs)).
    rewrite trim_prefix_app. by apply Resolve_join.
Qed.

(** ** The table *)

Definition mount_comps (ms : list gostr) : Prop := valid_comps ms ∧ ms ≠ [].

(** Mount points are clean paths other than the root, none below another. *)
Record table_ok {F} (m : MountableFS F) : Prop := {
  tk_entry : ∀ p e, mf_mounts m !! p = Some e → me_mountPoint e = p ∧ ∃ ms, mount_comps ms ∧ p = render ms;
  tk_apart : ∀ p q, is_Some (mf_mounts m !! p) → is_Some (mf_mounts m !! q) → within p q = false;
  tk_cwd : clean_abs (mf_cwd m);
}.

Lemma within_irrefl ms : mount_comps ms → within (render ms) (render ms) = false.
Proof.
  intros [Hv Hn]. apply not_true_is_false. rewrite within_render by done. intros (e&es&E).
  apply (f_equal length) in E. rewrite length_app in E. simpl in E. lia.
Qed.

Lemma find_none {A} (f : A → bool) l : List.find f l = None ↔ ∀ x, x ∈ l → f x = false.
Proof.
  split.
  - intros H x Hx%list_elem_of_In. by apply (List.find_none f l).
  - intros H. destruct (List.find f l) as [x|] eqn:E; [|done].
    apply List.find_some in E as [Hin Hf]. apply list_elem_of_In in Hin. rewrite (H x Hin) in Hf. done.
Qed.

Lemma elem_of_entries {F} (m : MountableFS F) p e : (p, e) ∈ entries_of m ↔ mf_mounts m !! p = Some e.
Proof. apply elem_of_map_to_list. Qed.

Lemma validateMountLocked_none {F} (m : MountableFS F) p : validateMountLocked m p = None →
  ∀ q, is_Some (mf_mounts m !! q) → q ≠ p → within q p = false ∧ within p q = false.
Proof.
  unfold validateMountLocked, validateMount_in. destruct (List.find _ _) as [[]|] eqn:E; [done|]. intros _ q [e Hq] Hne.
  rewrite find_none in E. specialize (E (q, e) (proj2 (elem_of_entries m q e) Hq)). cbn [fst] in E.
  rewrite bool_decide_false in E by done. cbn [negb andb] in E. by apply orb_false_iff in E.
Qed.

Lemma clean_comps_of p : clean_abs p → p ≠ root_path → ∃ ms, mount_comps ms ∧ p = render ms.
Proof. intros (ms&Hv&->) Hp. exists ms. split; [|done]. split; [done|]. by intros ->. Qed.

Lemma Mount_ok {F} mp fsys (m m' : MountableFS F) : table_ok m → Mount mp fsys m = Ok m' → table_ok m'.
Proof.
  intros [H1 H2 H3]. unfold Mount. destruct fsys as [f|]; [|done]. destruct (validateMountPath mp); [done|].
  cbv zeta. set (p := Clean (TrimSpace mp)). case_decide as Hp; [done|].
  destruct (validateMountLocked m p) eqn:Ev; [done|]. intros [= <-].
  assert (∃ ms, mount_comps ms ∧ p = render ms) as (ms&Hms&Hpm).
  { apply clean_comps_of; [apply Clean_clean_abs|done]. }
  pose proof (validateMountLocked_none m p Ev) as Hv. split; simpl.
  - intros q e. rewrite lookup_insert_Some. intros [[<- <-]|[_ Hq]]; [|by apply H1]. split; [done|by exists ms].
  - intros q r Hq Hr. destruct (decide (q = p)) as [->|Hqp], (decide (r = p)) as [->|Hrp];
      rewrite ?lookup_insert_ne in * by done.
    + rewrite Hpm. by apply within_irrefl.
    + by apply Hv.
    + by apply Hv.
    + by apply H2.
  - done.
Qed.

Lemma Unmount_ok {F} mp (m m' : MountableFS F) : table_ok m → Unmount mp m = Ok m' → table_ok m'.
Proof.
  intros [H1 H2 H3]. unfold Unmount. destruct (mf_mounts m !! _); [|done].
  destruct (pathWithinMount _ _); [done|]. intros [= <-]. split; simpl; [|intros q r [? Hq] [? Hr]|done].
  - intros q e [_ Hq]%lookup_delete_Some. by apply H1.
  - apply lookup_delete_Some in Hq as [_ Hq], Hr as [_ Hr]. by apply H2.
Qed.

(** ** Routing *)

(** Where the path with components [cs] belongs: to a mount, with the rest of the path, or to the base. *)
Definition routed_to {F} (m : MountableFS F) (cs : list gostr) (entry : option (mountedEntry F)) (rel : gostr) : Prop :=
  match entry with
  | Some e => ∃ ms rs, mount_comps ms ∧ cs = ms ++ rs ∧ me_mountPoint e = render ms ∧
      mf_mounts m !! render ms = Some e ∧ rel = render rs
  | None => rel = render cs ∧ ∀ ms rs, mount_comps ms → cs = ms ++ rs → mf_mounts m !! render ms = None
  end.

Lemma mounts_apart {F} (m : MountableFS F) ms rs ms' rs' : table_ok m → valid_comps (ms ++ rs) →
  mount_comps ms → mount_comps ms' → is_Some (mf_mounts m !! render ms) → is_Some (mf_mounts m !! render ms') →
  ms ++ rs = ms' ++ rs' → ms = ms'.
Proof.
  intros [_ H2 _] Hv [Hm1 Hm2] [Hm1' Hm2'] Hs Hs' E.
  assert (∀ a b, mount_comps a → mount_comps b → is_Some (mf_mounts m !! render a) →
    is_Some (mf_mounts m !! render b) → ∀ k, b = a ++ k → k = []) as Hk.
  { intros a b [Ha ?] [Hb ?] Hsa Hsb [|e es] Hab; [done|]. specialize (H2 _ _ Hsa Hsb).
    apply not_true_iff_false in H2. exfalso. apply H2. apply within_render; [done..|]. by exists e, es. }
  apply app_eq_inv in E as [(k&E1&_)|(k&E1&_)].
  - assert (k = []) as -> by (apply (Hk ms' ms); done || by split). by rewrite E1, app_nil_r.
  - assert (k = []) as -> by (apply (Hk ms ms'); done || by split). by rewrite E1, app_nil_r.
Qed.

Lemma route_in_spec {F} (m : MountableFS F) entries cs : table_ok m → entries ≡ₚ entries_of m →
  valid_comps cs → mf_mounts m !! render cs = None →
  match route_in entries (render cs) with
  | Some (e, rel) => routed_to m cs (Some e) rel
  | None => routed_to m cs None (render cs)
  end.
Proof.
  intros Hok Hperm Hcs Hno. unfold route_in. destruct (List.find _ _) as [[p e]|] eqn:E.
  - apply List.find_some in E as [Hin Hw]. cbn [fst] in Hw.
    apply list_elem_of_In in Hin. rewrite Hperm in Hin. apply elem_of_entries in Hin.
    destruct (tk_entry _ Hok _ _ Hin) as [Hmp (ms&[Hm1 Hm2]&->)].
    apply within_render in Hw as (x&xs&->); [|done..]. exists ms, (x :: xs).
    split_and!; [done..|]. by apply render_trim.
  - rewrite find_none in E. split; [done|]. intros ms rs [Hm1 Hm2] ->.
    destruct (mf_mounts m !! render ms) as [e|] eqn:Hl; [|done]. destruct rs as [|r rs].
    { rewrite app_nil_r in Hno. congruence. }
    assert ((render ms, e) ∈ entries) as Hin by (rewrite Hperm; by apply elem_of_entries).
    specialize (E _ Hin). cbn [fst] in E. apply not_true_iff_false in E. exfalso. apply E.
    apply within_render; [done..|]. by exists r, rs.
Qed.

Lemma routeLocked_spec {F} (m : MountableFS F) cs : table_ok m → valid_comps cs →
  let '(entry, rel) := routeLocked m (render cs) in routed_to m cs entry rel.
Proof.
  intros Hok Hcs. unfold routeLocked. rewrite Clean_render by done.
  destruct (mf_mounts m !! render cs) as [e|] eqn:E.
  - destruct (tk_entry _ Hok _ _ E) as [Hmp (ms&[Hm1 Hm2]&Hms)].
    apply render_inj in Hms as <-; [|done..]. exists cs, []. rewrite app_nil_r. by split_and!.
  - pose proof (route_in_spec m (entries_of m) cs Hok (Permutation_refl _) Hcs E) as Hr.
    by destruct (route_in _ _) as [[e rel]|].
Qed.

(** Where a path belongs is unique. *)
Lemma routed_to_unique {F} (m : MountableFS F) cs e rel e' rel' : table_ok m → valid_comps cs →
  routed_to m cs e rel → routed_to m cs e' rel' → e = e' ∧ rel = rel'.
Proof.
  intros Hok Hcs. destruct e as [e|], e' as [e'|]; simpl.
  - intros (ms&rs&Hm&->&_&Hl&->) (ms'&rs'&Hm'&E&_&Hl'&->).
    assert (ms = ms') as <- by (by eapply (mounts_apart m ms rs ms' rs')).
    apply app_inv_head in E as ->. by rewrite Hl in Hl'; injection Hl' as ->.
  - intros (ms&rs&Hm&->&_&Hl&_) [_ H]. rewrite (H ms rs) in Hl; done.
  - intros [_ H] (ms&rs&Hm&->&_&Hl&_). rewrite (H ms rs) in Hl; done.
  - by intros [-> _] [-> _].
Qed.

(** A synthetic directory is in the base. *)
Lemma synthetic_in_base {F} (m : MountableFS F) abs : table_ok m → clean_abs abs →
  isSyntheticParentLocked m abs = true → (routeLocked m abs).1 = None.
Proof.
  intros Hok (cs&Hcs&->) Hs. pose proof (routeLocked_spec m cs Hok Hcs) as Hr.
  destruct (routeLocked m (render cs)) as [[e|] rel]; [exfalso|done].
  destruct Hr as (ms&rs&[Hm Hne]&->&_&Hl&_). unfold isSyntheticParentLocked in Hs.
  destruct (mf_mounts m !! render (ms ++ rs)); [done|].
  apply existsb_exists in Hs as ([p e']&Hin&Hp). apply list_elem_of_In, elem_of_entries in Hin. cbn [fst] in Hp.
  apply orb_true_iff in Hp as [Hp%bool_decide_eq_true|Hp].
  - apply render_nil in Hp; [|done]. by apply app_eq_nil in Hp as [-> _].
  - destruct (tk_entry _ Hok _ _ Hin) as [_ (ps&[Hps Hpne]&->)].
    apply within_render in Hp as (x&xs&->); [|done..|by destruct ms].
    assert (within (render ms) (render ((ms ++ rs) ++ x :: xs)) = false) as Hf by (by apply Hok).
    apply not_true_iff_false in Hf. apply Hf. apply within_render; [done..|].
    rewrite <- (assoc_L (++)). destruct rs as [|r rs]; [by exists x, xs|by exists r, (rs ++ x :: xs)].
Qed.

(** ** The table over time *)

Section steps.
Context {W F H : Type} `{FileSystem W F H}.

(** The calls that change the mountable filesystem itself. *)
Inductive mount_step : MountableFS F * W → MountableFS F * W → Prop :=
| StepMount mp fsys m m' w : Mount mp fsys m = Ok m' → mount_step (m, w) (m', w)
| StepUnmount mp m m' w : Unmount mp m = Ok m' → mount_step (m, w) (m', w)
| StepChdir name m m' w w' : Mountable_Chdir m name w = (Ok m', w') → mount_step (m, w) (m', w').

Lemma mnt_resolve_clean (m : MountableFS F) name : table_ok m → clean_abs (mnt_resolve m name).
Proof. intros []. by apply Resolve_clean_abs. Qed.

Lemma Chdir_cwd (m m' : MountableFS F) name w w' : Mountable_Chdir m name w = (Ok m', w') →
  m' = set_mf_cwd (mnt_resolve m name) m.
Proof.
  unfold Mountable_Chdir. cbv zeta. intros (a&w1&_&Hc)%act_bind_Ok. by injection Hc as <- <-.
Qed.

Lemma mount_step_ok c c' : mount_step c c' → table_ok c.1 → table_ok c'.1.
Proof.
  intros Hs Hok. destruct Hs as [mp fsys m m' w Hm|mp m m' w Hm|name m m' w w' Hm]; simpl in *.
  - by eapply Mount_ok.
  - by eapply Unmount_ok.
  - apply Chdir_cwd in Hm as ->. pose proof (mnt_resolve_clean m name Hok). destruct Hok. by split.
Qed.

Lemma NewMountable_ok (base : F) : table_ok (NewMountable base).
Proof.
  split; simpl.
  - intros p e. by rewrite lookup_empty.
  - intros p q [e He]. by rewrite lookup_empty in He.
  - exists []. split; [constructor|done].
Qed.

Lemma mount_reachable_ok (base : F) w c : rtc mount_step (NewMountable base, w) c → table_ok c.1.
Proof.
  intros Hr. assert (table_ok (NewMountable base, w).1) as Hok0 by apply NewMountable_ok.
  revert Hok0. induction Hr as [|c c' c'' Hs _ IH]; [done|]. intros Hok. by eapply IH, mount_step_ok.
Qed.

(** Whatever is mounted, unmounted and entered, a path belongs to one filesystem: it is routed to
    the mount whose mount point is above it (there is at most one), with the rest of the path, or
    else to the base with the whole path; the range over the mount map finds the same entry in
    every iteration order. *)
Theorem mounts_route_uniquely base w c name entries : rtc mount_step (NewMountable base, w) c →
  entries ≡ₚ entries_of c.1 →
  ∃ cs, valid_comps cs ∧ mnt_resolve c.1 name = render cs ∧
    (let '(entry, rel) := routeLocked c.1 (render cs) in routed_to c.1 cs entry rel) ∧
    (∀ e rel e' rel', routed_to c.1 cs e rel → routed_to c.1 cs e' rel' → e = e' ∧ rel = rel') ∧
    (mf_mounts c.1 !! render cs = None → route_in entries (render cs) = route_in (entries_of c.1) (render cs)).
Proof.
  intros Hr Hperm. pose proof (mount_reachable_ok base w c Hr) as Hok. destruct c as [m w']. simpl in *.
  destruct (mnt_resolve_clean m name Hok) as (cs&Hcs&E). exists cs. split_and!; [done|done| | |].
  - by apply routeLocked_spec.
  - intros e rel e' rel'. by apply routed_to_unique.
  - intros Hno.
    pose proof (route_in_spec m entries cs Hok Hperm Hcs Hno) as H1.
    pose proof (route_in_spec m (entries_of m) cs Hok (Permutation_refl _) Hcs Hno) as H2.
    destruct (route_in entries _) as [[e rel]|], (route_in (entries_of m) _) as [[e' rel']|]; [..|done].
    + by destruct (routed_to_unique m cs _ _ _ _ Hok Hcs H1 H2) as [[= ->] ->].
    + by destruct (routed_to_unique m cs _ _ _ _ Hok Hcs H1 H2).
    + by destruct (routed_to_unique m cs _ _ _ _ Hok Hcs H1 H2).
Qed.

(** Paths translate back: a path routed to a mount is the mount point joined with the path in
    the filesystem, so the path of an error, and the result of [Realpath], come out as paths of the
    sandbox below the mount point. *)
Theorem mounts_translate_paths (m : MountableFS F) name e rel : table_ok m →
  routeLocked m (mnt_resolve m name) = (Some e, rel) →
  prefixMountPath (me_mountPoint e) rel = mnt_resolve m name ∧
  (∀ op err, namespaceError (EPath op rel err) (me_mountPoint e) = EPath op (mnt_resolve m name) err) ∧
  (∀ w r w', v_Realpath (view_of e) rel w = (Ok r, w') → ∃ inner, op_Realpath (me_fs e) rel w = (Ok inner, w') ∧
     r = prefixMountPath (me_mountPoint e) inner ∧ pathWithinMount r (me_mountPoint e) = true).
Proof.
  intros Hok Hroute. destruct (mnt_resolve_clean m name Hok) as (cs&Hcs&E). rewrite E in *.
  pose proof (routeLocked_spec m cs Hok Hcs) as Hs. rewrite Hroute in Hs.
  destruct Hs as (ms&rs&[Hm Hne]&->&Hmp&_&->). rewrite Hmp. apply Forall_app in Hcs as [_ Hrs].
  assert (prefixMountPath (render ms) (render rs) = render (ms ++ rs)) as Hp by (by apply prefixMountPath_render).
  assert (render ms ≠ []) as Hnil by (destruct (render_head ms) as [t ->]; done).
  split_and!; [done| |].
  - intros op err. unfold namespaceError. rewrite decide_False by done. simpl. by rewrite Hp.
  - intros w r w'. unfold v_Realpath, view_of. rewrite Hmp. unfold namespaced, mbind, act_bind.
    destruct (op_Realpath (me_fs e) (render rs) w) as [[inner|er] w1]; [|done]. intros [= <- <-].
    exists inner. split_and!; [done..|].
    assert (prefixMountPath (render ms) inner = render (ms ++ comps inner)) as ->.
    { unfold prefixMountPath. rewrite Clean_comps. fold (prefixMountPath (render ms) (render (comps inner))).
      rewrite <- (prefixMountPath_render ms (comps inner)) by (done || apply comps_valid).
      unfold prefixMountPath. by rewrite Clean_render by apply comps_valid. }
    unfold pathWithinMount. destruct (comps inner) as [|x xs] eqn:Ei.
    + by rewrite app_nil_r, bool_decide_true.
    + apply orb_true_iff. right. apply within_render; [done| |done|by exists x, xs].
      apply Forall_app. split; [done|]. rewrite <- Ei. apply comps_valid.
Qed.
End steps.

(** ** Isolation *)

Section isolation.
Context `{FileSystemLaws W F H V}.

Definition view_fs (v : fs_view F) : F := match v with Plain f => f | Namespaced _ f => f end.

Lemma touches_namespaced {A} fs mp (c : act W A) : touches (same_but fs) c → touches (same_but fs) (namespaced mp c).
Proof. intros Hc w. specialize (Hc w). unfold namespaced. by destruct (c w). Qed.

Lemma touches_view {A} fs v (c : F → act W A) : view_fs v ∈ fs → fs_call (view_fs v) A (c (view_fs v)) →
  touches (same_but fs) (on_view v c).
Proof. intros Hv Hc. destruct v; simpl in *; [|apply touches_namespaced]; by eapply touches_call. Qed.

Lemma touches_optional {A B} fs (o : option B) (k : B → act W A) (d : act W A) :
  touches (same_but fs) d → (∀ b, o = Some b → touches (same_but fs) (k b)) →
  touches (same_but fs) (match o with Some b => k b | None => d end).
Proof. intros Hd Hk. destruct o; auto. Qed.

Lemma touches_mkfifo fs f n perm : f ∈ fs → touches (same_but fs) (mkfifoViaOptional f n perm).
Proof.
  intros Hf. unfold mkfifoViaOptional. apply touches_optional; [apply touches_fail; apply _|].
  intros k Hk. eapply touches_call; [done|by constructor].
Qed.

Lemma touches_v_Mkfifo fs v n perm : view_fs v ∈ fs → touches (same_but fs) (v_Mkfifo v n perm).
Proof. intros Hv. destruct v; simpl in *; [|apply touches_namespaced]; by apply touches_mkfifo. Qed.

Lemma touches_v_Lchtimes fs v n a t : view_fs v ∈ fs → touches (same_but fs) (v_Lchtimes v n a t).
Proof.
  intros Hv.
  assert (touches (same_but fs) (match op_Lchtimes (view_fs v) with
    | None => op_Chtimes (view_fs v) n a t | Some k => k n a t end)).
  { apply touches_optional; [|intros k Hk]; (eapply touches_call; [done|by constructor]). }
  destruct v; simpl in *; [|apply touches_namespaced]; done.
Qed.

Lemma touches_v_Realpath fs v n : view_fs v ∈ fs → touches (same_but fs) (v_Realpath v n).
Proof.
  intros Hv. destruct v as [f|mp f]; simpl in *; [eapply touches_call; [done|constructor]|].
  apply touches_bind; [apply _|apply touches_namespaced; eapply touches_call; [done|constructor]|].
  intros r. apply touches_ret, _.
Qed.

Create HintDb touches.
#[local] Hint Extern 1 (PreOrder _) => apply _ : touches.
#[local] Hint Resolve touches_ret touches_fail touches_bind touches_attempt touches_deferring touches_view
  touches_v_Mkfifo touches_v_Lchtimes touches_v_Realpath touches_mkfifo touches_call touches_namespaced : touches.
#[local] Hint Constructors fs_call : touches.

(** Takes an action apart down to calls on the filesystems listed. *)
Ltac touch :=
  repeat first
    [ apply touches_ret; apply _
    | apply touches_fail; apply _
    | apply touches_attempt
    | apply touches_bind; [apply _| |intros ?]
    | apply touches_v_Mkfifo; assumption
    | apply touches_v_Lchtimes; assumption
    | apply touches_v_Realpath; assumption
    | apply touches_view; [assumption|solve [constructor]]
    | apply touches_mkfifo; assumption
    | apply touches_namespaced
    | eapply touches_call; [|by constructor]; assumption
    | case_match ].

Lemma touches_copy_owner fs dst n info follow : view_fs dst ∈ fs → touches (same_but fs) (copy_owner dst n info follow).
Proof. intros Hd. unfold copy_owner, v_Chown. touch. Qed.

Lemma view_owner v (c : F → act W H) w h w' : (∀ f w h w', c f w = (Ok h, w') → owner h = f) →
  on_view v c w = (Ok h, w') → owner h = view_fs v.
Proof.
  intros Hc. destruct v as [f|mp f]; simpl; [apply Hc|]. unfold namespaced.
  destruct (c f w) as [[k|e] w1] eqn:E; intros [= <- <-]. by eapply Hc.
Qed.

Lemma touches_copyFileInto fs src sn dst dn info : view_fs src ∈ fs → view_fs dst ∈ fs →
  touches (same_but fs) (copyFileInto src sn dst dn info).
Proof.
  intros Hs Hd. unfold copyFileInto.
  assert (∀ h, owner h ∈ fs → touches (same_but fs) (op_Close h)) as Hclose.
  { intros h Hh w g Hg. apply law_Close. by intros ->. }
  apply touches_bind_Ok; [unfold v_Open; touch|]. intros reader w w' Hr.
  apply (view_owner _ _ _ _ _ (fun f w h w' => law_Open f sn w h w')) in Hr.
  apply touches_deferring; [apply _|apply Hclose; by rewrite Hr|].
  apply touches_bind_Ok; [unfold v_OpenFile; touch|]. intros writer w1 w1' Hw.
  apply (view_owner _ _ _ _ _ (fun f w h w' => law_OpenFile f dn _ _ w h w')) in Hw.
  apply touches_deferring; [apply _|apply Hclose; by rewrite Hw|].
  apply touches_bind; [apply _| |intros ?].
  - intros w2 g Hg. apply law_Copy; [rewrite Hw|rewrite Hr]; by intros ->.
  - unfold v_Chmod. touch. by apply touches_copy_owner.
Qed.

Lemma view_ReadDir v n w es w' : v_ReadDir v n w = (Ok es, w') →
  Forall (fun e => ∀ fs, view_fs v ∈ fs → touches (same_but fs) (de_Info e)) es.
Proof.
  assert (∀ f w es w', op_ReadDir f n w = (Ok es, w') →
    Forall (fun e => ∀ fs, f ∈ fs → touches (same_but fs) (de_Info e)) es) as Hop.
  { intros f w0 es0 w0' E. apply law_Info in E. revert E. apply Forall_impl. intros e He fs Hf w1 g Hg.
    apply He. by intros ->. }
  unfold v_ReadDir. destruct v as [f|mp f]; simpl; [apply Hop|]. unfold namespaced.
  destruct (op_ReadDir f n w) as [[es1|e] w1] eqn:E; intros [= <- <-]. by eapply Hop.
Qed.

Lemma touches_copyPath fs fuel src sn info dst dn : view_fs src ∈ fs → view_fs dst ∈ fs →
  touches (same_but fs) (copyPathIntoWithInfo fuel src sn info dst dn).
Proof.
  intros Hs Hd. revert sn info dn. induction fuel as [|fuel IH]; intros sn info dn; cbn [copyPathIntoWithInfo].
  { apply touches_fail, _. }
  apply touches_bind; [apply _|unfold v_Lstat; touch|]. clear info. intros info. cbv zeta.
  destruct (has_bits _ ModeSymlink); [unfold v_Readlink, v_Symlink; touch; by apply touches_copy_owner|].
  destruct (info_IsDir info).
  - do 2 (apply touches_bind; [apply _|unfold v_MkdirAll, v_Chmod; touch|intros ?]).
    apply touches_bind; [apply _|by apply touches_copy_owner|intros ?].
    apply touches_bind_Ok; [unfold v_ReadDir; touch|]. intros entries w w' Hes%view_ReadDir.
    induction Hes as [|e es He _ IHes]; simpl; [apply touches_ret, _|].
    apply touches_bind; [apply _| |intros ?; apply touches_bind; [apply _|apply IH|intros ?; apply IHes]].
    touch. by apply He.
  - destruct (has_bits _ ModeNamedPipe); [touch; by apply touches_copy_owner|].
    destruct (negb _); [apply touches_fail, _|by apply touches_copyFileInto].
Qed.

(** The operations, with their results dropped. *)
Inductive mount_op :=
| MOpenFile (name : gostr) (flag perm : N)
| MStat (name : gostr)
| MLstat (name : gostr)
| MReadDir (name : gostr)
| MReadlink (name : gostr)
| MRealpath (name : gostr)
| MSymlink (target linkName : gostr)
| MLink (oldName newName : gostr)
| MChown (name : gostr) (uid gid : N) (follow : bool)
| MChmod (name : gostr) (mode : N)
| MChtimes (name : gostr) (atime mtime : Z)
| MLchtimes (name : gostr) (atime mtime : Z)
| MMkdirAll (name : gostr) (perm : N)
| MMkfifo (name : gostr) (perm : N)
| MRemove (name : gostr) (recursive : bool)
| MRename (fuel : nat) (oldName newName : gostr)
| MChdir (name : gostr).

Definition drop_result {A} (c : act W A) : act W unit := _ ← c; mret tt.

Definition run_mount_op (m : MountableFS F) (op : mount_op) : act W unit :=
  match op with
  | MOpenFile n flag perm => drop_result (Mountable_OpenFile m n flag perm)
  | MStat n => drop_result (Mountable_Stat m n)
  | MLstat n => drop_result (Mountable_Lstat m n)
  | MReadDir n => drop_result (Mountable_ReadDir m n)
  | MReadlink n => drop_result (Mountable_Readlink m n)
  | MRealpath n => drop_result (Mountable_Realpath m n)
  | MSymlink t n => Mountable_Symlink m t n
  | MLink o n => Mountable_Link m o n
  | MChown n u g follow => Mountable_Chown m n u g follow
  | MChmod n mode => Mountable_Chmod m n mode
  | MChtimes n a t => Mountable_Chtimes m n a t
  | MLchtimes n a t => Mountable_Lchtimes m n a t
  | MMkdirAll n perm => Mountable_MkdirAll m n perm
  | MMkfifo n perm => Mountable_Mkfifo m n perm
  | MRemove n recursive => Mountable_Remove m n recursive
  | MRename fuel o n => Mountable_Rename fuel m o n
  | MChdir n => drop_result (Mountable_Chdir m n)
  end.

(** The paths of the virtual tree that an operation names. *)
Definition op_names (op : mount_op) : list gostr :=
  match op with
  | MOpenFile n _ _ | MStat n | MLstat n | MReadDir n | MReadlink n | MRealpath n | MSymlink _ n
  | MChown n _ _ _ | MChmod n _ | MChtimes n _ _ | MLchtimes n _ _ | MMkdirAll n _ | MMkfifo n _
  | MRemove n _ | MChdir n => [n]
  | MLink o n | MRename _ o n => [o; n]
  end.

Definition routed_fs (m : MountableFS F) (name : gostr) : F := view_fs (routedView m (mnt_resolve m name)).1.

Lemma touches_routed {A} fs (m : MountableFS F) name (k : fs_view F → gostr → act W A) : routed_fs m name ∈ fs →
  (∀ v rel, view_fs v ∈ fs → touches (same_but fs) (k v rel)) →
  touches (same_but fs) (let '(v, rel) := routedView m (mnt_resolve m name) in k v rel).
Proof. unfold routed_fs. intros Hf Hk. destruct (routedView m _) as [v rel]. by apply Hk. Qed.

(** The entry and path of a name, with their filesystem among [fs]. *)
Lemma route_cases (fs : list F) (m : MountableFS F) name : routed_fs m name ∈ fs →
  match routeLocked m (mnt_resolve m name) with (Some e, _) => me_fs e ∈ fs | (None, _) => mf_base m ∈ fs end.
Proof. unfold routed_fs, routedView. by destruct (routeLocked m _) as [[e|] rel]. Qed.

Lemma touches_stat_like fs call m name : (∀ f n, fs_call f FileInfo (call f n)) → routed_fs m name ∈ fs →
  touches (same_but fs) (stat_like call m name).
Proof.
  intros Hc Hf. apply route_cases in Hf. unfold stat_like, or_synthetic. cbv zeta.
  destruct (routeLocked m _) as [[e|] rel].
  - assert (∀ n, touches (same_but fs) (call (me_fs e) n)) as Hk by (intros n; eapply touches_call; [exact Hf|apply Hc]).
    touch; apply Hk.
  - assert (∀ n, touches (same_but fs) (call (mf_base m) n)) as Hk by (intros n; eapply touches_call; [exact Hf|apply Hc]).
    touch; apply Hk.
Qed.

Lemma touches_check_synthetic fs op m abs : mf_base m ∈ fs → touches (same_but fs) (check_synthetic_dir op m abs).
Proof. intros Hf. unfold check_synthetic_dir. touch. Qed.

Lemma touches_move_across fs fuel src o dst n : view_fs src ∈ fs → view_fs dst ∈ fs →
  touches (same_but fs) (move_across fuel src o dst n).
Proof.
  intros Hs Hd. unfold move_across, copyPathInto, v_Lstat, v_Remove.
  assert (∀ v name (r : bool), view_fs v ∈ fs → touches (same_but fs) (on_view v (fun f => op_Remove f name r))) as Hrm
    by (intros; by apply touches_view; [|constructor]).
  apply touches_bind; [apply _|apply touches_attempt; by apply touches_view; [|constructor]|intros st].
  set (undo := if is_ok st then mret tt else _).
  assert (touches (same_but fs) undo) as Hundo.
  { unfold undo. destruct (is_ok st); [apply touches_ret, _|].
    apply touches_bind; [apply _|apply touches_attempt, Hrm, Hd|intros ?; apply touches_ret, _]. }
  apply touches_bind; [apply _|apply touches_attempt; by apply touches_copyPath|intros [?|err]].
  - apply touches_bind; [apply _|apply touches_attempt, Hrm, Hs|intros [?|err]; [apply touches_ret, _|]].
    apply touches_bind; [apply _|exact Hundo|intros ?; apply touches_fail, _].
  - apply touches_bind; [apply _|exact Hundo|intros ?; apply touches_fail, _].
Qed.

Lemma touches_drop {A} fs (c : act W A) : touches (same_but fs) c → touches (same_but fs) (drop_result c).
Proof. intros Hc. apply touches_bind; [apply _|done|intros ?; apply touches_ret, _]. Qed.

Lemma touches_two_names fs (m : MountableFS F) op : table_ok m → (∀ n, n ∈ op_names op → routed_fs m n ∈ fs) →
  match op with MLink _ _ | MRename _ _ _ => touches (same_but fs) (run_mount_op m op) | _ => True end.
Proof.
  intros Hok Hf. destruct op; try done.
  all: pose proof (Hf oldName ltac:(left)) as Ho; pose proof (Hf newName ltac:(right; left)) as Hn.
  all: apply route_cases in Ho, Hn; simpl; unfold Mountable_Link, Mountable_Rename; cbv zeta.
  all: destruct (routeLocked m (mnt_resolve m oldName)) as [eo ro], (routeLocked m (mnt_resolve m newName)) as [en rn].
  all: assert (view_fs (view_at m eo) ∈ fs) as Hvo by (by destruct eo);
       assert (view_fs (view_at m en) ∈ fs) as Hvn by (by destruct en).
  - unfold v_Link. touch.
  - destruct (pathContainsMount m _); [apply touches_fail, _|].
    destruct (pathContainsMount m _); [apply touches_fail, _|].
    destruct (same_mount eo en); [unfold v_Rename; touch|by apply touches_move_across].
Qed.

Lemma touches_one_name fs (m : MountableFS F) op : table_ok m → (∀ n, n ∈ op_names op → routed_fs m n ∈ fs) →
  match op with MLink _ _ | MRename _ _ _ => True | _ => touches (same_but fs) (run_mount_op m op) end.
Proof.
  intros Hok Hf.
  assert (∀ name (k : fs_view F → gostr → act W unit), name ∈ op_names op →
    (∀ v rel, view_fs v ∈ fs → touches (same_but fs) (k v rel)) →
    touches (same_but fs) (let '(v, rel) := routedView m (mnt_resolve m name) in k v rel)) as Hone.
  { intros name k Hn Hk. apply touches_routed; [by apply Hf|done]. }
  destruct op; try done; cbn [run_mount_op op_names] in *; try pose proof (Hf _ ltac:(left)) as Hname.
  - apply touches_drop. unfold Mountable_OpenFile. apply touches_routed; [done|]. intros. unfold v_OpenFile. touch.
  - apply touches_drop, touches_stat_like; [constructor|done].
  - apply touches_drop, touches_stat_like; [constructor|done].
  - apply touches_drop. apply route_cases in Hname. unfold Mountable_ReadDir, or_synthetic, v_ReadDir. cbv zeta.
    destruct (routeLocked m _) as [[e|] rel]; touch.
  - apply touches_drop. apply route_cases in Hname. unfold Mountable_Readlink, v_Readlink. cbv zeta.
    destruct (routeLocked m _) as [[e|] rel]; touch.
  - apply touches_drop. apply route_cases in Hname. unfold Mountable_Realpath, or_synthetic. cbv zeta.
    destruct (routeLocked m _) as [[e|] rel]; touch.
  - apply Hone; [left|]. intros. unfold v_Symlink. touch.
  - apply Hone; [left|]. intros. unfold v_Chown. touch.
  - apply Hone; [left|]. intros. unfold v_Chmod. touch.
  - apply Hone; [left|]. intros. unfold v_Chtimes. touch.
  - apply Hone; [left|]. intros. touch.
  - unfold Mountable_MkdirAll. cbv zeta. apply route_cases in Hname.
    destruct (isSyntheticParentLocked m _) eqn:Es.
    + apply synthetic_in_base in Es; [|done|by apply mnt_resolve_clean].
      apply touches_check_synthetic. destruct (routeLocked m _) as [[e|] rel]; done.
    + destruct (routeLocked m _) as [[e|] rel]; unfold v_MkdirAll, view_at; touch.
  - unfold Mountable_Mkfifo. cbv zeta. apply touches_bind; [apply _| |intros ?].
    + destruct (isSyntheticParentLocked m _); [|apply touches_ret, _].
      apply touches_bind; [apply _|apply touches_attempt, touches_stat_like; [constructor|]|intros ?; touch].
      assert (mnt_resolve m (mnt_resolve m name) = mnt_resolve m name) as E; [|unfold routed_fs; by rewrite E].
      destruct (mnt_resolve_clean m name Hok) as (cs&Hcs&E). rewrite E. unfold mnt_resolve.
      rewrite Resolve_abs by apply render_abs. by rewrite comps_render.
    + apply route_cases in Hname. destruct (routeLocked m _) as [[e|] rel]; touch.
  - unfold Mountable_Remove. cbv zeta. destruct (pathContainsMount m _); [apply touches_fail, _|].
    apply Hone; [left|]. intros. unfold v_Remove. touch.
  - apply touches_drop. unfold Mountable_Chdir. cbv zeta. apply touches_bind; [apply _| |intros ?; apply touches_ret, _].
    apply route_cases in Hname. destruct (routeLocked m _) as [[e|] rel].
    + unfold v_Stat. touch.
    + destruct (isSyntheticParentLocked m _); [by apply touches_check_synthetic|touch].
Qed.

(** C19: mounted filesystems are isolated from each other: an operation, whether it succeeds or fails
    half way, leaves every filesystem as it was but those that its paths are routed to; a rename
    across mounts touches the two it moves between and no third. *)
Theorem mounts_isolated (m : MountableFS F) op w g : table_ok m → g ∉ map (routed_fs m) (op_names op) →
  contents g (run_mount_op m op w).2 = contents g w.
Proof.
  intros Hok Hg. assert (touches (same_but (map (routed_fs m) (op_names op))) (run_mount_op m op)) as Ht.
  { assert (∀ n, n ∈ op_names op → routed_fs m n ∈ map (routed_fs m) (op_names op)) as Hin
      by (intros n Hn; by apply list_elem_of_fmap_2).
    pose proof (touches_one_name _ m op Hok Hin). pose proof (touches_two_names _ m op Hok Hin). by destruct op. }
  by apply Ht.
Qed.
End isolation.

(** ** Listing a directory above mounts *)

Section listing.
Context {W F H : Type} `{FileSystem W F H}.

Lemma split_join_head c cs : valid_comps (c :: cs) → split_byte slash (join [slash] (c :: cs)) = c :: cs.
Proof. intros Hv. apply split_join; [done|by apply valid_comps_slash]. Qed.

Lemma child_of_render cs c rs : valid_comps (cs ++ c :: rs) →
  child_of (if decide (render cs = root_path) then [] else render cs) (render (cs ++ c :: rs)) = c.
Proof.
  intros Hv. pose proof Hv as [Hcs Hr]%Forall_app. unfold child_of.
  destruct (decide (render cs = root_path)) as [E|E].
  - apply render_nil in E as ->; [|done]. rewrite decide_True by done. simpl app.
    change (render (c :: rs)) with (root_path ++ join [slash] (c :: rs)). rewrite trim_prefix_app.
    by rewrite split_join_head.
  - rewrite decide_False by (destruct (render_head cs) as [t ->]; done).
    assert (cs ≠ []) as Hne by (by intros ->). rewrite render_below by done.
    change (render (c :: rs)) with (root_path ++ join [slash] (c :: rs)).
    rewrite (assoc_L (++)), trim_prefix_app. by rewrite split_join_head.
Qed.

Lemma elem_of_childMountNames (m : MountableFS F) cs c : table_ok m → valid_comps cs →
  c ∈ childMountNames m (render cs) ↔ ∃ rs, valid_comps (cs ++ c :: rs) ∧
    is_Some (mf_mounts m !! render (cs ++ c :: rs)).
Proof.
  intros Hok Hcs. unfold childMountNames. rewrite elem_of_sort_strings, elem_of_elements, elem_of_list_to_set.
  rewrite Clean_render by done. set (prefix := if decide (render cs = root_path) then [] else render cs).
  assert (∀ p e, mf_mounts m !! p = Some e → ∀ c,
    (negb (bool_decide (prefix = [])) && negb (within prefix p) = false ∧ child_of prefix p = c ∧ c ≠ []) →
    (∃ rs, p = render (cs ++ c :: rs) ∧ valid_comps (cs ++ c :: rs)) ∨ (cs ≠ [] ∧ within (render cs) p = false)) as Hchild.
  { intros p e Hp c0 (Hw&Hc&Hne). destruct (tk_entry _ Hok _ _ Hp) as [_ (ps&[Hps Hpne]&->)].
    destruct cs as [|x cs].
    - left. destruct ps as [|y ps]; [done|]. pose proof (child_of_render [] y ps Hps) as Hx.
      simpl app in Hx. fold prefix in Hx. exists ps. by rewrite <- Hc, Hx.
    - destruct (within (render (x :: cs)) (render ps)) eqn:Ew; [left|by right].
      apply within_render in Ew as (y&ys&->); [|done..]. pose proof (child_of_render (x :: cs) y ys Hps) as Hx.
      fold prefix in Hx. exists ys. by rewrite <- Hc, Hx. }
  rewrite list_elem_of_In, in_flat_map. split.
  - intros ([p e]&Hin&Hc). apply list_elem_of_In, elem_of_entries in Hin. cbn [fst] in Hc.
    destruct (negb (bool_decide (prefix = [])) && negb (within prefix p)) eqn:Eg; [by destruct Hc|].
    case_decide as Hnil; [by destruct Hc|]. destruct Hc as [Hc|[]].
    destruct (Hchild p e Hin c) as [(rs&->&Hv)|[Hne Hw]]; [split_and!; congruence|exists rs; eauto|].
    exfalso. unfold prefix in Eg. rewrite decide_False in Eg by (by rewrite render_nil).
    rewrite bool_decide_false in Eg by (destruct (render_head cs) as [t ->]; done). by rewrite Hw in Eg.
  - intros (rs&Hv&[e He]). exists (render (cs ++ c :: rs), e). split; [by apply list_elem_of_In, elem_of_entries|].
    cbn [fst]. pose proof (child_of_render cs c rs Hv) as Hx. fold prefix in Hx. rewrite Hx.
    assert (valid_comp c) as Hvc by (apply Forall_app in Hv as [_ Hv]; by inversion Hv).
    rewrite (decide_False (P := c = [])) by apply Hvc.
    destruct (decide (cs = [])) as [->|Hne]; [unfold prefix; rewrite bool_decide_true by done; by left|].
    assert (within (render cs) (render (cs ++ c :: rs)) = true) as Hw by (apply within_render; [done..|by exists c, rs]).
    unfold prefix. rewrite decide_False by (by rewrite render_nil). rewrite Hw, andb_false_r. by left.
Qed.

(** Every entry is stored under its name. *)
Definition keyed (es : gmap gostr (DirEntry W)) : Prop := ∀ k e, es !! k = Some e → de_Name e = k.

Lemma base_entries_keyed (base : list (DirEntry W)) (es : gmap gostr (DirEntry W)) : keyed es →
  let es' := foldl (fun es e => <[de_Name e := e]> es) es base in
  keyed es' ∧ ∀ k, is_Some (es' !! k) ↔ is_Some (es !! k) ∨ k ∈ map de_Name base.
Proof.
  revert es. induction base as [|x base IH]; intros es Hk; simpl.
  - split; [done|]. intros k. split; [by left|]. intros [?|Hn]; [done|by apply elem_of_nil in Hn].
  - destruct (IH (<[de_Name x := x]> es)) as [H1 H2].
    { intros k e [[<- <-]|[_ ?]]%lookup_insert_Some; [done|by apply Hk]. }
    split; [done|]. intros k. rewrite H2, lookup_insert_is_Some, elem_of_cons. destruct (decide (de_Name x = k)); naive_solver.
Qed.

Lemma merge_children_keyed (cs : list gostr) (children : list gostr) (es : gmap gostr (DirEntry W)) : valid_comps cs →
  Forall (fun c => valid_comp c) children → keyed es →
  let es' := foldl (fun es child =>
      match es !! child with
      | Some _ => es
      | None =>
          let info := syntheticDirInfo (joinChildPath (render cs) child) in
          <[child := MkEntry (fi_Name info) (mode_Type (fi_Mode info)) (mret info)]> es
      end) es children in
  keyed es' ∧ ∀ k, is_Some (es' !! k) ↔ is_Some (es !! k) ∨ k ∈ children.
Proof.
  intros Hcs Hch. revert es. induction Hch as [|c children Hc _ IH]; intros es Hk; cbn [foldl].
  - split; [done|]. intros k. split; [by left|]. intros [?|Hn]; [done|by apply elem_of_nil in Hn].
  - destruct (es !! c) as [e|] eqn:E.
    + destruct (IH es Hk) as [H1 H2]. split; [done|]. intros k. rewrite H2, elem_of_cons. naive_solver.
    + cbv zeta. set (e := MkEntry _ _ _). destruct (IH (<[c := e]> es)) as [H1 H2].
      { intros k e' [[<- <-]|[_ ?]]%lookup_insert_Some; [|by apply Hk]. unfold e. simpl.
        assert (joinChildPath (render cs) c = render (cs ++ [c])) as ->.
        { unfold joinChildPath. by apply joinClean_render. }
        assert (valid_comps (cs ++ [c])) as Hv by (by apply valid_comps_snoc).
        rewrite decide_False by (rewrite render_nil by done; by destruct cs). by apply path_Base_snoc. }
      split; [done|]. intros k. rewrite H2, lookup_insert_is_Some, elem_of_cons. destruct (decide (c = k)); naive_solver.
Qed.

Lemma sorted_entries_names (es : gmap gostr (DirEntry W)) : keyed es →
  map de_Name (sorted_entries es) = sort_strings (map_to_list es).*1.
Proof.
  intros Hk. unfold sorted_entries.
  assert (Forall (fun k => is_Some (es !! k)) (sort_strings (map_to_list es).*1)) as Hall.
  { apply Forall_forall. intros k Hin%list_elem_of_In. rewrite elem_of_sort_strings in Hin.
    apply list_elem_of_fmap in Hin as ([k' e]&->&Hin). apply elem_of_map_to_list in Hin. by eexists. }
  induction Hall as [|k ks [e He] _ IH]; [done|]. simpl. rewrite He. simpl. f_equal; [by apply Hk|apply IH].
Qed.

Definition merge_child (abs : gostr) (es : gmap gostr (DirEntry W)) (child : gostr) : gmap gostr (DirEntry W) :=
  match es !! child with
  | Some _ => es
  | None => let info := syntheticDirInfo (joinChildPath abs child) in <[child := MkEntry (fi_Name info) (mode_Type (fi_Mode info)) (mret info)]> es
  end.
Lemma base_entries_values (base : list (DirEntry W)) (es : gmap gostr (DirEntry W)) k e :
  foldl (fun es e => <[de_Name e := e]> es) es base !! k = Some e → es !! k = Some e ∨ e ∈ base.
Proof.
  revert es. induction base as [|x base IH]; intros es; cbn [foldl]; [by left|].
  intros [[[_ <-]|[_ Hl]]%lookup_insert_Some|Hin]%IH; [right; left|by left|right; by right].
Qed.
Lemma merge_children_values (abs : gostr) (children : list gostr) (es : gmap gostr (DirEntry W)) k e :
  foldl (merge_child abs) es children !! k = Some e → es !! k = Some e ∨ (es !! k = None ∧ de_Type e = ModeDir).
Proof.
  revert es. induction children as [|c children IH]; intros es; cbn [foldl]; [by left|]. intros Hx%IH. revert Hx. unfold merge_child.
  destruct (es !! c) as [x|] eqn:E; [done|]. cbv zeta. destruct (decide (c = k)) as [->|Hne].
  - rewrite lookup_insert_eq. intros [[= <-]|[? _]]; [|done]. right. split; [done|]. by vm_compute.
  - by rewrite lookup_insert_ne.
Qed.

(** The listing of the directory [cs] above mount points, when the base has the entries [base] there. *)
Lemma merged_listing (m : MountableFS F) cs (base : list (DirEntry W)) : table_ok m → valid_comps cs →
  let es := sorted_entries (merge_entries (render cs) base (childMountNames m (render cs))) in
  increasing (map de_Name es) ∧
  (∀ n, n ∈ map de_Name es ↔ n ∈ map de_Name base ∨ ∃ rs, valid_comps (cs ++ n :: rs) ∧ is_Some (mf_mounts m !! render (cs ++ n :: rs))) ∧
  ∀ e, e ∈ es → e ∈ base ∨ (de_Name e ∉ map de_Name base) ∧ de_Type e = ModeDir.
Proof.
  intros Hok Hcs. cbv zeta. set (children := childMountNames m (render cs)).
  assert (Forall (fun c => valid_comp c) children) as Hch.
  { apply Forall_forall. intros c Hc%list_elem_of_In. apply elem_of_childMountNames in Hc as (rs&Hv&_); [|done..].
    apply Forall_app in Hv as [_ Hv]. by inversion Hv. }
  unfold merge_entries. destruct (base_entries_keyed base ∅) as [K1 K2]; [by intros k e0; rewrite lookup_empty|].
  destruct (merge_children_keyed cs children _ Hcs Hch K1) as [K3 K4].
  pose proof (merge_children_values (render cs) children (foldl (fun es e => <[de_Name e := e]> es) ∅ base)) as K5. unfold merge_child in K5. cbv zeta in K5.
  set (all := foldl _ (foldl _ _ _) _) in *. rewrite sorted_entries_names by done. split_and!.
  - apply sort_strings_increasing, NoDup_fst_map_to_list.
  - intros n. rewrite elem_of_sort_strings.
    assert (n ∈ (map_to_list all).*1 ↔ is_Some (all !! n)) as ->.
    { rewrite list_elem_of_fmap. split.
      - intros ([k e]&->&Hin%elem_of_map_to_list). by eexists.
      - intros [e He]. exists (n, e). split; [done|by apply elem_of_map_to_list]. }
    rewrite K4, K2. unfold children. rewrite elem_of_childMountNames by done.
    assert (¬ is_Some ((∅ : gmap gostr (DirEntry W)) !! n)) by (intros [e He]; by rewrite lookup_empty in He). tauto.
  - intros e (k&_&Hk)%list_elem_of_omap. pose proof (K3 k e Hk) as Hname. destruct (K5 k e Hk) as [Hb|[Hb Ht]].
    + left. apply base_entries_values in Hb as [Hb|]; [by rewrite lookup_empty in Hb|done].
    + right. split; [|done]. intros Hin. rewrite Hname in Hin. destruct (proj2 (K2 k) (or_intror Hin)) as [x Hx]. by rewrite Hx in Hb.
Qed.

(** C20: listing a directory above mount points asks the base for that directory once and fails as the base does,
    except that a base which has no such directory counts as an empty one: in these cases it always succeeds,
    with, in strictly increasing order, the names that the base has there and the next components of the mount
    points below it, and no others; the entries are those of the base, and directories where it has none. *)
Theorem Mountable_ReadDir_merges (m : MountableFS F) name w : table_ok m →
  isSyntheticParentLocked m (mnt_resolve m name) = true →
  ∃ cs, valid_comps cs ∧ mnt_resolve m name = render cs ∧
  let '(answer, w') := op_ReadDir (mf_base m) (render cs) w in
  let listing base := ∃ es, Mountable_ReadDir m name w = (Ok es, w') ∧ increasing (map de_Name es) ∧
    (∀ n, n ∈ map de_Name es ↔ n ∈ map de_Name base ∨ ∃ rs, valid_comps (cs ++ n :: rs) ∧ is_Some (mf_mounts m !! render (cs ++ n :: rs))) ∧
    ∀ e, e ∈ es → e ∈ base ∨ (de_Name e ∉ map de_Name base) ∧ de_Type e = ModeDir in
  match answer with
  | Ok base => listing base
  | Err err => if errors_Is err ErrNotExist then listing [] else Mountable_ReadDir m name w = (Err err, w')
  end.
Proof.
  intros Hok Hs. destruct (mnt_resolve_clean m name Hok) as (cs&Hcs&E). exists cs. split; [done|]. split; [done|].
  unfold Mountable_ReadDir. cbv zeta. rewrite Hs, E in *.
  pose proof (synthetic_in_base m (render cs) Hok (ex_intro _ cs (conj Hcs eq_refl)) Hs) as Hn.
  destruct (routeLocked m (render cs)) as [[e|] rel]; [done|]. cbn [negb].
  unfold or_synthetic, attempt_, mbind, act_bind. destruct (op_ReadDir (mf_base m) (render cs) w) as [[base|err] w'].
  - eexists. split; [reflexivity|]. by apply merged_listing.
  - destruct (errors_Is err ErrNotExist); [|done]. eexists. split; [reflexivity|]. by apply merged_listing.
Qed.
End listing.
