(* ===== verification/MemoryMounts.v ===== *)
(** In-memory filesystems behind the interface of [FileSystem], so that [MountableFS] runs over
    them; the law of the interface holds, and the theorems on mounts are applied. *)
From S2P Require Import FileSystem.
From S2P Require Import Prelude GoPath FsTypes MemoryFS FileSystem Mountable MountableProps.

(** The filesystems of a process and its open files, which remember their filesystem. *)
Record world := World {
  wd_fs : gmap positive MemoryFS;
  wd_files : gmap positive openFile;
  wd_next : positive;
}.

Abbreviation fs_ref := positive.
Definition file_ref : Type := fs_ref * positive.

Definition set_fs (v : gmap positive MemoryFS) (w : world) : world := World v (wd_files w) (wd_next w).
Definition set_files (v : gmap positive openFile) (w : world) : world := World (wd_fs w) v (wd_next w).

(** Runs [c] on the filesystem [f]. *)
Definition on_fs {A} (f : fs_ref) (c : M A) : act world A := fun w =>
  match wd_fs w !! f with
  | None => (Err EPanic, w)
  | Some m => let '(r, m') := c m in (r, set_fs (<[f := m']> (wd_fs w)) w)
  end.

Definition register (f : fs_ref) (file : openFile) : act world file_ref := fun w =>
  (Ok (f, wd_next w), World (wd_fs w) (<[wd_next w := file]> (wd_files w)) (Pos.succ (wd_next w))).

(** A call on an open file, which moves it.  The ends of named pipes are in [FifoSystem]; a copy
    opens regular files only. *)
Definition on_file {A} (h : file_ref) (c : memoryFile → M (A * memoryFile)) : act world A := fun w =>
  match wd_files w !! h.2 with
  | Some (MemFile f) =>
      let '(r, w) := on_fs h.1 (c f) w in
      match r with
      | Ok (a, f) => (Ok a, set_files (<[h.2 := MemFile f]> (wd_files w)) w)
      | Err e => (Err e, w)
      end
  | _ => (Err (EForeign 0), w)
  end.

Section memory.
Context (provider : nat → result error gostr) (now : time).

(** [memoryFile.WriteTo], which [io.Copy] calls: 32 KiB at a time; [fuel] bounds the rounds. *)
Fixpoint file_WriteTo (fuel : nat) (reader writer : file_ref) (total : Z) : act world Z :=
  match fuel with
  | O => fail (ESent ErrFuel)
  | S fuel =>
      r ← attempt_ (on_file reader (fun f => file_Read provider f (Z.to_nat 32768)));
      match r with
      | Err err => if errors_Is err ErrEOF then mret total else fail err
      | Ok bytes =>
          if decide (bytes = []) then file_WriteTo fuel reader writer total
          else
            n ← on_file writer (fun f => file_Write provider now f bytes);
            if negb (n =? glen bytes) then fail (ESent ErrShortWrite)
            else file_WriteTo fuel reader writer (total + n)
      end
  end.

Definition copy_rounds : nat := Z.to_nat 4096.

Definition memory_entry (f : fs_ref) (abs : gostr) (e : gostr * N) : DirEntry world :=
  MkEntry e.1 (mode_Type e.2)
    (info ← on_fs f (Lstat provider (joinClean abs e.1)); mret (to_FileInfo info)).

Definition memory_FileSystem : FileSystem world fs_ref file_ref := {|
  op_Open := fun f n => file ← on_fs f (Open provider now n); register f file;
  op_OpenFile := fun f n flag perm => file ← on_fs f (OpenFile provider now n flag perm); register f file;
  op_Close := fun h w =>
    (Ok tt, set_files (alter (fun file => match file with MemFile f => MemFile (file_Close f) | _ => file end) h.2
                         (wd_files w)) w);
  op_Copy := fun writer reader => _ ← file_WriteTo copy_rounds reader writer 0; mret tt;
  op_Stat := fun f n => info ← on_fs f (Stat provider n); mret (to_FileInfo info);
  op_Lstat := fun f n => info ← on_fs f (Lstat provider n); mret (to_FileInfo info);
  op_ReadDir := fun f n =>
    entries ← on_fs f (ReadDir n);
    abs ← on_fs f (Realpath n);   (* the path that [ReadDir] resolved *)
    mret (map (memory_entry f abs) entries);
  op_Readlink := fun f n => on_fs f (Readlink n);
  op_Realpath := fun f n => on_fs f (Realpath n);
  op_Symlink := fun f target n => on_fs f (Symlink now target n);
  op_Link := fun f o n => on_fs f (Link now o n);
  op_Chown := fun f n u g follow => on_fs f (Chown n u g follow);
  op_Chmod := fun f n mode => on_fs f (Chmod now n mode);
  op_Chtimes := fun f n a t => on_fs f (Chtimes now n a t);
  op_MkdirAll := fun f n perm => on_fs f (MkdirAll now n perm);
  op_Remove := fun f n recursive => on_fs f (Remove n recursive);
  op_Rename := fun f o n => on_fs f (Rename now o n);
  op_Getwd := fun f w => match wd_fs w !! f with Some m => Getwd m | None => [] end;
  op_Chdir := fun f n => on_fs f (Chdir n);
  op_Lchtimes := fun f => Some (fun n a t => on_fs f (Lchtimes now n a t));
  op_Mkfifo := fun f => Some (fun n perm => on_fs f (Mkfifo now n perm));
|}.

(** ** The law *)

(** What a filesystem holds. *)
Definition held (f : fs_ref) (w : world) : option MemoryFS := wd_fs w !! f.

(** The calls that leave every filesystem but [f] alone. *)
Definition local {A} (f : fs_ref) (c : act world A) : Prop := ∀ w g, g ≠ f → held g (c w).2 = held g w.

Lemma local_on_fs {A} f (c : M A) : local f (on_fs f c).
Proof.
  intros w g Hg. unfold on_fs. destruct (wd_fs w !! f) as [m|]; [|done]. destruct (c m) as [r m'].
  unfold held. simpl. by rewrite lookup_insert_ne.
Qed.

Lemma local_bind {A B} f (c : act world A) (k : A → act world B) :
  local f c → (∀ a, local f (k a)) → local f (c ≫= k).
Proof.
  intros Hc Hk w g Hg. specialize (Hc w g Hg). unfold mbind, act_bind. destruct (c w) as [[a|e] w']; [|done].
  by rewrite (Hk a w' g Hg).
Qed.

Lemma local_ret {A} f (a : A) : local f (mret a).
Proof. done. Qed.

Lemma local_fail {A} f e : local f (@fail world A e).
Proof. done. Qed.

Lemma local_register f g file : local f (register g file).
Proof. done. Qed.

Lemma local_on_file {A} f h (c : memoryFile → M (A * memoryFile)) : h.1 = f → local f (on_file h c).
Proof.
  intros <- w g Hg. unfold on_file. destruct (wd_files w !! h.2) as [[mf|]|]; [|done..].
  pose proof (local_on_fs h.1 (c mf) w g Hg) as Hl. destruct (on_fs h.1 (c mf) w) as [[[a mf']|e] w']; done.
Qed.

Lemma held_WriteTo fuel r wr total w g : g ≠ r.1 → g ≠ wr.1 → held g (file_WriteTo fuel r wr total w).2 = held g w.
Proof.
  intros Hr Hw. revert total w. induction fuel as [|fuel IH]; intros total w; [done|]. cbn [file_WriteTo].
  unfold mbind at 1, act_bind at 1, attempt_ at 1.
  pose proof (local_on_file r.1 r (fun f => file_Read provider f (Z.to_nat 32768)) eq_refl w g Hr) as H1.
  destruct (on_file r _ w) as [[bytes|err] w1]; simpl in H1; cbv beta iota zeta.
  - case_decide; [by rewrite IH|]. unfold mbind, act_bind.
    pose proof (local_on_file wr.1 wr (fun f => file_Write provider now f bytes) eq_refl w1 g Hw) as H2.
    destruct (on_file wr _ w1) as [[n|e] w2]; simpl in H2; [|simpl; congruence].
    destruct (negb _); [simpl; congruence|]. rewrite IH. congruence.
  - by destruct (errors_Is err ErrEOF).
Qed.

Lemma held_copy (writer reader : file_ref) w g : g ≠ writer.1 → g ≠ reader.1 →
  held g ((_ ← file_WriteTo copy_rounds reader writer 0; mret tt) w).2 = held g w.
Proof.
  intros Hw Hr. generalize copy_rounds. intros fuel. unfold mbind, act_bind.
  pose proof (held_WriteTo fuel reader writer 0 w g Hr Hw) as H.
  by destruct (file_WriteTo fuel reader writer 0 w) as [[n|e] w1].
Qed.

#[local] Instance this_FileSystem : FileSystem world fs_ref file_ref := memory_FileSystem.

Lemma local_call f A (c : act world A) : fs_call f A c → local f c.
Proof.
  destruct 1; simpl; try apply local_on_fs; try (apply local_bind; [apply local_on_fs|intros ?]);
    try apply local_ret; try apply local_register.
  - apply local_bind; [apply local_on_fs|intros ?; apply local_ret].
  - injection H as <-. apply local_on_fs.
  - injection H as <-. apply local_on_fs.
Qed.

Program Definition memory_FileSystemLaws : FileSystemLaws world fs_ref file_ref (option MemoryFS) := {|
  contents := held;
  owner := fst;
|}.
Next Obligation. intros f A c w g Hc Hg. exact (local_call f A c Hc w g Hg). Qed.
Next Obligation.
  intros f n w h w' Hh. simpl in Hh. apply act_bind_Ok in Hh as (file&w1&_&Hh). by injection Hh as <- _.
Qed.
Next Obligation.
  intros f n flag perm w h w' Hh. simpl in Hh. apply act_bind_Ok in Hh as (file&w1&_&Hh). by injection Hh as <- _.
Qed.
Next Obligation. done. Qed.
Next Obligation. intros h k w g Hh Hk. exact (held_copy h k w g Hh Hk). Qed.
Next Obligation.
  intros f n w es w' Hes. simpl in Hes. apply act_bind_Ok in Hes as (l&w1&_&Hes).
  apply act_bind_Ok in Hes as (abs&w2&_&Hes). injection Hes as <- _.
  apply Forall_forall. intros e He. apply in_map_iff in He as (x&<-&_). intros w0 g Hg. simpl.
  apply (local_bind f); [apply local_on_fs|intros ?; apply local_ret|done].
Qed.
End memory.

(** ** Examples: a base and two mounts *)

Definition no_provider (p : nat) : result error gostr := Err (EForeign 0).

#[local] Instance demo_FileSystem : FileSystem world fs_ref file_ref := memory_FileSystem no_provider 7.
#[local] Instance demo_Laws : FileSystemLaws world fs_ref file_ref (option MemoryFS) :=
  memory_FileSystemLaws no_provider 7.

Definition demo_base : MemoryFS := (MkdirAll 7 (go "/mnt/z") 493 (NewMemory 1)).2.
Definition demo_world : world :=
  World (<[1%positive := demo_base]> (<[2%positive := NewMemory 1]> (<[3%positive := NewMemory 1]> ∅))) ∅ 1.

Definition demo_table : MountableFS fs_ref :=
  MkMountable 1%positive root_path
    (<[go "/mnt/b" := MkMounted (go "/mnt/b") 3%positive]> (<[go "/mnt/a" := MkMounted (go "/mnt/a") 2%positive]> ∅)).

Lemma demo_table_reachable :
  rtc (mount_step (H := file_ref) (H0 := demo_FileSystem)) (NewMountable 1%positive, demo_world) (demo_table, demo_world).
Proof.
  eapply rtc_l; [by apply (StepMount (go "/mnt/a") (Some 2%positive))|].
  eapply rtc_once. by apply (StepMount (go "/mnt/b") (Some 3%positive)).
Qed.

Lemma demo_table_ok : table_ok demo_table.
Proof. exact (mount_reachable_ok (H0 := demo_FileSystem) 1%positive demo_world _ demo_table_reachable). Qed.

Lemma mounts_route_uniquely_witness :
  routeLocked demo_table (go "/mnt/a/x") = (Some (MkMounted (go "/mnt/a") 2%positive), go "/x") ∧
  ∃ cs, mnt_resolve demo_table (go "mnt/a/x") = render cs.
Proof.
  split; [vm_compute; reflexivity|].
  destruct (mounts_route_uniquely (H0 := demo_FileSystem) 1%positive demo_world (demo_table, demo_world)
    (go "mnt/a/x") (entries_of demo_table) demo_table_reachable (Permutation_refl _)) as (cs&_&E&_).
  exists cs. exact E.
Defined.

Lemma mounts_translate_paths_witness :
  prefixMountPath (go "/mnt/a") (go "/x") = go "/mnt/a/x" ∧
  namespaceError (EPath (go "open") (go "/x") (ESent ErrNotExist)) (go "/mnt/a") =
    EPath (go "open") (go "/mnt/a/x") (ESent ErrNotExist).
Proof.
  destruct (mounts_translate_paths (H0 := demo_FileSystem) demo_table (go "/mnt/a/x")
    (MkMounted (go "/mnt/a") 2%positive) (go "/x") demo_table_ok) as (H1&H2&_); [vm_compute; reflexivity|].
  split; [exact H1|exact (H2 (go "open") (ESent ErrNotExist))].
Defined.

(** A rename from one mount to the other leaves the base alone. *)
Lemma mounts_isolated_witness :
  held 1%positive (run_mount_op demo_table (MRename 5 (go "/mnt/a/x") (go "/mnt/b/y")) demo_world).2 =
  held 1%positive demo_world.
Proof.
  apply (mounts_isolated (H1 := demo_Laws) demo_table (MRename 5 (go "/mnt/a/x") (go "/mnt/b/y"))
    demo_world 1%positive demo_table_ok).
  apply (bool_decide_unpack _). vm_compute. exact I.
Defined.

(** A base that has no directory below the mounts. *)
Definition bare_world : world :=
  World (<[1%positive := NewMemory 1]> (<[2%positive := NewMemory 1]> (<[3%positive := NewMemory 1]> ∅))) ∅ 1.
Lemma Mountable_ReadDir_merges_witness :
  (∃ es w', Mountable_ReadDir demo_table (go "/mnt") demo_world = (Ok es, w') ∧ increasing (map de_Name es) ∧ map de_Name es = [go "a"; go "b"; go "z"]) ∧
  (∃ es w', Mountable_ReadDir demo_table (go "/mnt") bare_world = (Ok es, w') ∧ map de_Name es = [go "a"; go "b"] ∧ ∀ e, e ∈ es → de_Type e = ModeDir).
Proof.
  assert (isSyntheticParentLocked demo_table (mnt_resolve demo_table (go "/mnt")) = true) as Hs by (vm_compute; reflexivity).
  assert (∀ w es w' l, match Mountable_ReadDir (H0 := demo_FileSystem) demo_table (go "/mnt") w with (Ok es, _) => map de_Name es | _ => [] end = l →
    Mountable_ReadDir (H0 := demo_FileSystem) demo_table (go "/mnt") w = (Ok es, w') → map de_Name es = l) as Hnames by (intros w es w' l Hl Hr; rewrite Hr in Hl; exact Hl).
  split.
  - destruct (Mountable_ReadDir_merges demo_table (go "/mnt") demo_world demo_table_ok Hs) as (cs&_&E&Hl).
    assert (is_ok (op_ReadDir (FileSystem := demo_FileSystem) (mf_base demo_table) (mnt_resolve demo_table (go "/mnt")) demo_world).1 = true) as Hok by (vm_compute; reflexivity).
    rewrite <- E in Hl. destruct (op_ReadDir _ _ demo_world) as [[base|err] w']; [|discriminate Hok]. destruct Hl as (es&Hr&Hi&_). exists es, w'.
    split; [exact Hr|]. split; [exact Hi|]. apply (Hnames demo_world es w'); [vm_compute; reflexivity|exact Hr].
  - destruct (Mountable_ReadDir_merges demo_table (go "/mnt") bare_world demo_table_ok Hs) as (cs&_&E&Hl).
    assert (match (op_ReadDir (FileSystem := demo_FileSystem) (mf_base demo_table) (mnt_resolve demo_table (go "/mnt")) bare_world).1 with
      Ok _ => false | Err err => errors_Is err ErrNotExist end = true) as Hno by (vm_compute; reflexivity).
    rewrite <- E in Hl. destruct (op_ReadDir _ _ bare_world) as [[base|err] w']; [discriminate Hno|]. cbn [fst] in Hno. rewrite Hno in Hl.
    destruct Hl as (es&Hr&_&_&Ht). exists es, w'. split; [exact Hr|]. split; [apply (Hnames bare_world es w'); [vm_compute; reflexivity|exact Hr]|].
    intros e He. destruct (Ht e He) as [Hb|[_ Hd]]; [destruct (not_elem_of_nil _ Hb)|exact Hd].
Defined.
