(* ===== verification/Clone.v ===== *)
(** Copying nodes into an in-memory filesystem: [fs/clone.go]. *)
From S2P Require Import Prelude GoPath FsTypes MemoryFS FileSystem.

Section clone.
Context {L H : Type} `{ReadFS L H}.
Variable provider : nat → result error gostr.   (* of the destination's lazy files *)
Variable now : time.

Definition owner_or_default (info : FileInfo) : N * N := default (DefaultOwnerUID, DefaultOwnerGID) (fi_Ownership info).

Definition chown_if (info : FileInfo) (name : gostr) (follow : bool) : M unit :=
  match fi_Ownership info with Some (uid, gid) => Chown name uid gid follow | None => mret tt end.

(** [cloneDirNode]. *)
Definition cloneDirNode (dstName : gostr) (info : FileInfo) : M unit :=
  if negb (info_IsDir info) then throw_path "mkdir" dstName (ESent ErrInvalid)
  else
    MkdirAll now dstName (mode_Perm (fi_Mode info));;
    Chmod now dstName (fi_Mode info);;
    chown_if info dstName false;;
    if fi_ModTime info =? 0 then mret tt else Lchtimes now dstName (fi_ModTime info) (fi_ModTime info).

(** [cloneLazyFile]; [source] names the provider. *)
Definition cloneLazyFile (dstName : gostr) (info : FileInfo) (source : nat) : M unit :=
  if negb (info_regular info) then throw_path "open" dstName (ESent ErrInvalid)
  else
    let modTime := if fi_ModTime info =? 0 then now else fi_ModTime info in
    m ← get;
    if decide (is_Some (nodes m !! dstName)) then throw_path "open" dstName (ESent ErrExist)
    else
      ensureParentLocked now "open" dstName;;
      id ← newNodeIDLocked;
      let '(uid, gid) := owner_or_default info in
      l ← alloc (MkNode id (N.land (fi_Mode info) storedPermBits) [] None (Some source) (fi_Size info) true []
                   None modTime modTime uid gid);
      attach dstName l.

(** [cloneSpecialFile]. *)
Definition cloneSpecialFile (dstName : gostr) (info : FileInfo) : M unit :=
  let modTime := if fi_ModTime info =? 0 then now else fi_ModTime info in
  mkdirAllLocked now (parentDir dstName) 493;;
  id ← newNodeIDLocked;
  f ← (if has_bits (fi_Mode info) ModeNamedPipe then f ← newMemoryFIFO; mret (Some f) else mret None);
  let '(uid, gid) := owner_or_default info in
  l ← alloc (MkNode id (N.land (fi_Mode info) (N.lor storedPermBits seedableTypeBits)) [] f None 0 false [] None
               modTime modTime uid gid);
  attach dstName l.

(** [cloneFile]: the bytes are copied in one write.  The destination is a new path, hence no FIFO. *)
Definition cloneFile (src : L) (srcName dstName : gostr) (mode : N) : M unit :=
  reader ← lift (rd_OpenFile src srcName O_RDONLY 0);
  info ← lift (rd_Stat src srcName);
  writer ← OpenFile provider now dstName (N.lor O_CREATE (N.lor O_WRONLY O_TRUNC)) (mode_Perm mode);
  let '(data, err) := rd_ReadAll src reader in
  (match writer with
   | MemFile f => if decide (data = []) then mret tt else _ ← file_Write provider now f data; mret tt
   | FifoFile _ _ _ => throw (EForeign 0)
   end);;
  match err with
  | Some err => throw err
  | None => Chmod now dstName mode;; chown_if info dstName true
  end.

(** [clonePathWithInfo]; [fuel] bounds the depth of the source. *)
Fixpoint clonePathWithInfo (fuel : nat) (src : L) (srcName : gostr) (info : option FileInfo) (dstName : gostr)
    {struct fuel} : M unit :=
  match fuel with
  | O => throw (ESent ErrFuel)
  | S fuel =>
      info ← lift (match info with Some info => Ok info | None => rd_Lstat src srcName end);
      let absDst := Clean dstName in
      if info_symlink info then
        target ← lift (rd_Readlink src srcName);
        Symlink now target absDst;;
        chown_if info absDst false
      else if info_IsDir info then
        MkdirAll now absDst (mode_Perm (fi_Mode info));;
        chown_if info absDst false;;
        entries ← lift (rd_ReadDir src srcName);
        foldr (fun entry rest =>
          let childInfo := if has_bits (en_Type entry) ModeSymlink then None
                           else match en_Info entry with Ok i => Some i | Err _ => None end in
          clonePathWithInfo fuel src (joinChildPath (Clean srcName) (en_Name entry)) childInfo
            (joinChildPath absDst (en_Name entry));;
          rest) (mret tt) entries
      else if negb (N.land (fi_Mode info) ModeType =? 0)%N then cloneSpecialFile absDst info
      else cloneFile src srcName absDst (fi_Mode info)
  end.

Definition clonePath (fuel : nat) (src : L) (srcName dstName : gostr) : M unit :=
  clonePathWithInfo fuel src srcName None dstName.
End clone.
