(* ===== verification/MemoryFSLazy.v ===== *)
(** Lazy files whose size is known: an in-memory filesystem that has no others, as the upper layer of
    an overlay, keeps it so, and asking it for metadata changes nothing. *)
From S2P Require Import Prelude GoPath FsTypes FileSystem MemoryFS MemoryFSWf MemoryFSInv MemoryFSTree.
From S2P Require Import MemoryFSOps MemoryFSMove MemoryFSSafe FileSystem Clone.

Definition lazy_ok (n : memoryNode) : Prop := n_lazy n = None ∨ n_lazySized n = true.

Definition sized (m : MemoryFS) : Prop := ∀ l n, heap m !! l = Some n → lazy_ok n.

(** A computation that keeps it so, whatever it returns. *)
Definition sizing {A} (c : M A) : Prop := ∀ m, sized m → sized (c m).2.

Create HintDb sizing.

Lemma sized_insert m l n : sized m → lazy_ok n → sized (set_heap (<[l := n]> (heap m)) m).
Proof. intros Hm Hn l' n'. simpl. intros [[-> <-]|[_ ?]]%lookup_insert_Some; [done|by eapply Hm]. Qed.

Lemma sizing_bind {A B} (c : M A) (f : A → M B) : sizing c → (∀ a, sizing (f a)) → sizing (c ≫= f).
Proof.
  intros Hc Hf m Hm. unfold mbind, M_bind. specialize (Hc m Hm). destruct (c m) as [[a|e] m']; [|done]. by apply Hf.
Qed.

Lemma sizing_pure {A} (c : M A) : (∀ m, (c m).2 = m) → sizing c.
Proof. intros H m. by rewrite H. Qed.

Lemma sizing_modify f : (∀ m, heap (f m) = heap m) → sizing (modify f).
Proof. intros H m Hm l n. simpl. rewrite H. apply Hm. Qed.

Lemma sizing_newNodeID : sizing newNodeIDLocked.
Proof. by intros m. Qed.

Lemma sizing_newFIFO : sizing newMemoryFIFO.
Proof. by intros m. Qed.

Lemma sizing_alloc n : lazy_ok n → sizing (alloc n).
Proof. intros Hn m Hm l n'. simpl. intros [[_ <-]|[_ ?]]%lookup_insert_Some; [done|by eapply Hm]. Qed.

Lemma sizing_update l f : (∀ n, lazy_ok n → lazy_ok (f n)) → sizing (update_node l f).
Proof.
  intros Hf m Hm. unfold update_node. destruct (heap m !! l) as [n|] eqn:E; [|done].
  apply sized_insert; [done|]. by eapply Hf, Hm.
Qed.

Lemma sizing_add_child_loc l c : sizing (add_child_loc l c).
Proof.
  intros m Hm. unfold add_child_loc. destruct (heap m !! l) as [n|] eqn:E; [|done].
  destruct (n_children n); [|done]. apply sized_insert; [done|]. exact (Hm _ _ E).
Qed.

Lemma sizing_add_child d c : sizing (add_child d c).
Proof. intros m Hm. unfold add_child. destruct (nodes m !! d) as [l|]; [by apply sizing_add_child_loc|done]. Qed.

Lemma sizing_del_child d c : sizing (del_child d c).
Proof.
  intros m Hm. unfold del_child. destruct (nodes m !! d) as [l|]; [|done].
  destruct (heap m !! l) as [n|] eqn:E; [|done]. apply sized_insert; [done|]. exact (Hm _ _ E).
Qed.

Lemma sizing_load l : sizing (load l).
Proof. apply sizing_pure. intros m. unfold load. by destruct (heap m !! l). Qed.

Lemma sizing_resolve n ff : sizing (resolve_existing n ff).
Proof. apply sizing_pure. intros m. unfold resolve_existing. by destruct (resolvePathLocked m n ff false) as [[? [?|]]|?]. Qed.

Lemma sizing_attempt {A} (c : M A) : sizing c → sizing (attempt c).
Proof. intros H m Hm. unfold attempt. specialize (H m Hm). by destruct (c m). Qed.

Lemma sizing_rebuild : sizing rebuildDirectoryChildrenLocked.
Proof.
  intros m Hm l n. rewrite rebuild_lookup. destruct (heap m !! l) as [n0|] eqn:E; [|done]. simpl.
  repeat case_match; intros [= <-]; exact (Hm _ _ E).
Qed.

#[export] Hint Resolve sizing_newNodeID sizing_newFIFO sizing_add_child_loc sizing_add_child sizing_del_child sizing_load sizing_resolve
  sizing_attempt sizing_rebuild : sizing.

Ltac sizing_step := first
  [ apply sizing_bind; [|intros]
  | apply sizing_pure; done
  | apply sizing_modify; done
  | apply sizing_attempt
  | apply sizing_alloc; solve [by left|by right]
  | apply sizing_update; solve [intros ? Hlazy; first [exact Hlazy|by left]]
  | solve [eauto with sizing]
  | case_match ].
Ltac sizing := repeat sizing_step.

Lemma sizing_mkdir_loop n now cur rem perm : sizing (mkdir_loop n now cur rem perm).
Proof. revert cur rem perm. induction n as [|n IH]; intros cur rem perm; simpl; sizing; apply IH. Qed.
#[export] Hint Resolve sizing_mkdir_loop : sizing.

Section ops.
Variable provider : nat → result error gostr.
Variable now : time.

Lemma sizing_mkdirAll p perm : sizing (mkdirAllLocked now p perm).
Proof. unfold mkdirAllLocked. sizing. Qed.

Lemma sizing_ensureParent op p : sizing (ensureParentLocked now op p).
Proof. pose proof sizing_mkdirAll. unfold ensureParentLocked. sizing. Qed.

Lemma sizing_attach p l : sizing (attach p l).
Proof. unfold attach, bind_path. sizing. Qed.

Lemma sizing_materializeNode l : sizing (materializeNode provider l).
Proof. unfold materializeNode. sizing. Qed.

Lemma sizing_materializePath p ff mo : sizing (materializePath provider p ff mo).
Proof. pose proof sizing_materializeNode. unfold materializePath. sizing. Qed.

Lemma sizing_open_node p l created flag : sizing (open_node now p l created flag).
Proof. unfold open_node. sizing. Qed.

#[local] Hint Resolve sizing_mkdirAll sizing_ensureParent sizing_attach sizing_materializeNode
  sizing_materializePath sizing_open_node : sizing.

Lemma sizing_open_create p flag perm : sizing (open_create now p flag perm).
Proof. unfold open_create. sizing. Qed.
#[local] Hint Resolve sizing_open_create : sizing.

Lemma sizing_OpenFile name flag perm : sizing (OpenFile provider now name flag perm).
Proof. unfold OpenFile. sizing. Qed.

Lemma sizing_file_Write f p : sizing (file_Write provider now f p).
Proof. unfold file_Write. sizing. Qed.

Lemma sizing_Lstat name : sizing (Lstat provider name).
Proof. unfold Lstat, stat_path. sizing. Qed.

Lemma sizing_ReadDir name : sizing (ReadDir name).
Proof. unfold ReadDir. sizing. Qed.

Lemma sizing_Readlink name : sizing (Readlink name).
Proof. unfold Readlink. sizing. Qed.

Lemma sizing_Chmod name mode : sizing (Chmod now name mode).
Proof. unfold Chmod, update_meta, bind_path. sizing. Qed.

Lemma sizing_Chown name u g ff : sizing (Chown name u g ff).
Proof. unfold Chown, update_meta, bind_path. sizing. Qed.

Lemma sizing_Chtimes name a t : sizing (Chtimes now name a t).
Proof. unfold Chtimes, times_or_now, update_meta, bind_path. sizing. Qed.

Lemma sizing_Lchtimes name a t : sizing (Lchtimes now name a t).
Proof. unfold Lchtimes, times_or_now, update_meta, bind_path. sizing. Qed.

Lemma sizing_Symlink t n : sizing (Symlink now t n).
Proof. unfold Symlink. sizing. Qed.

Lemma sizing_Link a b : sizing (Link now a b).
Proof. unfold Link. sizing. Qed.

Lemma sizing_Mkfifo a p : sizing (Mkfifo now a p).
Proof. unfold Mkfifo, bind_path. sizing. Qed.

Lemma sizing_Remove a r : sizing (Remove a r).
Proof. unfold Remove. sizing. Qed.

Lemma sizing_Rename a b : sizing (Rename now a b).
Proof. unfold Rename. sizing. Qed.

Lemma sizing_MkdirAll a p : sizing (MkdirAll now a p).
Proof. unfold MkdirAll. sizing. Qed.

#[local] Hint Resolve sizing_MkdirAll sizing_Chmod sizing_Chown sizing_Lchtimes sizing_Symlink sizing_OpenFile
  sizing_file_Write : sizing.

Lemma sizing_cloneDirNode p info : sizing (cloneDirNode now p info).
Proof. unfold cloneDirNode, chown_if. sizing. Qed.

Lemma sizing_cloneLazyFile p info src : sizing (cloneLazyFile now p info src).
Proof. unfold cloneLazyFile. sizing. Qed.

Lemma sizing_cloneSpecialFile p info : sizing (cloneSpecialFile now p info).
Proof. unfold cloneSpecialFile. sizing. Qed.
End ops.
#[export] Hint Resolve sizing_OpenFile sizing_Lstat sizing_ReadDir sizing_Readlink sizing_Chmod sizing_Chown sizing_Chtimes
  sizing_Lchtimes sizing_Symlink sizing_Link sizing_Mkfifo sizing_Remove sizing_Rename sizing_MkdirAll sizing_cloneDirNode
  sizing_cloneLazyFile sizing_cloneSpecialFile : sizing.

(** Metadata without loading: the answer is what the resolved node says, the state is untouched. *)
Lemma Lstat_sized provider name m : wf m → sized m →
  Lstat provider name m =
  (match resolvePathLocked m name false false with
   | Ok (abs, Some l) =>
       match heap m !! l with Some n => Ok (newFileInfo (path_Base abs) n) | None => Err EPanic end
   | Ok (_, None) => Err EPanic
   | Err err => Err (EPath (go "lstat") (Resolve (cwd m) name) err)
   end, m).
Proof.
  intros Hwf Hsz. unfold Lstat, stat_path, materializePath, mbind, M_bind, get, attempt, resolve_existing.
  pose proof (resolveAbs_hops_spec (S maxSymlinkDepth) m (Resolve (cwd m) name) false false Hwf) as Hr.
  change (resolveAbs_hops (S maxSymlinkDepth) m (Resolve (cwd m) name) false false)
    with (resolvePathLocked m name false false) in Hr.
  destruct (resolvePathLocked m name false false) as [[abs [l|]]|err]; simpl in Hr; [|naive_solver|done].
  destruct Hr as [Hl _]. destruct (wf_key m Hwf _ _ Hl) as [_ [n Hn]].
  unfold lift, load, mret, M_ret. rewrite Hn.
  assert (negb (isLazyFileNode n) || (true && n_lazySized n) = true) as ->.
  { destruct (Hsz l n Hn) as [E| ->]; [|apply orb_true_r]. unfold isLazyFileNode. by rewrite E, bool_decide_eq_false_2 by tauto. }
  by rewrite Hl, Hn.
Qed.
