(* ===== verification/Overlay.v ===== *)
(** The copy-on-write filesystem of [fs/overlay.go]: an in-memory upper layer over a lower one that
    is only read, with tombstones for what was removed from the lower layer. *)
From S2P Require Import Prelude GoPath FsTypes MemoryFS FileSystem Clone.

(** ** State *)

Record OverlayFS := MkOverlay {
  ov_upper : MemoryFS;
  ov_cwd : gostr;
  ov_tombstones : gset gostr;
  ov_lowerDirs : gmap gostr FileInfo;
  ov_sources : list gostr;   (* the lower paths that the lazy files of the upper layer read *)
}.

Definition set_upper (m : MemoryFS) (o : OverlayFS) : OverlayFS :=
  MkOverlay m (ov_cwd o) (ov_tombstones o) (ov_lowerDirs o) (ov_sources o).
Definition set_ov_cwd (cwd : gostr) (o : OverlayFS) : OverlayFS :=
  MkOverlay (ov_upper o) cwd (ov_tombstones o) (ov_lowerDirs o) (ov_sources o).
Definition set_tombstones (t : gset gostr) (o : OverlayFS) : OverlayFS :=
  MkOverlay (ov_upper o) (ov_cwd o) t (ov_lowerDirs o) (ov_sources o).
Definition set_lowerDirs (d : gmap gostr FileInfo) (o : OverlayFS) : OverlayFS :=
  MkOverlay (ov_upper o) (ov_cwd o) (ov_tombstones o) d (ov_sources o).
Definition set_sources (s : list gostr) (o : OverlayFS) : OverlayFS :=
  MkOverlay (ov_upper o) (ov_cwd o) (ov_tombstones o) (ov_lowerDirs o) s.

Definition NewOverlay (now : time) : OverlayFS :=
  MkOverlay (newMemoryWithImplicitParents now) root_path ∅ ∅ [].

(** The layer that shows an entry. *)
Inductive overlaySource := overlaySourceUpper | overlaySourceLower.
#[export] Instance overlaySource_eq_dec : EqDecision overlaySource.
Proof. solve_decision. Defined.

(** [missing] of [resolveMergedPath]. *)
Inductive overlayMissing := overlayMissingNone | overlayMissingFinal.
#[export] Instance overlayMissing_eq_dec : EqDecision overlayMissing.
Proof. solve_decision. Defined.

(** An open file of either layer. *)
Inductive overlayFile (H : Type) := UpperFile (f : openFile) | LowerFile (h : H).
Arguments UpperFile {H} f.
Arguments LowerFile {H} h.

(** ** Errors *)

Definition toPathError (op : string) (name : gostr) (err : error) : error :=
  match as_path_error err with
  | Some (op, path, e) => EPath op path e
  | None => EPath (go op) name err
  end.

Definition unwrapPathError (err : error) : error :=
  match as_path_error err with Some (_, _, e) => e | None => err end.

(** ** Tombstones *)

(** The loop of [isHidden], from [current] up to the root. *)
Fixpoint hidden_loop (tombstones : gset gostr) (fuel : nat) (current : gostr) : bool :=
  if decide (current ∈ tombstones) then true
  else if decide (current = root_path) then false
  else match fuel with
       | O => false
       | S fuel => hidden_loop tombstones fuel (parentDir current)
       end.
Definition isHidden (o : OverlayFS) (name : gostr) : bool :=
  hidden_loop (ov_tombstones o) (length (Clean name)) (Clean name).

Definition isExactTombstone (o : OverlayFS) (name : gostr) : bool := bool_decide (Clean name ∈ ov_tombstones o).

Definition addTombstone (name : gostr) (o : OverlayFS) : OverlayFS :=
  set_tombstones ({[Clean name]} ∪ ov_tombstones o) o.

Definition clearTombstonesUnder (name : gostr) (o : OverlayFS) : OverlayFS :=
  let name := Clean name in
  set_tombstones (filter (fun candidate => ¬ (candidate = name ∨ has_prefix (name ++ root_path) candidate = true))
                    (ov_tombstones o)) o.

Definition path_parts (abs : gostr) : list gostr := split_byte slash (trim_prefix root_path abs).

(** [path.Join] of components. *)
Definition join_parts (parts : list gostr) : gostr :=
  match parts with [] => [] | _ => path_Clean (join [slash] parts) end.

Section overlay.
Context {L H : Type} `{ReadFS L H}.
(** The lower layer: no operation of the overlay has a way to change it. *)
Variable lower : L.
Variable now : time.

Abbreviation OV := (act OverlayFS).

Definition ov_get : OV OverlayFS := fun o => (Ok o, o).
Definition ov_modify (f : OverlayFS → OverlayFS) : OV unit := fun o => (Ok tt, f o).
Definition of_result {A} (r : result error A) : OV A := fun o => (r, o).

(** What the lazy files of the upper layer read. *)
Definition ov_provider (o : OverlayFS) (k : nat) : result error gostr :=
  match ov_sources o !! k with Some src => read_file lower src | None => Err EPanic end.

(** A call on the upper layer. *)
Definition on_upper {A} (c : (nat → result error gostr) → M A) : OV A := fun o =>
  let '(r, m) := c (ov_provider o) (ov_upper o) in (r, set_upper m o).

Definition upper_Lstat (name : gostr) : OV FileInfo :=
  info ← on_upper (fun p => Lstat p name); mret (to_FileInfo info).

(** [lstatMaybe] on the result of [Lstat]. *)
Definition lstatMaybe (c : OV FileInfo) : OV (option FileInfo) :=
  r ← attempt_ c;
  match r with
  | Ok info => mret (Some info)
  | Err err => if errors_Is err ErrNotExist then mret None else fail err
  end.

(** A call whose error is rewritten. *)
Definition mapping_error {A} (f : error → error) (c : OV A) : OV A := fun o =>
  let '(r, o) := c o in (match r with Ok a => Ok a | Err err => Err (f err) end, o).

Definition with_path {A} (op : string) (name : gostr) (c : OV A) : OV A := mapping_error (toPathError op name) c.

(** ** The merged view *)

(** The part [visibleInfo] and [visiblePrefixInfo] share: the upper layer, then [below]. *)
Definition visible_over (abs : gostr) (below : OV FileInfo) : OV (FileInfo * overlaySource) :=
  r ← attempt_ (upper_Lstat abs);
  match r with
  | Ok info => mret (info, overlaySourceUpper)
  | Err err =>
      if negb (errors_Is err ErrNotExist) then fail err
      else
        o ← ov_get;
        if isHidden o abs then fail (ESent ErrNotExist)
        else info ← below; mret (info, overlaySourceLower)
  end.

Definition visibleInfo (abs : gostr) : OV (FileInfo * overlaySource) :=
  visible_over abs (of_result (rd_Lstat lower abs)).

Definition visiblePrefixInfo (abs : gostr) : OV (FileInfo * overlaySource) :=
  visible_over abs (
    o ← ov_get;
    match ov_lowerDirs o !! abs with
    | Some info => mret info
    | None =>
        info ← of_result (rd_Lstat lower abs);
        (if info_IsDir info then ov_modify (fun o => set_lowerDirs (<[abs := info]> (ov_lowerDirs o)) o) else mret tt);;
        mret info
    end).

Definition visibleComponentInfo (abs : gostr) (isLast : bool) : OV (FileInfo * overlaySource) :=
  if isLast then visibleInfo abs else visiblePrefixInfo abs.

Definition readlinkAt (source : overlaySource) (abs : gostr) : OV gostr :=
  match source with
  | overlaySourceUpper => on_upper (fun _ => Readlink abs)
  | overlaySourceLower => of_result (rd_Readlink lower abs)
  end.

(** A resolution: the path, and its entry unless it is missing. *)
Definition resolved : Type := gostr * option (FileInfo * overlaySource).

(** The component loop of [resolveMergedDepth]; [follow] is its recursive call. *)
Fixpoint merged_walk (follow : gostr → OV resolved) (followFinal : bool) (missing : overlayMissing)
    (current : gostr) (parts : list gostr) {struct parts} : OV resolved :=
  match parts with
  | [] => fail (ESent ErrNotExist)
  | part :: rest =>
      let next := joinChildPath current part in
      let isLast := bool_decide (rest = []) in
      r ← attempt_ (visibleComponentInfo next isLast);
      match r with
      | Err err =>
          if negb (errors_Is err ErrNotExist) then fail err
          else if isLast && bool_decide (missing = overlayMissingFinal) then mret (next, None)
          else fail (ESent ErrNotExist)
      | Ok (info, source) =>
          if info_symlink info && (negb isLast || followFinal) then
            target ← mapping_error unwrapPathError (readlinkAt source next);
            let resolved := Resolve current target in
            follow (if isLast then resolved else Resolve resolved (join_parts rest))
          else if isLast then mret (next, Some (info, source))
          else if negb (info_IsDir info) then fail (ESent ErrInvalid)
          else merged_walk follow followFinal missing next rest
      end
  end.

(** [resolveMergedDepth]: [h] counts the calls left before [depth > maxSymlinkDepth] fails. *)
Fixpoint resolveMerged_hops (h : nat) (abs : gostr) (followFinal : bool) (missing : overlayMissing) {struct h}
  : OV resolved :=
  let abs := Clean abs in
  match h with
  | O => fail (ESent ErrTooManySymlinks)
  | S h =>
      if decide (abs = root_path) then
        e ← visibleInfo abs; mret (abs, Some e)
      else merged_walk (fun target => resolveMerged_hops h target followFinal missing) followFinal missing
             root_path (path_parts abs)
  end.

Definition resolveMergedPath (abs : gostr) (followFinal : bool) (missing : overlayMissing) : OV resolved :=
  resolveMerged_hops (S maxSymlinkDepth) abs followFinal missing.

Definition resolveMerged (abs : gostr) (followFinal : bool) : OV (gostr * FileInfo * overlaySource) :=
  r ← resolveMergedPath abs followFinal overlayMissingNone;
  match r with
  | (path, Some (info, source)) => mret (path, info, source)
  | (_, None) => fail (ESent ErrNotExist)
  end.

Definition ov_resolve (name : gostr) : OV gostr := o ← ov_get; mret (Resolve (ov_cwd o) name).

(** ** Copying up *)

(** [copyUpLowerEntry]: a regular file becomes a lazy file of the upper layer that reads [src]. *)
Definition copyUpLowerEntry (src : gostr) (info : FileInfo) (dst : gostr) : OV unit :=
  if negb (info_regular info) then
    on_upper (fun p => clonePathWithInfo p now 1 lower src (Some info) dst)
  else
    o ← ov_get;
    ov_modify (set_sources (ov_sources o ++ [src]));;
    on_upper (fun _ => cloneLazyFile now (Clean dst) info (length (ov_sources o))).

(** The loop of [copyUpAncestors]. *)
Fixpoint copy_ancestors (current : gostr) (parts : list gostr) : OV unit :=
  match parts with
  | [] => mret tt
  | part :: rest =>
      let current := joinChildPath current part in
      '(_, source) ← visiblePrefixInfo current;
      (if decide (source = overlaySourceUpper) then mret tt
       else
         dirInfo ← of_result (rd_Lstat lower current);
         on_upper (fun _ => cloneDirNode now current dirInfo));;
      copy_ancestors current rest
  end.

Definition copyUpAncestors (abs : gostr) : OV unit :=
  let parent := parentDir abs in
  if decide (parent = root_path) then mret tt else copy_ancestors root_path (path_parts parent).

Definition copyUpNode (abs : gostr) (info : FileInfo) : OV unit :=
  copyUpAncestors abs;;
  if info_IsDir info then on_upper (fun _ => cloneDirNode now abs info)
  else copyUpLowerEntry abs info abs.

(** ** Operations *)

Definition Overlay_OpenFile (name : gostr) (flag perm : N) : OV (overlayFile H) :=
  abs ← ov_resolve name;
  if negb (hasWriteIntent flag) then
    '(resolved, _, source) ← with_path "open" abs (resolveMerged abs true);
    match source with
    | overlaySourceUpper => f ← on_upper (fun p => OpenFile p now resolved flag perm); mret (UpperFile f)
    | overlaySourceLower => h ← of_result (rd_OpenFile lower resolved flag perm); mret (LowerFile h)
    end
  else
    let creating := has_bits flag O_CREATE in
    let missing := if creating then overlayMissingFinal else overlayMissingNone in
    let exclusive := creating && has_bits flag O_EXCL in
    '(resolved, entry) ←
      mapping_error (fun err => toPathError "open" abs (if creating then createParentError err else err))
        (resolveMergedPath abs (negb exclusive) missing);
    if exclusive && bool_decide (entry ≠ None) then fail (EPath (go "open") abs (ESent ErrExist))
    else
      match entry with
      | None =>
          if negb creating then fail (EPath (go "open") abs (ESent ErrNotExist))
          else with_path "open" abs (copyUpAncestors resolved)
      | Some (info, overlaySourceLower) =>
          if info_IsDir info then fail (EPath (go "open") abs (ESent ErrInvalid))
          else with_path "open" abs (copyUpNode resolved info)
      | Some (_, overlaySourceUpper) => mret tt
      end;;
      f ← on_upper (fun p => OpenFile p now resolved flag perm);
      mret (UpperFile f).

Definition Overlay_Open (name : gostr) : OV (overlayFile H) := Overlay_OpenFile name O_RDONLY 0.

Definition Overlay_Stat (name : gostr) : OV FileInfo :=
  abs ← ov_resolve name;
  '(_, info, _) ← with_path "stat" abs (resolveMerged abs true);
  mret info.

Definition Overlay_Lstat (name : gostr) : OV FileInfo :=
  abs ← ov_resolve name;
  '(_, info, _) ← with_path "lstat" abs (resolveMerged abs false);
  mret info.

(** The entries of both layers by name: the upper one shadows the lower. *)
Definition merge_entries (hidden : gostr → bool) (upper : list (gostr * N)) (low : list dir_entry) : gmap gostr N :=
  foldl (fun es entry =>
    if hidden (en_Name entry) then es
    else match es !! en_Name entry with Some _ => es | None => <[en_Name entry := en_Type entry]> es end)
    (foldl (fun es entry => <[entry.1 := mode_Type entry.2]> es) ∅ upper) low.

(** The entries in the order of their names, with the type bits of their modes. *)
Definition sorted_entries (es : gmap gostr N) : list (gostr * N) :=
  omap (fun name => pair name <$> es !! name) (sort_strings (map_to_list es).*1).

Definition Overlay_ReadDir (name : gostr) : OV (list (gostr * N)) :=
  requested ← ov_resolve name;
  '(abs, _, _) ← with_path "readdir" requested (resolveMerged requested true);
  upper ← with_path "readdir" abs (lstatMaybe (upper_Lstat abs));
  if match upper with Some info => negb (info_IsDir info) | None => false end
  then fail (EPath (go "readdir") abs (ESent ErrInvalid))
  else
    o ← ov_get;
    if bool_decide (upper = None) && isHidden o abs then fail (EPath (go "readdir") abs (ESent ErrNotExist))
    else
      low ← with_path "readdir" abs (lstatMaybe (of_result (rd_Lstat lower abs)));
      if match low with Some info => negb (info_IsDir info) | None => false end && bool_decide (upper = None)
      then fail (EPath (go "readdir") abs (ESent ErrInvalid))
      else if bool_decide (upper = None) && bool_decide (low = None)
      then fail (EPath (go "readdir") abs (ESent ErrNotExist))
      else
        upperEntries ← (if bool_decide (upper = None) then mret [] else on_upper (fun _ => ReadDir abs));
        o ← ov_get;
        lowerEntries ← (if negb (bool_decide (low = None)) && negb (isExactTombstone o abs)
                        then of_result (rd_ReadDir lower abs) else mret []);
        mret (sorted_entries (merge_entries (fun child => isHidden o (path_Join abs child)) upperEntries lowerEntries)).

Definition Overlay_Readlink (name : gostr) : OV gostr :=
  abs ← ov_resolve name;
  '(resolved, _, source) ← with_path "readlink" abs (resolveMerged abs false);
  with_path "readlink" abs (readlinkAt source resolved).

Definition Overlay_Realpath (name : gostr) : OV gostr :=
  abs ← ov_resolve name;
  '(resolved, _, _) ← mapping_error (fun err => EPath (go "realpath") abs (unwrapPathError err)) (resolveMerged abs true);
  mret resolved.

(** What [Symlink] and [Mkfifo] share: a free path, its ancestors, then the node. *)
Definition create_entry (op : string) (name : gostr) (mk : gostr → M unit) : OV unit :=
  requested ← ov_resolve name;
  '(abs, entry) ← mapping_error (fun err => toPathError op requested (createParentError err))
                    (resolveMergedPath requested false overlayMissingFinal);
  if decide (entry ≠ None) then fail (EPath (go op) abs (ESent ErrExist))
  else
    with_path op abs (copyUpAncestors abs);;
    with_path op abs (on_upper (fun _ => mk abs));;
    ov_modify (clearTombstonesUnder abs).

Definition Overlay_Symlink (target linkName : gostr) : OV unit :=
  create_entry "symlink" linkName (Symlink now target).

Definition Overlay_Mkfifo (name : gostr) (perm : N) : OV unit :=
  create_entry "mkfifo" name (fun abs => Mkfifo now abs perm).

Definition Overlay_Link (oldName newName : gostr) : OV unit :=
  oldRequested ← ov_resolve oldName;
  newRequested ← ov_resolve newName;
  '(oldAbs, info, source) ← mapping_error (fun _ => EPath (go "link") oldRequested (ESent ErrNotExist))
                              (resolveMerged oldRequested false);
  if info_IsDir info then fail (EPath (go "link") oldAbs (ESent ErrInvalid))
  else
    '(newAbs, newEntry) ← mapping_error (fun err => toPathError "link" newRequested (createParentError err))
                            (resolveMergedPath newRequested false overlayMissingFinal);
    if decide (newEntry ≠ None) then fail (EPath (go "link") newAbs (ESent ErrExist))
    else
      with_path "link" newAbs (copyUpAncestors newAbs);;
      (if decide (source = overlaySourceLower) then
         r ← attempt_ (upper_Lstat oldAbs);
         match r with
         | Ok _ => mret tt
         | Err err => if errors_Is err ErrNotExist then with_path "link" oldAbs (copyUpNode oldAbs info)
                      else fail (toPathError "link" oldAbs err)
         end
       else mret tt);;
      with_path "link" oldAbs (on_upper (fun _ => Link now oldAbs newAbs));;
      ov_modify (clearTombstonesUnder newAbs).

(** The shape of [Chmod], [Chown], [Chtimes] and [Lchtimes]: the entry is in the upper layer before
    its metadata change. *)
Definition change_meta (op : string) (name : gostr) (follow : bool) (change : gostr → M unit) : OV unit :=
  requested ← ov_resolve name;
  '(abs, info, source) ← with_path op requested (resolveMerged requested follow);
  (if decide (source = overlaySourceLower) then with_path op abs (copyUpNode abs info) else mret tt);;
  with_path op abs (on_upper (fun _ => change abs)).

Definition Overlay_Chmod (name : gostr) (mode : N) : OV unit :=
  change_meta "chmod" name true (fun abs => Chmod now abs mode).
Definition Overlay_Chown (name : gostr) (uid gid : N) (follow : bool) : OV unit :=
  change_meta "chown" name follow (fun abs => Chown abs uid gid follow).
Definition Overlay_Chtimes (name : gostr) (atime mtime : time) : OV unit :=
  change_meta "chtimes" name true (fun abs => Chtimes now abs atime mtime).
Definition Overlay_Lchtimes (name : gostr) (atime mtime : time) : OV unit :=
  change_meta "lchtimes" name false (fun abs => Lchtimes now abs atime mtime).

(** The component loop of [MkdirAll]. *)
Fixpoint mkdir_walk (perm : N) (current : gostr) (parts : list gostr) : OV unit :=
  match parts with
  | [] => mret tt
  | part :: rest =>
      let next := joinChildPath current part in
      r ← attempt_ (visiblePrefixInfo next);
      match r with
      | Err err =>
          if errors_Is err ErrNotExist then
            with_path "mkdir" next (copyUpAncestors next);;
            on_upper (fun _ => MkdirAll now (Resolve next (join_parts rest)) perm)
          else fail (toPathError "mkdir" next err)
      | Ok (info, _) =>
          '(resolved, info) ←
            (if info_symlink info then
               '(resolved, info, _) ← with_path "mkdir" next (resolveMerged next true); mret (resolved, info)
             else mret (next, info));
          if negb (info_IsDir info) then fail (EPath (go "mkdir") next (ESent ErrInvalid))
          else mkdir_walk perm resolved rest
      end
  end.

Definition Overlay_MkdirAll (name : gostr) (perm : N) : OV unit :=
  abs ← ov_resolve name;
  if decide (abs = root_path) then mret tt else mkdir_walk perm root_path (path_parts abs).

Definition Overlay_Remove (name : gostr) (recursive : bool) : OV unit :=
  requested ← ov_resolve name;
  if decide (requested = root_path) then fail (EPath (go "remove") requested (ESent ErrPermission))
  else
    '(abs, info, source) ← mapping_error (fun _ => EPath (go "remove") requested (ESent ErrNotExist))
                             (resolveMerged requested false);
    if decide (abs = root_path) then fail (EPath (go "remove") requested (ESent ErrPermission))
    else
      (if info_IsDir info && negb recursive then
         entries ← Overlay_ReadDir abs;
         if decide (entries = []) then mret tt else fail (EPath (go "remove") abs (ESent ErrInvalid))
       else mret tt);;
      (if decide (source = overlaySourceUpper) then
         r ← attempt_ (on_upper (fun _ => Remove abs recursive));
         match r with
         | Ok _ => mret tt
         | Err err => if errors_Is err ErrNotExist then mret tt else fail (toPathError "remove" abs err)
         end
       else mret tt);;
      low ← with_path "remove" abs (lstatMaybe (of_result (rd_Lstat lower abs)));
      if decide (low = None) then mret tt else ov_modify (addTombstone abs).

(** [moveMerged]; [fuel] bounds the depth of the moved tree. *)
Fixpoint moveMerged (fuel : nat) (src : gostr) (info : FileInfo) (source : overlaySource) (dst : gostr) {struct fuel}
  : OV unit :=
  match fuel with
  | O => fail (ESent ErrFuel)
  | S fuel =>
      if negb (info_IsDir info) then
        if decide (source = overlaySourceUpper) then on_upper (fun _ => Rename now src dst)
        else copyUpLowerEntry src info dst
      else
        on_upper (fun _ => cloneDirNode now dst info);;
        entries ← Overlay_ReadDir src;
        foldr (fun entry rest =>
          let childSrc := joinChildPath src entry.1 in
          '(childInfo, childSource) ← visibleInfo childSrc;
          moveMerged fuel childSrc childInfo childSource (joinChildPath dst entry.1);;
          rest) (mret tt) entries
  end.

Definition Overlay_Rename (fuel : nat) (oldName newName : gostr) : OV unit :=
  oldRequested ← ov_resolve oldName;
  newRequested ← ov_resolve newName;
  if decide (oldRequested = root_path ∨ newRequested = root_path)
  then fail (EPath (go "rename") oldRequested (ESent ErrPermission))
  else
    '(oldAbs, info, source) ← mapping_error (fun _ => EPath (go "rename") oldRequested (ESent ErrNotExist))
                                (resolveMerged oldRequested false);
    '(newAbs, newEntry) ← mapping_error (fun err => toPathError "rename" newRequested (createParentError err))
                            (resolveMergedPath newRequested false overlayMissingFinal);
    if decide (oldAbs = root_path ∨ newAbs = root_path)
    then fail (EPath (go "rename") oldRequested (ESent ErrPermission))
    else if decide (oldAbs = newAbs) then mret tt
    else if decide (newEntry ≠ None) then fail (EPath (go "rename") newAbs (ESent ErrExist))
    else if info_IsDir info && isDescendantPath newAbs oldAbs then fail (EPath (go "rename") newAbs (ESent ErrInvalid))
    else
      with_path "rename" newAbs (copyUpAncestors newAbs);;
      with_path "rename" oldAbs (moveMerged fuel oldAbs info source newAbs);;
      r ← attempt_ (Overlay_Remove oldAbs true);
      match r with
      | Ok _ => mret tt
      | Err err => if errors_Is err ErrNotExist then mret tt else fail err
      end.

Definition Overlay_Getwd (o : OverlayFS) : gostr := ov_cwd o.

Definition Overlay_Chdir (name : gostr) : OV unit :=
  abs ← ov_resolve name;
  '(_, info, _) ← mapping_error (fun _ => EPath (go "chdir") abs (ESent ErrNotExist)) (resolveMerged abs true);
  if negb (info_IsDir info) then fail (EPath (go "chdir") abs (ESent ErrInvalid))
  else ov_modify (set_ov_cwd abs).
End overlay.
