(* ===== verification/OverlayCache.v ===== *)
(** The operations of the overlay as one transition function, and the cache of lower directories:
    no answer and no state other than the cache itself depends on it. *)
From S2P Require Import Prelude GoPath FsTypes MemoryFS MemoryFSExamples FileSystem Clone Overlay.

Section cache.
Context {L H : Type} `{ReadFS L H}.
Variable lower : L.
Variable now : time.
Abbreviation OV := (act OverlayFS).

(** ** The operations *)

Inductive overlay_op :=
| OvOpenFile (name : gostr) (flag perm : N)
| OvStat (name : gostr)
| OvLstat (name : gostr)
| OvReadDir (name : gostr)
| OvReadlink (name : gostr)
| OvRealpath (name : gostr)
| OvSymlink (target name : gostr)
| OvLink (old new : gostr)
| OvChmod (name : gostr) (mode : N)
| OvChown (name : gostr) (uid gid : N) (follow : bool)
| OvChtimes (name : gostr) (atime mtime : time)
| OvLchtimes (name : gostr) (atime mtime : time)
| OvMkdirAll (name : gostr) (perm : N)
| OvMkfifo (name : gostr) (perm : N)
| OvRemove (name : gostr) (recursive : bool)
| OvRename (fuel : nat) (old new : gostr)
| OvChdir (name : gostr).

Inductive overlay_answer :=
| AFile (f : overlayFile H)
| AInfo (i : FileInfo)
| AEntries (es : list (gostr * N))
| APath (p : gostr)
| ADone.

Definition answering {A} (f : A → overlay_answer) (c : OV A) : OV overlay_answer := a ← c; mret (f a).

Definition run_overlay (op : overlay_op) : OV overlay_answer :=
  let done := answering (fun _ : unit => ADone) in
  match op with
  | OvOpenFile n flag perm => answering AFile (Overlay_OpenFile lower now n flag perm)
  | OvStat n => answering AInfo (Overlay_Stat lower n)
  | OvLstat n => answering AInfo (Overlay_Lstat lower n)
  | OvReadDir n => answering AEntries (Overlay_ReadDir lower n)
  | OvReadlink n => answering APath (Overlay_Readlink lower n)
  | OvRealpath n => answering APath (Overlay_Realpath lower n)
  | OvSymlink t n => done (Overlay_Symlink lower now t n)
  | OvLink a b => done (Overlay_Link lower now a b)
  | OvChmod n m => done (Overlay_Chmod lower now n m)
  | OvChown n u g f => done (Overlay_Chown lower now n u g f)
  | OvChtimes n a t => done (Overlay_Chtimes lower now n a t)
  | OvLchtimes n a t => done (Overlay_Lchtimes lower now n a t)
  | OvMkdirAll n perm => done (Overlay_MkdirAll lower now n perm)
  | OvMkfifo n perm => done (Overlay_Mkfifo lower now n perm)
  | OvRemove n r => done (Overlay_Remove lower n r)
  | OvRename fuel a b => done (Overlay_Rename lower now fuel a b)
  | OvChdir n => done (Overlay_Chdir lower n)
  end.

(** ** Computations that the cache does not influence *)

Definition forget (o : OverlayFS) : OverlayFS := set_lowerDirs ∅ o.

(** What is cached is what the lower layer says, and a directory. *)
Definition cache_ok (o : OverlayFS) : Prop :=
  ∀ p i, ov_lowerDirs o !! p = Some i → rd_Lstat lower p = Ok i ∧ info_IsDir i = true.

Definition transparent {A} (c : OV A) : Prop := ∀ o1 o2, cache_ok o1 → cache_ok o2 → forget o1 = forget o2 →
  (c o1).1 = (c o2).1 ∧ forget (c o1).2 = forget (c o2).2 ∧ cache_ok (c o1).2 ∧ cache_ok (c o2).2.

Lemma forget_fields o1 o2 : forget o1 = forget o2 → ov_upper o1 = ov_upper o2 ∧ ov_cwd o1 = ov_cwd o2 ∧
  ov_tombstones o1 = ov_tombstones o2 ∧ ov_sources o1 = ov_sources o2.
Proof. by intros [= -> -> -> ->]. Qed.

Lemma transparent_ret {A} (a : A) : transparent (mret a).
Proof. done. Qed.

Lemma transparent_fail {A} e : transparent (@fail OverlayFS A e).
Proof. done. Qed.

Lemma transparent_bind {A B} (c : OV A) (k : A → OV B) :
  transparent c → (∀ a, transparent (k a)) → transparent (c ≫= k).
Proof.
  intros Hc Hk o1 o2 H1 H2 Hf. destruct (Hc o1 o2 H1 H2 Hf) as (Hr&Hf'&H1'&H2').
  unfold mbind, act_bind. destruct (c o1) as [r1 o1'], (c o2) as [r2 o2']. simpl in *. subst r2.
  destruct r1 as [a|e]; [by apply Hk|done].
Qed.

Lemma transparent_attempt {A} (c : OV A) : transparent c → transparent (attempt_ c).
Proof.
  intros Hc o1 o2 H1 H2 Hf. destruct (Hc o1 o2 H1 H2 Hf) as (Hr&Hf'&H1'&H2'). unfold attempt_.
  destruct (c o1), (c o2). simpl in *. by subst.
Qed.

Lemma transparent_mapping {A} f (c : OV A) : transparent c → transparent (mapping_error f c).
Proof.
  intros Hc o1 o2 H1 H2 Hf. destruct (Hc o1 o2 H1 H2 Hf) as (Hr&Hf'&H1'&H2'). unfold mapping_error.
  destruct (c o1) as [r1 o1'], (c o2) as [r2 o2']. simpl in *. subst r2. by destruct r1.
Qed.

Lemma transparent_result {A} (r : result error A) : transparent (of_result r).
Proof. done. Qed.

(** A use of the state that looks at everything but the cache. *)
Lemma transparent_get {A} (k : OverlayFS → OV A) : (∀ o, k (forget o) = k o) → (∀ o, transparent (k o)) →
  transparent (ov_get ≫= k).
Proof.
  intros Hk Ht o1 o2 H1 H2 Hf. change ((ov_get ≫= k) o1) with (k o1 o1). change ((ov_get ≫= k) o2) with (k o2 o2).
  rewrite <-(Hk o2), <-Hf, Hk. by apply Ht.
Qed.

Lemma transparent_modify f : (∀ o, forget (f o) = forget (f (forget o))) → (∀ o, ov_lowerDirs (f o) = ov_lowerDirs o) →
  transparent (ov_modify f).
Proof.
  intros Hf Hd o1 o2 H1 H2 E. simpl. split_and!; [done|by rewrite Hf, E, <-Hf| |].
  - intros p i. rewrite Hd. apply H1.
  - intros p i. rewrite Hd. apply H2.
Qed.

Lemma transparent_upper {A} (c : (nat → result error gostr) → M A) : transparent (on_upper lower c).
Proof.
  intros o1 o2 H1 H2 (Hu&Hc&Ht&Hs)%forget_fields. unfold on_upper, ov_provider. rewrite Hu, Hs.
  destruct (c _ (ov_upper o2)) as [r m]. simpl. split_and!; [done| |exact H1|exact H2].
  unfold forget, set_lowerDirs, set_upper. simpl. by rewrite Hc, Ht, Hs.
Qed.

Create HintDb transparent.

(** Reads the structure of an operation. *)
Ltac transparent_step :=
  lazymatch goal with
  | |- transparent (mret _) => apply transparent_ret
  | |- transparent (fail _) => apply transparent_fail
  | |- transparent (of_result _) => apply transparent_result
  | |- transparent (on_upper _ _) => apply transparent_upper
  | |- transparent (ov_get ≫= _) => apply transparent_get; [done|intros]
  | |- transparent (_ ≫= _) => apply transparent_bind; [|intros]
  | |- transparent (attempt_ _) => apply transparent_attempt
  | |- transparent (mapping_error _ _) => apply transparent_mapping
  | |- transparent (ov_modify _) => apply transparent_modify; done
  | |- transparent (match _ with _ => _ end) => case_match
  | _ => solve [eauto with transparent]
  end.
Ltac transparent := repeat transparent_step.

Lemma transparent_upper_Lstat p : transparent (upper_Lstat lower p).
Proof. unfold upper_Lstat. transparent. Qed.
#[local] Hint Resolve transparent_upper_Lstat : transparent.

Lemma transparent_lstatMaybe c : transparent c → transparent (lstatMaybe c).
Proof. intros Hc. unfold lstatMaybe. transparent. Qed.

Lemma transparent_over abs below : transparent below → transparent (visible_over lower abs below).
Proof. intros Hb. unfold visible_over. transparent. Qed.

Lemma transparent_visibleInfo p : transparent (visibleInfo lower p).
Proof. apply transparent_over. transparent. Qed.

(** The one place that reads and fills the cache. *)
Lemma transparent_visiblePrefixInfo p : transparent (visiblePrefixInfo lower p).
Proof.
  apply transparent_over. intros o1 o2 H1 H2 Hf. unfold ov_get, mbind, act_bind.
  assert (∀ o, cache_ok o → ∃ d, (match ov_lowerDirs o !! p with
    | Some info => mret info
    | None => act_bind _ _ (λ info, act_bind _ _ (λ _, mret info)
        (if info_IsDir info then ov_modify (λ o, set_lowerDirs (<[p := info]> (ov_lowerDirs o)) o) else mret tt))
        (of_result (rd_Lstat lower p)) end) o = (rd_Lstat lower p, set_lowerDirs d o) ∧ cache_ok (set_lowerDirs d o)) as Hcase.
  { intros o Ho. destruct (ov_lowerDirs o !! p) as [info|] eqn:E.
    - destruct (Ho p info E) as [-> _]. exists (ov_lowerDirs o). split; [by destruct o|]. by destruct o.
    - unfold of_result, act_bind, ov_modify. destruct (rd_Lstat lower p) as [info|e] eqn:El.
      + destruct (info_IsDir info) eqn:Ed.
        * eexists. split; [done|]. intros q i. simpl. intros [[<- <-]|[_ Hq]]%lookup_insert_Some; [done|by apply Ho].
        * exists (ov_lowerDirs o). split; [by destruct o|]. by destruct o.
      + exists (ov_lowerDirs o). split; [by destruct o|]. by destruct o. }
  destruct (Hcase o1 H1) as (d1&E1&Hd1), (Hcase o2 H2) as (d2&E2&Hd2).
  unfold act_bind in E1, E2. rewrite E1, E2. split_and!; [done|exact Hf|done|done].
Qed.
#[local] Hint Resolve transparent_result transparent_visibleInfo transparent_visiblePrefixInfo transparent_lstatMaybe : transparent.

Lemma transparent_component p last : transparent (visibleComponentInfo lower p last).
Proof. unfold visibleComponentInfo. transparent. Qed.

Lemma transparent_readlinkAt s p : transparent (readlinkAt lower s p).
Proof. unfold readlinkAt. transparent. Qed.
#[local] Hint Resolve transparent_component transparent_readlinkAt : transparent.

Lemma transparent_walk follow ff missing current parts : (∀ t, transparent (follow t)) →
  transparent (merged_walk lower follow ff missing current parts).
Proof. intros Hf. revert current. induction parts as [|part rest IH]; intros current; simpl; transparent. Qed.

Lemma transparent_hops h p ff missing : transparent (resolveMerged_hops lower h p ff missing).
Proof.
  revert p. induction h as [|h IH]; intros p; simpl; transparent. by apply transparent_walk.
Qed.

Lemma transparent_resolvePath p ff missing : transparent (resolveMergedPath lower p ff missing).
Proof. apply transparent_hops. Qed.
#[local] Hint Resolve transparent_resolvePath : transparent.

Lemma transparent_resolveMerged p ff : transparent (resolveMerged lower p ff).
Proof. unfold resolveMerged. transparent. Qed.
#[local] Hint Resolve transparent_resolveMerged : transparent.

Lemma transparent_resolve n : transparent (ov_resolve n).
Proof. unfold ov_resolve. transparent. Qed.
#[local] Hint Resolve transparent_resolve : transparent.

Lemma transparent_copyUpLowerEntry src info dst : transparent (copyUpLowerEntry lower now src info dst).
Proof. unfold copyUpLowerEntry. transparent. Qed.

Lemma transparent_ancestors current parts : transparent (copy_ancestors lower now current parts).
Proof. revert current. induction parts as [|part rest IH]; intros current; simpl; transparent. Qed.

Lemma transparent_copyUpAncestors p : transparent (copyUpAncestors lower now p).
Proof. pose proof transparent_ancestors. unfold copyUpAncestors. transparent. Qed.
#[local] Hint Resolve transparent_copyUpLowerEntry transparent_copyUpAncestors : transparent.

Lemma transparent_copyUpNode p info : transparent (copyUpNode lower now p info).
Proof. unfold copyUpNode. transparent. Qed.
#[local] Hint Resolve transparent_copyUpNode : transparent.

Lemma transparent_ReadDir n : transparent (Overlay_ReadDir lower n).
Proof. unfold Overlay_ReadDir, with_path. transparent. Qed.
#[local] Hint Resolve transparent_ReadDir : transparent.

Lemma transparent_Remove n r : transparent (Overlay_Remove lower n r).
Proof. unfold Overlay_Remove, with_path. transparent. Qed.
#[local] Hint Resolve transparent_Remove : transparent.

Lemma transparent_moveMerged fuel src info source dst : transparent (moveMerged lower now fuel src info source dst).
Proof.
  revert src info source dst. induction fuel as [|fuel IH]; intros src info source dst; simpl; transparent.
  match goal with |- transparent (foldr _ _ ?es) => induction es as [|e es IHes]; simpl; transparent end.
Qed.
#[local] Hint Resolve transparent_moveMerged : transparent.

Lemma transparent_mkdir_walk perm current parts : transparent (mkdir_walk lower now perm current parts).
Proof. revert current. induction parts as [|part rest IH]; intros current; simpl; unfold with_path; transparent. Qed.
#[local] Hint Resolve transparent_mkdir_walk : transparent.

Lemma transparent_run op : transparent (run_overlay op).
Proof.
  destruct op; simpl; unfold answering; (apply transparent_bind; [|by intros; apply transparent_ret]);
    unfold Overlay_OpenFile, Overlay_Stat, Overlay_Lstat, Overlay_Readlink, Overlay_Realpath, Overlay_Symlink, Overlay_Mkfifo,
      create_entry, Overlay_Link, Overlay_Chmod, Overlay_Chown, Overlay_Chtimes, Overlay_Lchtimes, change_meta,
      Overlay_MkdirAll, Overlay_Rename, Overlay_Chdir, with_path; transparent.
Qed.
End cache.

(** C40: the cache of lower directories is invisible: from any state whose cache holds what the lower
    layer says, every operation gives the answer it gives with an empty cache and leaves the same
    state but for the cache, which again holds what the lower layer says. *)
Theorem overlay_cache_transparent {L H} `{ReadFS L H} (lower : L) now op o : cache_ok lower o →
  (run_overlay lower now op o).1 = (run_overlay lower now op (forget o)).1 ∧
  forget (run_overlay lower now op o).2 = forget (run_overlay lower now op (forget o)).2 ∧
  cache_ok lower (run_overlay lower now op o).2.
Proof.
  intros Hok. destruct (transparent_run lower now op o (forget o) Hok) as (?&?&?&_); [|done|done].
  intros p i. simpl. by rewrite lookup_empty.
Qed.

(** * A concrete overlay over an in-memory filesystem, on which the theorems of the overlay are applied. *)

#[local] Instance demo_ReadFS : ReadFS MemoryFS (openFile * MemoryFS) := memory_ReadFS no_lazy 7.

Definition run_overlay_ops (ops : list overlay_op) (o : OverlayFS) : OverlayFS :=
  foldl (fun o op => (run_overlay demo_fs 8 op o).2) o ops.

(** Reads below a directory of the lower layer, which fill the cache; a removal, a copy-up and a move. *)
Definition demo_overlay_ops : list overlay_op := [
  OvStat (go "/w/d/f");
  OvRemove (go "/w/g") false;
  OvChmod (go "/w/d/f") 384;
  OvRename 9 (go "/w/d/e") (go "/w/x")
].
Definition demo_overlay : OverlayFS := run_overlay_ops demo_overlay_ops (NewOverlay 2).

#[local] Instance FileInfo_eq_dec : EqDecision FileInfo.
Proof. solve_decision. Defined.

(** [cache_ok] as a test. *)
Definition cache_okb (o : OverlayFS) : bool :=
  forallb (fun e => match rd_Lstat demo_fs e.1 with
                    | Ok i => bool_decide (i = e.2) && info_IsDir i
                    | Err _ => false
                    end) (map_to_list (ov_lowerDirs o)).

Lemma cache_okb_ok o : cache_okb o = true → cache_ok demo_fs o.
Proof.
  unfold cache_okb. rewrite forallb_forall. intros H p i Hp%elem_of_map_to_list%list_elem_of_In.
  specialize (H (p, i) Hp). cbn [fst snd] in H. destruct (rd_Lstat demo_fs p) as [i'|]; [|done].
  apply andb_prop in H as [->%bool_decide_eq_true_1 H]. done.
Qed.

Lemma demo_overlay_cache_ok : cache_ok demo_fs demo_overlay.
Proof. apply cache_okb_ok. vm_compute. reflexivity. Qed.

Lemma overlay_cache_transparent_witness :
  ov_lowerDirs demo_overlay ≠ ∅ ∧
  (run_overlay demo_fs 8 (OvReadDir (go "/w")) demo_overlay).1 =
  (run_overlay demo_fs 8 (OvReadDir (go "/w")) (forget demo_overlay)).1.
Proof.
  split; [intros H; apply (f_equal size) in H; vm_compute in H; discriminate|].
  exact (proj1 (overlay_cache_transparent demo_fs 8 (OvReadDir (go "/w")) demo_overlay demo_overlay_cache_ok)).
Defined.

Example demo_overlay_ReadDir :
  (run_overlay demo_fs 8 (OvReadDir (go "/w")) demo_overlay).1 =
  Ok (AEntries [(go "d", ModeDir); (go "l", ModeSymlink); (go "out", ModeSymlink); (go "x", ModeDir)]).
Proof. vm_compute. reflexivity. Qed.
