(* ===== verification/GoStrconv.v ===== *)
(** Decimal integers of Go's [strconv]: [Atoi], [Itoa] and the zero-padded [%0*d] of [fmt], with
    their round trip. *)
From S2P Require Import Prelude GoUtf8.

Definition is_digit (c : ascii) : bool := between 48 (byte_val c) 57.
Definition digit_val (c : ascii) : Z := byte_val c - 48.
Definition digit_char (d : Z) : ascii := byte_of (48 + d).

(** The value of the digits [s] behind those of [acc]. *)
Fixpoint digits_value (acc : Z) (s : gostr) : option Z :=
  match s with
  | [] => Some acc
  | c :: s => if is_digit c then digits_value (acc * 10 + digit_val c) s else None
  end.

(** [strconv.Atoi], with [None] for an error (of syntax or range). *)
Definition Atoi (s : gostr) : option Z :=
  let '(neg, ds) := match s with
                    | c :: s' => if decide (c = "-"%char) then (true, s')
                                 else if decide (c = "+"%char) then (false, s') else (false, s)
                    | [] => (false, s)
                    end in
  if decide (ds = []) then None
  else
    n ← digits_value 0 ds;
    let z := if neg then - n else n in
    if (- 2 ^ 63 <=? z) && (z <? 2 ^ 63) then Some z else None.

(** The decimal digits of [n >= 0] before [acc]; [fuel] bounds their number. *)
Fixpoint dec_digits (fuel : nat) (n : Z) (acc : gostr) : gostr :=
  match fuel with
  | O => acc
  | S fuel =>
      let acc := digit_char (n mod 10) :: acc in
      if n <? 10 then acc else dec_digits fuel (n / 10) acc
  end.

Definition digit_fuel (n : Z) : nat := S (Z.to_nat (Z.log2 n)).
Definition show_nat (n : Z) : gostr := dec_digits (digit_fuel n) n [].

(** [strconv.Itoa]. *)
Definition Itoa (z : Z) : gostr := if z <? 0 then "-"%char :: show_nat (- z) else show_nat z.

(** [fmt.Sprintf("%0*d", width, z)]: zeros go between the sign and the digits. *)
Definition show_padded (width : nat) (z : Z) : gostr :=
  let ds := show_nat (Z.abs z) in
  if z <? 0 then "-"%char :: (repeat "0"%char (width - S (length ds)) ++ ds)
  else repeat "0"%char (width - length ds) ++ ds.

(** ** Round trip *)

Lemma digit_char_val d : 0 <= d < 10 → is_digit (digit_char d) = true ∧ digit_val (digit_char d) = d.
Proof.
  intros H. unfold is_digit, digit_val, digit_char, between.
  assert (byte_val (byte_of (48 + d)) = 48 + d) as ->; [|lia].
  unfold byte_val, byte_of. rewrite N_ascii_embedding by lia. lia.
Qed.

Lemma digits_value_app acc s t : digits_value acc (s ++ t) = a ← digits_value acc s; digits_value a t.
Proof. revert acc. induction s as [|c s IH]; intros acc; simpl; [done|]. by destruct (is_digit c). Qed.

(** The digits before [acc] multiply in front of the value of [acc]. *)
Lemma dec_digits_value fuel n acc : 0 <= n < 2 ^ Z.of_nat fuel →
  ∀ base, ∃ k, digits_value base (dec_digits fuel n acc) = digits_value (base * 10 ^ k + n) acc ∧ (fuel ≠ O → 1 <= k).
Proof.
  revert n acc. induction fuel as [|fuel IH]; intros n acc Hn base; simpl.
  { exists 0. rewrite Z.pow_0_r. split; [|done]. f_equal. change (2 ^ Z.of_nat 0) with 1 in Hn. lia. }
  destruct (digit_char_val (n mod 10)) as [Hd Hv]; [apply Z.mod_pos_bound; lia|].
  destruct (Z.ltb_spec n 10).
  { exists 1. simpl. rewrite Hd, Hv, Z.pow_1_r, Z.mod_small by lia. split; [done|lia]. }
  assert (n / 10 < 2 ^ Z.of_nat fuel) as Hlt.
  { apply Z.div_lt_upper_bound; [lia|]. rewrite Nat2Z.inj_succ, Z.pow_succ_r in Hn by lia. lia. }
  destruct (IH (n / 10) (digit_char (n mod 10) :: acc)) with (base := base) as (k&Hk&Hk1).
  { split; [|done]. apply Z.div_pos; lia. }
  assert (1 <= k) as Hk2. { apply Hk1. intros ->. change (2 ^ Z.of_nat 0) with 1 in Hlt. assert (1 <= n / 10) by (apply Z.div_le_lower_bound; lia). lia. }
  exists (k + 1). rewrite Hk. simpl. rewrite Hd, Hv. split; [|lia]. f_equal.
  rewrite Z.pow_add_r, Z.pow_1_r by lia. pose proof (Z.div_mod n 10). lia.
Qed.

Lemma digit_fuel_ok n : 0 <= n → n < 2 ^ Z.of_nat (digit_fuel n).
Proof.
  intros Hn. unfold digit_fuel. rewrite Nat2Z.inj_succ, Z2Nat.id by apply Z.log2_nonneg.
  destruct (Z.eq_dec n 0) as [->|]; [done|]. apply Z.log2_spec. lia.
Qed.

Lemma show_nat_value n : 0 <= n → digits_value 0 (show_nat n) = Some n.
Proof.
  intros Hn. destruct (dec_digits_value (digit_fuel n) n []) with (base := 0) as (k&Hk&_).
  { split; [done|by apply digit_fuel_ok]. }
  unfold show_nat. rewrite Hk. done.
Qed.

Lemma dec_digits_digits fuel n acc : 0 <= n → Forall (fun c => is_digit c = true) acc →
  Forall (fun c => is_digit c = true) (dec_digits fuel n acc).
Proof.
  revert n acc. induction fuel as [|fuel IH]; intros n acc Hn Hacc; simpl; [done|].
  destruct (digit_char_val (n mod 10)) as [Hd _]; [apply Z.mod_pos_bound; lia|].
  destruct (Z.ltb_spec n 10); [by constructor|]. apply IH; [apply Z.div_pos; lia|by constructor].
Qed.

Lemma dec_digits_length fuel n acc : (length acc <= length (dec_digits fuel n acc))%nat.
Proof.
  revert n acc. induction fuel as [|fuel IH]; intros n acc; simpl; [done|].
  destruct (n <? 10); simpl; [lia|]. etransitivity; [|apply IH]. simpl. lia.
Qed.

(** A number is written as a digit and more digits. *)
Lemma show_nat_cons n : 0 <= n → ∃ c ds, show_nat n = c :: ds ∧ is_digit c = true.
Proof.
  intros Hn. pose proof (dec_digits_digits (digit_fuel n) n [] Hn ltac:(constructor)) as Hd. fold (show_nat n) in Hd.
  assert (1 <= length (show_nat n))%nat as Hl.
  { unfold show_nat, digit_fuel. simpl. destruct (n <? 10); [done|]. etransitivity; [|apply dec_digits_length]. done. }
  destruct (show_nat n) as [|c ds]; [simpl in Hl; lia|]. apply Forall_cons_1 in Hd as [Hd _]. by exists c, ds.
Qed.

Lemma digit_no_sign c : is_digit c = true → c ≠ "-"%char ∧ c ≠ "+"%char.
Proof. intros H. split; intros ->; vm_compute in H; done. Qed.

Lemma Atoi_show_nat n : 0 <= n < 2 ^ 63 → Atoi (show_nat n) = Some n.
Proof.
  intros Hn. destruct (show_nat_cons n) as (c&ds&Hs&Hc); [lia|]. pose proof (show_nat_value n) as Hv. rewrite Hs in *.
  destruct (digit_no_sign c Hc) as [H1 H2]. unfold Atoi. rewrite !decide_False by done. rewrite Hv by lia. simpl.
  destruct (Z.leb_spec (- 2 ^ 63) n), (Z.ltb_spec n (2 ^ 63)); simpl; (done || lia).
Qed.

Lemma Atoi_Itoa z : int64_ok z → Atoi (Itoa z) = Some z.
Proof.
  unfold int64_ok, Itoa. intros Hz. destruct (Z.ltb_spec z 0); [|apply Atoi_show_nat; lia].
  destruct (show_nat_cons (- z)) as (c&ds&Hs&Hc); [lia|]. pose proof (show_nat_value (- z)) as Hv.
  unfold Atoi. rewrite decide_True by done. rewrite Hs in *. rewrite decide_False by done. rewrite Hv by lia. simpl.
  rewrite Z.opp_involutive. destruct (Z.leb_spec (- 2 ^ 63) z), (Z.ltb_spec z (2 ^ 63)); simpl; (done || lia).
Qed.

Lemma Atoi_range s z : Atoi s = Some z → int64_ok z.
Proof.
  unfold Atoi, int64_ok. intros H. destruct (match s with [] => _ | _ => _ end) as [neg ds].
  case_decide; [done|]. destruct (digits_value 0 ds) as [n|]; [|done]. simpl in H.
  destruct ((- 2 ^ 63 <=? (if neg then - n else n)) && ((if neg then - n else n) <? 2 ^ 63)) eqn:E; [|done].
  injection H as <-. lia.
Qed.
