(* ===== verification/Braces.v ===== *)
(** Brace expansion: [shell/syntax/braces.go], which finds the brace expressions in the literals of a
    word, and [shell/expand/braces.go], which expands them into words within a budget. *)
From S2P Require Import Prelude GoUtf8 GoStrconv.

(** ** Words *)

(** [syntax.Pos]: two 32-bit words. *)
Record Pos := MkPos { offs : Z; lineCol : Z }.
#[export] Instance Pos_eq_dec : EqDecision Pos.
Proof. solve_decision. Defined.

Definition wrapu32 (z : Z) : Z := z mod 2 ^ 32.
Definition offsetMax : Z := 2 ^ 32 - 1 - 11.
Definition IsValid (p : Pos) : bool := (offs p <=? offsetMax) && negb (lineCol p =? 0).
Definition posAddCol (p : Pos) (n : Z) : Pos :=
  if negb (IsValid p) then p else MkPos (wrapu32 (offs p + n)) (wrapu32 (lineCol p + n)).
Definition noPos : Pos := MkPos 0 0.

Record Lit := MkLit { ValuePos : Pos; ValueEnd : Pos; Value : gostr }.

(** The parts of a word: a literal, a brace expression, or a part of another kind, which brace
    expansion only carries along. *)
Inductive WordPart :=
| PLit (lit : Lit)
| PBrace (Lbrace Rbrace : Pos) (Sequence : bool) (Elems : list (list WordPart))
| POther (id : nat).

Definition is_lit (p : WordPart) : bool := match p with PLit _ => true | _ => false end.
Definition lit_value (p : WordPart) : gostr := match p with PLit l => Value l | _ => [] end.

(** [Word.Lit]. *)
Definition word_Lit (parts : list WordPart) : gostr :=
  if forallb is_lit parts then concat (map lit_value parts) else [].

(** ** Finding the brace expressions: [splitBraceWordParts] *)

Inductive braceSepKind := braceSepComma | braceSepDots.
#[export] Instance braceSepKind_eq_dec : EqDecision braceSepKind.
Proof. solve_decision. Defined.

Record braceSep := MkSep { sep_kind : braceSepKind; sep_lit : option Lit }.

(** [braceCandidate]; [cd_acc] is the last of [Elems], which [acc] points to, and [cd_done] are the
    elements before it. *)
Record braceCandidate := MkCandidate {
  cd_Lbrace : option Lit;
  cd_Rbrace : option Lit;
  cd_Seps : list braceSep;
  cd_done : list (list WordPart);
  cd_acc : list WordPart;
}.
Definition cd_Elems (br : braceCandidate) : list (list WordPart) := cd_done br ++ [cd_acc br].

(** The parts at the top, and the open candidates, the innermost first. *)
Record split_state := MkSplit { sp_top : list WordPart; sp_open : list braceCandidate }.

(** [addLit]: a literal that continues the one before it is merged into it. *)
Definition add_lit (lit : option Lit) (parts : list WordPart) : list WordPart :=
  match lit with
  | None => parts
  | Some lit =>
      match list.last parts with
      | Some (PLit prev) =>
          if IsValid (ValueEnd prev) && IsValid (ValuePos lit) && bool_decide (ValueEnd prev = ValuePos lit)
          then take (length parts - 1) parts ++ [PLit (MkLit (ValuePos prev) (ValueEnd lit) (Value prev ++ Value lit))]
          else parts ++ [PLit lit]
      | _ => parts ++ [PLit lit]
      end
  end.

Definition add_part (part : WordPart) (parts : list WordPart) : list WordPart :=
  match part with PLit lit => add_lit (Some lit) parts | _ => parts ++ [part] end.

Definition splitLit (lit : Lit) (start stop : nat) : option Lit :=
  if decide (stop <= start)%nat then None
  else Some (MkLit (posAddCol (ValuePos lit) (Z.of_nat start)) (posAddCol (ValuePos lit) (Z.of_nat stop))
               (slice start stop (Value lit))).

(** Applies [f] to what [acc] points to. *)
Definition at_acc (f : list WordPart → list WordPart) (st : split_state) : split_state :=
  match sp_open st with
  | [] => MkSplit (f (sp_top st)) []
  | c :: cs => MkSplit (sp_top st) (MkCandidate (cd_Lbrace c) (cd_Rbrace c) (cd_Seps c) (cd_done c) (f (cd_acc c)) :: cs)
  end.

Definition addSplitLit (lit : Lit) (start stop : nat) : split_state → split_state := at_acc (add_lit (splitLit lit start stop)).

(** The text of a candidate that is no brace expression. *)
Definition add_parts (elem parts : list WordPart) : list WordPart := foldl (fun ps p => add_part p ps) parts elem.
Definition addCandidateLiteral (br : braceCandidate) (parts : list WordPart) : list WordPart :=
  let parts := add_lit (cd_Lbrace br) parts in
  let parts :=
    match cd_Elems br with
    | [] => parts
    | e :: elems =>
        foldl (fun ps '(s, e) => add_parts e (add_lit (sep_lit s) ps)) (add_parts e parts) (zip (cd_Seps br) elems)
    end in
  add_lit (cd_Rbrace br) parts.

(** [braceCommaElems]: the elements between commas; dots stay text. *)
Fixpoint comma_elems (cur : list WordPart) (seps : list braceSep) (elems : list (list WordPart)) : list (list WordPart) :=
  match seps, elems with
  | s :: seps, e :: elems =>
      if decide (sep_kind s = braceSepComma) then cur :: comma_elems e seps elems
      else comma_elems (cur ++ match sep_lit s with Some l => [PLit l] | None => [] end ++ e) seps elems
  | _, _ => [cur]
  end.
Definition braceCommaElems (br : braceCandidate) : list (list WordPart) :=
  match cd_Elems br with [] => [] | e :: elems => comma_elems e (cd_Seps br) elems end.

Definition asciiLower (b : Z) : bool := between 97 b 122.
Definition asciiUpper (b : Z) : bool := between 65 b 90.
Definition asciiLetter (b : Z) : bool := asciiLower b || asciiUpper b.

(** Whether a bound of a sequence is a letter, when it is a bound at all. *)
Definition sequence_bound (elem : list WordPart) : option bool :=
  let val := word_Lit elem in
  match Atoi val with
  | Some _ => Some false
  | None => match val with [c] => if asciiLetter (byte_val c) then Some true else None | _ => None end
  end.

Definition validBraceSequence (elems : list (list WordPart)) : bool :=
  match elems with
  | from :: to :: step =>
      match sequence_bound from, sequence_bound to with
      | Some c0, Some c1 =>
          Bool.eqb c0 c1 &&
          match step with
          | [] => true
          | [n] => match Atoi (word_Lit n) with Some _ => true | None => false end
          | _ => false
          end
      | _, _ => false
      end
  | _ => false
  end.

Definition pos_of (lit : option Lit) : Pos := default noPos (ValuePos <$> lit).

Definition braceCandidateNode (br : braceCandidate) : option WordPart :=
  if bool_decide (cd_Rbrace br = None) || bool_decide (length (cd_Elems br) <= 1)%nat then None
  else if existsb (fun s => bool_decide (sep_kind s = braceSepComma)) (cd_Seps br)
  then Some (PBrace (pos_of (cd_Lbrace br)) (pos_of (cd_Rbrace br)) false (braceCommaElems br))
  else if validBraceSequence (cd_Elems br)
  then Some (PBrace (pos_of (cd_Lbrace br)) (pos_of (cd_Rbrace br)) true (cd_Elems br))
  else None.

Definition closeBrace (br : braceCandidate) : split_state → split_state :=
  at_acc (match braceCandidateNode br with Some exp => add_part exp | None => addCandidateLiteral br end).

(** [cur.Seps = append(...)] and a new element. *)
Definition new_elem (s : braceSep) (st : split_state) : split_state :=
  match sp_open st with
  | [] => st
  | c :: cs => MkSplit (sp_top st) (MkCandidate (cd_Lbrace c) (cd_Rbrace c) (cd_Seps c ++ [s]) (cd_done c ++ [cd_acc c]) [] :: cs)
  end.

Definition open_brace (lbrace : option Lit) (st : split_state) : split_state :=
  MkSplit (sp_top st) (MkCandidate lbrace None [] [] [] :: sp_open st).

(** [pop], with the right brace that ends the candidate. *)
Definition pop_closing (rbrace : option Lit) (st : split_state) : split_state :=
  match sp_open st with
  | [] => st
  | c :: cs => closeBrace (MkCandidate (cd_Lbrace c) rbrace (cd_Seps c) (cd_done c) (cd_acc c)) (MkSplit (sp_top st) cs)
  end.

(** The loop over the bytes of a literal from index [j] on; [from] is [last] of the source. *)
Fixpoint split_bytes (lit : Lit) (s : gostr) (j from : nat) (st : split_state) : split_state * nat :=
  match s with
  | [] => (st, from)
  | c :: s1 =>
      if decide (c = "{"%char) then
        split_bytes lit s1 (S j) (S j) (open_brace (splitLit lit j (S j)) (addSplitLit lit from j st))
      else if decide (c = ","%char) then
        if decide (sp_open st = []) then split_bytes lit s1 (S j) from st
        else split_bytes lit s1 (S j) (S j) (new_elem (MkSep braceSepComma (splitLit lit j (S j))) (addSplitLit lit from j st))
      else if decide (c = "."%char) then
        match s1 with
        | d :: s2 =>
            if decide (sp_open st = []) then split_bytes lit s1 (S j) from st
            else if decide (d = "."%char) then
              split_bytes lit s2 (S (S j)) (S (S j)) (new_elem (MkSep braceSepDots (splitLit lit j (S (S j)))) (addSplitLit lit from j st))
            else split_bytes lit s1 (S j) from st
        | [] => split_bytes lit s1 (S j) from st
        end
      else if decide (c = "}"%char) then
        if decide (sp_open st = []) then split_bytes lit s1 (S j) from st
        else split_bytes lit s1 (S j) (S j) (pop_closing (splitLit lit j (S j)) (addSplitLit lit from j st))
      else split_bytes lit s1 (S j) from st
  end.

Definition split_part (st : split_state) (wp : WordPart) : split_state :=
  match wp with
  | PLit lit =>
      let '(st, from) := split_bytes lit (Value lit) 0 0 st in
      if decide (from = O) then at_acc (add_part (PLit lit)) st
      else addSplitLit lit from (length (Value lit)) st
  | _ => at_acc (add_part wp) st
  end.

(** The candidates that are still open are text of the ones around them. *)
Fixpoint close_open (br : braceCandidate) (rest : list braceCandidate) (top : list WordPart) : list WordPart :=
  match rest with
  | [] => addCandidateLiteral br top
  | c :: rest =>
      close_open (MkCandidate (cd_Lbrace c) (cd_Rbrace c) (cd_Seps c) (cd_done c) (addCandidateLiteral br (cd_acc c))) rest top
  end.

Definition has_open_brace (p : WordPart) : bool :=
  match p with PLit l => bool_decide ("{"%char ∈ Value l) | _ => false end.

Definition splitBraceWordParts (parts : list WordPart) : list WordPart :=
  if negb (existsb has_open_brace parts) then parts
  else
    let st := foldl split_part (MkSplit [] []) parts in
    match sp_open st with
    | [] => sp_top st
    | br :: rest => close_open br rest (sp_top st)
    end.

(** ** Expanding them: [braces] *)

(** [BraceExpansionLimitError], the error of a letter range between cases, and a run-time panic;
    [BEFuel] is none of them: it marks the end of the recursion counter. *)
Inductive brace_error := BELimit (limit : Z) | BEMixedCase (suffix : gostr) | BEPanic | BEFuel.

Record braceBudget := MkBudget { bb_limit : Z; bb_used : Z }.

(** A computation that counts on the budget it shares; [None] is the nil budget. *)
Definition BM (A : Type) : Type := option braceBudget → result brace_error A * option braceBudget.
#[export] Instance bm_ret : MRet BM := fun A a b => (Ok a, b).
#[export] Instance bm_bind : MBind BM := fun A B k c b =>
  let '(r, b) := c b in match r with Ok a => k a b | Err e => (Err e, b) end.
Definition bm_fail {A} (e : brace_error) : BM A := fun b => (Err e, b).

Definition newBraceBudget (limit : Z) : option braceBudget := if limit <=? 0 then None else Some (MkBudget limit 0).

Definition budget_add (n : Z) : BM unit := fun b =>
  match b with
  | None => (Ok tt, None)
  | Some b =>
      let b := MkBudget (bb_limit b) (wrap64 (bb_used b + n)) in
      (if bb_limit b <? bb_used b then Err (BELimit (bb_limit b)) else Ok tt, Some b)
  end.

(** Runs [f] on the elements in turn and joins the results. *)
Fixpoint bm_concat {A B} (f : A → BM (list B)) (l : list A) : BM (list B) :=
  match l with
  | [] => mret []
  | x :: l => a ← f x; b ← bm_concat f l; mret (a ++ b)
  end.

Definition hasLeadingZero (s : gostr) : bool :=
  let s := match s with c :: s' => if decide (c = "-"%char) then s' else s | [] => s end in
  match s with c :: _ :: _ => bool_decide (c = "0"%char) | _ => false end.

Definition mixedCaseBraceRange (from to : Z) : bool :=
  asciiLower from && asciiUpper to || asciiUpper from && asciiLower to.

Definition minInt : Z := - 2 ^ 63.
Definition absInt (n : Z) : Z := if n <? 0 then wrap64 (- n) else n.

Definition braceSequenceStep (s : gostr) : option Z :=
  match Atoi s with Some n => if n =? minInt then None else Some n | None => None end.

Definition formatBraceSequenceNumber (n : Z) (fixedWidth : bool) (targetWidth : nat) : gostr :=
  if negb fixedWidth then Itoa n else show_padded targetWidth n.

(** The values of the counting loop from [n] on; every turn but the first is counted by [fuel]. *)
Fixpoint seq_values (fuel : nat) (upward : bool) (to step incr n : Z) : list Z :=
  n :: (let remaining := if upward then wrapu64 (wrapu64 to - wrapu64 n) else wrapu64 (wrapu64 n - wrapu64 to) in
        if remaining <? step then []
        else match fuel with
             | O => []
             | S fuel => seq_values fuel upward to step incr (wrap64 (n + incr))
             end).

(** The number of turns that [from], [to] and [step] leave after the first. *)
Definition seq_turns (from to step : Z) : nat := Z.to_nat (Z.abs (to - from) / step).

(** The reading of a sequence: whether it counts letters, its bounds, and the width of its numbers
    when it is fixed.  [None] is an index out of range. *)
Definition sequence_bounds (from to : gostr) : option (bool * Z * Z * option nat) :=
  match Atoi from, Atoi to with
  | Some x, Some y =>
      Some (false, x, y, if hasLeadingZero from || hasLeadingZero to then Some (max (length from) (length to)) else None)
  | _, _ =>
      match from, to with c :: _, d :: _ => Some (true, byte_val c, byte_val d, None) | _, _ => None end
  end.

(** The increment: [None] when the step is no usable number. *)
Definition sequence_incr (upward : bool) (step : option gostr) : option Z :=
  let unit_step := if upward then 1 else -1 in
  match step with
  | None => Some unit_step
  | Some s =>
      n ← braceSequenceStep s;
      if n =? 0 then Some unit_step else Some (if upward then absInt n else wrap64 (- absInt n))
  end.

Definition sequence_text (chars : bool) (width : option nat) (n : Z) : gostr :=
  if chars then encode_rune n else formatBraceSequenceNumber n (bool_decide (width ≠ None)) (default O width).

Definition lit_of (v : gostr) : WordPart := PLit (MkLit noPos noPos v).

(** The size of a word: a bound on the depth of the recursion of [braces]. *)
Fixpoint part_size (p : WordPart) : nat :=
  match p with
  | PBrace _ _ _ elems => S (S (list_sum (map (fun e => list_sum (map part_size e)) elems)))
  | _ => 1
  end.
Definition word_size (parts : list WordPart) : nat := list_sum (map part_size parts).

Section braces.
(** [wordPartsSource]: the printer of [shell/syntax/printer.go] on the parts of a word. *)
Variable wordPartsSource : list WordPart → gostr.

(** The first brace expression, with the parts before and behind it. *)
Fixpoint first_brace (before parts : list WordPart) : option (list WordPart * (bool * list (list WordPart)) * WordPart * list WordPart) :=
  match parts with
  | [] => None
  | PBrace l r s es :: rest => Some (before, (s, es), PBrace l r s es, rest)
  | p :: rest => first_brace (before ++ [p]) rest
  end.

Fixpoint braces_fuel (fuel : nat) (parts : list WordPart) : BM (list (list WordPart)) :=
  match fuel with
  | O => bm_fail BEFuel
  | S fuel =>
      match first_brace [] parts with
      | None => budget_add 1;; mret [parts]
      | Some (before, (isSequence, elems), br, rest) =>
          (* The words of [next], behind what is on the left. *)
          let expand next := exp ← braces_fuel fuel next; mret (map (app before) exp) in
          if negb isSequence then bm_concat (fun elem => expand (elem ++ rest)) elems
          else
            match elems with
            | fromElem :: toElem :: more =>
                match sequence_bounds (word_Lit fromElem) (word_Lit toElem) with
                | None => bm_fail BEPanic
                | Some (chars, from, to, width) =>
                    if chars && mixedCaseBraceRange from to && bool_decide (wordPartsSource rest ≠ [])
                    then bm_fail (BEMixedCase (wordPartsSource rest))
                    else
                      let upward := from <=? to in
                      match sequence_incr upward (word_Lit <$> head more) with
                      | None => expand (lit_of (wordPartsSource [br]) :: rest)
                      | Some incr =>
                          bm_concat (fun n => expand (lit_of (sequence_text chars width n) :: rest))
                            (seq_values (seq_turns from to (absInt incr)) upward to (absInt incr) incr from)
                      end
                end
            | _ => bm_fail BEPanic
            end
      end
  end.

Definition braces (parts : list WordPart) : BM (list (list WordPart)) := braces_fuel (S (word_size parts)) parts.

(** [Braces]. *)
Definition Braces (parts : list WordPart) : result brace_error (list (list WordPart)) := (braces parts None).1.

(** ** The budget of a command *)

(** The fields of [Config] that brace expansion uses. *)
Record braceConfig := MkConfig { MaxBraceExpansionWords : Z; braceScopeDepth : Z; braceScope : braceBudget }.

Definition BeginBraceExpansionScope (cfg : braceConfig) : braceConfig :=
  MkConfig (MaxBraceExpansionWords cfg) (braceScopeDepth cfg + 1)
    (if braceScopeDepth cfg =? 0 then MkBudget 0 0 else braceScope cfg).

Definition EndBraceExpansionScope (cfg : braceConfig) : braceConfig :=
  if 0 <? braceScopeDepth cfg then MkConfig (MaxBraceExpansionWords cfg) (braceScopeDepth cfg - 1) (braceScope cfg) else cfg.

(** The expansion of the words of one [fieldsSeq], whose budget inside a scope is the one of the
    configuration, by reference. *)
Definition expand_words (words : list (list WordPart)) (cfg : braceConfig) : result brace_error (list (list WordPart)) * braceConfig :=
  let hadBraces word := existsb (fun p => match p with PBrace _ _ _ _ => true | _ => false end) word in
  let run := bm_concat (fun word => if hadBraces word then braces word else mret [word]) words in
  if MaxBraceExpansionWords cfg <=? 0 then ((run None).1, cfg)
  else if braceScopeDepth cfg =? 0 then ((run (newBraceBudget (MaxBraceExpansionWords cfg))).1, cfg)
  else
    let scope := MkBudget (MaxBraceExpansionWords cfg) (bb_used (braceScope cfg)) in
    let '(r, b) := run (Some scope) in
    (r, MkConfig (MaxBraceExpansionWords cfg) (braceScopeDepth cfg) (default scope b)).
End braces.
