(* ===== verification/BracesProps.v ===== *)
(** What brace expansion computes: the Cartesian product of the alternatives of a word, in order and
    within the budget, and the exact values of its sequences. *)
From S2P Require Import Prelude GoUtf8 GoStrconv Braces.

(** ** The reference *)

(** Every element of [xs] before every element of [ys]. *)
Definition products (xs ys : list (list WordPart)) : list (list WordPart) := concat (map (fun x => map (app x) ys) xs).

Section reference.
Variable source : list WordPart → gostr.

(** The texts of a sequence, with integers that do not overflow: [None] when its step is unusable. *)
Definition sequence_texts (elems : list (list WordPart)) : option (list gostr) :=
  match elems with
  | fromElem :: toElem :: more =>
      '(chars, from, to, width) ← sequence_bounds (word_Lit fromElem) (word_Lit toElem);
      incr ← sequence_incr (from <=? to) (word_Lit <$> head more);
      Some (map (fun k => sequence_text chars width (from + incr * Z.of_nat k)) (seq 0 (S (seq_turns from to (Z.abs incr)))))
  | _ => None
  end.

(** What a part may stand for. *)
Fixpoint alternatives (p : WordPart) : list (list WordPart) :=
  match p with
  | PBrace l r isSequence elems =>
      if isSequence then
        match sequence_texts elems with
        | Some texts => map (fun t => [lit_of t]) texts
        | None => [[lit_of (source [p])]]
        end
      else concat (map (foldr (fun p ws => products (alternatives p) ws) [[]]) elems)
  | _ => [[p]]
  end.
Definition words (parts : list WordPart) : list (list WordPart) := foldr (fun p ws => products (alternatives p) ws) [[]] parts.

(** ** Products *)

Lemma products_nil_l ys : products [[]] ys = ys.
Proof. unfold products. simpl. rewrite app_nil_r. by rewrite map_id. Qed.

Lemma products_app xs xs' ys : products (xs ++ xs') ys = products xs ys ++ products xs' ys.
Proof. unfold products. by rewrite map_app, concat_app. Qed.

Lemma products_map x ys zs : products (map (app x) ys) zs = map (app x) (products ys zs).
Proof.
  unfold products. rewrite concat_map, !map_map. f_equal. apply map_ext. intros y. rewrite map_map.
  apply map_ext. intros z. by rewrite app_assoc.
Qed.

Lemma products_assoc xs ys zs : products (products xs ys) zs = products xs (products ys zs).
Proof.
  induction xs as [|x xs IH]; [done|]. change (products (x :: xs) ys) with (map (app x) ys ++ products xs ys).
  rewrite products_app, IH, products_map. done.
Qed.

Lemma products_concat xss ys : products (concat xss) ys = concat (map (fun xs => products xs ys) xss).
Proof. induction xss as [|xs xss IH]; [done|]. simpl. by rewrite products_app, IH. Qed.

Lemma words_app ps qs : words (ps ++ qs) = products (words ps) (words qs).
Proof.
  induction ps as [|p ps IH]; simpl; [by rewrite products_nil_l|]. by rewrite IH, products_assoc.
Qed.

Definition is_brace (p : WordPart) : bool := match p with PBrace _ _ _ _ => true | _ => false end.

(** Parts that are no brace expression stand for themselves. *)
Lemma words_no_brace ps : Forall (fun p => is_brace p = false) ps → words ps = [ps].
Proof.
  induction 1 as [|p ps Hp _ IH]; [done|]. simpl. rewrite IH. by destruct p.
Qed.

Lemma words_before ps qs : Forall (fun p => is_brace p = false) ps → words (ps ++ qs) = map (app ps) (words qs).
Proof. intros H. rewrite words_app, words_no_brace by done. unfold products. simpl. by rewrite app_nil_r. Qed.

Lemma words_comma l r elems rest :
  words (PBrace l r false elems :: rest) = concat (map (fun e => words (e ++ rest)) elems).
Proof.
  simpl. rewrite products_concat, map_map. f_equal. apply map_ext. intros e. by rewrite words_app.
Qed.

Lemma words_sequence l r elems texts rest : sequence_texts elems = Some texts →
  words (PBrace l r true elems :: rest) = concat (map (fun t => words (lit_of t :: rest)) texts).
Proof.
  intros E. change (words (PBrace l r true elems :: rest)) with (products (alternatives (PBrace l r true elems)) (words rest)).
  cbn [alternatives]. rewrite E. unfold products at 1. rewrite map_map. f_equal. apply map_ext. intros t.
  unfold words at 2, products. simpl. by rewrite app_nil_r.
Qed.

Lemma words_no_step l r elems rest : sequence_texts elems = None →
  words (PBrace l r true elems :: rest) = words (lit_of (source [PBrace l r true elems]) :: rest).
Proof.
  intros E. change (words (PBrace l r true elems :: rest)) with (products (alternatives (PBrace l r true elems)) (words rest)).
  cbn [alternatives]. by rewrite E.
Qed.

Lemma words_lit t rest : words (lit_of t :: rest) = products [[lit_of t]] (words rest).
Proof. done. Qed.
End reference.

(** ** Sequences *)

(** The first brace expression splits the word. *)
Lemma first_brace_None before ps : first_brace before ps = None ↔ Forall (fun p => is_brace p = false) ps.
Proof.
  revert before. induction ps as [|p ps IH]; intros before; [by split|].
  destruct p; simpl; rewrite ?IH, Forall_cons_iff; simpl; intuition congruence.
Qed.

Lemma first_brace_Some before ps b0 s es br rest : first_brace before ps = Some (b0, (s, es), br, rest) →
  ∃ mid l r, b0 = before ++ mid ∧ br = PBrace l r s es ∧ ps = mid ++ br :: rest ∧ Forall (fun p => is_brace p = false) mid.
Proof.
  revert before. induction ps as [|p ps IH]; intros before; [done|]. destruct p; simpl.
  - intros (mid&l&r&->&->&->&Hm)%IH. exists (PLit lit :: mid), l, r. rewrite <-app_assoc. by repeat constructor.
  - intros [= <- <- <- <- <-]. exists [], Lbrace, Rbrace. rewrite app_nil_r. by repeat constructor.
  - intros (mid&l&r&->&->&->&Hm)%IH. exists (POther id :: mid), l, r. rewrite <-app_assoc. by repeat constructor.
Qed.

(** The counting loop, whose differences wrap around, runs through the exact values. *)
Lemma seq_values_exact turns (upward : bool) to step incr n :
  int64_ok n → int64_ok to → 0 < step → incr = (if upward then step else - step) →
  (if upward then n <= to else to <= n) → turns = Z.to_nat (Z.abs (to - n) / step) →
  seq_values turns upward to step incr n = map (fun k => n + incr * Z.of_nat k) (seq 0 (S turns)).
Proof.
  unfold int64_ok. intros Hn Hto Hstep Hincr Hle Hturns. revert n Hn Hle Hturns.
  induction turns as [|turns IH]; intros n Hn Hle Hturns.
  all: assert ((if upward then wrapu64 (wrapu64 to - wrapu64 n) else wrapu64 (wrapu64 n - wrapu64 to)) = Z.abs (to - n)) as Hrem
    by (unfold wrapu64; destruct upward; rewrite <-Zminus_mod, Z.mod_small by lia; lia).
  all: assert (0 <= Z.abs (to - n) / step) as Hq by (apply Z.div_pos; lia).
  all: cbn [seq_values]; cbv zeta; rewrite Hrem.
  all: pose proof (Z.div_mod (Z.abs (to - n)) step ltac:(lia)) as Hdm.
  all: pose proof (Z.mod_pos_bound (Z.abs (to - n)) step Hstep) as Hmb.
  - assert (Z.abs (to - n) / step = 0) as H0 by lia. destruct (Z.ltb_spec (Z.abs (to - n)) step); [|lia].
    simpl. f_equal. lia.
  - destruct (Z.ltb_spec (Z.abs (to - n)) step) as [Hlt|Hge]; [rewrite Z.div_small in Hturns by lia; done|].
    assert (int64_ok (n + incr)) as Hn' by (unfold int64_ok; destruct upward; subst incr; lia).
    rewrite wrap64_id by done. rewrite IH; [|exact Hn'|destruct upward; subst incr; lia|].
    2:{ replace (Z.abs (to - (n + incr))) with (Z.abs (to - n) - 1 * step) by (destruct upward; subst incr; lia).
        rewrite <-Z.add_opp_r, <-Z.mul_opp_l, Z.div_add by lia. lia. }
    change (seq 0 (S (S turns))) with (0%nat :: seq 1 (S turns)). rewrite <-seq_shift. cbn [map]. f_equal; [lia|].
    rewrite map_map. apply map_ext. intros k. lia.
Qed.

(** ** Words that expand *)

(** What [splitBraceWordParts] makes: an alternation has two elements at least, a sequence is valid. *)
Fixpoint valid_part (p : WordPart) : bool :=
  match p with
  | PBrace _ _ isSequence elems =>
      forallb (forallb valid_part) elems &&
      if isSequence then validBraceSequence elems else bool_decide (2 <= length elems)%nat
  | _ => true
  end.
Definition valid_word (ps : list WordPart) : bool := forallb valid_part ps.

(** No sequence of letters runs from one case to the other. *)
Definition same_case (elems : list (list WordPart)) : bool :=
  match elems with
  | from :: to :: _ =>
      match sequence_bounds (word_Lit from) (word_Lit to) with
      | Some (chars, x, y, _) => negb (chars && mixedCaseBraceRange x y)
      | None => true
      end
  | _ => true
  end.
Fixpoint one_case (p : WordPart) : bool :=
  match p with
  | PBrace _ _ isSequence elems => forallb (forallb one_case) elems && (negb isSequence || same_case elems)
  | _ => true
  end.

(** A valid sequence has bounds, and they are machine integers. *)
Lemma valid_sequence elems : validBraceSequence elems = true → ∃ from to more chars x y width,
  elems = from :: to :: more ∧ sequence_bounds (word_Lit from) (word_Lit to) = Some (chars, x, y, width) ∧
  int64_ok x ∧ int64_ok y.
Proof.
  destruct elems as [|from [|to more]]; [done|done|]. cbn [validBraceSequence]. unfold sequence_bound.
  intros H. destruct (Atoi (word_Lit from)) as [x|] eqn:E1, (Atoi (word_Lit to)) as [y|] eqn:E2.
  - eexists from, to, more, _, _, _, _. split; [done|]. unfold sequence_bounds. rewrite E1, E2. split; [done|]. split; by eapply Atoi_range.
  - destruct (word_Lit to) as [|d [|]]; [done| |done]. by destruct (asciiLetter (byte_val d)); simpl in H.
  - destruct (word_Lit from) as [|d [|]]; [done| |done]. by destruct (asciiLetter (byte_val d)); simpl in H.
  - destruct (word_Lit from) as [|c [|]] eqn:Ef; [done| |done]. destruct (word_Lit to) as [|d [|]] eqn:Et; [by destruct (asciiLetter (byte_val c))| |by destruct (asciiLetter (byte_val c))].
    eexists from, to, more, _, _, _, _. split; [done|]. unfold sequence_bounds. rewrite Ef, Et, E1. split; [done|].
    pose proof (byte_val_range c). pose proof (byte_val_range d). unfold int64_ok. lia.
Qed.

(** ** The budget *)

Definition budget_ok (b : option braceBudget) : Prop :=
  match b with None => True | Some b => 0 <= bb_used b <= bb_limit b ∧ bb_limit b < 2 ^ 63 - 1 end.

(** The words [ws], paid for one by one. *)
Definition spend (ws : list (list WordPart)) : BM (list (list WordPart)) := fun b =>
  match b with
  | None => (Ok ws, None)
  | Some (MkBudget limit used) =>
      if used + glen ws <=? limit then (Ok ws, Some (MkBudget limit (used + glen ws)))
      else (Err (BELimit limit), Some (MkBudget limit (limit + 1)))
  end.

Definition agrees (c : BM (list (list WordPart))) (ws : list (list WordPart)) : Prop := ∀ b, budget_ok b → c b = spend ws b.

Lemma agrees_leaf ps : agrees (budget_add 1;; mret [ps]) [ps].
Proof.
  intros [[limit used]|] Hb; [|done]. destruct Hb as [Hu Hl]. simpl in Hu, Hl.
  unfold budget_add, mbind, bm_bind, spend, glen. simpl. change (Z.of_nat 1) with 1.
  rewrite wrap64_id by (unfold int64_ok; lia).
  destruct (Z.ltb_spec limit (used + 1)), (Z.leb_spec (used + 1) limit); [lia| |done|lia].
  do 3 f_equal. lia.
Qed.

Lemma agrees_map (f : list WordPart → list WordPart) c ws : agrees c ws → agrees (exp ← c; mret (map f exp)) (map f ws).
Proof.
  intros Hc b Hb. unfold mbind, bm_bind. rewrite Hc by done. destruct b as [[limit used]|]; [|done]. simpl.
  unfold glen. rewrite length_map. by destruct (used + Z.of_nat (length ws) <=? limit).
Qed.

Lemma agrees_concat {A} (f : A → BM (list (list WordPart))) (g : A → list (list WordPart)) l :
  Forall (fun x => agrees (f x) (g x)) l → agrees (bm_concat f l) (concat (map g l)).
Proof.
  induction 1 as [|x l Hx _ IH]; intros b Hb.
  { destruct b as [[limit used]|]; [|done]. unfold spend, glen. simpl. destruct Hb as [Hu _]. simpl in Hu.
    rewrite Z.add_0_r. by destruct (Z.leb_spec used limit); [|lia]. }
  simpl. unfold mbind, bm_bind. rewrite Hx by done. destruct b as [[limit used]|]; [|simpl; by rewrite IH].
  destruct Hb as [Hu Hl]. simpl in Hu, Hl. pose proof (glen_nonneg (g x)). pose proof (glen_nonneg (concat (map g l))).
  simpl. rewrite glen_app.
  destruct (Z.leb_spec (used + glen (g x)) limit); [|destruct (Z.leb_spec (used + (glen (g x) + glen (concat (map g l)))) limit); [lia|done]].
  rewrite IH by (simpl; lia). simpl. rewrite <-Z.add_assoc.
  by destruct (used + (glen (g x) + glen (concat (map g l))) <=? limit).
Qed.

(** ** The expansion *)

Lemma word_size_app ps qs : word_size (ps ++ qs) = (word_size ps + word_size qs)%nat.
Proof. unfold word_size. by rewrite map_app, list_sum_app. Qed.

Lemma word_size_elem e elems : e ∈ elems → (word_size e <= list_sum (map word_size elems))%nat.
Proof.
  induction elems as [|x elems IH]; [by intros ?%elem_of_nil|]. rewrite elem_of_cons. simpl.
  intros [->|He]; [lia|]. specialize (IH He). lia.
Qed.

Lemma word_size_brace l r s elems : part_size (PBrace l r s elems) = S (S (list_sum (map word_size elems))).
Proof. done. Qed.

Lemma absInt_incr upward step incr : sequence_incr upward step = Some incr →
  absInt incr = Z.abs incr ∧ 0 < Z.abs incr ∧ incr = (if upward then Z.abs incr else - Z.abs incr).
Proof.
  unfold sequence_incr. assert (∀ n, n ≠ 0 → int64_ok n → n ≠ minInt →
    let i := if upward then absInt n else wrap64 (- absInt n) in
    absInt i = Z.abs i ∧ 0 < Z.abs i ∧ i = (if upward then Z.abs i else - Z.abs i)) as Hn.
  { unfold int64_ok, minInt. intros n H0 Hn Hm. simpl. assert (absInt n = Z.abs n) as ->.
    { unfold absInt. destruct (Z.ltb_spec n 0); [rewrite wrap64_id by (unfold int64_ok; lia)|]; lia. }
    destruct upward.
    - unfold absInt. destruct (Z.ltb_spec (Z.abs n) 0); lia.
    - rewrite wrap64_id by (unfold int64_ok; lia). unfold absInt. destruct (Z.ltb_spec (- Z.abs n) 0); [|lia].
      rewrite wrap64_id by (unfold int64_ok; lia). lia. }
  destruct step as [s|].
  - unfold braceSequenceStep. destruct (Atoi s) as [n|] eqn:E; [|done]. simpl. destruct (Z.eqb_spec n minInt); [done|]. simpl.
    destruct (Z.eqb_spec n 0); intros [= <-]; [by destruct upward|].
    apply Hn; [done| |done]. by eapply Atoi_range.
  - intros [= <-]. by destruct upward.
Qed.

Section expansion.
Variable source : list WordPart → gostr.

(** A sequence that the code runs through has the texts of the reference. *)
Lemma sequence_values from to step incr : int64_ok from → int64_ok to → sequence_incr (from <=? to) step = Some incr →
  seq_values (seq_turns from to (absInt incr)) (from <=? to) to (absInt incr) incr from =
  map (fun k => from + incr * Z.of_nat k) (seq 0 (S (seq_turns from to (Z.abs incr)))).
Proof.
  intros Hf Ht Hi. destruct (absInt_incr _ _ _ Hi) as (->&Hpos&Hsign).
  apply seq_values_exact; [done|done|done|done| |done]. destruct (Z.leb_spec from to); lia.
Qed.

Lemma braces_fuel_agrees fuel ps : (word_size ps < fuel)%nat → valid_word ps = true → forallb one_case ps = true →
  agrees (braces_fuel source fuel ps) (words source ps).
Proof.
  revert ps. induction fuel as [|fuel IH]; intros ps Hsize Hvalid Hcase; [lia|]. cbn [braces_fuel].
  destruct (first_brace [] ps) as [[[[before [s elems]] br] rest]|] eqn:E; cycle 1.
  { apply first_brace_None in E. rewrite words_no_brace by done. apply agrees_leaf. }
  apply first_brace_Some in E as (mid&l&r&->&->&->&Hmid). simpl.
  unfold valid_word in Hvalid. rewrite !forallb_app in Hvalid, Hcase. simpl in Hvalid, Hcase.
  rewrite !andb_true_iff in Hvalid, Hcase. destruct Hvalid as (_&(Hve&Hvs)&Hvr), Hcase as (_&(Hce&Hcs)&Hcr).
  rewrite word_size_app in Hsize. unfold word_size in Hsize at 2. simpl in Hsize. fold (word_size rest) in Hsize.
  change (list_sum (map (fun e => list_sum (map part_size e)) elems)) with (list_sum (map word_size elems)) in Hsize.
  rewrite words_before by done.
  assert (∀ next, (word_size next < S (S (list_sum (map word_size elems))) + word_size rest)%nat →
    valid_word next = true → forallb one_case next = true →
    agrees (exp ← braces_fuel source fuel next; mret (map (app mid) exp)) (map (app mid) (words source next))) as Hexp.
  { intros next H1 H2 H3. apply agrees_map, IH; [lia|done|done]. }
  destruct s; simpl in Hvs, Hcs; cbn [negb].
  - destruct (valid_sequence elems Hvs) as (fromE&toE&more&chars&x&y&width&->&Hb&Hx&Hy).
    cbn [same_case] in Hcs. rewrite Hb in Hcs |- *. rewrite (proj1 (negb_true_iff _) Hcs). cbn [andb].
    destruct (sequence_incr (x <=? y) (word_Lit <$> head more)) as [incr|] eqn:Ei.
    + assert (sequence_texts (fromE :: toE :: more) = Some (map (fun n => sequence_text chars width n)
        (map (fun k => x + incr * Z.of_nat k) (seq 0 (S (seq_turns x y (Z.abs incr))))))) as Ht.
      { unfold sequence_texts. rewrite Hb. simpl. rewrite Ei. simpl. by rewrite map_map. }
      rewrite sequence_values with (step := word_Lit <$> head more) by done.
      rewrite (words_sequence _ _ _ _ _ _ Ht), concat_map, !map_map.
      rewrite <-(map_map (fun k => x + incr * Z.of_nat k) (fun n => map (app mid) (words source (lit_of (sequence_text chars width n) :: rest)))).
      apply agrees_concat. apply Forall_true. intros n. apply Hexp; [unfold word_size; simpl; lia|done|done].
    + rewrite words_no_step by (unfold sequence_texts; rewrite Hb; simpl; by rewrite Ei).
      apply Hexp; [unfold word_size; simpl; lia|done|done].
  - rewrite words_comma, concat_map, map_map. apply agrees_concat. rewrite forallb_forall in Hve, Hce.
    apply list.Forall_forall. intros e He. pose proof (word_size_elem e elems He). apply list_elem_of_In in He.
    apply Hexp; [rewrite word_size_app; lia| |].
    + unfold valid_word. rewrite forallb_app, andb_true_iff. split; [by apply Hve|done].
    + rewrite forallb_app, andb_true_iff. split; [by apply Hce|done].
Qed.
End expansion.
