(* ===== verification/BracesSplit.v ===== *)
(** What [splitBraceWordParts] finds: the text of a word is kept, every brace expression it makes is
    valid, and every brace expression that is written is found. *)
From S2P Require Import Prelude GoUtf8 GoStrconv Braces BracesProps.

(** ** The text of a word *)

Section text.
Variable other : nat → gostr.   (* the text of the parts of other kinds *)

Definition sep_text (isSequence : bool) : gostr := if isSequence then go ".." else go ",".

Fixpoint part_text (p : WordPart) : gostr :=
  match p with
  | PLit l => Value l
  | PBrace _ _ isSequence elems => "{"%char :: join (sep_text isSequence) (map (fun e => concat (map part_text e)) elems) ++ go "}"
  | POther id => other id
  end.
Definition text (ps : list WordPart) : gostr := concat (map part_text ps).

Definition lit_text (l : option Lit) : gostr := match l with Some l => Value l | None => [] end.

Lemma text_app ps qs : text (ps ++ qs) = text ps ++ text qs.
Proof. unfold text. by rewrite map_app, concat_app. Qed.
Lemma text_cons p ps : text (p :: ps) = part_text p ++ text ps.
Proof. done. Qed.
Lemma text_lit l : text [PLit l] = Value l.
Proof. unfold text. simpl. apply app_nil_r. Qed.

(** [f] writes the text [t] behind the parts, and valid parts only. *)
Definition adds (f : list WordPart → list WordPart) (t : gostr) : Prop :=
  ∀ ps, text (f ps) = text ps ++ t ∧ (valid_word ps = true → valid_word (f ps) = true).

Lemma valid_word_app ps qs : valid_word (ps ++ qs) = valid_word ps && valid_word qs.
Proof. apply forallb_app. Qed.

Lemma last_split (ps : list WordPart) p : list.last ps = Some p → ps = take (length ps - 1) ps ++ [p].
Proof.
  intros H. apply last_Some in H as [qs ->]. rewrite length_app. simpl.
  replace (length qs + 1 - 1)%nat with (length qs) by lia. by rewrite take_app_length.
Qed.

Lemma adds_snoc p : valid_part p = true → adds (fun ps => ps ++ [p]) (part_text p).
Proof.
  intros Hp ps. split; [rewrite text_app; unfold text at 2; simpl; by rewrite app_nil_r|].
  intros H. rewrite valid_word_app, H. simpl. by rewrite Hp.
Qed.

Lemma adds_id : adds (fun ps => ps) [].
Proof. intros ps. by rewrite app_nil_r. Qed.

Lemma adds_comp f g t u : adds f t → adds g u → adds (fun ps => g (f ps)) (t ++ u).
Proof.
  intros Hf Hg ps. destruct (Hf ps) as [Hf1 Hf2], (Hg (f ps)) as [Hg1 Hg2]. rewrite Hg1, Hf1, app_assoc. auto.
Qed.

Lemma adds_lit l : adds (add_lit l) (lit_text l).
Proof.
  destruct l as [l|]; [|apply adds_id]. intros ps. unfold add_lit.
  destruct (list.last ps) as [[prev| |]|] eqn:E; try exact (adds_snoc (PLit l) eq_refl ps).
  destruct (_ && _); [|exact (adds_snoc (PLit l) eq_refl ps)].
  apply last_split in E. revert E. generalize (take (length ps - 1) ps) as k. intros k ->. split.
  - rewrite !text_app, !text_lit. simpl. by rewrite app_assoc.
  - rewrite !valid_word_app. done.
Qed.

Lemma adds_part p : valid_part p = true → adds (add_part p) (part_text p).
Proof. intros Hp. destruct p; [apply (adds_lit (Some lit))|by apply adds_snoc|by apply adds_snoc]. Qed.

Lemma adds_parts elem : valid_word elem = true → adds (add_parts elem) (text elem).
Proof.
  unfold add_parts. induction elem as [|p elem IH]; intros H; [apply adds_id|].
  apply andb_true_iff in H as [Hp H]. simpl. rewrite text_cons. apply (adds_comp _ _ _ _ (adds_part p Hp) (IH H)).
Qed.

(** ** The states of the scan *)

Definition sep_ok (s : braceSep) : Prop := lit_text (sep_lit s) = sep_text (bool_decide (sep_kind s = braceSepDots)).

(** Elements with the separators before them. *)
Fixpoint interleave (seps : list braceSep) (elems : list (list WordPart)) : gostr :=
  match seps, elems with
  | s :: seps, e :: elems => lit_text (sep_lit s) ++ text e ++ interleave seps elems
  | _, _ => []
  end.
Definition elems_text (seps : list braceSep) (elems : list (list WordPart)) : gostr :=
  match elems with [] => [] | e :: elems => text e ++ interleave seps elems end.

Definition cand_text (c : braceCandidate) : gostr := lit_text (cd_Lbrace c) ++ elems_text (cd_Seps c) (cd_Elems c).

Record cand_ok (c : braceCandidate) : Prop := {
  co_lbrace : lit_text (cd_Lbrace c) = go "{";
  co_seps : Forall sep_ok (cd_Seps c);
  co_count : length (cd_done c) = length (cd_Seps c);
  co_valid : forallb valid_word (cd_Elems c) = true;
}.

Fixpoint open_text (open : list braceCandidate) : gostr :=
  match open with [] => [] | c :: open => open_text open ++ cand_text c end.
Definition state_text (st : split_state) : gostr := text (sp_top st) ++ open_text (sp_open st).

Record state_ok (st : split_state) : Prop := {
  so_top : valid_word (sp_top st) = true;
  so_open : Forall (fun c => cand_ok c ∧ cd_Rbrace c = None) (sp_open st);
}.

Lemma interleave_app seps seps' elems elems' : length seps = length elems →
  interleave (seps ++ seps') (elems ++ elems') = interleave seps elems ++ interleave seps' elems'.
Proof.
  revert elems. induction seps as [|s seps IH]; intros [|e elems] H; try done.
  simpl. rewrite IH by (simpl in H; lia). by rewrite !app_assoc.
Qed.

Lemma elems_text_snoc seps s done acc e : length done = length seps →
  elems_text (seps ++ [s]) (done ++ [acc] ++ [e]) = elems_text seps (done ++ [acc]) ++ lit_text (sep_lit s) ++ text e.
Proof.
  intros H. destruct done as [|d done].
  - destruct seps; [|done]. simpl. by rewrite !app_nil_r.
  - destruct seps as [|s0 seps]; [done|]. rewrite (app_assoc (d :: done)). cbn [app elems_text].
    change (s0 :: seps ++ [s]) with ((s0 :: seps) ++ [s]). rewrite interleave_app by (rewrite length_app; simpl in *; lia).
    simpl. by rewrite app_nil_r, !app_assoc.
Qed.

(** Writing to the last element. *)
Lemma elems_text_last seps done acc acc' t : length done = length seps → text acc' = text acc ++ t →
  elems_text seps (done ++ [acc']) = elems_text seps (done ++ [acc]) ++ t.
Proof.
  intros H E. destruct (list.last seps) as [s|] eqn:El.
  - apply last_Some in El as [seps' ->]. rewrite length_app in H. simpl in H.
    destruct done as [|d done _] using rev_ind; [simpl in H; lia|].
    rewrite length_app in H. simpl in H. rewrite <-!app_assoc.
    rewrite !elems_text_snoc by lia. by rewrite E, !app_assoc.
  - apply last_None in El as ->. destruct done; [|done]. simpl. by rewrite !app_nil_r.
Qed.

Lemma at_acc_adds f t st : adds f t → state_ok st → state_ok (at_acc f st) ∧ state_text (at_acc f st) = state_text st ++ t.
Proof.
  intros Hf [Ht Ho]. unfold at_acc, state_text. destruct (sp_open st) as [|c cs] eqn:E.
  - simpl. destruct (Hf (sp_top st)) as [H1 H2]. rewrite H1, !app_nil_r. split; [split; [by apply H2|constructor]|done].
  - apply Forall_cons_1 in Ho as [[[H1 H2 H3 H4] HR] Ho]. destruct (Hf (cd_acc c)) as [Ha Hv].
    unfold cd_Elems in H4. rewrite forallb_app in H4. simpl in H4. apply andb_true_iff in H4 as [H4 H5].
    rewrite andb_true_r in H5. simpl. split.
    + split; [done|]. constructor; [|done]. split; [|done]. split; simpl; [done|done|done|].
      unfold cd_Elems. simpl. rewrite forallb_app. simpl. by rewrite H4, Hv.
    + unfold cand_text, cd_Elems. simpl. rewrite (elems_text_last _ _ _ _ _ H3 Ha). by rewrite !app_assoc.
Qed.
(** ** Candidates *)

Lemma adds_zip seps elems : length seps = length elems → forallb valid_word elems = true →
  adds (fun ps => foldl (fun ps '(s, e) => add_parts e (add_lit (sep_lit s) ps)) ps (zip seps elems)) (interleave seps elems).
Proof.
  revert elems. induction seps as [|s seps IH]; intros [|e elems] H Hv; try done; [apply adds_id|].
  apply andb_true_iff in Hv as [He Hv]. simpl in H |- *. rewrite app_assoc.
  refine (adds_comp _ _ _ _ (adds_comp _ _ _ _ (adds_lit (sep_lit s)) (adds_parts e He)) (IH elems _ Hv)). lia.
Qed.

Lemma adds_candidate c : cand_ok c → adds (addCandidateLiteral c) (cand_text c ++ lit_text (cd_Rbrace c)).
Proof.
  intros [_ _ Hc Hv]. unfold addCandidateLiteral, cand_text.
  assert (length (cd_Elems c) = S (length (cd_Seps c))) as Hl by (unfold cd_Elems; rewrite length_app; simpl; lia).
  destruct (cd_Elems c) as [|e elems]; [done|]. apply andb_true_iff in Hv as [He Hv]. simpl in Hl.
  exact (adds_comp _ _ _ _ (adds_comp _ _ _ _ (adds_lit (cd_Lbrace c))
    (adds_comp _ _ _ _ (adds_parts e He) (adds_zip (cd_Seps c) elems ltac:(lia) Hv))) (adds_lit (cd_Rbrace c))).
Qed.

Lemma join_cons sep (x : gostr) l : l ≠ [] → join sep (x :: l) = x ++ sep ++ join sep l.
Proof. by destruct l. Qed.

Lemma comma_elems_nonempty cur seps elems : comma_elems cur seps elems ≠ [].
Proof.
  revert cur elems. induction seps as [|s seps IH]; intros cur [|e elems]; simpl; try done.
  case_decide; [done|apply IH].
Qed.

Lemma comma_elems_text cur seps elems : length seps = length elems → Forall sep_ok seps →
  valid_word cur = true → forallb valid_word elems = true →
  join (go ",") (map text (comma_elems cur seps elems)) = text cur ++ interleave seps elems ∧
  forallb valid_word (comma_elems cur seps elems) = true.
Proof.
  revert cur elems. induction seps as [|s seps IH]; intros cur [|e elems] Hl Hs Hc Hv; try done.
  { simpl. by rewrite app_nil_r, Hc. }
  apply Forall_cons_1 in Hs as [Hs Hs']. apply andb_true_iff in Hv as [He Hv]. simpl in Hl.
  cbn [comma_elems interleave]. unfold sep_ok in Hs.
  destruct (decide (sep_kind s = braceSepComma)) as [Hk|Hk].
  - destruct (IH e elems) as [Hj Hvv]; [lia|done|done|done|]. cbn [map].
    rewrite join_cons by (intros H%map_eq_nil; by eapply comma_elems_nonempty).
    rewrite Hj, Hs, Hk. split; [done|]. simpl. by rewrite Hc, Hvv.
  - destruct (IH (cur ++ match sep_lit s with Some l => [PLit l] | None => [] end ++ e) elems) as [Hj Hvv]; [lia|done| |done|].
    { rewrite !valid_word_app, Hc, He. by destruct (sep_lit s). }
    split; [|done]. rewrite Hj, !text_app, <-!app_assoc. do 2 f_equal.
    destruct (sep_lit s) as [l|]; [by rewrite text_lit|done].
Qed.

Lemma comma_elems_length cur seps elems : length seps = length elems →
  length (comma_elems cur seps elems) = S (length (filter (fun s => sep_kind s = braceSepComma) seps)).
Proof.
  revert cur elems. induction seps as [|s seps IH]; intros cur [|e elems] H; try done.
  simpl in H |- *. rewrite filter_cons. case_decide; simpl; rewrite IH by lia; done.
Qed.

Lemma dots_text seps elems : length seps = length elems → Forall sep_ok seps →
  Forall (fun s => sep_kind s ≠ braceSepComma) seps → ∀ e, join (go "..") (map text (e :: elems)) = text e ++ interleave seps elems.
Proof.
  revert elems. induction seps as [|s seps IH]; intros [|e' elems] Hl Hs Hk e; try done.
  { simpl. by rewrite app_nil_r. }
  apply Forall_cons_1 in Hs as [Hs Hs']. apply Forall_cons_1 in Hk as [Hk Hk'].
  change (map text (e :: e' :: elems)) with (text e :: map text (e' :: elems)). rewrite join_cons by done.
  rewrite IH by (done || (simpl in Hl; lia)). simpl. unfold sep_ok in Hs. rewrite Hs.
  destruct (sep_kind s); [done|]. done.
Qed.

(** A candidate that becomes an expression keeps its text. *)
Lemma node_text c rb exp : cand_ok c → cd_Rbrace c = Some rb → Value rb = go "}" → braceCandidateNode c = Some exp →
  part_text exp = cand_text c ++ go "}" ∧ valid_part exp = true.
Proof.
  intros [Hb Hs Hc Hv] Hr Hrb. unfold braceCandidateNode, cand_text. rewrite Hr, Hb.
  assert (length (cd_Elems c) = S (length (cd_Seps c))) as Hl by (unfold cd_Elems; rewrite length_app; simpl; lia).
  rewrite bool_decide_eq_false_2 by done. simpl.
  unfold braceCommaElems. destruct (cd_Elems c) as [|e elems]; [done|]. apply andb_true_iff in Hv as [He Hv]. simpl in Hl.
  destruct (bool_decide_reflect (length (e :: elems) <= 1)%nat) as [|H2]; [done|].
  destruct (existsb (fun s => bool_decide (sep_kind s = braceSepComma)) (cd_Seps c)) eqn:Ex.
  - intros [= <-]. cbn [part_text valid_part sep_text]. fold text.
    destruct (comma_elems_text e (cd_Seps c) elems) as [Hj Hvv]; [lia|done|done|done|].
    change (map (fun e => concat (map part_text e))) with (map text). rewrite Hj.
    split; [done|]. change (forallb (forallb valid_part)) with (forallb valid_word). rewrite Hvv. simpl. rewrite bool_decide_eq_true. rewrite comma_elems_length by lia.
    apply existsb_exists in Ex as (s&Hin&Hk). apply bool_decide_eq_true_1 in Hk.
    assert (s ∈ filter (fun s => sep_kind s = braceSepComma) (cd_Seps c)) as Hf by (apply list_elem_of_filter; split; [done|by apply list_elem_of_In]).
    destruct (filter _ (cd_Seps c)); [by apply elem_of_nil in Hf|]. simpl. lia.
  - destruct (validBraceSequence (e :: elems)) eqn:Ev; [|done]. intros [= <-]. cbn [part_text valid_part sep_text].
    change (map (fun e => concat (map part_text e))) with (map text).
    rewrite dots_text with (seps := cd_Seps c); [|lia|done|].
    2:{ apply list.Forall_forall. intros s Hin Hk. apply list_elem_of_In in Hin.
        assert (existsb (fun s => bool_decide (sep_kind s = braceSepComma)) (cd_Seps c) = true) as Hc'; [|congruence].
        apply existsb_exists. exists s. split; [done|]. by rewrite bool_decide_eq_true. }
    rewrite Ev, andb_true_r. split; [done|]. change (forallb (forallb valid_part)) with (forallb valid_word). apply andb_true_iff. split; [exact He|exact Hv].
Qed.

Lemma adds_close c rb st : cand_ok c → cd_Rbrace c = Some rb → Value rb = go "}" → state_ok st →
  state_ok (closeBrace c st) ∧ state_text (closeBrace c st) = state_text st ++ cand_text c ++ go "}".
Proof.
  intros Hc Hr Hrb Hst. unfold closeBrace. destruct (braceCandidateNode c) as [exp|] eqn:E.
  - destruct (node_text c rb exp Hc Hr Hrb E) as [<- Hv]. by apply at_acc_adds; [apply adds_part|].
  - apply at_acc_adds; [|done]. pose proof (adds_candidate c Hc) as Ha. rewrite Hr in Ha. simpl in Ha. by rewrite Hrb in Ha.
Qed.

(** ** The steps of the scan *)

Lemma new_elem_ok s st : sp_open st ≠ [] → sep_ok s → state_ok st →
  state_ok (new_elem s st) ∧ state_text (new_elem s st) = state_text st ++ lit_text (sep_lit s).
Proof.
  intros Hne Hs [Ht Ho]. unfold new_elem, state_text. destruct (sp_open st) as [|c cs]; [done|].
  apply Forall_cons_1 in Ho as [[[H1 H2 H3 H4] HR] Ho]. unfold cd_Elems in H4. simpl. split.
  - split; [done|]. constructor; [|done]. split; [|done]. split; simpl; [done| | |].
    + by apply Forall_app_2; [|constructor].
    + rewrite !length_app. simpl. lia.
    + unfold cd_Elems. simpl. rewrite forallb_app, H4. done.
  - unfold cand_text, cd_Elems. simpl. rewrite <-app_assoc, elems_text_snoc by done. simpl.
    by rewrite app_nil_r, !app_assoc.
Qed.

Lemma open_brace_ok l st : lit_text l = go "{" → state_ok st →
  state_ok (open_brace l st) ∧ state_text (open_brace l st) = state_text st ++ go "{".
Proof.
  intros Hl [Ht Ho]. unfold open_brace, state_text. simpl. split.
  - split; [done|]. constructor; [|done]. split; [|done]. by split.
  - unfold cand_text, cd_Elems. simpl. by rewrite Hl, !app_assoc, app_nil_r.
Qed.

Lemma pop_closing_ok rb st : sp_open st ≠ [] → lit_text rb = go "}" → state_ok st →
  state_ok (pop_closing rb st) ∧ state_text (pop_closing rb st) = state_text st ++ go "}".
Proof.
  intros Hne Hrb [Ht Ho]. unfold pop_closing. destruct (sp_open st) as [|c cs] eqn:E; [done|].
  apply Forall_cons_1 in Ho as [[[H1 H2 H3 H4] HR] Ho]. destruct rb as [rb|]; [|done].
  destruct (adds_close (MkCandidate (cd_Lbrace c) (Some rb) (cd_Seps c) (cd_done c) (cd_acc c)) rb (MkSplit (sp_top st) cs)) as [Ho' Ht'];
    [by split|done|done|by split|].
  split; [done|]. rewrite Ht'. unfold state_text. rewrite E. simpl. by rewrite !app_assoc.
Qed.

Lemma close_open_text br rest top : valid_word top = true → Forall (fun c => cand_ok c ∧ cd_Rbrace c = None) (br :: rest) →
  text (close_open br rest top) = text top ++ open_text (br :: rest) ∧ valid_word (close_open br rest top) = true.
Proof.
  intros Ht. revert br. induction rest as [|c rest IH]; intros br [[Hbr HR] Hrest]%Forall_cons_1; simpl.
  - destruct (adds_candidate br Hbr top) as [H1 H2]. rewrite HR in H1. simpl in H1. rewrite app_nil_r in H1. auto.
  - apply Forall_cons_1 in Hrest as [[Hc HRc] Hrest]. destruct Hc as [H1 H2 H3 H4].
    destruct (adds_candidate br Hbr (cd_acc c)) as [Ha Hv]. rewrite HR in Ha. simpl in Ha. rewrite app_nil_r in Ha.
    unfold cd_Elems in H4. rewrite forallb_app in H4. simpl in H4. rewrite andb_true_r in H4. apply andb_true_iff in H4 as [H4 H5].
    destruct (IH (MkCandidate (cd_Lbrace c) (cd_Rbrace c) (cd_Seps c) (cd_done c) (addCandidateLiteral br (cd_acc c)))) as [Hx Hy].
    { constructor; [|done]. split; [|done]. split; simpl; [done|done|done|].
      unfold cd_Elems. simpl. rewrite forallb_app. simpl. by rewrite H4, Hv. }
    split; [|done]. rewrite Hx. simpl. unfold cand_text at 1, cd_Elems. simpl.
    rewrite (elems_text_last _ _ _ _ _ H3 Ha). unfold cand_text, cd_Elems. by rewrite <-!app_assoc.
Qed.
(** ** The scan *)

Lemma slice_drop {A} (l : list A) (i j : nat) : (i <= j)%nat → slice i j l ++ drop j l = drop i l.
Proof. intros H. unfold slice. replace j with (i + (j - i))%nat at 2 by lia. by rewrite <-drop_drop, take_drop. Qed.

Lemma drop_S_cons {A} (l : list A) j c s : drop j l = c :: s → drop (S j) l = s ∧ slice j (S j) l = [c].
Proof.
  intros H. replace (S j) with (j + 1)%nat by lia. rewrite <-drop_drop, H. unfold slice.
  replace (j + 1 - j)%nat with 1%nat by lia. by rewrite H.
Qed.

Lemma splitLit_text lit i j : lit_text (splitLit lit i j) = slice i j (Value lit).
Proof.
  unfold splitLit, slice. case_decide; [|done]. by replace (j - i)%nat with O by lia.
Qed.

Lemma flush_ok lit i j st : state_ok st → state_ok (addSplitLit lit i j st) ∧
  state_text (addSplitLit lit i j st) = state_text st ++ slice i j (Value lit).
Proof. intros H. rewrite <-splitLit_text. by apply at_acc_adds; [apply adds_lit|]. Qed.

Lemma flush_open lit i j st : sp_open (addSplitLit lit i j st) = [] ↔ sp_open st = [].
Proof. unfold addSplitLit, at_acc. by destruct (sp_open st). Qed.

(** A step of the scan at the separator [t], which [f] reads after the flush. *)
Lemma step_ok lit from j k st t f : state_ok st → (from <= j)%nat → drop j (Value lit) = t ++ drop k (Value lit) →
  (∀ st', state_ok st' → (sp_open st' = [] ↔ sp_open st = []) → state_ok (f st') ∧ state_text (f st') = state_text st' ++ t) →
  state_ok (f (addSplitLit lit from j st)) ∧
  state_text (f (addSplitLit lit from j st)) ++ drop k (Value lit) = state_text st ++ drop from (Value lit).
Proof.
  intros Hst Hle Hd Hf. destruct (flush_ok lit from j st Hst) as [H1 H2].
  destruct (Hf _ H1 (flush_open _ _ _ _)) as [H3 H4]. split; [done|].
  rewrite H4, H2, <-!app_assoc. f_equal. by rewrite <-Hd, slice_drop.
Qed.

Lemma split_bytes_ok lit s j from st : drop j (Value lit) = s → (from <= j)%nat → state_ok st →
  let '(st', from') := split_bytes lit s j from st in
  state_ok st' ∧ state_text st' ++ drop from' (Value lit) = state_text st ++ drop from (Value lit).
Proof.
  revert j from st. induction s as [s IH] using (induction_ltof1 _ (@length ascii)); unfold ltof in IH; intros j from st Hs Hle Hst.
  destruct s as [|c s1]; [done|]. destruct (drop_S_cons _ _ _ _ Hs) as [Hs1 Hsl].
  assert (∀ from st, (from <= S j)%nat → state_ok st → let '(st', from') := split_bytes lit s1 (S j) from st in
    state_ok st' ∧ state_text st' ++ drop from' (Value lit) = state_text st ++ drop from (Value lit)) as IH1.
  { intros from' st' H1 H2. apply IH; [simpl; lia|done|done|done]. }
  assert (∀ (f : split_state → split_state),
    (∀ st', state_ok st' → (sp_open st' = [] ↔ sp_open st = []) → state_ok (f st') ∧ state_text (f st') = state_text st' ++ [c]) →
    let '(st', from') := split_bytes lit s1 (S j) (S j) (f (addSplitLit lit from j st)) in
    state_ok st' ∧ state_text st' ++ drop from' (Value lit) = state_text st ++ drop from (Value lit)) as IHf.
  { intros f Hf. destruct (step_ok lit from j (S j) st [c] f Hst Hle) as [H1 H2]; [by rewrite Hs, Hs1|done|].
    specialize (IH1 (S j) _ ltac:(lia) H1). destruct (split_bytes _ _ _ _ _). by rewrite <-H2. }
  assert (lit_text (splitLit lit j (S j)) = [c]) as Hl by (by rewrite splitLit_text).
  cbn [split_bytes].
  destruct (decide (c = "{"%char)) as [->|]; [apply IHf; intros; by apply open_brace_ok|].
  destruct (decide (c = ","%char)) as [->|].
  { case_decide; [apply IH1; [lia|done]|]. apply IHf. intros st' H1 H2. rewrite <-Hl.
    apply (new_elem_ok (MkSep braceSepComma (splitLit lit j (S j)))); [by rewrite H2| |done]. unfold sep_ok. simpl. by rewrite Hl. }
  destruct (decide (c = "."%char)) as [->|].
  { destruct s1 as [|d s2]; [apply IH1; [lia|done]|]. case_decide; [apply IH1; [lia|done]|].
    destruct (decide (d = "."%char)) as [->|]; [|apply IH1; [lia|done]].
    destruct (drop_S_cons _ _ _ _ Hs1) as [Hs2 _].
    assert (lit_text (splitLit lit j (S (S j))) = go "..") as Hl2.
    { rewrite splitLit_text. unfold slice. rewrite Hs. by replace (S (S j) - j)%nat with 2%nat by lia. }
    destruct (step_ok lit from j (S (S j)) st (go "..") (new_elem (MkSep braceSepDots (splitLit lit j (S (S j))))) Hst Hle) as [H1 H2];
      [by rewrite Hs, Hs2| |].
    { intros st' Ho1 Ho2. rewrite <-Hl2. apply (new_elem_ok (MkSep braceSepDots (splitLit lit j (S (S j))))); [by rewrite Ho2| |done].
      unfold sep_ok. simpl. by rewrite Hl2. }
    assert (length s2 < length ("."%char :: "."%char :: s2))%nat as Hlt by (simpl; lia).
    specialize (IH s2 Hlt (S (S j)) (S (S j)) _ Hs2 ltac:(lia) H1). destruct (split_bytes _ _ _ _ _). by rewrite <-H2. }
  destruct (decide (c = "}"%char)) as [->|]; [|apply IH1; [lia|done]].
  case_decide; [apply IH1; [lia|done]|]. apply IHf. intros st' H1 H2. by apply pop_closing_ok; [rewrite H2| |].
Qed.

Lemma split_part_ok st wp : valid_part wp = true → state_ok st →
  state_ok (split_part st wp) ∧ state_text (split_part st wp) = state_text st ++ part_text wp.
Proof.
  intros Hv Hst. destruct wp as [lit|l r s es|id]; simpl.
  - pose proof (split_bytes_ok lit (Value lit) 0 0 st eq_refl ltac:(lia) Hst) as H. destruct (split_bytes _ _ _ _ _) as [st' from].
    destruct H as [H1 H2]. case_decide as Hf.
    + subst from. apply app_inv_tail in H2. destruct (at_acc_adds _ _ st' (adds_part (PLit lit) eq_refl) H1) as [H3 H4].
      by rewrite H4, H2.
    + destruct (flush_ok lit from (length (Value lit)) st' H1) as [H3 H4]. split; [done|]. rewrite H4. rewrite drop_0 in H2. rewrite <-H2.
      f_equal. unfold slice. apply take_ge. rewrite length_drop. lia.
  - by apply at_acc_adds; [apply (adds_part (PBrace l r s es))|].
  - by apply at_acc_adds; [apply (adds_part (POther id))|].
Qed.

Lemma split_parts_ok ps st : valid_word ps = true → state_ok st →
  state_ok (foldl split_part st ps) ∧ state_text (foldl split_part st ps) = state_text st ++ text ps.
Proof.
  revert st. induction ps as [|p ps IH]; intros st Hv Hst; simpl; [by rewrite app_nil_r|].
  apply andb_true_iff in Hv as [Hp Hv]. destruct (split_part_ok st p Hp Hst) as [H1 H2].
  destruct (IH _ Hv H1) as [H3 H4]. split; [done|]. by rewrite H4, H2, text_cons, app_assoc.
Qed.

Lemma split_keeps_text ps : valid_word ps = true →
  text (splitBraceWordParts ps) = text ps ∧ valid_word (splitBraceWordParts ps) = true.
Proof.
  intros Hv. unfold splitBraceWordParts. destruct (existsb has_open_brace ps); [|done]. simpl.
  destruct (split_parts_ok ps (MkSplit [] []) Hv) as [[Ht Ho] He]; [by split|].
  unfold state_text in He. simpl in He. destruct (sp_open (foldl split_part (MkSplit [] []) ps)) as [|br rest].
  - simpl in He. by rewrite app_nil_r in He.
  - destruct (close_open_text br rest _ Ht Ho) as [H1 H2]. by rewrite H1, He.
Qed.
End text.
