(* ===== verification/BracesRoundtrip.v ===== *)
(** Writing a word with brace expressions as text and scanning that text gives the word back. *)
From S2P Require Import Prelude GoUtf8 GoStrconv Braces BracesProps BracesSplit.

(** A part without its positions. *)
Fixpoint erase (p : WordPart) : WordPart :=
  match p with
  | PLit l => lit_of (Value l)
  | PBrace _ _ s elems => PBrace noPos noPos s (map (map erase) elems)
  | POther id => POther id
  end.

Definition plain_char (c : ascii) : bool := negb (bool_decide (c ∈ go "{},.")).

(** No two literals next to each other. *)
Fixpoint apart (ps : list WordPart) : bool :=
  match ps with
  | PLit _ :: (PLit _ :: _) as ps' => false
  | _ :: ps' => apart ps'
  | [] => true
  end.

(** Words whose literals are not empty and free of the characters of brace expressions. *)
Fixpoint written (p : WordPart) : bool :=
  match p with
  | PLit l => negb (bool_decide (Value l = [])) && forallb plain_char (Value l)
  | PBrace _ _ s elems =>
      forallb (fun e => forallb written e && apart e) elems &&
      if s then validBraceSequence elems else bool_decide (2 <= length elems)%nat
  | POther _ => false
  end.
Definition written_word (ps : list WordPart) : bool := forallb written ps && apart ps.

(** ** Erased parts *)

Lemma forallb_is_lit_erase ps : forallb is_lit (map erase ps) = forallb is_lit ps.
Proof. induction ps as [|p ps IH]; [done|]. simpl. rewrite IH. by destruct p. Qed.

Lemma word_Lit_erase ps : word_Lit (map erase ps) = word_Lit ps.
Proof.
  unfold word_Lit. rewrite forallb_is_lit_erase. destruct (forallb is_lit ps); [|done].
  f_equal. rewrite map_map. apply map_ext. by intros [].
Qed.

Lemma validBraceSequence_erase elems : validBraceSequence (map (map erase) elems) = validBraceSequence elems.
Proof.
  destruct elems as [|f [|t more]]; try done. simpl. unfold sequence_bound. rewrite !word_Lit_erase.
  destruct more as [|n [|]]; simpl; rewrite ?word_Lit_erase; done.
Qed.

(** ** States seen through what [acc] points to *)

Definition set_acc (a : list WordPart) : split_state → split_state := at_acc (fun _ => a).
Definition flushed (lit : Lit) (i j : nat) (a : list WordPart) : list WordPart := add_lit (splitLit lit i j) a.

Lemma at_acc_set f a st : at_acc f (set_acc a st) = set_acc (f a) st.
Proof. unfold set_acc, at_acc. by destruct st as [top [|c cs]]. Qed.

Lemma flush_set lit i j a st : addSplitLit lit i j (set_acc a st) = set_acc (flushed lit i j a) st.
Proof. apply at_acc_set. Qed.

Lemma sp_open_set a st : sp_open (set_acc a st) = [] ↔ sp_open st = [].
Proof. unfold set_acc, at_acc. by destruct st as [top [|c cs]]. Qed.

(** [a] does not end with a literal, so that the next one starts a part of its own. *)
Definition no_lit_last (a : list WordPart) : Prop := match list.last a with Some (PLit _) => False | _ => True end.

Lemma add_lit_new l a : no_lit_last a → add_lit (Some l) a = a ++ [PLit l].
Proof. unfold no_lit_last, add_lit. by destruct (list.last a) as [[]|]. Qed.

Lemma flushed_none lit j a : flushed lit j j a = a.
Proof. unfold flushed, splitLit. by rewrite decide_True by lia. Qed.

Lemma flushed_text lit i j a t : (i < j)%nat → slice i j (Value lit) = t → no_lit_last a →
  map erase (flushed lit i j a) = map erase a ++ [lit_of t].
Proof.
  intros H <- Ha. unfold flushed, splitLit. rewrite decide_False by lia. by rewrite add_lit_new, map_app.
Qed.

(** ** Scanning what is written *)

Section scan.
Variable other : nat → gostr.
Abbreviation text := (text other).

Lemma scan_plain lit s rest j from st : forallb plain_char s = true →
  split_bytes lit (s ++ rest) j from st = split_bytes lit rest (j + length s) from st.
Proof.
  revert j. induction s as [|c s IH]; intros j; [by rewrite Nat.add_0_r|].
  intros [Hc Hs]%andb_true_iff. unfold plain_char in Hc. apply negb_true_iff, bool_decide_eq_false_1 in Hc.
  simpl. rewrite !decide_False by (intros ->; apply Hc; vm_compute; repeat constructor).
  rewrite IH by done. f_equal. lia.
Qed.

(** What the scan of [t] does when the pending text starts at [from]: it writes the parts [ps]. *)
Definition scans (t : gostr) (ps : list WordPart) : Prop := ∀ lit j from st a rest,
  drop j (Value lit) = t ++ rest → (from <= j)%nat → no_lit_last a →
  (from < j → ∀ l ps', ps ≠ PLit l :: ps')%nat →
  ∃ from' a', split_bytes lit (t ++ rest) j from (set_acc a st) = split_bytes lit rest (j + length t) from' (set_acc a' st) ∧
    (from' <= j + length t)%nat ∧ no_lit_last a' ∧ (from' = from ∧ a' = a ∨ (j < from')%nat) ∧
    map erase (flushed lit from' (j + length t) a') = map erase (flushed lit from j a) ++ map erase ps.

Lemma scans_nil : scans [] [].
Proof.
  intros lit j from st a rest _ Hf Ha _. exists from, a. simpl. rewrite Nat.add_0_r, app_nil_r. split_and!; (done || by left).
Qed.

Lemma slice_app_drop {A} (l : list A) j s rest : drop j l = s ++ rest → slice j (j + length s) l = s.
Proof. intros H. unfold slice. rewrite H. replace (j + length s - j)%nat with (length s) by lia. apply take_app_length. Qed.

Lemma drop_app_drop {A} (l : list A) j s rest : drop j l = s ++ rest → drop (j + length s) l = rest.
Proof. intros H. by rewrite <-drop_drop, H, drop_app_length. Qed.

Lemma scans_lit l ps : written (PLit l) = true → apart (PLit l :: ps) = true →
  scans (text ps) ps → scans (text (PLit l :: ps)) (PLit l :: ps).
Proof.
  intros [Hne Hp]%andb_true_iff Hap Hs lit j from st a rest Hd Hf Ha Hfirst.
  apply negb_true_iff, bool_decide_eq_false_1 in Hne.
  assert (from = j) as -> by (destruct (decide (from < j)%nat) as [Hlt|]; [by destruct (Hfirst Hlt l ps)|lia]).
  rewrite text_cons, <-app_assoc in Hd |- *. cbn [part_text] in Hd |- *. rewrite scan_plain by done.
  destruct (Hs lit (j + length (Value l))%nat j st a rest) as (from'&a'&E&H1&H2&H3&H4).
  { by eapply drop_app_drop. }
  { lia. }
  { done. }
  { intros _ l' ps' ->. done. }
  exists from', a'. rewrite E, length_app, Nat.add_assoc. split_and!; [done|lia|done|destruct H3 as [[-> ->]|]; [by left|right; lia]|].
  rewrite H4, flushed_none. rewrite flushed_text with (t := Value l); [|destruct (Value l); [done|simpl; lia]|by eapply slice_app_drop|done].
  by rewrite <-app_assoc.
Qed.

(** The scan of the elements of an expression, from the start of the first to the right brace. *)
Lemma scan_elems isSequence elems : Forall (fun e => scans (text e) e) elems → elems ≠ [] →
  ∀ lit j lb seps done top cs rest, drop j (Value lit) = join (sep_text isSequence) (map text elems) ++ go "}" ++ rest →
  let n := length (join (sep_text isSequence) (map text elems)) in
  ∃ from' a' seps' done',
    split_bytes lit (join (sep_text isSequence) (map text elems) ++ go "}" ++ rest) j j
      (MkSplit top (MkCandidate lb None seps done [] :: cs)) =
    split_bytes lit (go "}" ++ rest) (j + n) from' (MkSplit top (MkCandidate lb None (seps ++ seps') done' a' :: cs)) ∧
    (from' <= j + n)%nat ∧ S (length seps') = length elems ∧
    Forall (fun s => sep_kind s = if isSequence then braceSepDots else braceSepComma) seps' ∧
    map (map erase) (done' ++ [flushed lit from' (j + n) a']) = map (map erase) (done ++ elems).
Proof.
  induction 1 as [|e elems He Hes IH]; [done|]. intros _ lit j lb seps done top cs rest Hd. cbn zeta.
  destruct elems as [|e2 elems].
  - cbn [map join] in Hd |- *.
    destruct (He lit j j (MkSplit top (MkCandidate lb None seps done [] :: cs)) [] (go "}" ++ rest) Hd) as (from'&a'&E&H1&H2&_&H4);
      [done|done|lia|].
    exists from', a', [], done. rewrite app_nil_r. split_and!; [exact E|done|done|done|].
    rewrite !map_app. simpl. rewrite flushed_none in H4. by rewrite H4.
  - change (map text (e :: e2 :: elems)) with (text e :: map text (e2 :: elems)) in Hd |- *.
    rewrite join_cons, <-!app_assoc in Hd |- * by done. set (tail := join (sep_text isSequence) (map text (e2 :: elems))) in *.
    destruct (He lit j j (MkSplit top (MkCandidate lb None seps done [] :: cs)) [] (sep_text isSequence ++ tail ++ go "}" ++ rest) Hd)
      as (from'&a'&E&H1&H2&_&H4); [done|done|lia|].
    change (set_acc [] (MkSplit top (MkCandidate lb None seps done [] :: cs))) with (MkSplit top (MkCandidate lb None seps done [] :: cs)) in E.
    rewrite E. clear E. pose proof (drop_app_drop _ _ _ _ Hd) as Hd1. pose proof (drop_app_drop _ _ _ _ Hd1) as Hd2.
    set (j1 := (j + length (text e))%nat) in *. rewrite flushed_none in H4. simpl in H4.
    set (sep := MkSep (if isSequence then braceSepDots else braceSepComma) (splitLit lit j1 (j1 + length (sep_text isSequence)))).
    assert (split_bytes lit (sep_text isSequence ++ tail ++ go "}" ++ rest) j1 from'
      (set_acc a' (MkSplit top (MkCandidate lb None seps done [] :: cs))) =
      split_bytes lit (tail ++ go "}" ++ rest) (j1 + length (sep_text isSequence)) (j1 + length (sep_text isSequence))
        (MkSplit top (MkCandidate lb None (seps ++ [sep]) (done ++ [flushed lit from' j1 a']) [] :: cs))) as ->.
    { unfold sep. destruct isSequence; simpl; rewrite ?(Nat.add_comm j1); reflexivity. }
    destruct (IH ltac:(done) lit (j1 + length (sep_text isSequence))%nat lb (seps ++ [sep]) (done ++ [flushed lit from' j1 a']) top cs rest Hd2)
      as (from2&a2&seps2&done2&E&H5&H6&H7&H8).
    fold tail in E, H5, H8. exists from2, a2, (sep :: seps2), done2. rewrite E, <-app_assoc, !length_app. unfold j1 in *.
    replace (j + (length (text e) + (length (sep_text isSequence) + length tail)))%nat with
      (j + length (text e) + length (sep_text isSequence) + length tail)%nat by lia.
    split_and!; [done|done|simpl in H6 |- *; lia|by constructor|].
    rewrite H8, !map_app, <-app_assoc. simpl. by rewrite H4.
Qed.

(** The commas of an expression leave its elements as they are. *)
Lemma comma_elems_all cur seps elems : length seps = length elems → Forall (fun s => sep_kind s = braceSepComma) seps →
  comma_elems cur seps elems = cur :: elems.
Proof.
  revert cur elems. induction seps as [|s seps IH]; intros cur [|e elems] Hl Hs; try done.
  apply Forall_cons_1 in Hs as [Hs Hs']. simpl in Hl |- *. rewrite decide_True by done. by rewrite IH by (done || lia).
Qed.

Lemma node_written c (isSequence : bool) elems : cd_Rbrace c ≠ None → length (cd_Elems c) = S (length (cd_Seps c)) →
  Forall (fun s => sep_kind s = if isSequence then braceSepDots else braceSepComma) (cd_Seps c) →
  map (map erase) (cd_Elems c) = map (map erase) elems → (2 <= length elems)%nat →
  (isSequence = true → validBraceSequence elems = true) →
  ∃ p q elems', braceCandidateNode c = Some (PBrace p q isSequence elems') ∧ map (map erase) elems' = map (map erase) elems.
Proof.
  intros Hr Hl Hs He H2 Hv. pose proof (f_equal length He) as Hlen. rewrite !length_map in Hlen.
  unfold braceCandidateNode. rewrite bool_decide_eq_false_2 by done. rewrite bool_decide_eq_false_2 by lia. simpl.
  destruct isSequence.
  - assert (existsb (fun s => bool_decide (sep_kind s = braceSepComma)) (cd_Seps c) = false) as ->.
    { clear -Hs. induction Hs as [|s seps Hs _ IH]; [done|]. simpl. by rewrite Hs, IH. }
    rewrite <-validBraceSequence_erase, He, validBraceSequence_erase, Hv by done. by eexists _, _, _.
  - assert (existsb (fun s => bool_decide (sep_kind s = braceSepComma)) (cd_Seps c) = true) as ->.
    { destruct (cd_Seps c) as [|s seps]; [simpl in Hl; lia|]. apply Forall_cons_1 in Hs as [Hs _]. simpl. by rewrite Hs. }
    eexists _, _, _. split; [done|]. rewrite <-He. f_equal. unfold braceCommaElems. destruct (cd_Elems c) as [|e es]; [done|].
    simpl in Hl. apply comma_elems_all; [lia|done].
Qed.

Lemma valid_sequence_length elems : validBraceSequence elems = true → (2 <= length elems)%nat.
Proof. destruct elems as [|? [|? ?]]; simpl; (done || lia). Qed.

Lemma scans_brace l r isSequence elems ps : written (PBrace l r isSequence elems) = true →
  Forall (fun e => scans (text e) e) elems → scans (text ps) ps →
  scans (text (PBrace l r isSequence elems :: ps)) (PBrace l r isSequence elems :: ps).
Proof.
  intros [_ Hw]%andb_true_iff Hes Hps lit j from st a rest Hd Hf Ha _.
  assert (2 <= length elems)%nat as H2.
  { destruct isSequence; [by apply valid_sequence_length|by apply bool_decide_eq_true_1 in Hw]. }
  assert (isSequence = true → validBraceSequence elems = true) as Hv by (by intros ->).
  rewrite text_cons in Hd |- *. cbn [part_text] in Hd |- *. change (map (fun e => concat (map (part_text other) e))) with (map text) in Hd |- *.
  set (T := join (sep_text isSequence) (map text elems)) in *.
  assert ((("{"%char :: T ++ go "}") ++ text ps) ++ rest = "{"%char :: T ++ go "}" ++ text ps ++ rest) as Heq
    by (simpl; by rewrite <-!app_assoc).
  rewrite Heq in Hd |- *. clear Heq. pose proof (drop_S_cons _ _ _ _ Hd) as [Hd1 _].
  set (b := flushed lit from j a).
  destruct (scan_elems isSequence elems Hes ltac:(by destruct elems; [simpl in H2; lia|]) lit (S j) (splitLit lit j (S j)) [] []
    (sp_top (set_acc b st)) (sp_open (set_acc b st)) (text ps ++ rest) Hd1) as (from2&a2&seps&done&E&H3&H4&H5&H6).
  fold T in E, H3, H6. set (j2 := (S j + length T)%nat) in *. cbn [app] in E, H6.
  set (c := MkCandidate (splitLit lit j (S j)) (splitLit lit j2 (S j2)) seps done (flushed lit from2 j2 a2)).
  assert (length (cd_Elems c) = S (length (cd_Seps c))) as Hcl.
  { pose proof (f_equal length H6) as Hlen. rewrite !length_map in Hlen.
    change (length (done ++ [flushed lit from2 j2 a2]) = S (length seps)). lia. }
  destruct (node_written c isSequence elems) as (p&q&elems'&Hnode&Helems).
  { simpl. unfold splitLit. by rewrite decide_False by lia. }
  { done. } { done. } { exact H6. } { done. } { done. }
  pose proof (drop_app_drop _ _ _ _ Hd1) as Hd2. fold j2 in Hd2. pose proof (drop_S_cons _ _ _ _ Hd2) as [Hd3 _].
  destruct (Hps lit (S j2) (S j2) st (b ++ [PBrace p q isSequence elems']) rest Hd3) as (from'&a'&E'&H7&H8&H9&H10);
    [lia|unfold no_lit_last; by rewrite last_snoc|lia|].
  exists from', a'. rewrite length_app. simpl. rewrite !length_app. simpl.
  replace (j + S (length T + 1 + length (text ps)))%nat with (S j2 + length (text ps))%nat by (unfold j2; lia).
  split_and!; [|done|done|right; destruct H9; unfold j2 in *; lia|].
  - rewrite <-E'. cbn [split_bytes decide]. rewrite flush_set. fold b. unfold open_brace. simpl in E |- *. rewrite E. simpl.
    unfold addSplitLit at 1, at_acc at 1. simpl. unfold pop_closing. simpl. fold (flushed lit from2 j2 a2). fold c.
    unfold closeBrace. rewrite Hnode. cbn [add_part].
    f_equal. transitivity (at_acc (fun ps => ps ++ [PBrace p q isSequence elems']) (set_acc b st)); [|exact (at_acc_set (fun ps => ps ++ [PBrace p q isSequence elems']) b st)].
    by destruct (set_acc b st).
  - rewrite H10, flushed_none, map_app, <-app_assoc. simpl. by rewrite Helems.
Qed.

Lemma written_scans n ps : (word_size ps < n)%nat → written_word ps = true → scans (text ps) ps.
Proof.
  revert ps. induction n as [|n IH]; intros ps Hn Hw; [lia|]. destruct ps as [|p ps]; [apply scans_nil|].
  unfold written_word in Hw. apply andb_true_iff in Hw as [[Hp Hps]%andb_true_iff Hap].
  unfold word_size in Hn. simpl in Hn. fold (word_size ps) in Hn.
  assert (apart ps = true) as Hap' by (destruct p as [l| |]; [|done|done]; by destruct ps as [|[]]).
  assert (scans (text ps) ps) as IHps by (apply IH; [destruct p; simpl in Hn; lia|apply andb_true_iff; split; [exact Hps|exact Hap']]).
  destruct p as [l|l r s elems|id]; [by apply scans_lit| |done].
  apply scans_brace; [done| |done]. apply list.Forall_forall. intros e He. apply IH.
  - pose proof (word_size_elem e elems He). rewrite word_size_brace in Hn. lia.
  - simpl in Hp. apply andb_true_iff in Hp as [Hp _]. rewrite forallb_forall in Hp. by apply Hp, list_elem_of_In.
Qed.

Lemma text_open_brace l r s elems ps : "{"%char ∈ text (PBrace l r s elems :: ps).
Proof. rewrite text_cons. simpl. left. Qed.

(** A written word without a brace expression is one literal. *)
Lemma written_no_brace p ps : written_word (p :: ps) = true → "{"%char ∉ text (p :: ps) → ∃ l, p :: ps = [PLit l].
Proof.
  intros [[Hp Hps]%andb_true_iff Hap]%andb_true_iff Hno. destruct p as [l|l r s elems|id]; [|by destruct Hno; apply text_open_brace|done].
  destruct ps as [|[l'|l' r s elems|id] ps]; [by exists l|done| |done].
  destruct Hno. rewrite text_cons, elem_of_app. right. apply text_open_brace.
Qed.

Lemma split_written ps p q : ps ≠ [] → written_word ps = true →
  map erase (splitBraceWordParts [PLit (MkLit p q (text ps))]) = map erase ps.
Proof.
  intros Hne Hw. unfold splitBraceWordParts. simpl. rewrite orb_false_r. case_bool_decide as Hin; simpl.
  - set (lit := MkLit p q (text ps)).
    destruct (written_scans _ ps (Nat.lt_succ_diag_r _) Hw lit 0%nat 0%nat (MkSplit [] []) [] []) as (from&a&E&H1&H2&H3&H4);
      [by rewrite app_nil_r|done|done|lia|].
    change (set_acc [] (MkSplit [] [])) with (MkSplit [] []) in E. rewrite app_nil_r in E. simpl in E |- *. rewrite E, flushed_none in *. simpl in H4.
    destruct (decide (from = O)) as [->|Hf].
    + destruct H3 as [[_ ->]|]; [|lia]. simpl. rewrite <-H4. unfold flushed, splitLit.
      assert (text ps ≠ []) as Ht by (intros Ht; rewrite Ht in Hin; by apply elem_of_nil in Hin).
      rewrite decide_False by (destruct (text ps); [done|simpl; lia]). simpl. unfold slice. rewrite drop_0, Nat.sub_0_r.
      by rewrite take_ge by done.
    + rewrite flush_set. exact H4.
  - destruct ps as [|p0 ps]; [done|]. destruct (written_no_brace p0 ps Hw Hin) as [l [= -> ->]]. by rewrite text_lit.
Qed.
End scan.
