(* ===== verification/BracesTheorems.v ===== *)
(** The properties of brace expansion, with instances. *)
From S2P Require Import Prelude GoUtf8 GoStrconv Braces BracesProps BracesSplit BracesRoundtrip.

(** ** No run-time panic *)

Definition safe {A} (c : BM A) : Prop := ∀ b, (c b).1 ≠ Err BEPanic ∧ (c b).1 ≠ Err BEFuel.

Lemma safe_ret {A} (a : A) : safe (mret a).
Proof. done. Qed.

Lemma safe_bind {A B} (c : BM A) (k : A → BM B) : safe c → (∀ a, safe (k a)) → safe (c ≫= k).
Proof.
  intros Hc Hk b. specialize (Hc b). unfold mbind, bm_bind. destruct (c b) as [[a|e] b']; [apply Hk|].
  simpl in *. destruct Hc as [H1 H2]. split; congruence.
Qed.

Lemma safe_add n : safe (budget_add n).
Proof. intros [b|]; [|done]. unfold budget_add. simpl. by destruct (_ <? _). Qed.

Lemma safe_concat {A B} (f : A → BM (list B)) l : (∀ x, x ∈ l → safe (f x)) → safe (bm_concat f l).
Proof.
  induction l as [|x l IH]; intros H; [apply safe_ret|]. simpl. apply safe_bind; [apply H; left|]. intros a.
  apply safe_bind; [|intros; apply safe_ret]. apply IH. intros y Hy. apply H. by right.
Qed.

Section theorems.
Variable source : list WordPart → gostr.

(** A valid word has room for its expansion, and its sequences have bounds. *)
Lemma braces_fuel_safe fuel ps : (word_size ps < fuel)%nat → valid_word ps = true → safe (braces_fuel source fuel ps).
Proof.
  revert ps. induction fuel as [|fuel IH]; intros ps Hsize Hvalid; [lia|]. cbn [braces_fuel].
  destruct (first_brace [] ps) as [[[[before [s elems]] br] rest]|] eqn:E; cycle 1.
  { apply safe_bind; [apply safe_add|intros; apply safe_ret]. }
  apply first_brace_Some in E as (mid&l&r&->&->&->&_). cbn [app].
  unfold valid_word in Hvalid. rewrite forallb_app in Hvalid. simpl in Hvalid. rewrite !andb_true_iff in Hvalid.
  destruct Hvalid as (_&(Hve&Hvs)&Hvr). rewrite word_size_app in Hsize. unfold word_size in Hsize at 2.
  cbn [map list_sum fold_right] in Hsize. rewrite word_size_brace in Hsize. fold (list_sum (map part_size rest)) (word_size rest) in Hsize.
  assert (∀ next, (word_size next <= S (list_sum (map word_size elems)) + word_size rest)%nat → valid_word next = true →
    safe (exp ← braces_fuel source fuel next; mret (map (app mid) exp))) as Hexp.
  { intros next H1 H2. apply safe_bind; [|intros; apply safe_ret]. apply IH; [unfold word_size in *; simpl in *; lia|done]. }
  destruct s; cbn [negb].
  - destruct (valid_sequence elems Hvs) as (fromE&toE&more&chars&x&y&width&->&Hb&_&_). rewrite Hb.
    destruct (_ && _ && _); [done|]. destruct (sequence_incr _ _) as [incr|].
    + apply safe_concat. intros n _. apply Hexp; [unfold word_size; simpl; lia|done].
    + apply Hexp; [unfold word_size; simpl; lia|done].
  - apply safe_concat. intros e He. pose proof (word_size_elem e elems He). rewrite forallb_forall in Hve. apply Hexp.
    + rewrite word_size_app. lia.
    + rewrite valid_word_app. unfold valid_word at 1. by rewrite Hve by (by apply list_elem_of_In).
Qed.

(** ** The budget of a command *)

Definition hadBraces (word : list WordPart) : bool := existsb is_brace word.

(** The words that the expansion of [word] makes, and how many of them it pays for. *)
Definition expanded (word : list WordPart) : list (list WordPart) := if hadBraces word then words source word else [word].
Definition cost (word : list WordPart) : Z := if hadBraces word then glen (words source word) else 0.

Definition total_cost (ws : list (list WordPart)) : Z := foldr (fun w n => cost w + n) 0 ws.

(** [ws] at the cost [n]. *)
Definition pays (n : Z) (ws : list (list WordPart)) : BM (list (list WordPart)) := fun b =>
  match b with
  | None => (Ok ws, None)
  | Some (MkBudget limit used) =>
      if used + n <=? limit then (Ok ws, Some (MkBudget limit (used + n))) else (Err (BELimit limit), Some (MkBudget limit (limit + 1)))
  end.

Definition expandable (word : list WordPart) : Prop := valid_word word = true ∧ forallb one_case word = true.

Lemma cost_nonneg w : 0 <= cost w.
Proof. unfold cost. destruct (hadBraces w); [apply glen_nonneg|done]. Qed.
Lemma total_cost_nonneg ws : 0 <= total_cost ws.
Proof. induction ws as [|w ws IH]; simpl; [done|]. pose proof (cost_nonneg w). lia. Qed.

Lemma braces_agrees w : expandable w → agrees (braces source w) (words source w).
Proof. intros [H1 H2]. apply braces_fuel_agrees; [lia|done|done]. Qed.

Lemma expand_words_pays ws b : Forall expandable ws → budget_ok b →
  bm_concat (fun w => if hadBraces w then braces source w else mret [w]) ws b = pays (total_cost ws) (concat (map expanded ws)) b.
Proof.
  intros Hws. revert b. induction Hws as [|w ws Hw _ IH]; intros b Hb.
  { destruct b as [[limit used]|]; [|done]. destruct Hb as [Hb _]. simpl in Hb |- *. rewrite Z.add_0_r.
    by destruct (Z.leb_spec used limit); [|lia]. }
  pose proof (cost_nonneg w) as Hc. pose proof (total_cost_nonneg ws) as Ht.
  assert ((if hadBraces w then braces source w else mret [w]) b = pays (cost w) (expanded w) b) as Hw1.
  { unfold cost, expanded. destruct (hadBraces w); [by rewrite braces_agrees|].
    destruct b as [[limit used]|]; [|done]. destruct Hb as [Hb _]. simpl in Hb |- *. rewrite Z.add_0_r.
    by destruct (Z.leb_spec used limit); [|lia]. }
  simpl. fold (total_cost ws). unfold mbind, bm_bind. rewrite Hw1. destruct b as [[limit used]|]; [|simpl; by rewrite IH].
  destruct Hb as [Hu Hl]. simpl in Hu, Hl. simpl.
  destruct (Z.leb_spec (used + cost w) limit); [|destruct (Z.leb_spec (used + (cost w + total_cost ws)) limit); [lia|done]].
  rewrite IH by (simpl; lia). simpl. rewrite <-Z.add_assoc. by destruct (used + (cost w + total_cost ws) <=? limit).
Qed.

(** The calls of [fieldsSeq] that one command makes, one after the other, up to the first error. *)
Fixpoint expand_batches (batches : list (list (list WordPart))) (cfg : braceConfig) : result brace_error (list (list WordPart)) * braceConfig :=
  match batches with
  | [] => (Ok [], cfg)
  | ws :: batches =>
      match expand_words source ws cfg with
      | (Err e, cfg) => (Err e, cfg)
      | (Ok out, cfg) =>
          let '(r, cfg) := expand_batches batches cfg in (match r with Ok more => Ok (out ++ more) | Err e => Err e end, cfg)
      end
  end.

Lemma expand_words_scope ws max depth used l : Forall expandable ws → 0 < max < 2 ^ 63 - 1 → 0 < depth → 0 <= used <= max →
  expand_words source ws (MkConfig max depth (MkBudget l used)) =
  if used + total_cost ws <=? max then (Ok (concat (map expanded ws)), MkConfig max depth (MkBudget max (used + total_cost ws)))
  else (Err (BELimit max), MkConfig max depth (MkBudget max (max + 1))).
Proof.
  intros Hws Hmax Hdepth Hused. unfold expand_words. simpl.
  destruct (Z.leb_spec max 0); [lia|]. destruct (Z.eqb_spec depth 0); [lia|].
  pose proof (expand_words_pays ws (Some (MkBudget max used)) Hws) as Hp.
  change (fun w => if hadBraces w then braces source w else mret [w]) with
    (fun w => if existsb (fun p => match p with PBrace _ _ _ _ => true | _ => false end) w then braces source w else mret [w]) in Hp.
  rewrite Hp by (simpl; lia). simpl. by destruct (used + total_cost ws <=? max).
Qed.

Lemma expand_batches_scope batches max depth used l : Forall (Forall expandable) batches →
  0 < max < 2 ^ 63 - 1 → 0 < depth → 0 <= used <= max →
  (expand_batches batches (MkConfig max depth (MkBudget l used))).1 =
  if used + foldr (fun ws n => total_cost ws + n) 0 batches <=? max
  then Ok (concat (map (fun ws => concat (map expanded ws)) batches)) else Err (BELimit max).
Proof.
  intros Hb Hmax Hdepth. revert used l. induction Hb as [|ws batches Hws _ IH]; intros used l Hused; simpl.
  { rewrite Z.add_0_r. by destruct (Z.leb_spec used max); [|lia]. }
  rewrite expand_words_scope by done. pose proof (total_cost_nonneg ws) as Hc.
  set (rest := foldr (fun ws n => total_cost ws + n) 0 batches) in *.
  assert (0 <= rest) as Hr.
  { unfold rest. clear. induction batches as [|w batches IH]; simpl; [done|]. pose proof (total_cost_nonneg w). lia. }
  destruct (Z.leb_spec (used + total_cost ws) max); [|by destruct (Z.leb_spec (used + (total_cost ws + rest)) max); [lia|]].
  specialize (IH (used + total_cost ws) max ltac:(lia)). destruct (expand_batches batches _) as [r cfg]. simpl in IH |- *. rewrite IH.
  rewrite <-Z.add_assoc. by destruct (used + (total_cost ws + rest) <=? max).
Qed.
End theorems.

(** C29: on a word whose brace expressions are valid, and in which no range of letters crosses the two
    cases, brace expansion makes the Cartesian product of the alternatives of its parts, in order,
    with sequences counted in unbounded integers; it fails only when the product has more words than
    the budget has left, and then with the error of the limit. *)
Theorem braces_exact source ps b : valid_word ps = true → forallb one_case ps = true → budget_ok b →
  braces source ps b = spend (words source ps) b.
Proof. intros H1 H2. by apply braces_agrees. Qed.

(** The scan for brace expressions keeps the text of the word and makes valid expressions only,
    and the expansion of what it makes never indexes out of range nor runs out of recursion, whatever
    the budget. *)
Theorem splitBraceWordParts_valid source other ps b : valid_word ps = true →
  text other (splitBraceWordParts ps) = text other ps ∧ valid_word (splitBraceWordParts ps) = true ∧
  (braces source (splitBraceWordParts ps) b).1 ≠ Err BEPanic ∧ (braces source (splitBraceWordParts ps) b).1 ≠ Err BEFuel.
Proof.
  intros Hv. destruct (split_keeps_text other ps Hv) as [H1 H2]. split; [done|]. split; [done|].
  apply braces_fuel_safe; [lia|done].
Qed.

(** C30: every brace expression that is written is found: the scan of the text of a word whose literals
    have none of the characters of brace expressions gives the word back, up to positions. *)
Theorem splitBraceWordParts_roundtrip other ps p q : ps ≠ [] → written_word ps = true →
  map erase (splitBraceWordParts [PLit (MkLit p q (text other ps))]) = map erase ps.
Proof. apply split_written. Qed.

(** The cap on words covers a whole command: in a scope, all expansions together either succeed with
    at most as many words from braces as the cap allows, or fail with the error of the limit because
    they would make more. *)
Theorem brace_scope_total source batches cfg : Forall (Forall expandable) batches →
  0 < MaxBraceExpansionWords cfg < 2 ^ 63 - 1 → braceScopeDepth cfg = 0 →
  (expand_batches source batches (BeginBraceExpansionScope cfg)).1 =
  if foldr (fun ws n => total_cost source ws + n) 0 batches <=? MaxBraceExpansionWords cfg
  then Ok (concat (map (fun ws => concat (map (expanded source) ws)) batches))
  else Err (BELimit (MaxBraceExpansionWords cfg)).
Proof.
  intros Hb Hmax Hd. unfold BeginBraceExpansionScope. rewrite Hd. simpl.
  rewrite expand_batches_scope by (done || lia). done.
Qed.

(** ** Instances *)

Definition demo_source (ps : list WordPart) : gostr := text (fun _ => []) ps.
Definition demo_word : list WordPart :=
  [lit_of (go "a"); PBrace noPos noPos false [[lit_of (go "b")]; [PBrace noPos noPos true [[lit_of (go "9223372036854775806")]; [lit_of (go "9223372036854775807")]]]]].

Lemma braces_exact_witness :
  braces demo_source demo_word (Some (MkBudget 3 0)) = spend (words demo_source demo_word) (Some (MkBudget 3 0)) ∧
  map demo_source (words demo_source demo_word) = [go "ab"; go "a9223372036854775806"; go "a9223372036854775807"].
Proof.
  split; [|vm_compute; reflexivity].
  apply braces_exact; [vm_compute; reflexivity|vm_compute; reflexivity|simpl; lia].
Defined.

Definition typed (s : string) : list WordPart := [PLit (MkLit (MkPos 0 1) (MkPos 9 10) (go s))].

(** Braces with backslashes in front of them are found all the same. *)
Example escaped_braces : map demo_source (words demo_source (splitBraceWordParts (typed "\{a,b\}"))) = [go "\a"; go "\b\"].
Proof. vm_compute. reflexivity. Qed.

Lemma splitBraceWordParts_valid_witness :
  splitBraceWordParts (typed "{x{1..3},{y}") ≠ typed "{x{1..3},{y}" ∧
  (braces demo_source (splitBraceWordParts (typed "{x{1..3},{y}")) None).1 ≠ Err BEPanic.
Proof.
  split; [vm_compute; discriminate|].
  exact (proj1 (proj2 (proj2 (splitBraceWordParts_valid demo_source (fun _ => []) (typed "{x{1..3},{y}") None eq_refl)))).
Defined.

Lemma splitBraceWordParts_roundtrip_witness :
  text (fun _ => []) demo_word = go "a{b,{9223372036854775806..9223372036854775807}}" ∧
  map erase (splitBraceWordParts [PLit (MkLit noPos noPos (text (fun _ => []) demo_word))]) = map erase demo_word.
Proof. split; [vm_compute; reflexivity|]. apply splitBraceWordParts_roundtrip; [done|vm_compute; reflexivity]. Defined.

Lemma brace_scope_total_witness :
  (expand_batches demo_source [[demo_word]; [demo_word]] (BeginBraceExpansionScope (MkConfig 5 0 (MkBudget 0 9)))).1 = Err (BELimit 5).
Proof.
  rewrite (brace_scope_total demo_source [[demo_word]; [demo_word]] (MkConfig 5 0 (MkBudget 0 9))).
  - vm_compute. reflexivity.
  - repeat constructor.
  - simpl. lia.
  - reflexivity.
Defined.
