(* ===== verification/Indexed.v ===== *)
(** Indexed arrays of the shell: [shell/expand/indexed.go], where an array is a list of values with,
    when it is sparse, the list of their indices, and the compound assignment [a=(...)] of
    [internal/shell/interp/vars.go]. *)
From S2P Require Import Prelude.

(** ** Variables *)

Inductive ValueKind := Unknown | KString | NameRef | KIndexed | Associative | KeepValue.
#[export] Instance ValueKind_eq_dec : EqDecision ValueKind.
Proof. solve_decision. Defined.

(** The attributes of a variable, which the operations on its value carry along. *)
Record VarAttrs := MkAttrs {
  Local_ : bool; Exported : bool; ReadOnly : bool; Integer : bool; Lower : bool; Trace : bool; Upper : bool;
  UnsetArithmZero : bool;
}.

(** [List] is never told from nil when it is empty; [Indices] is ([None] is nil). *)
Record Variable_ := MkVariable {
  Set_ : bool;
  Attrs : VarAttrs;
  Kind : ValueKind;
  Str : gostr;
  List_ : list gostr;
  Indices : option (list Z);
  Map_ : option (gmap gostr gostr);
}.

Definition set_array (values : list gostr) (indices : option (list Z)) (v : Variable_) : Variable_ :=
  MkVariable (bool_decide (values ≠ [])) (Attrs v) KIndexed (Str v) values indices (Map_ v).

(** ** Helpers of the standard library *)

(** The loop of [slices.BinarySearch] on [int]s: the boundary between [i] and [j]. *)
Fixpoint search_loop (fuel : nat) (x : list Z) (target : Z) (i j : nat) : nat :=
  match fuel with
  | O => i
  | S fuel =>
      if decide (i < j)%nat then
        let h := ((i + j) / 2)%nat in
        match x !! h with
        | Some y => if y <? target then search_loop fuel x target (S h) j else search_loop fuel x target i h
        | None => i
        end
      else i
  end.
Definition BinarySearch (x : list Z) (target : Z) : nat * bool :=
  let i := search_loop (S (length x)) x target 0 (length x) in
  (i, bool_decide (x !! i = Some target)).

(** [slices.Insert] and [slices.Delete] of one element. *)
Definition slices_Insert {A} (l : list A) (i : nat) (x : A) : list A := take i l ++ x :: drop i l.
Definition slices_Delete {A} (l : list A) (i : nat) : list A := take i l ++ drop (S i) l.

(** ** Operations *)

Definition denseIndices (n : nat) : option (list Z) := if decide (n = O) then None else Some (map Z.of_nat (seq 0 n)).

Definition isDenseIndices (indices : list Z) : bool := bool_decide (indices = map Z.of_nat (seq 0 (length indices))).

Definition normalizeIndexed (values : list gostr) (indices : option (list Z)) : list gostr * option (list Z) :=
  match values, indices with
  | [], _ => ([], None)
  | _, Some idx => if bool_decide (idx = []) || isDenseIndices idx then (values, None) else (values, Some idx)
  | _, None => (values, None)
  end.

Definition IndexedCount (v : Variable_) : Z := glen (List_ v).

Definition IndexedIndices (v : Variable_) : option (list Z) :=
  if negb (bool_decide (Kind v = KIndexed)) || bool_decide (List_ v = []) then None
  else match Indices v with None => denseIndices (length (List_ v)) | Some idx => Some idx end.

Definition IndexedValues (v : Variable_) : list gostr :=
  if negb (bool_decide (Kind v = KIndexed)) || bool_decide (List_ v = []) then [] else List_ v.

(** An index out of range, when there are indices but no last one, is [None] here; the representation
    invariant rules it out. *)
Definition IndexedMaxIndex (v : Variable_) : option Z :=
  if negb (bool_decide (Kind v = KIndexed)) || bool_decide (List_ v = []) then None
  else match Indices v with None => Some (glen (List_ v) - 1) | Some idx => list.last idx end.

Definition IndexedAppendIndex (v : Variable_) : Z :=
  match IndexedMaxIndex v with None => 0 | Some m => wrap64 (m + 1) end.

Definition IndexedResolve (v : Variable_) (index : Z) : option Z :=
  if 0 <=? index then Some index
  else match IndexedMaxIndex v with
       | None => None
       | Some m => let index := wrap64 (wrap64 (m + 1) + index) in if index <? 0 then None else Some index
       end.

Definition indexedSearch (v : Variable_) (index : Z) : nat * bool :=
  match Indices v with
  | None =>
      if (0 <=? index) && (index <? glen (List_ v)) then (Z.to_nat index, true)
      else if index <? 0 then (O, false)
      else if glen (List_ v) <? index then (length (List_ v), false)
      else (Z.to_nat index, false)
  | Some idx => BinarySearch idx index
  end.

Definition IndexedGet (v : Variable_) (index : Z) : option gostr :=
  if negb (bool_decide (Kind v = KIndexed)) || (index <? 0) then None
  else let '(pos, ok) := indexedSearch v index in if ok then List_ v !! pos else None.

(** [String] of an array. *)
Definition Variable_String (v : Variable_) : gostr :=
  match Kind v with
  | KString => Str v
  | KIndexed => default [] (IndexedGet v 0)
  | Associative => default [] (m ← Map_ v; m !! go "0")
  | _ => []
  end.

Definition IndexedSet (v : Variable_) (index : Z) (value : gostr) (appendValue : bool) : Variable_ :=
  let '(pos, found) := indexedSearch v index in
  if found then
    let values := alter (fun old => if appendValue then old ++ value else value) pos (List_ v) in
    let '(values, indices) := normalizeIndexed values (Indices v) in set_array values indices v
  else
    let indices :=
      match Indices v with
      | None => if glen (List_ v) <? index then Some (default [] (denseIndices (length (List_ v)))) else None
      | Some idx => Some idx
      end in
    let '(values, indices) := normalizeIndexed (slices_Insert (List_ v) pos value)
                              ((fun idx => slices_Insert idx pos index) <$> indices) in
    set_array values indices v.

Definition IndexedUnset (v : Variable_) (index : Z) : Variable_ :=
  if negb (bool_decide (Kind v = KIndexed)) || (index <? 0) then v
  else
    let '(pos, ok) := indexedSearch v index in
    if negb ok then v
    else
      let idx := match Indices v with Some idx => idx | None => default [] (denseIndices (length (List_ v))) end in
      let '(values, indices) := normalizeIndexed (slices_Delete (List_ v) pos) (Some (slices_Delete idx pos)) in
      set_array values indices v.

(** ** Compound assignment *)

(** [compoundArrayBase] for an indexed array. *)
Definition compoundArrayBase (prev : Variable_) (appendAssign : bool) : Variable_ :=
  let base values indices := MkVariable true (Attrs prev) KIndexed [] values indices None in
  if negb appendAssign then base [] None
  else match Kind prev with
       | KString => base [Str prev] None
       | KIndexed => base (List_ prev) (Indices prev)
       | _ => base [] None
       end.

(** An element of [a=(...)] after its expansion.  The index of a keyed one is an arithmetic
    expression, which may read the array as it is by then; its evaluation may stop the command. *)
Inductive array_elem :=
| ElemSequential (fields : list gostr)
| ElemKeyed (append : bool) (index : Variable_ → Z * bool) (value : gostr).

(** The fields of a sequential element, with the in-place append of a dense array. *)
Fixpoint assign_fields (shadow : Variable_) (nextIndex : Z) (fields : list gostr) : Variable_ * Z :=
  match fields with
  | [] => (shadow, nextIndex)
  | field :: fields =>
      let shadow :=
        if bool_decide (Indices shadow = None) && (nextIndex =? glen (List_ shadow))
        then MkVariable (Set_ shadow) (Attrs shadow) (Kind shadow) (Str shadow) (List_ shadow ++ [field]) None (Map_ shadow)
        else IndexedSet shadow nextIndex field false in
      assign_fields shadow (wrap64 (nextIndex + 1)) fields
  end.

Definition mark_set (v : Variable_) : Variable_ :=
  MkVariable true (Attrs v) KIndexed (Str v) (List_ v) (Indices v) (Map_ v).

(** The loop of [assignArray] over the elements of an indexed array; [exiting] tells that the command is
    stopping already. *)
Fixpoint assign_elems (exiting : bool) (shadow : Variable_) (nextIndex : Z) (elems : list array_elem) : Variable_ :=
  match elems with
  | [] => shadow
  | ElemSequential fields :: elems =>
      let '(shadow, nextIndex) := assign_fields shadow nextIndex fields in
      if exiting then mark_set shadow else assign_elems exiting (mark_set shadow) nextIndex elems
  | ElemKeyed append index value :: elems =>
      let '(i, stop) := index shadow in
      let i := if i <? 0 then match IndexedResolve shadow i with Some r => r | None => i end else i in
      let shadow := mark_set (IndexedSet shadow i value append) in
      if exiting || stop then shadow else assign_elems exiting shadow (wrap64 (i + 1)) elems
  end.

Definition assignArray (prev : Variable_) (appendAssign exiting : bool) (elems : list array_elem) : Variable_ :=
  let vr := compoundArrayBase prev appendAssign in assign_elems exiting vr (IndexedAppendIndex vr) elems.
