(* ===== verification/IndexedProps.v ===== *)
(** Indexed arrays refine finite maps from indices to values: the representation invariant, the
    simulation, and the compound assignment. *)
From S2P Require Import Prelude Indexed.

(** ** The representation *)

Definition dense (n : nat) : list Z := map Z.of_nat (seq 0 n).

(** The indices of the elements. *)
Definition keys (v : Variable_) : list Z := match Indices v with Some idx => idx | None => dense (length (List_ v)) end.
Definition entries (v : Variable_) : list (Z * gostr) := zip (keys v) (List_ v).
Definition contents (v : Variable_) : gmap Z gostr := list_to_map (entries v).

(** Valid indices of an array. *)
Definition index_ok (i : Z) : Prop := 0 <= i < 2 ^ 63.

Record array_ok (v : Variable_) : Prop := {
  ao_kind : Kind v = KIndexed;
  ao_length : length (keys v) = length (List_ v);
  ao_sorted : StronglySorted Z.lt (keys v);
  ao_range : Forall index_ok (keys v);
  ao_sparse : ∀ idx, Indices v = Some idx → isDenseIndices idx = false;
}.

(** ** Lists of indices *)

Lemma dense_length n : length (dense n) = n.
Proof. unfold dense. by rewrite length_map, length_seq. Qed.

Lemma dense_lookup n k : (k < n)%nat → dense n !! k = Some (Z.of_nat k).
Proof. intros H. unfold dense. rewrite list_lookup_fmap, lookup_seq_lt by done. done. Qed.

Lemma dense_S n : dense (S n) = dense n ++ [Z.of_nat n].
Proof. unfold dense. by rewrite seq_S, map_app. Qed.

Lemma elem_of_dense n i : i ∈ dense n ↔ 0 <= i < Z.of_nat n.
Proof.
  unfold dense. rewrite list_elem_of_fmap. setoid_rewrite elem_of_seq. split.
  - intros (k&->&Hk). lia.
  - intros H. exists (Z.to_nat i). lia.
Qed.

Lemma sorted_app (l k : list Z) : StronglySorted Z.lt (l ++ k) ↔
  StronglySorted Z.lt l ∧ StronglySorted Z.lt k ∧ ∀ x y, x ∈ l → y ∈ k → x < y.
Proof.
  induction l as [|x l IH]; simpl.
  { split; [intros H; split_and!; [constructor|done|by intros x y ?%elem_of_nil]|by intros (_&?&_)]. }
  split.
  - intros H. inversion H as [|? ? Hs Hf]; subst. apply IH in Hs as (H1&H2&H3). rewrite list.Forall_forall in Hf.
    split_and!; [constructor; [done|]|done|].
    + apply list.Forall_forall. intros y Hy. apply Hf. rewrite elem_of_app. by left.
    + intros a b [->|Ha]%elem_of_cons Hb; [|by apply H3]. apply Hf. rewrite elem_of_app. by right.
  - intros (H1&H2&H3). inversion H1 as [|? ? Hs Hf]; subst. constructor.
    + apply IH. split_and!; [done|done|]. intros a b Ha Hb. apply H3; [by right|done].
    + rewrite list.Forall_forall in Hf |- *. intros y [Hy|Hy]%elem_of_app; [by apply Hf|]. apply H3; [left|done].
Qed.

Lemma dense_sorted n : StronglySorted Z.lt (dense n).
Proof.
  induction n as [|n IH]; [constructor|]. rewrite dense_S. apply sorted_app. split_and!; [done|repeat constructor|].
  intros x y Hx%elem_of_dense ->%list_elem_of_singleton. lia.
Qed.

Lemma sorted_NoDup (l : list Z) : StronglySorted Z.lt l → NoDup l.
Proof.
  induction 1 as [|x l _ IH Hf]; constructor; [|done]. rewrite list.Forall_forall in Hf. intros Hx. specialize (Hf x Hx). lia.
Qed.

Lemma sorted_lookup_lt (l : list Z) i j x y : StronglySorted Z.lt l → (i < j)%nat → l !! i = Some x → l !! j = Some y → x < y.
Proof.
  intros Hs. revert i j. induction Hs as [|a l Hs IH Hf]; intros i j Hij Hi Hj; [done|]. rewrite list.Forall_forall in Hf.
  destruct j as [|j]; [lia|]. simpl in Hj. destruct i as [|i]; [|apply (IH i j); [lia|done|done]].
  injection Hi as <-. apply Hf. by apply list_elem_of_lookup_2 in Hj.
Qed.

(** ** Search *)

(** [pos] is where [i] is, or where it belongs. *)
Definition places (ks : list Z) (i : Z) (pos : nat) (found : bool) : Prop :=
  if found then ks !! pos = Some i
  else (pos <= length ks)%nat ∧ (∀ x, x ∈ take pos ks → x < i) ∧ (∀ x, x ∈ drop pos ks → i < x).

Lemma search_loop_spec fuel x target i j : StronglySorted Z.lt x → (j - i < fuel)%nat → (i <= j <= length x)%nat →
  (∀ k y, (k < i)%nat → x !! k = Some y → y < target) → (∀ k y, (j <= k)%nat → x !! k = Some y → target <= y) →
  let r := search_loop fuel x target i j in
  (r <= length x)%nat ∧ (∀ k y, (k < r)%nat → x !! k = Some y → y < target) ∧ (∀ k y, (r <= k)%nat → x !! k = Some y → target <= y).
Proof.
  intros Hs. revert i j. induction fuel as [|fuel IH]; intros i j Hf Hij Hlo Hhi; [lia|].
  cbn [search_loop]. cbv zeta.
  destruct (decide (i < j)%nat) as [Hlt|Hge]; [|assert (i = j) as <- by lia; split_and!; [lia|done|done]].
  assert (i <= (i + j) / 2 < j)%nat as Hh.
  { split; [apply Nat.div_le_lower_bound; lia|apply Nat.Div0.div_lt_upper_bound; lia]. }
  destruct (x !! ((i + j) / 2)%nat) as [y|] eqn:Ey; [|apply lookup_ge_None_1 in Ey; lia].
  destruct (Z.ltb_spec y target) as [Hy|Hy]; apply IH; try lia; try done.
  - intros k z Hk Hz. destruct (decide (k = (i + j) / 2)%nat) as [->|]; [congruence|].
    pose proof (sorted_lookup_lt x k ((i + j) / 2) z y Hs ltac:(lia) Hz Ey). lia.
  - intros k z Hk Hz. destruct (decide (k = (i + j) / 2)%nat) as [->|]; [rewrite Ey in Hz; injection Hz as <-; lia|].
    pose proof (sorted_lookup_lt x ((i + j) / 2) k y z Hs ltac:(lia) Ey Hz). lia.
Qed.

Lemma BinarySearch_places x target : StronglySorted Z.lt x → let '(pos, found) := BinarySearch x target in places x target pos found.
Proof.
  intros Hs. unfold BinarySearch. destruct (search_loop_spec (S (length x)) x target 0 (length x) Hs) as (H1&H2&H3);
    [lia|lia|lia|intros k y Hk Hy; apply lookup_lt_Some in Hy; lia|].
  set (r := search_loop (S (length x)) x target 0 (length x)) in *. unfold places.
  destruct (bool_decide_reflect (x !! r = Some target)) as [|Hne]; [done|]. split_and!; [done| |].
  - intros y (k&Hk)%list_elem_of_lookup. apply lookup_take_Some in Hk as [Hk Hlt]. by apply (H2 k).
  - intros y (k&Hk)%list_elem_of_lookup. rewrite lookup_drop in Hk.
    pose proof (H3 (r + k)%nat y ltac:(lia) Hk). destruct (decide (y = target)) as [->|]; [|lia].
    destruct k as [|k]; [rewrite Nat.add_0_r in Hk; done|].
    destruct (x !! r) as [z|] eqn:Ez; [|apply lookup_ge_None_1 in Ez; apply lookup_lt_Some in Hk; lia].
    pose proof (sorted_lookup_lt x r (r + S k) z target Hs ltac:(lia) Ez Hk). pose proof (H3 r z ltac:(lia) Ez). lia.
Qed.

Lemma indexedSearch_places v i : StronglySorted Z.lt (keys v) → let '(pos, found) := indexedSearch v i in places (keys v) i pos found.
Proof.
  unfold indexedSearch, keys. destruct (Indices v) as [idx|]; [apply BinarySearch_places|]. intros _.
  set (n := length (List_ v)). unfold glen. fold n. unfold places.
  destruct (Z.leb_spec 0 i), (Z.ltb_spec i (Z.of_nat n)), (Z.ltb_spec i 0), (Z.ltb_spec (Z.of_nat n) i); try lia; simpl;
    rewrite ?dense_length.
  - rewrite dense_lookup by lia. f_equal. lia.
  - rewrite take_ge, drop_ge by (rewrite dense_length; lia). split_and!; [done| |by intros x ?%elem_of_nil].
    intros x Hx%elem_of_dense. lia.
  - rewrite take_ge, drop_ge by (rewrite dense_length; lia). split_and!; [lia| |by intros x ?%elem_of_nil].
    intros x Hx%elem_of_dense. lia.
  - split_and!; [lia|by intros x ?%elem_of_nil|]. intros x Hx%elem_of_dense. lia.
Qed.

(** ** Entries *)

Lemma length_insert_at {A} (l : list A) pos x : (pos <= length l)%nat → length (slices_Insert l pos x) = S (length l).
Proof. intros H. unfold slices_Insert. rewrite length_app, length_take, length_cons, length_drop. lia. Qed.

Lemma length_delete_at {A} (l : list A) pos x : l !! pos = Some x → S (length (slices_Delete l pos)) = length l.
Proof.
  intros H%lookup_lt_Some. unfold slices_Delete. rewrite length_app, length_take, length_drop. lia.
Qed.

Lemma zip_insert_at {A B} (ks : list A) (vs : list B) pos i x : length ks = length vs →
  zip (slices_Insert ks pos i) (slices_Insert vs pos x) = slices_Insert (zip ks vs) pos (i, x).
Proof.
  intros H. unfold slices_Insert. rewrite zip_with_app by (rewrite !length_take; lia). simpl.
  by rewrite zip_with_take, zip_with_drop.
Qed.

Lemma zip_delete_at {A B} (ks : list A) (vs : list B) pos : length ks = length vs →
  zip (slices_Delete ks pos) (slices_Delete vs pos) = slices_Delete (zip ks vs) pos.
Proof.
  intros H. unfold slices_Delete. rewrite zip_with_app by (rewrite !length_take; lia). by rewrite zip_with_take, zip_with_drop.
Qed.

Lemma insert_at_perm {A} (l : list A) pos x : slices_Insert l pos x ≡ₚ x :: l.
Proof. unfold slices_Insert. rewrite <-Permutation_middle. by rewrite take_drop. Qed.

Lemma delete_at_perm {A} (l : list A) pos x : l !! pos = Some x → l ≡ₚ x :: slices_Delete l pos.
Proof. intros H. unfold slices_Delete. rewrite Permutation_middle. by rewrite take_drop_middle. Qed.

Lemma elem_of_insert_at {A} (l : list A) pos x y : y ∈ slices_Insert l pos x ↔ y = x ∨ y ∈ l.
Proof. rewrite insert_at_perm. apply elem_of_cons. Qed.

Lemma elem_of_delete_at {A} (l : list A) pos y : y ∈ slices_Delete l pos → y ∈ l.
Proof.
  unfold slices_Delete. rewrite elem_of_app. intros [H|H].
  - apply list_elem_of_lookup in H as [k H]. apply lookup_take_Some in H as [H _]. by apply list_elem_of_lookup_2 in H.
  - apply list_elem_of_lookup in H as [k H]. rewrite lookup_drop in H. by apply list_elem_of_lookup_2 in H.
Qed.

Lemma sorted_insert_at ks pos i : StronglySorted Z.lt ks → places ks i pos false → StronglySorted Z.lt (slices_Insert ks pos i).
Proof.
  intros Hs (_&Hlt&Hgt). rewrite <-(take_drop pos ks) in Hs. apply sorted_app in Hs as (H1&H2&H3).
  unfold slices_Insert. apply sorted_app. split_and!; [done| |].
  - constructor; [done|]. by apply list.Forall_forall.
  - intros x y Hx [->|Hy]%elem_of_cons; [by apply Hlt|by apply H3].
Qed.

Lemma sorted_delete_at ks pos : StronglySorted Z.lt ks → StronglySorted Z.lt (slices_Delete ks pos).
Proof.
  intros Hs. unfold slices_Delete. destruct (ks !! pos) as [i|] eqn:E; cycle 1.
  { apply lookup_ge_None_1 in E. by rewrite take_ge, drop_ge, app_nil_r by lia. }
  rewrite <-(take_drop_middle ks pos i E) in Hs. apply sorted_app in Hs as (H1&H2&H3). apply sorted_app.
  inversion H2; subst. split_and!; [done|done|]. intros x y Hx Hy. apply H3; [done|by right].
Qed.

(** A new index is not among the old ones. *)
Lemma places_fresh ks i pos : places ks i pos false → i ∉ ks.
Proof.
  intros (_&Hlt&Hgt) Hi. rewrite <-(take_drop pos ks), elem_of_app in Hi.
  destruct Hi as [Hi|Hi]; [specialize (Hlt i Hi)|specialize (Hgt i Hi)]; lia.
Qed.

Lemma entries_keys v : array_ok v → (entries v).*1 = keys v.
Proof. intros [_ Hl _ _ _]. unfold entries. apply fst_zip. lia. Qed.

Lemma entries_NoDup v : array_ok v → NoDup (entries v).*1.
Proof. intros H. rewrite entries_keys by done. apply sorted_NoDup, H. Qed.

Lemma entries_lookup v pos i s : keys v !! pos = Some i → List_ v !! pos = Some s → entries v !! pos = Some (i, s).
Proof. intros H1 H2. unfold entries. by rewrite lookup_zip_with, H1, H2. Qed.

(** The contents at a position. *)
Lemma contents_at v pos i s : array_ok v → keys v !! pos = Some i → List_ v !! pos = Some s → contents v !! i = Some s.
Proof.
  intros H H1 H2. apply elem_of_list_to_map; [by apply entries_NoDup|]. eapply list_elem_of_lookup_2, entries_lookup; eassumption.
Qed.

Lemma contents_inv v i s : array_ok v → contents v !! i = Some s → ∃ pos, keys v !! pos = Some i ∧ List_ v !! pos = Some s.
Proof.
  intros H Hc. apply elem_of_list_to_map in Hc; [|by apply entries_NoDup]. apply list_elem_of_lookup in Hc as [pos Hpos].
  unfold entries in Hpos. rewrite lookup_zip_with_Some in Hpos. destruct Hpos as (i'&s'&[= <- <-]&H1&H2). by exists pos.
Qed.

Lemma contents_None v i : array_ok v → i ∉ keys v → contents v !! i = None.
Proof.
  intros H Hi. destruct (contents v !! i) as [s|] eqn:E; [|done]. apply contents_inv in E as (pos&Hk&_); [|done].
  by apply list_elem_of_lookup_2 in Hk.
Qed.

(** ** The normal form *)

Lemma normalize_ok ks vs v : length ks = length vs → StronglySorted Z.lt ks → Forall index_ok ks → (vs = [] → ks = []) →
  let '(values, indices) := normalizeIndexed vs (Some ks) in
  array_ok (set_array values indices v) ∧ entries (set_array values indices v) = zip ks vs.
Proof.
  intros Hl Hs Hr Hn. destruct vs as [|s vs].
  { rewrite Hn by done. simpl. split; [|done]. split; first [done|constructor]. }
  simpl. destruct ks as [|k ks]; [done|]. rewrite bool_decide_eq_false_2 by done. simpl.
  destruct (isDenseIndices (k :: ks)) eqn:E.
  - unfold isDenseIndices in E. apply bool_decide_eq_true_1 in E. fold (dense (length (k :: ks))) in E.
    assert (keys (set_array (s :: vs) None v) = k :: ks) as Hk.
    { unfold keys. cbn [Indices List_ set_array]. rewrite <-Hl. by rewrite <-E. }
    split; [split; rewrite ?Hk; done|]. unfold entries. by rewrite Hk.
  - split; [|done]. split; first [done|by intros idx [= <-]].
Qed.

(** The dense array as one with indices. *)
Lemma normalize_dense vs v n : length vs = n → Forall index_ok (dense n) →
  let '(values, indices) := normalizeIndexed vs None in
  array_ok (set_array values indices v) ∧ entries (set_array values indices v) = zip (dense n) vs.
Proof.
  intros <- Hr. destruct vs as [|s vs]; simpl.
  { split; [|done]. split; first [done|constructor]. }
  split; [|done]. split; first [done|apply dense_length|apply dense_sorted].
Qed.

(** ** The operations *)

Definition update (append : bool) (value : gostr) (old : gostr) : gostr := if append then old ++ value else value.

(** The effect of an assignment on a finite map. *)
Definition spec_set (i : Z) (value : gostr) (append : bool) (m : gmap Z gostr) : gmap Z gostr :=
  <[i := match m !! i with Some old => update append value old | None => value end]> m.

Lemma zip_alter {A B} (f : B → B) (ks : list A) (vs : list B) pos :
  zip ks (alter f pos vs) = alter (prod_map id f) pos (zip ks vs).
Proof.
  revert vs pos. induction ks as [|k ks IH]; intros [|v vs] [|pos]; try done. simpl. f_equal. apply IH.
Qed.

Lemma alter_at_perm {A} (f : A → A) (l : list A) pos x : l !! pos = Some x → alter f pos l ≡ₚ f x :: slices_Delete l pos.
Proof.
  intros H. unfold slices_Delete. rewrite Permutation_middle. pose proof (lookup_lt_Some _ _ _ H) as Hlt.
  rewrite <-(take_drop_middle l pos x H) at 1. rewrite alter_app_r_alt by (rewrite length_take; lia).
  by replace (pos - length (take pos l))%nat with O by (rewrite length_take; lia).
Qed.

Lemma map_of_perm (l1 l2 : list (Z * gostr)) : NoDup l1.*1 → l1 ≡ₚ l2 → (list_to_map l1 : gmap Z gostr) = list_to_map l2.
Proof. apply list_to_map_proper. Qed.

Lemma alter_keys (f : gostr → gostr) pos (l : list (Z * gostr)) : (alter (prod_map id f) pos l).*1 = l.*1.
Proof. revert pos. induction l as [|[k x] l IH]; intros [|pos]; try done. simpl. f_equal. apply IH. Qed.

Lemma index_ok_dense n : glen (dense n) <= 2 ^ 63 → Forall index_ok (dense n).
Proof. intros H. apply list.Forall_forall. intros i Hi%elem_of_dense. unfold index_ok, glen in *. rewrite dense_length in H. lia. Qed.

(** Assignment at an index that is there. *)
Lemma IndexedSet_found v pos i value append : array_ok v → keys v !! pos = Some i → indexedSearch v i = (pos, true) →
  array_ok (IndexedSet v i value append) ∧ contents (IndexedSet v i value append) = spec_set i value append (contents v).
Proof.
  intros Hv Hpos Hsearch. unfold IndexedSet. rewrite Hsearch. pose proof Hv as [_ Hl Hs Hr _].
  set (vs := alter (fun old => if append then old ++ value else value) pos (List_ v)).
  assert (length vs = length (List_ v)) as Hlv by apply length_alter.
  assert (∃ old, List_ v !! pos = Some old) as [old Hold].
  { apply lookup_lt_is_Some_2. rewrite <-Hl. by eapply lookup_lt_Some. }
  assert (let '(values, indices) := normalizeIndexed vs (Indices v) in
    array_ok (set_array values indices v) ∧ entries (set_array values indices v) = zip (keys v) vs) as Hn.
  { unfold keys in *. destruct (Indices v) as [idx|].
    - apply normalize_ok; [lia|done|done|]. intros E. rewrite E in Hlv. by destruct idx; [|simpl in *; lia].
    - by apply normalize_dense. }
  destruct (normalizeIndexed vs (Indices v)) as [values indices]. destruct Hn as [H1 H2]. split; [done|].
  unfold contents. rewrite H2. fold (contents v). unfold spec_set. rewrite (contents_at v pos i old) by done.
  pose proof (entries_lookup v pos i old Hpos Hold) as He. pose proof (entries_NoDup v Hv) as Hnd.
  unfold vs. rewrite zip_alter. fold (entries v).
  rewrite (map_of_perm _ _ ltac:(by rewrite alter_keys) (alter_at_perm _ _ _ _ He)).
  unfold contents. rewrite (map_of_perm _ _ Hnd (delete_at_perm _ _ _ He)). simpl. by rewrite insert_insert, decide_True.
Qed.

(** Assignment at a new index. *)
Lemma IndexedSet_fresh v pos i value append : array_ok v → index_ok i → indexedSearch v i = (pos, false) → places (keys v) i pos false →
  array_ok (IndexedSet v i value append) ∧ contents (IndexedSet v i value append) = spec_set i value append (contents v).
Proof.
  intros Hv Hi Hsearch Hp. unfold IndexedSet. rewrite Hsearch. pose proof Hv as [_ Hl Hs Hr _]. pose proof Hp as (Hpos&_&Hgt).
  set (ks := slices_Insert (keys v) pos i). set (vs := slices_Insert (List_ v) pos value).
  assert (length ks = length vs) as Hlen by (unfold ks, vs; rewrite !length_insert_at; lia).
  assert (StronglySorted Z.lt ks) as Hks by by apply sorted_insert_at.
  assert (Forall index_ok ks) as Hkr.
  { apply list.Forall_forall. intros k [->|Hk]%elem_of_insert_at; [done|]. rewrite list.Forall_forall in Hr. by apply Hr. }
  set (indices := match Indices v with
    | None => if glen (List_ v) <? i then Some (default [] (denseIndices (length (List_ v)))) else None | Some idx => Some idx end).
  assert (let '(values, idx) := normalizeIndexed vs ((fun idx => slices_Insert idx pos i) <$> indices) in
    array_ok (set_array values idx v) ∧ entries (set_array values idx v) = zip ks vs) as Hn.
  { assert (vs ≠ []) as Hne by (unfold vs, slices_Insert; by destruct (take pos (List_ v))).
    assert ((∃ idx, indices = Some idx ∧ idx = keys v) ∨ indices = None ∧ Indices v = None ∧ i = glen (List_ v)) as [(idx&->&->)|(->&HN&Hend)].
    { unfold indices, keys in *. destruct (Indices v) as [idx|]; [left; by exists idx|].
      destruct (Z.ltb_spec (glen (List_ v)) i).
      - left. eexists. split; [done|]. unfold denseIndices. case_decide as H0; [by rewrite H0|done].
      - right. split; [done|]. split; [done|]. apply Z.le_antisymm; [done|]. apply Z.nlt_ge. intros Hlt.
        unfold index_ok, glen in *. apply (places_fresh _ _ _ Hp). apply elem_of_dense. lia. }
    - apply normalize_ok; done.
    - assert (ks = dense (length vs)) as Hd.
      { unfold ks, vs. rewrite length_insert_at by lia. rewrite dense_S. unfold keys in *. rewrite HN in *.
        assert (pos = length (dense (length (List_ v)))) as ->; [|unfold slices_Insert; rewrite take_ge, drop_ge by lia; subst i; done].
        apply Nat.le_antisymm; [done|]. apply Nat.nlt_ge. rewrite dense_length. intros Hlt.
        assert (Z.of_nat pos ∈ drop pos (dense (length (List_ v)))) as Hin.
        { apply list_elem_of_lookup. exists O. rewrite lookup_drop, Nat.add_0_r. by apply dense_lookup. }
        specialize (Hgt _ Hin). unfold glen in Hend. lia. }
      rewrite Hd. apply normalize_dense; [done|]. by rewrite <-Hd. }
  destruct (normalizeIndexed vs _) as [values idx]. destruct Hn as [H1 H2]. split; [done|].
  unfold contents. rewrite H2. unfold ks, vs. rewrite zip_insert_at by done. fold (entries v).
  pose proof (places_fresh _ _ _ Hp) as Hfresh. rewrite (map_of_perm _ ((i, value) :: entries v)); [| |apply insert_at_perm].
  - fold (contents v). unfold spec_set. simpl. fold (contents v). by rewrite contents_None.
  - unfold entries. rewrite <-zip_insert_at by done. rewrite fst_zip; [by apply sorted_NoDup|]. unfold ks, vs in Hlen. by rewrite Hlen.
Qed.

Lemma IndexedSet_ok v i value append : array_ok v → index_ok i →
  array_ok (IndexedSet v i value append) ∧ contents (IndexedSet v i value append) = spec_set i value append (contents v).
Proof.
  intros Hv Hi. pose proof (indexedSearch_places v i (ao_sorted v Hv)) as Hp. destruct (indexedSearch v i) as [pos [|]] eqn:E.
  - by apply (IndexedSet_found v pos i).
  - by apply (IndexedSet_fresh v pos i).
Qed.

Lemma IndexedUnset_ok v i : array_ok v → index_ok i →
  array_ok (IndexedUnset v i) ∧ contents (IndexedUnset v i) = delete i (contents v).
Proof.
  intros Hv Hi. pose proof (indexedSearch_places v i (ao_sorted v Hv)) as Hp. pose proof Hv as [Hkind Hl Hs Hr _].
  unfold IndexedUnset. rewrite bool_decide_eq_true_2 by done. simpl. destruct (Z.ltb_spec i 0); [unfold index_ok in Hi; lia|].
  destruct (indexedSearch v i) as [pos [|]]; simpl; cycle 1.
  { split; [done|]. rewrite delete_id; [done|]. apply contents_None; [done|]. by eapply places_fresh. }
  simpl in Hp. assert (∃ old, List_ v !! pos = Some old) as [old Hold].
  { apply lookup_lt_is_Some_2. rewrite <-Hl. by eapply lookup_lt_Some. }
  assert (match Indices v with Some idx => idx | None => default [] (denseIndices (length (List_ v))) end = keys v) as ->.
  { unfold keys. destruct (Indices v); [done|]. unfold denseIndices. case_decide as H0; [by rewrite H0|done]. }
  pose proof (length_delete_at (keys v) pos i Hp) as Hlk. pose proof (length_delete_at (List_ v) pos old Hold) as Hlv.
  pose proof (normalize_ok (slices_Delete (keys v) pos) (slices_Delete (List_ v) pos) v) as Hn.
  destruct (normalizeIndexed _ _) as [values idx]. destruct Hn as [H1 H2]; [lia|by apply sorted_delete_at| | |].
  { apply list.Forall_forall. intros k Hk%elem_of_delete_at. rewrite list.Forall_forall in Hr. by apply Hr. }
  { intros E. apply length_zero_iff_nil. rewrite E in *. simpl in *. lia. }
  split; [done|]. unfold contents. rewrite H2, zip_delete_at by done. fold (entries v).
  pose proof (entries_lookup v pos i old Hp Hold) as He. pose proof (entries_NoDup v Hv) as Hnd.
  pose proof (delete_at_perm _ _ _ He) as Hperm. rewrite (map_of_perm _ _ Hnd Hperm). simpl.
  rewrite delete_insert_id; [done|]. apply not_elem_of_list_to_map_1.
  rewrite Hperm in Hnd. by apply NoDup_cons_1_1 in Hnd.
Qed.

Lemma IndexedGet_ok v i : array_ok v → index_ok i → IndexedGet v i = contents v !! i.
Proof.
  intros Hv Hi. pose proof (indexedSearch_places v i (ao_sorted v Hv)) as Hp. pose proof Hv as [Hkind Hl _ _ _].
  unfold IndexedGet. rewrite bool_decide_eq_true_2 by done. simpl. destruct (Z.ltb_spec i 0); [unfold index_ok in Hi; lia|].
  destruct (indexedSearch v i) as [pos [|]]; simpl in Hp.
  - destruct (lookup_lt_is_Some_2 (List_ v) pos) as [s Hs]; [rewrite <-Hl; by eapply lookup_lt_Some|].
    rewrite Hs. symmetry. by eapply contents_at.
  - symmetry. apply contents_None; [done|]. by eapply places_fresh.
Qed.

(** The greatest index. *)
Lemma IndexedMaxIndex_ok v : array_ok v → match IndexedMaxIndex v with
  | None => contents v = ∅
  | Some m => is_Some (contents v !! m) ∧ index_ok m ∧ ∀ i, is_Some (contents v !! i) → i <= m
  end.
Proof.
  intros Hv. pose proof Hv as [Hkind Hl Hs Hr Hsp]. unfold IndexedMaxIndex. rewrite bool_decide_eq_true_2 by done. simpl.
  destruct (bool_decide_reflect (List_ v = [])) as [He|Hne].
  { unfold contents, entries. rewrite He. by rewrite zip_with_nil_r. }
  assert (∃ m, list.last (keys v) = Some m) as [m Hm].
  { apply last_is_Some. intros E. rewrite E in Hl. by destruct (List_ v). }
  assert ((match Indices v with None => Some (glen (List_ v) - 1) | Some idx => list.last idx end) = Some m) as ->.
  { unfold keys in Hm. destruct (Indices v); [done|]. destruct (length (List_ v)) as [|n] eqn:En; [by apply nil_length_inv in En|].
    rewrite dense_S, last_snoc in Hm. injection Hm as <-. f_equal. unfold glen. lia. }
  apply last_Some in Hm as [l Hk]. assert (m ∈ keys v) as Hin by (rewrite Hk, elem_of_app, list_elem_of_singleton; by right).
  split_and!.
  - apply list_elem_of_lookup in Hin as [pos Hpos]. destruct (lookup_lt_is_Some_2 (List_ v) pos) as [s Hs'].
    { rewrite <-Hl. by eapply lookup_lt_Some. }
    exists s. by eapply contents_at.
  - rewrite list.Forall_forall in Hr. by apply Hr.
  - intros i [s Hi]. apply contents_inv in Hi as (pos&Hpos&_); [|done]. apply list_elem_of_lookup_2 in Hpos.
    rewrite Hk in Hs, Hpos. apply sorted_app in Hs as (_&_&Hlt). apply elem_of_app in Hpos as [Hpos|Hpos%list_elem_of_singleton]; [|lia].
    pose proof (Hlt i m Hpos ltac:(left)). lia.
Qed.

(** The in-place append of a dense array is the assignment behind its end. *)
Lemma dense_append v field : Kind v = KIndexed → Indices v = None →
  IndexedSet v (glen (List_ v)) field false =
  MkVariable true (Attrs v) KIndexed (Str v) (List_ v ++ [field]) None (Map_ v).
Proof.
  intros Hk Hi. unfold IndexedSet, indexedSearch. rewrite Hi. pose proof (glen_nonneg (List_ v)).
  destruct (Z.leb_spec 0 (glen (List_ v))), (Z.ltb_spec (glen (List_ v)) (glen (List_ v))), (Z.ltb_spec (glen (List_ v)) 0); try lia.
  simpl. unfold glen, slices_Insert. rewrite Nat2Z.id, take_ge, drop_ge by lia.
  destruct (List_ v ++ [field]) as [|x l] eqn:E; [by destruct (List_ v)|]. simpl. unfold set_array. by rewrite bool_decide_eq_true_2.
Qed.
