(* ===== verification/IndexedTheorems.v ===== *)
(** The abstract machine that indexed arrays implement, the simulation, and the compound assignment. *)
From S2P Require Import Prelude Indexed IndexedProps.

(** ** The abstract machine: a finite map from indices to values *)

Inductive array_op :=
| OpGet (i : Z)
| OpSet (i : Z) (value : gostr) (append : bool)
| OpUnset (i : Z)
| OpMax
| OpResolve (i : Z)
| OpCount
| OpList.

Inductive array_answer :=
| RDone
| RVal (o : option gostr)
| RIdx (o : option Z)
| RCount (n : Z)
| RList (l : list (Z * gostr)).

(** Indices that the callers pass: not negative, except to [IndexedResolve]. *)
Definition op_ok (op : array_op) : Prop :=
  match op with
  | OpGet i | OpSet i _ _ | OpUnset i => index_ok i
  | OpResolve i => int64_ok i
  | _ => True
  end.

Definition greatest (m : gmap Z gostr) (o : option Z) : Prop :=
  match o with
  | None => m = ∅
  | Some k => is_Some (m !! k) ∧ index_ok k ∧ ∀ i, is_Some (m !! i) → i <= k
  end.

Inductive abs_step (m : gmap Z gostr) : array_op → array_answer → gmap Z gostr → Prop :=
| abs_get i : abs_step m (OpGet i) (RVal (m !! i)) m
| abs_set i value append : abs_step m (OpSet i value append) RDone (spec_set i value append m)
| abs_unset i : abs_step m (OpUnset i) RDone (delete i m)
| abs_max o : greatest m o → abs_step m OpMax (RIdx o) m
| abs_resolve_direct i : 0 <= i → abs_step m (OpResolve i) (RIdx (Some i)) m
| abs_resolve_back i k : i < 0 → greatest m (Some k) → 0 <= k + 1 + i → abs_step m (OpResolve i) (RIdx (Some (k + 1 + i))) m
| abs_resolve_fail i o : i < 0 → greatest m o → (∀ k, o = Some k → k + 1 + i < 0) → abs_step m (OpResolve i) (RIdx None) m
| abs_count : abs_step m OpCount (RCount (Z.of_nat (size m))) m
| abs_list l : l ≡ₚ map_to_list m → StronglySorted Z.lt l.*1 → abs_step m OpList (RList l) m.

Inductive abs_run : gmap Z gostr → list array_op → list array_answer → gmap Z gostr → Prop :=
| abs_stop m : abs_run m [] [] m
| abs_next m op r m1 ops rs m2 : abs_step m op r m1 → abs_run m1 ops rs m2 → abs_run m (op :: ops) (r :: rs) m2.

(** ** The implementation *)

Definition impl_step (op : array_op) (v : Variable_) : array_answer * Variable_ :=
  match op with
  | OpGet i => (RVal (IndexedGet v i), v)
  | OpSet i value append => (RDone, IndexedSet v i value append)
  | OpUnset i => (RDone, IndexedUnset v i)
  | OpMax => (RIdx (IndexedMaxIndex v), v)
  | OpResolve i => (RIdx (IndexedResolve v i), v)
  | OpCount => (RCount (IndexedCount v), v)
  | OpList => (RList (zip (default [] (IndexedIndices v)) (IndexedValues v)), v)
  end.

Fixpoint impl_run (ops : list array_op) (v : Variable_) : list array_answer * Variable_ :=
  match ops with
  | [] => ([], v)
  | op :: ops => let '(r, v) := impl_step op v in let '(rs, v) := impl_run ops v in (r :: rs, v)
  end.

Lemma IndexedResolve_ok v i : array_ok v → int64_ok i → abs_step (contents v) (OpResolve i) (RIdx (IndexedResolve v i)) (contents v).
Proof.
  intros Hv Hi. unfold IndexedResolve. destruct (Z.leb_spec 0 i); [by apply abs_resolve_direct|].
  pose proof (IndexedMaxIndex_ok v Hv) as Hm. destruct (IndexedMaxIndex v) as [k|].
  - destruct Hm as (H1&H2&H3). assert (wrap64 (wrap64 (k + 1) + i) = k + 1 + i) as ->.
    { rewrite <-(wrap64_id i Hi) at 1. rewrite wrap64_add. apply wrap64_id. unfold int64_ok, index_ok in *. lia. }
    destruct (Z.ltb_spec (k + 1 + i) 0).
    + apply abs_resolve_fail with (Some k); [done|done|]. by intros ? [= <-].
    + by apply abs_resolve_back.
  - by apply abs_resolve_fail with None.
Qed.

Lemma entries_list v : array_ok v → zip (default [] (IndexedIndices v)) (IndexedValues v) = entries v.
Proof.
  intros [Hk Hl _ _ _]. unfold IndexedIndices, IndexedValues, entries, keys. rewrite Hk. simpl.
  destruct (bool_decide_reflect (List_ v = [])) as [He|He]; [rewrite He; by rewrite !zip_with_nil_r|].
  destruct (Indices v); [done|]. unfold denseIndices. case_decide as H0; [|done]. by apply nil_length_inv in H0.
Qed.

Lemma impl_step_ok op v : array_ok v → op_ok op → array_ok (impl_step op v).2 ∧
  abs_step (contents v) op (impl_step op v).1 (contents (impl_step op v).2).
Proof.
  intros Hv Hop. destruct op as [i|i value append|i| |i| |]; simpl in *.
  - split; [done|]. rewrite IndexedGet_ok by done. constructor.
  - destruct (IndexedSet_ok v i value append Hv Hop) as [H1 ->]. split; [done|constructor].
  - destruct (IndexedUnset_ok v i Hv Hop) as [H1 ->]. split; [done|constructor].
  - split; [done|]. constructor. apply IndexedMaxIndex_ok, Hv.
  - split; [done|]. by apply IndexedResolve_ok.
  - split; [done|]. unfold IndexedCount. assert (glen (List_ v) = Z.of_nat (size (contents v))) as ->; [|constructor].
    unfold glen. f_equal. rewrite <-length_map_to_list. unfold contents. rewrite map_to_list_to_map by by apply entries_NoDup.
    unfold entries. rewrite length_zip_with. pose proof (ao_length v Hv). lia.
  - split; [done|]. rewrite entries_list by done. constructor.
    + unfold contents. rewrite map_to_list_to_map; [done|by apply entries_NoDup].
    + rewrite entries_keys by done. apply Hv.
Qed.

Lemma impl_run_ok ops v : array_ok v → Forall op_ok ops →
  array_ok (impl_run ops v).2 ∧ abs_run (contents v) ops (impl_run ops v).1 (contents (impl_run ops v).2).
Proof.
  intros Hv Hops. revert v Hv. induction Hops as [|op ops Hop _ IH]; intros v Hv; simpl; [split; [done|constructor]|].
  destruct (impl_step_ok op v Hv Hop) as [H1 H2]. destruct (impl_step op v) as [r v1]. simpl in *.
  destruct (IH v1 H1) as [H3 H4]. destruct (impl_run ops v1) as [rs v2]. simpl in *. split; [done|]. by econstructor.
Qed.

(** Two strictly increasing lists with the same elements are equal. *)
Lemma sorted_unique (l k : list Z) : StronglySorted Z.lt l → StronglySorted Z.lt k → (∀ x, x ∈ l ↔ x ∈ k) → l = k.
Proof.
  intros Hl. revert k. induction Hl as [|x l Hs IH Hf]; intros k Hk Heq.
  { destruct k as [|y k]; [done|]. exfalso. apply (elem_of_nil y). apply Heq. left. }
  inversion Hk as [|y k' Hs' Hf' E]; subst; [exfalso; apply (elem_of_nil x), Heq; left|].
  rewrite list.Forall_forall in Hf, Hf'. assert (x = y) as <-.
  { assert (x ∈ y :: k') as [->|Hx]%elem_of_cons by (apply Heq; left); [done|].
    assert (y ∈ x :: l) as [->|Hy]%elem_of_cons by (apply Heq; left); [done|].
    specialize (Hf y Hy). specialize (Hf' x Hx). lia. }
  f_equal. apply IH; [done|]. intros z. specialize (Heq z). rewrite !elem_of_cons in Heq. split; intros Hz.
  - destruct (proj1 Heq (or_intror Hz)) as [->|]; [|done]. specialize (Hf x Hz). lia.
  - destruct (proj2 Heq (or_intror Hz)) as [->|]; [|done]. specialize (Hf' x Hz). lia.
Qed.

Lemma elem_of_keys v i : array_ok v → i ∈ keys v ↔ is_Some (contents v !! i).
Proof.
  intros Hv. split.
  - intros (pos&Hpos)%list_elem_of_lookup. destruct (lookup_lt_is_Some_2 (List_ v) pos) as [s Hs].
    { rewrite <-(ao_length v Hv). by eapply lookup_lt_Some. }
    exists s. by eapply contents_at.
  - intros [s Hs]. apply contents_inv in Hs as (pos&Hpos&_); [|done]. by eapply list_elem_of_lookup_2.
Qed.

(** The representation is determined by the contents. *)
Lemma normal_form v w : array_ok v → array_ok w → contents v = contents w → List_ v = List_ w ∧ Indices v = Indices w.
Proof.
  intros Hv Hw E. assert (keys v = keys w) as Hk.
  { apply sorted_unique; [apply Hv|apply Hw|]. intros x. rewrite !elem_of_keys by done. by rewrite E. }
  assert (List_ v = List_ w) as Hl.
  { apply list_eq. intros k. destruct (List_ v !! k) as [s|] eqn:Ek.
    - destruct (lookup_lt_is_Some_2 (keys v) k) as [i Hi]; [rewrite (ao_length v Hv); by eapply lookup_lt_Some|].
      pose proof (contents_at v k i s Hv Hi Ek) as Hc. rewrite Hk in Hi.
      destruct (lookup_lt_is_Some_2 (List_ w) k) as [s' Hs']; [rewrite <-(ao_length w Hw); by eapply lookup_lt_Some|].
      pose proof (contents_at w k i s' Hw Hi Hs'). congruence.
    - apply lookup_ge_None_1 in Ek. symmetry. apply lookup_ge_None_2. rewrite <-(ao_length w Hw), <-Hk, (ao_length v Hv). lia. }
  split; [done|]. unfold keys in Hk. rewrite <-Hl in Hk.
  destruct (Indices v) as [idx|] eqn:Ev, (Indices w) as [idx'|] eqn:Ew; [by subst| | |done].
  - pose proof (ao_sparse v Hv idx Ev) as Hd. unfold isDenseIndices in Hd. apply bool_decide_eq_false_1 in Hd. destruct Hd.
    rewrite Hk, dense_length. done.
  - pose proof (ao_sparse w Hw idx' Ew) as Hd. unfold isDenseIndices in Hd. apply bool_decide_eq_false_1 in Hd. destruct Hd.
    rewrite <-Hk, dense_length. done.
Qed.

(** C27: indexed arrays refine finite maps: from a well-formed array, every sequence of assignments,
    appends to elements, removals and reads with valid indices gives answers of the abstract machine
    on the map the array stands for, and leaves a well-formed array for the map it ends with. *)
Theorem indexed_array_refines v ops : array_ok v → Forall op_ok ops →
  array_ok (impl_run ops v).2 ∧ abs_run (contents v) ops (impl_run ops v).1 (contents (impl_run ops v).2).
Proof. apply impl_run_ok. Qed.

(** ** Compound assignment *)

(** Elements with plain indices. *)
Inductive plain_elem := PSeq (fields : list gostr) | PKey (append : bool) (i : Z) (value : gostr).
Definition to_elem (e : plain_elem) : array_elem :=
  match e with PSeq fields => ElemSequential fields | PKey append i value => ElemKeyed append (fun _ => (i, false)) value end.

(** The map they describe, and whether all indices stay below the greatest integer. *)
Fixpoint spec_fields (m : gmap Z gostr) (next : Z) (fields : list gostr) : gmap Z gostr :=
  match fields with [] => m | f :: fields => spec_fields (<[next := f]> m) (next + 1) fields end.
Fixpoint spec_elems (m : gmap Z gostr) (next : Z) (elems : list plain_elem) : gmap Z gostr :=
  match elems with
  | [] => m
  | PSeq fields :: elems => spec_elems (spec_fields m next fields) (next + glen fields) elems
  | PKey append i value :: elems => spec_elems (spec_set i value append m) (i + 1) elems
  end.
Fixpoint elems_fit (next : Z) (elems : list plain_elem) : Prop :=
  match elems with
  | [] => True
  | PSeq fields :: elems => next + glen fields < 2 ^ 63 ∧ elems_fit (next + glen fields) elems
  | PKey _ i _ :: elems => 0 <= i ∧ i + 1 < 2 ^ 63 ∧ elems_fit (i + 1) elems
  end.

Lemma mark_set_ok v : array_ok v → array_ok (mark_set v) ∧ contents (mark_set v) = contents v.
Proof. intros [H1 H2 H3 H4 H5]. split; [by split|done]. Qed.

Lemma assign_fields_ok v (next : Z) (fields : list gostr) : array_ok v → 0 <= next → next + glen fields < 2 ^ 63 →
  let '(v', next') := assign_fields v next fields in
  array_ok v' ∧ contents v' = spec_fields (contents v) next fields ∧ next' = next + glen fields.
Proof.
  revert v next. induction fields as [|f fields IH]; intros v next Hv Hn Hfit; simpl.
  { split_and!; [done|done|unfold glen; simpl; lia]. }
  unfold glen in Hfit. simpl in Hfit. match goal with |- context [assign_fields ?s _ fields] => set (shadow := s) end.
  assert (array_ok shadow ∧ contents shadow = <[next := f]> (contents v)) as [H1 H2].
  { destruct (IndexedSet_ok v next f false Hv) as [Ha Hc]; [unfold index_ok; lia|].
    assert (spec_set next f false (contents v) = <[next := f]> (contents v)) as Hs by (unfold spec_set; by destruct (contents v !! next)).
    rewrite Hs in Hc. unfold shadow. destruct (bool_decide_reflect (Indices v = None)) as [Hi|]; [|done]. simpl.
    destruct (Z.eqb_spec next (glen (List_ v))) as [->|]; [|done]. rewrite dense_append in Ha, Hc by (done || apply Hv).
    destruct Ha as [A1 A2 A3 A4 A5]. split; [|done]. split; [apply Hv|done|done|done|done]. }
  assert (wrap64 (next + 1) = next + 1) as -> by (apply wrap64_id; unfold int64_ok; lia).
  specialize (IH shadow (next + 1) H1 ltac:(lia)). destruct (assign_fields shadow (next + 1) fields) as [v' next'].
  destruct IH as (H3&H4&H5); [unfold glen; lia|]. split_and!; [done|by rewrite H4, H2|]. rewrite H5. unfold glen. simpl. lia.
Qed.

Lemma assign_elems_ok v (next : Z) elems : array_ok v → 0 <= next → elems_fit next elems →
  array_ok (assign_elems false v next (map to_elem elems)) ∧
  contents (assign_elems false v next (map to_elem elems)) = spec_elems (contents v) next elems.
Proof.
  revert v next. induction elems as [|[fields|append i value] elems IH]; intros v next Hv Hn Hfit; simpl; [done| |].
  - destruct Hfit as [Hf Hfit]. pose proof (assign_fields_ok v next fields Hv Hn Hf) as Ha.
    destruct (assign_fields v next fields) as [v' next']. destruct Ha as (H1&H2&->).
    destruct (mark_set_ok v' H1) as [H3 H4]. rewrite <-H2, <-H4. apply IH; [done|pose proof (glen_nonneg fields); lia|done].
  - destruct Hfit as (Hi&Hi'&Hfit). destruct (Z.ltb_spec i 0); [lia|].
    destruct (IndexedSet_ok v i value append Hv) as [H1 H2]; [unfold index_ok; lia|].
    destruct (mark_set_ok _ H1) as [H3 H4]. rewrite wrap64_id by (unfold int64_ok; lia). rewrite <-H2, <-H4. apply IH; [done|lia|done].
Qed.

(** What [a+=(...)] starts from. *)
Definition base_contents (prev : Variable_) (appendAssign : bool) : gmap Z gostr :=
  if negb appendAssign then ∅
  else match Kind prev with KString => {[0 := Str prev]} | KIndexed => contents prev | _ => ∅ end.

Lemma compoundArrayBase_ok prev appendAssign : (Kind prev = KIndexed → array_ok prev) →
  array_ok (compoundArrayBase prev appendAssign) ∧ contents (compoundArrayBase prev appendAssign) = base_contents prev appendAssign.
Proof.
  intros Hp. unfold compoundArrayBase, base_contents.
  assert (∀ attrs set str map, array_ok (MkVariable set attrs KIndexed str [] None map)) as Hempty.
  { intros. split; first [done|constructor]. }
  destruct appendAssign; simpl; [|by split]. destruct (Kind prev) eqn:Ek; try by split.
  - split; [|done]. split; simpl; [done|done| | |done].
    + unfold keys. simpl. repeat constructor.
    + unfold keys. simpl. repeat constructor. unfold index_ok. lia.
  - destruct (Hp eq_refl) as [H1 H2 H3 H4 H5]. split; [by split|done].
Qed.

Lemma IndexedAppendIndex_ok v : array_ok v → IndexedMaxIndex v ≠ Some (2 ^ 63 - 1) →
  ∃ o, greatest (contents v) o ∧ IndexedAppendIndex v = match o with None => 0 | Some m => m + 1 end ∧ 0 <= IndexedAppendIndex v.
Proof.
  intros Hv Hmax. pose proof (IndexedMaxIndex_ok v Hv) as Hm. unfold IndexedAppendIndex in *.
  destruct (IndexedMaxIndex v) as [m|]; [|by exists None]. exists (Some m). destruct Hm as (H1&H2&H3). unfold index_ok in H2.
  assert (m ≠ 2 ^ 63 - 1) by congruence. rewrite wrap64_id by (unfold int64_ok; lia). split_and!; (done || lia).
Qed.

(** C28: A compound assignment of an indexed array has the value of its elements: the sequential ones go to
    consecutive indices from behind the last one written (or, with [+=], from behind the greatest), the
    keyed ones to their index; the fast path that appends in place changes nothing.  It holds for keys that
    are integers, none negative, where the index behind each element fits into 64 bits, and a command that is
    not stopping. *)
Theorem compound_assignment_exact prev appendAssign elems :
  let vr := compoundArrayBase prev appendAssign in
  (Kind prev = KIndexed → array_ok prev) → IndexedMaxIndex vr ≠ Some (2 ^ 63 - 1) → elems_fit (IndexedAppendIndex vr) elems →
  let v := assignArray prev appendAssign false (map to_elem elems) in
  array_ok v ∧ contents v = spec_elems (base_contents prev appendAssign) (IndexedAppendIndex vr) elems ∧
  ∃ o, greatest (base_contents prev appendAssign) o ∧ IndexedAppendIndex vr = match o with None => 0 | Some m => m + 1 end.
Proof.
  intros vr Hp Hmax Hfit. destruct (compoundArrayBase_ok prev appendAssign Hp) as [H1 H2]. fold vr in H1, H2.
  destruct (IndexedAppendIndex_ok vr H1 Hmax) as (o&Ho&He&Hpos).
  destruct (assign_elems_ok vr (IndexedAppendIndex vr) elems H1 Hpos Hfit) as [H3 H4].
  cbv zeta. unfold assignArray. fold vr. rewrite <-H2. split_and!; [done|done|by exists o].
Qed.

(** ** Instances *)

Definition no_attrs : VarAttrs := MkAttrs false false false false false false false false.
Definition unset_var : Variable_ := MkVariable false no_attrs Unknown [] [] None None.
Definition demo_array : Variable_ := assignArray unset_var false false [ElemSequential [go "a"; go "b"]; ElemKeyed false (fun _ => (7, false)) (go "h")].

Lemma demo_array_ok : array_ok demo_array.
Proof.
  split; [reflexivity|reflexivity| | |].
  - vm_compute. repeat constructor.
  - change (keys demo_array) with [0; 1; 7]. repeat constructor; unfold index_ok; lia.
  - intros idx. change (Indices demo_array) with (Some [0; 1; 7]). by intros [= <-].
Qed.

Lemma indexed_array_refines_witness :
  let ops := [OpUnset 1; OpSet 3 (go "c") true; OpResolve (-5); OpList] in
  (impl_run ops demo_array).1 = [RDone; RDone; RIdx (Some 3); RList [(0, go "a"); (3, go "c"); (7, go "h")]] ∧
  abs_run (contents demo_array) ops (impl_run ops demo_array).1 (contents (impl_run ops demo_array).2).
Proof.
  split; [vm_compute; reflexivity|]. apply (indexed_array_refines demo_array); [exact demo_array_ok|].
  repeat constructor; simpl; unfold index_ok, int64_ok; lia.
Defined.

Lemma compound_assignment_exact_witness :
  array_ok (assignArray demo_array true false (map to_elem [PSeq [go "i"]; PKey true 0 (go "z")])) ∧
  contents (assignArray demo_array true false (map to_elem [PSeq [go "i"]; PKey true 0 (go "z")])) !! 0 = Some (go "az").
Proof.
  destruct (compound_assignment_exact demo_array true [PSeq [go "i"]; PKey true 0 (go "z")]) as (H1&_&_).
  - intros _. exact demo_array_ok.
  - vm_compute. discriminate.
  - simpl. unfold glen. change (IndexedAppendIndex (compoundArrayBase demo_array true)) with 8. simpl. lia.
  - split; [exact H1|vm_compute; reflexivity].
Defined.

(** An index before the start of the array is not rejected by a compound assignment: on an empty array
    the element lands at index 0, on a sparse one at a negative index. *)
Example negative_index_empty :
  List_ (assignArray unset_var false false [ElemKeyed false (fun _ => (-1, false)) (go "x")]) = [go "x"].
Proof. vm_compute. reflexivity. Qed.

Example negative_index_sparse :
  Indices (assignArray unset_var false false [ElemKeyed false (fun _ => (5, false)) (go "x"); ElemKeyed false (fun _ => (-9, false)) (go "y")])
  = Some [-9; 5].
Proof. vm_compute. reflexivity. Qed.

(** The next index wraps around behind the greatest one. *)
Example next_index_wraps :
  Indices (assignArray unset_var false false [ElemKeyed false (fun _ => (2 ^ 63 - 1, false)) (go "x"); ElemSequential [go "y"]])
  = Some [- 2 ^ 63; 2 ^ 63 - 1].
Proof. vm_compute. reflexivity. Qed.
