(* ===== verification/Pattern.v ===== *)
(** Shell patterns with extended groups: the recursive matcher of
    [internal/shellpattern/extglob_matcher.go] and its parser, with [HasMeta], [QuoteMeta] and the
    bracket expressions of [internal/shellpattern/pattern.go]. *)
From S2P Require Import Prelude FsTypes GoUtf8.

(** ** Modes *)

Definition Shortest : N := 1.
Definition Filenames : N := 2.
Definition EntireString : N := 4.
Definition NoGlobCase : N := 8.
Definition NoGlobStar : N := 16.
Definition GlobLeadingDot : N := 32.
Definition ExtendedOperators : N := 64.

(** Where the parser gives up.  [PatternFuel] is no error of the source. *)
Inductive pattern_error :=
| BackslashAtEnd
| UnclosedBracket
| BadClassName
| BadClassRegexp
| TrailingData
| UnterminatedExtGlob
| PatternFuel.

#[export] Instance pattern_error_eq_dec : EqDecision pattern_error.
Proof. solve_decision. Defined.

(** ** Bracket expressions *)

(** The names [charClass] knows, with the ranges that Go's regexp engine gives them. *)
Definition class_ranges (name : gostr) : option (list (rune * rune)) :=
  let table := [
    (go "alnum", [(48, 57); (65, 90); (97, 122)]); (go "alpha", [(65, 90); (97, 122)]); (go "ascii", [(0, 127)]);
    (go "blank", [(9, 9); (32, 32)]); (go "cntrl", [(0, 31); (127, 127)]); (go "digit", [(48, 57)]);
    (go "graph", [(33, 126)]); (go "lower", [(97, 122)]); (go "print", [(32, 126)]);
    (go "punct", [(33, 47); (58, 64); (91, 96); (123, 126)]); (go "space", [(9, 13); (32, 32)]);
    (go "upper", [(65, 90)]); (go "word", [(48, 57); (65, 90); (97, 122); (95, 95)]);
    (go "xdigit", [(48, 57); (65, 70); (97, 102)])] in
  snd <$> List.find (fun e => bool_decide (e.1 = name)) table.

(** [strings.Cut(s, ":]")]: what comes before, when it is found. *)
Fixpoint before_colon_bracket (s : gostr) : option gostr :=
  match s with
  | ":"%char :: "]"%char :: _ => Some []
  | c :: s => cons c <$> before_colon_bracket s
  | [] => None
  end.

(** [charClass]: an error, no class, or a class name and the bytes it takes after its bracket. *)
Definition charClass (s : gostr) : result pattern_error (option (gostr * nat)) :=
  match s with
  | "."%char :: _ | "="%char :: _ => Err BadClassName
  | ":"%char :: s =>
      match before_colon_bracket s with
      | None => Err BadClassName
      | Some name =>
          match class_ranges name with
          | None => Err BadClassName
          | Some _ => Ok (Some (go "[:" ++ name ++ go ":]", (length name + 3)%nat))
          end
      end
  | _ => Ok None
  end.

(** [scanCharClassToken] past the start of the expression: its text up to the closing bracket, and
    the rest; [skip] bytes are passed over. *)
Fixpoint scan_class (skip : nat) (s : gostr) : result pattern_error (gostr * gostr) :=
  match s with
  | [] => Err UnclosedBracket
  | c :: s' =>
      let continue skip :=
        match scan_class skip s' with Ok (raw, rest) => Ok (c :: raw, rest) | Err e => Err e end in
      match skip with
      | S k => continue k
      | O =>
          if decide (c = "\"%char) then continue 1%nat
          else if decide (c = "["%char) then
            match charClass s' with
            | Err e => Err e
            | Ok (Some (_, consumed)) => continue consumed
            | Ok None => continue O
            end
          else if decide (c = "]"%char) then Ok ([c], s')
          else continue O
      end
  end.

(** The text of the expression that starts with the bracket before [s], and what follows it. *)
Definition scanCharClassToken (s : gostr) : result pattern_error (gostr * gostr) :=
  let '(neg, s1) := match s with
                    | c :: s1 => if decide (c = "!"%char ∨ c = "^"%char) then ([c], s1) else ([], s)
                    | [] => ([], s)
                    end in
  let '(close, s2) := match s1 with
                      | c :: s2 => if decide (c = "]"%char) then ([c], s2) else ([], s1)
                      | [] => ([], s1)
                      end in
  match scan_class 0 s2 with
  | Ok (raw, rest) => Ok ("["%char :: neg ++ close ++ raw, rest)
  | Err e => Err e
  end.

Definition class_punct : gostr := go "!" ++ [ascii_of_N 34] ++ go "#$%&'()*+,-./:;<=>?@[\]^_{|}~`".

Definition quoteClassChar (s : gostr) : gostr :=
  match s with
  | [c] => if decide (c ∈ class_punct) then "\"%char :: s else s
  | _ => s
  end.

(** The loop of [charClassRegexp]; [skip] bytes of an escaped rune are written already. *)
Fixpoint class_regexp_loop (skip : nat) (s : gostr) : gostr :=
  match s with
  | [] => []
  | c :: s' =>
      match skip with
      | S k => class_regexp_loop k s'
      | O =>
          match s' with
          | _ :: _ =>
              if decide (c = "\"%char) then
                let size := (DecodeRuneInString s').2 in
                quoteClassChar (take size s') ++ class_regexp_loop size s'
              else c :: class_regexp_loop O s'
          | [] => [c]
          end
      end
  end.

Definition charClassRegexp (raw : gostr) : gostr :=
  let s := drop 1 raw in
  match s with
  | c :: s' => if decide (c = "!"%char) then go "[^" ++ class_regexp_loop 0 s' else "["%char :: class_regexp_loop 0 s
  | [] => go "["
  end.

(** *** The classes of Go's [regexp]

    [parse_class] is the part of [regexp.Compile] that reads a bracket expression as
    [charClassRegexp] writes it: escapes of punctuation, named classes, ranges, single runes. *)

Record char_class := MkClass { cc_negated : bool; cc_fold : bool; cc_ranges : list (rune * rune) }.

Definition is_alnum (b : Z) : bool := between 48 b 57 || between 65 b 90 || between 97 b 122.

(** One rune of a class: the rune and what follows; [None] for an error. *)
Definition class_char (t : gostr) : option (rune * gostr) :=
  match t with
  | [] => None
  | "\"%char :: c :: t' =>
      if (byte_val c <? RuneSelf) && negb (is_alnum (byte_val c)) then Some (byte_val c, t') else None
  | ["\"%char] => None
  | _ =>
      let '(r, size) := DecodeRuneInString t in
      if (r =? RuneError) && Nat.eqb size 1 then None else Some (r, drop size t)
  end.

Fixpoint class_items (fuel : nat) (first : bool) (t : gostr) : option (list (rune * rune)) :=
  match fuel with
  | O => None
  | S fuel =>
      match t with
      | [] => None
      | c :: t' =>
          if bool_decide (c = "]"%char) && negb first then (if decide (t' = []) then Some [] else None)
          else
            let single :=
              match class_char t with
              | None => None
              | Some (lo, t1) =>
                  match t1 with
                  | "-"%char :: d :: _ =>
                      if decide (d = "]"%char) then cons (lo, lo) <$> class_items fuel false t1
                      else
                        match class_char (drop 1 t1) with
                        | None => None
                        | Some (hi, t2) => if hi <? lo then None else cons (lo, hi) <$> class_items fuel false t2
                        end
                  | _ => cons (lo, lo) <$> class_items fuel false t1
                  end
              end in
            match t with
            | "["%char :: ":"%char :: (_ :: _) as t1 =>
                match before_colon_bracket t1 with
                | None => single
                | Some name =>
                    match class_ranges name with
                    | None => None
                    | Some ranges => app ranges <$> class_items fuel false (drop (length name + 2) t1)
                    end
                end
            | _ => single
            end
      end
  end.

Definition parse_class (fold : bool) (expr : gostr) : option char_class :=
  let t := drop 1 expr in
  let '(neg, t) := match t with "^"%char :: t' => (true, t') | _ => (false, t) end in
  MkClass neg fold <$> class_items (S (length t)) true t.

(** ** Tokens *)

(** A sequence is its id and its tokens. *)
Inductive extToken :=
| extLiteral (lit : gostr)
| extAnyOne
| extAnyMany
| extCharClass (class : char_class)
| extGroup (op : ascii) (alts : list (nat * list extToken)).

Abbreviation extSeq := (nat * list extToken)%type.

(** ** The parser *)

Section parser.
Variable mode : N.

Definition extended : bool := has_bits mode ExtendedOperators.

Definition flushLit (lit : gostr) (toks : list extToken) : list extToken :=
  if decide (lit = []) then toks else toks ++ [extLiteral lit].

Definition group_op (c : ascii) : bool := bool_decide (c ∈ go "!?*+@").

(** What the rest [s] of the pattern starts with. *)
Definition opens_group (s : gostr) : bool :=
  match s with
  | c :: d :: _ => extended && bool_decide (d = "("%char) && group_op c
  | _ => false
  end.

(** One token that is no group, from the start of [c :: s']: the literal bytes it adds, or the token, and
    the rest. *)
Definition plain_token (c : ascii) (s' : gostr) : result pattern_error ((gostr + extToken) * gostr) :=
  if decide (c = "\"%char) then
    match s' with
    | [] => Err BackslashAtEnd
    | _ => let size := (DecodeRuneInString s').2 in Ok (inl (take size s'), drop size s')
    end
  else if decide (c = "*"%char) then
    match s' with
    | d :: s'' =>
        if bool_decide (d = "*"%char) && (negb extended || negb (bool_decide (s'' !! 0%nat = Some "("%char)))
        then Ok (inr extAnyMany, s'') else Ok (inr extAnyMany, s')
    | [] => Ok (inr extAnyMany, s')
    end
  else if decide (c = "?"%char) then Ok (inr extAnyOne, s')
  else if decide (c = "["%char) then
    match scanCharClassToken s' with
    | Err e => Err e
    | Ok (raw, rest) =>
        match parse_class (has_bits mode NoGlobCase) (charClassRegexp raw) with
        | None => Err BadClassRegexp
        | Some class => Ok (inr (extCharClass class), rest)
        end
    end
  else
    let size := Nat.max 1 (DecodeRuneInString (c :: s')).2 in
    Ok (inl (take size (c :: s')), drop size (c :: s')).

(** [parseSeq] after its id is taken, and [parseGroup]; both return the next id as well.  Each call
    takes at least a byte of the pattern or is followed by one that does. *)
Fixpoint parseSeq (fuel : nat) (stops s lit : gostr) (toks : list extToken) (id : nat) {struct fuel}
  : result pattern_error (list extToken * gostr) * nat :=
  match fuel with
  | O => (Err PatternFuel, id)
  | S fuel =>
      match s with
      | [] => (Ok (flushLit lit toks, []), id)
      | c :: s' =>
          if decide (c ∈ stops) then (Ok (flushLit lit toks, s), id)
          else if opens_group s then
            match parseGroup fuel c (drop 1 s') [] id with
            | (Ok (tok, rest), id) => parseSeq fuel stops rest [] (flushLit lit toks ++ [tok]) id
            | (Err UnterminatedExtGlob, id) => (Ok (flushLit s (flushLit lit toks), []), id)
            | (Err e, id) => (Err e, id)
            end
          else
            match plain_token c s' with
            | Err e => (Err e, id)
            | Ok (inl bytes, rest) => parseSeq fuel stops rest (lit ++ bytes) toks id
            | Ok (inr tok, rest) => parseSeq fuel stops rest [] (flushLit lit toks ++ [tok]) id
            end
      end
  end
with parseGroup (fuel : nat) (op : ascii) (s : gostr) (alts : list extSeq) (id : nat) {struct fuel}
  : result pattern_error (extToken * gostr) * nat :=
  match fuel with
  | O => (Err PatternFuel, id)
  | S fuel =>
      match parseSeq fuel (go "|)") s [] [] (S id) with
      | (Err e, id') => (Err e, id')
      | (Ok (alt, rest), id') =>
          let alts := alts ++ [(id, alt)] in
          match rest with
          | "|"%char :: rest => parseGroup fuel op rest alts id'
          | ")"%char :: rest => (Ok (extGroup op alts, rest), id')
          | _ => (Err UnterminatedExtGlob, id')
          end
      end
  end.

Definition parse_fuel (pat : gostr) : nat := (2 * length pat + 2)%nat.

Definition parseExtPattern (pat : gostr) : result pattern_error extSeq :=
  match (parseSeq (parse_fuel pat) [] pat [] [] 2).1 with
  | Ok (toks, rest) => if decide (rest = []) then Ok (1%nat, toks) else Err TrailingData
  | Err e => Err e
  end.
End parser.

(** ** Text and patterns *)

(** [HasMeta]: whether a metacharacter is unescaped; [skip] says that a byte is. *)
Fixpoint has_meta_loop (mode : N) (skip : bool) (s : gostr) : bool :=
  match s with
  | [] => false
  | c :: s' =>
      if skip then has_meta_loop mode false s'
      else if decide (c = "\"%char) then has_meta_loop mode true s'
      else if decide (c ∈ go "*?[") then true
      else if bool_decide (c ∈ go "@!+") && has_bits mode ExtendedOperators && bool_decide (s' !! 0%nat = Some "("%char)
      then true
      else has_meta_loop mode false s'
  end.
Definition HasMeta (pat : gostr) (mode : N) : bool := has_meta_loop mode false pat.

Definition meta_rune (mode : N) (r : rune) : bool :=
  existsb (fun c => r =? byte_val c) (go "*?[]-\") ||
  (has_bits mode ExtendedOperators && existsb (fun c => r =? byte_val c) (go "@!+()|")).

Definition QuoteMeta (pat : gostr) (mode : N) : gostr :=
  let runes := (range_string pat).*2 in
  if existsb (meta_rune mode) runes
  then flat_map (fun r => (if meta_rune mode r then go "\" else []) ++ encode_rune r) runes
  else pat.
