(* ===== verification/ExtMatcher.v ===== *)
(** The forward matcher of [internal/shellpattern/extglob_matcher.go]: sets of byte offsets pushed
    through the tokens, with a memo of where the alternatives of groups can end. *)
From S2P Require Import Prelude FsTypes GoUtf8 Pattern.

(** A set of byte offsets: Go's [[]bool] of length [len(name)+1]. *)
Abbreviation offsets := (list bool).

(** The ends found so far, by the id of the sequence and the start. *)
Abbreviation memo := (gmap (nat * nat) (list nat)).

Section matcher.
(** [unicode.SimpleFold], a table of the standard library; its orbits have at most four runes. *)
Variable SimpleFold : rune → rune.
Variable mode : N.
Variable name : gostr.

Definition orbit (r : rune) : list rune :=
  let r1 := SimpleFold r in let r2 := SimpleFold r1 in [r; r1; r2; SimpleFold r2].

Definition fold_eq (r s : rune) : bool := existsb (Z.eqb s) (orbit r).

(** [strings.EqualFold]. *)
Fixpoint runes_fold_eq (s t : list rune) : bool :=
  match s, t with
  | [], [] => true
  | r :: s, r' :: t => fold_eq r r' && runes_fold_eq s t
  | _, _ => false
  end.
Definition EqualFold (s t : gostr) : bool := runes_fold_eq (range_string s).*2 (range_string t).*2.

Definition in_ranges (ranges : list (rune * rune)) (r : rune) : bool :=
  existsb (fun lh => between lh.1 r lh.2) ranges.

(** [class.MatchString] on the bytes of one rune. *)
Definition class_matches (class : char_class) (part : gostr) : bool :=
  let r := (DecodeRuneInString part).1 in
  let hit := if cc_fold class then existsb (in_ranges (cc_ranges class)) (orbit r) else in_ranges (cc_ranges class) r in
  xorb (cc_negated class) hit.

(** ** Single tokens *)

Definition matchLiteral (lit : gostr) (ni : nat) : option nat :=
  if (length name <? ni + length lit)%nat then None
  else
    let part := take (length lit) (drop ni name) in
    if has_bits mode NoGlobCase then (if EqualFold part lit then Some (ni + length lit)%nat else None)
    else if decide (part = lit) then Some (ni + length lit)%nat else None.

Definition dot_char : ascii := ".".
Definition slash_char : ascii := "/".

Definition leadingDotBlocked (ni : nat) : bool :=
  if negb (has_bits mode Filenames) || has_bits mode GlobLeadingDot || negb (bool_decide (name !! ni = Some dot_char))
  then false
  else Nat.eqb ni 0 || bool_decide (name !! Nat.pred ni = Some slash_char).

Definition matchSingle (ni : nat) : option nat :=
  if (length name <=? ni)%nat then None
  else
    let '(r, size) := DecodeRuneInString (drop ni name) in
    if Nat.eqb size 0 then None
    else if has_bits mode Filenames && (r =? 47) then None
    else if leadingDotBlocked ni && (r =? 46) then None
    else Some (ni + size)%nat.

Definition matchCharClass (class : char_class) (ni : nat) : option nat :=
  match matchSingle ni with
  | None => None
  | Some end_ => if class_matches class (take (end_ - ni) (drop ni name)) then Some end_ else None
  end.

(** The loop of [candidateEnds] from the offset [i]. *)
Fixpoint ends_from (fuel i : nat) : list nat :=
  match fuel with
  | O => []
  | S fuel =>
      if (length name <=? i)%nat then []
      else
        let '(r, size) := DecodeRuneInString (drop i name) in
        if Nat.eqb size 0 then []
        else if has_bits mode Filenames && (r =? 47) then []
        else (i + size)%nat :: ends_from fuel (i + size)
  end.

Definition candidateEnds (ni : nat) : list nat :=
  ni :: (if (length name <=? ni)%nat then []
         else if leadingDotBlocked ni && bool_decide (name !! ni = Some dot_char) then []
         else ends_from (length name) ni).

(** ** Sets of offsets *)

Definition no_offsets : offsets := replicate (S (length name)) false.
Definition offset_at (i : nat) : offsets := <[i := true]> no_offsets.
Definition mark (i : nat) (set : offsets) : offsets := <[i := true]> set.
Definition marks (ends : list nat) (set : offsets) : offsets := foldl (fun set i => mark i set) set ends.
Definition is_marked (set : offsets) (i : nat) : bool := default false (set !! i).
(** The marked offsets in increasing order. *)
Definition marked (set : offsets) : list nat := filter (fun i => is_marked set i = true) (seq 0 (length set)).

(** [uniqSortedInts]. *)
Fixpoint insert_uniq (x : nat) (l : list nat) : list nat :=
  match l with
  | [] => [x]
  | y :: l' => if (x <? y)%nat then x :: l else if (x =? y)%nat then l else y :: insert_uniq x l'
  end.
Definition uniqSortedInts (values : list nat) : list nat := foldr insert_uniq [] values.

(** ** Groups *)

(** Where one alternative of a group can end, by the start ([groupOnce]). *)
Abbreviation once_t := (nat → memo → list nat * memo).

(** The range over the set of [runGroup], each start handled by [f]. *)
Fixpoint each_start (f : nat → offsets → memo → offsets * memo) (starts : list nat) (next : offsets) (m : memo)
  : offsets * memo :=
  match starts with
  | [] => (next, m)
  | ni :: starts => let '(next, m) := f ni next m in each_start f starts next m
  end.

(** The offsets among [ends] that are new, marked and put on the work list. *)
Fixpoint push_new (ni : nat) (ends : list nat) (seen next : offsets) (work : list nat) : offsets * offsets * list nat :=
  match ends with
  | [] => (seen, next, work)
  | end_ :: ends =>
      if (end_ =? ni)%nat || is_marked seen end_ then push_new ni ends seen next work
      else push_new ni ends (mark end_ seen) (mark end_ next) (end_ :: work)
  end.

(** The work list loop of [*( )] and [+( )]: the last offset pushed is the head. *)
Fixpoint repeat_loop (fuel : nat) (once : once_t) (seen next : offsets) (work : list nat) (m : memo)
  : option (offsets * memo) :=
  match work with
  | [] => Some (next, m)
  | ni :: work =>
      match fuel with
      | O => None
      | S fuel =>
          let '(ends, m) := once ni m in
          let '(seen, next, work) := push_new ni ends seen next work in
          repeat_loop fuel once seen next work m
      end
  end.

(** Each start and each offset is pushed at most once. *)
Definition repeat_fuel : nat := (2 * S (length name))%nat.

Definition runGroup (op : ascii) (once : once_t) (set : offsets) (m : memo) : offsets * memo :=
  let starts := marked set in
  if decide (op = "@"%char ∨ op = "?"%char) then
    each_start (fun ni next m =>
        let next := if decide (op = "?"%char) then mark ni next else next in
        let '(ends, m) := once ni m in (marks ends next, m)) starts no_offsets m
  else if decide (op = "*"%char ∨ op = "+"%char) then
    let next := if decide (op = "*"%char) then marks starts no_offsets else no_offsets in
    default (next, m) (repeat_loop repeat_fuel once no_offsets next (reverse starts) m)
  else if decide (op = "!"%char) then
    each_start (fun ni next m =>
        let '(excluded, m) := once ni m in
        (marks (filter (fun end_ => end_ ∉ excluded) (candidateEnds ni)) next, m)) starts no_offsets m
  else (no_offsets, m).

(** ** Tokens and sequences *)

(** A token that takes at most one step from a start. *)
Definition run_single (f : nat → option nat) (set : offsets) : offsets :=
  foldl (fun next ni => match f ni with Some end_ => mark end_ next | None => next end) no_offsets (marked set).

Definition run_many (set : offsets) : offsets :=
  foldl (fun next ni => if is_marked next ni then next else marks (candidateEnds ni) next) no_offsets (marked set).

(** The token loop of [run], given the step of a token. *)
Definition run_tokens_with (step : extToken → offsets → memo → offsets * memo) :=
  fix run_tokens (toks : list extToken) (set : offsets) (m : memo) : offsets * memo :=
  match toks with
  | [] => (set, m)
  | tok :: toks =>
      let '(next, m) := step tok set m in
      if decide (marked next = []) then (next, m) else run_tokens toks next m
  end.

(** [seqEnds], given the run of a sequence. *)
Definition seqEnds_with (run : list extToken → offsets → memo → offsets * memo) (sq : extSeq) (start : nat) (m : memo)
  : list nat * memo :=
  match m !! (sq.1, start) with
  | Some cached => (cached, m)
  | None =>
      let '(set, m) := run sq.2 (offset_at start) m in
      let out := marked set in
      (out, <[(sq.1, start) := out]> m)
  end.

Fixpoint alts_ends_with (run : list extToken → offsets → memo → offsets * memo) (alts : list extSeq) (start : nat) (m : memo)
  : list nat * memo :=
  match alts with
  | [] => ([], m)
  | alt :: alts =>
      let '(ends, m) := seqEnds_with run alt start m in
      let '(rest, m) := alts_ends_with run alts start m in
      (ends ++ rest, m)
  end.

Definition groupOnce_with (run : list extToken → offsets → memo → offsets * memo) (alts : list extSeq) : once_t :=
  fun start m =>
    match alts with
    | [alt] => seqEnds_with run alt start m
    | _ => let '(out, m) := alts_ends_with run alts start m in (uniqSortedInts out, m)
    end.

(** One token of the loop of [run]; [fuel] bounds the nesting of the groups. *)
Fixpoint run_token (fuel : nat) (tok : extToken) (set : offsets) (m : memo) : offsets * memo :=
  match fuel with
  | O => (no_offsets, m)
  | S fuel =>
      match tok with
      | extLiteral lit => (run_single (matchLiteral lit) set, m)
      | extAnyOne => (run_single matchSingle set, m)
      | extCharClass class => (run_single (matchCharClass class) set, m)
      | extAnyMany => (run_many set, m)
      | extGroup op alts => runGroup op (groupOnce_with (run_tokens_with (run_token fuel)) alts) set m
      end
  end.

Definition run_seq (fuel : nat) : list extToken → offsets → memo → offsets * memo := run_tokens_with (run_token fuel).

(** The nesting depth of groups. *)
Fixpoint depth (tok : extToken) : nat :=
  match tok with
  | extGroup _ alts => S (list_max (map (fun alt => list_max (map depth alt.2)) alts))
  | _ => 0%nat
  end.
Definition seq_depth (toks : list extToken) : nat := list_max (map depth toks).

Definition matches (root : extSeq) : bool :=
  is_marked (run_seq (S (seq_depth root.2)) root.2 (offset_at 0) ∅).1 (length name).
End matcher.

(** [Match] where it uses the recursive matcher: text that is no valid UTF-8, or a negated group
    (the regular expressions of the other patterns are not modelled). *)
Definition match_recursive (SimpleFold : rune → rune) (pat name : gostr) (mode : N) : result pattern_error bool :=
  match parseExtPattern mode pat with
  | Ok root => Ok (matches SimpleFold mode name root)
  | Err e => Err e
  end.

(** * What a parsed pattern means, independently of how the matcher computes it ([seq_means]): each token
    is a relation between the offset it starts at and the offset it ends at, a negated group is the
    complement of its alternatives among the runs a star could take, and [+( )] is one or more of its
    alternatives.  What the matcher computes ([seq_rel]) differs in [+( )], whose steps have to take a
    byte.  The lemmas on offset sets are the ones that [ExtMatcherProps] needs. *)

Section semantics.
Variable SimpleFold : rune → rune.
Variable mode : N.
Variable name : gostr.

Abbreviation token_step := (extToken → nat → nat → Prop).

(** Tokens one after another. *)
Definition seq_rel_with (step : token_step) : list extToken → nat → nat → Prop :=
  fix seq_rel toks i j :=
    match toks with
    | [] => i = j
    | tok :: toks => ∃ k, step tok i k ∧ seq_rel toks k j
    end.

(** One of the alternatives. *)
Definition alts_rel_with (step : token_step) : list extSeq → nat → nat → Prop :=
  fix alts_rel alts i j :=
    match alts with
    | [] => False
    | alt :: alts => seq_rel_with step alt.2 i j ∨ alts_rel alts i j
    end.

(** A step that takes at least a byte: the only ones the repetitions follow. *)
Definition proper (once : nat → nat → Prop) (i j : nat) : Prop := once i j ∧ j ≠ i.

Definition group_rel (op : ascii) (once : nat → nat → Prop) (i j : nat) : Prop :=
  (op = "@"%char ∧ once i j) ∨
  (op = "?"%char ∧ (i = j ∨ once i j)) ∨
  (op = "*"%char ∧ rtc once i j) ∨
  (op = "+"%char ∧ tc (proper once) i j) ∨
  (op = "!"%char ∧ j ∈ candidateEnds mode name i ∧ ¬ once i j).

Fixpoint tok_rel (tok : extToken) (i j : nat) : Prop :=
  match tok with
  | extLiteral lit => matchLiteral SimpleFold mode name lit i = Some j
  | extAnyOne => matchSingle mode name i = Some j
  | extCharClass class => matchCharClass SimpleFold mode name class i = Some j
  | extAnyMany => j ∈ candidateEnds mode name i
  | extGroup op alts => group_rel op (alts_rel_with tok_rel alts) i j
  end.

(** What the operators mean. *)
Definition group_means (op : ascii) (once : nat → nat → Prop) (i j : nat) : Prop :=
  (op = "@"%char ∧ once i j) ∨
  (op = "?"%char ∧ (i = j ∨ once i j)) ∨
  (op = "*"%char ∧ rtc once i j) ∨
  (op = "+"%char ∧ tc once i j) ∨
  (op = "!"%char ∧ j ∈ candidateEnds mode name i ∧ ¬ once i j).
Fixpoint tok_means (tok : extToken) (i j : nat) : Prop :=
  match tok with
  | extLiteral lit => matchLiteral SimpleFold mode name lit i = Some j
  | extAnyOne => matchSingle mode name i = Some j
  | extCharClass class => matchCharClass SimpleFold mode name class i = Some j
  | extAnyMany => j ∈ candidateEnds mode name i
  | extGroup op alts => group_means op (alts_rel_with tok_means alts) i j
  end.
Definition seq_means : list extToken → nat → nat → Prop := seq_rel_with tok_means.

Definition seq_rel : list extToken → nat → nat → Prop := seq_rel_with tok_rel.
Definition alts_rel : list extSeq → nat → nat → Prop := alts_rel_with tok_rel.

(** Whether a token can stand for the empty text, as far as its operators tell. *)
Fixpoint nullable (tok : extToken) : bool :=
  match tok with
  | extLiteral lit => bool_decide (lit = [])
  | extAnyOne | extCharClass _ => false
  | extAnyMany => true
  | extGroup op alts => bool_decide (op ∈ ["?"; "*"; "!"]%char) || existsb (fun alt => forallb nullable alt.2) alts
  end.
(** No [+( )] has an alternative that can be empty. *)
Fixpoint plus_proper (tok : extToken) : bool :=
  match tok with
  | extGroup op alts =>
      negb (bool_decide (op = "+"%char) && existsb (fun alt => forallb nullable alt.2) alts) && forallb (fun alt => forallb plus_proper alt.2) alts
  | _ => true
  end.

(** The sequences inside the groups of a token: what the memo has entries for. *)
Fixpoint tok_seqs (tok : extToken) : list extSeq :=
  match tok with
  | extGroup _ alts => flat_map (fun alt => alt :: flat_map tok_seqs alt.2) alts
  | _ => []
  end.
Definition inner_seqs (toks : list extToken) : list extSeq := flat_map tok_seqs toks.

Lemma alts_rel_elem alts i j : alts_rel alts i j ↔ ∃ alt, alt ∈ alts ∧ seq_rel alt.2 i j.
Proof. induction alts as [|alt alts IH]; simpl; [set_solver|]. unfold alts_rel in IH. rewrite IH. set_solver. Qed.
End semantics.

(** ** Sets of offsets *)

Section sets.
Variable name : gostr.
Abbreviation n := (length name).

Definition set_ok (set : offsets) : Prop := length set = S n.

Lemma no_offsets_ok : set_ok (no_offsets name).
Proof. unfold set_ok, no_offsets. by rewrite length_replicate. Qed.

Lemma is_marked_no i : is_marked (no_offsets name) i = false.
Proof. unfold is_marked. destruct (no_offsets name !! i) as [b|] eqn:E; [|done]. by apply lookup_replicate in E as [-> _]. Qed.

Lemma mark_ok i set : set_ok set → set_ok (mark i set).
Proof. unfold set_ok, mark. by rewrite length_insert. Qed.

Lemma is_marked_mark i j set : set_ok set → (i ≤ n)%nat →
  is_marked (mark i set) j = true ↔ j = i ∨ is_marked set j = true.
Proof.
  unfold set_ok, is_marked, mark. intros Hs Hi. destruct (decide (j = i)) as [->|Hne].
  - rewrite list_lookup_insert_eq by lia. simpl. naive_solver.
  - rewrite list_lookup_insert_ne by done. naive_solver.
Qed.

Lemma is_marked_le set i : set_ok set → is_marked set i = true → (i ≤ n)%nat.
Proof.
  unfold is_marked, set_ok. intros Hs. destruct (set !! i) eqn:E; [|done]. apply lookup_lt_Some in E. lia.
Qed.

Lemma marks_ok ends set : set_ok set → set_ok (marks ends set).
Proof. unfold marks. revert set. induction ends as [|e ends IH]; intros set Hs; simpl; [done|]. by apply IH, mark_ok. Qed.

Lemma is_marked_marks ends set j : set_ok set → Forall (λ e, e ≤ n)%nat ends →
  is_marked (marks ends set) j = true ↔ j ∈ ends ∨ is_marked set j = true.
Proof.
  unfold marks. revert set. induction ends as [|e ends IH]; intros set Hs He; simpl; [set_solver|].
  apply Forall_cons_1 in He as [He Hends]. rewrite (IH (mark e set)) by (done || by apply mark_ok).
  rewrite is_marked_mark by done. set_solver.
Qed.

Lemma elem_of_marked set j : j ∈ marked set ↔ is_marked set j = true.
Proof.
  unfold marked. rewrite list_elem_of_filter, elem_of_seq. split; [naive_solver|]. intros Hm. split; [done|].
  unfold is_marked in Hm. destruct (set !! j) as [b|] eqn:E; [|done]. apply lookup_lt_Some in E. lia.
Qed.

Lemma marked_le set : set_ok set → Forall (λ i, i ≤ n)%nat (marked set).
Proof. intros Hs. apply list.Forall_forall. intros i Hi%elem_of_marked. by eapply is_marked_le. Qed.

Lemma length_marked set : set_ok set → (length (marked set) ≤ S n)%nat.
Proof. intros Hs. unfold marked. etrans; [apply length_filter|]. by rewrite length_seq, Hs. Qed.

(** [seqEnds] and [groupOnce] return increasing offsets: what [slices.BinarySearch] needs. *)
Lemma sorted_seq i k : StronglySorted lt (seq i k).
Proof. revert i. induction k as [|k IH]; intros i; simpl; constructor; [done|]. apply list.Forall_forall. intros j ?%elem_of_seq. lia. Qed.

Lemma sorted_filter (P : nat → Prop) `{!∀ x, Decision (P x)} l : StronglySorted lt l → StronglySorted lt (filter P l).
Proof.
  induction 1 as [|x l Hl IH Hx]; simpl; [constructor|]. rewrite filter_cons. destruct (decide (P x)); [|done].
  constructor; [done|]. apply list.Forall_forall. intros y [_ Hy]%list_elem_of_filter. by eapply list.Forall_forall in Hx.
Qed.

Lemma marked_sorted set : StronglySorted lt (marked set).
Proof. apply sorted_filter, sorted_seq. Qed.

Lemma elem_of_insert_uniq x l y : y ∈ insert_uniq x l ↔ y = x ∨ y ∈ l.
Proof.
  induction l as [|z l IH]; simpl; [set_solver|]. destruct (Nat.ltb_spec x z); [set_solver|].
  destruct (Nat.eqb_spec x z); set_solver.
Qed.

Lemma insert_uniq_sorted x l : StronglySorted lt l → StronglySorted lt (insert_uniq x l).
Proof.
  induction 1 as [|z l Hl IH Hz]; simpl; [repeat constructor|].
  destruct (Nat.ltb_spec x z).
  { constructor; [by constructor|]. constructor; [done|]. eapply list.Forall_impl; [exact Hz|]. intros; simpl in *; lia. }
  destruct (Nat.eqb_spec x z); [by constructor|]. constructor; [done|]. apply list.Forall_forall.
  intros y [->|Hy]%elem_of_insert_uniq; [lia|]. by eapply list.Forall_forall in Hz.
Qed.

Lemma elem_of_uniqSortedInts l y : y ∈ uniqSortedInts l ↔ y ∈ l.
Proof. unfold uniqSortedInts. induction l as [|x l IH]; simpl; [done|]. rewrite elem_of_insert_uniq, IH. set_solver. Qed.

Lemma uniqSortedInts_sorted l : StronglySorted lt (uniqSortedInts l).
Proof. unfold uniqSortedInts. induction l as [|x l IH]; simpl; [constructor|]. by apply insert_uniq_sorted. Qed.
End sets.
