(* ===== verification/ExtMatcherProps.v ===== *)
(** The recursive matcher computes what its pattern means: every token pushes the set of offsets
    through its relation, whatever the memo holds, and the work list of a repeated group reaches
    its closure within its fuel. *)
From S2P Require Import Prelude FsTypes GoUtf8 Pattern ExtMatcher.

Section exactness.
Variable SimpleFold : rune → rune.
Variable mode : N.
Variable name : gostr.
Abbreviation n := (length name).
Abbreviation tok_rel := (tok_rel SimpleFold mode name).
Abbreviation seq_rel := (seq_rel SimpleFold mode name).
Abbreviation alts_rel := (alts_rel SimpleFold mode name).
Abbreviation candidateEnds := (candidateEnds mode name).

(** ** Steps stay inside the name *)

(** Where a step can lead. *)
Definition inside (R : nat → nat → Prop) : Prop := ∀ i j, (i ≤ n)%nat → R i j → (i ≤ j ≤ n)%nat.

Lemma matchLiteral_inside lit : inside (λ i j, matchLiteral SimpleFold mode name lit i = Some j).
Proof. intros i j Hi. unfold matchLiteral. destruct (Nat.ltb_spec n (i + length lit)); [done|]. repeat case_match; intros [= <-]; lia. Qed.

Lemma matchSingle_inside : inside (λ i j, matchSingle mode name i = Some j).
Proof.
  intros i j Hi. unfold matchSingle. destruct (Nat.leb_spec n i); [done|].
  pose proof (decode_size_drop i name). destruct (DecodeRuneInString (drop i name)) as [r size].
  repeat case_match; simpl in *; intros [= <-]; lia.
Qed.

Lemma matchCharClass_inside class : inside (λ i j, matchCharClass SimpleFold mode name class i = Some j).
Proof.
  intros i j Hi. unfold matchCharClass. destruct (matchSingle mode name i) as [e|] eqn:E; [|done].
  apply matchSingle_inside in E; [|done]. case_match; [|done]. by intros [= <-].
Qed.

Lemma ends_from_inside fuel i j : (i ≤ n)%nat → j ∈ ends_from mode name fuel i → (i < j ≤ n)%nat.
Proof.
  revert i. induction fuel as [|fuel IH]; intros i Hi; simpl; [set_solver|].
  destruct (Nat.leb_spec n i); [set_solver|].
  pose proof (decode_size_drop i name). destruct (DecodeRuneInString (drop i name)) as [r size]. simpl in *.
  repeat case_match; try set_solver. intros [->|Hj%IH]%elem_of_cons; lia.
Qed.

Lemma candidateEnds_inside : inside (λ i j, j ∈ candidateEnds i).
Proof.
  intros i j Hi. unfold candidateEnds. intros [->|Hj]%elem_of_cons; [lia|].
  repeat case_match; try set_solver. apply ends_from_inside in Hj; lia.
Qed.

Lemma candidateEnds_le i : (i ≤ n)%nat → Forall (λ e, e ≤ n)%nat (candidateEnds i).
Proof. intros Hi. apply list.Forall_forall. intros j Hj%candidateEnds_inside; lia. Qed.

(** More fuel finds no more ends. *)
Lemma ends_from_fuel fuel fuel' i : (n - i ≤ fuel)%nat → (n - i ≤ fuel')%nat →
  ends_from mode name fuel i = ends_from mode name fuel' i.
Proof.
  revert fuel' i. induction fuel as [|fuel IH]; intros fuel' i Hf Hf'.
  - destruct fuel'; simpl; [done|]. destruct (Nat.leb_spec n i); [done|lia].
  - destruct fuel'; simpl; (destruct (Nat.leb_spec n i); [done|]); [lia|].
    pose proof (decode_size_drop i name). destruct (DecodeRuneInString (drop i name)) as [r size]. simpl in *.
    repeat case_match; try done. f_equal. apply IH; lia.
Qed.

(** The run from an end of a run is a part of it. *)
Lemma ends_from_suffix fuel i k j : (n - i ≤ fuel)%nat → k ∈ ends_from mode name fuel i →
  j ∈ ends_from mode name n k → j ∈ ends_from mode name fuel i.
Proof.
  revert i. induction fuel as [|fuel IH]; intros i Hf; simpl; [set_solver|].
  destruct (Nat.leb_spec n i); [set_solver|].
  pose proof (decode_size_drop i name). destruct (DecodeRuneInString (drop i name)) as [r size]. simpl in *.
  repeat case_match; try set_solver. intros [->|Hk]%elem_of_cons Hj; apply elem_of_cons; right.
  - by rewrite (ends_from_fuel fuel n) by lia.
  - apply IH; [lia|done..].
Qed.

Lemma candidateEnds_trans i k j : (i ≤ n)%nat → k ∈ candidateEnds i → j ∈ candidateEnds k → j ∈ candidateEnds i.
Proof.
  intros Hi Hk Hj. destruct (decide (k = i)) as [->|Hne]; [done|]. unfold candidateEnds in *.
  apply elem_of_cons in Hk as [->|Hk]; [done|]. apply elem_of_cons in Hj as [->|Hj]; [by right|]. right.
  destruct (n <=? i)%nat; [set_solver|]. destruct (n <=? k)%nat; [set_solver|].
  destruct (leadingDotBlocked mode name i && _)%bool; [set_solver|].
  destruct (leadingDotBlocked mode name k && _)%bool; [set_solver|]. apply ends_from_suffix with k; [lia|done..].
Qed.

(** Relations of tokens, sequences and groups stay inside the name. *)
Lemma inside_seq_with step toks : (∀ tok, tok ∈ toks → inside (step tok)) → inside (seq_rel_with step toks).
Proof.
  induction toks as [|tok toks IH]; intros Ht i j Hi; simpl; [intros ->; lia|]. intros (k&Hk&Hj).
  apply (Ht tok) in Hk; [|set_solver|done]. apply IH in Hj; [lia|set_solver|lia].
Qed.

Lemma inside_alts_with step alts : (∀ alt tok, alt ∈ alts → tok ∈ alt.2 → inside (step tok)) →
  inside (alts_rel_with step alts).
Proof.
  induction alts as [|alt alts IH]; intros Ha i j Hi; simpl; [done|]. intros [Hj|Hj].
  - apply inside_seq_with in Hj; [done| |done]. intros tok. apply Ha. set_solver.
  - apply IH in Hj; [done| |done]. set_solver.
Qed.

Lemma inside_rtc R : inside R → inside (rtc R).
Proof. intros HR i j Hi Hj. induction Hj as [|i k j Hk _ IH]; [lia|]. apply HR in Hk; [|done]. destruct IH; lia. Qed.

Lemma inside_group op R : inside R → inside (group_rel mode name op R).
Proof.
  intros HR i j Hi [[_ Hj]|[[_ [->|Hj]]|[[_ Hj]|[[_ Hj]|[_ [Hj _]]]]]].
  - by apply HR.
  - lia.
  - by apply HR.
  - by apply (inside_rtc R).
  - apply (inside_rtc R); [done..|]. apply tc_rtc in Hj. by apply (rtc_subrel (proper R)); [intros ?? []|].
  - by apply candidateEnds_inside.
Qed.

(** ** Groups and their sequences *)

Lemma depth_group fuel op alts alt tok : (depth (extGroup op alts) < S fuel)%nat → alt ∈ alts → tok ∈ alt.2 →
  (depth tok < fuel)%nat.
Proof.
  simpl. intros Hd Halt Htok.
  assert (list_max (map depth alt.2) ≤ list_max (map (λ alt, list_max (map depth alt.2)) alts))%nat as H1.
  { pose proof (proj1 (list_max_le (map (λ alt : extSeq, list_max (map depth alt.2)) alts) _) (Nat.le_refl _)) as Hm.
    rewrite list.Forall_forall in Hm. apply Hm. by apply (list_elem_of_fmap_2 (λ alt : extSeq, list_max (map depth alt.2))). }
  pose proof (proj1 (list_max_le (map depth alt.2) _) (Nat.le_refl _)) as Hm.
  rewrite list.Forall_forall in Hm.
  assert (depth tok ≤ list_max (map depth alt.2))%nat by (by apply Hm, list_elem_of_fmap_2). lia.
Qed.

Lemma tok_inside fuel tok : (depth tok < fuel)%nat → inside (tok_rel tok).
Proof.
  revert tok. induction fuel as [|fuel IH]; intros tok Hd; [lia|]. destruct tok as [lit| | |class|op alts].
  - apply matchLiteral_inside.
  - apply matchSingle_inside.
  - apply candidateEnds_inside.
  - apply matchCharClass_inside.
  - apply inside_group, inside_alts_with. intros alt tok Halt Htok. apply IH. by eapply depth_group.
Qed.

Lemma inside_tok tok : inside (tok_rel tok).
Proof. apply (tok_inside (S (depth tok))). lia. Qed.
Lemma inside_seq toks : inside (seq_rel toks).
Proof. apply inside_seq_with. intros. apply inside_tok. Qed.
Lemma inside_alts alts : inside (alts_rel alts).
Proof. apply inside_alts_with. intros. apply inside_tok. Qed.

(** ** The memo *)

(** What the sequence of an id is. *)
Variable seq_of : nat → list extToken.

Definition named (sqs : list extSeq) : Prop := ∀ sq, sq ∈ sqs → seq_of sq.1 = sq.2.

(** Every entry holds the ends of its sequence from its start, in increasing order. *)
Definition memo_ok (m : memo) : Prop :=
  ∀ id start ends, m !! (id, start) = Some ends →
    StronglySorted lt ends ∧ ∀ j, j ∈ ends ↔ seq_rel (seq_of id) start j.

(** A step that takes the set of starts to the set of ends of a relation. *)
Definition pushes (f : offsets → memo → offsets * memo) (R : nat → nat → Prop) : Prop :=
  ∀ set m, set_ok name set → memo_ok m →
    set_ok name (f set m).1 ∧ memo_ok (f set m).2 ∧
    ∀ j, is_marked (f set m).1 j = true ↔ ∃ i, is_marked set i = true ∧ R i j.

(** A lookup of the ends from one start. *)
Definition looks_up (once : nat → memo → list nat * memo) (R : nat → nat → Prop) : Prop :=
  ∀ start m, (start ≤ n)%nat → memo_ok m →
    memo_ok (once start m).2 ∧ StronglySorted lt (once start m).1 ∧ ∀ j, j ∈ (once start m).1 ↔ R start j.

Lemma memo_ok_empty : memo_ok ∅.
Proof. intros id start ends. by rewrite lookup_empty. Qed.

Lemma named_app l k : named (l ++ k) → named l ∧ named k.
Proof. unfold named. set_solver. Qed.

Lemma named_group op alts alt : named (tok_seqs (extGroup op alts)) → alt ∈ alts →
  seq_of alt.1 = alt.2 ∧ named (inner_seqs alt.2).
Proof.
  simpl. intros Hn Halt.
  assert (∀ sq, sq ∈ alt :: inner_seqs alt.2 → seq_of sq.1 = sq.2) as Hall.
  { intros sq Hsq. apply Hn, list_elem_of_In, in_flat_map. exists alt. by rewrite <-!list_elem_of_In. }
  split; [apply Hall; by left|]. intros sq Hsq. apply Hall. by right.
Qed.

(** ** Single tokens and stars *)

Lemma run_single_pushes (f : nat → option nat) : inside (λ i j, f i = Some j) →
  pushes (λ set m, (run_single name f set, m)) (λ i j, f i = Some j).
Proof.
  intros Hf set m Hs Hm. unfold run_single. simpl.
  assert (∀ starts next, set_ok name next → Forall (λ i, i ≤ n)%nat starts →
    let next' := foldl (λ next ni, match f ni with Some end_ => mark end_ next | None => next end) next starts in
    set_ok name next' ∧ ∀ j, is_marked next' j = true ↔ is_marked next j = true ∨ ∃ i, i ∈ starts ∧ f i = Some j) as Hloop.
  { clear -Hf. intros starts. induction starts as [|i starts IH]; intros next Hn Hi; simpl; [split; [done|set_solver]|].
    apply Forall_cons_1 in Hi as [Hi His]. destruct (f i) as [e|] eqn:E.
    - apply Hf in E as He; [|done]. destruct (IH (mark e next)) as [Hok Hmem]; [by apply mark_ok|done|].
      split; [done|]. intros j. rewrite Hmem. rewrite (is_marked_mark name) by (done || lia). set_solver.
    - destruct (IH next) as [Hok Hmem]; [done..|]. split; [done|]. intros j. rewrite Hmem. set_solver. }
  destruct (Hloop (marked set) (no_offsets name)) as [Hok Hmem]; [apply no_offsets_ok|by apply marked_le|].
  split; [done|]. split; [done|]. intros j. rewrite Hmem, is_marked_no.
  split; [intros [?|(i&Hi%elem_of_marked&Hj)]; [done|eauto]|intros (i&Hi&Hj); right; exists i; by rewrite elem_of_marked].
Qed.

Lemma run_many_pushes : pushes (λ set m, (run_many mode name set, m)) (λ i j, j ∈ candidateEnds i).
Proof.
  intros set m Hs Hm. unfold run_many. cbn [fst snd].
  set (step := λ (next : offsets) ni, if is_marked next ni then next else marks (candidateEnds ni) next).
  assert (∀ starts next done, set_ok name next → Forall (λ i, i ≤ n)%nat (done ++ starts) →
    (∀ j, is_marked next j = true ↔ ∃ i, i ∈ done ∧ j ∈ candidateEnds i) →
    set_ok name (foldl step next starts) ∧
    ∀ j, is_marked (foldl step next starts) j = true ↔ ∃ i, i ∈ done ++ starts ∧ j ∈ candidateEnds i) as Hloop.
  { clear. intros starts. induction starts as [|i starts IH]; intros next done Hn Hall Hnext; simpl.
    - split; [done|]. intros j. rewrite Hnext. by rewrite app_nil_r.
    - assert (i ≤ n)%nat as Hi by (rewrite list.Forall_forall in Hall; apply Hall; set_solver).
      rewrite cons_middle, app_assoc in Hall |- *. apply IH; [|done|].
      { unfold step. case_match; [done|]. by apply marks_ok. }
      intros j. unfold step. destruct (is_marked next i) eqn:E.
      + apply Hnext in E as (i0&Hi0&Hin). rewrite Hnext. split; [set_solver|].
        intros (i'&[Hi'| ->%list_elem_of_singleton]%elem_of_app&Hj); [eauto|].
        exists i0. split; [done|]. apply candidateEnds_trans with i; [|done..].
        rewrite list.Forall_forall in Hall. apply Hall. set_solver.
      + rewrite (is_marked_marks name), Hnext by (done || by apply candidateEnds_le). set_solver. }
  destruct (Hloop (marked set) (no_offsets name) []) as [Hok Hmem].
  - apply no_offsets_ok.
  - by apply marked_le.
  - intros j. rewrite is_marked_no. set_solver.
  - split; [done|]. split; [done|]. intros j. rewrite Hmem. simpl.
    split; intros (i&Hi&Hj); exists i; by rewrite elem_of_marked in *.
Qed.

(** ** Groups *)

(** The loop over the starts, when each start adds the ends of a relation. *)
Lemma each_start_pushes f R : inside R →
  (∀ i next m, (i ≤ n)%nat → set_ok name next → memo_ok m →
    set_ok name (f i next m).1 ∧ memo_ok (f i next m).2 ∧
    ∀ j, is_marked (f i next m).1 j = true ↔ is_marked next j = true ∨ R i j) →
  pushes (λ set m, each_start f (marked set) (no_offsets name) m) R.
Proof.
  intros HR Hf set m Hs Hm.
  assert (∀ starts next m, set_ok name next → memo_ok m → Forall (λ i, i ≤ n)%nat starts →
    set_ok name (each_start f starts next m).1 ∧ memo_ok (each_start f starts next m).2 ∧
    ∀ j, is_marked (each_start f starts next m).1 j = true ↔ is_marked next j = true ∨ ∃ i, i ∈ starts ∧ R i j) as Hloop.
  { clear -Hf. intros starts. induction starts as [|i starts IH]; intros next m Hn Hm Hi; simpl; [split_and!; [done..|set_solver]|].
    apply Forall_cons_1 in Hi as [Hi His]. destruct (Hf i next m Hi Hn Hm) as (Hok&Hmok&Hmem).
    destruct (f i next m) as [next' m']. simpl in *. destruct (IH next' m' Hok Hmok His) as (Hok'&Hmok'&Hmem').
    split_and!; [done..|]. intros j. rewrite Hmem', Hmem. set_solver. }
  destruct (Hloop (marked set) (no_offsets name) m) as (Hok&Hmok&Hmem); [apply no_offsets_ok|done|by apply marked_le|].
  split_and!; [done..|]. intros j. rewrite Hmem, is_marked_no.
  split; [intros [?|(i&Hi%elem_of_marked&Hj)]; [done|eauto]|intros (i&Hi&Hj); right; exists i; by rewrite elem_of_marked].
Qed.

(** How many offsets have not been seen. *)
Definition unseen (seen : offsets) : nat := length (filter (λ b, b = false) seen).

Lemma unseen_mark seen i : set_ok name seen → (i ≤ n)%nat → is_marked seen i = false →
  unseen seen = S (unseen (mark i seen)).
Proof.
  unfold set_ok, unseen, is_marked, mark. intros Hs Hi E.
  destruct (lookup_lt_is_Some_2 seen i) as [b Hb]; [lia|]. rewrite Hb in E. simpl in E. subst b.
  rewrite <-(take_drop_middle seen i false Hb) at 1. rewrite insert_take_drop by lia.
  rewrite !list.filter_app, !filter_cons. rewrite decide_True by done. rewrite decide_False by done.
  rewrite !length_app. simpl. lia.
Qed.

Lemma unseen_le seen : set_ok name seen → (unseen seen ≤ S n)%nat.
Proof. intros <-. apply length_filter. Qed.

Lemma push_new_spec ni ends seen next work : set_ok name seen → set_ok name next → Forall (λ e, e ≤ n)%nat ends →
  let '(seen', next', work') := push_new ni ends seen next work in
  set_ok name seen' ∧ set_ok name next' ∧
  (∀ j, is_marked seen' j = true ↔ is_marked seen j = true ∨ (j ∈ ends ∧ j ≠ ni)) ∧
  (∀ j, is_marked next' j = true ↔ is_marked next j = true ∨ (is_marked seen' j = true ∧ is_marked seen j ≠ true)) ∧
  (∀ j, j ∈ work → j ∈ work') ∧
  (∀ j, j ∈ work' → j ∈ work ∨ is_marked seen' j = true) ∧
  (∀ j, is_marked seen' j = true → is_marked seen j = true ∨ j ∈ work') ∧
  (length work' + unseen seen' = length work + unseen seen)%nat.
Proof.
  revert seen next work. induction ends as [|e ends IH]; intros seen next work Hs Hn He; simpl.
  { split_and!; naive_solver set_solver. }
  apply Forall_cons_1 in He as [He Hends].
  destruct ((e =? ni)%nat || is_marked seen e) eqn:E.
  - specialize (IH seen next work Hs Hn Hends). destruct (push_new ni ends seen next work) as [[seen' next'] work'].
    destruct IH as (?&?&Hseen&?&?&?&?&?). split_and!; try done. intros j. rewrite Hseen.
    apply orb_true_iff in E as [E%Nat.eqb_eq|E]; set_solver.
  - apply orb_false_iff in E as [E%Nat.eqb_neq Eu].
    specialize (IH (mark e seen) (mark e next) (e :: work)).
    destruct (push_new ni ends (mark e seen) (mark e next) (e :: work)) as [[seen' next'] work'].
    destruct IH as (?&?&Hseen&Hnext&Hw&Hw'&Hsw&Hlen); [by apply mark_ok..|done|].
    assert (∀ j, is_marked (mark e seen) j = true ↔ j = e ∨ is_marked seen j = true) as Hme
      by (intros; by apply (is_marked_mark name)).
    assert (∀ j, is_marked (mark e next) j = true ↔ j = e ∨ is_marked next j = true) as Hmn
      by (intros; by apply (is_marked_mark name)).
    split_and!; try done.
    + intros j. rewrite Hseen, Hme. set_solver.
    + intros j. rewrite Hnext, Hme, Hmn. destruct (decide (j = e)) as [->|Hje]; [|clear -Hje; tauto].
      assert (is_marked seen' e = true) by (apply Hseen; left; apply Hme; by left). rewrite Eu. split; [intros _|auto]. right. split; [done|]. by intros ?.
    + set_solver.
    + intros j Hj. apply Hw' in Hj as [[->|Hj]%elem_of_cons|Hj]; [|by left|by right]. right. apply Hseen. left. apply Hme. by left.
    + intros j Hj. apply Hsw in Hj as [[->|Hj]%Hme|Hj]; [|by left|by right]. right. apply Hw. by left.
    + rewrite Hlen. simpl. rewrite (unseen_mark seen e) by done. lia.
Qed.

Lemma closed_tc (once : nat → nat → Prop) (starts : list nat) (seen : nat → Prop) :
  (∀ i j, i ∈ starts ∨ seen i → proper once i j → seen j) →
  ∀ i j, tc (proper once) i j → i ∈ starts ∨ seen i → seen j.
Proof. intros Hc i j Hij. induction Hij as [i j Hij|i k j Hik _ IH]; intros Hi; [by eapply Hc|]. apply IH. right. by eapply Hc. Qed.

(** The work list ends within its fuel with everything that proper steps reach. *)
Lemma repeat_loop_spec once R starts next0 fuel seen next work m :
  inside R → looks_up once R → Forall (λ i, i ≤ n)%nat starts →
  set_ok name seen → set_ok name next → memo_ok m →
  (∀ j, is_marked next j = true ↔ is_marked next0 j = true ∨ is_marked seen j = true) →
  (∀ j, j ∈ work → j ∈ starts ∨ is_marked seen j = true) →
  (∀ j, is_marked seen j = true → ∃ i, i ∈ starts ∧ tc (proper R) i j) →
  (∀ i j, i ∈ starts ∨ is_marked seen i = true → i ∉ work → proper R i j → is_marked seen j = true) →
  (length work + unseen seen ≤ fuel)%nat →
  ∃ next' m', repeat_loop fuel once seen next work m = Some (next', m') ∧
    set_ok name next' ∧ memo_ok m' ∧
    ∀ j, is_marked next' j = true ↔ is_marked next0 j = true ∨ ∃ i, i ∈ starts ∧ tc (proper R) i j.
Proof.
  intros HR Honce Hst. revert seen next work m.
  induction fuel as [|fuel IH]; intros seen next work m Hs Hn Hm Hnext Hwork Hsound Hclosed Hfuel;
    destruct work as [|ni work]; simpl in *; try lia.
  1,2: exists next, m; split_and!; [done..|]; intros j; rewrite Hnext; apply or_iff_compat_l; split; [apply Hsound|];
    intros (i&Hi&Hj); apply (closed_tc R starts (λ j, is_marked seen j = true)) with i; [|done|by left];
    intros i' j' Hi' Hj'; apply (Hclosed i'); [done|set_solver|done].
  assert (ni ≤ n)%nat as Hni.
  { destruct (Hwork ni) as [Hin|Hin]; [by left|by apply (proj1 (list.Forall_forall _ _) Hst)|by apply (is_marked_le name seen)]. }
  destruct (Honce ni m Hni Hm) as (Hm'&_&Hends). destruct (once ni m) as [ends m']. simpl in *.
  assert (Forall (λ e, e ≤ n)%nat ends) as Hle
    by (apply list.Forall_forall; intros e He%Hends; apply HR in He; [lia|done]).
  pose proof (push_new_spec ni ends seen next work Hs Hn Hle) as Hpush.
  destruct (push_new ni ends seen next work) as [[seen' next'] work'].
  destruct Hpush as (Hs'&Hn'&Hseen&Hnx&Hw&Hw'&Hsw&Hlen).
  assert (∀ j, is_marked seen j = true → is_marked seen' j = true) as Hmono by (intros; apply Hseen; by left).
  apply IH; [done..| | | | |lia].
  - intros j. rewrite Hnx, Hnext. specialize (Hmono j). clear -Hmono. destruct (is_marked seen j); intuition congruence.
  - intros j [Hj|Hj]%Hw'; [|by right]. destruct (Hwork j) as [?|?]; [by right|by left|right; auto].
  - intros j [Hj|[Hj Hne]]%Hseen; [by apply Hsound|]. assert (proper R ni j) as Hp by (split; [by apply Hends|done]).
    destruct (Hwork ni) as [Hin|(i&Hi&Hij)%Hsound]; [by left| |].
    + exists ni. split; [done|]. by apply tc_once.
    + exists i. split; [done|]. eapply tc_transitive; [done|]. by apply tc_once.
  - intros i j Hi Hiw Hp. destruct (decide (i = ni)) as [->|Hne].
    + apply Hseen. right. destruct Hp as [Hp Hji]. split; [by apply Hends|done].
    + apply Hmono, (Hclosed i); [|by intros [?|?%Hw]%elem_of_cons|done].
      destruct Hi as [?|[?|?]%Hsw]; [by left|by right|done].
Qed.

Lemma rtc_proper (R : nat → nat → Prop) i j : rtc R i j ↔ i = j ∨ tc (proper R) i j.
Proof.
  split.
  - induction 1 as [i|i k j Hik _ IH]; [by left|]. destruct (decide (k = i)) as [->|Hne]; [done|]. right.
    destruct IH as [<-|IH]; [by apply tc_once|]. by eapply tc_l.
  - intros [->|Hj]; [done|]. apply tc_rtc in Hj. by apply (rtc_subrel (proper R)); [intros ?? []|].
Qed.

Lemma pushes_ext f f' R R' : (∀ set m, f set m = f' set m) → (∀ i j, (i ≤ n)%nat → R i j ↔ R' i j) →
  pushes f R → pushes f' R'.
Proof.
  intros Hf HR Hp set m Hs Hm. rewrite <-Hf. destruct (Hp set m Hs Hm) as (?&?&Hmem). split_and!; [done..|].
  intros j. rewrite Hmem. split; intros (i&Hi&Hj); exists i; (split; [done|]); apply HR; try done;
    by apply (is_marked_le name set).
Qed.

Section groups.
Variables (once : nat → memo → list nat * memo) (R : nat → nat → Prop).
Hypothesis (HR : inside R) (Honce : looks_up once R).

(** A start whose ends, among a choice, are added. *)
Lemma once_adds i next m : (i ≤ n)%nat → set_ok name next → memo_ok m →
  let '(ends, m) := once i m in
  memo_ok m ∧ (∀ j, j ∈ ends ↔ R i j) ∧ set_ok name (marks ends next) ∧
  ∀ j, is_marked (marks ends next) j = true ↔ R i j ∨ is_marked next j = true.
Proof.
  intros Hi Hn Hm. destruct (Honce i m Hi Hm) as (Hm'&_&Hends). destruct (once i m) as [ends m']. simpl in *.
  split_and!; [done..|by apply marks_ok|]. intros j. rewrite (is_marked_marks name), Hends; [done..|].
  apply list.Forall_forall. intros e He%Hends. apply HR in He; [lia|done].
Qed.

Lemma once_pushes : pushes (runGroup mode name "@" once) (group_rel mode name "@" R).
Proof.
  apply (pushes_ext (λ set m, each_start (λ ni next m, let '(ends, m) := once ni m in (marks ends next, m))
           (marked set) (no_offsets name) m) _ R); [done|unfold group_rel; naive_solver|].
  apply each_start_pushes; [done|]. intros i next m Hi Hn Hm. pose proof (once_adds i next m Hi Hn Hm) as Ho.
  destruct (once i m) as [ends m']. destruct Ho as (?&?&?&Hmem). split_and!; [done..|]. intros j. simpl. rewrite Hmem. tauto.
Qed.

Lemma optional_pushes : pushes (runGroup mode name "?" once) (group_rel mode name "?" R).
Proof.
  apply (pushes_ext (λ set m, each_start (λ ni next m, let '(ends, m) := once ni m in (marks ends (mark ni next), m))
           (marked set) (no_offsets name) m) _ (λ i j, i = j ∨ R i j)); [done|unfold group_rel; naive_solver|].
  apply each_start_pushes; [intros i j Hi [->|Hj]; [lia|by apply HR]|]. intros i next m Hi Hn Hm.
  pose proof (once_adds i (mark i next) m Hi) as Ho. destruct (once i m) as [ends m'].
  destruct Ho as (?&?&?&Hmem); [by apply mark_ok|done|]. split_and!; [done..|]. intros j. simpl.
  rewrite Hmem, (is_marked_mark name) by done. intuition congruence.
Qed.

Lemma negated_pushes : pushes (runGroup mode name "!" once) (group_rel mode name "!" R).
Proof.
  apply (pushes_ext (λ set m, each_start (λ ni next m, let '(excluded, m) := once ni m in
           (marks (filter (λ e, e ∉ excluded) (candidateEnds ni)) next, m)) (marked set) (no_offsets name) m) _
           (λ i j, j ∈ candidateEnds i ∧ ¬ R i j)); [done|unfold group_rel; naive_solver|].
  apply each_start_pushes; [intros i j Hi [Hj _]; by apply candidateEnds_inside|]. intros i next m Hi Hn Hm.
  pose proof (once_adds i next m Hi Hn Hm) as Ho. destruct (once i m) as [ends m'].
  destruct Ho as (?&Hends&_&_). simpl. split_and!; [by apply marks_ok|done|]. intros j.
  rewrite (is_marked_marks name), list_elem_of_filter, Hends; [tauto|done|].
  apply list.Forall_forall. intros e [_ He]%list_elem_of_filter. apply candidateEnds_inside in He; [lia|done].
Qed.

(** Both repetitions, by the offsets they start out with. *)
Lemma repeat_pushes (zero : bool) :
  pushes (λ set m, let next := if zero then marks (marked set) (no_offsets name) else no_offsets name in
            default (next, m) (repeat_loop (repeat_fuel name) once (no_offsets name) next (reverse (marked set)) m))
         (λ i j, (zero = true ∧ i = j) ∨ tc (proper R) i j).
Proof.
  intros set m Hs Hm.
  set (next := if zero then marks (marked set) (no_offsets name) else no_offsets name). cbv zeta.
  assert (set_ok name next) as Hn by (unfold next; case_match; [apply marks_ok|]; apply no_offsets_ok).
  assert (∀ j, is_marked next j = true ↔ zero = true ∧ is_marked set j = true) as Hnext.
  { intros j. unfold next. destruct zero; [|rewrite is_marked_no; naive_solver].
    rewrite (is_marked_marks name), is_marked_no, elem_of_marked; [naive_solver|apply no_offsets_ok|by apply marked_le]. }
  destruct (repeat_loop_spec once R (marked set) next (repeat_fuel name) (no_offsets name) next (reverse (marked set)) m)
    as (next'&m'&->&Hok&Hmok&Hmem); [done|done|by apply marked_le|apply no_offsets_ok|done..| | | | | |].
  - intros j. rewrite is_marked_no. naive_solver.
  - intros j. rewrite elem_of_reverse. by left.
  - intros j. by rewrite is_marked_no.
  - intros i j [Hi|Hi]; [by rewrite elem_of_reverse|by rewrite is_marked_no in Hi].
  - rewrite length_reverse. unfold repeat_fuel.
    pose proof (length_marked name set Hs). pose proof (unseen_le (no_offsets name) (no_offsets_ok name)). lia.
  - simpl. split_and!; [done..|]. intros j. rewrite Hmem, Hnext. setoid_rewrite elem_of_marked.
    split; [intros [[-> Hj]|(i&Hi&Hj)]; eauto|intros (i&Hi&[[-> ->]|Hj]); eauto].
Qed.

Lemma runGroup_pushes op : pushes (runGroup mode name op once) (group_rel mode name op R).
Proof.
  destruct (decide (op = "@"%char)) as [->|H1]; [apply once_pushes|].
  destruct (decide (op = "?"%char)) as [->|H2]; [apply optional_pushes|].
  destruct (decide (op = "!"%char)) as [->|H3]; [apply negated_pushes|].
  destruct (decide (op = "*"%char)) as [->|H4].
  { eapply pushes_ext; [..|apply (repeat_pushes true)]; [done|]. intros i j _. unfold group_rel. rewrite rtc_proper. naive_solver. }
  destruct (decide (op = "+"%char)) as [->|H5].
  { eapply pushes_ext; [..|apply (repeat_pushes false)]; [done|]. intros i j _. unfold group_rel. naive_solver. }
  intros set m Hs Hm. unfold runGroup. rewrite !decide_False by naive_solver. simpl. split_and!; [apply no_offsets_ok|done|].
  intros j. rewrite is_marked_no. unfold group_rel. naive_solver.
Qed.
End groups.

(** ** Sequences *)

Lemma run_tokens_pushes step toks : (∀ tok, tok ∈ toks → pushes (step tok) (tok_rel tok)) →
  pushes (run_tokens_with step toks) (seq_rel toks).
Proof.
  induction toks as [|tok toks IH]; intros Hstep set m Hs Hm; simpl.
  { split_and!; [done..|]. intros j. split; [eauto|by intros (?&?&<-)]. }
  destruct (Hstep tok ltac:(by left) set m Hs Hm) as (Hok&Hmok&Hmem).
  destruct (step tok set m) as [next m']. simpl in *.
  assert (∀ j, (∃ i, is_marked set i = true ∧ ∃ k, tok_rel tok i k ∧ seq_rel toks k j) ↔
    ∃ k, is_marked next k = true ∧ seq_rel toks k j) as Hcomp by (intros; setoid_rewrite Hmem; naive_solver).
  case_decide as Hnil.
  - split_and!; [done..|]. intros j. simpl.
    assert (∀ k, is_marked next k ≠ true) as Hno by (intros k Hk%elem_of_marked; rewrite Hnil in Hk; set_solver).
    split; [by intros ?%Hno|]. intros (k&Hk%Hno&_)%Hcomp. done.
  - destruct (IH ltac:(set_solver) next m' Hok Hmok) as (?&?&Hmem'). split_and!; [done..|].
    intros j. rewrite Hmem'. symmetry. apply Hcomp.
Qed.

Lemma seqEnds_looks_up run sq : pushes (run sq.2) (seq_rel sq.2) → seq_of sq.1 = sq.2 →
  looks_up (seqEnds_with name run sq) (seq_rel sq.2).
Proof.
  intros Hrun Hid start m Hst Hm. unfold seqEnds_with. destruct (m !! (sq.1, start)) as [cached|] eqn:E.
  { apply Hm in E as [? Hmem]. rewrite Hid in Hmem. done. }
  destruct (Hrun (offset_at name start) m) as (Hok&Hmok&Hmem); [apply mark_ok, no_offsets_ok|done|].
  destruct (run sq.2 (offset_at name start) m) as [set m']. simpl in *.
  assert (∀ j, j ∈ marked set ↔ seq_rel sq.2 start j) as Hends.
  { intros j. rewrite elem_of_marked, Hmem. unfold offset_at. change (<[start:=true]> ?l) with (mark start l).
    setoid_rewrite (is_marked_mark name); [|apply no_offsets_ok|done]. setoid_rewrite is_marked_no. naive_solver. }
  split_and!; [|apply marked_sorted|done]. intros id st ends. rewrite lookup_insert_Some.
  intros [[[= <- <-] <-]|[_ ?%Hmok]]; [|done]. rewrite Hid. split; [apply marked_sorted|done].
Qed.

Lemma alts_ends_spec run alts start m : (start ≤ n)%nat → memo_ok m →
  (∀ alt, alt ∈ alts → looks_up (seqEnds_with name run alt) (seq_rel alt.2)) →
  memo_ok (alts_ends_with name run alts start m).2 ∧
  ∀ j, j ∈ (alts_ends_with name run alts start m).1 ↔ alts_rel alts start j.
Proof.
  intros Hst. revert m. induction alts as [|alt alts IH]; intros m Hm Halts; simpl; [split; [done|set_solver]|].
  destruct (Halts alt ltac:(by left) start m Hst Hm) as (Hm1&_&Hends).
  destruct (seqEnds_with name run alt start m) as [ends m1]. simpl in *.
  destruct (IH m1 Hm1 ltac:(set_solver)) as [Hm2 Hrest].
  destruct (alts_ends_with name run alts start m1) as [rest m2]. simpl in *.
  split; [done|]. intros j. rewrite elem_of_app, Hends, Hrest. done.
Qed.

Lemma groupOnce_looks_up run alts :
  (∀ alt, alt ∈ alts → looks_up (seqEnds_with name run alt) (seq_rel alt.2)) →
  looks_up (groupOnce_with name run alts) (alts_rel alts).
Proof.
  intros Halts start m Hst Hm. unfold groupOnce_with.
  pose proof (alts_ends_spec run alts start m Hst Hm Halts) as [Hm' Hends].
  assert (memo_ok (let '(out, m) := alts_ends_with name run alts start m in (uniqSortedInts out, m)).2 ∧
    StronglySorted lt (let '(out, m) := alts_ends_with name run alts start m in (uniqSortedInts out, m)).1 ∧
    ∀ j, j ∈ (let '(out, m) := alts_ends_with name run alts start m in (uniqSortedInts out, m)).1 ↔ alts_rel alts start j) as Hmany.
  { destruct (alts_ends_with name run alts start m) as [out m']. simpl in *.
    split_and!; [done|apply uniqSortedInts_sorted|]. intros j. by rewrite elem_of_uniqSortedInts. }
  destruct alts as [|alt [|alt2 alts]]; [done| |done].
  destruct (Halts alt ltac:(by left) start m Hst Hm) as (?&?&Hmem). split_and!; [done..|].
  intros j. rewrite Hmem. simpl. naive_solver.
Qed.

Lemma run_token_pushes fuel tok : (depth tok < fuel)%nat → named (tok_seqs tok) →
  pushes (run_token SimpleFold mode name fuel tok) (tok_rel tok).
Proof.
  revert tok. induction fuel as [|fuel IH]; intros tok Hd Hnamed; [lia|].
  destruct tok as [lit| | |class|op alts].
  - apply run_single_pushes, matchLiteral_inside.
  - apply run_single_pushes, matchSingle_inside.
  - apply run_many_pushes.
  - apply run_single_pushes, matchCharClass_inside.
  - apply (runGroup_pushes _ (alts_rel alts)); [apply inside_alts|].
    apply groupOnce_looks_up. intros alt Halt. destruct (named_group op alts alt) as [Hid Hin]; [done..|].
    apply seqEnds_looks_up; [|done]. apply run_tokens_pushes. intros tok Htok. apply IH; [by eapply depth_group|].
    intros sq Hsq. apply Hin, list_elem_of_In, in_flat_map. exists tok. by rewrite <-!list_elem_of_In.
Qed.

Lemma run_seq_pushes toks : named (inner_seqs toks) →
  pushes (run_seq SimpleFold mode name (S (seq_depth toks)) toks) (seq_rel toks).
Proof.
  intros Hnamed. apply run_tokens_pushes. intros tok Htok. apply run_token_pushes.
  - pose proof (proj1 (list_max_le (map depth toks) _) (Nat.le_refl _)) as Hm. rewrite list.Forall_forall in Hm.
    assert (depth tok ≤ list_max (map depth toks))%nat by (by apply Hm, list_elem_of_fmap_2). unfold seq_depth. lia.
  - intros sq Hsq. apply Hnamed, list_elem_of_In, in_flat_map. exists tok. by rewrite <-!list_elem_of_In.
Qed.
End exactness.

(** Ids that are distinct name their sequences. *)
Lemma named_by_ids (sqs : list extSeq) : NoDup sqs.*1 →
  named (λ id, default [] (list_to_map (M:=gmap nat (list extToken)) sqs !! id)) sqs.
Proof. intros Hnd [id toks] Hin. simpl. by rewrite (elem_of_list_to_map_1 _ _ toks). Qed.

Lemma matches_spec SimpleFold mode name (root : extSeq) : NoDup (inner_seqs root.2).*1 →
  matches SimpleFold mode name root = true ↔ seq_rel SimpleFold mode name root.2 0 (length name).
Proof.
  intros Hnd%named_by_ids. unfold matches.
  edestruct (run_seq_pushes SimpleFold mode name _ root.2 Hnd (offset_at name 0) ∅) as (_&_&Hmem);
    [apply mark_ok, no_offsets_ok|apply memo_ok_empty|].
  rewrite Hmem. unfold offset_at. change (<[0%nat:=true]> ?l) with (mark 0%nat l).
  setoid_rewrite (is_marked_mark name); [|apply no_offsets_ok|lia]. setoid_rewrite is_marked_no. naive_solver.
Qed.
