(* ===== verification/PatternProps.v ===== *)
(** The parser of extended patterns: it always comes to an end, its ids are distinct, what it parses
    is matched exactly; and quoted text is matched literally. *)
From S2P Require Import Prelude FsTypes GoUtf8 Pattern ExtMatcher ExtMatcherProps.

(** ** Rests of the pattern *)

Section parser.
Variable mode : N.

Lemma scan_class_rest skip s raw rest : scan_class skip s = Ok (raw, rest) → (length rest ≤ length s)%nat.
Proof.
  revert skip raw rest. induction s as [|c s IH]; intros skip raw rest; simpl; [done|].
  assert (∀ k, match scan_class k s with Ok (raw, rest) => Ok (c :: raw, rest) | Err e => Err e end = Ok (raw, rest) →
    (length rest ≤ S (length s))%nat) as Hgo.
  { intros k. destruct (scan_class k s) as [[raw' rest']|] eqn:E; [|done]. intros [= _ <-]. apply IH in E. lia. }
  destruct skip as [|k]; [|apply Hgo]. destruct (decide (c = "\"%char)); [apply Hgo|].
  destruct (decide (c = "["%char)); [destruct (charClass s) as [[[cls k]|]|err]; [apply Hgo..|done]|].
  destruct (decide (c = "]"%char)); [intros [= _ <-]; lia|apply Hgo].
Qed.

Lemma scanCharClassToken_rest s raw rest : scanCharClassToken s = Ok (raw, rest) → (length rest ≤ length s)%nat.
Proof.
  unfold scanCharClassToken. destruct (match s with [] => _ | _ => _ end) as [neg s1] eqn:E1.
  destruct (match s1 with [] => _ | _ => _ end) as [close s2] eqn:E2.
  assert (length s1 ≤ length s)%nat by (clear E2; destruct s; [|case_match]; simplify_eq/=; lia).
  assert (length s2 ≤ length s1)%nat by (clear E1; destruct s1; [|case_match]; simplify_eq/=; lia).
  destruct (scan_class 0 s2) as [[raw' rest']|] eqn:E; [|done]. apply scan_class_rest in E. intros [= _ <-]. lia.
Qed.

Lemma plain_token_rest c s r rest : plain_token mode c s = Ok (r, rest) → (length rest ≤ length s)%nat.
Proof.
  unfold plain_token. intros H.
  destruct (decide (c = "\"%char)).
  { destruct s; [done|]. simplify_eq. rewrite length_drop. lia. }
  destruct (decide (c = "*"%char)); [destruct s as [|d s]; [|case_match]; simplify_eq/=; lia|].
  destruct (decide (c = "?"%char)); [simplify_eq; lia|].
  destruct (decide (c = "["%char)).
  { destruct (scanCharClassToken s) as [[raw rest']|] eqn:E; [|done]. apply scanCharClassToken_rest in E.
    case_match; by simplify_eq. }
  simplify_eq. rewrite length_drop. cbn [length]. lia.
Qed.

Lemma opens_group_cons c s : opens_group mode (c :: s) = true → (length (drop 1 s) < length s)%nat.
Proof. destruct s; [done|]. simpl. rewrite drop_0. lia. Qed.

Lemma parse_rest fuel :
  (∀ stops s lit toks id toks' rest id',
     parseSeq mode fuel stops s lit toks id = (Ok (toks', rest), id') → (length rest ≤ length s)%nat) ∧
  (∀ op s alts id tok rest id',
     parseGroup mode fuel op s alts id = (Ok (tok, rest), id') → (length rest ≤ length s)%nat).
Proof.
  induction fuel as [|fuel [IHs IHg]]; (split; [intros stops s lit toks id toks' rest id'|intros op s alts id tok rest id']); [done..| |].
  - destruct s as [|c s]; cbn [parseSeq]; [intros [= _ <- _]; done|].
    destruct (decide (c ∈ stops)); [by intros [= _ <- _]|].
    destruct (opens_group mode (c :: s)) eqn:Eo.
    + apply opens_group_cons in Eo. destruct (parseGroup mode fuel c (drop 1 s) [] id) as [[[tok r]|e] id1] eqn:Eg.
      * apply IHg in Eg. intros Hs%IHs. simpl. lia.
      * destruct e; try done. intros [= _ <- _]. simpl. lia.
    + destruct (plain_token mode c s) as [[[bytes|tok] r]|e] eqn:Ep; [..|done];
        apply plain_token_rest in Ep; intros Hs%IHs; simpl; lia.
  - cbn [parseGroup]. destruct (parseSeq mode fuel (go "|)") s [] [] (S id)) as [[[alt r]|e] id1] eqn:Es; [|done].
    apply IHs in Es. destruct r as [|d r]; [done|]. simpl in Es. intros H.
    assert (parseGroup mode fuel op r (alts ++ [(id, alt)]) id1 = (Ok (tok, rest), id') ∨ r = rest) as [Hg%IHg|<-]; [|lia|lia].
    repeat case_match; simplify_eq; auto.
Qed.

(** ** Termination *)

Lemma plain_token_fuel c s : plain_token mode c s ≠ Err PatternFuel.
Proof.
  assert (∀ l, scanCharClassToken l ≠ Err PatternFuel) as Hscan.
  { assert (∀ l, charClass l ≠ Err PatternFuel) as Hcc.
    { intros l. unfold charClass. repeat case_match; done. }
    assert (∀ l k, scan_class k l ≠ Err PatternFuel) as Hsc.
    { induction l as [|d l IH]; intros k; simpl; [done|]. specialize (Hcc l).
      assert (∀ k, match scan_class k l with Ok (raw, rest) => Ok (d :: raw, rest) | Err e => Err e end ≠ Err PatternFuel) as Hgo
        by (intros k'; specialize (IH k'); by destruct (scan_class k' l) as [[]|]).
      destruct k as [|k]; [|apply Hgo]. destruct (decide (d = "\"%char)); [apply Hgo|].
      destruct (decide (d = "["%char)); [destruct (charClass l) as [[[cls k]|]|err]; [apply Hgo..|by intros [= ->]]|].
      destruct (decide (d = "]"%char)); [done|apply Hgo]. }
    intros l. unfold scanCharClassToken. destruct (match l with [] => _ | _ => _ end) as [neg s1].
    destruct (match s1 with [] => _ | _ => _ end) as [close s2]. specialize (Hsc s2 0%nat).
    by destruct (scan_class 0 s2) as [[]|]. }
  unfold plain_token. specialize (Hscan s). repeat case_match; try done. naive_solver.
Qed.

Lemma parse_fuel_enough fuel :
  (∀ stops s lit toks id, (2 * length s + 2 ≤ fuel)%nat → (parseSeq mode fuel stops s lit toks id).1 ≠ Err PatternFuel) ∧
  (∀ op s alts id, (2 * length s + 3 ≤ fuel)%nat → (parseGroup mode fuel op s alts id).1 ≠ Err PatternFuel).
Proof.
  induction fuel as [|fuel [IHs IHg]]; (split; [intros stops s lit toks id Hf|intros op s alts id Hf]); [lia..| |].
  - destruct s as [|c s]; cbn [parseSeq]; [done|]. simpl in Hf.
    destruct (decide (c ∈ stops)); [done|].
    destruct (opens_group mode (c :: s)) eqn:Eo.
    + apply opens_group_cons in Eo. specialize (IHg c (drop 1 s) [] id ltac:(lia)).
      destruct (parseGroup mode fuel c (drop 1 s) [] id) as [[[tok r]|e] id1] eqn:Eg; [|by destruct e].
      apply parse_rest in Eg. apply IHs. lia.
    + pose proof (plain_token_fuel c s) as Hp.
      destruct (plain_token mode c s) as [[[bytes|tok] r]|e] eqn:Ep; [..|simpl in *; congruence];
        apply plain_token_rest in Ep; apply IHs; lia.
  - cbn [parseGroup]. specialize (IHs (go "|)") s [] [] (S id) ltac:(lia)).
    destruct (parseSeq mode fuel (go "|)") s [] [] (S id)) as [[[alt r]|e] id1] eqn:Es; [|simpl in *; congruence].
    apply parse_rest in Es. destruct r as [|d r]; [done|]. simpl in Es.
    assert ((parseGroup mode fuel op r (alts ++ [(id, alt)]) id1).1 ≠ Err PatternFuel) as Hg by (apply IHg; lia).
    repeat case_match; done.
Qed.

(** ** Ids *)

(** The sequences added between two values of the id counter have distinct ids in between. *)
Definition fresh (id id' : nat) (l l' : list extSeq) : Prop :=
  ∃ new, l' = l ++ new ∧ NoDup new.*1 ∧ ∀ k, k ∈ new.*1 → (id ≤ k < id')%nat.

Lemma fresh_refl id l : fresh id id l l.
Proof. exists []. rewrite app_nil_r. split_and!; [done|constructor|set_solver]. Qed.

Lemma fresh_trans id id1 id2 l l1 l2 : (id ≤ id1)%nat → (id1 ≤ id2)%nat → fresh id id1 l l1 → fresh id1 id2 l1 l2 → fresh id id2 l l2.
Proof.
  intros H1 H2 (n1&->&Hnd1&Hr1) (n2&->&Hnd2&Hr2). exists (n1 ++ n2). rewrite (assoc_L (++)). split_and!; [done| |].
  - rewrite fmap_app. apply list.NoDup_app. split_and!; [done| |done]. intros k ?%Hr1 ?%Hr2. lia.
  - intros k. rewrite fmap_app. intros [?%Hr1|?%Hr2]%elem_of_app; lia.
Qed.

(** A sequence that starts at [id], before the ones inside it. *)
Lemma fresh_cons id id' l toks : (S id ≤ id')%nat → fresh (S id) id' [] (inner_seqs toks) →
  fresh id id' l (l ++ (id, toks) :: inner_seqs toks).
Proof.
  intros Hle (new&Hnew&Hnd&Hr). simpl in Hnew. exists ((id, toks) :: inner_seqs toks). split_and!; [done| |]; rewrite Hnew; simpl.
  - constructor; [|done]. intros ?%Hr. lia.
  - intros k [->|?%Hr]%elem_of_cons; lia.
Qed.

Lemma inner_seqs_app toks toks' : inner_seqs (toks ++ toks') = inner_seqs toks ++ inner_seqs toks'.
Proof. apply flat_map_app. Qed.

Lemma inner_seqs_flush lit toks : inner_seqs (flushLit lit toks) = inner_seqs toks.
Proof. unfold flushLit. case_decide; [done|]. rewrite inner_seqs_app. simpl. by rewrite app_nil_r. Qed.

Lemma inner_seqs_snoc lit toks tok : inner_seqs (flushLit lit toks ++ [tok]) = inner_seqs toks ++ tok_seqs tok.
Proof. rewrite inner_seqs_app, inner_seqs_flush. simpl. by rewrite app_nil_r. Qed.

Lemma plain_token_seqs c s tok rest : plain_token mode c s = Ok (inr tok, rest) → tok_seqs tok = [].
Proof. unfold plain_token. intros H. repeat case_match; by simplify_eq/=. Qed.

Lemma tok_seqs_snoc op alts id toks :
  tok_seqs (extGroup op (alts ++ [(id, toks)])) = tok_seqs (extGroup op alts) ++ (id, toks) :: inner_seqs toks.
Proof. simpl. rewrite flat_map_app. simpl. by rewrite app_nil_r. Qed.

Lemma parse_fresh fuel :
  (∀ stops s lit toks id r id', parseSeq mode fuel stops s lit toks id = (r, id') → (id ≤ id')%nat ∧
     ∀ toks' rest, r = Ok (toks', rest) → fresh id id' (inner_seqs toks) (inner_seqs toks')) ∧
  (∀ op s alts id r id', parseGroup mode fuel op s alts id = (r, id') → (id ≤ id')%nat ∧
     ∀ tok rest, r = Ok (tok, rest) → fresh id id' (tok_seqs (extGroup op alts)) (tok_seqs tok)).
Proof.
  induction fuel as [|fuel [IHs IHg]];
    (split; [intros stops s lit toks id r id'|intros op s alts id r id']); [by intros [= <- <-]..| |].
  - destruct s as [|c s]; cbn [parseSeq].
    { intros [= <- <-]. split; [done|]. intros ?? [= <- _]. rewrite inner_seqs_flush. apply fresh_refl. }
    destruct (decide (c ∈ stops)).
    { intros [= <- <-]. split; [done|]. intros ?? [= <- _]. rewrite inner_seqs_flush. apply fresh_refl. }
    destruct (opens_group mode (c :: s)).
    + destruct (parseGroup mode fuel c (drop 1 s) [] id) as [g id1] eqn:Eg. apply IHg in Eg as [Hle Hg].
      destruct g as [[tok rest1]|e].
      * intros [Hle' Hs]%IHs. split; [lia|]. intros toks' rest Hr. apply Hs in Hr. rewrite inner_seqs_snoc in Hr.
        apply fresh_trans with id1 (inner_seqs toks ++ tok_seqs tok); [done..| |done].
        destruct (Hg _ _ eq_refl) as (new&->&?&?). by exists new.
      * destruct e; intros [= <- <-]; (split; [done|]); try done.
        intros ?? [= <- _]. rewrite !inner_seqs_flush. exists []. rewrite app_nil_r. split_and!; [done|constructor|set_solver].
    + destruct (plain_token mode c s) as [[[bytes|tok] rest1]|e] eqn:Ep.
      * apply IHs.
      * apply plain_token_seqs in Ep. intros [Hle Hs]%IHs. split; [done|]. intros toks' rest Hr. apply Hs in Hr.
        by rewrite inner_seqs_snoc, Ep, app_nil_r in Hr.
      * by intros [= <- <-].
  - cbn [parseGroup]. destruct (parseSeq mode fuel (go "|)") s [] [] (S id)) as [q id1] eqn:Es.
    apply IHs in Es as [Hle Hs]. destruct q as [[alt rest1]|e]; [|intros [= <- <-]; split; [lia|done]].
    specialize (Hs _ _ eq_refl). assert (fresh id id1 (tok_seqs (extGroup op alts)) (tok_seqs (extGroup op (alts ++ [(id, alt)])))) as Hf
      by (rewrite tok_seqs_snoc; by apply fresh_cons).
    destruct rest1 as [|d rest1]; [intros [= <- <-]; split; [lia|done]|].
    intros H. assert (parseGroup mode fuel op rest1 (alts ++ [(id, alt)]) id1 = (r, id') ∨
      id' = id1 ∧ (r = Ok (extGroup op (alts ++ [(id, alt)]), rest1) ∨ ∃ e, r = Err e)) as [[Hle' Hg]%IHg|[-> Hr]]
      by (clear -H; repeat case_match; simplify_eq; eauto).
    + split; [lia|]. intros tok rest Hr. apply Hg in Hr. by apply (fresh_trans id id1 id' _ _ _ ltac:(lia) Hle' Hf).
    + split; [lia|]. intros tok rest ->. destruct Hr as [[= -> ->]|[e ?]]; done.
Qed.

Lemma parseExtPattern_ids pat root : parseExtPattern mode pat = Ok root → NoDup (inner_seqs root.2).*1.
Proof.
  unfold parseExtPattern. destruct (parseSeq mode (parse_fuel pat) [] pat [] [] 2) as [r id'] eqn:E.
  apply parse_fresh in E as [_ Hf]. simpl. destruct r as [[toks rest]|e]; [|done]. case_decide; [|done].
  intros [= <-]. destruct (Hf _ _ eq_refl) as (new&Hnew&Hnd&_). simpl in *. by rewrite Hnew.
Qed.
End parser.

(** The parser of extended patterns comes to an end on every pattern: groups nested to any depth,
    alternatives, bracket expressions and groups that are never closed. *)
Theorem parseExtPattern_terminates mode pat : parseExtPattern mode pat ≠ Err PatternFuel.
Proof.
  unfold parseExtPattern. pose proof (proj1 (parse_fuel_enough mode (parse_fuel pat)) [] pat [] [] 2%nat) as Hf.
  destruct (parseSeq mode (parse_fuel pat) [] pat [] [] 2) as [[[toks rest]|e] id']; simpl in *.
  - by case_decide.
  - intros [= ->]. apply Hf; [unfold parse_fuel; lia|done].
Qed.

(** ** The meaning of repetitions *)

Section meaning.
Variable SimpleFold : rune → rune.
Variable mode : N.
Variable name : gostr.
Abbreviation means := (tok_means SimpleFold mode name).
Abbreviation computes := (tok_rel SimpleFold mode name).

(** A relation that never goes back, and one that always goes on. *)
Definition forward (R : nat → nat → Prop) : Prop := ∀ i j, R i j → (i ≤ j)%nat.
Definition advances (R : nat → nat → Prop) : Prop := ∀ i j, R i j → (i < j)%nat.

Lemma matchLiteral_length lit i j : matchLiteral SimpleFold mode name lit i = Some j → j = (i + length lit)%nat.
Proof. unfold matchLiteral. repeat case_match; by intros [= <-]. Qed.
Lemma matchSingle_advances : advances (λ i j, matchSingle mode name i = Some j).
Proof.
  intros i j. unfold matchSingle. repeat case_match; try done. intros [= <-]. repeat match goal with H : Nat.eqb _ _ = false |- _ => apply Nat.eqb_neq in H end. lia.
Qed.
Lemma matchCharClass_advances class : advances (λ i j, matchCharClass SimpleFold mode name class i = Some j).
Proof. intros i j. unfold matchCharClass. destruct (matchSingle mode name i) as [e|] eqn:E; [|done]. case_match; [|done]. intros [= <-]. by apply matchSingle_advances. Qed.
Lemma candidateEnds_forward : forward (λ i j, j ∈ candidateEnds mode name i).
Proof.
  intros i j. unfold candidateEnds. intros [->|Hj]%elem_of_cons; [done|]. destruct (Nat.leb_spec (length name) i); [by apply elem_of_nil in Hj|].
  case_match; [by apply elem_of_nil in Hj|]. apply ends_from_inside in Hj; lia.
Qed.
Lemma forward_rtc R : forward R → forward (rtc R).
Proof. intros HR i j. induction 1 as [|i k j Hik%HR _ IH]; lia. Qed.
Lemma advances_tc R : advances R → advances (tc R).
Proof. intros HR i j. induction 1 as [i j Hij%HR|i k j Hik%HR _ IH]; lia. Qed.
Lemma tc_equiv (R R' : nat → nat → Prop) i j : (∀ i j, R i j ↔ R' i j) → tc R i j ↔ tc R' i j.
Proof.
  intros HR. split; (induction 1 as [x y Hxy|x y z Hxy _ IH]; [apply tc_once|apply tc_l with y; [|done]]); by apply HR.
Qed.
(** Steps that go on are the proper ones. *)
Lemma proper_advances (R R' : nat → nat → Prop) i j : (∀ i j, R i j ↔ R' i j) → advances R → tc R i j ↔ tc (proper R') i j.
Proof.
  intros Heq HR. apply tc_equiv. intros x y. unfold proper. rewrite <- Heq. split; [|tauto]. intros H. split; [done|]. apply HR in H. lia.
Qed.

(** What is shown of every token, and carried over to sequences, alternatives and groups. *)
Definition agree (R R' : nat → nat → Prop) (empty : bool) : Prop := (∀ i j, R i j ↔ R' i j) ∧ forward R ∧ (empty = false → advances R).
Lemma agree_seq toks : (∀ tok, tok ∈ toks → agree (means tok) (computes tok) (nullable tok)) →
  agree (seq_means SimpleFold mode name toks) (seq_rel SimpleFold mode name toks) (forallb nullable toks).
Proof.
  induction toks as [|tok toks IH]; intros Ht; [split_and!; [done|by intros i j ->|done]|].
  destruct (Ht tok ltac:(left)) as (He&Hf&Ha). destruct IH as (IHe&IHf&IHa); [intros; apply Ht; by right|]. split_and!.
  - intros i j. cbn. setoid_rewrite He. split; intros (k&Hk&Hj); exists k; (split; [done|]); by apply IHe.
  - intros i j (k&Hk%Hf&Hj%IHf). lia.
  - cbn [forallb]. intros [Hn|Hn]%andb_false_iff i j (k&Hk&Hj); [apply Ha in Hk; [|done]; apply IHf in Hj|apply Hf in Hk; apply IHa in Hj; [|done]]; lia.
Qed.
Lemma agree_alts (alts : list extSeq) : (∀ alt tok, alt ∈ alts → tok ∈ alt.2 → agree (means tok) (computes tok) (nullable tok)) →
  agree (alts_rel_with means alts) (alts_rel SimpleFold mode name alts) (existsb (fun alt => forallb nullable alt.2) alts).
Proof.
  induction alts as [|alt alts IH]; intros Ht; [split_and!; [done|by intros i j []|by intros _ i j []]|].
  destruct (agree_seq alt.2) as (He&Hf&Ha); [intros; by eapply Ht; [left|]|]. destruct IH as (IHe&IHf&IHa); [intros; by eapply Ht; [right|]|]. split_and!.
  - intros i j. cbn. specialize (He i j). specialize (IHe i j). tauto.
  - intros i j [H|H]; [by apply Hf|by apply IHf].
  - cbn [existsb]. intros [Hn1 Hn2]%orb_false_elim i j [H|H]; [by apply Ha|by apply IHa].
Qed.
Lemma agree_group op R R' empty : agree R R' empty → (op = "+"%char → empty = false) →
  agree (group_means mode name op R) (group_rel mode name op R') (bool_decide (op ∈ ["?"; "*"; "!"]%char) || empty).
Proof.
  intros (He&Hf&Ha) Hp. split_and!.
  - intros i j. unfold group_means, group_rel. rewrite (He i j).
    assert (rtc R i j ↔ rtc R' i j) as ->.
    { split; (induction 1 as [x|x y z Hxy _ IH]; [done|apply rtc_l with y; [by apply He|done]]). }
    assert (op = "+"%char → (tc R i j ↔ tc (proper R') i j)) as Hplus by (intros Hop; by apply proper_advances; [|apply Ha, Hp]). tauto.
  - intros i j [[_ H]|[[_ [->|H]]|[[_ H]|[[_ H]|[_ [H _]]]]]]; [by apply Hf|done|by apply Hf|by apply (forward_rtc R)| |by apply candidateEnds_forward].
    apply tc_rtc in H. by apply (forward_rtc R).
  - intros [Hop Hn]%orb_false_elim i j. to_prop. assert (op ≠ "?"%char ∧ op ≠ "*"%char ∧ op ≠ "!"%char) as (H1&H2&H3) by (split_and!; intros ->; apply Hop; set_solver).
    intros [[_ H]|[[? _]|[[? _]|[[_ H]|[? _]]]]]; try done; [by apply Ha|by apply (advances_tc R); [apply Ha|]].
Qed.
Lemma agree_tok fuel tok : (depth tok < fuel)%nat → plus_proper tok = true → agree (means tok) (computes tok) (nullable tok).
Proof.
  revert tok. induction fuel as [|fuel IH]; intros tok Hd Hp; [lia|]. destruct tok as [lit| | |class|op alts].
  - split_and!; [done|intros i j ->%matchLiteral_length; lia|]. cbn [nullable]. intros Hl i j ->%matchLiteral_length. to_prop. destruct lit; [done|simpl; lia].
  - split_and!; [done|intros i j H%matchSingle_advances; lia|intros _; apply matchSingle_advances].
  - split_and!; [done|apply candidateEnds_forward|done].
  - split_and!; [done|intros i j H%matchCharClass_advances; lia|intros _; apply matchCharClass_advances].
  - cbn [plus_proper] in Hp. apply andb_prop in Hp as [Hplus Halts].
    apply (agree_group op _ (alts_rel SimpleFold mode name alts) (existsb (fun alt => forallb nullable alt.2) alts)).
    + apply agree_alts. intros alt tok Halt Htok. apply IH; [by eapply depth_group|].
      rewrite forallb_forall in Halts. apply list_elem_of_In, Halts in Halt. rewrite forallb_forall in Halt. by apply Halt, list_elem_of_In.
    + intros ->. rewrite bool_decide_eq_true_2 in Hplus by done. by apply negb_true_iff in Hplus.
Qed.
(** Without empty alternatives in [+( )] the matcher's reading of a pattern is its meaning. *)
Lemma seq_means_computes toks i j : forallb plus_proper toks = true → seq_means SimpleFold mode name toks i j ↔ seq_rel SimpleFold mode name toks i j.
Proof.
  intros Hp. apply agree_seq. intros tok Ht. apply (agree_tok (S (depth tok))); [lia|]. rewrite forallb_forall in Hp. by apply Hp, list_elem_of_In.
Qed.
End meaning.

(** C25: the recursive matcher implements what patterns mean: whatever pattern the parser accepts, the
    matcher's sets of offsets, its memo of the alternatives, its work lists for repeated groups and
    its shortcut for stars together decide whether the tokens lead from the start of the name to its
    end, where a token is a relation between offsets, [*( )] is any number of its alternatives one after
    another and [+( )] at least one, and a group [!( )] is the complement of its alternatives among the runs
    of a star.  Patterns where an alternative of a [+( )] can be empty, as in [+(|a)], are excluded: the matcher
    does not count an empty alternative as an occurrence, which is one of the findings. *)
Theorem matcher_refines_semantics SimpleFold mode pat name root : parseExtPattern mode pat = Ok root → forallb plus_proper root.2 = true →
  matches SimpleFold mode name root = true ↔ seq_means SimpleFold mode name root.2 0 (length name).
Proof. intros Hp Hplus. rewrite seq_means_computes by done. apply matches_spec. by eapply parseExtPattern_ids. Qed.

Lemma matcher_refines_semantics_witness :
  let mode := (ExtendedOperators + EntireString)%N in
  let root := (1%nat, [extGroup "+" [(2%nat, [extLiteral (go "ab")]); (3%nat, [extLiteral (go "c"); extAnyOne])];
                       extGroup "!" [(4%nat, [extLiteral (go "d")])]]) in
  parseExtPattern mode (go "+(ab|c?)!(d)") = Ok root ∧ forallb plus_proper root.2 = true ∧
  seq_means (λ r, r) mode (go "abcxabdd") root.2 0 8 ∧
  ¬ seq_means (λ r, r) mode (go "abd") root.2 0 3.
Proof.
  intros mode root. assert (parseExtPattern mode (go "+(ab|c?)!(d)") = Ok root) as Hp by (vm_compute; reflexivity).
  assert (forallb plus_proper root.2 = true) as Hplus by (vm_compute; reflexivity).
  split_and!; [done|done| |].
  - apply (matcher_refines_semantics (λ r, r) mode (go "+(ab|c?)!(d)") (go "abcxabdd")); [done|done|]. vm_compute. reflexivity.
  - intros H. apply (matcher_refines_semantics (λ r, r) mode (go "+(ab|c?)!(d)") (go "abd")) in H; [|done|done].
    revert H. vm_compute. discriminate.
Defined.
