(* ===== verification/PatternQuote.v ===== *)
(** Patterns without metacharacters, and quoting: a pattern that [HasMeta] finds nothing in is matched
    as the text it escapes, and [QuoteMeta] writes such a pattern for any valid text. *)
From S2P Require Import Prelude FsTypes GoUtf8 GoUtf8Props Pattern ExtMatcher ExtMatcherProps PatternProps.

(** ** Valid text *)

(** [utf8.ValidString]; [skip] bytes of the current rune are left. *)
Fixpoint valid_from (skip : nat) (s : gostr) : bool :=
  match s with
  | [] => true
  | c :: s' =>
      match skip with
      | S k => valid_from k s'
      | O => let '(r, w) := DecodeRuneInString s in
             negb ((r =? RuneError) && Nat.eqb w 1) && valid_from (Nat.pred w) s'
      end
  end.
Definition ValidString (s : gostr) : bool := valid_from 0 s.

Lemma valid_from_cons c s : valid_from 0 (c :: s) = true →
  ¬ invalid (c :: s) ∧ valid_from (Nat.pred (DecodeRuneInString (c :: s)).2) s = true.
Proof.
  cbn [valid_from]. unfold invalid. destruct (DecodeRuneInString (c :: s)) as [r w]. intros [Hn Hv]%andb_prop. split; [|done].
  intros [= -> ->]. done.
Qed.

(** What each rune of a valid text is replaced with, when a rune is replaced with a function of its
    bytes. *)
Lemma range_valid (f : rune → gostr) (g : gostr → gostr) i s :
  (∀ c s, ¬ invalid (c :: s) → f (DecodeRuneInString (c :: s)).1 = g (take (DecodeRuneInString (c :: s)).2 (c :: s))) →
  ∀ skip, valid_from skip s = true →
  ∃ blocks, take skip s ++ concat blocks = s ∧ flat_map f (range_from i skip s).*2 = concat (map g blocks) ∧
    Forall (λ b, ∃ c s, ¬ invalid (c :: s) ∧ b = take (DecodeRuneInString (c :: s)).2 (c :: s)) blocks.
Proof.
  intros Hfg. revert i. induction s as [|c s IH]; intros i skip Hv; [by exists []; destruct skip|].
  destruct skip as [|k].
  - apply valid_from_cons in Hv as [Hval Hv]. destruct (IH (S i) _ Hv) as (blocks&Hcat&Hmap&Hall).
    exists (take (DecodeRuneInString (c :: s)).2 (c :: s) :: blocks). cbn [range_from].
    specialize (Hfg c s Hval). pose proof (decode_size c s) as Hsz.
    assert (take (DecodeRuneInString (c :: s)).2 (c :: s) = c :: take (Nat.pred (DecodeRuneInString (c :: s)).2) s) as Htake
      by (by destruct (DecodeRuneInString (c :: s)).2; [lia|]).
    split_and!; [| |constructor; [by exists c, s|done]].
    + rewrite Htake. simpl. f_equal. exact Hcat.
    + destruct (DecodeRuneInString (c :: s)) as [r w]. cbn [fst snd] in *. rewrite fmap_cons. cbn [snd flat_map map concat]. rewrite Hfg.
      f_equal. exact Hmap.
  - simpl in *. destruct (IH (S i) k Hv) as (blocks&Hcat&Hmap&Hall). exists blocks. split_and!; [by rewrite Hcat|done..].
Qed.

(** ** Plain bytes *)

Section quoting.
Variable mode : N.

(** A byte that no quoting concerns. *)
Definition plain (c : ascii) : Prop := meta_rune mode (byte_val c) = false.

Lemma byte_val_inj c d : byte_val c = byte_val d → c = d.
Proof. intros H. rewrite <-(byte_of_val c), H. apply byte_of_val. Qed.

(** [meta_rune] on a byte is membership in the lists of the source. *)
Definition meta_bytes : gostr := go "*?[]-\" ++ (if has_bits mode ExtendedOperators then go "@!+()|" else []).

Lemma meta_rune_byte c : meta_rune mode (byte_val c) = true ↔ c ∈ meta_bytes.
Proof.
  assert (∀ l, existsb (λ d, byte_val c =? byte_val d) l = true ↔ c ∈ l) as Hin.
  { intros l. rewrite existsb_exists. setoid_rewrite Z.eqb_eq. split.
    - intros (d&Hd&->%byte_val_inj). by apply list_elem_of_In.
    - intros Hc%list_elem_of_In. eauto. }
  unfold meta_rune, meta_bytes. rewrite orb_true_iff, andb_true_iff, !Hin, elem_of_app.
  destruct (has_bits mode ExtendedOperators); [naive_solver|]. set_solver.
Qed.

Lemma meta_rune_ascii r : meta_rune mode r = true → ∃ c, r = byte_val c ∧ is_ascii c.
Proof.
  assert (∀ l, Forall is_ascii l → existsb (λ d, r =? byte_val d) l = true → ∃ c, r = byte_val c ∧ is_ascii c) as Hl.
  { intros l Hall (d&Hd%list_elem_of_In&->%Z.eqb_eq)%existsb_exists. exists d. split; [done|].
    by apply (proj1 (list.Forall_forall _ _) Hall). }
  unfold meta_rune. intros [H|[_ H]%andb_prop]%orb_prop; (eapply Hl; [|done]); unfold is_ascii; repeat constructor.
Qed.

Lemma plain_high c : 128 ≤ byte_val c → plain c.
Proof.
  intros Hc. unfold plain. destruct (meta_rune mode (byte_val c)) eqn:E; [|done].
  apply meta_rune_ascii in E as (d&Hd&Ha). unfold is_ascii, RuneSelf in Ha. lia.
Qed.

Lemma plain_not_meta c d : plain c → d ∈ meta_bytes → c ≠ d.
Proof. unfold plain. intros Hc Hd ->. apply meta_rune_byte in Hd. congruence. Qed.

(** The text that a pattern without metacharacters escapes; [None] when a backslash ends it. *)
Fixpoint unescape (s : gostr) : option gostr :=
  match s with
  | [] => Some []
  | c :: s' =>
      if decide (c = "\"%char)
      then match s' with [] => None | d :: s'' => cons d <$> unescape s'' end
      else cons c <$> unescape s'
  end.

(** Plain bytes in front. *)
Lemma plain_front p s : Forall plain p → has_meta_loop mode false (p ++ s) = has_meta_loop mode false s ∧
  unescape (p ++ s) = app p <$> unescape s.
Proof.
  induction 1 as [|c p Hc _ [IHm IHu]]; simpl; [split; [done|by destruct (unescape s)]|].
  assert (∀ d, d ∈ go "*?[]-\" → c ≠ d) as Hne by (intros d Hd; apply plain_not_meta; [done|set_solver]).
  rewrite !(decide_False (P:=c = "\"%char)) by (apply Hne; set_solver).
  rewrite (decide_False (P:=c ∈ go "*?[")) by (intros Hin; apply (Hne c); set_solver).
  split; [|rewrite IHu; by destruct (unescape s)].
  match goal with |- (if ?b then _ else _) = _ => destruct b eqn:E end; [|done].
  apply andb_prop in E as [[Hin%bool_decide_eq_true_1 Hext]%andb_prop _]. exfalso.
  apply (plain_not_meta c c); [done| |done]. unfold meta_bytes. rewrite Hext. set_solver.
Qed.

Lemma decode_block c s : Forall plain (drop 1 (take (DecodeRuneInString (c :: s)).2 (c :: s))).
Proof.
  apply list.Forall_forall. intros d (i&Hi)%list_elem_of_lookup. rewrite lookup_drop, lookup_take_Some in Hi.
  destruct Hi as [Hd Hi]. apply plain_high. eapply decode_tail; [|exact Hd]. lia.
Qed.

(** After a rune taken whole, as after its first byte. *)
Lemma after_rune c s :
  let size := (DecodeRuneInString (c :: s)).2 in
  has_meta_loop mode false s = has_meta_loop mode false (drop size (c :: s)) ∧
  cons c <$> unescape s = app (take size (c :: s)) <$> unescape (drop size (c :: s)).
Proof.
  intros size. pose proof (decode_size c s) as Hsz. pose proof (decode_block c s) as Hb. fold size in Hsz, Hb.
  destruct size as [|k]; [lia|]. cbn [take drop] in *. rewrite drop_0 in Hb.
  destruct (plain_front (take k s) (drop k s) Hb) as [Hm Hu]. rewrite take_drop in Hm, Hu. split; [done|].
  rewrite Hu. by destruct (unescape (drop k s)).
Qed.

(** A pattern without metacharacters parses to the text it escapes. *)
Lemma parse_plain fuel s lit toks id : has_meta_loop mode false s = false → (2 * length s + 2 ≤ fuel)%nat →
  parseSeq mode fuel [] s lit toks id =
  (match unescape s with Some u => Ok (flushLit (lit ++ u) toks, []) | None => Err BackslashAtEnd end, id).
Proof.
  revert s lit. induction fuel as [|fuel IH]; intros s lit Hm Hf; [lia|].
  destruct s as [|c s]; cbn [parseSeq unescape]; [by rewrite app_nil_r|]. simpl in Hf.
  rewrite (decide_False (P:=c ∈ [])) by set_solver.
  cbn [has_meta_loop] in Hm.
  assert (opens_group mode (c :: s) = false) as ->.
  { destruct s as [|d s]; [done|]. simpl. unfold extended, group_op. destruct (has_bits mode ExtendedOperators) eqn:Ex; [|done].
    destruct (bool_decide_reflect (d = "("%char)) as [->|]; [|done]. apply bool_decide_eq_false_2. intros Hc.
    destruct (decide (c = "\"%char)) as [->|]; [set_solver|]. case_decide; [done|].
    rewrite !bool_decide_eq_true_2 in Hm by (done || set_solver). done. }
  unfold plain_token. destruct (decide (c = "\"%char)) as [->|Hne].
  - destruct s as [|d s]; [done|]. simpl in Hf. cbn [has_meta_loop] in Hm.
    destruct (after_rune d s) as [Hm' Hu]. rewrite Hu. rewrite Hm' in Hm.
    pose proof (decode_size d s). rewrite IH; [|done|rewrite length_drop; cbn [length]; lia].
    destruct (unescape (drop _ (d :: s))); simpl; [|done]. by rewrite (assoc_L (++)).
  - case_decide as Hmeta; [done|].
    assert (has_meta_loop mode false s = false) as Hm0 by (by repeat case_match).
    rewrite !decide_False by set_solver. destruct (after_rune c s) as [Hm' Hu]. rewrite Hu. rewrite Hm' in Hm0.
    pose proof (decode_size c s). rewrite Nat.max_r by lia.
    rewrite IH; [|done|rewrite length_drop; cbn [length]; lia].
    destruct (unescape (drop _ (c :: s))); simpl; [|done]. by rewrite (assoc_L (++)).
Qed.

(** What a literal stands for: itself, and when case is folded the texts of its length with equal runes. *)
Definition same_text (SimpleFold : rune → rune) (name u : gostr) : bool :=
  if has_bits mode NoGlobCase then (length name =? length u)%nat && EqualFold SimpleFold name u else bool_decide (name = u).
Lemma matches_literal SimpleFold name u : matches SimpleFold mode name (1%nat, flushLit u []) = same_text SimpleFold name u.
Proof.
  apply Bool.eq_iff_eq_true. rewrite matches_spec; [|unfold flushLit; case_decide; constructor]. unfold same_text.
  unfold flushLit. case_decide as Hu; simpl.
  - subst u. case_match; rewrite ?andb_true_iff, ?Nat.eqb_eq, ?bool_decide_eq_true; simpl; split; try (by destruct name); by intros [? _].
  - unfold seq_rel, matchLiteral. simpl. rewrite drop_0. destruct (has_bits mode NoGlobCase).
    + rewrite andb_true_iff, Nat.eqb_eq. split.
      * intros (k&Hk&->). repeat case_match; simplify_eq; to_prop. rewrite (take_ge name) in * by (simpl in *; lia). simpl in *. split; [lia|done].
      * intros [Hl He]. exists (length u). rewrite Hl, Nat.ltb_irrefl, <- Hl, firstn_all, He. by rewrite Hl.
    + rewrite bool_decide_eq_true. split.
      * intros (k&Hk&->). repeat case_match; simplify_eq; to_prop. rewrite <-(take_drop (length u) name).
        rewrite (drop_ge name) by (simpl in *; lia). rewrite app_nil_r. done.
      * intros ->. exists (length u). rewrite Nat.ltb_irrefl, firstn_all. by rewrite decide_True.
Qed.
End quoting.

Lemma no_meta_literal SimpleFold mode pat name : HasMeta pat mode = false →
  match_recursive SimpleFold pat name mode =
  match unescape pat with Some u => Ok (same_text mode SimpleFold name u) | None => Err BackslashAtEnd end.
Proof.
  intros Hm. unfold match_recursive, parseExtPattern. rewrite parse_plain by (done || unfold parse_fuel; lia).
  simpl. destruct (unescape pat) as [u|]; [|done]. rewrite decide_True by done. simpl. by rewrite matches_literal.
Qed.

(** A quoted block: an ASCII metacharacter behind its backslash, or plain bytes. *)
Definition quote_block (mode : N) (b : gostr) : gostr :=
  match b with
  | [c] => if meta_rune mode (byte_val c) then "\"%char :: b else b
  | _ => b
  end.

Lemma quote_rune_block mode c s : ¬ invalid (c :: s) →
  let r := (DecodeRuneInString (c :: s)).1 in
  (if meta_rune mode r then go "\" else []) ++ encode_rune r =
  quote_block mode (take (DecodeRuneInString (c :: s)).2 (c :: s)).
Proof.
  intros Hval r. pose proof (decode_encode c s Hval) as He. fold r in He. rewrite He.
  destruct (decide (is_ascii c)) as [Ha|Ha].
  - unfold r in *. rewrite decode_ascii in * by done. simpl. case_match; done.
  - assert (meta_rune mode r = false) as ->.
    { destruct (meta_rune mode r) eqn:E; [|done]. apply meta_rune_ascii in E as (d&Hd&Hda). exfalso. apply Ha.
      rewrite Hd, encode_ascii in He by done. pose proof (decode_size c s).
      destruct (DecodeRuneInString (c :: s)).2; [lia|]. simpl in He. by injection He as ->. }
    simpl. destruct (take _ (c :: s)) as [|d [|e l]] eqn:Et; [done| |done]. simpl.
    pose proof (decode_size c s). destruct (DecodeRuneInString (c :: s)).2; [lia|]. simpl in Et. injection Et as -> _.
    rewrite (plain_high mode d); [done|]. unfold is_ascii, RuneSelf in Ha. lia.
Qed.

Lemma block_shape mode c s :
  let b := take (DecodeRuneInString (c :: s)).2 (c :: s) in
  Forall (plain mode) b ∨ b = [c] ∧ meta_rune mode (byte_val c) = true.
Proof.
  intros b. pose proof (decode_block mode c s) as Hb. pose proof (decode_size c s). fold b in Hb.
  destruct (meta_rune mode (byte_val c)) eqn:E.
  - right. split; [|done]. unfold b. apply meta_rune_ascii in E as (d&->%byte_val_inj&Ha). by rewrite decode_ascii.
  - left. unfold b in *. destruct (DecodeRuneInString (c :: s)).2 as [|k]; [lia|]. simpl in *. rewrite drop_0 in Hb.
    by constructor.
Qed.

Lemma quoted_blocks mode blocks :
  Forall (λ b, ∃ c s, ¬ invalid (c :: s) ∧ b = take (DecodeRuneInString (c :: s)).2 (c :: s)) blocks →
  has_meta_loop mode false (concat (map (quote_block mode) blocks)) = false ∧
  unescape (concat (map (quote_block mode) blocks)) = Some (concat blocks).
Proof.
  induction 1 as [|b blocks (c&s&_&->) _ [IHm IHu]]; [done|]. cbn [map concat].
  destruct (block_shape mode c s) as [Hp|[-> Hc]].
  - assert (∀ b, Forall (plain mode) b → quote_block mode b = b) as Hq.
    { intros [|d [|e l]]; simpl; [done| |done]. intros [Hd _]%Forall_cons_1. by rewrite Hd. }
    rewrite Hq by done.
    destruct (plain_front mode _ (concat (map (quote_block mode) blocks)) Hp) as [-> ->].
    by rewrite IHu.
  - unfold quote_block at 1 3. rewrite Hc. simpl. by rewrite IHu.
Qed.

Lemma QuoteMeta_blocks mode s : ValidString s = true →
  HasMeta (QuoteMeta s mode) mode = false ∧ unescape (QuoteMeta s mode) = Some s.
Proof.
  intros Hv. set (quote := λ r, (if meta_rune mode r then go "\" else []) ++ encode_rune r).
  destruct (range_valid quote (quote_block mode) 0 s (quote_rune_block mode) 0 Hv) as (blocks&Hcat&Hmap&Hall).
  simpl in Hcat. assert (QuoteMeta s mode = concat (map (quote_block mode) blocks)) as ->.
  { unfold QuoteMeta. destruct (existsb (meta_rune mode) (range_string s).*2) eqn:E; [exact Hmap|].
    destruct (range_valid encode_rune id 0 s decode_encode 0 Hv) as (blocks'&Hcat'&Hmap'&_).
    rewrite map_id in Hmap'. simpl in Hcat'. rewrite Hcat' in Hmap'. rewrite <-Hmap, <-Hmap' at 1.
    change (range_from 0 0 s) with (range_string s). revert E. induction (range_string s).*2 as [|r l IH]; simpl; [done|].
    intros [Hr Hl]%orb_false_elim. unfold quote at 1. rewrite Hr. simpl. f_equal. by apply IH. }
  destruct (quoted_blocks mode blocks Hall) as [Hm Hu]. rewrite Hcat in Hu. split; [exact Hm|exact Hu].
Qed.

(** C26: quoted text is literal: for a valid UTF-8 text, the pattern that [QuoteMeta] writes has no
    metacharacters for [HasMeta], and the recursive matcher accepts the text itself and nothing else; in the mode
    that folds case it accepts the texts of the same length whose runes are equal up to simple case folding. *)
Theorem QuoteMeta_roundtrip SimpleFold mode s name : ValidString s = true →
  HasMeta (QuoteMeta s mode) mode = false ∧
  match_recursive SimpleFold (QuoteMeta s mode) name mode =
    Ok (if has_bits mode NoGlobCase then (length name =? length s)%nat && EqualFold SimpleFold name s else bool_decide (name = s)).
Proof.
  intros [Hm Hu]%(QuoteMeta_blocks mode). split; [done|]. rewrite no_meta_literal by done. by rewrite Hu.
Qed.

(** Case folding of ASCII letters. *)
Definition ascii_fold (r : rune) : rune := if between 65 r 90 then r + 32 else if between 97 r 122 then r - 32 else r.
Lemma QuoteMeta_roundtrip_witness :
  ValidString (go "a*[b]!(c)") = true ∧
  QuoteMeta (go "a*[b]!(c)") ExtendedOperators = go "a\*\[b\]\!\(c\)" ∧
  match_recursive (λ r, r) (QuoteMeta (go "a*[b]!(c)") ExtendedOperators) (go "a*[b]!(c)") ExtendedOperators = Ok true ∧
  match_recursive ascii_fold (QuoteMeta (go "a*") NoGlobCase) (go "A*") NoGlobCase = Ok true ∧
  match_recursive ascii_fold (QuoteMeta (go "a*") NoGlobCase) (go "Ab") NoGlobCase = Ok false.
Proof.
  split_and!; [vm_compute; reflexivity..| | |].
  - destruct (QuoteMeta_roundtrip (λ r, r) ExtendedOperators (go "a*[b]!(c)") (go "a*[b]!(c)")) as [_ ->]; vm_compute; reflexivity.
  - destruct (QuoteMeta_roundtrip ascii_fold NoGlobCase (go "a*") (go "A*")) as [_ ->]; vm_compute; reflexivity.
  - destruct (QuoteMeta_roundtrip ascii_fold NoGlobCase (go "a*") (go "Ab")) as [_ ->]; vm_compute; reflexivity.
Defined.

(** Text that is no valid UTF-8 is not matched by its quotation: [QuoteMeta] writes its invalid bytes
    as U+FFFD once it has a metacharacter to quote. *)
Example QuoteMeta_invalid :
  let s := [ascii_of_N 255; "*"%char] in
  match_recursive (λ r, r) (QuoteMeta s 0) s 0 = Ok false.
Proof. vm_compute. reflexivity. Qed.

(** A repetition of an alternative that is empty does not match the empty text, although one
    occurrence of it does. *)
Example plus_of_empty_alternative :
  let mode := (ExtendedOperators + EntireString)%N in
  match_recursive (λ r, r) (go "+(|a)!(x)") [] mode = Ok false ∧
  match_recursive (λ r, r) (go "@(|a)!(x)") [] mode = Ok true.
Proof. split; vm_compute; reflexivity. Qed.
