(* ===== verification/ArithSyntax.v ===== *)
(** Arithmetic expressions as text: the tokens of [shell/syntax/lexer.go] inside [$((...))], the
    precedence parser of [shell/syntax/parser_arithm.go] with the nesting limits of
    [shell/syntax/nesting.go], and the source text of an expression ([shell/expand/arith.go]).

    The language is Bash, the parser's default.  A byte that starts or escapes other shell syntax
    (quotes, [$], a backquote, a backslash, [;], NUL, bytes over 127) and a subscript end the parse with
    the error [Foreign]: the parser of words is not part of this development. *)
From S2P Require Import Prelude GoUtf8.

(** ** Tokens *)

Inductive token :=
| illegalTok | EOF | Newl | LitWord
| leftParen | rightParen | leftBrack | rightBrack | hash | period
| exclMark | tilde | addAdd | subSub
| plus | minus | star | slash | perc | power
| equal | rdrOut | rdrIn | nequal | lequal | gequal
| and | or | caret | appOut | hdoc
| andAnd | orOr | dblCaret | comma | quest | colon
| assgn | addAssgn | subAssgn | mulAssgn | quoAssgn | remAssgn | andAssgn | orAssgn | xorAssgn
| shlAssgn | shrAssgn | andBoolAssgn | orBoolAssgn | xorBoolAssgn | powAssgn.
#[export] Instance token_eq_dec : EqDecision token.
Proof. solve_decision. Defined.

(** [token.String] of the operators. *)
Definition token_text (t : token) : gostr :=
  match t with
  | illegalTok | EOF | Newl | LitWord => []
  | leftParen => go "(" | rightParen => go ")" | leftBrack => go "[" | rightBrack => go "]"
  | hash => go "#" | period => go "."
  | exclMark => go "!" | tilde => go "~" | addAdd => go "++" | subSub => go "--"
  | plus => go "+" | minus => go "-" | star => go "*" | slash => go "/" | perc => go "%" | power => go "**"
  | equal => go "==" | rdrOut => go ">" | rdrIn => go "<" | nequal => go "!=" | lequal => go "<="
  | gequal => go ">=" | and => go "&" | or => go "|" | caret => go "^" | appOut => go ">>" | hdoc => go "<<"
  | andAnd => go "&&" | orOr => go "||" | dblCaret => go "^^" | comma => go "," | quest => go "?" | colon => go ":"
  | assgn => go "=" | addAssgn => go "+=" | subAssgn => go "-=" | mulAssgn => go "*=" | quoAssgn => go "/="
  | remAssgn => go "%=" | andAssgn => go "&=" | orAssgn => go "|=" | xorAssgn => go "^="
  | shlAssgn => go "<<=" | shrAssgn => go ">>=" | andBoolAssgn => go "&&=" | orBoolAssgn => go "||="
  | xorBoolAssgn => go "^^=" | powAssgn => go "**="
  end.

(** [BinAritOperator] and [UnAritOperator] are [token] under another name. *)
Abbreviation BinAritOperator := token (only parsing).
Abbreviation UnAritOperator := token (only parsing).
Abbreviation Add := plus (only parsing).
Abbreviation Sub := minus (only parsing).
Abbreviation Mul := star (only parsing).
Abbreviation Quo := slash (only parsing).
Abbreviation Rem := perc (only parsing).
Abbreviation Pow := power (only parsing).
Abbreviation Eql := equal (only parsing).
Abbreviation Gtr := rdrOut (only parsing).
Abbreviation Lss := rdrIn (only parsing).
Abbreviation Neq := nequal (only parsing).
Abbreviation Leq := lequal (only parsing).
Abbreviation Geq := gequal (only parsing).
Abbreviation And := and (only parsing).
Abbreviation Or := or (only parsing).
Abbreviation Xor := caret (only parsing).
Abbreviation Shr := appOut (only parsing).
Abbreviation Shl := hdoc (only parsing).
Abbreviation AndArit := andAnd (only parsing).
Abbreviation OrArit := orOr (only parsing).
Abbreviation XorBool := dblCaret (only parsing).
Abbreviation Comma := comma (only parsing).
Abbreviation TernQuest := quest (only parsing).
Abbreviation TernColon := colon (only parsing).
Abbreviation Assgn := assgn (only parsing).
Abbreviation Not := exclMark (only parsing).
Abbreviation BitNegation := tilde (only parsing).
Abbreviation Inc := addAdd (only parsing).
Abbreviation Dec := subSub (only parsing).
Abbreviation Plus := plus (only parsing).
Abbreviation Minus := minus (only parsing).

(** ** Expressions *)

(** The parts of a word.  Of a part that is expanded by the shell, its source text stands for its
    tree.  A [ParamExp] is [x[i]] when it is short, has no dollar and has an index. *)
Inductive WordPart :=
| Lit (Value : gostr)
| SglQuoted (Value : gostr)
| DblQuoted (src : gostr)
| ParamExp (Short Dollar : bool) (Param : gostr) (Index : option gostr) (src : gostr)
| CmdSubst (src : gostr)
| ArithmExp (src : gostr)
| OtherPart (src : gostr).
#[export] Instance WordPart_eq_dec : EqDecision WordPart.
Proof. solve_decision. Defined.

Abbreviation Word := (list WordPart).

(** [NilExpr] is a nil [ArithmExpr]: the left side of [= 5]. *)
Inductive ArithmExpr :=
| NilExpr
| AWord (w : Word)
| BinaryArithm (Op : BinAritOperator) (X Y : ArithmExpr)
| UnaryArithm (Op : UnAritOperator) (Post : bool) (X : ArithmExpr)
| ParenArithm (X : ArithmExpr).
#[export] Instance ArithmExpr_eq_dec : EqDecision ArithmExpr.
Proof. solve_decision. Defined.

(** [Word.Lit]. *)
Fixpoint Word_Lit_parts (w : Word) : option gostr :=
  match w with
  | [] => Some []
  | Lit v :: w => (app v) <$> Word_Lit_parts w
  | _ :: _ => None
  end.
Definition Word_Lit (w : Word) : gostr := default [] (Word_Lit_parts w).

(** [writeLiteral]; the text of a part that the shell expands is its source. *)
Definition writeLiteral (p : WordPart) : gostr :=
  match p with
  | Lit v => v
  | SglQuoted v => go "'" ++ v ++ go "'"
  | DblQuoted src | ParamExp _ _ _ _ src | CmdSubst src | ArithmExp src | OtherPart src => src
  end.

(** [writeArithExpr] and [arithExprSource]. *)
Fixpoint arithExprSource (expr : ArithmExpr) : gostr :=
  match expr with
  | NilExpr => []
  | AWord w => concat (map writeLiteral w)
  | BinaryArithm op x y => arithExprSource x ++ token_text op ++ arithExprSource y
  | UnaryArithm op true x => arithExprSource x ++ token_text op
  | UnaryArithm op false x => token_text op ++ arithExprSource x
  | ParenArithm x => go "(" ++ arithExprSource x ++ go ")"
  end.

(** ** The lexer *)

(** Bytes that start or escape syntax of words and commands. *)
Definition foreign_byte (c : ascii) : bool :=
  existsb (Ascii.eqb c) (map byte_of [0; 34; 36; 39; 59; 92; 96]) || (127 <? byte_val c).

Definition arithmOps (c : ascii) : bool := existsb (Ascii.eqb c) (go "+-!~*/%()^<>:=,?|&[]#.").

(** The bytes that [advanceLitOther] stops a literal at, in an arithmetic expression. *)
Definition lit_break (c : ascii) : bool :=
  existsb (Ascii.eqb c) (go "/:=%^,?!~*.[]+- ;&><|()" ++ map byte_of [9; 10; 13]).

Definition starts (c : ascii) (s : gostr) : bool :=
  match s with d :: _ => Ascii.eqb d c | [] => false end.

(** [arithmToken]: the operator that [c :: s] starts with, and the text behind it. *)
Definition arithmToken (c : ascii) (s : gostr) : token * gostr :=
  let two d t := if starts d s then Some (t, tail s) else None in
  let three d e t := if starts d s && starts e (tail s) then Some (t, tail (tail s)) else None in
  let try o k := match o with Some r => r | None => k end in
  if Ascii.eqb c "!" then try (two "=" nequal)%char (exclMark, s)
  else if Ascii.eqb c "=" then try (two "=" equal)%char (assgn, s)
  else if Ascii.eqb c "~" then (tilde, s)
  else if Ascii.eqb c "(" then (leftParen, s)
  else if Ascii.eqb c ")" then (rightParen, s)
  else if Ascii.eqb c "&" then try (two "&" andAnd)%char (try (two "=" andAssgn)%char (and, s))
  else if Ascii.eqb c "|" then try (two "|" orOr)%char (try (two "=" orAssgn)%char (or, s))
  else if Ascii.eqb c "<" then
    try (three "<" "=" shlAssgn)%char (try (two "<" hdoc)%char (try (two "=" lequal)%char (rdrIn, s)))
  else if Ascii.eqb c ">" then
    try (three ">" "=" shrAssgn)%char (try (two ">" appOut)%char (try (two "=" gequal)%char (rdrOut, s)))
  else if Ascii.eqb c "+" then try (two "+" addAdd)%char (try (two "=" addAssgn)%char (plus, s))
  else if Ascii.eqb c "-" then try (two "-" subSub)%char (try (two "=" subAssgn)%char (minus, s))
  else if Ascii.eqb c "%" then try (two "=" remAssgn)%char (perc, s)
  else if Ascii.eqb c "*" then try (two "*" power)%char (try (two "=" mulAssgn)%char (star, s))
  else if Ascii.eqb c "/" then try (two "=" quoAssgn)%char (slash, s)
  else if Ascii.eqb c "^" then try (two "^" dblCaret)%char (try (two "=" xorAssgn)%char (caret, s))
  else if Ascii.eqb c "[" then (leftBrack, s)
  else if Ascii.eqb c "]" then (rightBrack, s)
  else if Ascii.eqb c "," then (comma, s)
  else if Ascii.eqb c "?" then (quest, s)
  else if Ascii.eqb c ":" then (colon, s)
  else if Ascii.eqb c "#" then (hash, s)
  else if Ascii.eqb c "." then (period, s)
  else (illegalTok, s).

(** [advanceLitOther]: the literal at the start of [s] and the text behind it; [None] where a word
    goes on with other syntax. *)
Fixpoint advanceLitOther (s : gostr) : option (gostr * gostr) :=
  match s with
  | [] => Some ([], [])
  | c :: s' =>
      if lit_break c then Some ([], s)
      else if foreign_byte c then None
      else '(v, r) ← advanceLitOther s'; Some (c :: v, r)
  end.

(** The token at the start of [s], which starts with no blank: the token, the value of a literal,
    and the text behind it. *)
Definition lexTok (c : ascii) (s : gostr) : option (token * gostr * gostr) :=
  if foreign_byte c then None
  else if arithmOps c then let '(t, r) := arithmToken c s in Some (t, [], r)
  else if Ascii.eqb c (byte_of 13) then Some (LitWord, [c], s)
  else '(v, r) ← advanceLitOther (c :: s); Some (LitWord, v, r).

(** The parser: the unread bytes (the first is [p.r]), the current token, whether blanks came before
    it, the text that starts at it, and the depths of [nesting.go]. *)
Record parser := MkParser {
  rest : gostr;
  tok : token;
  val : gostr;
  spaced : bool;
  pos : gostr;
  nestDepth : Z;
  nestPeak : Z;
  chainLinks : Z;
}.

Definition set_token (p : parser) (r : gostr) (t : token) (v : gostr) (sp : bool) (at_ : gostr) : parser :=
  MkParser r t v sp at_ (nestDepth p) (nestPeak p) (chainLinks p).
Definition set_nest (p : parser) (d peak links : Z) : parser :=
  MkParser (rest p) (tok p) (val p) (spaced p) (pos p) d peak links.

(** [Parser.next]; [None] where other syntax starts. *)
Fixpoint skipSpace (p : parser) (sp : bool) (s : gostr) : option parser :=
  match s with
  | [] => Some (set_token p [] EOF (val p) sp (pos p))
  | c :: s' =>
      if Ascii.eqb c " " || Ascii.eqb c (byte_of 9) then skipSpace p true s'
      else if Ascii.eqb c (byte_of 10) then
        if decide (tok p = Newl) then skipSpace p sp s'
        else Some (set_token p s Newl (val p) true (pos p))
      else '(t, v, r) ← lexTok c s';
           Some (set_token p r t (if decide (t = LitWord) then v else val p) sp s)
  end.
Definition next_token (p : parser) : option parser :=
  match rest p with
  | [] => Some (set_token p [] EOF (val p) (spaced p) (pos p))
  | s => skipSpace p false s
  end.

(** ** Errors *)

Inductive parse_error_kind :=
| FollowErrExp | MustFollowExpression | TernaryMissingColon | TernaryMissingQuest | MustFollowName
| MatchingErr | NotOperator | Nesting | TreeDepth | Foreign.
#[export] Instance parse_error_kind_eq_dec : EqDecision parse_error_kind.
Proof. solve_decision. Defined.

(** A [ParseError]: its kind, and the text that starts at its position. *)
Record parse_error := MkParseError { kind : parse_error_kind; err_pos : gostr }.

(** A parser function: the first error ends the parse (the code keeps it and reads EOF from there on).
    [OutOfFuel] is not an outcome of the code. *)
Inductive outcome A :=
| Parsed (a : A) (p : parser)
| Failed (e : parse_error)
| OutOfFuel.
Arguments Parsed {A} a p.
Arguments Failed {A} e.
Arguments OutOfFuel {A}.

Definition P A := parser → outcome A.
#[export] Instance P_ret : MRet P := fun A a p => Parsed a p.
#[export] Instance P_bind : MBind P := fun A B k m p =>
  match m p with Parsed a p' => k a p' | Failed e => Failed e | OutOfFuel => OutOfFuel end.
Definition p_get : P parser := fun p => Parsed p p.
Definition p_fail {A} (k : parse_error_kind) (at_ : gostr) : P A := fun _ => Failed (MkParseError k at_).
Definition p_no_fuel {A} : P A := fun _ => OutOfFuel.

(** ** The parser *)

Definition next : P unit := fun p =>
  match next_token p with Some p' => Parsed tt p' | None => Failed (MkParseError Foreign (rest p)) end.
Definition got (t : token) : P bool :=
  p ← p_get; if decide (tok p = t) then next;; mret true else mret false.

Definition MaxNestingDepth : Z := 16000.
Definition MaxTreeDepth : Z := 50000.
Definition treeCheckThreshold : Z := 256.

(** [enterNest]; the code returns the depth to go back to. *)
Definition enterNest : P Z := fun p =>
  let d := nestDepth p in
  if MaxNestingDepth <=? d then Failed (MkParseError Nesting (pos p))
  else Parsed d (set_nest p (d + 1) (Z.max (nestPeak p) (d + 1)) (chainLinks p)).
Definition leaveNest (d : Z) : P unit := fun p => Parsed tt (set_nest p d (nestPeak p) (chainLinks p)).
Definition addChainLink : P unit := fun p =>
  Parsed tt (set_nest p (nestDepth p) (nestPeak p) (chainLinks p + 1)).

(** [nextArith(false)]; [nextArithOp(false)] is the same. *)
Definition nextArith : P unit := next;; got Newl;; mret tt.

(** The error for an expression that is not there. *)
Definition required (e : ArithmExpr) (k : parse_error_kind) (at_ : gostr) : P unit :=
  if decide (e = NilExpr) then p_fail k at_ else mret tt.

(** [arithmExprBinary]: [fuel] bounds the operators of one chain. *)
Fixpoint binaryLoop (fuel : nat) (nextOp : P ArithmExpr) (operators : list BinAritOperator)
    (value : ArithmExpr) : P ArithmExpr :=
  match fuel with
  | O => p_no_fuel
  | S fuel =>
      p ← p_get;
      if decide (tok p ∈ operators) then
        required value MustFollowExpression (pos p);;
        nextArith;;
        y ← nextOp;
        required y FollowErrExp (pos p);;
        addChainLink;;
        binaryLoop fuel nextOp operators (BinaryArithm (tok p) value y)
      else mret value
  end.
Definition arithmExprBinary (fuel : nat) (nextOp : P ArithmExpr) (operators : list BinAritOperator) : P ArithmExpr :=
  value ← nextOp; binaryLoop fuel nextOp operators value.

(** The levels between [?:] and [**]. *)
Section binary_levels.
Context (fuel : nat) (arithmExprPower : P ArithmExpr).

Definition arithmExprMultiplication := arithmExprBinary fuel arithmExprPower [Mul; Quo; Rem].
Definition arithmExprAddition := arithmExprBinary fuel arithmExprMultiplication [Add; Sub].
Definition arithmExprShift := arithmExprBinary fuel arithmExprAddition [Shl; Shr].
Definition arithmExprComparison := arithmExprBinary fuel arithmExprShift [Lss; Gtr; Leq; Geq].
Definition arithmExprEquality := arithmExprBinary fuel arithmExprComparison [Eql; Neq].
Definition arithmExprBand := arithmExprBinary fuel arithmExprEquality [And].
Definition arithmExprBxor := arithmExprBinary fuel arithmExprBand [Xor].
Definition arithmExprBor := arithmExprBinary fuel arithmExprBxor [Or].
Definition arithmExprLand := arithmExprBinary fuel arithmExprBor [AndArit].
Definition arithmExprLor := arithmExprBinary fuel arithmExprLand [OrArit; XorBool].
End binary_levels.

Definition assignOps : list BinAritOperator :=
  [addAssgn; subAssgn; mulAssgn; quoAssgn; remAssgn; andAssgn; orAssgn; xorAssgn; shlAssgn; shrAssgn; Assgn;
   andBoolAssgn; orBoolAssgn; xorBoolAssgn; powAssgn].

(** Words that go on after their first literal: [arithmContinueWord] looks for the end of the word
    ([arithmWordSuffixBoundary] compares the current token, converted to [BinAritOperator] and back,
    with [illegalTok]) and parses the text up to there with the word parser. *)
Definition arithmWordSuffixStart (p : parser) : bool :=
  if spaced p then false else bool_decide (tok p ∈ [leftBrack; period; hash; LitWord]).
Definition peekArithmEnd (p : parser) : bool :=
  bool_decide (tok p = rightParen) && starts ")" (rest p).
Definition arithmWordSuffixBoundary (p : parser) : bool :=
  if spaced p || peekArithmEnd p || bool_decide (tok p = EOF) then true
  else if bool_decide (tok p ∈ [rightBrack; rightParen; addAdd; subSub]) then true
  else negb (bool_decide (tok p = illegalTok)).
Fixpoint arithmWordSuffixEnd (fuel : nat) (parenDepth brackDepth : Z) : P gostr :=
  match fuel with
  | O => p_no_fuel
  | S fuel =>
      p ← p_get;
      if (parenDepth =? 0) && (brackDepth =? 0) && arithmWordSuffixBoundary p then mret (pos p)
      else
        match tok p with
        | leftParen => nextArith;; arithmWordSuffixEnd fuel (parenDepth + 1) brackDepth
        | rightParen =>
            if parenDepth =? 0 then mret (pos p)
            else nextArith;; arithmWordSuffixEnd fuel (parenDepth - 1) brackDepth
        | leftBrack => nextArith;; arithmWordSuffixEnd fuel parenDepth (brackDepth + 1)
        | rightBrack =>
            if brackDepth =? 0 then mret (pos p)
            else nextArith;; arithmWordSuffixEnd fuel parenDepth (brackDepth - 1)
        | _ => nextArith;; arithmWordSuffixEnd fuel parenDepth brackDepth
        end
  end.

(** [sourceRange], of two positions. *)
Definition sourceRange (start end_ : gostr) : gostr := take (length start - length end_) start.

Definition arithmContinueWord (fuel : nat) (x : ArithmExpr) : P ArithmExpr :=
  p ← p_get;
  match x with
  | AWord _ =>
      if arithmWordSuffixStart p then
        end_ ← arithmWordSuffixEnd fuel 0 0;
        if decide (sourceRange (pos p) end_ = []) then mret x else p_fail Foreign (pos p)
      else mret x
  | _ => mret x
  end.

(** [getWord] at a token that starts no word: [wordParts] enters one level. *)
Definition getNoWord : P ArithmExpr :=
  d ← enterNest; leaveNest d;; mret NilExpr.

(** The recursion of the parser; every call spends one unit of fuel. *)
Fixpoint arithmExpr (fuel : nat) : P ArithmExpr :=
  match fuel with
  | O => p_no_fuel
  | S fuel => arithmExprBinary fuel (arithmExprAssign fuel) [Comma]
  end
with arithmExprAssign (fuel : nat) : P ArithmExpr :=
  match fuel with
  | O => p_no_fuel
  | S fuel =>
      value ← arithmExprTernary fuel;
      p ← p_get;
      if decide (tok p ∈ assignOps) then
        nextArith;;
        d ← enterNest;
        y ← arithmExprAssign fuel;
        leaveNest d;;
        required y FollowErrExp (pos p);;
        mret (BinaryArithm (tok p) value y)
      else mret value
  end
with arithmExprTernary (fuel : nat) : P ArithmExpr :=
  match fuel with
  | O => p_no_fuel
  | S fuel =>
      value ← arithmExprLor fuel (arithmExprPower fuel);
      p ← p_get;
      if decide (tok p = TernQuest) then
        required value MustFollowExpression (pos p);;
        d ← enterNest;
        nextArith;;
        q ← p_get;
        (if decide (tok q = TernColon) then p_fail FollowErrExp (pos p) else mret tt);;
        trueExpr ← arithmExpr fuel;
        required trueExpr FollowErrExp (pos p);;
        c ← p_get;
        (if decide (tok c = TernColon) then mret tt else p_fail TernaryMissingColon (pos p));;
        nextArith;;
        falseExpr ← arithmExprTernary fuel;
        required falseExpr FollowErrExp (pos c);;
        leaveNest d;;
        mret (BinaryArithm TernQuest value (BinaryArithm TernColon trueExpr falseExpr))
      else mret value
  end
with arithmExprPower (fuel : nat) : P ArithmExpr :=
  match fuel with
  | O => p_no_fuel
  | S fuel =>
      value ← arithmExprUnary fuel;
      p ← p_get;
      if decide (tok p = Pow) then
        required value MustFollowExpression (pos p);;
        nextArith;;
        d ← enterNest;
        y ← arithmExprPower fuel;
        leaveNest d;;
        required y FollowErrExp (pos p);;
        mret (BinaryArithm (tok p) value y)
      else mret value
  end
with arithmExprUnary (fuel : nat) : P ArithmExpr :=
  match fuel with
  | O => p_no_fuel
  | S fuel =>
      got Newl;;
      p ← p_get;
      if decide (tok p ∈ [Not; BitNegation; Plus; Minus]) then
        nextArith;;
        d ← enterNest;
        x ← arithmExprUnary fuel;
        leaveNest d;;
        required x FollowErrExp (pos p);;
        mret (UnaryArithm (tok p) false x)
      else arithmExprValue fuel
  end
with arithmExprValue (fuel : nat) : P ArithmExpr :=
  match fuel with
  | O => p_no_fuel
  | S fuel =>
      d ← enterNest;
      x ← arithmExprValueNested fuel;
      leaveNest d;;
      mret x
  end
with arithmExprValueNested (fuel : nat) : P ArithmExpr :=
  match fuel with
  | O => p_no_fuel
  | S fuel =>
      p ← p_get;
      let postfix (x : ArithmExpr) : P ArithmExpr :=
        x ← arithmContinueWord fuel x;
        got Newl;;
        q ← p_get;
        if decide (tok q ∈ [addAdd; subSub]) then nextArith;; mret (UnaryArithm (tok q) true x)
        else mret x in
      match tok p with
      | addAdd | subSub =>
          nextArith;;
          x ← arithmExprValue fuel;
          required x FollowErrExp (pos p);;
          mret (UnaryArithm (tok p) false x)
      | leftParen =>
          nextArith;;
          x ← arithmExpr fuel;
          required x FollowErrExp (pos p);;
          ok ← got rightParen;
          if (ok : bool) then postfix (ParenArithm x) else p_fail MatchingErr (pos p)
      | leftBrack => p_fail MustFollowName (pos p)
      | colon => p_fail TernaryMissingQuest (pos p)
      | LitWord =>
          next;;
          q ← p_get;
          if decide (tok q = leftBrack) then p_fail Foreign (pos q) else postfix (AWord [Lit (val p)])
      | _ => getNoWord
      end
  end.

(** The depth [deepestNode] measures: expressions, words and the parts of words are nodes. *)
Fixpoint nodeDepth (e : ArithmExpr) : Z :=
  match e with
  | NilExpr => 0
  | AWord [] => 1
  | AWord _ => 2
  | BinaryArithm _ x y => 1 + Z.max (nodeDepth x) (nodeDepth y)
  | UnaryArithm _ _ x | ParenArithm x => 1 + nodeDepth x
  end.
Definition checkTreeDepth (e : ArithmExpr) : P unit :=
  p ← p_get;
  if nestPeak p + chainLinks p <? treeCheckThreshold then mret tt
  else if MaxTreeDepth <? nodeDepth e then p_fail TreeDepth [] else mret tt.

(** [Parser.Arithmetic] over a fresh parser.  Every token costs at most seven calls, and a token takes
    at most two steps of the lexer ([Arithmetic_total]). *)
Definition new_parser (src : gostr) : parser := MkParser src illegalTok [] false [] 0 0 0.
Definition parse_fuel (src : gostr) : nat := 8 * (2 * length src + 4).
Definition Arithmetic_ (fuel : nat) : P ArithmExpr :=
  next;;
  expr ← arithmExpr fuel;
  checkTreeDepth expr;;
  p ← p_get;
  if decide (tok p = EOF) then mret expr
  else
    match tok p with
    | leftBrack => p_fail MustFollowName (pos p)
    | colon => p_fail TernaryMissingQuest (pos p)
    | _ => p_fail NotOperator (pos p)
    end.

(** What the callers get: an expression, nil for blank text, or the error. *)
Definition Arithmetic (src : gostr) : option (result parse_error ArithmExpr) :=
  match Arithmetic_ (parse_fuel src) (new_parser src) with
  | Parsed e _ => Some (Ok e)
  | Failed err => Some (Err err)
  | OutOfFuel => None
  end.
