(* ===== verification/ArithGrammar.v ===== *)
(** The grammar that the arithmetic parser implements, stated on syntax trees: the precedence and
    associativity of every operator, and which trees are the reading of some text.  Then what the
    lexer does with the text of one token. *)
From S2P Require Import Prelude GoUtf8 ArithSyntax.

(** ** Precedence *)

Inductive assoc := LeftAssoc | RightAssoc | Assignment | Conditional.

(** The tokens that only Zsh has, and the one that is none. *)
Definition not_bash : list token := [illegalTok; andBoolAssgn; orBoolAssgn; xorBoolAssgn; powAssgn].

(** The precedence of a binary operator, the loosest first, and how its operands associate. *)
Definition op_level (t : token) : option (nat * assoc) :=
  match t with
  | comma => Some (0%nat, LeftAssoc)
  | assgn | addAssgn | subAssgn | mulAssgn | quoAssgn | remAssgn | andAssgn | orAssgn | xorAssgn
  | shlAssgn | shrAssgn => Some (1%nat, Assignment)
  | quest => Some (2%nat, Conditional)
  | orOr | dblCaret => Some (3%nat, LeftAssoc)
  | andAnd => Some (4%nat, LeftAssoc)
  | or => Some (5%nat, LeftAssoc)
  | caret => Some (6%nat, LeftAssoc)
  | and => Some (7%nat, LeftAssoc)
  | equal | nequal => Some (8%nat, LeftAssoc)
  | rdrIn | rdrOut | lequal | gequal => Some (9%nat, LeftAssoc)
  | hdoc | appOut => Some (10%nat, LeftAssoc)
  | plus | minus => Some (11%nat, LeftAssoc)
  | star | slash | perc => Some (12%nat, LeftAssoc)
  | power => Some (13%nat, RightAssoc)
  | _ => None
  end.
Definition unary_level : nat := 14.
Definition primary_level : nat := 15.

Definition prefix_op (t : token) : bool := bool_decide (t ∈ [Not; BitNegation; Plus; Minus]).
Definition incdec_op (t : token) : bool := bool_decide (t ∈ [Inc; Dec]).

(** How tightly the root of an expression binds. *)
Definition level (e : ArithmExpr) : nat :=
  match e with
  | NilExpr => 0
  | AWord _ | ParenArithm _ => primary_level
  | UnaryArithm op _ _ => if incdec_op op then primary_level else unary_level
  | BinaryArithm op _ _ => match op_level op with Some (l, _) => l | None => 0 end
  end.

(** The literals the lexer makes: [\r] alone, or bytes that neither end a literal nor start other
    syntax, where [#] is not the first. *)
Definition lit_char (c : ascii) : bool := negb (lit_break c) && negb (foreign_byte c).
Definition lit_value (v : gostr) : bool :=
  match v with
  | [] => false
  | c :: s => bool_decide (v = [byte_of 13]) || (forallb lit_char v && negb (arithmOps c))
  end.

(** The trees that are the reading of a text: operands bind at least as tightly as the place they
    stand in asks for. *)
Fixpoint reading (e : ArithmExpr) : bool :=
  match e with
  | NilExpr => false
  | AWord [Lit v] => lit_value v
  | AWord _ => false
  | ParenArithm x => reading x
  | UnaryArithm op post x =>
      reading x &&
      (if incdec_op op then
         if post then match x with AWord _ | ParenArithm _ => true | _ => false end
         else (primary_level <=? level x)%nat
       else prefix_op op && negb post && (unary_level <=? level x)%nat)
  | BinaryArithm op x y =>
      match op_level op with
      | Some (l, LeftAssoc) => reading x && reading y && (l <=? level x)%nat && (S l <=? level y)%nat
      | Some (l, RightAssoc) => reading x && reading y && (S l <=? level x)%nat && (l <=? level y)%nat
      | Some (l, Assignment) =>
          (bool_decide (x = NilExpr) || (reading x && (S l <=? level x)%nat)) && reading y && (l <=? level y)%nat
      | Some (l, Conditional) =>
          match y with
          | BinaryArithm colon t f =>
              reading x && (S l <=? level x)%nat && reading t && reading f && (l <=? level f)%nat
          | _ => false
          end
      | None => false
      end
  end.

(** ** Depth *)

(** The levels of nesting the parser enters to read an expression. *)
Fixpoint need (e : ArithmExpr) : Z :=
  match e with
  | NilExpr => 2
  | AWord _ => 1
  | ParenArithm x => 1 + need x
  | UnaryArithm _ true x => need x
  | UnaryArithm _ false x => 1 + need x
  | BinaryArithm op x y =>
      match op_level op with
      | Some (_, LeftAssoc) => Z.max (need x) (need y)
      | None => Z.max (need x) (need y)
      | Some (_, Conditional) => Z.max (need x) (1 + need y)
      | _ => Z.max (need x) (1 + need y)
      end
  end.

(** The operators that are read in a loop. *)
Fixpoint links (e : ArithmExpr) : Z :=
  match e with
  | NilExpr | AWord _ => 0
  | ParenArithm x | UnaryArithm _ _ x => links x
  | BinaryArithm op x y =>
      links x + links y + match op_level op with Some (_, LeftAssoc) => 1 | _ => 0 end
  end.

(** ** Text *)

Definition blank (c : ascii) : bool := Ascii.eqb c " " || Ascii.eqb c (byte_of 9) || Ascii.eqb c (byte_of 10).
Definition strip (s : gostr) : gostr := filter (fun c => blank c = false) s.

(** Without blanks, a sign in front of the same sign is read as [++] or [--], and [=] in front of
    an assignment to nothing as [==]. *)
Definition glued (op : token) (s : gostr) : bool :=
  match op with plus => starts "+" s | minus => starts "-" s | assgn => starts "=" s | _ => false end.
Fixpoint glue_free (e : ArithmExpr) : bool :=
  match e with
  | NilExpr | AWord _ => true
  | ParenArithm x | UnaryArithm _ true x => glue_free x
  | UnaryArithm op false x => glue_free x && negb (glued op (arithExprSource x))
  | BinaryArithm op x y => glue_free x && glue_free y && negb (glued op (arithExprSource y))
  end.
