(* ===== verification/ArithSound.v ===== *)
(** What the arithmetic parser answers: a tree that its text reads as, within the nesting limits, and
    it always answers. *)
From S2P Require Import Prelude GoUtf8 ArithSyntax ArithGrammar.

(** ** Text of the parser's state *)

(** The text from the current token on, without the blanks before it. *)
Definition pending (p : parser) : gostr :=
  (if decide (tok p = LitWord) then val p else token_text (tok p)) ++ rest p.

Lemma strip_app s t : strip (s ++ t) = strip s ++ strip t.
Proof. unfold strip. apply list.filter_app. Qed.

Lemma starts_spec c s : starts c s = true → s = c :: tail s.
Proof. destruct s as [|d s]; simpl; [done|]. by intros ->%Ascii.eqb_eq. Qed.

(** The text of an operator and what is behind it make up the text that was read. *)
Lemma arithmToken_text c s t r : arithmOps c = true → arithmToken c s = (t, r) → c :: s = token_text t ++ r.
Proof.
  intros Hc. unfold arithmToken.
  repeat match goal with
  | |- context [Ascii.eqb c ?d] => destruct (Ascii.eqb_spec c d) as [->|?]; [clear Hc|]
  end; try (repeat case_match; intros; simplify_eq;
            repeat match goal with
            | H : (_ && _)%bool = true |- _ => apply andb_prop in H as [??]
            | H : starts _ _ = true |- _ => apply starts_spec in H
            end; simpl; congruence).
  exfalso. unfold arithmOps in Hc. apply existsb_exists in Hc as (d&Hd&->%Ascii.eqb_eq).
  simpl in Hd. naive_solver.
Qed.

Lemma arithmToken_not_word c s t r : arithmToken c s = (t, r) → t ≠ LitWord ∧ t ≠ EOF ∧ t ≠ Newl.
Proof.
  unfold arithmToken. intros H. repeat case_match; simplify_eq; done.
Qed.

Lemma not_elem_of_bool (t : token) (ops : list token) : bool_decide (t ∈ ops) = false → t ∉ ops.
Proof. apply bool_decide_eq_false_1. Qed.
#[local] Hint Extern 0 (_ ∉ not_bash) => (apply not_elem_of_bool; reflexivity) : core.
Lemma arithmToken_legal c s t r : arithmOps c = true → arithmToken c s = (t, r) → t ∉ not_bash.
Proof.
  intros Hc. unfold arithmToken.
  repeat match goal with
  | |- context [Ascii.eqb c ?d] => destruct (Ascii.eqb_spec c d) as [->|?]; [clear Hc; intros; repeat case_match; simplify_eq; by apply not_elem_of_bool|]
  end.
  exfalso. unfold arithmOps in Hc. apply existsb_exists in Hc as (d&Hd&->%Ascii.eqb_eq).
  simpl in Hd. naive_solver.
Qed.

Lemma advanceLitOther_spec s v r : advanceLitOther s = Some (v, r) → s = v ++ r ∧ forallb lit_char v = true.
Proof.
  revert v. induction s as [|c s IH]; intros v; simpl; [by intros [= <- <-]|].
  destruct (lit_break c) eqn:Hb; [by intros [= <- <-]|].
  destruct (foreign_byte c) eqn:Hf; [done|].
  destruct (advanceLitOther s) as [[v' r']|]; [|done]. simpl. intros [= <- <-].
  destruct (IH v' eq_refl) as [-> ?]. split; [done|]. simpl. unfold lit_char at 1. rewrite Hb, Hf. done.
Qed.

(** A byte that ends a literal is an operator, a blank, a carriage return or other syntax. *)
Lemma lit_break_cases c :
  lit_break c = true → arithmOps c = true ∨ blank c = true ∨ c = byte_of 13 ∨ foreign_byte c = true.
Proof.
  intros (d&Hd&->%Ascii.eqb_eq)%existsb_exists. simpl in Hd.
  repeat (destruct Hd as [<-|Hd]; [vm_compute; tauto|]). done.
Qed.

(** One token. *)
Lemma lexTok_spec c s t v r :
  blank c = false → lexTok c s = Some (t, v, r) →
  c :: s = (if decide (t = LitWord) then v else token_text t) ++ r ∧
  t ≠ EOF ∧ t ≠ Newl ∧ t ∉ not_bash ∧ (t = LitWord → lit_value v = true).
Proof.
  intros Hbl. unfold lexTok. destruct (foreign_byte c) eqn:Hf; [done|]. destruct (arithmOps c) eqn:Ho.
  - destruct (arithmToken c s) as [t' r'] eqn:E. intros [= <- <- <-].
    pose proof (arithmToken_not_word _ _ _ _ E) as (?&?&?).
    pose proof (arithmToken_legal _ _ _ _ Ho E). rewrite decide_False by done.
    split_and!; try done. by apply arithmToken_text.
  - destruct (Ascii.eqb_spec c (byte_of 13)) as [->|Hr].
    + intros [= <- <- <-]. rewrite decide_True by done. by split_and!.
    + destruct (advanceLitOther (c :: s)) as [[v' r']|] eqn:E; [|done]. simpl. intros [= <- <- <-].
      rewrite decide_True by done.
      destruct (lit_break c) eqn:Hb; [destruct (lit_break_cases c Hb) as [?|[?|[?|?]]]; congruence|].
      cbn [advanceLitOther] in E. rewrite Hb, Hf in E. destruct (advanceLitOther s) as [[v1 r1]|] eqn:E1; [|done].
      simpl in E. injection E as <- <-. apply advanceLitOther_spec in E1 as [-> Hv]. split_and!; try done.
      intros _. cbn [lit_value forallb]. unfold lit_char at 1. rewrite Hb, Hf, Hv, Ho. simpl. by rewrite orb_true_r.
Qed.

(** ** Runs of the parser *)

Lemma bind_Parsed {A B} (m : P A) (k : A → P B) p b p' :
  (m ≫= k) p = Parsed b p' → ∃ a p1, m p = Parsed a p1 ∧ k a p1 = Parsed b p'.
Proof. unfold mbind, P_bind. destruct (m p) as [a p1| |]; [|done..]. eauto. Qed.
Lemma ret_Parsed {A} (a b : A) p p' : (mret a : P A) p = Parsed b p' → a = b ∧ p = p'.
Proof. by intros [= -> ->]. Qed.
Lemma fail_Parsed {A} k at_ (b : A) p p' : p_fail k at_ p = Parsed b p' → False.
Proof. done. Qed.
Lemma bind_get {B} (k : parser → P B) p : (p_get ≫= k) p = k p p.
Proof. done. Qed.

(** Takes apart a run that ends in [Parsed]. *)
Ltac run H :=
  repeat match type of H with
  | (p_get ≫= _) _ = Parsed _ _ => rewrite bind_get in H
  | (mret _) _ = Parsed _ _ => apply ret_Parsed in H as [? ?]
  | p_fail _ _ _ = Parsed _ _ => by apply fail_Parsed in H
  end.
Ltac run_step H :=
  run H; let a := fresh "v" in let p := fresh "q" in let E := fresh "E" in
  apply bind_Parsed in H as (a & p & E & H).

(** ** One step of the lexer *)

(** What holds of the parser at every token. *)
Definition token_ok (p : parser) : Prop :=
  tok p ∉ not_bash ∧ (tok p = LitWord → lit_value (val p) = true) ∧ (tok p = EOF → rest p = []).

(** The tokens that are left, at most: a newline is seen twice. *)
Definition left_over (p : parser) : nat :=
  2 * length (rest p) + (if decide (tok p = EOF) then 0 else if decide (tok p = Newl) then 1 else 2).

Definition same_nest (p p' : parser) : Prop :=
  nestDepth p' = nestDepth p ∧ nestPeak p' = nestPeak p ∧ chainLinks p' = chainLinks p.

Lemma strip_blank c s : blank c = true → strip (c :: s) = strip s.
Proof. intros H. unfold strip. rewrite list.filter_cons_False by congruence. done. Qed.

Lemma skipSpace_spec p sp s p' :
  skipSpace p sp s = Some p' →
  strip s = strip (pending p') ∧ token_ok p' ∧ same_nest p p' ∧
  (left_over p' ≤ 2 * length s)%nat ∨
  s ≠ [] ∧ tok p ≠ Newl ∧ tok p' = Newl ∧ strip s = strip (pending p') ∧ token_ok p' ∧ same_nest p p' ∧
  (left_over p' ≤ 2 * length s + 1)%nat.
Proof.
  revert sp. induction s as [|c s IH]; intros sp; cbn [skipSpace].
  { intros [= <-]. left. split_and!; by try (unfold left_over; simpl; lia). }
  destruct (Ascii.eqb c " " || Ascii.eqb c (byte_of 9)) eqn:Hsp.
  { intros [(E&?&?&?)|(?&?&?&E&?&?&?)]%IH.
    - left. rewrite strip_blank by (unfold blank; by rewrite Hsp). split_and!; try done. simpl. lia.
    - right. rewrite strip_blank by (unfold blank; by rewrite Hsp). split_and!; try done. simpl. lia. }
  destruct (Ascii.eqb c (byte_of 10)) eqn:Hnl.
  - destruct (decide (tok p = Newl)) as [Ht|Ht].
    + intros [(E&?&?&?)|(?&?&?&E&?&?&?)]%IH; [|done].
      left. rewrite strip_blank by (unfold blank; by rewrite Hsp, Hnl). split_and!; try done. simpl. lia.
    + intros [= <-]. right. split_and!; by try (unfold left_over; simpl; lia).
  - destruct (lexTok c s) as [[[t v] r]|] eqn:E; [|done]. simpl. intros [= <-]. left.
    apply lexTok_spec in E as (E&He&Hn&Hi&Hv); [|unfold blank; by rewrite Hsp, Hnl].
    split_and!; [|split; [done|split; [|done]]|done|].
    + rewrite E. unfold pending. simpl. by case_decide.
    + simpl. intros ->. rewrite decide_True by done. by apply Hv.
    + apply (f_equal length) in E. unfold left_over. simpl. rewrite decide_False, decide_False by done.
      rewrite length_app in E. simpl in E.
      assert (1 <= length (if decide (t = LitWord) then v else token_text t))%nat; [|lia].
      case_decide as Hw; [destruct v; [by specialize (Hv Hw)|simpl; lia]|].
      destruct t; simpl; try done; try lia. exfalso. apply Hi, elem_of_cons. by left.
Qed.

Lemma next_spec p p' u :
  next p = Parsed u p' →
  strip (rest p) = strip (pending p') ∧ token_ok p' ∧ same_nest p p' ∧
  (tok p ≠ EOF → left_over p' < left_over p)%nat.
Proof.
  unfold next, next_token. destruct (rest p) as [|c s] eqn:Hr.
  - intros [= <- <-]. split_and!; try done. intros He. unfold left_over. rewrite Hr. simpl.
    rewrite (decide_False (P := tok p = EOF)) by done. case_decide; lia.
  - destruct (skipSpace p false (c :: s)) as [p1|] eqn:E; [|done]. intros [= <- <-].
    apply skipSpace_spec in E as [(?&?&?&Hl)|(_&Hn&?&?&?&?&Hl)]; (split_and!; try done); intros He;
      unfold left_over at 2; rewrite Hr, (decide_False (P := tok p = EOF)) by done.
    + case_decide; lia.
    + rewrite decide_False by done. lia.
Qed.

Lemma pending_newline p : tok p = Newl → pending p = rest p.
Proof. intros H. unfold pending. by rewrite H. Qed.
Lemma pending_op p : tok p ≠ LitWord → pending p = token_text (tok p) ++ rest p.
Proof. intros H. unfold pending. by rewrite decide_False. Qed.

(** [nextArith], and the newline that may come before an operand. *)
Lemma got_newline_spec p b p' :
  got Newl p = Parsed b p' → token_ok p →
  strip (pending p) = strip (pending p') ∧ token_ok p' ∧ same_nest p p' ∧ (left_over p' ≤ left_over p)%nat.
Proof.
  unfold got. intros H Hok. run H. case_decide as Hn.
  - run_step H. run H. simplify_eq. apply next_spec in E as (Hs&?&?&Hl). split_and!; try done.
    { by rewrite pending_newline. }
    rewrite Hn in Hl. by apply Nat.lt_le_incl, Hl.
  - run H. simplify_eq. by split_and!.
Qed.

Lemma same_nest_trans p q r : same_nest p q → same_nest q r → same_nest p r.
Proof. intros (?&?&?) (?&?&?). split_and!; congruence. Qed.

Lemma nextArith_spec p u p' :
  nextArith p = Parsed u p' →
  strip (rest p) = strip (pending p') ∧ token_ok p' ∧ same_nest p p' ∧
  (tok p ≠ EOF → left_over p' < left_over p)%nat.
Proof.
  unfold nextArith. intros H. run_step H. run_step H. run H. simplify_eq.
  apply next_spec in E as (Hs&Hok&Hn&Hl). apply got_newline_spec in E0 as (Hs2&Hok2&Hn2&Hl2); [|done].
  split_and!; [congruence|done..|by eapply same_nest_trans|]. intros He. specialize (Hl He). lia.
Qed.

(** ** The reading of an expression *)

(** A run from [p] to [p'] that answers [e] at level [l]. *)
Record reads (l : nat) (p : parser) (e : ArithmExpr) (p' : parser) : Prop := {
  rd_ok : token_ok p';
  rd_depth : nestDepth p' = nestDepth p;
  rd_text : strip (pending p) = strip (arithExprSource e) ++ strip (pending p');
  rd_tree : e = NilExpr ∨ reading e = true ∧ (l <= level e)%nat;
  rd_need : nestDepth p + need e <= nestPeak p';
  rd_peak : nestPeak p <= nestPeak p' <= MaxNestingDepth;
  rd_links : chainLinks p + links e <= chainLinks p';
}.
Definition sound (l : nat) (m : P ArithmExpr) : Prop :=
  ∀ p e p', token_ok p → nestPeak p <= MaxNestingDepth → m p = Parsed e p' → reads l p e p'.

Lemma required_Parsed e k at_ p u p' : required e k at_ p = Parsed u p' → e ≠ NilExpr ∧ p' = p.
Proof. unfold required. case_decide; [done|]. by intros [= _ ->]. Qed.

Lemma enterNest_Parsed p d p' :
  enterNest p = Parsed d p' →
  d = nestDepth p ∧ p' = set_nest p (d + 1) (Z.max (nestPeak p) (d + 1)) (chainLinks p) ∧ d < MaxNestingDepth.
Proof. unfold enterNest. case_match; [done|]. intros [= <- <-]. to_prop. done. Qed.
Lemma leaveNest_Parsed d p u p' :
  leaveNest d p = Parsed u p' → p' = set_nest p d (nestPeak p) (chainLinks p).
Proof. by intros [= _ <-]. Qed.

Lemma pending_set_nest p d k c : pending (set_nest p d k c) = pending p.
Proof. done. Qed.
Lemma token_ok_set_nest p d k c : token_ok (set_nest p d k c) ↔ token_ok p.
Proof. done. Qed.

Lemma level_prim_le l e : reading e = true → (l <= level e)%nat → e ≠ NilExpr.
Proof. intros H _ ->. done. Qed.

(** An operator token and the step behind it. *)
Lemma op_step p u p1 :
  tok p ≠ LitWord → nextArith p = Parsed u p1 →
  strip (pending p) = strip (token_text (tok p)) ++ strip (pending p1) ∧ token_ok p1 ∧ same_nest p p1.
Proof.
  intros Ht H. apply nextArith_spec in H as (Hs&?&?&_). rewrite pending_op, strip_app, Hs by done. by split_and!.
Qed.

(** Operators that are read in a loop. *)
Definition left_ops (l : nat) (ops : list token) : Prop := ∀ t, t ∈ ops → op_level t = Some (l, LeftAssoc).

Lemma op_level_not_word t l a : op_level t = Some (l, a) → t ≠ LitWord.
Proof. by intros H ->. Qed.

Lemma binaryLoop_sound l m ops fuel p0 value p e p' :
  sound (S l) m → left_ops l ops →
  reads l p0 value p → binaryLoop fuel m ops value p = Parsed e p' → reads l p0 e p'.
Proof.
  intros Hm Hops. revert value p. induction fuel as [|fuel IH]; intros value p Hr H; [done|]. cbn [binaryLoop] in H.
  run H. case_decide as Hin; [|run H; by simplify_eq].
  pose proof (Hops _ Hin) as Hl. pose proof (op_level_not_word _ _ _ Hl) as Hw.
  run_step H. apply required_Parsed in E as [Hv ->]. run_step H. run_step H. run_step H. run_step H.
  apply op_step in E as (Ht1&Hok1&Hd1&Hk1&Hc1); [|done].
  apply Hm in E0; [|done|rewrite Hk1; apply Hr]. apply required_Parsed in E1 as [Hy ->].
  injection E2 as _ <-. revert H. apply IH.
  destruct Hr as [Hok Hd Ht He Hneed Hpeak Hlinks], E0 as [Hok2 Hd2 Ht2 He2 Hneed2 Hpeak2 Hlinks2].
  destruct He as [?|[He Hle]]; [done|]. destruct He2 as [?|[He2 Hle2]]; [done|].
  split; cbn [arithExprSource need links level reading]; rewrite ?Hl; try done; try (simpl; lia).
  - rewrite !strip_app, Ht, Ht1, Ht2. by rewrite <- !(assoc_L (++)).
  - right. rewrite He, He2. split; [|lia]. rewrite !andb_true_iff, !Nat.leb_le. by split_and!.
Qed.

Lemma arithmExprBinary_sound l fuel m ops :
  sound (S l) m → left_ops l ops → sound l (arithmExprBinary fuel m ops).
Proof.
  intros Hm Hops p e p' Hok Hpk H. unfold arithmExprBinary in H. run_step H.
  apply Hm in E; [|done..]. revert H. apply binaryLoop_sound; [done..|].
  destruct E as [?? ? [?|[??]] ???]; split; auto. right. split; [done|lia].
Qed.

Lemma arithmExprLor_sound fuel m : sound 13 m → sound 3 (arithmExprLor fuel m).
Proof.
  intros H. unfold arithmExprLor, arithmExprLand, arithmExprBor, arithmExprBxor, arithmExprBand, arithmExprEquality,
    arithmExprComparison, arithmExprShift, arithmExprAddition, arithmExprMultiplication.
  do 10 (apply arithmExprBinary_sound;
    [|intros t Ht; repeat (apply elem_of_cons in Ht as [->|Ht]; [done|]); by apply elem_of_nil in Ht]).
  exact H.
Qed.

(** The end of a word is where its first literal ends: the test for it holds at every token. *)
Lemma arithmWordSuffixBoundary_always p : token_ok p → arithmWordSuffixBoundary p = true.
Proof.
  intros [Hi _]. unfold arithmWordSuffixBoundary. case_match; [done|]. case_match; [done|].
  rewrite bool_decide_false; [done|]. intros Ht. rewrite Ht in Hi. by apply Hi, elem_of_cons; left.
Qed.
Lemma arithmContinueWord_id fuel x p :
  token_ok p → arithmContinueWord (S fuel) x p = Parsed x p.
Proof.
  intros Hok. unfold arithmContinueWord. rewrite bind_get. destruct x; try done. case_match; [|done].
  cbn [arithmWordSuffixEnd]. unfold mbind at 1, P_bind at 1. rewrite bind_get, arithmWordSuffixBoundary_always by done.
  simpl. unfold mret, P_ret, sourceRange. by rewrite Nat.sub_diag.
Qed.

Lemma arithmContinueWord_Parsed fuel x p y p' :
  token_ok p → arithmContinueWord fuel x p = Parsed y p' → y = x ∧ p' = p.
Proof.
  intros Hok H. destruct fuel as [|fuel]; [|rewrite arithmContinueWord_id in H by done; by simplify_eq].
  unfold arithmContinueWord in H. rewrite bind_get in H. destruct x; try (by injection H as -> ->).
  case_match; [done|by injection H as -> ->].
Qed.

(** One level up, from inside [arithmExprValue]. *)
Definition up (p : parser) : parser := set_nest p (nestDepth p - 1) (nestPeak p) (chainLinks p).
Definition sound_inner (m : P ArithmExpr) : Prop :=
  ∀ p e p', token_ok p → nestDepth p <= nestPeak p <= MaxNestingDepth → m p = Parsed e p' → reads 15 (up p) e (up p').

Lemma arithmExprValue_sound fuel : sound_inner (arithmExprValueNested fuel) → sound 15 (arithmExprValue (S fuel)).
Proof.
  intros Hin p e p' Hok Hpk H. cbn [arithmExprValue] in H. run_step H. run_step H. run_step H. run H. simplify_eq.
  apply enterNest_Parsed in E as (->&->&Hd). apply leaveNest_Parsed in E1 as ->.
  apply Hin in E0 as [?? ? ? ? ? ?]; [|done|simpl; lia]. simpl in *.
  split; try done; simpl; lia.
Qed.

Lemma arithmExprUnary_sound fuel :
  sound 14 (arithmExprUnary fuel) → sound 15 (arithmExprValue fuel) → sound 14 (arithmExprUnary (S fuel)).
Proof.
  intros Hu Hv p e p' Hok Hpk H. cbn [arithmExprUnary] in H. run_step H.
  apply got_newline_spec in E as (Ht&Hok1&(Hd1&Hk1&Hc1)&_); [|done]. run H. case_decide as Hin.
  - assert (tok q ≠ LitWord ∧ incdec_op (tok q) = false ∧ prefix_op (tok q) = true) as (Hw&Hid&Hp).
    { repeat (apply elem_of_cons in Hin as [->|Hin]; [done|]). by apply elem_of_nil in Hin. }
    run_step H. apply op_step in E as (Ht2&Hok2&Hd2&Hk2&Hc2); [|done].
    run_step H. apply enterNest_Parsed in E as (->&->&Hd). run_step H. apply Hu in E as [????? ? ?]; [|done|simpl; lia].
    run_step H. apply leaveNest_Parsed in E as ->. run_step H. apply required_Parsed in E as [? ->]. run H. simplify_eq.
    simpl in *. destruct rd_tree0 as [?|[??]]; [done|].
    split; cbn [arithExprSource need links level reading]; rewrite ?Hid; try done; try (simpl; lia).
    + rewrite strip_app, <- (assoc_L (++)). rewrite Ht, Ht2. f_equal. done.
    + right. unfold unary_level. split; [|lia]. rewrite Hp, !andb_true_iff, Nat.leb_le. by split_and!.
  - apply Hv in H as [????? ? ?]; [|done|lia]. split; try done; try lia; [by rewrite Ht|].
    destruct rd_tree0 as [?|[??]]; [by left|right]. split; [done|lia].
Qed.

Lemma arithmExprPower_sound fuel :
  sound 13 (arithmExprPower fuel) → sound 14 (arithmExprUnary fuel) → sound 13 (arithmExprPower (S fuel)).
Proof.
  intros Hp Hu p e p' Hok Hpk H. cbn [arithmExprPower] in H. run_step H. apply Hu in E as [????? ? ?]; [|done..].
  run H. case_decide as Hin.
  - run_step H. apply required_Parsed in E as [? ->]. run_step H.
    apply op_step in E as (Ht2&Hok2&Hd2&Hk2&Hc2); [|by rewrite Hin].
    run_step H. apply enterNest_Parsed in E as (->&->&Hd). run_step H. apply Hp in E as [????? ? ?]; [|done|simpl; lia].
    run_step H. apply leaveNest_Parsed in E as ->. run_step H. apply required_Parsed in E as [? ->]. run H. simplify_eq.
    simpl in *. destruct rd_tree0 as [?|[??]]; [done|]. destruct rd_tree1 as [?|[??]]; [done|]. rewrite Hin in *.
    split; cbn [arithExprSource need links level reading op_level]; try done; try (simpl; lia).
    + rewrite !strip_app, <- !(assoc_L (++)). rewrite rd_text0, Ht2. by do 2 f_equal.
    + right. split; [|done]. rewrite !andb_true_iff. split_and!; try done; by apply Nat.leb_le.
  - run H. simplify_eq. split; try done; try lia. destruct rd_tree0 as [?|[??]]; [by left|right]. split; [done|lia].
Qed.

Lemma arithmExprAssign_sound fuel :
  sound 1 (arithmExprAssign fuel) → sound 2 (arithmExprTernary fuel) → sound 1 (arithmExprAssign (S fuel)).
Proof.
  intros Ha Ht p e p' Hok Hpk H. cbn [arithmExprAssign] in H. run_step H. apply Ht in E as [????? ? ?]; [|done..].
  run H. case_decide as Hin.
  - assert (op_level (tok q) = Some (1%nat, Assignment)) as Hl.
    { destruct rd_ok0 as [Hbash _]. unfold assignOps in Hin. unfold not_bash in Hbash. revert Hin Hbash.
      rewrite !elem_of_cons, !elem_of_nil. destruct (tok q); simpl; try done; naive_solver. }
    run_step H. apply op_step in E as (Ht2&Hok2&Hd2&Hk2&Hc2); [|by eapply op_level_not_word].
    run_step H. apply enterNest_Parsed in E as (->&->&Hd). run_step H. apply Ha in E as [????? ? ?]; [|done|simpl; lia].
    run_step H. apply leaveNest_Parsed in E as ->. run_step H. apply required_Parsed in E as [? ->]. run H. simplify_eq.
    simpl in *. destruct rd_tree1 as [?|[??]]; [done|].
    split; cbn [arithExprSource need links level reading]; rewrite ?Hl; try done; try (simpl; lia).
    + rewrite !strip_app, <- !(assoc_L (++)). rewrite rd_text0, Ht2. by do 2 f_equal.
    + right. split; [|done]. rewrite !andb_true_iff, orb_true_iff, !andb_true_iff, bool_decide_eq_true.
      split_and!; [|done|by apply Nat.leb_le]. destruct rd_tree0 as [?|[??]]; [by left|right].
      split; [done|by apply Nat.leb_le].
  - run H. simplify_eq. split; try done; try lia. destruct rd_tree0 as [?|[??]]; [by left|right]. split; [done|lia].
Qed.

Lemma arithmExprTernary_sound fuel :
  sound 0 (arithmExpr fuel) → sound 2 (arithmExprTernary fuel) → sound 13 (arithmExprPower fuel) →
  sound 2 (arithmExprTernary (S fuel)).
Proof.
  intros H0 Ht Hp p e p' Hok Hpk H. cbn [arithmExprTernary] in H. run_step H.
  apply arithmExprLor_sound in E as [????? ? ?]; [|done..]. run H. case_decide as Hin.
  - run_step H. apply required_Parsed in E as [? ->]. run_step H. apply enterNest_Parsed in E as (->&->&Hd).
    run_step H. apply op_step in E as (Ht2&Hok2&Hd2&Hk2&Hc2); [|simpl; by rewrite Hin]. run H.
    run_step H. case_decide; [done|]. injection E as _ <-.
    run_step H. apply H0 in E as [????? ? ?]; [|done|simpl in *; lia].
    run_step H. apply required_Parsed in E as [? ->]. run H. run_step H. case_decide as Hc; [|done]. injection E as _ <-.
    run_step H. apply op_step in E as (Ht3&Hok3&Hd3&Hk3&Hc3); [|by rewrite Hc].
    run_step H. apply Ht in E as [????? ? ?]; [|done|simpl in *; lia].
    run_step H. apply required_Parsed in E as [? ->]. run_step H. apply leaveNest_Parsed in E as ->. run H. simplify_eq.
    simpl in *. rewrite pending_set_nest in *. rewrite Hin, Hc in *.
    destruct rd_tree0 as [?|[??]]; [done|]. destruct rd_tree1 as [?|[??]]; [done|]. destruct rd_tree2 as [?|[??]]; [done|].
    split; cbn [arithExprSource need links level reading op_level]; try done; try (simpl; lia).
    + rewrite !strip_app, <- !(assoc_L (++)). rewrite rd_text0, Ht2, rd_text1, Ht3, rd_text2. done.
    + right. split; [|done]. rewrite !andb_true_iff. split_and!; try done; by apply Nat.leb_le.
  - run H. simplify_eq. split; try done; try lia. destruct rd_tree0 as [?|[??]]; [by left|right]. split; [done|lia].
Qed.

(** The operators [++] and [--] behind a primary. *)
Lemma postfix_sound fuel p0 x p e p' :
  reads 15 (up p0) x (up p) → match x with AWord _ | ParenArithm _ => True | _ => False end →
  (x ← arithmContinueWord fuel x;
   got Newl;;
   q ← p_get;
   if decide (tok q ∈ [addAdd; subSub]) then nextArith;; mret (UnaryArithm (tok q) true x) else mret x) p = Parsed e p' →
  reads 15 (up p0) e (up p').
Proof.
  intros [????? ? ?] Hx H. simpl in *. 
  run_step H. apply arithmContinueWord_Parsed in E as [-> ->]; [|done].
  run_step H. apply got_newline_spec in E as (Ht&Hok1&(Hd1&Hk1&Hc1)&_); [|done]. run H. case_decide as Hin.
  - assert (tok q ≠ LitWord ∧ incdec_op (tok q) = true) as (Hw&Hid).
    { repeat (apply elem_of_cons in Hin as [->|Hin]; [done|]). by apply elem_of_nil in Hin. }
    run_step H. apply op_step in E as (Ht2&Hok2&Hd2&Hk2&Hc2); [|done]. run H. simplify_eq.
    assert (reading x = true) as Hr by (destruct rd_tree0 as [->|[??]]; done).
    split; cbn [arithExprSource need links level reading]; rewrite ?Hid; try done; try (simpl; lia).
    + unfold up. rewrite !pending_set_nest, strip_app, <- (assoc_L (++)), <- Ht2, <- Ht. done.
    + right. split; [|done]. rewrite Hr. destruct x; done.
  - run H. simplify_eq. split; try done; simpl; try lia. unfold up. rewrite !pending_set_nest, <- Ht. done.
Qed.

Lemma arithmExprValueNested_sound fuel :
  sound 0 (arithmExpr fuel) → sound 15 (arithmExprValue fuel) → sound_inner (arithmExprValueNested (S fuel)).
Proof.
  intros H0 Hv p e p' Hok Hpk H. cbn [arithmExprValueNested] in H. run H.
  assert (getNoWord p = Parsed e p' → reads 15 (up p) e (up p')) as Hno.
  { unfold getNoWord. clear H. intros H. run_step H. apply enterNest_Parsed in E as (->&->&Hd). run_step H.
    apply leaveNest_Parsed in E as ->. run H. simplify_eq.
    split; try done; try (by left); simpl; try lia. }
  assert (Hinc : ∀ op, tok p = op → incdec_op op = true →
    (nextArith;; x ← arithmExprValue fuel; required x FollowErrExp (pos p);; mret (UnaryArithm op false x)) p = Parsed e p' →
    reads 15 (up p) e (up p')).
  { intros op Hop Hid. clear H Hno. intros H.
    run_step H. apply op_step in E as (Ht2&Hok2&Hd2&Hk2&Hc2); [|by intros Hw; rewrite <- Hop, Hw in Hid].
    run_step H. apply Hv in E as [????? ? ?]; [|done|lia].
    run_step H. apply required_Parsed in E as [? ->]. run H. simplify_eq. destruct rd_tree0 as [?|[??]]; [done|].
    split; cbn [arithExprSource need links level reading]; rewrite ?Hid; try done; try (simpl; lia).
    - unfold up. rewrite !pending_set_nest, strip_app, <- (assoc_L (++)), <- rd_text0. done.
    - right. split; [|done]. rewrite andb_true_iff, Nat.leb_le. done. }
  destruct (tok p) eqn:Ht; try by apply Hno.
  - (* a word *)
    run_step H. pose proof E as (Hs&Hok2&(Hd2&Hk2&Hc2)&_)%next_spec. run H. case_decide; [done|].
    apply (postfix_sound fuel p) in H; [done| |done].
    split; cbn [arithExprSource need links level reading writeLiteral map concat]; try done; simpl; try lia.
    + unfold up. rewrite !pending_set_nest. unfold pending at 1. rewrite Ht, decide_True by done.
      rewrite strip_app, Hs, app_nil_r. done.
    + right. split; [|done]. by apply Hok.
  - (* parentheses *)
    run_step H. apply op_step in E as (Ht2&Hok2&Hd2&Hk2&Hc2); [|by rewrite Ht].
    run_step H. apply H0 in E as [????? ? ?]; [|done|lia]. run_step H. apply required_Parsed in E as [? ->].
    run_step H. unfold got in E. rewrite bind_get in E. case_decide as Hr; [|apply ret_Parsed in E as [<- <-]; by apply fail_Parsed in H].
    run_step E. run E. simplify_eq. pose proof E0 as (Hs&Hok3&(Hd3&Hk3&Hc3)&_)%next_spec.
    destruct rd_tree0 as [?|[??]]; [done|].
    apply (postfix_sound fuel p) in H; [done| |done].
    split; cbn [arithExprSource need links level reading]; try done; simpl; try lia; [|by right].
    unfold up. rewrite !pending_set_nest, !strip_app. rewrite Ht2, Ht, rd_text0. rewrite (pending_op q0), Hr by (by rewrite Hr).
    rewrite strip_app, Hs, <- !(assoc_L (++)). done.
  - by apply Hinc in H.
  - by apply Hinc in H.
Qed.

Lemma parser_sound fuel :
  sound 0 (arithmExpr fuel) ∧ sound 1 (arithmExprAssign fuel) ∧ sound 2 (arithmExprTernary fuel) ∧
  sound 13 (arithmExprPower fuel) ∧ sound 14 (arithmExprUnary fuel) ∧ sound 15 (arithmExprValue fuel) ∧
  sound_inner (arithmExprValueNested fuel).
Proof.
  induction fuel as [|fuel (H0&H1&H2&H13&H14&H15&Hn)]; [split_and!; by intros ?????|]. split_and!.
  - cbn [arithmExpr]. apply arithmExprBinary_sound; [done|].
    intros t ->%list_elem_of_singleton. done.
  - by apply arithmExprAssign_sound.
  - by apply arithmExprTernary_sound.
  - by apply arithmExprPower_sound.
  - by apply arithmExprUnary_sound.
  - by apply arithmExprValue_sound.
  - by apply arithmExprValueNested_sound.
Qed.

(** ** Termination *)

(** The end of a run from [p]: it answers, and has read on. *)
Definition ends {A} (p : parser) (o : outcome A) : Prop :=
  match o with
  | Parsed _ p' => token_ok p' ∧ (left_over p' <= left_over p)%nat
  | Failed _ => True
  | OutOfFuel => False
  end.
(** From a state with at most [b] steps of the lexer left, a run answers and reads on. *)
Definition total {A} (b : nat) (m : P A) : Prop :=
  ∀ p, token_ok p → (left_over p <= b)%nat → ends p (m p).
Definition same_tokens {A} (m : P A) : Prop :=
  ∀ p, match m p with Parsed _ p' => rest p' = rest p ∧ tok p' = tok p ∧ val p' = val p | Failed _ => True | OutOfFuel => False end.

Lemma total_bind {A B} b (m : P A) (k : A → P B) : total b m → (∀ a, total b (k a)) → total b (m ≫= k).
Proof.
  intros Hm Hk p Hok Hb. unfold mbind, P_bind. specialize (Hm p Hok Hb). destruct (m p) as [a p1| |]; [|done..].
  destruct Hm as [Hok1 Hl]. specialize (Hk a p1 Hok1 ltac:(lia)). destruct (k a p1) as [c p2| |]; [|done..].
  destruct Hk. split; [done|lia].
Qed.
Lemma total_get {A} b (k : parser → P A) :
  (∀ q p, token_ok p → (left_over p <= b)%nat → q = p → ends p (k q p)) → total b (p_get ≫= k).
Proof. intros H p ??. rewrite bind_get. by apply H. Qed.
Lemma total_ret {A} b (a : A) : total b (mret a : P A).
Proof. intros p Hok Hb. by split. Qed.
Lemma total_fail {A} b k at_ : total b (p_fail k at_ : P A).
Proof. done. Qed.
Lemma total_same {A} b (m : P A) : same_tokens m → total b m.
Proof.
  intros Hm p [Hi Hw] Hb. specialize (Hm p). destruct (m p) as [a p'| |]; [|done..]. destruct Hm as (Hr&Ht&Hv).
  unfold ends, token_ok, left_over. rewrite Hr, Ht, Hv. done.
Qed.
Lemma total_required b e k at_ : total b (required e k at_).
Proof. unfold required. case_decide; [apply total_fail|apply total_ret]. Qed.
Lemma total_enterNest b : total b enterNest.
Proof. apply total_same. intros p. unfold enterNest. by destruct (MaxNestingDepth <=? nestDepth p). Qed.
Lemma total_leaveNest b d : total b (leaveNest d).
Proof. by apply total_same. Qed.
Lemma total_addChainLink b : total b addChainLink.
Proof. by apply total_same. Qed.
Lemma total_weaken {A} b c (m : P A) : (b <= c)%nat → total c m → total b m.
Proof. intros Hbc H p Hok Hb. apply H; [done|lia]. Qed.

(** A step behind a token that is not the end: what follows has less to read. *)
Lemma total_step {A} b (m : P unit) (k : unit → P A) p :
  (∀ u p', m p = Parsed u p' → token_ok p' ∧ (tok p ≠ EOF → left_over p' < left_over p)%nat) → m p ≠ OutOfFuel →
  tok p ≠ EOF → (left_over p <= S b)%nat → (∀ u, total b (k u)) → ends p ((m ≫= k) p).
Proof.
  intros Hm Hne He Hb Hk. unfold mbind, P_bind. destruct (m p) as [u p1| |] eqn:E; [|done..].
  destruct (Hm _ _ eq_refl) as [Hok Hl]. specialize (Hl He). specialize (Hk u p1 Hok ltac:(lia)).
  destruct (k u p1) as [a p2| |]; [|done..]. destruct Hk. split; [done|lia].
Qed.
Lemma next_fuel p : next p ≠ OutOfFuel.
Proof. unfold next. by case_match. Qed.
Lemma got_fuel t p : got t p ≠ OutOfFuel.
Proof.
  unfold got. rewrite bind_get. case_decide; [|done]. unfold mbind, P_bind. pose proof (next_fuel p).
  by destruct (next p).
Qed.
Lemma nextArith_fuel p : nextArith p ≠ OutOfFuel.
Proof.
  unfold nextArith, mbind, P_bind. pose proof (next_fuel p). destruct (next p) as [u p1| |]; [|done..].
  pose proof (got_fuel Newl p1). by destruct (got Newl p1).
Qed.
Lemma total_nextArith {A} b (k : unit → P A) p :
  tok p ≠ EOF → (left_over p <= S b)%nat → (∀ u, total b (k u)) → ends p ((nextArith ≫= k) p).
Proof.
  apply total_step; [|apply nextArith_fuel]. intros u p' (?&?&?&?)%nextArith_spec. done.
Qed.
Lemma total_got_newline b : total b (got Newl).
Proof.
  intros p Hok Hb. pose proof (got_fuel Newl p). destruct (got Newl p) as [u p'| |] eqn:E; [|done..].
  by apply got_newline_spec in E as (?&?&?&?).
Qed.

Lemma op_not_eof t l a : op_level t = Some (l, a) → t ≠ EOF.
Proof. by intros H ->. Qed.
Lemma left_over_pos p : tok p ≠ EOF → (1 <= left_over p)%nat.
Proof. intros H. unfold left_over. rewrite decide_False by done. case_decide; lia. Qed.

(** Checks on the way. *)
Lemma ends_required {A} p e k at_ (f : unit → P A) : ends p (f tt p) → ends p ((required e k at_ ≫= f) p).
Proof. intros H. unfold required. by case_decide. Qed.
Lemma ends_check {A} p (Q : Prop) `{Decision Q} k at_ (f : unit → P A) :
  (¬ Q → ends p (f tt p)) → ends p (((if decide Q then p_fail k at_ else mret tt) ≫= f) p).
Proof. intros H0. case_decide; [done|by apply H0]. Qed.
Lemma ends_check' {A} p (Q : Prop) `{Decision Q} k at_ (f : unit → P A) :
  (Q → ends p (f tt p)) → ends p (((if decide Q then mret tt else p_fail k at_) ≫= f) p).
Proof. intros H0. case_decide; [by apply H0|done]. Qed.
Lemma ends_enterNest {A} p (f : Z → P A) :
  (∀ d p', rest p' = rest p → tok p' = tok p → val p' = val p → ends p' (f d p')) → ends p ((enterNest ≫= f) p).
Proof.
  intros H. unfold mbind, P_bind, enterNest. destruct (MaxNestingDepth <=? nestDepth p); [done|]. exact (H _ (set_nest _ _ _ _) eq_refl eq_refl eq_refl).
Qed.
Lemma ends_get {A} p (f : parser → P A) : ends p (f p p) → ends p ((p_get ≫= f) p).
Proof. done. Qed.
Lemma ends_next {A} b p (k : unit → P A) :
  tok p ≠ EOF → (left_over p <= b)%nat → (∀ u c, S c = b → total c (k u)) → ends p ((nextArith ≫= k) p).
Proof.
  intros He Hb Hk. pose proof (left_over_pos p He). destruct b as [|b]; [lia|].
  apply (total_nextArith b); [done..|]. intros u. by apply Hk.
Qed.

(** What every operator does with its right operand. *)
Lemma total_operand {B} b (m : P ArithmExpr) at_ (f : ArithmExpr → P B) :
  total b m → (∀ y, total b (f y)) →
  total b (d ← enterNest; y ← m; leaveNest d;; required y FollowErrExp at_;; f y).
Proof.
  intros Hm Hf. apply total_bind; [apply total_enterNest|]. intros d. apply total_bind; [done|]. intros y.
  apply total_bind; [apply total_leaveNest|]. intros _. apply total_bind; [apply total_required|]. intros _. apply Hf.
Qed.

Lemma binaryLoop_total b m ops fuel c value :
  total b m → EOF ∉ ops → (c <= b)%nat → (c < fuel)%nat → total c (binaryLoop fuel m ops value).
Proof.
  intros Hm Hops. revert c value. induction fuel as [|fuel IH]; intros c value Hcb Hcf; [lia|]. cbn [binaryLoop].
  apply total_get. intros q p Hok Hl ->. case_decide as Hin; [|by split].
  apply ends_required, (ends_next c); [by intros He; rewrite He in Hin|done|]. intros _ c' <-.
  apply total_bind; [apply (total_weaken _ b); [lia|done]|]. intros y.
  apply total_bind; [apply total_required|]. intros _.
  apply total_bind; [apply total_addChainLink|]. intros _. apply IH; lia.
Qed.
Lemma arithmExprBinary_total b fuel m ops :
  total b m → EOF ∉ ops → (b < fuel)%nat → total b (arithmExprBinary fuel m ops).
Proof. intros Hm Hops Hf. apply total_bind; [done|]. intros value. by apply (binaryLoop_total b). Qed.

Lemma in_not_eof (t : token) (ops : list token) : t ∈ ops → bool_decide (EOF ∈ ops) = false → t ≠ EOF.
Proof. intros H He%not_elem_of_bool ->. done. Qed.
Lemma arithmExprLor_total b fuel m : total b m → (b < fuel)%nat → total b (arithmExprLor fuel m).
Proof.
  intros H Hf. unfold arithmExprLor, arithmExprLand, arithmExprBor, arithmExprBxor, arithmExprBand, arithmExprEquality,
    arithmExprComparison, arithmExprShift, arithmExprAddition, arithmExprMultiplication.
  do 10 (apply arithmExprBinary_total; [|by apply not_elem_of_bool|done]). exact H.
Qed.

(** Every call may spend a unit of fuel; what is called at the same token gets the rest. *)
Lemma arithmExprAssign_total b fuel :
  total b (arithmExprTernary fuel) → (∀ c, S c = b → total c (arithmExprAssign fuel)) → total b (arithmExprAssign (S fuel)).
Proof.
  intros Ht Ha. cbn [arithmExprAssign]. apply total_bind; [done|]. intros value. apply total_get. intros q p Hok Hl ->.
  case_decide as Hin; [|by split]. apply (ends_next b); [by eapply in_not_eof|done|]. intros _ c Hc.
  apply total_operand; [by apply Ha|]. intros y. apply total_ret.
Qed.
Lemma arithmExprPower_total b fuel :
  total b (arithmExprUnary fuel) → (∀ c, S c = b → total c (arithmExprPower fuel)) → total b (arithmExprPower (S fuel)).
Proof.
  intros Ht Ha. cbn [arithmExprPower]. apply total_bind; [done|]. intros value. apply total_get. intros q p Hok Hl ->.
  case_decide as Hin; [|by split]. apply ends_required, (ends_next b); [by rewrite Hin|done|]. intros _ c Hc.
  apply total_operand; [by apply Ha|]. intros y. apply total_ret.
Qed.
Lemma arithmExprUnary_total b fuel :
  total b (arithmExprValue fuel) → (∀ c, S c = b → total c (arithmExprUnary fuel)) → total b (arithmExprUnary (S fuel)).
Proof.
  intros Ht Ha. cbn [arithmExprUnary]. apply total_bind; [apply total_got_newline|]. intros _.
  apply total_get. intros q p Hok Hl ->. case_decide as Hin; [|by apply Ht].
  apply (ends_next b); [by eapply in_not_eof|done|]. intros _ c Hc.
  apply total_operand; [by apply Ha|]. intros y. apply total_ret.
Qed.
Lemma arithmExprTernary_total b fuel :
  total b (arithmExprPower fuel) → (b < fuel)%nat → (∀ c, (S c <= b)%nat → total c (arithmExpr fuel)) →
  (∀ c, (S c <= b)%nat → total c (arithmExprTernary fuel)) → total b (arithmExprTernary (S fuel)).
Proof.
  intros Hp Hf H0 Ht. cbn [arithmExprTernary]. apply total_bind; [by apply arithmExprLor_total|]. intros value.
  apply total_get. intros q p Hok Hl ->. case_decide as Hin; [|by split].
  apply ends_required, ends_enterNest. intros d p1 Hr1 Ht1 Hv1.
  apply (ends_next b); [by rewrite Ht1, Hin|unfold left_over in *; by rewrite Hr1, Ht1|]. intros _ c Hc.
  apply total_get. intros q p2 Hok2 Hl2 _. apply ends_check. intros _. revert p2 Hok2 Hl2.
  apply total_bind; [apply H0; lia|]. intros t. apply total_bind; [apply total_required|]. intros _.
  apply total_get. intros q2 p2 Hok2 Hl2 ->. apply ends_check'. intros Hcol.
  apply (ends_next c); [by rewrite Hcol|done|]. intros _ c2 Hc2.
  apply total_bind; [apply Ht; lia|]. intros f. apply total_bind; [apply total_required|]. intros _.
  apply total_bind; [apply total_leaveNest|]. intros _. apply total_ret.
Qed.
Lemma arithmExprValue_total b fuel : total b (arithmExprValueNested fuel) → total b (arithmExprValue (S fuel)).
Proof.
  intros H. apply total_bind; [apply total_enterNest|]. intros d. apply total_bind; [done|]. intros x.
  apply total_bind; [apply total_leaveNest|]. intros _. apply total_ret.
Qed.
Lemma ends_step {A} b p (m : P unit) (k : unit → P A) :
  (∀ u p', m p = Parsed u p' → token_ok p' ∧ (tok p ≠ EOF → left_over p' < left_over p)%nat) → m p ≠ OutOfFuel →
  tok p ≠ EOF → (left_over p <= b)%nat → (∀ u c, S c = b → total c (k u)) → ends p ((m ≫= k) p).
Proof.
  intros Hm Hf He Hb Hk. pose proof (left_over_pos p He). destruct b as [|b]; [lia|].
  apply (total_step b); [done..|]. intros u. by apply Hk.
Qed.
Lemma next_step p u p' : next p = Parsed u p' → token_ok p' ∧ (tok p ≠ EOF → left_over p' < left_over p)%nat.
Proof. by intros (?&?&?&?)%next_spec. Qed.

Lemma postfix_total b fuel x :
  total b (x ← arithmContinueWord (S fuel) x;
           got Newl;;
           q ← p_get;
           if decide (tok q ∈ [addAdd; subSub]) then nextArith;; mret (UnaryArithm (tok q) true x) else mret x).
Proof.
  intros p Hok Hb. unfold mbind at 1, P_bind at 1. rewrite arithmContinueWord_id by done. revert p Hok Hb.
  change (total b (got Newl;; q ← p_get; if decide (tok q ∈ [addAdd; subSub]) then nextArith;; mret (UnaryArithm (tok q) true x) else mret x)).
  apply total_bind; [apply total_got_newline|]. intros _. apply total_get. intros q p Hok Hl ->.
  case_decide as Hin; [|by split]. apply (ends_next b); [by eapply in_not_eof|done|]. intros _ c _. apply total_ret.
Qed.

Lemma arithmExprValueNested_total b fuel :
  (b <= fuel)%nat → (∀ c, (S c <= b)%nat → total c (arithmExpr fuel)) →
  (∀ c, (S c <= b)%nat → total c (arithmExprValue fuel)) → total b (arithmExprValueNested (S fuel)).
Proof.
  intros Hf H0 Hv. cbn [arithmExprValueNested]. apply total_get. intros q p Hok Hl ->.
  assert (ends p (getNoWord p)) as Hno.
  { apply ends_enterNest. intros d p' Hr Ht Hval. split; [|done]. destruct Hok as [Hi Hw].
    split; unfold leaveNest, set_nest; simpl; rewrite ?Hr, ?Ht, ?Hval; done. }
  assert (∀ op, tok p ≠ EOF →
    ends p ((nextArith;; x ← arithmExprValue fuel; required x FollowErrExp (pos p);; mret (UnaryArithm op false x)) p)) as Hinc.
  { intros op He. apply (ends_next b); [done..|]. intros _ c Hc. apply total_bind; [apply Hv; lia|]. intros x.
    apply total_bind; [apply total_required|]. intros _. apply total_ret. }
  destruct (tok p) eqn:Ht; try exact Hno; try done; try (by apply Hinc).
  - pose proof (left_over_pos p ltac:(by rewrite Ht)). destruct fuel as [|fuel]; [lia|].
    apply (ends_step b); [apply next_step|apply next_fuel|by rewrite Ht|done|]. intros _ c Hc.
    apply total_get. intros q2 p2 Hok2 Hl2 ->. case_decide; [done|]. by apply (postfix_total c).
  - pose proof (left_over_pos p ltac:(by rewrite Ht)). destruct fuel as [|fuel]; [lia|].
    apply (ends_next b); [by rewrite Ht|done|]. intros _ c Hc.
    apply total_bind; [apply H0; lia|]. intros x. apply total_bind; [apply total_required|]. intros _.
    apply total_bind; [|intros [|]; [apply postfix_total|apply total_fail]].
    intros p2 Hok2 Hl2. unfold got. apply ends_get. case_decide as Hr; [|by split].
    apply (ends_step c); [apply next_step|apply next_fuel|by rewrite Hr|done|]. intros _ c2 _. apply total_ret.
Qed.

Lemma parser_total fuel b :
  ((7 * b + 1 <= fuel)%nat → total b (arithmExprValueNested fuel)) ∧
  ((7 * b + 2 <= fuel)%nat → total b (arithmExprValue fuel)) ∧
  ((7 * b + 3 <= fuel)%nat → total b (arithmExprUnary fuel)) ∧
  ((7 * b + 4 <= fuel)%nat → total b (arithmExprPower fuel)) ∧
  ((7 * b + 5 <= fuel)%nat → total b (arithmExprTernary fuel)) ∧
  ((7 * b + 6 <= fuel)%nat → total b (arithmExprAssign fuel)) ∧
  ((7 * b + 7 <= fuel)%nat → total b (arithmExpr fuel)).
Proof.
  revert b. induction fuel as [|fuel IH]; intros b; [split_and!; lia|]. split_and!; intros Hf.
  - apply arithmExprValueNested_total; [lia|intros c Hc; apply IH; lia..].
  - apply arithmExprValue_total. apply IH. lia.
  - apply arithmExprUnary_total; [apply IH; lia|]. intros c Hc. apply IH. lia.
  - apply arithmExprPower_total; [apply IH; lia|]. intros c Hc. apply IH. lia.
  - apply arithmExprTernary_total; [apply IH; lia|lia|intros c Hc; apply IH; lia..].
  - apply arithmExprAssign_total; [apply IH; lia|]. intros c Hc. apply IH. lia.
  - apply arithmExprBinary_total; [apply IH; lia|by apply not_elem_of_bool|lia].
Qed.

(** The end of the parse: the tree is measured, and no token may be left. *)
Lemma checkTreeDepth_cases e p :
  checkTreeDepth e p = Parsed tt p ∧ (nestPeak p + chainLinks p < treeCheckThreshold ∨ nodeDepth e <= MaxTreeDepth) ∨
  checkTreeDepth e p = Failed (MkParseError TreeDepth []) ∧ MaxTreeDepth < nodeDepth e.
Proof.
  unfold checkTreeDepth. rewrite bind_get.
  destruct (Z.ltb_spec (nestPeak p + chainLinks p) treeCheckThreshold); [by auto|].
  destruct (Z.ltb_spec MaxTreeDepth (nodeDepth e)); auto.
Qed.
Definition at_end (e : ArithmExpr) (p : parser) : outcome ArithmExpr :=
  if decide (tok p = EOF) then Parsed e p
  else match tok p with
       | leftBrack => p_fail MustFollowName (pos p)
       | colon => p_fail TernaryMissingQuest (pos p)
       | _ => p_fail NotOperator (pos p)
       end p.
Lemma Arithmetic_run fuel p0 :
  Arithmetic_ fuel p0 =
  match (next;; arithmExpr fuel) p0 with
  | Parsed e p => match checkTreeDepth e p with Parsed _ p' => at_end e p' | Failed err => Failed err | OutOfFuel => OutOfFuel end
  | Failed err => Failed err
  | OutOfFuel => OutOfFuel
  end.
Proof.
  unfold Arithmetic_, mbind, P_bind. destruct (next p0) as [u p1| |]; [|done..].
  destruct (arithmExpr fuel p1) as [e p2| |]; [|done..]. destruct (checkTreeDepth e p2) as [v p3| |]; [|done..].
  unfold p_get, at_end. by case_decide.
Qed.
Lemma at_end_fuel e p : at_end e p ≠ OutOfFuel.
Proof. unfold at_end. case_decide; [done|]. by destruct (tok p). Qed.
Lemma at_end_Parsed e p e' p' : at_end e p = Parsed e' p' → e' = e ∧ p' = p ∧ tok p = EOF.
Proof. unfold at_end. case_decide; [by intros [= -> ->]|]. by destruct (tok p). Qed.

Lemma next_new_parser src u p : next (new_parser src) = Parsed u p →
  strip src = strip (pending p) ∧ token_ok p ∧ nestDepth p = 0 ∧ nestPeak p = 0 ∧ chainLinks p = 0 ∧
  (left_over p <= 2 * length src + 2)%nat.
Proof.
  intros (Hs&?&(?&?&?)&Hl)%next_spec. specialize (Hl ltac:(done)). split_and!; try done.
  change (2 * length src + 2)%nat with (left_over (new_parser src)). lia.
Qed.

Lemma Arithmetic_enough src : Arithmetic src ≠ None.
Proof.
  unfold Arithmetic. rewrite Arithmetic_run. unfold mbind, P_bind.
  destruct (next (new_parser src)) as [u p1| |] eqn:E; [|done|by apply next_fuel in E].
  apply next_new_parser in E as (_&Hok&_&_&_&Hl).
  assert (total (left_over p1) (arithmExpr (parse_fuel src))) as Ht by (apply parser_total; unfold parse_fuel; lia).
  specialize (Ht p1 Hok ltac:(done)). destruct (arithmExpr (parse_fuel src) p1) as [e p2| |]; [|done..].
  destruct (checkTreeDepth_cases e p2) as [[-> _]|[-> _]]; [|done].
  pose proof (at_end_fuel e p2). by destruct (at_end e p2).
Qed.

(** ** The depth of a tree *)

(** Apart from the nesting and the chains, a tree is only as deep as there are kinds of operators. *)
Definition slack (l : nat) : Z :=
  if (14 <=? l)%nat then 1 else if (3 <=? l)%nat then 2 else if (2 <=? l)%nat then 3 else 4.
Lemma slack_anti l k : (l <= k)%nat → slack k <= slack l.
Proof. intros H. unfold slack. repeat case_match; try lia; rewrite ?Nat.leb_le, ?Nat.leb_gt in *; lia. Qed.
Lemma slack_range l : 1 <= slack l <= 4.
Proof. unfold slack. repeat case_match; lia. Qed.

Lemma op_level_range t l a : op_level t = Some (l, a) →
  match a with
  | LeftAssoc => (l <= 12)%nat ∧ slack l = slack (S l)
  | RightAssoc => l = 13%nat
  | Assignment => l = 1%nat
  | Conditional => l = 2%nat ∧ t = quest
  end.
Proof. destruct t; simpl; intros; simplify_eq; first [done|split; [lia|done]]. Qed.

Definition depth_ok (e : ArithmExpr) : Prop :=
  1 <= need e ∧ 0 <= links e ∧ nodeDepth e <= 5 * need e + links e + slack (level e).
Lemma nodeDepth_bound e : reading e = true → depth_ok e.
Proof.
  revert e. fix IH 1. intros e. unfold depth_ok. destruct e as [|w|op x y|op post x|x]; cbn [reading]; [done|..].
  - destruct w as [|[v| | | | | |] [|]]; done.
  - pose proof (IH x) as IHx. pose proof (IH y) as IHy. cbn [need links nodeDepth level].
    destruct (op_level op) as [[l a]|] eqn:Hl; [|done]. pose proof (op_level_range _ _ _ Hl) as Hr.
    pose proof (slack_range l). unfold depth_ok in *. destruct a; intros Hrd.
    + destruct Hr as [? Hsl]. to_prop. rewrite ?Nat.leb_le in *. pose proof (slack_anti l (level x) ltac:(done)). pose proof (slack_anti (S l) (level y) ltac:(done)).
      specialize (IHx ltac:(done)). specialize (IHy ltac:(done)). lia.
    + subst l. to_prop. rewrite ?Nat.leb_le in *. pose proof (slack_anti 14 (level x) ltac:(done)). pose proof (slack_range (level y)).
      change (slack 14) with 1 in *. change (slack 13) with 2 in *.
      specialize (IHx ltac:(done)). specialize (IHy ltac:(done)). lia.
    + subst l. change (slack 1) with 4 in *. apply andb_prop in Hrd as [[Hx Hy]%andb_prop Hly%Nat.leb_le]. specialize (IHy ltac:(done)). pose proof (slack_range (level y)).
      apply orb_true_iff in Hx as [->%bool_decide_eq_true_1|[Hx' Hlx]%andb_prop]; [simpl; lia|].
      apply Nat.leb_le in Hlx. pose proof (slack_anti 2 (level x) Hlx). change (slack 2) with 3 in *.
      specialize (IHx Hx'). lia.
    + destruct Hr as [-> ->]. destruct y as [| |[] t f| |]; try done. to_prop. rewrite ?Nat.leb_le in *.
      pose proof (IH t ltac:(done)) as IHt. pose proof (IH f ltac:(done)) as IHf. clear IHy. unfold depth_ok in *.
      specialize (IHx ltac:(done)). cbn [need links nodeDepth op_level].
      pose proof (slack_anti 3 (level x) ltac:(done)). pose proof (slack_range (level t)). pose proof (slack_range (level f)).
      change (slack 3) with 2 in *. change (slack 2) with 3 in *. lia.
  - pose proof (IH x) as IHx. unfold depth_ok in IHx. intros [Hx H]%andb_prop. specialize (IHx Hx).
    pose proof (slack_range (level x)). cbn [need links nodeDepth level].
    destruct (incdec_op op); [|to_prop; subst; rewrite ?Nat.leb_le in *;
      pose proof (slack_anti 14 (level x) ltac:(done)); change (slack 14) with 1 in *; change (slack unary_level) with 1; lia].
    change (slack primary_level) with 1. destruct post; [|lia]. destruct x as [|w| | |y]; try done.
    + destruct w as [|? [|]]; cbn [nodeDepth need links] in *; lia.
    + destruct (IH y Hx) as (?&?&?). pose proof (slack_range (level y)). cbn [nodeDepth need links] in *. lia.
  - intros Hx. destruct (IH x Hx) as (?&?&?). pose proof (slack_range (level x)). cbn [nodeDepth need links level].
    change (slack primary_level) with 1. lia.
Qed.

(** A tree that the parser answers is never too deep: only where the chains and the nesting are short the
    measure is skipped. *)
Lemma tree_depth_ok p e p' :
  reads 0 p e p' → nestDepth p = 0 → chainLinks p = 0 →
  nestPeak p' + chainLinks p' < treeCheckThreshold ∨ nodeDepth e <= MaxTreeDepth → nodeDepth e <= MaxTreeDepth.
Proof.
  intros [?? ? Htree Hneed ? Hlinks] Hd Hc [Hlt|]; [|done]. destruct Htree as [->|[Hr _]]; [done|].
  pose proof (nodeDepth_bound e Hr) as (?&?&?). pose proof (slack_range (level e)).
  unfold treeCheckThreshold, MaxTreeDepth in *. lia.
Qed.
