(* ===== verification/ArithPrint.v ===== *)
(** The source text of an expression is read back as that expression. *)
From S2P Require Import Prelude GoUtf8 ArithSyntax ArithGrammar ArithSound.

(** ** The lexer on printed text *)

Definition no_blank (s : gostr) : Prop := match s with c :: _ => blank c = false | [] => True end.
(** What may stand behind a literal. *)
Definition delimited (s : gostr) : Prop :=
  match s with c :: _ => lit_break c = true ∧ blank c = false | [] => True end.

(** The token a text starts with. *)
Definition first_token (s : gostr) : option (token * gostr * gostr) :=
  match s with [] => Some (EOF, [], []) | c :: s' => lexTok c s' end.

Lemma no_blank_cons c s : no_blank (c :: s) ↔ blank c = false.
Proof. done. Qed.
Lemma delimited_no_blank s : delimited s → no_blank s.
Proof. destruct s; [done|]. by intros [_ ?]. Qed.

Lemma lit_char_break c : lit_char c = true → lit_break c = false ∧ foreign_byte c = false.
Proof. unfold lit_char. by intros [?%negb_true_iff ?%negb_true_iff]%andb_prop. Qed.

Lemma advanceLitOther_app v s : forallb lit_char v = true → delimited s → advanceLitOther (v ++ s) = Some (v, s).
Proof.
  intros Hv Hs. induction v as [|c v IH]; cbn [app].
  - destruct s as [|c s]; [done|]. destruct Hs as [Hb _]. cbn [advanceLitOther]. by rewrite Hb.
  - cbn [forallb] in Hv. apply andb_prop in Hv as [[Hb Hf]%lit_char_break Hv].
    cbn [advanceLitOther app]. by rewrite Hb, Hf, IH.
Qed.

Lemma first_token_word v s : lit_value v = true → delimited s → first_token (v ++ s) = Some (LitWord, v, s).
Proof.
  intros Hv Hs. destruct v as [|c v]; [done|]. unfold lit_value in Hv.
  apply orb_true_iff in Hv as [[= -> ->]%bool_decide_eq_true_1|[Hv Ho%negb_true_iff]%andb_prop]; [done|].
  cbn [first_token app]. unfold lexTok. pose proof Hv as [[Hb Hf]%lit_char_break _]%andb_prop. rewrite Hf, Ho.
  destruct (Ascii.eqb_spec c (byte_of 13)) as [->|_]; [by vm_compute in Hb|].
  change (c :: v ++ s) with ((c :: v) ++ s). by rewrite advanceLitOther_app.
Qed.

(** What an operand starts with cannot be read as a part of the operator before it, but for a sign
    behind the same sign. *)
Definition operand_start (s : gostr) : Prop :=
  forallb (fun c => negb (starts c s)) (go "=*&|<>^") = true.

(** The operators that stand before an operand; before those of the second kind an assignment to nothing
    may stand. *)
Definition before_operand (t : token) : bool :=
  match op_level t with Some _ => true | None => prefix_op t || bool_decide (t = colon) end.
Definition before_any (t : token) : bool :=
  match op_level t with Some (l, _) => (l <=? 2)%nat | None => bool_decide (t ∈ [colon; leftParen]) end.
(** Those that stand behind an operand or are brackets. *)
Definition closing (t : token) : bool := incdec_op t || bool_decide (t ∈ [leftParen; rightParen]).

Lemma first_token_op t s :
  before_operand t = true → operand_start s → glued t s = false → first_token (token_text t ++ s) = Some (t, [], s).
Proof.
  intros Ht Hs Hg. unfold operand_start in Hs. cbn [forallb go String.list_ascii_of_string] in Hs.
  rewrite !andb_true_iff, !negb_true_iff in Hs. destruct Hs as (He&Hst&Ham&Hba&Hl&Hgt&Hc&_).
  destruct t; try discriminate Ht; cbn [token_text go String.list_ascii_of_string app first_token];
    cbn [glued] in Hg; unfold lexTok; cbn -[starts]; rewrite ?He, ?Hst, ?Ham, ?Hba, ?Hl, ?Hgt, ?Hc, ?Hg; done.
Qed.
Lemma first_token_any t s :
  before_any t = true → glued t s = false → first_token (token_text t ++ s) = Some (t, [], s).
Proof.
  intros Ht Hg. destruct t; try discriminate Ht; cbn [token_text go String.list_ascii_of_string app first_token];
    cbn [glued] in Hg; unfold lexTok; cbn -[starts]; rewrite ?Hg; done.
Qed.
Lemma first_token_closing t s : closing t = true → first_token (token_text t ++ s) = Some (t, [], s).
Proof. by destruct t. Qed.

(** ** The parser at a place of the text *)

(** The parser has read the token that [s] starts with. *)
Definition at_text (s : gostr) (p : parser) : Prop :=
  no_blank s ∧ ∃ v, first_token s = Some (tok p, v, rest p) ∧ (tok p = LitWord → val p = v).

Lemma at_text_not_newline s p : at_text s p → tok p ≠ Newl.
Proof.
  intros (Hb&v&H&_). destruct s as [|c s]; [by injection H as <- _ _|].
  by apply lexTok_spec in H as (_&_&?&_).
Qed.
Lemma at_text_token s p t v r : at_text s p → first_token s = Some (t, v, r) → tok p = t ∧ rest p = r.
Proof. intros (_&w&H&_) H'. rewrite H in H'. by simplify_eq. Qed.
Lemma at_text_word s p v r : at_text s p → first_token s = Some (LitWord, v, r) → tok p = LitWord ∧ val p = v ∧ rest p = r.
Proof. intros (_&w&H&Hv) H'. rewrite H in H'. simplify_eq. by rewrite Hv. Qed.
Lemma at_text_same s p p' : at_text s p → tok p' = tok p → rest p' = rest p → val p' = val p → at_text s p'.
Proof. intros (?&v&?&?) Ht Hr Hv. split; [done|]. exists v. by rewrite Ht, Hr, Hv. Qed.

Lemma next_at_text p s t v r :
  rest p = s → no_blank s → first_token s = Some (t, v, r) →
  ∃ p', next p = Parsed tt p' ∧ at_text s p' ∧ nestDepth p' = nestDepth p.
Proof.
  intros Hr Hb Ht. unfold next, next_token. rewrite Hr. destruct s as [|c s].
  - simpl in Ht. simplify_eq. eexists. split_and!; [done|split; [done|]|done]. by exists [].
  - simpl in Hb. unfold blank in Hb. apply orb_false_iff in Hb as [Hsp Hnl].
    cbn [skipSpace]. rewrite Hsp, Hnl. cbn [first_token] in Ht. rewrite Ht. simpl. eexists. split_and!; [done|split|done].
    + simpl. unfold blank. by rewrite Hsp, Hnl.
    + exists v. split; [done|]. simpl. intros ->. by rewrite decide_True.
Qed.
Lemma got_newline_at_text s p : at_text s p → got Newl p = Parsed false p.
Proof. intros H%at_text_not_newline. unfold got. rewrite bind_get. by rewrite decide_False. Qed.
Lemma nextArith_at_text p s t v r :
  rest p = s → no_blank s → first_token s = Some (t, v, r) →
  ∃ p', nextArith p = Parsed tt p' ∧ at_text s p' ∧ nestDepth p' = nestDepth p.
Proof.
  intros Hr Hb Ht. destruct (next_at_text p s t v r Hr Hb Ht) as (p'&Hn&Hat&Hd). exists p'. split_and!; [|done..].
  unfold nextArith, mbind, P_bind. by rewrite Hn, (got_newline_at_text s).
Qed.

(** ** Printed expressions *)

(** Behind an expression of level [l] there is the end, a closing token or an operator that binds
    less tightly. *)
Definition stops (l : nat) (t : token) : Prop :=
  match op_level t with Some (k, _) => (k < l)%nat | None => t ∉ not_bash ++ [addAdd; subSub; leftBrack; LitWord] end.
Definition stop (l : nat) (s : gostr) : Prop :=
  delimited s ∧ ∃ t v r, first_token s = Some (t, v, r) ∧ stops l t.

Lemma stop_weaken l k s : (l <= k)%nat → stop l s → stop k s.
Proof.
  intros Hle (?&t&v&r&?&Ht). split; [done|]. exists t, v, r. split; [done|].
  unfold stops in *. destruct (op_level t) as [[? ?]|]; [lia|done].
Qed.

(** A token that is a delimiter. *)
Lemma delimited_op t s : token_text t ≠ [] → t ≠ hash → delimited (token_text t ++ s).
Proof. intros H1 H2. destruct t; try (by destruct H1); try (by destruct H2); done. Qed.

(** What an expression starts with. *)
Lemma operand_start_lit c s : lit_char c = true ∨ c = byte_of 13 →
  operand_start (c :: s) ∧ blank c = false ∧ starts ":" (c :: s) = false.
Proof.
  intros [[Hb Hf]%lit_char_break| ->]; [|done]. unfold operand_start. cbn [forallb go String.list_ascii_of_string starts].
  rewrite !andb_true_iff, !negb_true_iff. unfold blank.
  assert (∀ d, lit_break d = true → Ascii.eqb c d = false) as Hne.
  { intros d Hd. destruct (Ascii.eqb_spec c d); [congruence|done]. }
  rewrite !orb_false_iff. split_and!; by try apply Hne.
Qed.

Definition no_blank_colon (s : gostr) : Prop := no_blank s ∧ starts ":" s = false.
Lemma reading_start e : reading e = true → ∀ s,
  no_blank_colon (arithExprSource e ++ s) ∧ ((2 <= level e)%nat → operand_start (arithExprSource e ++ s)).
Proof.
  revert e. fix IH 1. intros [|w|op x y|op post x|x] H s; [done|..]; cbn [reading] in H.
  - destruct w as [|[v| | | | | |] [|]]; try done. cbn [arithExprSource map concat writeLiteral]. rewrite app_nil_r.
    destruct v as [|c v]; [done|]. cbn [app]. unfold lit_value in H.
    assert (lit_char c = true ∨ c = byte_of 13) as Hc.
    { apply orb_true_iff in H as [[= -> ->]%bool_decide_eq_true_1|[[? _]%andb_prop _]%andb_prop]; auto. }
    by destruct (operand_start_lit c (v ++ s) Hc) as (?&?&?).
  - cbn [arithExprSource level]. rewrite <- (assoc_L (++)). pose proof (IH x) as IHx.
    destruct (op_level op) as [[l a]|] eqn:Hl; [|done]. pose proof (op_level_range _ _ _ Hl) as Hr.
    destruct a.
    + to_prop. rewrite ?Nat.leb_le in *. destruct (IHx ltac:(done) ((token_text op ++ arithExprSource y) ++ s)) as [? Hop].
      rewrite <- (assoc_L (++)) in *. split; [done|]. intros ?. apply Hop. lia.
    + to_prop. rewrite ?Nat.leb_le in *. destruct (IHx ltac:(done) ((token_text op ++ arithExprSource y) ++ s)) as [? Hop].
      rewrite <- (assoc_L (++)) in *. split; [done|]. intros ?. apply Hop. lia.
    + subst l. split; [|lia]. apply andb_prop in H as [[[->%bool_decide_eq_true_1|[Hx _]%andb_prop]%orb_true_iff _]%andb_prop _].
      * cbn [arithExprSource app]. rewrite <- (assoc_L (++)). unfold no_blank_colon. destruct op; done.
      * apply (IHx Hx).
    + destruct Hr as [-> ->]. destruct y as [| |[] t f| |]; try done. to_prop. rewrite ?Nat.leb_le in *.
      destruct (IHx ltac:(done) ((token_text quest ++ arithExprSource (BinaryArithm colon t f)) ++ s)) as [? Hop].
      split; [done|]. intros ?. apply Hop. lia.
  - apply andb_prop in H as [Hx H]. cbn [arithExprSource]. destruct post.
    + destruct (incdec_op op) eqn:Hid; [|by rewrite andb_false_r in H]. rewrite <- (assoc_L (++)).
      destruct (IH x Hx (token_text op ++ s)) as [? Hop]. split; [done|]. intros _. apply Hop. destruct x; try done; simpl; unfold primary_level; lia.
    + rewrite <- (assoc_L (++)). unfold no_blank_colon. destruct (incdec_op op) eqn:Hid; [by destruct op|].
      apply andb_prop in H as [[Hp _]%andb_prop _]. by destruct op.
  - done.
Qed.

(** ** Runs on printed text *)

(** The run goes on as [k] at the text [s] and the depth [d], unless the fuel was too little. *)
Definition reaches {A} (o : outcome A) (k : parser → outcome A) (s : gostr) (d : Z) : Prop :=
  o = OutOfFuel ∨ ∃ p, o = k p ∧ at_text s p ∧ nestDepth p = d.
(** It ends there with the answer [a]. *)
Definition yields {A} (o : outcome A) (a : A) (s : gostr) (d : Z) : Prop := reaches o (Parsed a) s d.

Lemma reaches_trans {A} (o : outcome A) k k' s s' d d' :
  reaches o k s d → (∀ p, at_text s p → nestDepth p = d → reaches (k p) k' s' d') → reaches o k' s' d'.
Proof. intros [H|(p&->&?&?)] Hk; [by left|by apply Hk]. Qed.
Lemma yields_bind {A B} (m : P A) (k : A → P B) p a s d : yields (m p) a s d → reaches ((m ≫= k) p) (k a) s d.
Proof.
  intros [H|(p1&H&?&?)]; unfold mbind, P_bind; rewrite H; [by left|right]. by exists p1.
Qed.
Lemma bind_eq {A B} (m : P A) (k : A → P B) p a p1 : m p = Parsed a p1 → (m ≫= k) p = k a p1.
Proof. intros H. unfold mbind, P_bind. by rewrite H. Qed.
Lemma required_eq {B} e k at_ (f : unit → P B) p : e ≠ NilExpr → (required e k at_ ≫= f) p = f tt p.
Proof. intros He. unfold required. by rewrite decide_False. Qed.

(** Steps: the next token, one level in and out. *)
Lemma reaches_next {B} (k : unit → P B) k' p s t v r s' d' :
  rest p = s → no_blank s → first_token s = Some (t, v, r) →
  (∀ p1, at_text s p1 → nestDepth p1 = nestDepth p → reaches (k tt p1) k' s' d') → reaches ((nextArith ≫= k) p) k' s' d'.
Proof.
  intros Hr Hb Ht Hk. destruct (nextArith_at_text p s t v r Hr Hb Ht) as (p1&Hn&?&?).
  rewrite (bind_eq _ _ _ _ _ Hn). by apply Hk.
Qed.
Lemma reaches_enterNest {B} (k : Z → P B) k' p s s' d' :
  at_text s p → nestDepth p < MaxNestingDepth →
  (∀ p1, at_text s p1 → nestDepth p1 = nestDepth p + 1 → reaches (k (nestDepth p) p1) k' s' d') →
  reaches ((enterNest ≫= k) p) k' s' d'.
Proof.
  intros Hat Hd Hk. unfold mbind, P_bind, enterNest. rewrite (proj2 (Z.leb_gt _ _)) by done. apply Hk; [|done].
  by eapply at_text_same.
Qed.
Lemma reaches_leaveNest {B} (k : unit → P B) k' p d s s' d' :
  at_text s p → (∀ p1, at_text s p1 → nestDepth p1 = d → reaches (k tt p1) k' s' d') →
  reaches ((leaveNest d ≫= k) p) k' s' d'.
Proof. intros Hat Hk. apply Hk; [by eapply at_text_same|done]. Qed.
Lemma reaches_call {A B} (m : P A) (k : A → P B) k' p a s d s' d' :
  yields (m p) a s d → (∀ p1, at_text s p1 → nestDepth p1 = d → reaches (k a p1) k' s' d') → reaches ((m ≫= k) p) k' s' d'.
Proof. intros H Hk. eapply reaches_trans; [by apply yields_bind|done]. Qed.
Lemma reaches_here {A} (k : parser → outcome A) p s : at_text s p → reaches (k p) k s (nestDepth p).
Proof. intros H. right. by exists p. Qed.

(** The right operand of an operator, one level in. *)
Lemma reaches_operand {B} (m : P ArithmExpr) (f : ArithmExpr → P B) at_ k' p y s s1 s' d' :
  y ≠ NilExpr → at_text s1 p → nestDepth p < MaxNestingDepth →
  (∀ p1, at_text s1 p1 → nestDepth p1 = nestDepth p + 1 → yields (m p1) y s (nestDepth p1)) →
  (∀ p2, at_text s p2 → nestDepth p2 = nestDepth p → reaches (f y p2) k' s' d') →
  reaches ((d ← enterNest; y ← m; leaveNest d;; required y FollowErrExp at_;; f y) p) k' s' d'.
Proof.
  intros Hy Hat Hd Hm Hk. apply (reaches_enterNest _ _ _ s1); [done..|]. intros p1 Hat1 Hd1.
  eapply reaches_call; [by apply Hm|]. intros p2 Hat2 Hd2. apply (reaches_leaveNest _ _ _ _ s); [done|]. intros p3 Hat3 Hd3.
  rewrite required_eq by done. by apply Hk.
Qed.

(** The parser of level [l] reads a printed expression of that level. *)
Definition complete (l : nat) (m : P ArithmExpr) : Prop :=
  ∀ e s p, reading e = true → (l <= level e)%nat → glue_free e = true → at_text (arithExprSource e ++ s) p → stop l s →
  nestDepth p + need e <= MaxNestingDepth → yields (m p) e s (nestDepth p).
(** And answers nothing in front of an assignment. *)
Definition complete_nil (m : P ArithmExpr) : Prop :=
  ∀ s p, at_text s p → tok p ∈ assignOps → nestDepth p + 2 <= MaxNestingDepth → yields (m p) NilExpr s (nestDepth p).

Lemma reading_not_nil e : reading e = true → e ≠ NilExpr.
Proof. by intros H ->. Qed.

(** An operator and what is behind it. *)
Lemma stop_op l t s :
  op_level t ≠ None → stops l t → first_token (token_text t ++ s) = Some (t, [], s) → stop l (token_text t ++ s).
Proof.
  intros Ht Hs Hf. split; [apply delimited_op; by destruct t|]. by exists t, [], s.
Qed.

(** An expression has some text. *)
Lemma reading_text e : reading e = true → arithExprSource e ≠ [].
Proof.
  revert e. fix IH 1. intros [|w|op x y|op post x|x]; cbn [reading arithExprSource]; intros Hy E; [done|..].
  - destruct w as [|[v| | | | | |] [|]]; try done. simpl in E. rewrite app_nil_r in E. by subst v.
  - apply app_nil in E as [_ [E _]%app_nil]. by destruct op.
  - apply andb_prop in Hy as [Hx Hy]. destruct post; apply app_nil in E as [E1 E2]; [by eapply IH|].
    destruct op; try done; by rewrite ?andb_false_r in Hy.
  - done.
Qed.

(** An operator in front of a printed operand. *)
Lemma op_before_operand t y s :
  reading y = true → (2 <= level y)%nat ∧ before_operand t = true ∨ before_any t = true →
  glued t (arithExprSource y) = false → first_token (token_text t ++ arithExprSource y ++ s) = Some (t, [], arithExprSource y ++ s).
Proof.
  intros Hy Ht Hg. destruct (reading_start y Hy s) as [_ Hs].
  assert (glued t (arithExprSource y ++ s) = false) as Hg'.
  { pose proof (reading_text y Hy). by destruct (arithExprSource y), t. }
  destruct Ht as [[Hl Hb]|Hb]; [apply first_token_op; auto|by apply first_token_any].
Qed.
Lemma reading_token y s : reading y = true → no_blank (arithExprSource y ++ s).
Proof. intros Hy. by apply reading_start. Qed.

(** What a printed expression starts with is a token. *)
Lemma op_token_exists t s : token_text t ≠ [] → ∃ u v r, first_token (token_text t ++ s) = Some (u, v, r).
Proof.
  intros Ht. assert (∀ c s', foreign_byte c = false → arithmOps c = true → ∃ u v r, first_token (c :: s') = Some (u, v, r)) as H.
  { intros c s' Hf Ho. cbn [first_token]. unfold lexTok. rewrite Hf, Ho. destruct (arithmToken c s') as [u r]. eauto. }
  destruct t; try (by destruct Ht); by apply H.
Qed.
Lemma reading_first y s : reading y = true → delimited s → ∃ t v r, first_token (arithExprSource y ++ s) = Some (t, v, r).
Proof.
  revert y s. fix IH 1. intros [|w|op x y|op post x|x] s H Hs; [done|..]; cbn [reading arithExprSource] in *.
  - destruct w as [|[v| | | | | |] [|]]; try done. cbn [map concat writeLiteral]. rewrite app_nil_r.
    exists LitWord, v, s. by apply first_token_word.
  - destruct (op_level op) as [[l a]|] eqn:Hl; [|done]. rewrite <- (assoc_L (++)).
    assert (delimited ((token_text op ++ arithExprSource y) ++ s)) as Hd.
    { rewrite <- (assoc_L (++)). apply delimited_op; [by destruct op|intros ->; done]. }
    destruct (decide (x = NilExpr)) as [->|Hx].
    + cbn [arithExprSource app]. rewrite <- (assoc_L (++)). apply op_token_exists. by destruct op.
    + apply (IH x); [|done]. destruct a; [by to_prop|by to_prop| |].
      * by apply andb_prop in H as [[[->%bool_decide_eq_true_1|[? _]%andb_prop]%orb_true_iff _]%andb_prop _].
      * destruct y as [| |[] t f| |]; try done. by to_prop.
  - apply andb_prop in H as [Hx H]. destruct post; rewrite <- (assoc_L (++)).
    + apply (IH x); [done|]. apply delimited_op; [|intros ->; done]. intros E. by destruct op; rewrite ?andb_false_r in H.
    + apply op_token_exists. intros E. by destruct op.
  - exact (op_token_exists leftParen _ ltac:(done)).
Qed.

(** Behind an operator: its operand [y], then [s]. *)
Lemma reaches_next_operand {B} (k : unit → P B) k' p y s s' d' :
  rest p = arithExprSource y ++ s → reading y = true → delimited s →
  (∀ p1, at_text (arithExprSource y ++ s) p1 → nestDepth p1 = nestDepth p → reaches (k tt p1) k' s' d') →
  reaches ((nextArith ≫= k) p) k' s' d'.
Proof.
  intros Hr Hy Hs Hk. destruct (reading_first y s Hy Hs) as (t&v&r&Hf).
  eapply reaches_next; [done|by apply reading_token|done|done].
Qed.

(** The operators of a level: first [m], then the loop, for an expression whose operators the loop reads. *)
Lemma binaryLoop_complete l m ops n e s p :
  complete (S l) m → left_ops l ops →
  (∀ t, op_level t = Some (l, LeftAssoc) → t ∈ ops) → (2 < l <= 12 ∨ l = 0)%nat →
  reading e = true → (l <= level e)%nat → glue_free e = true →
  at_text (arithExprSource e ++ s) p → stop (S l) s → nestDepth p + need e <= MaxNestingDepth →
  ∃ n', reaches ((value ← m; binaryLoop n m ops value) p) (binaryLoop n' m ops e) s (nestDepth p).
Proof.
  intros Hm Hops Hall Hl2. revert s p.
  assert (∀ e s p, reading e = true → (S l <= level e)%nat → glue_free e = true → at_text (arithExprSource e ++ s) p →
    stop (S l) s → nestDepth p + need e <= MaxNestingDepth →
    ∃ n', reaches ((value ← m; binaryLoop n m ops value) p) (binaryLoop n' m ops e) s (nestDepth p)) as Hhigh.
  { clear e. intros e s p He Hle Hg Hat Hst Hn. exists n. by apply (yields_bind m), Hm. }
  induction e as [|w|op x IHx y _|op post x _|x _]; intros s p He Hle Hg Hat Hst Hn; [done|..].
  1,3,4: apply Hhigh; try done; cbn [level]; unfold primary_level, unary_level; try case_match; lia.
  destruct (decide (S l <= level (BinaryArithm op x y))%nat) as [Hlt|Hlt]; [by apply Hhigh|].
  cbn [reading level arithExprSource glue_free need] in *. destruct (op_level op) as [[l' a]|] eqn:Hl; [|done].
  assert (l' = l) as -> by lia. pose proof (op_level_range _ _ _ Hl) as Hr. destruct a; try lia.
  to_prop. rewrite ?Nat.leb_le in *. rewrite <- !(assoc_L (++)) in Hat.
  assert (first_token (token_text op ++ arithExprSource y ++ s) = Some (op, [], arithExprSource y ++ s)) as Hf.
  { apply op_before_operand; [done| |done]. unfold before_operand, before_any. rewrite Hl, Nat.leb_le. destruct Hl2; [left; split; [lia|done]|right; lia]. }
  assert (stop (S l) (token_text op ++ arithExprSource y ++ s)) as Hst1.
  { apply stop_op; [by rewrite Hl|unfold stops; rewrite Hl; lia|done]. }
  destruct (IHx _ _ ltac:(done) ltac:(done) ltac:(done) Hat Hst1 ltac:(lia)) as [[|n'] Hx].
  { exists O. eapply reaches_trans; [done|]. intros p1 _ _. by left. }
  exists n'. eapply reaches_trans; [done|]. intros p1 Hat1 Hd1. cbn [binaryLoop]. rewrite bind_get.
  destruct (at_text_token _ _ _ _ _ Hat1 Hf) as [Ht1 Hr1]. rewrite Ht1, decide_True by (by apply Hall).
  rewrite required_eq by (by apply reading_not_nil).
  eapply (reaches_next_operand _ _ p1 y s); [done|done|apply Hst|]. intros p2 Hat2 Hd2.
  apply (reaches_call _ _ _ _ y s (nestDepth p2)); [apply Hm; try done; lia|]. intros p3 Hat3 Hd3. rewrite required_eq by (by apply reading_not_nil).
  right. eexists (set_nest p3 _ _ _). split_and!; [done|by eapply at_text_same|simpl; lia].
Qed.

Lemma stops_not_in l t ops : stops l t → left_ops l ops → t ∉ ops.
Proof. intros Hs Hops Hin. apply Hops in Hin. unfold stops in Hs. rewrite Hin in Hs. lia. Qed.
Lemma at_stop l s p : at_text s p → stop l s → stops l (tok p).
Proof. intros Hat (_&t&v&r&Hf&Hs). by destruct (at_text_token _ _ _ _ _ Hat Hf) as [-> _]. Qed.

Lemma arithmExprBinary_complete l n m ops :
  complete (S l) m → left_ops l ops → (∀ t, op_level t = Some (l, LeftAssoc) → t ∈ ops) → (2 < l <= 12 ∨ l = 0)%nat →
  complete l (arithmExprBinary n m ops).
Proof.
  intros Hm Hops Hall Hl2 e s p He Hle Hg Hat Hst Hn.
  destruct (binaryLoop_complete l m ops n e s p Hm Hops Hall Hl2 He Hle Hg Hat) as [n' H]; [|done|].
  { eapply stop_weaken; [|done]. lia. }
  eapply reaches_trans; [done|]. intros p1 Hat1 Hd1. destruct n' as [|n']; [by left|]. cbn [binaryLoop]. rewrite bind_get.
  rewrite decide_False by (eapply stops_not_in; [by eapply at_stop|done]). rewrite <- Hd1. by apply reaches_here.
Qed.
Lemma at_text_tok s p p' : at_text s p → at_text s p' → tok p' = tok p.
Proof. intros (_&v&H&_) (_&w&H'&_). congruence. Qed.
Lemma arithmExprBinary_nil n m ops :
  complete_nil m → forallb (fun t => negb (bool_decide (t ∈ ops))) assignOps = true → complete_nil (arithmExprBinary n m ops).
Proof.
  intros Hm Hops s p Hat Ht Hn. unfold arithmExprBinary. eapply reaches_call; [by apply Hm|]. intros p1 Hat1 Hd1.
  destruct n as [|n]; [by left|]. cbn [binaryLoop]. rewrite bind_get, (at_text_tok _ _ _ Hat Hat1).
  rewrite decide_False; [rewrite <- Hd1; by apply reaches_here|]. rewrite forallb_forall in Hops.
  apply list_elem_of_In, Hops, negb_true_iff in Ht. by apply bool_decide_eq_false_1 in Ht.
Qed.

(** A level's table is complete: all of its operators are in it. *)
Definition left_tokens : list token :=
  [comma; orOr; dblCaret; andAnd; or; caret; and; equal; nequal; rdrIn; rdrOut; lequal; gequal; hdoc; appOut; plus; minus;
   star; slash; perc].
Definition at_level (l : nat) (t : token) : bool :=
  match op_level t with Some (k, LeftAssoc) => (k =? l)%nat | _ => false end.
Lemma left_all (l : nat) (ops : list token) :
  forallb (fun t => negb (at_level l t) || bool_decide (t ∈ ops)) left_tokens = true →
  ∀ t, op_level t = Some (l, LeftAssoc) → t ∈ ops.
Proof.
  rewrite forallb_forall. intros H t Ht. assert (In t left_tokens) as Hin by (destruct t; try discriminate Ht; simpl; tauto).
  specialize (H t Hin). unfold at_level in H. rewrite Ht, Nat.eqb_refl in H. by apply bool_decide_eq_true_1 in H.
Qed.
Ltac left_ops_tac :=
  let t := fresh "t" in let Ht := fresh "Ht" in intros t Ht;
  repeat (apply elem_of_cons in Ht as [->|Ht]; [reflexivity|]); by apply elem_of_nil in Ht.

Lemma arithmExprLor_complete n m : complete 13 m → complete 3 (arithmExprLor n m).
Proof.
  intros H. unfold arithmExprLor, arithmExprLand, arithmExprBor, arithmExprBxor, arithmExprBand, arithmExprEquality,
    arithmExprComparison, arithmExprShift, arithmExprAddition, arithmExprMultiplication.
  do 10 (apply arithmExprBinary_complete; [|left_ops_tac|by apply left_all|lia]). exact H.
Qed.
Lemma arithmExprLor_nil n m : complete_nil m → complete_nil (arithmExprLor n m).
Proof.
  intros H. unfold arithmExprLor, arithmExprLand, arithmExprBor, arithmExprBxor, arithmExprBand, arithmExprEquality,
    arithmExprComparison, arithmExprShift, arithmExprAddition, arithmExprMultiplication.
  do 10 (apply arithmExprBinary_nil; [|done]). exact H.
Qed.

(** The token of a printed operator at which the parser stands. *)
Lemma at_op t s r p : at_text (token_text t ++ s) p → first_token (token_text t ++ s) = Some (t, [], r) → tok p = t ∧ rest p = r.
Proof. apply at_text_token. Qed.

(** The operand [x] in front of the operator [op] of level [l], read by a parser of the next level. *)
Lemma stop_operator l op y s :
  before_operand op = true → op_level op ≠ None → stops l op → reading y = true →
  (2 <= level y)%nat ∨ before_any op = true → glued op (arithExprSource y) = false →
  stop l (token_text op ++ arithExprSource y ++ s) ∧
  first_token (token_text op ++ arithExprSource y ++ s) = Some (op, [], arithExprSource y ++ s).
Proof.
  intros Hb Hl Hs Hy Hlev Hg.
  assert (first_token (token_text op ++ arithExprSource y ++ s) = Some (op, [], arithExprSource y ++ s)) as Hf.
  { apply op_before_operand; [done| |done]. destruct Hlev; auto. }
  split; [by apply stop_op|done].
Qed.

Lemma arithmExprPower_complete fuel :
  complete 13 (arithmExprPower fuel) → complete 14 (arithmExprUnary fuel) → complete 13 (arithmExprPower (S fuel)).
Proof.
  intros Hp Hu e s p He Hle Hg Hat Hst Hn. cbn [arithmExprPower].
  destruct (decide (14 <= level e)%nat) as [Hlt|Hlt].
  - eapply reaches_call; [apply Hu; try done; by eapply stop_weaken; [|done]; lia|]. intros p1 Hat1 Hd1. rewrite bind_get.
    rewrite decide_False; [rewrite <- Hd1; by apply reaches_here|].
    intros Ht. pose proof (at_stop _ _ _ Hat1 Hst) as Hs. rewrite Ht in Hs. unfold stops in Hs. simpl in Hs. lia.
  - destruct e as [|w|op x y|op post x|x]; cbn [level] in *; try done; try (unfold primary_level, unary_level in *; try case_match; lia).
    destruct (op_level op) as [[l a]|] eqn:Hl; [|lia]. pose proof (op_level_range _ _ _ Hl) as Hr.
    destruct a; try lia. subst l. cbn [reading arithExprSource glue_free need] in *. rewrite Hl in He, Hn.
    to_prop. rewrite ?Nat.leb_le in *. rewrite <- !(assoc_L (++)) in Hat.
    assert (op = power) as -> by (by destruct op).
    destruct (stop_operator 14 power y s) as [Hst1 Hf]; [done|done|unfold stops; simpl; lia|done|left; lia|done|].
    apply (reaches_call _ _ _ _ x (token_text power ++ arithExprSource y ++ s) (nestDepth p)); [apply Hu; try done; lia|].
    intros p1 Hat1 Hd1. rewrite bind_get. destruct (at_op _ _ _ _ Hat1 Hf) as [Ht1 Hr1]. rewrite Ht1, decide_True by done.
    rewrite required_eq by (by apply reading_not_nil).
    eapply (reaches_next_operand _ _ p1 y s); [done|done|apply Hst|]. intros p2 Hat2 Hd2.
    apply (reaches_operand _ (fun y => mret (BinaryArithm power x y)) _ _ _ y s (arithExprSource y ++ s)).
    + by apply reading_not_nil.
    + done.
    + pose proof (nodeDepth_bound y ltac:(done)) as (?&_). lia.
    + intros p3 Hat3 Hd3. apply Hp; try done. lia.
    + intros p3 Hat3 Hd3. assert (nestDepth p = nestDepth p3) as -> by lia. by apply reaches_here.
Qed.

Lemma primary_first e s :
  reading e = true → (15 <= level e)%nat → delimited s →
  ∃ t v r, first_token (arithExprSource e ++ s) = Some (t, v, r) ∧ t ∈ [LitWord; leftParen; addAdd; subSub].
Proof.
  revert e s. fix IH 1. intros [|w|op x y|op post x|x] s H Hl Hs; [done|..]; cbn [reading arithExprSource level] in *.
  - destruct w as [|[v| | | | | |] [|]]; try done. cbn [map concat writeLiteral]. rewrite app_nil_r.
    exists LitWord, v, s. split; [by apply first_token_word|set_solver].
  - destruct (op_level op) as [[l a]|] eqn:Hop; [|lia]. pose proof (op_level_range _ _ _ Hop). destruct a; lia.
  - apply andb_prop in H as [Hx H]. destruct (incdec_op op) eqn:Hid; [|unfold unary_level in Hl; lia].
    assert (op = addAdd ∨ op = subSub) as Hop by (destruct op; try discriminate Hid; auto).
    destruct post; rewrite <- (assoc_L (++)).
    + apply (IH x); [done|destruct x; try done; unfold level, primary_level; lia|].
      apply delimited_op; by destruct Hop as [-> | ->].
    + exists op, [], (arithExprSource x ++ s). split; [apply first_token_closing; by destruct Hop as [-> | ->]|].
      destruct Hop as [-> | ->]; set_solver.
  - exists leftParen, [], ((arithExprSource x ++ go ")") ++ s). split; [done|set_solver].
Qed.

Lemma arithmExprUnary_complete fuel :
  complete 14 (arithmExprUnary fuel) → complete 15 (arithmExprValue fuel) → complete 14 (arithmExprUnary (S fuel)).
Proof.
  intros Hu Hv e s p He Hle Hg Hat Hst Hn. cbn [arithmExprUnary].
  rewrite (bind_eq _ _ _ _ _ (got_newline_at_text _ _ Hat)), bind_get.
  destruct (decide (15 <= level e)%nat) as [Hlt|Hlt].
  - destruct (primary_first e s He Hlt ltac:(apply Hst)) as (t&v&r&Hf&Ht).
    destruct (at_text_token _ _ _ _ _ Hat Hf) as [-> _]. rewrite decide_False.
    + apply Hv; try done. by eapply stop_weaken; [|done]; lia.
    + rewrite !elem_of_cons, elem_of_nil in *. naive_solver.
  - destruct e as [|w|op x y|op post x|x]; cbn [level] in *; try done; try (unfold primary_level in *; lia).
    { destruct (op_level op) as [[l a]|] eqn:Hop; [|lia]. pose proof (op_level_range _ _ _ Hop). destruct a; lia. }
    cbn [reading glue_free need arithExprSource] in *. destruct (incdec_op op) eqn:Hid; [unfold primary_level in *; lia|].
    to_prop. subst post. to_prop. rewrite ?Nat.leb_le in *. rewrite <- (assoc_L (++)) in Hat. unfold unary_level in *.
    assert (before_operand op = true) as Hb by (destruct op; done).
    assert (first_token (token_text op ++ arithExprSource x ++ s) = Some (op, [], arithExprSource x ++ s)) as Hf.
    { apply op_before_operand; [done|left; split; [lia|done]|done]. }
    destruct (at_op _ _ _ _ Hat Hf) as [Ht1 Hr1]. rewrite Ht1. rewrite decide_True by (by eapply bool_decide_eq_true_1).
    eapply (reaches_next_operand _ _ p x s); [done|done|apply Hst|]. intros p2 Hat2 Hd2.
    apply (reaches_operand _ (fun y => mret (UnaryArithm op false y)) _ _ _ x s (arithExprSource x ++ s)).
    + by apply reading_not_nil.
    + done.
    + pose proof (nodeDepth_bound x ltac:(done)) as (?&_). lia.
    + intros p3 Hat3 Hd3. apply Hu; try done. lia.
    + intros p3 Hat3 Hd3. assert (nestDepth p = nestDepth p3) as -> by lia. by apply reaches_here.
Qed.

(** Inside [arithmExprValue], one level in. *)
Definition complete_inner (m : P ArithmExpr) : Prop :=
  ∀ e s p, reading e = true → (15 <= level e)%nat → glue_free e = true → at_text (arithExprSource e ++ s) p → stop 15 s →
  nestDepth p - 1 + need e <= MaxNestingDepth → yields (m p) e s (nestDepth p).
Definition complete_nil_inner (m : P ArithmExpr) : Prop :=
  ∀ s p, at_text s p → tok p ∈ assignOps → nestDepth p + 1 <= MaxNestingDepth → yields (m p) NilExpr s (nestDepth p).

Lemma arithmExprValue_complete fuel :
  complete_inner (arithmExprValueNested fuel) → complete 15 (arithmExprValue (S fuel)).
Proof.
  intros Hin e s p He Hle Hg Hat Hst Hn. cbn [arithmExprValue].
  pose proof (nodeDepth_bound e He) as (?&_).
  eapply reaches_enterNest; [done|lia|]. intros p1 Hat1 Hd1.
  apply (reaches_call _ _ _ _ e s (nestDepth p1)); [apply Hin; try done; lia|]. intros p2 Hat2 Hd2.
  eapply reaches_leaveNest; [done|]. intros p3 Hat3 <-. by apply reaches_here.
Qed.
Lemma arithmExprValue_nil fuel :
  complete_nil_inner (arithmExprValueNested fuel) → complete_nil (arithmExprValue (S fuel)).
Proof.
  intros Hin s p Hat Ht Hn. cbn [arithmExprValue].
  eapply reaches_enterNest; [done|lia|]. intros p1 Hat1 Hd1.
  apply (reaches_call _ _ _ _ NilExpr s (nestDepth p1)).
  - apply Hin; [done| |lia]. by rewrite (at_text_tok _ _ _ Hat Hat1).
  - intros p2 Hat2 Hd2. eapply reaches_leaveNest; [done|]. intros p3 Hat3 <-. by apply reaches_here.
Qed.
Lemma in_assignOps t l : t ∈ assignOps → forallb (fun u => negb (bool_decide (u ∈ assignOps))) l = true → t ∉ l.
Proof.
  intros Ht Hl Hin. rewrite forallb_forall in Hl. specialize (Hl t (proj1 (list_elem_of_In _ _) Hin)).
  apply negb_true_iff, bool_decide_eq_false_1 in Hl. done.
Qed.
Lemma arithmExprUnary_nil fuel : complete_nil (arithmExprValue fuel) → complete_nil (arithmExprUnary (S fuel)).
Proof.
  intros Hv s p Hat Ht Hn. cbn [arithmExprUnary].
  rewrite (bind_eq _ _ _ _ _ (got_newline_at_text _ _ Hat)), bind_get.
  rewrite decide_False by (by eapply in_assignOps). by apply Hv.
Qed.
Lemma arithmExprPower_nil fuel : complete_nil (arithmExprUnary fuel) → complete_nil (arithmExprPower (S fuel)).
Proof.
  intros Hu s p Hat Ht Hn. cbn [arithmExprPower]. eapply reaches_call; [by apply Hu|]. intros p1 Hat1 Hd1.
  rewrite bind_get, (at_text_tok _ _ _ Hat Hat1). rewrite decide_False.
  - rewrite <- Hd1. by apply reaches_here.
  - intros Hp. rewrite Hp in Ht. by apply not_elem_of_bool in Ht.
Qed.
Lemma arithmExprTernary_nil fuel : complete_nil (arithmExprPower fuel) → complete_nil (arithmExprTernary (S fuel)).
Proof.
  intros Hu s p Hat Ht Hn. cbn [arithmExprTernary]. eapply reaches_call; [by apply arithmExprLor_nil|]. intros p1 Hat1 Hd1.
  rewrite bind_get, (at_text_tok _ _ _ Hat Hat1). rewrite decide_False.
  - rewrite <- Hd1. by apply reaches_here.
  - intros Hp. rewrite Hp in Ht. by apply not_elem_of_bool in Ht.
Qed.
Lemma arithmExprValueNested_nil fuel : complete_nil_inner (arithmExprValueNested (S fuel)).
Proof.
  intros s p Hat Ht Hn. cbn [arithmExprValueNested]. rewrite bind_get.
  assert (yields (getNoWord p) NilExpr s (nestDepth p)) as H.
  { eapply reaches_enterNest; [done|lia|]. intros p1 Hat1 Hd1. eapply reaches_leaveNest; [done|].
    intros p2 Hat2 <-. by apply reaches_here. }
  unfold assignOps in Ht. rewrite !elem_of_cons, elem_of_nil in Ht. destruct (tok p); try exact H; exfalso; naive_solver.
Qed.

(** An expression does not start with a colon. *)
Lemma reading_not_colon y s p :
  reading y = true → at_text (arithExprSource y ++ s) p → tok p ≠ colon.
Proof.
  intros Hy (Hb&v&Hf&_) Ht. destruct (reading_start y Hy s) as [[_ Hc] _]. rewrite Ht in Hf.
  destruct (arithExprSource y ++ s) as [|c s']; [done|]. cbn [first_token] in Hf.
  apply lexTok_spec in Hf as (E&_); [|done]. rewrite decide_False in E by done. injection E as -> _. done.
Qed.

Lemma stops_not_assign t : stops 1 t → t ∉ assignOps.
Proof.
  unfold stops. destruct t; simpl; intros H;
    first [lia|by apply not_elem_of_bool|exfalso; apply H; by eapply bool_decide_eq_true_1].
Qed.

Lemma arithmExprAssign_complete fuel :
  complete 1 (arithmExprAssign fuel) → complete 2 (arithmExprTernary fuel) → complete_nil (arithmExprTernary fuel) →
  complete 1 (arithmExprAssign (S fuel)).
Proof.
  intros Ha Ht Htn e s p He Hle Hg Hat Hst Hn. cbn [arithmExprAssign].
  destruct (decide (2 <= level e)%nat) as [Hlt|Hlt].
  - apply (reaches_call _ _ _ _ e s (nestDepth p)); [apply Ht; try done; by eapply stop_weaken; [|done]; lia|].
    intros p1 Hat1 Hd1. rewrite bind_get, decide_False; [rewrite <- Hd1; by apply reaches_here|].
    by eapply stops_not_assign, at_stop.
  - destruct e as [|w|op x y|op post x|x]; cbn [level] in *; try done; try (unfold primary_level, unary_level in *; try case_match; lia).
    destruct (op_level op) as [[l a]|] eqn:Hl; [|lia]. pose proof (op_level_range _ _ _ Hl) as Hr.
    destruct a; try lia. 1: { cbn [reading] in He. exfalso. by destruct op; simplify_eq/=; lia. }
    subst l. cbn [reading arithExprSource glue_free need] in *. rewrite Hl in He, Hn.
    apply andb_prop in He as [[Hx Hy]%andb_prop Hly%Nat.leb_le]. apply andb_prop in Hg as [[Hgx Hgy]%andb_prop Hg%negb_true_iff].
    rewrite <- !(assoc_L (++)) in Hat. apply orb_true_iff in Hx.
    destruct (stop_operator 2 op y s) as [Hst1 Hf]; [by unfold before_operand; rewrite Hl|by rewrite Hl|unfold stops; rewrite Hl; lia|
      done|right; unfold before_any; by rewrite Hl|done|].
    assert (op ∈ assignOps) as Hin by (apply (bool_decide_eq_true_1 (op ∈ assignOps)); by destruct op).
    apply (reaches_call _ _ _ _ x (token_text op ++ arithExprSource y ++ s) (nestDepth p)).
    + destruct Hx as [->%bool_decide_eq_true_1|[Hx Hlx%Nat.leb_le]%andb_prop].
      * apply Htn; [done| |cbn [need] in Hn; lia]. by destruct (at_op op _ _ _ Hat Hf) as [-> _].
      * apply Ht; try done. lia.
    + intros p1 Hat1 Hd1. rewrite bind_get. destruct (at_op _ _ _ _ Hat1 Hf) as [Ht1 Hr1].
      rewrite Ht1, decide_True by done.
      eapply (reaches_next_operand _ _ p1 y s); [done|done|apply Hst|]. intros p2 Hat2 Hd2.
      apply (reaches_operand _ (fun y => mret (BinaryArithm op x y)) _ _ _ y s (arithExprSource y ++ s)).
      * by apply reading_not_nil.
      * done.
      * pose proof (nodeDepth_bound y ltac:(done)) as (?&_). lia.
      * intros p3 Hat3 Hd3. apply Ha; try done. lia.
      * intros p3 Hat3 Hd3. assert (nestDepth p = nestDepth p3) as -> by lia. by apply reaches_here.
Qed.

Lemma arithmExprTernary_complete fuel :
  complete 0 (arithmExpr fuel) → complete 2 (arithmExprTernary fuel) → complete 13 (arithmExprPower fuel) →
  complete 2 (arithmExprTernary (S fuel)).
Proof.
  intros H0 Ht Hp e s p He Hle Hg Hat Hst Hn. cbn [arithmExprTernary].
  destruct (decide (3 <= level e)%nat) as [Hlt|Hlt].
  - apply (reaches_call _ _ _ _ e s (nestDepth p)); [apply arithmExprLor_complete; try done; by eapply stop_weaken; [|done]; lia|].
    intros p1 Hat1 Hd1. rewrite bind_get, decide_False; [rewrite <- Hd1; by apply reaches_here|].
    intros Hin. pose proof (at_stop _ _ _ Hat1 Hst) as Hs. rewrite Hin in Hs. unfold stops in Hs. simpl in Hs. lia.
  - destruct e as [|w|op x y|op post x|x]; cbn [level] in *; try done; try (unfold primary_level, unary_level in *; try case_match; lia).
    destruct (op_level op) as [[l a]|] eqn:Hl; [|lia]. pose proof (op_level_range _ _ _ Hl) as Hr.
    destruct a; try lia. 1: { exfalso. by destruct op; simplify_eq/=; lia. }
    destruct Hr as [-> ->]. destruct y as [| |op2 t f| |]; [done..| |done|done]. assert (op2 = colon) as -> by (by destruct op2).
    cbn [reading arithExprSource glue_free need op_level glued negb] in *. to_prop. rewrite ?Nat.leb_le in *. rewrite <- !(assoc_L (++)) in Hat.
    assert (first_token (go ":" ++ arithExprSource f ++ s) = Some (colon, [], arithExprSource f ++ s)) as Hf2.
    { apply (op_before_operand colon); [done|by right|done]. }
    assert (stop 0 (go ":" ++ arithExprSource f ++ s)) as Hst2.
    { split; [by apply (delimited_op colon)|]. eexists _, _, _. split; [exact Hf2|]. by apply not_elem_of_bool. }
    assert (first_token (token_text quest ++ arithExprSource t ++ go ":" ++ arithExprSource f ++ s) =
      Some (quest, [], arithExprSource t ++ go ":" ++ arithExprSource f ++ s)) as Hf1.
    { apply (op_before_operand quest); [done|by right|done]. }
    apply (reaches_call _ _ _ _ x (token_text quest ++ arithExprSource t ++ go ":" ++ arithExprSource f ++ s) (nestDepth p)).
    { apply arithmExprLor_complete; try done; [|lia]. apply stop_op; [done|unfold stops; simpl; lia|done]. }
    intros p1 Hat1 Hd1. rewrite bind_get. destruct (at_op _ _ _ _ Hat1 Hf1) as [Ht1 Hr1].
    rewrite Ht1, decide_True, required_eq by (by try apply reading_not_nil).
    pose proof (nodeDepth_bound t ltac:(done)) as (?&_).
    eapply reaches_enterNest; [done|lia|]. intros p2 Hat2 Hd2. destruct (at_op _ _ _ _ Hat2 Hf1) as [Ht2 Hr2].
    eapply (reaches_next_operand _ _ p2 t); [done|done|apply Hst2|]. intros p3 Hat3 Hd3.
    rewrite bind_get. rewrite decide_False by (by apply (reading_not_colon t _ _ ltac:(done) Hat3)). rewrite (bind_eq _ _ _ _ _ eq_refl).
    eapply (reaches_call _ _ _ _ t _ (nestDepth p3)); [apply H0; try done; [lia|lia]|]. intros p4 Hat4 Hd4.
    rewrite required_eq, bind_get by (by apply reading_not_nil). destruct (at_op colon _ _ _ Hat4 Hf2) as [Ht4 Hr4].
    rewrite decide_True, (bind_eq _ _ _ _ _ eq_refl) by done.
    eapply (reaches_next_operand _ _ p4 f s); [done|done|apply Hst|]. intros p5 Hat5 Hd5.
    apply (reaches_call _ _ _ _ f s (nestDepth p5)); [apply Ht; try done; lia|]. intros p6 Hat6 Hd6.
    rewrite required_eq by (by apply reading_not_nil). eapply reaches_leaveNest; [done|]. intros p7 Hat7 Hd7.
    assert (nestDepth p = nestDepth p7) as -> by lia. by apply reaches_here.
Qed.

(** ** Primaries *)

Definition postfix (fuel : nat) (x : ArithmExpr) : P ArithmExpr :=
  x ← arithmContinueWord fuel x;
  got Newl;;
  q ← p_get;
  if decide (tok q ∈ [addAdd; subSub]) then nextArith;; mret (UnaryArithm (tok q) true x) else mret x.

Lemma at_text_token_ok s p : at_text s p → token_ok p.
Proof.
  intros (Hb&v&Hf&Hv). destruct s as [|c s]; cbn [first_token] in Hf.
  - injection Hf as Ht _ Hr. unfold token_ok. rewrite <- Ht, <- Hr. split_and!; [by apply not_elem_of_bool|done|done].
  - apply lexTok_spec in Hf as (_&He&_&Hn&Hw); [|done]. split_and!; [done| |done]. intros Ht. rewrite Hv by done. by apply Hw.
Qed.
Lemma reaches_postfix fuel x s p k' s' d' :
  at_text s p →
  reaches ((q ← p_get; if decide (tok q ∈ [addAdd; subSub]) then nextArith;; mret (UnaryArithm (tok q) true x) else mret x) p) k' s' d' →
  reaches (postfix fuel x p) k' s' d'.
Proof.
  intros Hat H. unfold postfix. unfold mbind at 1, P_bind at 1. destruct (arithmContinueWord fuel x p) as [y p1|e|] eqn:E; [| |by left].
  - apply arithmContinueWord_Parsed in E as [-> ->]; [|by eapply at_text_token_ok].
    by rewrite (bind_eq _ _ _ _ _ (got_newline_at_text _ _ Hat)).
  - exfalso. destruct fuel as [|fuel]; [|by rewrite arithmContinueWord_id in E by by eapply at_text_token_ok].
    unfold arithmContinueWord in E. rewrite bind_get in E. destruct x; try done. by case_match.
Qed.

(** A word or an expression in parentheses; behind it [++] and [--] are looked for. *)
Lemma primary_complete fuel x s p :
  complete 0 (arithmExpr fuel) → reading x = true → match x with AWord _ | ParenArithm _ => True | _ => False end →
  glue_free x = true → at_text (arithExprSource x ++ s) p → delimited s →
  (∃ t v r, first_token s = Some (t, v, r) ∧ t ≠ leftBrack) → nestDepth p - 1 + need x <= MaxNestingDepth →
  reaches (arithmExprValueNested (S fuel) p) (postfix fuel x) s (nestDepth p).
Proof.
  intros H0 Hr Hx Hg Hat Hs (t&v&r&Hf&Hnb) Hn. cbn [arithmExprValueNested]. rewrite bind_get.
  destruct x as [|w| | |x]; try done; cbn [reading arithExprSource glue_free need] in *.
  - destruct w as [|[val| | | | | |] [|]]; try done. cbn [map concat writeLiteral] in Hat. rewrite app_nil_r in Hat.
    destruct (at_text_word _ _ _ _ Hat (first_token_word val s Hr Hs)) as (Ht&Hv&Hrest). rewrite Ht.
    destruct (next_at_text p s t v r Hrest (delimited_no_blank _ Hs) Hf) as (p1&Hnext&Hat1&Hd1).
    rewrite (bind_eq _ _ _ _ _ Hnext), bind_get, Hv. destruct (at_text_token _ _ _ _ _ Hat1 Hf) as [-> _].
    rewrite decide_False, <- Hd1 by done. by apply (reaches_here (postfix fuel (AWord [Lit val]))).
  - rewrite <- !(assoc_L (++)) in Hat. destruct (at_op leftParen _ _ _ Hat eq_refl) as [Ht1 Hr1]. rewrite Ht1.
    assert (first_token (go ")" ++ s) = Some (rightParen, [], s)) as Hfr by done.
    assert (stop 0 (go ")" ++ s)) as Hst.
    { split; [by apply (delimited_op rightParen)|]. eexists _, _, _. split; [exact Hfr|]. by apply not_elem_of_bool. }
    eapply (reaches_next_operand _ _ p x (go ")" ++ s)); [done|done|apply Hst|]. intros p1 Hat1 Hd1.
    apply (reaches_call _ _ _ _ x (go ")" ++ s) (nestDepth p)).
    { rewrite <- Hd1. apply H0; try done; [lia|]. rewrite Hd1. lia. }
    intros p2 Hat2 Hd2. rewrite required_eq by (by apply reading_not_nil).
    destruct (at_op rightParen _ _ _ Hat2 Hfr) as [Ht2 Hr2].
    destruct (next_at_text p2 s t v r Hr2 (delimited_no_blank _ Hs) Hf) as (p3&Hnext&Hat3&Hd3).
    assert (got rightParen p2 = Parsed true p3) as Hgot.
    { unfold got. rewrite bind_get, decide_True by done. by rewrite (bind_eq _ _ _ _ _ Hnext). }
    rewrite (bind_eq _ _ _ _ _ Hgot). assert (nestDepth p = nestDepth p3) as -> by lia.
    by apply (reaches_here (postfix fuel (ParenArithm x))).
Qed.

Lemma arithmExprValueNested_complete fuel :
  complete 0 (arithmExpr fuel) → complete 15 (arithmExprValue fuel) → complete_inner (arithmExprValueNested (S fuel)).
Proof.
  intros H0 Hv e s p He Hle Hg Hat Hst Hn.
  destruct (decide (match e with AWord _ | ParenArithm _ => true | _ => false end = true)) as [Hprim|Hprim].
  - destruct Hst as [Hs (t&v&r&Hf&Hstop)].
    assert (t ∉ [addAdd; subSub] ∧ t ≠ leftBrack) as [Ht Hb].
    { unfold stops in Hstop. destruct (op_level t) as [[l a]|] eqn:E.
      - split; [|by intros ->]. rewrite !elem_of_cons, elem_of_nil. by intros [->|[->|?]].
      - rewrite elem_of_app, !elem_of_cons, elem_of_nil in Hstop. rewrite !elem_of_cons, elem_of_nil. intuition. }
    eapply reaches_trans; [apply (primary_complete fuel e s p); try done; [by destruct e|eauto 6]|].
    intros p1 Hat1 Hd1. apply (reaches_postfix _ _ s); [done|]. rewrite bind_get.
    destruct (at_text_token _ _ _ _ _ Hat1 Hf) as [-> _]. rewrite decide_False, <- Hd1 by done. by apply reaches_here.
  - destruct e as [|w|op x y|op post x|x]; cbn [level] in *; try done.
    { destruct (op_level op) as [[l a]|] eqn:Hop; [|lia]. pose proof (op_level_range _ _ _ Hop). destruct a; lia. }
    cbn [reading] in He. destruct (incdec_op op) eqn:Hid; [|unfold unary_level in Hle; lia].
    apply andb_prop in He as [Hx He].
    assert (op = addAdd ∨ op = subSub) as Hop by (destruct op; try discriminate Hid; auto).
    assert (closing op = true) as Hcl by (unfold closing; by rewrite Hid).
    destruct post; cbn [arithExprSource glue_free need] in *; rewrite <- (assoc_L (++)) in Hat.
    + pose proof (first_token_closing op s Hcl) as Hf.
      eapply reaches_trans.
      { apply (primary_complete fuel x (token_text op ++ s) p); try done; [by destruct x|apply delimited_op; by destruct Hop as [-> | ->]|].
        exists op, [], s. split; [done|by destruct Hop as [-> | ->]]. }
      intros p1 Hat1 Hd1. apply (reaches_postfix _ _ (token_text op ++ s)); [done|]. rewrite bind_get.
      destruct (at_op _ _ _ _ Hat1 Hf) as [-> Hr1]. rewrite decide_True by (destruct Hop as [-> | ->]; set_solver).
      destruct Hst as [Hs (t&v&r&Hfs&_)]. eapply reaches_next; [done|by apply delimited_no_blank|done|].
      intros p2 Hat2 Hd2. assert (nestDepth p = nestDepth p2) as -> by lia. by apply reaches_here.
    + apply andb_prop in Hg as [Hg _]. apply Nat.leb_le in He.
      pose proof (first_token_closing op (arithExprSource x ++ s) Hcl) as Hf.
      destruct (at_op _ _ _ _ Hat Hf) as [Ht Hr].
      assert (reaches ((nextArith;; x ← arithmExprValue fuel; required x FollowErrExp (pos p);; mret (UnaryArithm op false x)) p)
        (Parsed (UnaryArithm op false x)) s (nestDepth p)) as Hgoal.
      { eapply (reaches_next_operand _ _ p x s); [done|done|apply Hst|]. intros p1 Hat1 Hd1.
        apply (reaches_call _ _ _ _ x s (nestDepth p1)); [apply Hv; try done; lia|]. intros p2 Hat2 Hd2.
        rewrite required_eq by (by apply reading_not_nil). assert (nestDepth p = nestDepth p2) as -> by lia. by apply reaches_here. }
      cbn [arithmExprValueNested]. rewrite bind_get, Ht. destruct Hop as [-> | ->]; exact Hgoal.
Qed.

Lemma parser_complete fuel :
  complete 0 (arithmExpr fuel) ∧ complete 1 (arithmExprAssign fuel) ∧ complete 2 (arithmExprTernary fuel) ∧
  complete 13 (arithmExprPower fuel) ∧ complete 14 (arithmExprUnary fuel) ∧ complete 15 (arithmExprValue fuel) ∧
  complete_inner (arithmExprValueNested fuel) ∧
  complete_nil (arithmExprTernary fuel) ∧ complete_nil (arithmExprPower fuel) ∧ complete_nil (arithmExprUnary fuel) ∧
  complete_nil (arithmExprValue fuel) ∧ complete_nil_inner (arithmExprValueNested fuel).
Proof.
  induction fuel as [|fuel (H0&H1&H2&H13&H14&H15&Hi&N2&N13&N14&N15&Ni)]; [split_and!; intros ?*; by left|].
  split_and!.
  - cbn [arithmExpr]. apply arithmExprBinary_complete; [done|left_ops_tac|by apply left_all|by right].
  - by apply arithmExprAssign_complete.
  - by apply arithmExprTernary_complete.
  - by apply arithmExprPower_complete.
  - by apply arithmExprUnary_complete.
  - by apply arithmExprValue_complete.
  - by apply arithmExprValueNested_complete.
  - by apply arithmExprTernary_nil.
  - by apply arithmExprPower_nil.
  - by apply arithmExprUnary_nil.
  - by apply arithmExprValue_nil.
  - apply arithmExprValueNested_nil.
Qed.

(** * The arithmetic parser as a whole: what it reads and what it reads back. *)

(** What a parse answers: every byte of the text but blanks, in the order of the grammar, within the bounds. *)
Definition read_as (src : gostr) (e : ArithmExpr) : Prop :=
  strip src = strip (arithExprSource e) ∧ (e = NilExpr ∨ reading e = true) ∧
  need e <= MaxNestingDepth ∧ nodeDepth e <= MaxTreeDepth.

Lemma Arithmetic_reads src e : Arithmetic src = Some (Ok e) → read_as src e.
Proof.
  unfold Arithmetic. rewrite Arithmetic_run. unfold mbind, P_bind.
  destruct (next (new_parser src)) as [u p1| |] eqn:E1; [|done..].
  apply next_new_parser in E1 as (Hsrc&Hok&Hd&Hp&Hl&_).
  destruct (arithmExpr (parse_fuel src) p1) as [e1 p2| |] eqn:E2; [|done..].
  destruct (checkTreeDepth_cases e1 p2) as [[-> Hdepth]|[-> _]]; [|done].
  destruct (at_end e1 p2) as [e2 p3| |] eqn:E3; [|done..]. apply at_end_Parsed in E3 as (->&->&Heof). intros [= <-].
  assert (sound 0 (arithmExpr (parse_fuel src))) as Hs by apply parser_sound.
  specialize (Hs p1 e1 p2 Hok ltac:(rewrite Hp; unfold MaxNestingDepth; lia) E2).
  pose proof (tree_depth_ok p1 e1 p2 Hs Hd Hl Hdepth) as Htree. destruct Hs as [Hok2 _ Htext Hr Hneed [_ Hpeak] _].
  split_and!; [|naive_solver|lia|done]. rewrite Hsrc, Htext.
  destruct Hok2 as (_&_&Hend). unfold pending. rewrite Heof, Hend by done. by rewrite app_nil_r.
Qed.

(** A tree in the order of the grammar, printed, is read back. *)
Lemma Arithmetic_print e :
  reading e = true → glue_free e = true → need e <= MaxNestingDepth → nodeDepth e <= MaxTreeDepth →
  Arithmetic (arithExprSource e) = Some (Ok e).
Proof.
  intros Hr Hg Hneed Hdepth. pose proof (Arithmetic_enough (arithExprSource e)) as Hfuel. revert Hfuel.
  unfold Arithmetic. rewrite Arithmetic_run. set (fuel := parse_fuel _). set (p0 := new_parser _).
  destruct (reading_first e [] Hr ltac:(done)) as (t&v&r&Hf). pose proof (reading_token e [] Hr) as Hb.
  rewrite app_nil_r in Hf, Hb.
  destruct (next_at_text p0 (arithExprSource e) t v r eq_refl Hb Hf) as (p1&Hn&Hat&Hd).
  destruct (parser_complete fuel) as [Hc _]. rewrite <- (app_nil_r (arithExprSource e)) in Hat.
  destruct (Hc e [] p1 Hr ltac:(lia) Hg Hat) as [Hout|(p2&Hp2&Hend&_)].
  - split; [done|]. exists EOF, [], []. split; [done|]. unfold stops. simpl. by apply not_elem_of_bool.
  - rewrite Hd. simpl. lia.
  - unfold mbind, P_bind. rewrite Hn, Hout. done.
  - unfold mbind, P_bind. rewrite Hn, Hp2. destruct (checkTreeDepth_cases e p2) as [[-> _]|[_ ?]]; [|lia].
    assert (tok p2 = EOF) as He by (destruct Hend as (_&?&[= <- _ _]&_); done).
    unfold at_end. by rewrite decide_True.
Qed.
