(* ===== verification/ArithNumber.v ===== *)
(** Numbers and operators of shell arithmetic ([shell/expand/arith.go]): the literals with their bases,
    and the operators on 64-bit integers. *)
From S2P Require Import Prelude GoUtf8 GoStrconv ArithSyntax.

(** ** Blanks *)

Definition arithWhitespace (c : ascii) : bool :=
  Ascii.eqb c " " || Ascii.eqb c (byte_of 9) || Ascii.eqb c (byte_of 10).
Fixpoint trimArithLeftSpace (s : gostr) : gostr :=
  match s with
  | c :: s' => if arithWhitespace c then trimArithLeftSpace s' else s
  | [] => []
  end.
Definition trimArithSpace (s : gostr) : gostr := reverse (trimArithLeftSpace (reverse (trimArithLeftSpace s))).

(** ** Literals *)

Definition in_range (lo hi : ascii) (c : ascii) : bool := between (byte_val lo) (byte_val c) (byte_val hi).
Definition isArithWordChar (c : ascii) : bool :=
  is_digit c || in_range "a" "z" c || in_range "A" "Z" c || Ascii.eqb c "_" || Ascii.eqb c "@".

Definition arithDigitValue (base : Z) (c : ascii) : option Z :=
  if is_digit c then Some (digit_val c)
  else if in_range "a" "z" c then Some (byte_val c - byte_val "a" + 10)
  else if in_range "A" "Z" c then
    if base <=? 36 then Some (byte_val c - byte_val "A" + 10) else Some (byte_val c - byte_val "A" + 36)
  else if Ascii.eqb c "@" then Some 62
  else if Ascii.eqb c "_" then Some 63
  else None.

(** The messages of an [ArithmDiagnosticError]; its texts are not kept. *)
Inductive arith_message :=
| ValueTooGreatForBase | InvalidNumber | OperandExpected | InvalidOperator | ErrorInExpression
| RecursionLevelExceeded | AssignmentToNonVariable | ExponentLessThanZero.
#[export] Instance arith_message_eq_dec : EqDecision arith_message.
Proof. solve_decision. Defined.

(** The digits of a number in [base], from [n] on: the value so far and the text behind them.  A digit
    that [stops] ends the digits, one that is too great is an error. *)
Fixpoint digits_loop (digit : ascii → option Z) (base : Z) (strict : bool) (n : Z) (s : gostr) :
    result arith_message (Z * gostr) :=
  match s with
  | [] => Ok (n, [])
  | c :: s' =>
      match digit c with
      | None => Ok (n, s)
      | Some d =>
          if base <=? d then if strict then Err ValueTooGreatForBase else Ok (n, s)
          else digits_loop digit base strict (wrap64 (wrap64 (n * base) + d)) s'
      end
  end.

Fixpoint leading_digits (s : gostr) : gostr * gostr :=
  match s with
  | c :: s' => if is_digit c then let '(ds, r) := leading_digits s' in (c :: ds, r) else ([], s)
  | [] => ([], [])
  end.

(** A digit character behind the number is a digit that is too great. *)
Definition end_of_number (r : result arith_message (Z * gostr)) : result arith_message (Z * gostr) :=
  match r with
  | Ok (n, c :: s) => if isArithWordChar c then Err ValueTooGreatForBase else r
  | _ => r
  end.

(** The digits behind [base#]. *)
Definition based_number (basePart digits : gostr) : result arith_message (Z * gostr) :=
  if (1 <? glen basePart) && starts "0" basePart then Err InvalidNumber
  else
    match Atoi basePart with
    | None => Err InvalidNumber
    | Some base =>
        if (base <? 2) || (64 <? base) || bool_decide (digits = []) then Err InvalidNumber
        else
          '(n, rest) ← digits_loop (arithDigitValue base) base true 0 digits;
          if decide (rest = digits) then Err InvalidNumber else end_of_number (Ok (n, rest))
    end.
Definition hex_number (digits : gostr) : result arith_message (Z * gostr) :=
  '(n, rest) ← digits_loop (arithDigitValue 16) 16 false 0 digits;
  if decide (rest = digits) then Err ValueTooGreatForBase else end_of_number (Ok (n, rest)).
Definition decimalDigit (c : ascii) : option Z := if is_digit c then Some (digit_val c) else None.

(** [parseArithNumberPrefix]: [None] where no number starts; else the value and the text behind it, or
    the error. *)
Definition parseArithNumberPrefix (s : gostr) : option (result arith_message (Z * gostr)) :=
  match s with
  | [] => None
  | c0 :: s0 =>
      if negb (is_digit c0) then None
      else
        let '(basePart, r) := leading_digits s in
        if starts "#" r then Some (based_number basePart (tail r))
        else if Ascii.eqb c0 "0" && (starts "x" s0 || starts "X" s0) then Some (hex_number (tail s0))
        else
          let base := if (1 <? glen s) && Ascii.eqb c0 "0" then 8 else 10 in
          Some (end_of_number (digits_loop decimalDigit base true 0 s))
  end.

Definition error_in_expression (c : ascii) : bool :=
  is_digit c || in_range "a" "z" c || in_range "A" "Z" c || existsb (Ascii.eqb c) (map byte_of [95; 39; 34]).

(** [parseArithNumber]: blanks may follow the number. *)
Definition parseArithNumber (s : gostr) : option (result arith_message Z) :=
  match parseArithNumberPrefix s with
  | None => None
  | Some (Err m) => Some (Err m)
  | Some (Ok (n, rest)) =>
      Some (if decide (trimArithSpace rest = []) then Ok n
            else let trimmed := trimArithLeftSpace rest in
                 match trimmed with
                 | c :: _ => if error_in_expression c && negb (bool_decide (rest = trimmed)) then Err ErrorInExpression
                             else Err InvalidOperator
                 | [] => Err InvalidOperator
                 end)
  end.

(** ** Operators *)

Definition oneIf (b : bool) : Z := if b then 1 else 0.

(** [uint(n) & (bits.UintSize - 1)]. *)
Definition maskedShift (n : Z) : Z := Z.land (wrapu64 n) 63.

(** [intPow]: squaring while bits of the exponent are left. *)
Fixpoint intPow_loop (p a : Z) (b : positive) : Z :=
  match b with
  | xH => wrap64 (p * a)
  | xO b => intPow_loop p (wrap64 (a * a)) b
  | xI b => intPow_loop (wrap64 (p * a)) (wrap64 (a * a)) b
  end.
Definition intPow (a b : Z) : Z := match b with Zpos b => intPow_loop 1 a b | _ => 1 end.

(** [binArit]; the division by zero is the caller's check.  [None] is the error for an operator that is
    none. *)
Definition binArit (op : BinAritOperator) (x y : Z) : option (result arith_message Z) :=
  match op with
  | Add => Some (Ok (wrap64 (x + y)))
  | Sub => Some (Ok (wrap64 (x - y)))
  | Mul => Some (Ok (wrap64 (x * y)))
  | Quo => Some (Ok (wrap64 (Z.quot x y)))
  | Rem => Some (Ok (Z.rem x y))
  | Pow => Some (if y <? 0 then Err ExponentLessThanZero else Ok (intPow x y))
  | Eql => Some (Ok (oneIf (x =? y)))
  | Gtr => Some (Ok (oneIf (y <? x)))
  | Lss => Some (Ok (oneIf (x <? y)))
  | Neq => Some (Ok (oneIf (negb (x =? y))))
  | Leq => Some (Ok (oneIf (x <=? y)))
  | Geq => Some (Ok (oneIf (y <=? x)))
  | And => Some (Ok (Z.land x y))
  | Or => Some (Ok (Z.lor x y))
  | Xor => Some (Ok (Z.lxor x y))
  | Shr => Some (Ok (Z.shiftr x (maskedShift y)))
  | Shl => Some (Ok (wrap64 (Z.shiftl x (maskedShift y))))
  | Comma => Some (Ok y)
  | _ => None
  end.
