(* ===== verification/Arith.v ===== *)
(** Evaluation of shell arithmetic: [shell/expand/arith.go].  What the evaluator asks of the rest of the
    shell (expansion of words, variables) is the class [ArithShell]; the diagnostics keep their message
    and not their texts. *)
From S2P Require Import Prelude GoMonad GoUtf8 GoStrconv ArithSyntax ArithNumber.

(** ** Names, words *)

Definition asciiLetter (c : ascii) : bool := in_range "a" "z" c || in_range "A" "Z" c.
(** [syntax.ValidName]. *)
Definition ValidName (s : gostr) : bool :=
  match s with
  | [] => false
  | c :: s' => (asciiLetter c || Ascii.eqb c "_") && forallb (fun c => asciiLetter c || Ascii.eqb c "_" || is_digit c) s'
  end.

Definition hasSingleQuote (w : Word) : bool := existsb (fun p => match p with SglQuoted _ => true | _ => false end) w.
Definition part_expands (p : WordPart) : bool :=
  match p with
  | ParamExp Short Dollar _ Index _ => negb (Short && bool_decide (is_Some Index) && negb Dollar)
  | CmdSubst _ | ArithmExp _ | DblQuoted _ => true
  | _ => false
  end.
Definition containsShellExpansion (w : Word) : bool := existsb part_expands w.
Fixpoint arithExprUsesExpandedValue (e : ArithmExpr) : bool :=
  match e with
  | NilExpr => false
  | AWord w => containsShellExpansion w
  | BinaryArithm _ x y => arithExprUsesExpandedValue x || arithExprUsesExpandedValue y
  | UnaryArithm _ _ x | ParenArithm x => arithExprUsesExpandedValue x
  end.
Definition arithWordHasQuotes (w : Word) : bool :=
  existsb (fun p => match p with SglQuoted _ | DblQuoted _ => true | _ => false end) w.
Definition isEmptyArithWord (w : Word) : bool := bool_decide (w = [Lit []]).
Definition arithHasLeadingInvalidControl (src : gostr) : bool :=
  match trimArithLeftSpace src with
  | c :: _ => existsb (Ascii.eqb c) (map byte_of [13; 11; 12])
  | [] => false
  end.

(** ** Errors *)

Inductive arith_error :=
| ArithmSyntaxError
| ArithmDiagnosticError (Message : arith_message)
| ArithmDivByZeroError
| AssignDivByZeroError
| UnboundVariableError (Name : gostr)
| UnsetParameterError (unbound : bool)
| BadArraySubscriptError (Name : gostr)
| UnsupportedOperator (op : token)
| Panic
| ShellError (id : Z).
#[export] Instance arith_error_eq_dec : EqDecision arith_error.
Proof. solve_decision. Defined.

(** The message for an operand that is missing, by [arithParseOperandExpectedToken]. *)
Definition operand_expected (k : parse_error_kind) : bool :=
  match k with FollowErrExp | MustFollowExpression => true | _ => false end.

(** [arithRuntimeErrorToken]: the text from the error on. *)
Definition arithRuntimeErrorToken (source : gostr) (err : parse_error) : gostr :=
  if decide (source = [] ∨ err_pos err = []) then source
  else let fix trim s := match s with
                         | c :: s' => if Ascii.eqb c " " || Ascii.eqb c (byte_of 9) then trim s' else s
                         | [] => []
                         end in trim (err_pos err).
Definition quote_or_underscore (c : ascii) : bool := existsb (Ascii.eqb c) (map byte_of [95; 39; 34]).
Definition arithRuntimeIsExpressionError (tokenText : gostr) : bool :=
  match tokenText with
  | [] => false
  | c :: _ =>
      if asciiLetter c || quote_or_underscore c then true
      else
        let '(ds, r) := leading_digits tokenText in
        if decide (ds = []) then false
        else
          let fix skip s := match s with
                            | c :: s' => if existsb (Ascii.eqb c) (map byte_of [32; 9; 13; 10]) then skip s' else s
                            | [] => []
                            end in
          match skip r with
          | b :: _ => negb (bool_decide (skip r = r)) && (is_digit b || asciiLetter b || quote_or_underscore b)
          | [] => false
          end
  end.
Definition arithRuntimeParseError (src : gostr) (err : parse_error) : arith_error :=
  if operand_expected (kind err) then ArithmDiagnosticError OperandExpected
  else if arithRuntimeIsExpressionError (arithRuntimeErrorToken src err) then ArithmDiagnosticError ErrorInExpression
  else ArithmDiagnosticError InvalidOperator.

(** [arithParseErrorToken]: like the text from the error on, with the byte before it when it is [#], [[] or [.]. *)
Definition arithParseErrorToken (source : gostr) (err : parse_error) : gostr :=
  if decide (source = [] ∨ err_pos err = []) then source
  else
    let start := (length source - length (err_pos err))%nat in
    match nth_error source (start - 1) with
    | Some c => if (0 <? start)%nat && existsb (Ascii.eqb c) (go "#[.") then c :: err_pos err else err_pos err
    | None => err_pos err
    end.
Definition arithWordParseError (src : gostr) (err : parse_error) : arith_error :=
  if operand_expected (kind err) then ArithmDiagnosticError OperandExpected
  else if arithRuntimeIsExpressionError (arithParseErrorToken src err) then ArithmDiagnosticError ErrorInExpression
  else ArithmDiagnosticError InvalidOperator.

(** ** The shell around the evaluator *)

(** What [Env.Get] answers. *)
Record Variable_ := MkVariable { IsSet : bool; Str : gostr; UnsetArithmZero : bool }.
(** A reference; the text of its subscript stands for the subscript. *)
Record VarRef := MkVarRef { ref_Name : gostr; ref_Index : option gostr }.

(** A call that may fail, over the state [St] of the shell.  The number is [cfg.arithDepth], which
    every call puts back. *)
Abbreviation M := (stateful arith_error).

Class ArithShell (St : Type) := {
  Literal : nat → Word → M St gostr;
  Document : nat → Word → M St gostr;
  AssignmentWordLiteral : nat → Word → M St gostr;
  (** [Parser.Arithmetic] of a text with syntax of words in it. *)
  Arithmetic_words : gostr → result parse_error ArithmExpr;
  Env_Get : gostr → M St Variable_;
  NoUnset : bool;
  (** [cfg.currentLine()], and [Pos().Line()] of a tree. *)
  currentLine : St → Z;
  exprLine : ArithmExpr → Z;
  parseVarRef : gostr → option VarRef;
  resolveVarRef : VarRef → M St (option VarRef * Variable_);
  varRef : nat → VarRef → M St gostr;
  envSetRef : nat → VarRef → gostr → M St unit;
}.

Definition maxArithRecursionDepth : nat := 1024.
Definition maxNameRefDepth : nat := 100.

Inductive arithLValueMode := arithLValueReadModifyWrite | arithLValuePlainAssign.

Section eval.
Context {St : Type} `{!ArithShell St}.
Implicit Types (expr x y : ArithmExpr) (depth arithDepth : nat).

(** [p.Arithmetic]: the parser of [ArithSyntax], with the words it leaves to the parser of words. *)
Definition parseArith (src : gostr) : result parse_error ArithmExpr :=
  match Arithmetic src with
  | Some (Err (MkParseError Foreign _)) | None => Arithmetic_words src
  | Some r => r
  end.

(** [arithRuntimeSource]; its cache holds the text of words that are asked for again. *)
Fixpoint arithRuntimeSource (arithDepth : nat) (expr : ArithmExpr) : M St gostr :=
  match expr with
  | AWord w => if arithExprUsesExpandedValue expr then Literal arithDepth w else mret (arithExprSource expr)
  | BinaryArithm op x y =>
      left ← arithRuntimeSource arithDepth x;
      right ← arithRuntimeSource arithDepth y;
      mret (left ++ token_text op ++ right)
  | UnaryArithm op post x =>
      inner ← arithRuntimeSource arithDepth x;
      mret (if post then inner ++ token_text op else token_text op ++ inner)
  | ParenArithm x => inner ← arithRuntimeSource arithDepth x; mret (go "(" ++ inner ++ go ")")
  | NilExpr => mret (arithExprSource expr)
  end.

(** [arithmRuntimeParse]: the tree of the expanded text, if it is another one, and the text.  The call of
    [arithRuntimeDiagnosticReplacements] is left out: it only asks [arithRuntimeSource] for words whose text
    the call before has put into the cache, which cannot fail, and what it answers are texts of diagnostics. *)
Definition arithmRuntimeParse (arithDepth : nat) (expr : ArithmExpr) : M St (option ArithmExpr * gostr) :=
  if negb (arithExprUsesExpandedValue expr) then mret (None, [])
  else
    src ← arithRuntimeSource arithDepth expr;
    if arithHasLeadingInvalidControl src then throw (ArithmDiagnosticError OperandExpected)
    else
      match parseArith src with
      | Err err => throw (arithRuntimeParseError src err)
      | Ok NilExpr => mret (None, [])
      | Ok (AWord w) => if decide (Word_Lit w = src) then mret (None, src) else mret (Some (AWord w), src)
      | Ok parsed => mret (Some parsed, src)
      end.

(** The loop of [arithmStringValue] over names: the value, or the text to evaluate. *)
Fixpoint follow_names (n : nat) (s : gostr) : M St (option gostr) :=
  if negb (ValidName s) then mret (Some s)
  else
    vr ← Env_Get s;
    if negb (IsSet vr) then
      if NoUnset then
        if UnsetArithmZero vr then mret None else throw (UnboundVariableError s)
      else mret (Some s)
    else if decide (Str vr = []) then mret (Some s)
    else match n with
         | O => mret (Some s)
         | S n => follow_names n (Str vr)
         end.

Definition number_value (s : gostr) : M St Z :=
  match parseArithNumber s with
  | None => mret 0
  | Some (Ok n) => mret n
  | Some (Err m) => throw (ArithmDiagnosticError m)
  end.

(** [arithmStringValue]; [eval] evaluates the tree of a value, with the rest of the nesting.
    [word] is nil for a variable that is assigned to. *)
Definition arithmStringValue (eval : ArithmExpr → M St Z) (tokenExpr : ArithmExpr) (word : option Word) (str : gostr) : M St Z :=
  let s := trimArithSpace str in
  if bool_decide (s = []) || match word with Some w => isEmptyArithWord w | None => false end then mret 0
  else fun st =>
    if bool_decide (s = go "LINENO") && negb (currentLine st =? 0) then (Ok (wrap64 (currentLine st)), st)
    else if bool_decide (s = go "LINENO") && negb (exprLine tokenExpr =? 0) then (Ok (wrap64 (exprLine tokenExpr)), st)
    else
      (o ← follow_names (maxNameRefDepth - 1) s;
       match o with
       | None => mret 0
       | Some s =>
           match parseArith s with
           | Ok NilExpr | Err _ => number_value s
           | Ok (AWord w) => if decide (Word_Lit w = s) then number_value s else eval (AWord w)
           | Ok nested => eval nested
           end
       end) st.

(** [arithmVarRef]. *)
Definition arithmVarRef (expr : ArithmExpr) : option VarRef :=
  match expr with
  | AWord w =>
      let parsed :=
        if containsShellExpansion w then None
        else match parseVarRef (arithExprSource expr) with
             | Some ref => if ValidName (ref_Name ref) && negb (bool_decide (ref_Index ref = Some [])) then Some ref else None
             | None => None
             end in
      match w with
      | [Lit v] => if ValidName v then Some (MkVarRef v None) else parsed
      | [ParamExp true false name (Some idx) _] => if ValidName name then Some (MkVarRef name (Some idx)) else parsed
      | _ => parsed
      end
  | _ => None
  end.

(** [arithmLValue]: the reference and the value it has. *)
Definition arithmLValue (eval : ArithmExpr → M St Z) (arithDepth : nat) (expr : ArithmExpr) (mode : arithLValueMode) :
    M St (VarRef * Z) :=
  ref ← match arithmVarRef expr with
        | Some ref => mret ref
        | None =>
            match expr with
            | AWord w =>
                text ← (if containsShellExpansion w then Literal arithDepth w else mret (arithExprSource expr));
                match parseVarRef text with
                | None => throw (ArithmDiagnosticError InvalidOperator)
                | Some ref => if decide (ref_Index ref = Some []) then throw (BadArraySubscriptError text) else mret ref
                end
            | _ => throw (ArithmDiagnosticError AssignmentToNonVariable)
            end
        end;
  '(resolved, vr) ← resolveVarRef ref;
  let ref := default ref resolved in
  if NoUnset && negb (IsSet vr) then
    match mode with
    | arithLValuePlainAssign => mret (ref, 0)
    | _ => if UnsetArithmZero vr then mret (ref, 0) else throw (UnboundVariableError (ref_Name ref))
    end
  else
    val ← varRef arithDepth ref;
    n ← arithmStringValue eval expr None val;
    mret (ref, n).

(** The operators of [assgnArit]: the new value of a variable with the value [acc]. *)
Definition assign_op (op : BinAritOperator) (acc arg : Z) : result arith_error Z :=
  match op with
  | assgn => Ok arg
  | addAssgn => Ok (wrap64 (acc + arg))
  | subAssgn => Ok (wrap64 (acc - arg))
  | mulAssgn => Ok (wrap64 (acc * arg))
  | quoAssgn => if arg =? 0 then Err AssignDivByZeroError else Ok (wrap64 (Z.quot acc arg))
  | remAssgn => if arg =? 0 then Err AssignDivByZeroError else Ok (Z.rem acc arg)
  | andAssgn => Ok (Z.land acc arg)
  | orAssgn => Ok (Z.lor acc arg)
  | xorAssgn => Ok (Z.lxor acc arg)
  | shlAssgn => Ok (wrap64 (Z.shiftl acc (maskedShift arg)))
  | shrAssgn => Ok (Z.shiftr acc (maskedShift arg))
  | _ => Ok acc
  end.

(** [assgnArit]: the old value is read first, for every operator. *)
Definition assgnArit (eval : ArithmExpr → M St Z) (arithDepth : nat) (op : BinAritOperator) (x : ArithmExpr) (evalY : M St Z) : M St Z :=
  let mode := if decide (op = Assgn) then arithLValuePlainAssign else arithLValueReadModifyWrite in
  '(ref, val) ← arithmLValue eval arithDepth x mode;
  arg ← evalY;
  acc ← lift (assign_op op val arg);
  envSetRef arithDepth ref (Itoa acc);;
  mret acc.
(** [++] and [--]. *)
Definition incdecArit (eval : ArithmExpr → M St Z) (arithDepth : nat) (op : UnAritOperator) (post : bool) (x : ArithmExpr) : M St Z :=
  '(ref, old) ← arithmLValue eval arithDepth x arithLValueReadModifyWrite;
  let val := if decide (op = Inc) then wrap64 (old + 1) else wrap64 (old - 1) in
  envSetRef arithDepth ref (Itoa val);;
  mret (if post : bool then old else val).

Definition unaryArit (op : UnAritOperator) (val : Z) : result arith_error Z :=
  match op with
  | Not => Ok (oneIf (val =? 0))
  | BitNegation => Ok (Z.lnot val)
  | Plus => Ok val
  | Minus => Ok (wrap64 (- val))
  | _ => Err (UnsupportedOperator op)
  end.
Definition binaryArit (op : BinAritOperator) (left right : Z) : result arith_error Z :=
  if (right =? 0) && bool_decide (op ∈ [Quo; Rem]) then Err ArithmDivByZeroError
  else match binArit op left right with
       | Some (Ok z) => Ok z
       | Some (Err m) => Err (ArithmDiagnosticError m)
       | None => Err (UnsupportedOperator op)
       end.

(** The error of the expansion of an element of an array names the array. *)
Definition document_error (w : Word) (e : arith_error) : arith_error :=
  match arithmVarRef (AWord w), e with
  | Some (MkVarRef name (Some _)), (UnboundVariableError _ | UnsetParameterError true) => UnboundVariableError name
  | _, _ => e
  end.

(** The value of a word that is not expanded at run time. *)
Definition arithmWord (eval : ArithmExpr → M St Z) (arithDepth : nat) (w : Word) : M St Z :=
  if hasSingleQuote w then throw ArithmSyntaxError
  else
    (if containsShellExpansion w then mret tt
     else match parseArith (arithExprSource (AWord w)) with
          | Ok _ => mret tt
          | Err err => throw (arithWordParseError (arithExprSource (AWord w)) err)
          end);;
    str ← map_error (document_error w) (Document arithDepth w);
    arithmStringValue eval (AWord w) (Some w) str.

Definition assignOp (op : BinAritOperator) : bool :=
  bool_decide (op ∈ [assgn; addAssgn; subAssgn; mulAssgn; quoAssgn; remAssgn; andAssgn; orAssgn; xorAssgn; shlAssgn; shrAssgn]).

(** [arithm] on the tree [expr]; [enter d nested] evaluates the tree of an expanded text or of the value
    of a variable, one level deeper. *)
Fixpoint arithm_tree (enter : nat → ArithmExpr → M St Z) (arithDepth : nat) (expr : ArithmExpr) (depth : nat) : M St Z :=
  let by_cases : M St Z :=
    match expr with
    | AWord w => arithmWord (enter depth) arithDepth w
    | ParenArithm x => arithm_tree enter arithDepth x depth
    | UnaryArithm op post x =>
        if decide (op = Inc ∨ op = Dec) then incdecArit (enter 0%nat) arithDepth op post x
        else val ← arithm_tree enter arithDepth x depth; lift (unaryArit op val)
    | BinaryArithm op x y =>
        if assignOp op then assgnArit (enter 0%nat) arithDepth op x (arithm_tree enter arithDepth y 0%nat)
        else
          match op with
          | TernQuest =>
              cond ← arithm_tree enter arithDepth x depth;
              match y with
              | BinaryArithm _ t f =>
                  if decide (cond = 0) then arithm_tree enter arithDepth f depth else arithm_tree enter arithDepth t depth
              | _ => throw Panic
              end
          | AndArit =>
              left ← arithm_tree enter arithDepth x depth;
              if decide (left = 0) then mret 0
              else right ← arithm_tree enter arithDepth y depth; mret (oneIf (negb (right =? 0)))
          | OrArit =>
              left ← arithm_tree enter arithDepth x depth;
              if decide (left = 0) then right ← arithm_tree enter arithDepth y depth; mret (oneIf (negb (right =? 0)))
              else mret 1
          | _ =>
              left ← arithm_tree enter arithDepth x depth;
              right ← arithm_tree enter arithDepth y depth;
              lift (binaryArit op left right)
          end
    | NilExpr => throw Panic
    end in
  if (depth <=? maxNameRefDepth)%nat then
    '(parsed, src) ← arithmRuntimeParse arithDepth expr;
    match parsed, expr with
    | Some parsed, _ => enter depth parsed
    | None, AWord w =>
        if negb (bool_decide (src = [])) && negb (arithWordHasQuotes w)
        then arithmStringValue (enter depth) expr (Some w) src
        else by_cases
    | None, _ => by_cases
    end
  else by_cases.

(** [arithm]: [budget] is what is left of the nesting, [maxArithRecursionDepth - arithDepth], so that
    [enterArith] fails when it is spent. *)
Fixpoint arithm (budget arithDepth : nat) : ArithmExpr → nat → M St Z :=
  arithm_tree (fun d nested =>
    match budget with
    | O => throw (ArithmDiagnosticError RecursionLevelExceeded)
    | S budget => arithm budget (S arithDepth) nested (S d)
    end) arithDepth.

(** [Arithm]: an entry from outside, also from a subscript that is being evaluated. *)
Definition Arithm (arithDepth : nat) (expr : ArithmExpr) : M St Z :=
  if (2 * maxArithRecursionDepth <=? arithDepth)%nat then throw (ArithmDiagnosticError RecursionLevelExceeded)
  else arithm (maxArithRecursionDepth - S arithDepth) (S arithDepth) expr 0.

(** [ArithmLet]: quotes are removed first. *)
Fixpoint arithmLetSource (arithDepth : nat) (expr : ArithmExpr) : M St gostr :=
  match expr with
  | AWord w => AssignmentWordLiteral arithDepth w
  | BinaryArithm op x y =>
      left ← arithmLetSource arithDepth x;
      right ← arithmLetSource arithDepth y;
      mret (left ++ token_text op ++ right)
  | UnaryArithm op post x =>
      inner ← arithmLetSource arithDepth x;
      mret (if post then inner ++ token_text op else token_text op ++ inner)
  | ParenArithm x => inner ← arithmLetSource arithDepth x; mret (go "(" ++ inner ++ go ")")
  | NilExpr => mret (arithExprSource expr)
  end.
Definition ArithmLet (arithDepth : nat) (expr : ArithmExpr) : M St Z :=
  if decide (expr = NilExpr) then mret 0
  else
    src ← arithmLetSource arithDepth expr;
    if arithHasLeadingInvalidControl src then throw (ArithmDiagnosticError OperandExpected)
    else
      match parseArith src with
      | Err err => throw (arithRuntimeParseError src err)
      | Ok NilExpr => mret 0
      | Ok parsed => Arithm arithDepth parsed
      end.
End eval.
