(* ===== verification/ArithRange.v ===== *)
(** Every value of an arithmetic evaluation is a 64-bit integer, so that the operators that the model writes
    without a wrap-around are the ones on Go's int, and the operations of the ring of integers modulo [2^64]
    commute with the wrap-around. *)
From S2P Require Import Prelude GoMonad GoUtf8 GoStrconv ArithSyntax ArithNumber Arith.

(** ** Bits of 64-bit integers *)

(** A 64-bit integer is its low bits and its sign. *)
Lemma int64_ok_sign z : int64_ok z ↔ Z.shiftr z 63 = 0 ∨ Z.shiftr z 63 = -1.
Proof.
  unfold int64_ok. rewrite Z.shiftr_div_pow2 by lia. pose proof (Z.div_mod z (2 ^ 63)). pose proof (Z.mod_pos_bound z (2 ^ 63)).
  split; [|lia]. intros H1. assert (-1 <= z / 2 ^ 63 <= 0); [|lia]. split; [apply Z.div_le_lower_bound; lia|].
  assert (z / 2 ^ 63 < 1) by (apply Z.div_lt_upper_bound; lia). lia.
Qed.

Lemma int64_bitop (f : Z → Z → Z) x y :
  (∀ a b, Z.shiftr (f a b) 63 = f (Z.shiftr a 63) (Z.shiftr b 63)) →
  (∀ a b, a = 0 ∨ a = -1 → b = 0 ∨ b = -1 → f a b = 0 ∨ f a b = -1) → int64_ok x → int64_ok y → int64_ok (f x y).
Proof. rewrite !int64_ok_sign. intros Hs Hf Hx Hy. rewrite Hs. by apply Hf. Qed.
Lemma land_range x y : int64_ok x → int64_ok y → int64_ok (Z.land x y).
Proof. apply int64_bitop; [intros; apply Z.shiftr_land|]. intros a b [->| ->] [->| ->]; vm_compute; auto. Qed.
Lemma lor_range x y : int64_ok x → int64_ok y → int64_ok (Z.lor x y).
Proof. apply int64_bitop; [intros; apply Z.shiftr_lor|]. intros a b [->| ->] [->| ->]; vm_compute; auto. Qed.
Lemma lxor_range x y : int64_ok x → int64_ok y → int64_ok (Z.lxor x y).
Proof. apply int64_bitop; [intros; apply Z.shiftr_lxor|]. intros a b [->| ->] [->| ->]; vm_compute; auto. Qed.
Lemma lnot_range x : int64_ok x → int64_ok (Z.lnot x).
Proof. unfold int64_ok, Z.lnot. lia. Qed.
Lemma maskedShift_range n : 0 <= maskedShift n < 64.
Proof.
  unfold maskedShift. change 63 with (Z.ones 6). rewrite Z.land_ones by lia. apply Z.mod_pos_bound. lia.
Qed.
Lemma maskedShift_mod n : maskedShift n = n mod 64.
Proof.
  unfold maskedShift, wrapu64. change 63 with (Z.ones 6). rewrite Z.land_ones by lia. change (2 ^ 6) with 64.
  change (2 ^ 64) with (64 * 2 ^ 58). rewrite Z.rem_mul_r by lia.
  by rewrite (Z.mul_comm 64), Z.mod_add, Z.mod_mod by lia.
Qed.
Lemma shiftr_range x n : int64_ok x → 0 <= n → int64_ok (Z.shiftr x n).
Proof.
  unfold int64_ok. intros [Hl Hh] Hn. rewrite Z.shiftr_div_pow2 by lia. pose proof (Z.pow_pos_nonneg 2 n ltac:(lia) Hn).
  split; [apply Z.div_le_lower_bound; nia|apply Z.div_lt_upper_bound; nia].
Qed.
Lemma rem_range x y : int64_ok x → int64_ok y → int64_ok (Z.rem x y).
Proof.
  unfold int64_ok. intros ? ?. destruct (decide (y = 0)) as [->|Hy]; [by rewrite Z.rem_0_r_ext by done; lia|].
  pose proof (Z.rem_bound_abs x y Hy). lia.
Qed.

(** ** Wrapping commutes with the operators of a ring *)

Lemma wrap64_sub x y : wrap64 (wrap64 x - wrap64 y) = wrap64 (x - y).
Proof. apply wrap64_eq_iff. rewrite Zminus_mod, !wrap64_mod. symmetry. apply Zminus_mod. Qed.
Lemma wrap64_opp x : wrap64 (- wrap64 x) = wrap64 (- x).
Proof. replace (- wrap64 x) with (0 - wrap64 x) by lia. change 0 with (wrap64 0) at 1. rewrite wrap64_sub. done. Qed.
Lemma wrap64_bits x i : 0 <= i < 64 → Z.testbit (wrap64 x) i = Z.testbit x i.
Proof.
  intros Hi. rewrite <- (Z.mod_pow2_bits_low (wrap64 x) 64 i), wrap64_mod, Z.mod_pow2_bits_low by lia. done.
Qed.
Lemma wrap64_ext x y : (∀ i, 0 <= i < 64 → Z.testbit x i = Z.testbit y i) → wrap64 x = wrap64 y.
Proof.
  intros H. apply wrap64_eq_iff, Z.bits_inj'. intros i Hi. destruct (decide (i < 64)).
  - rewrite !Z.mod_pow2_bits_low by lia. apply H. lia.
  - by rewrite !Z.mod_pow2_bits_high by lia.
Qed.

(** Bitwise operators act on the low 64 bits alone. *)
Lemma wrap64_land x y : Z.land (wrap64 x) (wrap64 y) = wrap64 (Z.land x y).
Proof.
  rewrite <- (wrap64_id (Z.land (wrap64 x) (wrap64 y))) by (apply land_range; apply wrap64_range).
  apply wrap64_ext. intros i Hi. by rewrite !Z.land_spec, !wrap64_bits.
Qed.
Lemma wrap64_lor x y : Z.lor (wrap64 x) (wrap64 y) = wrap64 (Z.lor x y).
Proof.
  rewrite <- (wrap64_id (Z.lor (wrap64 x) (wrap64 y))) by (apply lor_range; apply wrap64_range).
  apply wrap64_ext. intros i Hi. by rewrite !Z.lor_spec, !wrap64_bits.
Qed.
Lemma wrap64_lxor x y : Z.lxor (wrap64 x) (wrap64 y) = wrap64 (Z.lxor x y).
Proof.
  rewrite <- (wrap64_id (Z.lxor (wrap64 x) (wrap64 y))) by (apply lxor_range; apply wrap64_range).
  apply wrap64_ext. intros i Hi. by rewrite !Z.lxor_spec, !wrap64_bits.
Qed.
Lemma wrap64_lnot x : Z.lnot (wrap64 x) = wrap64 (Z.lnot x).
Proof.
  rewrite <- (wrap64_id (Z.lnot (wrap64 x))) by apply lnot_range, wrap64_range.
  apply wrap64_ext. intros i Hi. by rewrite !Z.lnot_spec, !wrap64_bits by lia.
Qed.
Lemma wrap64_shl x y : wrap64 (Z.shiftl (wrap64 x) (maskedShift (wrap64 y))) = wrap64 (Z.shiftl x (y mod 64)).
Proof.
  rewrite maskedShift_mod. assert (wrap64 y mod 64 = y mod 64) as ->.
  { pose proof (wrap64_mod y) as H. rewrite <- (maskedShift_mod y), <- (maskedShift_mod (wrap64 y)).
    unfold maskedShift, wrapu64. by rewrite H. }
  pose proof (Z.mod_pos_bound y 64 ltac:(lia)). apply wrap64_ext. intros i Hi.
  destruct (decide (i < y mod 64)); [by rewrite !Z.shiftl_spec_low|].
  rewrite !Z.shiftl_spec, wrap64_bits by lia. done.
Qed.

(** ** Powers *)

Lemma wrap64_mul_idemp x y : wrap64 (wrap64 x * y) = wrap64 (x * y).
Proof. rewrite <- (wrap64_mul (wrap64 x)), wrap64_idemp, wrap64_mul. done. Qed.
Lemma wrap64_pow x n : wrap64 (wrap64 x ^ n) = wrap64 (x ^ n).
Proof.
  apply wrap64_eq_iff. by rewrite <- Z.mod_pow_l, wrap64_mod, Z.mod_pow_l.
Qed.
Lemma wrap64_mul_pow p a n : wrap64 (wrap64 p * wrap64 a ^ n) = wrap64 (p * a ^ n).
Proof. by rewrite <- (wrap64_mul (wrap64 p)), wrap64_idemp, wrap64_pow, wrap64_mul. Qed.

Lemma intPow_loop_exact p a b : intPow_loop p a b = wrap64 (p * a ^ Zpos b).
Proof.
  revert p a. induction b as [b IH|b IH|]; intros p a; cbn [intPow_loop].
  - rewrite IH, wrap64_mul_pow. f_equal. rewrite Pos2Z.inj_xI, Z.pow_add_r, Z.pow_mul_r, Z.pow_2_r, Z.pow_1_r by lia. lia.
  - rewrite IH, <- (wrap64_idemp (_ * _)), <- wrap64_mul, wrap64_idemp, wrap64_pow, wrap64_mul. f_equal.
    rewrite Pos2Z.inj_xO, Z.pow_mul_r, Z.pow_2_r by lia. done.
  - by rewrite Z.pow_1_r.
Qed.
Lemma intPow_exact a b : 0 <= b → intPow a b = wrap64 (a ^ b).
Proof.
  intros Hb. destruct b as [|b|b]; [done| |lia]. unfold intPow. rewrite intPow_loop_exact. f_equal. lia.
Qed.

(** ** The range of every value *)

Lemma oneIf_range b : int64_ok (oneIf b).
Proof. unfold int64_ok. by destruct b. Qed.
Lemma intPow_range a b : int64_ok (intPow a b).
Proof.
  destruct (Z.le_gt_cases 0 b); [rewrite intPow_exact by done; apply wrap64_range|]. unfold int64_ok. by destruct b.
Qed.
Create HintDb int64.
#[export] Hint Resolve oneIf_range intPow_range wrap64_range land_range lor_range lxor_range lnot_range rem_range : int64.

Lemma binArit_range op x y z : int64_ok x → int64_ok y → binArit op x y = Some (Ok z) → int64_ok z.
Proof.
  intros Hx Hy H. destruct op; simpl in H; simplify_eq; auto with int64.
  - case_match; simplify_eq. auto with int64.
  - apply shiftr_range; [done|apply maskedShift_range].
Qed.

Lemma digits_loop_range digit base strict n s r t :
  int64_ok n → digits_loop digit base strict n s = Ok (r, t) → int64_ok r.
Proof.
  revert n. induction s as [|c s IH]; intros n Hn; simpl; [by intros [= <- _]|].
  destruct (digit c); [|by intros [= <- _]]. case_match; [case_match; [done|by intros [= <- _]]|].
  apply IH, wrap64_range.
Qed.
Lemma end_of_number_Ok r n t : end_of_number r = Ok (n, t) → r = Ok (n, t).
Proof. destruct r as [[m [|c s]]|e]; simpl; try done. by case_match. Qed.
Lemma int64_0 : int64_ok 0.
Proof. unfold int64_ok. lia. Qed.
Lemma based_number_range bp ds n t : based_number bp ds = Ok (n, t) → int64_ok n.
Proof.
  unfold based_number. case_match; [done|]. destruct (Atoi bp) as [base|]; [|done]. case_match; [done|].
  destruct (digits_loop (arithDigitValue base) base true 0 ds) as [[m r]|] eqn:E; [|done].
  cbn [mbind result_bind]. case_decide; [done|]. intros [= <- <-]%end_of_number_Ok.
  by eapply digits_loop_range, E; apply int64_0.
Qed.
Lemma hex_number_range ds n t : hex_number ds = Ok (n, t) → int64_ok n.
Proof.
  unfold hex_number. destruct (digits_loop (arithDigitValue 16) 16 false 0 ds) as [[m r]|] eqn:E; [|done].
  cbn [mbind result_bind]. case_decide; [done|]. intros [= <- <-]%end_of_number_Ok.
  by eapply digits_loop_range, E; apply int64_0.
Qed.
Lemma parseArithNumber_range s n : parseArithNumber s = Some (Ok n) → int64_ok n.
Proof.
  unfold parseArithNumber. destruct (parseArithNumberPrefix s) as [[[m r]|]|] eqn:E; try done.
  case_decide; [|by repeat case_match]. intros [= <-]. unfold parseArithNumberPrefix in E.
  destruct s as [|c s]; [done|]. case_match; [done|]. destruct (leading_digits (c :: s)) as [bp r0].
  case_match; [injection E as E; by eapply based_number_range|].
  case_match; [injection E as E; by eapply hex_number_range|].
  injection E as E%end_of_number_Ok. exact (digits_loop_range _ _ _ 0 (c :: s) _ r int64_0 E).
Qed.

Lemma assign_op_range op acc arg z : int64_ok acc → int64_ok arg → assign_op op acc arg = Ok z → int64_ok z.
Proof.
  intros Ha Hb H. destruct op; simpl in H; repeat case_match; simplify_eq; auto with int64.
  apply shiftr_range; [done|apply maskedShift_range].
Qed.
Lemma unaryArit_range op v z : int64_ok v → unaryArit op v = Ok z → int64_ok z.
Proof. intros Hv H. destruct op; simpl in H; simplify_eq; auto with int64. Qed.
Lemma binaryArit_range op x y z : int64_ok x → int64_ok y → binaryArit op x y = Ok z → int64_ok z.
Proof.
  intros Hx Hy. unfold binaryArit. case_match; [done|]. destruct (binArit op x y) as [[w|]|] eqn:E; try done.
  intros [= ->]. exact (binArit_range op x y z Hx Hy E).
Qed.

Section range.
Context {St : Type} `{!ArithShell St}.

Lemma returns_if {A} (Q : Prop) `{Decision Q} (P : A → Prop) (m1 m2 : M St A) :
  returns P m1 → returns P m2 → returns P (if decide Q then m1 else m2).
Proof. by case_decide. Qed.

Lemma number_value_range s : returns int64_ok (number_value (St := St) s).
Proof.
  unfold number_value. destruct (parseArithNumber s) as [[n|]|] eqn:E; [|done|apply returns_ret, int64_0].
  by apply returns_ret, (parseArithNumber_range s).
Qed.

Lemma arithmStringValue_range eval tokenExpr word str :
  (∀ e, returns int64_ok (eval e)) → returns int64_ok (arithmStringValue (St := St) eval tokenExpr word str).
Proof.
  intros He. unfold arithmStringValue. case_match; [apply returns_ret, int64_0|]. intros st z st'.
  destruct (_ && negb (currentLine st =? 0)); [intros [= <- _]; apply wrap64_range|].
  destruct (_ && negb (exprLine tokenExpr =? 0)); [intros [= <- _]; apply wrap64_range|].
  revert st z st'. apply returns_skip. intros [s|]; [|apply returns_ret, int64_0].
  destruct (parseArith s) as [[|w|op x y|op post x|x]|err]; try apply number_value_range; try apply He.
  case_decide; [apply number_value_range|apply He].
Qed.

Lemma arithmLValue_range eval d expr mode :
  (∀ e, returns int64_ok (eval e)) → returns (fun r => int64_ok r.2) (arithmLValue (St := St) eval d expr mode).
Proof.
  intros He. unfold arithmLValue. apply returns_skip. intros ref. apply returns_skip. intros [resolved vr].
  assert (∀ r : VarRef, returns (fun r : VarRef * Z => int64_ok r.2) (mret (r, 0) : M St (VarRef * Z))) as H0
    by (intros r; apply returns_ret, int64_0).
  case_match; [destruct mode; [case_match; [apply H0|apply returns_throw]|apply H0]|].
  apply returns_skip. intros val. eapply returns_bind; [by apply arithmStringValue_range|]. intros n Hn.
  by apply returns_ret.
Qed.

Lemma assgnArit_range eval d op x (evalY : M St Z) :
  (∀ e, returns int64_ok (eval e)) → returns int64_ok evalY → returns int64_ok (assgnArit (St := St) eval d op x evalY).
Proof.
  intros He Hy. unfold assgnArit. eapply returns_bind; [by apply arithmLValue_range|]. intros [ref val] Hv.
  eapply returns_bind; [exact Hy|]. intros arg Ha.
  apply (returns_bind int64_ok); [apply returns_lift; intros acc Hacc; exact (assign_op_range op val arg acc Hv Ha Hacc)|]. intros acc Hacc.
  apply returns_skip. intros _. by apply returns_ret.
Qed.
Lemma incdecArit_range eval d op post x :
  (∀ e, returns int64_ok (eval e)) → returns int64_ok (incdecArit (St := St) eval d op post x).
Proof.
  intros He. unfold incdecArit. eapply returns_bind; [by apply arithmLValue_range|]. intros [ref old] Hv.
  apply returns_skip. intros _. apply returns_ret. destruct post; first [done|case_decide; apply wrap64_range].
Qed.
Lemma arithmWord_range eval d w : (∀ e, returns int64_ok (eval e)) → returns int64_ok (arithmWord (St := St) eval d w).
Proof.
  intros He. unfold arithmWord. case_match; [apply returns_throw|]. apply returns_skip. intros _.
  apply returns_skip. intros str. by apply arithmStringValue_range.
Qed.

Lemma arithmRuntimeParse_any {B} (Q : B → Prop) d expr (k : option ArithmExpr * gostr → M St B) :
  (∀ r, returns Q (k r)) → returns Q (arithmRuntimeParse d expr ≫= k).
Proof. intros H. by apply returns_skip. Qed.

(** The run-time parse in front of every node. *)
Lemma arithm_tree_range enter d expr depth :
  (∀ n e, returns int64_ok (enter n e)) → returns int64_ok (arithm_tree (St := St) enter d expr depth).
Proof.
  intros He. revert expr depth. fix IH 1. intros expr depth.
  assert (∀ e (m : M St Z), returns int64_ok m →
    returns int64_ok (if (depth <=? maxNameRefDepth)%nat then
      '(parsed, src) ← arithmRuntimeParse d e;
      match parsed, e with
      | Some parsed, _ => enter depth parsed
      | None, AWord w => if negb (bool_decide (src = [])) && negb (arithWordHasQuotes w)
          then arithmStringValue (enter depth) e (Some w) src else m
      | None, _ => m
      end else m)) as Hwrap.
  { clear IH expr. intros e m Hm. case_match; [|done]. apply returns_skip. intros [[parsed|] src]; [apply He|].
    destruct e; try done. case_match; [by apply arithmStringValue_range|done]. }
  destruct expr as [|w|op x y|op post x|x]; apply Hwrap; clear Hwrap.
  - apply returns_throw.
  - by apply arithmWord_range.
  - pose proof (IH x) as IHx. pose proof (IH y) as IHy.
    case_match; [by apply assgnArit_range|].
    assert (returns int64_ok (left ← arithm_tree enter d x depth; right ← arithm_tree enter d y depth;
      lift (binaryArit op left right))) as Hbin.
    { eapply returns_bind; [apply IHx|]. intros left Hl. eapply returns_bind; [apply IHy|]. intros right Hr.
      apply returns_lift. intros z. by apply binaryArit_range. }
    destruct op; try exact Hbin; clear Hbin; apply returns_skip; intros left.
    + case_decide; [apply returns_ret, int64_0|]. apply returns_skip. intros right. apply returns_ret, oneIf_range.
    + case_decide; [|by apply returns_ret]. apply returns_skip. intros right. apply returns_ret, oneIf_range.
    + destruct y as [| |op2 t f| |]; try apply returns_throw. case_decide; apply IH.
  - pose proof (IH x) as IHx. case_decide; [by apply incdecArit_range|].
    eapply returns_bind; [apply IHx|]. intros v Hv. apply returns_lift. intros z. by apply unaryArit_range.
  - apply IH.
Qed.

Lemma arithm_range budget d expr depth : returns int64_ok (arithm (St := St) budget d expr depth).
Proof.
  revert d expr depth. induction budget as [|budget IH]; intros d expr depth; cbn [arithm]; apply arithm_tree_range;
    intros n e; [apply returns_throw|apply IH].
Qed.
End range.
