(* ===== verification/ArithLiteral.v ===== *)
(** Number literals of shell arithmetic: which texts are numbers, and that a number is read as its
    value modulo [2^64], in every base. *)
From S2P Require Import Prelude GoUtf8 GoStrconv ArithSyntax ArithGrammar ArithPrint ArithNumber Arith.

(** ** The reference *)

(** The digits of the bases up to 64, in the order of their values; up to base 36 letters have no case. *)
Definition alphabet : gostr := go "0123456789abcdefghijklmnopqrstuvwxyzABCDEFGHIJKLMNOPQRSTUVWXYZ@_".
Definition lower (c : ascii) : ascii := if in_range "A" "Z" c then byte_of (byte_val c + 32) else c.
Definition digit_of (base : Z) (c : ascii) : option Z :=
  Z.of_nat <$> index_byte (if base <=? 36 then lower c else c) alphabet.

(** The value of digits, without bounds. *)
Definition positional (base : Z) (vs : list Z) : Z := foldl (fun n d => n * base + d) 0 vs.
Definition digits_of (base : Z) (ds : gostr) (vs : list Z) : Prop :=
  Forall2 (fun c v => digit_of base c = Some v ∧ v < base) ds vs.

Inductive number_literal : gostr → Z → Prop :=
| decimal_number ds vs :
    digits_of 10 ds vs → ds ≠ [] → starts "0" ds = false ∨ length ds = 1%nat → number_literal ds (positional 10 vs)
| octal_number ds vs : digits_of 8 ds vs → ds ≠ [] → number_literal ("0"%char :: ds) (positional 8 vs)
| hexadecimal_number x ds vs :
    x = "x"%char ∨ x = "X"%char → digits_of 16 ds vs → ds ≠ [] → number_literal ("0"%char :: x :: ds) (positional 16 vs)
| number_in_base bs ws base ds vs :
    digits_of 10 bs ws → bs ≠ [] → starts "0" bs = false → positional 10 ws = base → 2 <= base <= 64 →
    digits_of base ds vs → ds ≠ [] → number_literal (bs ++ "#"%char :: ds) (positional base vs).

(** ** Digits *)

Lemma digit_of_spec base c : arithDigitValue base c = digit_of base c.
Proof.
  assert (∀ c, bool_decide (arithDigitValue 36 c = digit_of 36 c) && bool_decide (arithDigitValue 64 c = digit_of 64 c) = true) as H
    by (apply check_bytes; vm_compute; reflexivity).
  specialize (H c). apply andb_prop in H as [H36%bool_decide_eq_true_1 H64%bool_decide_eq_true_1].
  unfold digit_of in *. unfold arithDigitValue in *. destruct (base <=? 36); done.
Qed.
Lemma decimal_digit_spec base c v : base <= 10 → (decimalDigit c = Some v ∧ v < base) ↔ (digit_of base c = Some v ∧ v < base).
Proof.
  intros Hb. assert (∀ c, match digit_of 36 c with
                          | Some v => if v <? 10 then bool_decide (decimalDigit c = Some v) else bool_decide (decimalDigit c = None)
                          | None => bool_decide (decimalDigit c = None)
                          end = true) as H by (apply check_bytes; vm_compute; reflexivity).
  specialize (H c). assert (digit_of base c = digit_of 36 c) as -> by (unfold digit_of; by rewrite (proj2 (Z.leb_le base 36)) by lia).
  destruct (digit_of 36 c) as [w|]; [destruct (Z.ltb_spec w 10)|]; apply bool_decide_eq_true_1 in H; rewrite H; naive_solver lia.
Qed.

(** The loop over the digits computes their value modulo [2^64]. *)
Lemma digits_loop_value digit base strict n ds vs rest :
  Forall2 (fun c v => digit c = Some v ∧ v < base) ds vs →
  match rest with c :: _ => digit c = None | [] => True end →
  digits_loop digit base strict (wrap64 n) (ds ++ rest) = Ok (wrap64 (foldl (fun n d => n * base + d) n vs), rest).
Proof.
  intros H Hr. revert n. induction H as [|c v ds vs [Hc Hv] _ IH]; intros n; cbn [app digits_loop foldl].
  - destruct rest as [|c rest]; [done|]. cbn [digits_loop]. by rewrite Hr.
  - rewrite Hc. rewrite (proj2 (Z.leb_gt base v)) by done. rewrite <- IH. f_equal.
    apply wrap64_eq_iff. rewrite Zplus_mod, wrap64_mod, Zmult_mod, wrap64_mod, <- Zmult_mod. symmetry. apply Zplus_mod.
Qed.
Lemma digits_loop_inv digit base strict n s r t :
  digits_loop digit base strict (wrap64 n) s = Ok (r, t) →
  ∃ ds vs, s = ds ++ t ∧ Forall2 (fun c v => digit c = Some v ∧ v < base) ds vs ∧
    r = wrap64 (foldl (fun n d => n * base + d) n vs).
Proof.
  revert n. induction s as [|c s IH]; intros n; cbn [digits_loop].
  - intros [= <- <-]. by exists [], [].
  - assert (Ok (E := arith_message) (wrap64 n, c :: s) = Ok (r, t) → ∃ ds vs, c :: s = ds ++ t ∧
      Forall2 (fun c v => digit c = Some v ∧ v < base) ds vs ∧ r = wrap64 (foldl (fun n d => n * base + d) n vs)) as Hstop.
    { intros [= <- <-]. by exists [], []. }
    destruct (digit c) as [v|] eqn:Hc; [|done]. destruct (Z.leb_spec base v); [destruct strict; [done|exact Hstop]|].
    intros Hl. assert (wrap64 (wrap64 (wrap64 n * base) + v) = wrap64 (n * base + v)) as E.
    { apply wrap64_eq_iff. rewrite Zplus_mod, wrap64_mod, Zmult_mod, wrap64_mod, <- Zmult_mod. symmetry. apply Zplus_mod. }
    rewrite E in Hl. apply IH in Hl as (ds&vs&->&Hf&->). exists (c :: ds), (v :: vs). split_and!; [done|by constructor|done].
Qed.

Lemma leading_digits_spec s ds r :
  leading_digits s = (ds, r) ↔ s = ds ++ r ∧ forallb is_digit ds = true ∧ match r with c :: _ => is_digit c = false | [] => True end.
Proof.
  revert ds r. induction s as [|c s IH]; intros ds r; cbn [leading_digits].
  - split; [intros [= <- <-]; done|]. intros (E&_). symmetry in E. by apply app_nil in E as [-> ->].
  - destruct (is_digit c) eqn:Hc.
    + destruct (leading_digits s) as [ds' r'] eqn:E. destruct (proj1 (IH ds' r') eq_refl) as (->&Hd&Hr). split.
      * intros [= <- <-]. split_and!; [done|by simpl; rewrite Hc, Hd|done].
      * intros (E'&Hd'&Hr'). destruct ds as [|c' ds]; [simpl in E'; subst r; congruence|].
        injection E' as <- E'. simpl in Hd'. apply andb_prop in Hd' as [_ Hd'].
        assert ((ds', r') = (ds, r)) as [= -> ->]; [|done]. apply IH. by rewrite E'.
    + split.
      * intros [= <- <-]. done.
      * intros (E'&Hd'&Hr'). destruct ds as [|c' ds]; [simpl in E'; by subst r|].
        injection E' as <- E'. simpl in Hd'. by rewrite Hc in Hd'.
Qed.

(** ** Number literals *)

Definition blanks (s : gostr) : Prop := forallb arithWhitespace s = true.

Lemma trimArithLeftSpace_nil s : trimArithLeftSpace s = [] ↔ blanks s.
Proof. unfold blanks. induction s as [|c s IH]; cbn [trimArithLeftSpace forallb]; [done|]. by destruct (arithWhitespace c). Qed.
Lemma trimArithSpace_nil s : trimArithSpace s = [] ↔ blanks s.
Proof.
  rewrite <- trimArithLeftSpace_nil. unfold trimArithSpace. split; intros H; [|by rewrite H].
  assert (trimArithLeftSpace (reverse (trimArithLeftSpace s)) = []) as H1%trimArithLeftSpace_nil.
  { by rewrite <- (reverse_involutive (trimArithLeftSpace _)), H. }
  destruct (trimArithLeftSpace s) as [|c t] eqn:E; [done|]. exfalso.
  assert (arithWhitespace c = false) as Hc.
  { clear -E. induction s as [|d s IH]; cbn [trimArithLeftSpace] in E; [done|].
    destruct (arithWhitespace d) eqn:Hd; [by apply IH|]. by injection E as -> _. }
  unfold blanks in H1. rewrite reverse_cons, forallb_app in H1. simpl in H1. by rewrite Hc, andb_false_r in H1.
Qed.

(** What is behind a number. *)
Lemma blank_head c : arithWhitespace c = true →
  is_digit c = false ∧ isArithWordChar c = false ∧ Ascii.eqb c "#" = false ∧ ∀ base, arithDigitValue base c = None.
Proof.
  intros Hc. assert (∀ c, negb (arithWhitespace c) ||
    (negb (is_digit c) && negb (isArithWordChar c) && negb (Ascii.eqb c "#") &&
     bool_decide (arithDigitValue 36 c = None) && bool_decide (arithDigitValue 64 c = None)) = true) as H
    by (apply check_bytes; vm_compute; reflexivity).
  specialize (H c). rewrite Hc in H. simpl in H. to_prop. split_and!; try done.
  intros base. unfold arithDigitValue in *. by destruct (base <=? 36).
Qed.

Lemma end_of_number_blanks n rest : blanks rest → end_of_number (Ok (n, rest)) = Ok (n, rest).
Proof. destruct rest as [|c rest]; [done|]. intros [Hc _]%andb_prop. simpl. by rewrite (proj1 (proj2 (blank_head c Hc))). Qed.
Lemma blanks_stop (digit : ascii → option Z) rest :
  (∀ c, arithWhitespace c = true → digit c = None) → blanks rest → match rest with c :: _ => digit c = None | [] => True end.
Proof. intros Hd. destruct rest as [|c rest]; [done|]. intros [Hc _]%andb_prop. by apply Hd. Qed.
Lemma blanks_not_starts rest : blanks rest → starts "#" rest = false ∧ match rest with c :: _ => is_digit c = false | [] => True end.
Proof. destruct rest as [|c rest]; [done|]. intros [Hc _]%andb_prop. simpl. destruct (blank_head c Hc) as (?&_&?&_). done. Qed.

Lemma arith_digits base ds vs :
  digits_of base ds vs → Forall2 (fun c v => arithDigitValue base c = Some v ∧ v < base) ds vs.
Proof. apply Forall2_impl. intros c v. by rewrite digit_of_spec. Qed.
Lemma decimal_digits base ds vs :
  base <= 10 → digits_of base ds vs ↔ Forall2 (fun c v => decimalDigit c = Some v ∧ v < base) ds vs.
Proof.
  intros Hb. split; apply Forall2_impl; intros c v; apply decimal_digit_spec; done.
Qed.
Lemma decimal_is_digit base ds vs : base <= 10 → digits_of base ds vs → forallb is_digit ds = true.
Proof.
  intros Hb H%decimal_digits; [|done]. induction H as [|c v ds vs [Hc _] _ IH]; [done|]. simpl. rewrite IH, andb_true_r.
  unfold decimalDigit in Hc. by destruct (is_digit c).
Qed.
Lemma decimal_atoi ds vs : digits_of 10 ds vs → ∀ n, digits_value n ds = Some (foldl (fun n d => n * 10 + d) n vs).
Proof.
  intros H%decimal_digits; [|lia]. induction H as [|c v ds vs [Hc _] _ IH]; intros n; [done|]. cbn [digits_value foldl].
  unfold decimalDigit in Hc. destruct (is_digit c); [|done]. injection Hc as ->. apply IH.
Qed.
Lemma digits_not_sign ds vs : digits_of 10 ds vs → ds ≠ [] → ∃ c s, ds = c :: s ∧ is_digit c = true ∧ c ≠ "-"%char ∧ c ≠ "+"%char.
Proof.
  intros H Hne. pose proof (decimal_is_digit 10 ds vs ltac:(lia) H) as Hd. destruct ds as [|c s]; [done|].
  simpl in Hd. apply andb_prop in Hd as [Hc _]. exists c, s. split_and!; try done; intros ->; done.
Qed.
Lemma Atoi_decimal ds vs : digits_of 10 ds vs → ds ≠ [] → 0 <= positional 10 vs < 2 ^ 63 → Atoi ds = Some (positional 10 vs).
Proof.
  intros H Hne Hr. destruct (digits_not_sign ds vs H Hne) as (c&s&->&Hc&Hm&Hp). unfold Atoi.
  rewrite decide_False, decide_False, decide_False by done. rewrite (decimal_atoi _ _ H 0). cbn [mbind option_bind].
  fold (positional 10 vs). rewrite (proj2 (Z.leb_le _ _)), (proj2 (Z.ltb_lt _ _)) by lia. done.
Qed.

Lemma number_literal_parsed s v rest :
  number_literal s v → blanks rest → parseArithNumberPrefix (s ++ rest) = Some (Ok (wrap64 v, rest)).
Proof.
  intros H Hb. destruct (blanks_not_starts rest Hb) as [Hh Hd].
  assert (∀ base ds vs, base <= 10 → digits_of base ds vs →
    end_of_number (digits_loop decimalDigit base true 0 (ds ++ rest)) = Ok (wrap64 (positional base vs), rest)) as Hdec.
  { intros base ds vs Hle Hds. change 0 with (wrap64 0). rewrite (digits_loop_value _ _ _ _ ds vs).
    - by apply end_of_number_blanks.
    - by apply decimal_digits.
    - apply blanks_stop; [|done]. intros c Hc. unfold decimalDigit. by rewrite (proj1 (blank_head c Hc)). }
  assert (∀ base strict ds vs, digits_of base ds vs →
    digits_loop (arithDigitValue base) base strict 0 (ds ++ rest) = Ok (wrap64 (positional base vs), rest)) as Har.
  { intros base strict ds vs Hds. change 0 with (wrap64 0). rewrite (digits_loop_value _ _ _ _ ds vs); [done|by apply arith_digits|].
    apply blanks_stop; [|done]. intros c Hc. apply (blank_head c Hc). }
  assert (∀ ds : gostr, ds ≠ [] → rest ≠ ds ++ rest) as Hne.
  { intros ds Hds E. apply (f_equal length) in E. rewrite length_app in E. destruct ds; [done|simpl in E; lia]. }
  unfold parseArithNumberPrefix. destruct H as [ds vs Hds Hn Hz|ds vs Hds Hn|x ds vs Hx Hds Hn|bs ws base ds vs Hws Hbn Hz Hbase Hr Hds Hn].
  - pose proof (decimal_is_digit 10 ds vs ltac:(lia) Hds) as Hdd.
    assert (leading_digits (ds ++ rest) = (ds, rest)) as -> by by apply leading_digits_spec.
    destruct ds as [|c ds]; [done|]. cbn [app]. pose proof Hdd as [Hc Hdd']%andb_prop. rewrite Hc. cbn [negb]. rewrite Hh.
    assert (Ascii.eqb c "0" && (starts "x" (ds ++ rest) || starts "X" (ds ++ rest)) = false) as ->.
    { destruct Hz as [Hz|Hz]; [simpl in Hz; by rewrite Hz|]. destruct ds; [|done]. destruct rest as [|b rest]; [by rewrite andb_false_r|].
      apply andb_prop in Hb as [Hb _]. simpl. destruct (Ascii.eqb_spec b "x") as [->|]; [done|].
      destruct (Ascii.eqb_spec b "X") as [->|]; [done|]. by rewrite andb_false_r. }
    assert ((if (1 <? glen (c :: ds ++ rest)) && Ascii.eqb c "0" then 8 else 10) = 8 → positional 8 vs = positional 10 vs ∧ digits_of 8 (c :: ds) vs) as H8.
    { destruct Hz as [Hz|Hz]; [simpl in Hz; rewrite Hz, andb_false_r; done|].
      destruct ds as [|]; [|done]. destruct (Ascii.eqb_spec c "0") as [->|]; [|rewrite andb_false_r; done]. intros _.
      inversion Hds as [|? v0 ? vs0 [Hv _] Hrest]; subst. inversion Hrest; subst. vm_compute in Hv. injection Hv as <-.
      split; [done|]. constructor; [done|constructor]. }
    destruct (_ && Ascii.eqb c "0") eqn:E; f_equal; [|by apply (Hdec 10 (c :: ds) vs)].
    destruct (H8 eq_refl) as [<- ?]. by apply (Hdec 8 (c :: ds) vs).
  - pose proof (decimal_is_digit 8 ds vs ltac:(lia) Hds) as Hdd.
    assert (leading_digits ("0"%char :: ds ++ rest) = ("0"%char :: ds, rest)) as E.
    { apply (leading_digits_spec _ ("0"%char :: ds)). by split_and!. }
    cbn [app]. rewrite E. change (negb (is_digit "0")) with false. cbn iota. rewrite Hh.
    destruct ds as [|c ds]; [done|]. pose proof Hdd as [Hc _]%andb_prop.
    assert (Ascii.eqb c "x" = false ∧ Ascii.eqb c "X" = false) as [E1 E2].
    { split; [destruct (Ascii.eqb_spec c "x") as [->|]|destruct (Ascii.eqb_spec c "X") as [->|]]; done. }
    cbn [app starts]. rewrite E1, E2. cbn [orb andb].
    assert ((1 <? glen ("0"%char :: c :: ds ++ rest)) = true) as -> by (unfold glen; simpl; apply Z.ltb_lt; lia).
    change (Ascii.eqb "0" "0") with true. cbn iota. f_equal. apply (Hdec 8 ("0"%char :: c :: ds) (0 :: vs)); [lia|].
    constructor; [done|exact Hds].
  - cbn [app]. change (negb (is_digit "0")) with false. cbn iota.
    assert (leading_digits ("0"%char :: x :: ds ++ rest) = (["0"%char], x :: ds ++ rest)) as ->.
    { apply (leading_digits_spec _ ["0"%char]). split_and!; try done. by destruct Hx as [-> | ->]. }
    assert (starts "#" (x :: ds ++ rest) = false) as -> by (by destruct Hx as [-> | ->]).
    assert (Ascii.eqb "0" "0" && (starts "x" (x :: ds ++ rest) || starts "X" (x :: ds ++ rest)) = true) as -> by (by destruct Hx as [-> | ->]).
    f_equal. unfold hex_number. cbn [tail]. rewrite (Har 16 false ds vs Hds). cbn [mbind result_bind].
    rewrite decide_False by (by apply Hne). by apply end_of_number_blanks.
  - pose proof (decimal_is_digit 10 bs ws ltac:(lia) Hws) as Hdd.
    assert (leading_digits ((bs ++ "#"%char :: ds) ++ rest) = (bs, "#"%char :: ds ++ rest)) as E.
    { apply leading_digits_spec. split_and!; [by rewrite <- (assoc_L (++))|done..]. }
    rewrite E. destruct bs as [|c bs]; [done|]. cbn [app]. pose proof Hdd as [Hc _]%andb_prop. rewrite Hc. cbn [negb].
    change (starts "#" ("#"%char :: ds ++ rest)) with true. cbn iota. f_equal. unfold based_number. rewrite Hz, andb_false_r.
    rewrite (Atoi_decimal _ _ Hws) by (try done; rewrite Hbase; lia). rewrite Hbase. cbn [tail].
    rewrite (proj2 (Z.ltb_ge base 2)), (proj2 (Z.ltb_ge 64 base)) by lia.
    rewrite bool_decide_false by (destruct ds; [done|intros [=]]). cbn [orb].
    rewrite (Har base true ds vs Hds). cbn [mbind result_bind]. rewrite decide_False by (by apply Hne).
    by apply end_of_number_blanks.
Qed.

(** The other direction: what is read as a number is one. *)
Lemma digits_of_arith base ds vs :
  Forall2 (fun c v => arithDigitValue base c = Some v ∧ v < base) ds vs → digits_of base ds vs.
Proof. apply Forall2_impl. intros c v. by rewrite digit_of_spec. Qed.
Lemma is_digit_digits ds : forallb is_digit ds = true → ∃ vs, digits_of 10 ds vs.
Proof.
  induction ds as [|c ds IH]; [exists []; constructor|]. intros [Hc (vs&Hvs)%IH]%andb_prop.
  exists (digit_val c :: vs). constructor; [|done]. apply decimal_digit_spec; [lia|]. unfold decimalDigit. rewrite Hc.
  split; [done|]. unfold is_digit, between in Hc. unfold digit_val. to_prop. lia.
Qed.
Lemma Atoi_digits bs base : forallb is_digit bs = true → Atoi bs = Some base →
  ∃ ws, digits_of 10 bs ws ∧ bs ≠ [] ∧ positional 10 ws = base.
Proof.
  intros Hd Ha. destruct (is_digit_digits bs Hd) as (ws&Hws). exists ws. split; [done|].
  assert (bs ≠ []) as Hne by (by intros ->). split; [done|]. destruct (digits_not_sign bs ws Hws Hne) as (c&s&->&Hc&Hm&Hp).
  unfold Atoi in Ha. rewrite decide_False, decide_False, decide_False in Ha by done.
  rewrite (decimal_atoi _ _ Hws 0) in Ha. cbn [mbind option_bind] in Ha. fold (positional 10 ws) in Ha. case_match; congruence.
Qed.

Lemma end_of_number_inv r n rest :
  end_of_number r = Ok (n, rest) →
  r = Ok (n, rest) ∧ match rest with c :: _ => isArithWordChar c = false | [] => True end.
Proof.
  destruct r as [[m [|c t]]|]; simpl; [by intros [= <- <-]| |done].
  destruct (isArithWordChar c) eqn:Hw; [done|]. by intros [= <- <-].
Qed.
Lemma based_number_inv bs ds n rest :
  forallb is_digit bs = true → based_number bs ds = Ok (n, rest) →
  ∃ ls v, ds = ls ++ rest ∧ number_literal (bs ++ "#"%char :: ls) v ∧ n = wrap64 v.
Proof.
  intros Hbs Hn. unfold based_number in Hn. destruct (_ && starts "0" bs) eqn:Hz; [done|].
  destruct (Atoi bs) as [base|] eqn:Ha; [|done]. destruct (_ || bool_decide (ds = [])) eqn:Hb; [done|]. to_prop.
  destruct (digits_loop (arithDigitValue base) base true 0 ds) as [[m t]|] eqn:El; [|done]. cbn [mbind result_bind] in Hn.
  case_decide as Ht; [done|]. apply end_of_number_inv in Hn as [[= -> ->] _].
  change 0 with (wrap64 0) in El. apply digits_loop_inv in El as (ls&vs&->&Hf&->).
  destruct (Atoi_digits bs base Hbs Ha) as (ws&Hws&Hne&Hp). exists ls, (positional base vs). split_and!; [done| |done].
  apply (number_in_base _ ws base); try done; [|by apply digits_of_arith|by intros ->].
  destruct bs as [|b [|b2 bs]]; [done| |].
  - destruct (Ascii.eqb_spec b "0") as [->|Hb0]; [|simpl; by destruct (Ascii.eqb_spec b "0")]. vm_compute in Ha. injection Ha as <-. lia.
  - apply andb_false_iff in Hz as [Hz|Hz]; [|done]. unfold glen in Hz. simpl in Hz. apply Z.ltb_ge in Hz. lia.
Qed.
Lemma hex_number_inv x ds n rest :
  x = "x"%char ∨ x = "X"%char → hex_number ds = Ok (n, rest) →
  ∃ ls v, ds = ls ++ rest ∧ number_literal ("0"%char :: x :: ls) v ∧ n = wrap64 v.
Proof.
  intros Hx Hn. unfold hex_number in Hn.
  destruct (digits_loop (arithDigitValue 16) 16 false 0 ds) as [[m t]|] eqn:El; [|done]. cbn [mbind result_bind] in Hn.
  case_decide as Ht; [done|]. apply end_of_number_inv in Hn as [[= -> ->] _].
  change 0 with (wrap64 0) in El. apply digits_loop_inv in El as (ls&vs&->&Hf&->).
  exists ls, (positional 16 vs). split_and!; [done| |done]. apply hexadecimal_number; [done|by apply digits_of_arith|by intros ->].
Qed.
Lemma plain_number_inv c s n rest :
  is_digit c = true →
  end_of_number (digits_loop decimalDigit (if (1 <? glen (c :: s)) && Ascii.eqb c "0" then 8 else 10) true 0 (c :: s)) = Ok (n, rest) →
  ∃ ls v, c :: s = ls ++ rest ∧ number_literal ls v ∧ n = wrap64 v.
Proof.
  intros Hc. set (base := if (1 <? glen (c :: s)) && Ascii.eqb c "0" then 8 else 10). intros [Hn Hend]%end_of_number_inv.
  change 0 with (wrap64 0) in Hn. apply digits_loop_inv in Hn as (ls&vs&El&Hf&->).
  assert (base <= 10) as Hb10 by (unfold base; destruct (_ && _); lia). apply decimal_digits in Hf; [|done].
  exists ls. destruct ls as [|c' ls].
  { exfalso. simpl in El. subst rest. unfold isArithWordChar in Hend. by rewrite Hc, ?orb_true_r in Hend. }
  injection El as <- ->. unfold base in *. destruct (_ && Ascii.eqb c "0") eqn:Hz.
  - apply andb_prop in Hz as [Hz ->%Ascii.eqb_eq]. inversion Hf as [|? v ? vs' [Hv _] Hrest]; subst. vm_compute in Hv. injection Hv as <-.
    exists (positional 8 (0 :: vs')). split_and!; [done| |done]. destruct ls as [|d ls]; [|by apply (octal_number (d :: ls) vs')].
    inversion Hrest; subst. apply (decimal_number ["0"%char] [0]); [by repeat constructor|done|by right].
  - exists (positional 10 vs). split_and!; [done| |done]. apply decimal_number; [done|done|].
    destruct (Ascii.eqb_spec c "0") as [->|Hne]; [|left; simpl; by destruct (Ascii.eqb_spec c "0")].
    right. rewrite andb_true_r in Hz. apply Z.ltb_ge in Hz. unfold glen in Hz. simpl in Hz. rewrite length_app in Hz. simpl. lia.
Qed.
Lemma number_literal_inv s n rest :
  parseArithNumberPrefix s = Some (Ok (n, rest)) → ∃ lit v, s = lit ++ rest ∧ number_literal lit v ∧ n = wrap64 v.
Proof.
  unfold parseArithNumberPrefix. destruct s as [|c s]; [done|]. destruct (is_digit c) eqn:Hc; [|done]. cbn [negb].
  destruct (leading_digits (c :: s)) as [bs r] eqn:E. apply leading_digits_spec in E as (E&Hbs&Hr).
  destruct (starts "#" r) eqn:Hh; [|destruct (Ascii.eqb c "0" && (starts "x" s || starts "X" s)) eqn:Hx].
  - intros [= Hn]. destruct r as [|d ds]; [done|]. simpl in Hh. apply Ascii.eqb_eq in Hh as ->. cbn [tail] in Hn.
    apply based_number_inv in Hn as (ls&v&->&Hl&->); [|done]. exists (bs ++ "#"%char :: ls), v.
    split_and!; [by rewrite E, <- (assoc_L (++))|done|done].
  - apply andb_prop in Hx as [->%Ascii.eqb_eq Hx]. intros [= Hn]. destruct s as [|x ds]; [done|]. cbn [tail] in Hn.
    apply (hex_number_inv x) in Hn as (ls&v&->&Hl&->).
    + by exists ("0"%char :: x :: ls), v.
    + apply orb_true_iff in Hx as [Hx%Ascii.eqb_eq|Hx%Ascii.eqb_eq]; auto.
  - intros [= Hn]. by apply plain_number_inv.
Qed.

(** * The words of arithmetic that mean themselves: names and number literals, and how each is read by the
    parser, the trimming and the number reader. *)

(** ** Plain words *)

(** Words of letters, digits, [_], [@] and [#] mean themselves. *)
Definition plain_char (c : ascii) : bool := isArithWordChar c || Ascii.eqb c "#".
Definition plain (v : gostr) : bool :=
  match v with c :: s => isArithWordChar c && forallb plain_char s | [] => false end.
Definition word (v : gostr) : ArithmExpr := AWord [Lit v].

Lemma plain_char_spec c : plain_char c = true → lit_char c = true ∧ arithWhitespace c = false.
Proof.
  intros Hc. assert (∀ c, negb (plain_char c) || lit_char c && negb (arithWhitespace c) = true) as Hall
    by (apply check_bytes; vm_compute; reflexivity).
  specialize (Hall c). rewrite Hc in Hall. simpl in Hall. by to_prop.
Qed.
Lemma word_char_operator c : isArithWordChar c = true → arithmOps c = false.
Proof.
  intros Hc. assert (∀ c, negb (isArithWordChar c) || negb (arithmOps c) = true) as Hall by (apply check_bytes; vm_compute; reflexivity).
  specialize (Hall c). rewrite Hc in Hall. simpl in Hall. by to_prop.
Qed.
Lemma plain_chars v : plain v = true → v ≠ [] ∧ forallb plain_char v = true.
Proof.
  destruct v as [|c v]; [done|]. simpl. intros [Hc Hv]%andb_prop. split; [done|]. unfold plain_char at 1. by rewrite Hc, Hv.
Qed.
Lemma plain_lit_value v : plain v = true → lit_value v = true.
Proof.
  intros Hp. pose proof (plain_chars v Hp) as [_ Hv]. destruct v as [|c v]; [done|]. unfold lit_value.
  apply andb_prop in Hp as [Hc _]. rewrite (word_char_operator c Hc). rewrite andb_true_r.
  apply orb_true_iff. right. rewrite forallb_forall in Hv |- *. intros d Hd. by apply plain_char_spec, Hv.
Qed.

Lemma trimArithLeftSpace_none v : forallb plain_char v = true → trimArithLeftSpace v = v.
Proof.
  destruct v as [|c v]; [done|]. cbn [forallb trimArithLeftSpace]. intros [Hc _]%andb_prop.
  by rewrite (proj2 (plain_char_spec c Hc)).
Qed.
Lemma trimArithSpace_plain v : plain v = true → trimArithSpace v = v.
Proof.
  intros [_ Hv]%plain_chars. unfold trimArithSpace. rewrite (trimArithLeftSpace_none v) by done.
  rewrite trimArithLeftSpace_none; [apply reverse_involutive|].
  rewrite forallb_forall in Hv |- *. intros c Hc. apply Hv.
  by apply list_elem_of_In, elem_of_reverse, list_elem_of_In.
Qed.

Lemma digit_plain base c v : digit_of base c = Some v → isArithWordChar c = true.
Proof.
  assert (∀ c, (bool_decide (digit_of 36 c = None) || isArithWordChar c) && (bool_decide (digit_of 64 c = None) || isArithWordChar c) = true) as Hall
    by (apply check_bytes; vm_compute; reflexivity).
  specialize (Hall c). assert (digit_of base c = digit_of 36 c ∨ digit_of base c = digit_of 64 c) as Hb
    by (unfold digit_of; destruct (base <=? 36); auto).
  intros Hd. destruct (isArithWordChar c); [done|]. rewrite !orb_false_r in Hall. to_prop.
  destruct Hb; congruence.
Qed.
Lemma digits_plain base ds vs : digits_of base ds vs → forallb plain_char ds = true ∧ (ds ≠ [] → plain ds = true).
Proof.
  intros Hds. assert (forallb isArithWordChar ds = true) as Hw.
  { induction Hds as [|c v ds vs [Hc _] _ IH]; [done|]. simpl. by rewrite (digit_plain _ _ _ Hc). }
  assert (forallb plain_char ds = true) as Hp.
  { rewrite forallb_forall in Hw |- *. intros c Hc. unfold plain_char. by rewrite Hw. }
  split; [done|]. destruct ds as [|c ds]; [done|]. intros _. simpl in *. to_prop. by apply andb_true_intro.
Qed.

Lemma ValidName_plain x : ValidName x = true → plain x = true ∧ parseArithNumber x = None.
Proof.
  destruct x as [|c x]; [done|]. cbn [ValidName plain]. intros [Hc Hx]%andb_prop.
  assert (∀ c, (negb (asciiLetter c || Ascii.eqb c "_") || isArithWordChar c && negb (is_digit c)) &&
               (negb (asciiLetter c || Ascii.eqb c "_" || is_digit c) || plain_char c) = true) as Hall
    by (apply check_bytes; vm_compute; reflexivity).
  split.
  - apply andb_true_intro. split; [specialize (Hall c); rewrite Hc in Hall; simpl in Hall; by to_prop|].
    rewrite forallb_forall in Hx |- *. intros d Hd. specialize (Hall d). rewrite (Hx d Hd) in Hall. simpl in Hall.
    by apply andb_prop in Hall as [_ Hall].
  - specialize (Hall c). rewrite Hc in Hall. simpl in Hall. to_prop. unfold parseArithNumber, parseArithNumberPrefix.
    by destruct (is_digit c).
Qed.

Lemma is_digit_not_name c x : is_digit c = true → ValidName (c :: x) = false.
Proof.
  intros Hc. assert (∀ c, negb (is_digit c) || negb (asciiLetter c || Ascii.eqb c "_") = true) as Hall by (apply check_bytes; vm_compute; reflexivity).
  specialize (Hall c). rewrite Hc in Hall. simpl in Hall. to_prop. simpl. by destruct (asciiLetter c), (Ascii.eqb c "_").
Qed.

(** A number is a plain word that starts with a digit. *)
Lemma number_literal_plain v n : number_literal v n → plain v = true ∧ ValidName v = false.
Proof.
  assert (∀ base ds vs, base <= 10 → digits_of base ds vs → ds ≠ [] → ValidName ds = false) as Hname.
  { intros base ds vs Hb Hds Hne. pose proof (decimal_is_digit base ds vs Hb Hds) as Hd.
    destruct ds as [|c ds]; [done|]. simpl in Hd. to_prop. by apply is_digit_not_name. }
  intros [ds vs Hds Hne _|ds vs Hds Hne|x ds vs Hx Hds Hne|bs ws base ds vs Hws Hbn _ _ _ Hds Hne].
  - split; [by eapply digits_plain|]. by eapply (Hname 10).
  - split; [|by apply is_digit_not_name]. simpl. by apply (digits_plain 8 ds vs).
  - split; [|by apply is_digit_not_name]. simpl. rewrite (proj1 (digits_plain 16 ds vs Hds)).
    by destruct Hx as [-> | ->].
  - pose proof (digits_plain 10 bs ws Hws) as [_ Hb]. specialize (Hb Hbn).
    pose proof (decimal_is_digit 10 bs ws ltac:(lia) Hws) as Hd. destruct bs as [|c bs]; [done|]. simpl in Hb, Hd. to_prop.
    split; [|by apply is_digit_not_name]. simpl. apply andb_true_intro. split; [done|]. rewrite forallb_app. simpl.
    rewrite (proj1 (digits_plain base ds vs Hds)), andb_true_r. done.
Qed.

Lemma parseArithNumber_literal v n : number_literal v n → parseArithNumber v = Some (Ok (wrap64 n)).
Proof.
  intros Hn. unfold parseArithNumber. pose proof (number_literal_parsed v n [] Hn eq_refl) as H. rewrite app_nil_r in H.
  by rewrite H.
Qed.

Lemma parseArith_word {St} `{!ArithShell St} v : plain v = true → parseArith (St := St) v = Ok (word v).
Proof.
  intros Hp. assert (Arithmetic v = Some (Ok (word v))) as H.
  { assert (arithExprSource (word v) = v) as Hv by apply app_nil_r. rewrite <- Hv at 1.
    apply Arithmetic_print; [by apply plain_lit_value|done|done|done]. }
  unfold parseArith. by rewrite H.
Qed.
Lemma Word_Lit_word v : Word_Lit [Lit v] = v.
Proof. apply app_nil_r. Qed.
