(* ===== verification/ArithEval.v ===== *)
(** What the evaluator of arithmetic means: a shell with scalar variables as laws of its interface, the
    integers that expressions denote, the evaluation of words, variables and cycles of variables, and
    assignment. *)
From S2P Require Import Prelude GoMonad GoUtf8 GoStrconv ArithSyntax ArithGrammar ArithPrint ArithNumber Arith ArithRange ArithLiteral.

(** ** Scalar variables *)

(** The laws of a shell on its ordinary variables.  [scalar s x]: the name [x] is one, a string or unset,
    not an array, not a reference, without attributes that transform what is stored, and not one that the
    shell computes, as [RANDOM] or [SECONDS].  A plain word is its text, an ordinary variable is read
    without an effect, and a store to one is refused, as it is for a readonly variable, or sets it; no
    other ordinary variable changes either way. *)
Class ScalarShell (St : Type) `{!ArithShell St} := {
  scalar : St → gostr → Prop;
  vars : St → gostr → Variable_;
  refused : St → gostr → option arith_error;
  Env_Get_scalar x s : scalar s x → Env_Get x s = (Ok (vars s x), s);
  Document_plain d v s : plain v = true → Document d [Lit v] s = (Ok v, s);
  resolveVarRef_scalar x s : ValidName x = true → scalar s x → resolveVarRef (MkVarRef x None) s = (Ok (None, vars s x), s);
  varRef_scalar d x s : ValidName x = true → scalar s x → varRef d (MkVarRef x None) s = (Ok (Str (vars s x)), s);
  envSetRef_scalar d x v s : ValidName x = true → scalar s x →
    ∃ s', (∀ y, y ≠ x → scalar s y → scalar s' y ∧ vars s' y = vars s y) ∧ scalar s' x ∧
      match refused s x with
      | Some err => envSetRef d (MkVarRef x None) v s = (Err err, s') ∧ vars s' x = vars s x
      | None => envSetRef d (MkVarRef x None) v s = (Ok tt, s') ∧ IsSet (vars s' x) = true ∧ Str (vars s' x) = v
      end;
}.

Section scalars.
Context {St : Type} `{!ArithShell St} `{!ScalarShell St}.
Implicit Types (s : St) (x y t : gostr).

Definition has_text s x t : Prop := scalar s x ∧ IsSet (vars s x) = true ∧ Str (vars s x) = t ∧ t ≠ [].
(** A variable without a value: unset, where that is no error, or empty. *)
Definition no_text s x : Prop :=
  scalar s x ∧ (IsSet (vars s x) = false ∧ NoUnset (St := St) = false ∨ IsSet (vars s x) = true ∧ Str (vars s x) = []).
(** From name to name, to a text that is none. *)
Inductive chain s : nat → gostr → gostr → Prop :=
| chain_end t : ValidName t = false → chain s 0 t t
| chain_step n x y t : ValidName x = true → has_text s x y → chain s n y t → chain s (S n) x t.

Lemma follow_chain s n m x t : chain s n x t → (n <= m)%nat → follow_names m x s = (Ok (Some t), s).
Proof.
  intros Hc. revert m. induction Hc as [t Ht|n x y t Hx (Hsc&Hset&Hstr&Hne) Hc IH]; intros m Hm.
  - destruct m; cbn [follow_names]; by rewrite Ht.
  - destruct m as [|m]; [lia|]. cbn [follow_names]. rewrite Hx. cbn [negb].
    rewrite (bind_Ok _ _ _ _ _ (Env_Get_scalar x s Hsc)), Hset. cbn [negb]. rewrite Hstr, decide_False by done.
    apply IH. lia.
Qed.
Lemma follow_no_text s m x : ValidName x = true → no_text s x → follow_names m x s = (Ok (Some x), s).
Proof.
  intros Hx [Hsc Hno]. destruct m as [|m]; cbn [follow_names]; rewrite Hx; cbn [negb];
    rewrite (bind_Ok _ _ _ _ _ (Env_Get_scalar x s Hsc)); destruct Hno as [[-> ->]|[-> ->]]; done.
Qed.

(** ** The value of a text *)

(** A text at the end of the names, evaluated. *)
Definition text_value (eval : ArithmExpr → M St Z) (t : gostr) : M St Z :=
  match parseArith t with
  | Ok NilExpr | Err _ => number_value t
  | Ok (AWord w) => if decide (Word_Lit w = t) then number_value t else eval (AWord w)
  | Ok nested => eval nested
  end.
Definition some_word (word : option Word) : Prop := match word with Some w => isEmptyArithWord w | None => false end = false.

Lemma string_value_follow eval te w v s t :
  plain v = true → some_word w → v ≠ go "LINENO" → follow_names (maxNameRefDepth - 1) v s = (Ok (Some t), s) →
  arithmStringValue eval te w v s = text_value eval t s.
Proof.
  intros Hp Hw Hl Hf. unfold arithmStringValue. rewrite trimArithSpace_plain by done.
  rewrite bool_decide_false by (by apply plain_chars). unfold some_word in Hw. rewrite Hw. cbn [orb].
  rewrite bool_decide_false by done. cbn [andb]. by rewrite (bind_Ok _ _ _ _ _ Hf).
Qed.
Lemma text_value_number eval v n s : number_literal v n → text_value eval v s = (Ok (wrap64 n), s).
Proof.
  intros Hn. unfold text_value. rewrite parseArith_word by (by eapply number_literal_plain). unfold word.
  rewrite decide_True by apply Word_Lit_word. unfold number_value. by rewrite (parseArithNumber_literal v n).
Qed.
Lemma text_value_name eval x s : ValidName x = true → text_value eval x s = (Ok 0, s).
Proof.
  intros [Hp Hn]%ValidName_plain. unfold text_value. rewrite parseArith_word by done. unfold word.
  rewrite decide_True by apply Word_Lit_word. unfold number_value. by rewrite Hn.
Qed.

Lemma some_word_plain v : plain v = true → some_word (Some [Lit v]).
Proof. intros [Hne _]%plain_chars. apply bool_decide_false. by intros [= ->]. Qed.
Lemma number_not_name v n x : number_literal v n → ValidName x = true → v ≠ x.
Proof. intros [_ Hn]%number_literal_plain Hx ->. congruence. Qed.
Lemma string_value_number eval te w v n s :
  some_word w → number_literal v n → arithmStringValue eval te w v s = (Ok (wrap64 n), s).
Proof.
  intros Hw Hn. pose proof (number_literal_plain v n Hn) as [Hp Hv].
  rewrite (string_value_follow eval te w v s v); [by apply text_value_number|done..| |].
  - by eapply number_not_name.
  - apply (follow_chain s 0); [by constructor|lia].
Qed.

(** The evaluation of a plain word, at any depth. *)
Lemma arithm_plain enter d v depth s :
  plain v = true →
  arithm_tree enter d (word v) depth s = arithmStringValue (enter depth) (word v) (Some [Lit v]) v s.
Proof.
  intros Hp. assert (arithmWord (enter depth) d [Lit v] s = arithmStringValue (enter depth) (word v) (Some [Lit v]) v s) as Hw.
  { unfold arithmWord. change (hasSingleQuote [Lit v]) with false. change (containsShellExpansion [Lit v]) with false. cbn iota.
    assert (arithExprSource (AWord [Lit v]) = v) as -> by apply app_nil_r. rewrite parseArith_word by done.
    rewrite (bind_Ok (mret tt) _ s tt s) by done. apply (bind_Ok _ _ s v s).
    unfold map_error. by rewrite (Document_plain d v s Hp). }
  unfold word. cbn [arithm_tree]. destruct (depth <=? maxNameRefDepth)%nat; [|exact Hw].
  unfold arithmRuntimeParse. change (arithExprUsesExpandedValue (AWord [Lit v])) with false. cbn [negb].
  rewrite (bind_Ok _ _ s (None, []) s) by done. rewrite bool_decide_true by done. exact Hw.
Qed.
End scalars.

(** * Arithmetic over a shell with scalar variables only, on which the theorems of the evaluator are
    applied, and what it does with some expressions that the shell's users write. *)

(** ** Scalar variables *)

Abbreviation scalars := (gmap gostr gostr).
Definition scalar_part (p : WordPart) (s : scalars) : option gostr :=
  match p with
  | Lit v => Some v
  | ParamExp true true name None _ => Some (default [] (s !! name))
  | _ => None
  end.
Definition scalar_word (w : Word) : M scalars gostr := fun s =>
  match mapM (fun p => scalar_part p s) w with
  | Some vs => (Ok (concat vs), s)
  | None => (Err (ShellError 1), s)
  end.
Definition scalar_get (name : gostr) : M scalars Variable_ := fun s =>
  (Ok (match s !! name with Some v => MkVariable true v false | None => MkVariable false [] false end), s).

(** Its one readonly variable. *)
Definition is_readonly (name : gostr) : bool := bool_decide (name = go "PPID").
Definition scalar_set (name v : gostr) : M scalars unit := fun s =>
  if is_readonly name then (Err (ShellError 2), s) else (Ok tt, <[name := v]> s).

#[export] Instance scalar_shell : ArithShell scalars := {|
  Literal := fun _ w => scalar_word w;
  Document := fun _ w => scalar_word w;
  AssignmentWordLiteral := fun _ w => scalar_word w;
  Arithmetic_words := fun _ => Err (MkParseError NotOperator []);
  Env_Get := scalar_get;
  NoUnset := false;
  currentLine := fun _ => 0;
  exprLine := fun _ => 0;
  parseVarRef := fun text => if ValidName text then Some (MkVarRef text None) else None;
  resolveVarRef := fun ref => vr ← scalar_get (ref_Name ref); mret (None, vr);
  varRef := fun _ ref => vr ← scalar_get (ref_Name ref); mret (Str vr);
  envSetRef := fun _ ref v => scalar_set (ref_Name ref) v;
|}.

(** [name=value ...; $((text))]: the value, and the values of [names] afterwards. *)
Definition run (vars : list (string * string)) (text : string) (names : list string) : result arith_error Z * list (option gostr) :=
  let s := list_to_map (map (fun '(n, v) => (go n, go v)) vars) : gmap gostr gostr in
  match Arithmetic (go text) with
  | Some (Ok e) => let '(r, s') := Arithm 0 e s in (r, map (fun n => s' !! go n) names)
  | _ => (Err Panic, [])
  end.

(** The shell keeps the laws of scalars. *)
Definition scalar_vars (s : scalars) (name : gostr) : Variable_ :=
  match s !! name with Some v => MkVariable true v false | None => MkVariable false [] false end.
Lemma scalar_get_spec name s : scalar_get name s = (Ok (scalar_vars s name), s).
Proof. done. Qed.
Lemma scalar_vars_insert x v s y : scalar_vars (<[x := v]> s) y = if decide (y = x) then MkVariable true v false else scalar_vars s y.
Proof. unfold scalar_vars. case_decide as E; [subst; by rewrite lookup_insert_eq|by rewrite lookup_insert_ne]. Qed.
#[export] Instance scalar_shell_laws : ScalarShell scalars.
Proof.
  refine {| scalar := fun _ _ => True; vars := scalar_vars;
            refused := fun _ x => if is_readonly x then Some (ShellError 2) else None |}.
  - intros x s _. apply scalar_get_spec.
  - intros d v s _. unfold Document, scalar_shell, scalar_word. simpl. by rewrite app_nil_r.
  - done.
  - done.
  - intros d x v s _ _. exists (if is_readonly x then s else <[x := v]> s).
    unfold envSetRef, scalar_shell, scalar_set. cbn [ref_Name]. destruct (is_readonly x); split_and!; try done.
    + intros y Hy _. by rewrite scalar_vars_insert, decide_False.
    + by rewrite scalar_vars_insert, decide_True.
    + by rewrite scalar_vars_insert, decide_True.
Defined.

(** ** Some expressions *)

Example run_power : run [] "2**62*2-1" [] = (Ok (- 2 ^ 63 - 1 + 2 ^ 64), []).
Proof. vm_compute. reflexivity. Qed.
Example run_shift : run [] "1<<64, 1<<63" [] = (Ok (- 2 ^ 63), []).
Proof. vm_compute. reflexivity. Qed.
Example run_bases : run [] "0x1f + 017 + 2#101 + 64#_" [] = (Ok (31 + 15 + 5 + 63), []).
Proof. vm_compute. reflexivity. Qed.
Example run_nested : run [("x", "y+1"); ("y", "2*z"); ("z", "-3")]%string "x" [] = (Ok (-5), []).
Proof. vm_compute. reflexivity. Qed.
Example run_skip : run [("x", "1")]%string "0 && (x=5), x" ["x"%string] = (Ok 1, [Some (go "1")]).
Proof. vm_compute. reflexivity. Qed.
Example run_recursion : run [("x", "x+1")]%string "x" [] = (Err (ArithmDiagnosticError RecursionLevelExceeded), []).
Proof. vm_compute. reflexivity. Qed.

(** A blank between a sign and an expanded negative number is lost, so that the signs are read as [--];
    the shell's manual has [1 - $x] evaluated with the value of [x]. *)
Example blank_lost :
  let dollar_x := AWord [ParamExp true true (go "x") None (go "$x")] in
  (Arithm 0 (BinaryArithm Sub (AWord [Lit (go "1")]) dollar_x) ({[go "x" := go "-5"]} : gmap gostr gostr)).1 =
  Err (ArithmDiagnosticError InvalidOperator).
Proof. vm_compute. reflexivity. Qed.

(** A plain assignment evaluates the value it replaces, and fails where that fails. *)
Example assign_old_value : run [("x", "1/0")]%string "x=5" ["x"%string] = (Err ArithmDivByZeroError, [Some (go "1/0")]).
Proof. vm_compute. reflexivity. Qed.

(** An assignment to a readonly variable fails. *)
Example assign_readonly : run [("PPID", "1")]%string "PPID=5" ["PPID"%string] = (Err (ShellError 2), [Some (go "1")]).
Proof. vm_compute. reflexivity. Qed.

(** [++] and [--] are read on any value, and fail when they are evaluated. *)
Example decrement_of_number : Arithmetic (go "1--") = Some (Ok (UnaryArithm Dec true (AWord [Lit (go "1")]))).
Proof. vm_compute. reflexivity. Qed.
