(* ===== verification/ArithInteger.v ===== *)
(** The integers that expressions denote, without bounds, and that the evaluator computes them modulo
    [2^64]. *)
From S2P Require Import Prelude GoMonad GoUtf8 GoStrconv ArithSyntax ArithGrammar ArithPrint ArithNumber Arith ArithRange ArithLiteral ArithEval.

(** ** The operators on integers *)

Definition in_int64b (z : Z) : bool := (- 2 ^ 63 <=? z) && (z <? 2 ^ 63).
Definition guard (b : bool) (z : Z) : option Z := if b then Some z else None.

(** Ring operations and bit operations have no bounds; division, right shifts and comparisons are of
    64-bit integers, and what an operator is undefined for has no value. *)
Definition int_op (op : BinAritOperator) (a b : Z) : option Z :=
  let in_range := in_int64b a && in_int64b b in
  match op with
  | Add => Some (a + b)
  | Sub => Some (a - b)
  | Mul => Some (a * b)
  | And => Some (Z.land a b)
  | Or => Some (Z.lor a b)
  | Xor => Some (Z.lxor a b)
  | Shl => Some (Z.shiftl a (b mod 64))
  | Pow => guard ((0 <=? b) && (b <? 2 ^ 63)) (a ^ b)
  | Comma => Some b
  | Quo => guard (in_range && negb (b =? 0)) (Z.quot a b)
  | Rem => guard (in_range && negb (b =? 0)) (Z.rem a b)
  | Shr => guard (in_int64b a) (Z.shiftr a (b mod 64))
  | Eql => guard in_range (oneIf (a =? b))
  | Neq => guard in_range (oneIf (negb (a =? b)))
  | Lss => guard in_range (oneIf (a <? b))
  | Leq => guard in_range (oneIf (a <=? b))
  | Gtr => guard in_range (oneIf (b <? a))
  | Geq => guard in_range (oneIf (b <=? a))
  | _ => None
  end.
Definition int_unary (op : UnAritOperator) (a : Z) : option Z :=
  match op with
  | Plus => Some a
  | Minus => Some (- a)
  | BitNegation => Some (Z.lnot a)
  | Not => guard (in_int64b a) (oneIf (a =? 0))
  | _ => None
  end.

Lemma in_int64b_spec z : in_int64b z = true → int64_ok z.
Proof. unfold in_int64b, int64_ok. intros H. to_prop. lia. Qed.
Lemma guard_Some b z c : guard b z = Some c → b = true ∧ c = z.
Proof. destruct b; [|done]. by intros [= ->]. Qed.

Lemma wrap64_shr a b : int64_ok a → Z.shiftr (wrap64 a) (maskedShift (wrap64 b)) = wrap64 (Z.shiftr a (b mod 64)).
Proof.
  intros Ha. rewrite (wrap64_id a) by done. rewrite maskedShift_mod.
  assert (wrap64 b mod 64 = b mod 64) as ->.
  { pose proof (wrap64_mod b) as H. apply (f_equal (fun z => z mod 64)) in H.
    by rewrite !Z.mod_mod_divide in H by (exists (2 ^ 58); lia). }
  symmetry. apply wrap64_id, shiftr_range; [done|]. apply Z.mod_pos_bound. lia.
Qed.
Lemma wrap64_zero b : in_int64b b = true → (wrap64 b =? 0) = (b =? 0).
Proof. intros H%in_int64b_spec. by rewrite wrap64_id. Qed.

(** An operator on 64-bit integers is the one on integers, modulo [2^64]. *)
Lemma binaryArit_exact op a b c : int_op op a b = Some c → binaryArit op (wrap64 a) (wrap64 b) = Ok (wrap64 c).
Proof.
  intros H. unfold binaryArit. destruct (decide (op ∈ [Quo; Rem])) as [Hq|Hq].
  - assert (guard (in_int64b a && in_int64b b && negb (b =? 0)) (match op with Quo => Z.quot a b | _ => Z.rem a b end) = Some c) as Hg.
    { repeat (apply elem_of_cons in Hq as [->|Hq]; [exact H|]). by apply elem_of_nil in Hq. }
    apply guard_Some in Hg as [Hg ->]. apply andb_prop in Hg as [[Ha Hb]%andb_prop Hz%negb_true_iff].
    rewrite wrap64_zero by done. rewrite Hz. cbn [andb]. apply in_int64b_spec in Ha, Hb.
    rewrite (wrap64_id a), (wrap64_id b) by done. repeat (apply elem_of_cons in Hq as [->|Hq]; [simpl|]); [done| |by apply elem_of_nil in Hq].
    rewrite wrap64_id; [done|]. by apply rem_range.
  - rewrite (bool_decide_false (op ∈ _)) by done. rewrite andb_false_r.
    destruct op; try done; cbn [int_op] in H; cbn [binArit];
      try (injection H as <-; rewrite ?wrap64_add, ?wrap64_sub, ?wrap64_mul, ?wrap64_land, ?wrap64_lor, ?wrap64_lxor, ?wrap64_shl; done);
      try (apply guard_Some in H as [[Ha%in_int64b_spec Hb%in_int64b_spec]%andb_prop ->]; rewrite (wrap64_id a), (wrap64_id b), (wrap64_id (oneIf _)) by (done || apply oneIf_range); done);
      try (by destruct Hq; rewrite !elem_of_cons; auto).
    + apply guard_Some in H as [[Hb1%Z.leb_le Hb2%Z.ltb_lt]%andb_prop ->].
      rewrite (wrap64_id b) by (unfold int64_ok; lia). rewrite (proj2 (Z.ltb_ge b 0)) by done.
      rewrite intPow_exact by done. by rewrite wrap64_pow.
    + apply guard_Some in H as [Ha%in_int64b_spec ->]. by rewrite wrap64_shr.
Qed.
Lemma unaryArit_exact op a c : int_unary op a = Some c → unaryArit op (wrap64 a) = Ok (wrap64 c).
Proof.
  destruct op; try done; cbn [int_unary unaryArit].
  - intros [Ha ->]%guard_Some. rewrite wrap64_zero by done. by rewrite (wrap64_id (oneIf _)) by apply oneIf_range.
  - intros [= <-]. by rewrite wrap64_lnot.
  - by intros [= <-].
  - intros [= <-]. by rewrite wrap64_opp.
Qed.

(** ** Denotation *)

Section denotation.
Context {St : Type} `{!ArithShell St} `{!ScalarShell St}.
Implicit Types (s : St) (x y : gostr) (e : ArithmExpr).

Definition static e : Prop := arithExprUsesExpandedValue e = false.

(** [denotes s k e n]: the expression [e] has the value [n] where the variables have their values in
    [s], and the values of variables that are expressions again are nested at most [k] deep; an
    operand that [&&], [||] or [?:] skips needs no value. *)
Inductive denotes s : nat → ArithmExpr → Z → Prop :=
| den_number k v n : number_literal v n → denotes s k (word v) n
| den_variable k x j t n :
    chain s (S j) x t → (S j < maxNameRefDepth)%nat → x ≠ go "LINENO" → number_literal t n → denotes s k (word x) n
| den_expression k x j t e n :
    chain s (S j) x t → (S j < maxNameRefDepth)%nat → x ≠ go "LINENO" → parseArith (St := St) t = Ok e → e ≠ word t →
    denotes s k e n → denotes s (S k) (word x) n
| den_no_text k x : ValidName x = true → no_text s x → x ≠ go "LINENO" → denotes s k (word x) 0
| den_paren k e n : denotes s k e n → denotes s k (ParenArithm e) n
| den_unary k op e a n : denotes s k e a → int_unary op a = Some n → denotes s k (UnaryArithm op false e) n
| den_binary k op e f a b n :
    denotes s k e a → denotes s k f b → int_op op a b = Some n → denotes s k (BinaryArithm op e f) n
| den_and_skip k e f : denotes s k e 0 → static f → denotes s k (BinaryArithm AndArit e f) 0
| den_and k e f a b : denotes s k e a → denotes s k f b → in_int64b a = true → in_int64b b = true → a ≠ 0 →
    denotes s k (BinaryArithm AndArit e f) (oneIf (negb (b =? 0)))
| den_or_skip k e f a :
    denotes s k e a → in_int64b a = true → a ≠ 0 → static f → denotes s k (BinaryArithm OrArit e f) 1
| den_or k e f b : denotes s k e 0 → denotes s k f b → in_int64b b = true →
    denotes s k (BinaryArithm OrArit e f) (oneIf (negb (b =? 0)))
| den_then k c e f a n : denotes s k c a → in_int64b a = true → a ≠ 0 → denotes s k e n → static f →
    denotes s k (BinaryArithm TernQuest c (BinaryArithm TernColon e f)) n
| den_else k c e f n : denotes s k c 0 → static e → denotes s k f n →
    denotes s k (BinaryArithm TernQuest c (BinaryArithm TernColon e f)) n.

Lemma denotes_static s k e n : denotes s k e n → static e.
Proof. unfold static. induction 1; cbn [arithExprUsesExpandedValue]; rewrite ?orb_false_iff; done. Qed.

Lemma static_runtime d e s : static e → arithmRuntimeParse d e s = (Ok (None, []), s).
Proof. intros He. unfold arithmRuntimeParse. by rewrite He. Qed.

(** Nodes without expansion are evaluated by their operator. *)
Lemma arithm_paren enter d e depth s :
  static e → arithm_tree enter d (ParenArithm e) depth s = arithm_tree enter d e depth s.
Proof.
  intros He. cbn [arithm_tree]. destruct (depth <=? maxNameRefDepth)%nat; [|done].
  by rewrite (bind_Ok _ _ _ _ _ (static_runtime d (ParenArithm e) s He)).
Qed.
Lemma arithm_unary enter d op e depth s :
  static e → op ≠ Inc → op ≠ Dec →
  arithm_tree enter d (UnaryArithm op false e) depth s = (v ← arithm_tree enter d e depth; lift (unaryArit op v)) s.
Proof.
  intros He Hi Hd. cbn [arithm_tree]. rewrite decide_False by naive_solver.
  destruct (depth <=? maxNameRefDepth)%nat; [|done].
  by rewrite (bind_Ok _ _ _ _ _ (static_runtime d (UnaryArithm op false e) s He)).
Qed.
Lemma arithm_assign enter d op e f depth s :
  static (BinaryArithm op e f) → assignOp op = true →
  arithm_tree enter d (BinaryArithm op e f) depth s = assgnArit (enter 0%nat) d op e (arithm_tree enter d f 0%nat) s.
Proof.
  intros He Ho. cbn [arithm_tree]. rewrite Ho. destruct (depth <=? maxNameRefDepth)%nat; [|done].
  by rewrite (bind_Ok _ _ _ _ _ (static_runtime d (BinaryArithm op e f) s He)).
Qed.
Lemma arithm_incdec enter d op post e depth s :
  static e → op = Inc ∨ op = Dec →
  arithm_tree enter d (UnaryArithm op post e) depth s = incdecArit (enter 0%nat) d op post e s.
Proof.
  intros He Ho. cbn [arithm_tree]. rewrite decide_True by done. destruct (depth <=? maxNameRefDepth)%nat; [|done].
  by rewrite (bind_Ok _ _ _ _ _ (static_runtime d (UnaryArithm op post e) s He)).
Qed.
Definition binary_cases enter d op e f depth : M St Z :=
  match op with
  | TernQuest =>
      cond ← arithm_tree enter d e depth;
      match f with
      | BinaryArithm _ t f => if decide (cond = 0) then arithm_tree enter d f depth else arithm_tree enter d t depth
      | _ => throw Panic
      end
  | AndArit =>
      left ← arithm_tree enter d e depth;
      if decide (left = 0) then mret 0 else right ← arithm_tree enter d f depth; mret (oneIf (negb (right =? 0)))
  | OrArit =>
      left ← arithm_tree enter d e depth;
      if decide (left = 0) then right ← arithm_tree enter d f depth; mret (oneIf (negb (right =? 0))) else mret 1
  | _ =>
      left ← arithm_tree enter d e depth;
      right ← arithm_tree enter d f depth;
      lift (binaryArit op left right)
  end.
Lemma arithm_binary enter d op e f depth s :
  static (BinaryArithm op e f) → assignOp op = false →
  arithm_tree enter d (BinaryArithm op e f) depth s = binary_cases enter d op e f depth s.
Proof.
  intros He Ho. cbn [arithm_tree]. rewrite Ho. destruct (depth <=? maxNameRefDepth)%nat; [|by destruct op].
  rewrite (bind_Ok _ _ _ _ _ (static_runtime d (BinaryArithm op e f) s He)). by destruct op.
Qed.

Lemma binary_cases_plain enter d op e f depth s a b n :
  int_op op a b = Some n →
  arithm_tree enter d e depth s = (Ok (wrap64 a), s) → arithm_tree enter d f depth s = (Ok (wrap64 b), s) →
  binary_cases enter d op e f depth s = (Ok (wrap64 n), s).
Proof.
  intros Hop Hx Hy.
  assert (binary_cases enter d op e f depth =
    (left ← arithm_tree enter d e depth; right ← arithm_tree enter d f depth; lift (binaryArit op left right))) as ->
    by (destruct op; done).
  rewrite (bind_Ok _ _ _ _ _ Hx), (bind_Ok _ _ _ _ _ Hy). unfold lift. by rewrite (binaryArit_exact op a b n).
Qed.
Lemma int_op_not_assign op a b n : int_op op a b = Some n → assignOp op = false.
Proof. by destruct op. Qed.
Lemma wrap64_ne0 a : in_int64b a = true → a ≠ 0 → wrap64 a ≠ 0.
Proof. intros H%in_int64b_spec Ha. by rewrite wrap64_id. Qed.

Lemma binary_static op e f : static (BinaryArithm op e f) → static e ∧ static f.
Proof. unfold static. cbn [arithExprUsesExpandedValue]. by rewrite orb_false_iff. Qed.
Lemma oneIf_wrap b : wrap64 (oneIf b) = oneIf b.
Proof. apply wrap64_id, oneIf_range. Qed.

(** A name: its text is a number, another expression, or there is none. *)
Lemma arithm_name enter d x j t depth s :
  chain s (S j) x t → (S j < maxNameRefDepth)%nat → x ≠ go "LINENO" →
  arithm_tree enter d (word x) depth s = text_value (enter depth) t s.
Proof.
  intros Hc Hj Hl. assert (ValidName x = true) as Hx by (by inversion Hc). pose proof (ValidName_plain x Hx) as [Hp _].
  rewrite arithm_plain by done. apply string_value_follow; [done|by apply some_word_plain|done|].
  apply (follow_chain s (S j)); [done|lia].
Qed.
Lemma text_value_expression eval t e s :
  parseArith (St := St) t = Ok e → e ≠ word t → e ≠ NilExpr → static e → (∀ w, e = AWord w → ∃ v, w = [Lit v]) →
  text_value eval t s = eval e s.
Proof.
  intros Hp Hne Hnil Hst Hw. unfold text_value. rewrite Hp. destruct e as [|w| | |]; try done.
  destruct (Hw w eq_refl) as (v&->). rewrite Word_Lit_word. case_decide as Hv; [|done]. by subst.
Qed.
Lemma denotes_word s k w n : denotes s k (AWord w) n → ∃ v, w = [Lit v].
Proof. inversion 1; by eexists. Qed.

(** The value of a plain text: a number, a name whose text is a number or another expression, or a name
    without text. *)
Lemma plain_value eval te w v k s z :
  some_word w → plain v = true → (∀ j e z, (j < k)%nat → denotes s j e z → eval e s = (Ok (wrap64 z), s)) →
  v ≠ go "LINENO" → denotes s k (word v) z → arithmStringValue eval te w v s = (Ok (wrap64 z), s).
Proof.
  intros Hw Hp Heval Hl Hd. assert (∃ u, u = word v ∧ denotes s k u z) as (u&Hu&Hd') by eauto. revert Hu.
  destruct Hd' as [k v' n Hn|k x j t n Hc Hj _ Hn|k x j t e n Hc Hj _ Hpa Hne He|k x Hx Hno _| | | | | | | | |]; try done; intros [= ->].
  - by apply string_value_number.
  - rewrite (string_value_follow _ _ _ _ _ t); [by apply text_value_number|done..|]. apply (follow_chain s (S j)); [done|lia].
  - rewrite (string_value_follow _ _ _ _ _ t); [|done..|apply (follow_chain s (S j)); [done|lia]].
    rewrite (text_value_expression _ t e); [apply (Heval k); [lia|done]|done..| | |].
    + intros ->. inversion He.
    + by eapply denotes_static.
    + intros w' ->. by eapply denotes_word.
  - rewrite (string_value_follow _ _ _ _ _ v); [by apply text_value_name|done..|]. by apply follow_no_text.
Qed.
Lemma denotes_plain s k v z : denotes s k (word v) z → plain v = true ∧ v ≠ go "LINENO".
Proof.
  inversion 1 as [? ? ? Hn|? ? ? ? ? Hc|? ? ? ? ? ? Hc|? ? Hx| | | | | | | | |]; subst.
  - apply number_literal_plain in Hn as [Hp Hn]. split; [done|]. by intros ->.
  - inversion Hc; subst. split; [by apply ValidName_plain|done].
  - inversion Hc; subst. split; [by apply ValidName_plain|done].
  - split; [by apply ValidName_plain|done].
Qed.

Lemma plain_word_value k enter d v z depth s :
  (∀ j m e z, (j < k)%nat → denotes s j e z → enter m e s = (Ok (wrap64 z), s)) →
  denotes s k (word v) z → arithm_tree enter d (word v) depth s = (Ok (wrap64 z), s).
Proof.
  intros Henter Hd. destruct (denotes_plain s k v z Hd) as [Hp Hl]. rewrite arithm_plain by done.
  apply (plain_value _ _ _ _ k); [by apply some_word_plain|done| |done|done]. intros j e z' Hj He. by apply (Henter j).
Qed.

(** The evaluator computes what an expression denotes modulo [2^64], and changes nothing. *)
Lemma arithm_denotes k enter d e n depth s :
  (∀ j m e z, (j < k)%nat → denotes s j e z → enter m e s = (Ok (wrap64 z), s)) →
  denotes s k e n → arithm_tree enter d e depth s = (Ok (wrap64 n), s).
Proof.
  intros Henter Hd. pose proof (denotes_static s k e n Hd) as Hst. revert Hst.
  induction Hd as [k v n Hn|k x j t n Hc Hj Hl Hn|k x j t e n Hc Hj Hl Hp Hne He _|k x Hx Hno Hl|k e n He IHe|k op e a n He IHe Hop
    |k op e f a b n He IHe Hf IHf Hop|k e f He IHe Hsf|k e f a b He IHe Hf IHf Ha Hb Hne|k e f a He IHe Ha Hne Hsf
    |k e f b He IHe Hf IHf Hb|k c e f a n Hc IHc Ha Hne He IHe Hsf|k c e f n Hc IHc Hse Hf IHf]; intros Hst.
  - apply (plain_word_value k); [done|by apply den_number].
  - apply (plain_word_value k); [done|by eapply den_variable].
  - apply (plain_word_value (S k)); [done|by eapply den_expression].
  - apply (plain_word_value k); [done|by apply den_no_text].
  - rewrite arithm_paren by done. by apply IHe.
  - rewrite arithm_unary by (done || by intros ->). rewrite (bind_Ok _ _ _ _ _ (IHe Henter Hst)).
    unfold lift. by rewrite (unaryArit_exact op a n).
  - destruct (binary_static _ _ _ Hst). rewrite arithm_binary by (done || by eapply int_op_not_assign).
    by apply (binary_cases_plain _ _ _ _ _ _ _ a b); [|apply IHe|apply IHf].
  - rewrite arithm_binary by done. apply binary_static in Hst as [Hse _]. cbn [binary_cases].
    rewrite (bind_Ok _ _ _ _ _ (IHe Henter Hse)). by rewrite decide_True.
  - rewrite arithm_binary by done. apply binary_static in Hst as [Hse Hsf]. cbn [binary_cases].
    rewrite (bind_Ok _ _ _ _ _ (IHe Henter Hse)). rewrite decide_False by (by apply wrap64_ne0).
    rewrite (bind_Ok _ _ _ _ _ (IHf Henter Hsf)). by rewrite oneIf_wrap, wrap64_zero.
  - rewrite arithm_binary by done. apply binary_static in Hst as [Hse _]. cbn [binary_cases].
    rewrite (bind_Ok _ _ _ _ _ (IHe Henter Hse)). by rewrite decide_False by (by apply wrap64_ne0).
  - rewrite arithm_binary by done. apply binary_static in Hst as [Hse Hsf]. cbn [binary_cases].
    rewrite (bind_Ok _ _ _ _ _ (IHe Henter Hse)). rewrite decide_True by done.
    rewrite (bind_Ok _ _ _ _ _ (IHf Henter Hsf)). by rewrite oneIf_wrap, wrap64_zero.
  - rewrite arithm_binary by done. apply binary_static in Hst as [Hsc [Hse _]%binary_static]. cbn [binary_cases].
    rewrite (bind_Ok _ _ _ _ _ (IHc Henter Hsc)). rewrite decide_False by (by apply wrap64_ne0). by apply IHe.
  - rewrite arithm_binary by done. apply binary_static in Hst as [Hsc [_ Hsf']%binary_static]. cbn [binary_cases].
    rewrite (bind_Ok _ _ _ _ _ (IHc Henter Hsc)). rewrite decide_True by done. by apply IHf.
Qed.

Lemma budget_denotes k budget d e n depth s :
  (k <= budget)%nat → denotes s k e n → arithm budget d e depth s = (Ok (wrap64 n), s).
Proof.
  revert k d e n depth. induction budget as [|budget IH]; intros k d e n depth Hk Hd; cbn [arithm];
    apply (arithm_denotes k); [lia|done| |done]. intros j m f z Hj Hf. apply (IH j); [lia|done].
Qed.

(** ** Cycles of variables *)

(** The first variable that [e] reads is [y]: what is in front of it has a value. *)
Inductive leads s y : ArithmExpr → Prop :=
| leads_word : leads s y (word y)
| leads_paren e : leads s y e → leads s y (ParenArithm e)
| leads_unary op e : op ≠ Inc → op ≠ Dec → leads s y e → leads s y (UnaryArithm op false e)
| leads_left op e f : assignOp op = false → leads s y e → static f → leads s y (BinaryArithm op e f)
| leads_right op e f a b n : denotes s 0 e a → int_op op a b = Some n → leads s y f → leads s y (BinaryArithm op e f).

Lemma leads_static s y e : leads s y e → static e.
Proof.
  unfold static. induction 1 as [| | | |op e f a b n He%denotes_static Hop Hf IHf]; cbn [arithExprUsesExpandedValue];
    rewrite ?orb_false_iff; done.
Qed.

(** [cycle s names]: the value of every name is an expression that reads another one first. *)
Definition cycle s (names : gostr → Prop) : Prop :=
  ∀ x, names x → ValidName x = true ∧ x ≠ go "LINENO" ∧
    ∃ t e y, has_text s x t ∧ ValidName t = false ∧ parseArith (St := St) t = Ok e ∧ leads s y e ∧ names y.

Definition too_deep : arith_error := ArithmDiagnosticError RecursionLevelExceeded.

Lemma binary_cases_Err enter d op e f depth s err :
  arithm_tree enter d e depth s = (Err err, s) → binary_cases enter d op e f depth s = (Err err, s).
Proof. intros He. by destruct op; apply bind_Err. Qed.
Lemma binary_cases_right enter d op e f depth s a b n z err :
  int_op op a b = Some n → arithm_tree enter d e depth s = (Ok z, s) → arithm_tree enter d f depth s = (Err err, s) →
  binary_cases enter d op e f depth s = (Err err, s).
Proof.
  intros Hop He Hf. assert (binary_cases enter d op e f depth =
    (left ← arithm_tree enter d e depth; right ← arithm_tree enter d f depth; lift (binaryArit op left right))) as ->
    by (destruct op; done).
  rewrite (bind_Ok _ _ _ _ _ He). by apply bind_Err.
Qed.

Lemma leads_word_inv s y w : leads s y (AWord w) → w = [Lit y].
Proof. by inversion 1. Qed.

Lemma cycle_tree names enter d e x depth s :
  cycle s names → (∀ m f y, names y → leads s y f → enter m f s = (Err too_deep, s)) →
  names x → leads s x e → arithm_tree enter d e depth s = (Err too_deep, s).
Proof.
  intros Hc Henter Hx Hl. induction Hl as [|e Hl IH|op e Hi Hd Hl IH|op e f Ho Hl IH Hf|op e f a b n He Hop Hf IH].
  - destruct (Hc x Hx) as (Hv&Hn&t&e&y&Ht&Htn&Hp&He&Hy).
    rewrite (arithm_name _ _ _ 0 t) by (done || unfold maxNameRefDepth; (lia || by eapply chain_step, chain_end)).
    rewrite (text_value_expression _ t e); [by eapply Henter|done| | | |].
    + intros ->. apply leads_word_inv in He as [= ->]. destruct (Hc y Hy) as [Hyv _]. congruence.
    + intros ->. inversion He.
    + by eapply leads_static.
    + intros w ->. apply leads_word_inv in He as ->. by eexists.
  - rewrite arithm_paren by (by eapply leads_static). done.
  - rewrite arithm_unary by (done || by eapply leads_static). by apply bind_Err.
  - rewrite arithm_binary by (try done; eapply leads_static; by apply leads_left). by apply binary_cases_Err.
  - rewrite arithm_binary; [|by eapply leads_static, leads_right|by eapply int_op_not_assign].
    eapply binary_cases_right; [done| |done]. apply (arithm_denotes 0); [lia|done].
Qed.
Lemma cycle_budget names budget d e x depth s :
  cycle s names → names x → leads s x e → arithm budget d e depth s = (Err too_deep, s).
Proof.
  intros Hc. revert d e x depth. induction budget as [|budget IH]; intros d e x depth Hx Hl; cbn [arithm];
    apply (cycle_tree names _ _ _ x); try done. intros m f y Hy Hf. by apply (IH _ _ y).
Qed.
End denotation.
