(* ===== verification/ArithAssign.v ===== *)
(** Assignment in arithmetic: the decimal text that is stored, and that it is read back. *)
From S2P Require Import Prelude GoMonad GoUtf8 GoStrconv ArithSyntax ArithGrammar ArithPrint ArithNumber Arith ArithRange ArithLiteral ArithEval ArithInteger.

(** ** Decimal text *)

Lemma dec_digits_head fuel n acc : 0 < n < 2 ^ Z.of_nat fuel → ∃ c ds, dec_digits fuel n acc = c :: ds ∧ c ≠ "0"%char.
Proof.
  revert n acc. induction fuel as [|fuel IH]; intros n acc Hn; [change (2 ^ Z.of_nat 0) with 1 in Hn; lia|].
  cbn [dec_digits]. destruct (Z.ltb_spec n 10) as [Hlt|Hge].
  - eexists _, _. split; [done|]. rewrite Z.mod_small by lia. destruct (digit_char_val n ltac:(lia)) as [_ Hv].
    intros E. rewrite E in Hv. vm_compute in Hv. lia.
  - apply IH. rewrite Nat2Z.inj_succ, Z.pow_succ_r in Hn by lia. split.
    + apply Z.div_str_pos. lia.
    + apply Z.div_lt_upper_bound; lia.
Qed.
Lemma show_nat_literal n : 0 <= n → number_literal (show_nat n) n.
Proof.
  intros Hn. destruct (Z.eq_dec n 0) as [->|Hne].
  { apply (decimal_number (go "0") [0]); [by repeat constructor|done|by right]. }
  pose proof (show_nat_value n Hn) as Hv.
  pose proof (dec_digits_digits (digit_fuel n) n [] Hn ltac:(constructor)) as Hd. fold (show_nat n) in Hd.
  destruct (is_digit_digits (show_nat n)) as (vs&Hvs).
  { apply forallb_forall. rewrite list.Forall_forall in Hd. intros c Hc. by apply Hd, list_elem_of_In. }
  pose proof (decimal_atoi _ _ Hvs 0) as Hv'. rewrite Hv in Hv'. injection Hv' as Hv'.
  fold (positional 10 vs) in Hv'. rewrite Hv' at 2.
  destruct (dec_digits_head (digit_fuel n) n []) as (c&ds&Hs&Hc); [split; [lia|by apply digit_fuel_ok]|].
  apply decimal_number; [done|unfold show_nat; by rewrite Hs|]. left. unfold show_nat. rewrite Hs. simpl.
  by destruct (Ascii.eqb_spec c "0").
Qed.

Definition no_space (c : ascii) : bool := negb (arithWhitespace c).
Lemma trimArithSpace_none v : forallb no_space v = true → trimArithSpace v = v.
Proof.
  assert (∀ v, forallb no_space v = true → trimArithLeftSpace v = v) as Hl.
  { intros [|c w]; [done|]. cbn [forallb trimArithLeftSpace]. unfold no_space at 1. intros [Hc%negb_true_iff _]%andb_prop. by rewrite Hc. }
  intros Hv. unfold trimArithSpace. rewrite (Hl v) by done. rewrite Hl; [apply reverse_involutive|].
  rewrite forallb_forall in Hv |- *. intros c Hc. apply Hv. by apply list_elem_of_In, elem_of_reverse, list_elem_of_In.
Qed.
Lemma plain_no_space v : plain v = true → forallb no_space v = true.
Proof.
  intros [_ Hv]%plain_chars. rewrite forallb_forall in Hv |- *. intros c Hc. unfold no_space.
  by rewrite (proj2 (plain_char_spec c (Hv c Hc))).
Qed.

(** What [Itoa] writes: a number literal, with a sign in front of it where the number is negative. *)
Lemma Itoa_text z : ∃ v, number_literal v (Z.abs z) ∧ Itoa z = if z <? 0 then "-"%char :: v else v.
Proof.
  exists (show_nat (Z.abs z)). split; [apply show_nat_literal; lia|]. unfold Itoa.
  destruct (Z.ltb_spec z 0); [by rewrite Z.abs_neq by lia|by rewrite Z.abs_eq by lia].
Qed.
Lemma Itoa_facts z : Itoa z ≠ [] ∧ forallb no_space (Itoa z) = true ∧ ValidName (Itoa z) = false.
Proof.
  destruct (Itoa_text z) as (v&[Hp Hn]%number_literal_plain&->). pose proof (plain_chars v Hp) as [Hne _].
  destruct (z <? 0); split_and!; try done; cbn [forallb]; rewrite ?plain_no_space; done.
Qed.

Lemma parseArith_negative {St} `{!ArithShell St} v :
  plain v = true → parseArith (St := St) ("-"%char :: v) = Ok (UnaryArithm Minus false (word v)).
Proof.
  intros Hp. set (e := UnaryArithm Minus false (word v)).
  assert (arithExprSource e = "-"%char :: v) as Hv by (simpl; by rewrite app_nil_r).
  assert (Arithmetic ("-"%char :: v) = Some (Ok e)) as H.
  { rewrite <- Hv. apply Arithmetic_print; [|..|done].
    - cbn [reading e]. change (incdec_op Minus) with false. cbn iota. rewrite !andb_true_r. unfold word. cbn [reading].
      by rewrite (plain_lit_value v Hp).
    - cbn [glue_free e glued]. unfold word. cbn [arithExprSource map concat writeLiteral]. rewrite app_nil_r.
      destruct v as [|c v]; [done|]. simpl. simpl in Hp. to_prop. destruct (Ascii.eqb_spec c "-") as [->|]; done.
    - done. }
  unfold parseArith. by rewrite H.
Qed.

Section assign.
Context {St : Type} `{!ArithShell St} `{!ScalarShell St}.
Implicit Types (s : St) (x : gostr).

(** [value_of s k v z]: the text [v] has the value [z], as a word or as an expression. *)
Inductive value_of s k : gostr → Z → Prop :=
| value_word v z : denotes s k (word v) z → value_of s k v z
| value_expression v e z :
    trimArithSpace v = v → ValidName v = false → parseArith (St := St) v = Ok e → e ≠ word v → denotes s k e z →
    value_of s k v z.

Lemma value_of_evaluated budget d depth te w s k v z :
  some_word w → v ≠ [] → (k <= budget)%nat → value_of s k v z →
  arithmStringValue (fun e => arithm budget d e depth) te w v s = (Ok (wrap64 z), s).
Proof.
  intros Hw Hv Hk Hval. revert Hv. destruct Hval as [v' z' Hd|v' e z' Ht Hn Hp Hne Hd]; intros Hv.
  - destruct (denotes_plain _ _ _ _ Hd) as [Hpl Hl]. apply (plain_value _ _ _ _ k); try done.
    intros j e n Hj He. apply (budget_denotes j); [lia|done].
  - unfold arithmStringValue. rewrite Ht. rewrite bool_decide_false by done. unfold some_word in Hw. rewrite Hw. cbn [orb].
    rewrite bool_decide_false by (intros E; by rewrite E in Hn). cbn [andb].
    rewrite (bind_Ok _ _ _ (Some v') s) by (by apply (follow_chain s 0); [constructor|lia]).
    change (text_value (fun e => arithm budget d e depth) v' s = (Ok (wrap64 z'), s)).
    rewrite (text_value_expression _ v' e); [by apply (budget_denotes k)|done|done| | |].
    + intros ->. inversion Hd.
    + by eapply denotes_static.
    + intros w' ->. by eapply denotes_word.
Qed.

(** The text that an assignment stores has the value that was assigned: it is a number, or an expression
    with a sign. *)
Lemma Itoa_cases z :
  number_literal (Itoa z) z ∨
  ∃ e, parseArith (St := St) (Itoa z) = Ok e ∧ e ≠ word (Itoa z) ∧ ∀ s k, denotes s k e z.
Proof.
  destruct (Itoa_text z) as (v&Hn&->). pose proof (number_literal_plain v _ Hn) as [Hp _].
  destruct (Z.ltb_spec z 0) as [Hz|Hz]; [right|left; by rewrite (Z.abs_eq z) in Hn by done].
  exists (UnaryArithm Minus false (word v)). split_and!; [by apply parseArith_negative|done|].
  intros s k. eapply den_unary; [by apply den_number|]. simpl. f_equal. lia.
Qed.
Lemma Itoa_value s k z : value_of s k (Itoa z) z.
Proof.
  destruct (Itoa_facts z) as (_&Hsp&Hname). destruct (Itoa_cases z) as [Hn|(e&Hp&Hne&Hd)].
  - by apply value_word, den_number.
  - apply (value_expression _ _ _ e); [by apply trimArithSpace_none|done|done|done|apply Hd].
Qed.
Lemma Itoa_read s k x z : has_text s x (Itoa z) → ValidName x = true → x ≠ go "LINENO" → denotes s (S k) (word x) z.
Proof.
  intros Hx Hn Hl. assert (chain s 1 x (Itoa z)) as Hc by (eapply chain_step, chain_end; [done..|]; by apply Itoa_facts).
  destruct (Itoa_cases z) as [Hz|(e&Hp&Hne&Hd)].
  - apply (den_variable _ _ _ 0 (Itoa z)); [done|unfold maxNameRefDepth; lia|done|done].
  - apply (den_expression _ _ _ 0 (Itoa z) e); [done|unfold maxNameRefDepth; lia|done|done|done|apply Hd].
Qed.

(** What a variable holds for an assignment: nothing, or a text that has a value. *)
Definition holds s k x (z : Z) : Prop :=
  no_text s x ∧ Str (vars s x) = [] ∧ z = 0 ∨ ∃ v, has_text s x v ∧ value_of s k v z.

Lemma holds_scalar s k x z : holds s k x z → scalar s x.
Proof. by intros [[[? _] _]|(v&[? _]&_)]. Qed.
Lemma holds_set s k x z : holds s k x z → NoUnset (St := St) && negb (IsSet (vars s x)) = false.
Proof. intros [([_ [[-> ->]|[-> _]]]&_)|(v&(_&->&_)&_)]; by rewrite ?andb_false_r. Qed.
Lemma holds_value budget d depth te s k x z :
  (k <= budget)%nat → holds s k x z →
  arithmStringValue (fun e => arithm budget d e depth) te None (Str (vars s x)) s = (Ok (wrap64 z), s).
Proof.
  intros Hk [(_&->&->)|(v&(_&_&->&Hne)&Hv)]; [done|]. by apply (value_of_evaluated _ _ _ _ _ _ k).
Qed.
Lemma arithmLValue_name budget d d' depth x mode s k z :
  (k <= budget)%nat → ValidName x = true → holds s k x z →
  arithmLValue (fun e => arithm budget d e depth) d' (word x) mode s = (Ok (MkVarRef x None, wrap64 z), s).
Proof.
  intros Hk Hx Hz. pose proof (holds_scalar s k x z Hz) as Hsc. unfold arithmLValue, arithmVarRef, word. rewrite Hx.
  rewrite (bind_Ok (mret _) _ s (MkVarRef x None) s) by done.
  rewrite (bind_Ok _ _ _ _ _ (resolveVarRef_scalar x s Hx Hsc)). cbn [default]. rewrite (holds_set s k x z) by done.
  rewrite (bind_Ok _ _ _ _ _ (varRef_scalar d' x s Hx Hsc)).
  by rewrite (bind_Ok _ _ _ _ _ (holds_value budget d depth _ s k x z Hk Hz)).
Qed.

(** The operators of assignment are the ones on integers; the plain one takes the new value. *)
Definition int_assign (op : BinAritOperator) (a b : Z) : option Z :=
  match op with
  | assgn => Some b
  | addAssgn => int_op Add a b
  | subAssgn => int_op Sub a b
  | mulAssgn => int_op Mul a b
  | quoAssgn => int_op Quo a b
  | remAssgn => int_op Rem a b
  | andAssgn => int_op And a b
  | orAssgn => int_op Or a b
  | xorAssgn => int_op Xor a b
  | shlAssgn => int_op Shl a b
  | shrAssgn => int_op Shr a b
  | _ => None
  end.
Lemma assign_op_exact op a b c :
  int_assign op a b = Some c → assign_op op (wrap64 a) (wrap64 b) = Ok (wrap64 c) ∧ assignOp op = true.
Proof.
  intros H. destruct op; try done; (split; [|done]); cbn [int_assign] in H; cbn [assign_op]; [by injection H as ->|..];
    apply binaryArit_exact in H; unfold binaryArit in H; cbn [binArit] in H;
    rewrite ?(bool_decide_false (_ ∈ [Quo; Rem])) in H by (by rewrite !elem_of_cons, elem_of_nil; naive_solver);
    rewrite ?(bool_decide_true (_ ∈ [Quo; Rem])) in H by (by rewrite !elem_of_cons; auto);
    rewrite ?andb_false_r, ?andb_true_r in H; try exact H; destruct (wrap64 b =? 0); try done; congruence.
Qed.

(** [update s k x e c r]: the expression [e] assigns [c] to the variable [x] and has the value [r]. *)
Inductive update s k x : ArithmExpr → Z → Z → Prop :=
| update_assign op f a b c :
    holds s k x a → denotes s k f b → int_assign op a b = Some c → update s k x (BinaryArithm op (word x) f) c c
| update_inc post a : holds s k x a → update s k x (UnaryArithm Inc post (word x)) (a + 1) (if post : bool then a else a + 1)
| update_dec post a : holds s k x a → update s k x (UnaryArithm Dec post (word x)) (a - 1) (if post : bool then a else a - 1).

(** Every other ordinary variable is what it was. *)
Definition others_kept s s' x : Prop := ∀ y, y ≠ x → scalar s y → scalar s' y ∧ vars s' y = vars s y.
(** The decimal text is stored, in no other variable. *)
Definition stores s s' x (z : Z) : Prop :=
  scalar s' x ∧ IsSet (vars s' x) = true ∧ Str (vars s' x) = Itoa z ∧ others_kept s s' x.
Definition stores_nothing s s' x : Prop := scalar s' x ∧ vars s' x = vars s x ∧ others_kept s s' x.

(** The end of an assignment: an answer and a new state. *)
Definition assigned {A} s x (z : Z) (a : A) (p : result arith_error A * St) : Prop :=
  match refused s x with
  | Some err => p.1 = Err err ∧ stores_nothing s p.2 x
  | None => p.1 = Ok a ∧ stores s p.2 x z
  end.

Lemma envSetRef_assigned {B} d x z s (b : B) :
  ValidName x = true → scalar s x → assigned s x z b ((envSetRef d (MkVarRef x None) (Itoa z) ≫= λ _, mret b) s).
Proof.
  intros Hx Hsc. destruct (envSetRef_scalar d x (Itoa z) s Hx Hsc) as (s'&Ho&Hs'&Hr). unfold assigned.
  destruct (refused s x) as [err|]; destruct Hr as [Hr Hv].
  - rewrite (bind_Err _ _ _ _ _ Hr). unfold stores_nothing. by split_and!.
  - destruct Hv as [Hset Hstr]. rewrite (bind_Ok _ _ _ _ _ Hr). unfold stores. by split_and!.
Qed.
Lemma assgnArit_name budget d d' depth op x s k (evalY : M St Z) a b c :
  (k <= budget)%nat → ValidName x = true → holds s k x a → evalY s = (Ok (wrap64 b), s) → int_assign op a b = Some c →
  assigned s x (wrap64 c) (wrap64 c) (assgnArit (fun e => arithm budget d e depth) d' op (word x) evalY s).
Proof.
  intros Hk Hx Ha Hy Hop. apply assign_op_exact in Hop as [Hop _]. unfold assgnArit.
  rewrite (bind_Ok _ _ _ _ _ (arithmLValue_name budget d d' depth x _ s k a Hk Hx Ha)), (bind_Ok _ _ _ _ _ Hy), Hop.
  rewrite (bind_Ok (lift _) _ s (wrap64 c) s) by done. apply envSetRef_assigned; [done|by eapply holds_scalar].
Qed.
Lemma incdecArit_name budget d d' depth op post x s k a :
  (k <= budget)%nat → ValidName x = true → holds s k x a →
  let c := if decide (op = Inc) then a + 1 else a - 1 in
  assigned s x (wrap64 c) (wrap64 (if post : bool then a else c)) (incdecArit (fun e => arithm budget d e depth) d' op post (word x) s).
Proof.
  intros Hk Hx Ha c. unfold incdecArit. rewrite (bind_Ok _ _ _ _ _ (arithmLValue_name budget d d' depth x _ s k a Hk Hx Ha)).
  assert ((if decide (op = Inc) then wrap64 (wrap64 a + 1) else wrap64 (wrap64 a - 1)) = wrap64 c) as ->.
  { unfold c. change 1 with (wrap64 1). case_decide; [by rewrite wrap64_add|by rewrite wrap64_sub]. }
  destruct post; apply envSetRef_assigned; (done || by eapply holds_scalar).
Qed.

(** What is stored is what the variable holds from then on, and is read back. *)
Lemma stores_text s s' x z : stores s s' x z → has_text s' x (Itoa z).
Proof. intros (?&?&?&_). split_and!; [done..|]. apply Itoa_facts. Qed.
Lemma stores_holds s s' k x z : stores s s' x z → holds s' k x z.
Proof. intros H%stores_text. right. exists (Itoa z). split; [done|apply Itoa_value]. Qed.
Lemma stores_read budget d depth s s' x z :
  x ≠ go "LINENO" → ValidName x = true → int64_ok z → stores s s' x z →
  arithm (S budget) d (word x) depth s' = (Ok z, s').
Proof.
  intros Hl Hx Hz Hst. rewrite (budget_denotes 1 (S budget) d _ z); [by rewrite wrap64_id|lia|].
  by apply Itoa_read; [eapply stores_text|..].
Qed.

Lemma arithm_update budget d depth s k x e c r :
  (k <= budget)%nat → ValidName x = true → update s k x e c r →
  assigned s x (wrap64 c) (wrap64 r) (arithm (S budget) d e depth s).
Proof.
  intros Hk Hx Hu. cbn [arithm]. set (enter := fun (n : nat) e => arithm budget (S d) e (S n)).
  destruct Hu as [op f a b c Ha Hf Hop|post a Ha|post a Ha].
  - pose proof (assign_op_exact op a b c Hop) as [_ Hass].
    rewrite arithm_assign; [|by eapply denotes_static in Hf|done].
    apply (assgnArit_name budget (S d) d 1 op x s k (arithm_tree enter d f 0) a b); [done..| |done].
    apply (arithm_denotes k); [|done]. intros j m g z Hj Hg. apply (budget_denotes j); [lia|done].
  - rewrite arithm_incdec by (done || auto). exact (incdecArit_name budget (S d) d 1 Inc post x s k a Hk Hx Ha).
  - rewrite arithm_incdec by (done || auto). exact (incdecArit_name budget (S d) d 1 Dec post x s k a Hk Hx Ha).
Qed.
End assign.
