(* ===== verification/ArithTheorems.v ===== *)
(** The properties of shell arithmetic: the parser, number literals, and the evaluator. *)
From S2P Require Import Prelude GoMonad GoUtf8 GoStrconv ArithSyntax ArithGrammar ArithSound ArithPrint ArithNumber Arith ArithRange ArithLiteral ArithEval ArithInteger ArithAssign.

(** ** The parser *)

(** C34: [Parser.Arithmetic] always answers.  A tree that it answers is nil or in the order of the grammar
    (precedence and associativity of every operator), its text is the source without blanks, and its
    nesting and depth are within the limits of the parser. *)
Theorem arith_parse_sound src :
  (∃ e, Arithmetic src = Some (Ok e) ∧ read_as src e) ∨ (∃ err, Arithmetic src = Some (Err err)).
Proof.
  pose proof (Arithmetic_enough src) as Hn. destruct (Arithmetic src) as [[e|err]|] eqn:E; [left|right|done].
  - exists e. split; [done|]. by apply Arithmetic_reads.
  - by exists err.
Qed.

(** C35: A tree in the order of the grammar, written as text by [arithExprSource], is parsed to the same tree,
    if it is within the limits and no two of its signs come together to another token. *)
Theorem arith_parse_roundtrip e :
  reading e = true → glue_free e = true → need e <= MaxNestingDepth → nodeDepth e <= MaxTreeDepth →
  Arithmetic (arithExprSource e) = Some (Ok e).
Proof. apply Arithmetic_print. Qed.
Definition sample : ArithmExpr :=
  BinaryArithm assgn (word (go "x")) (BinaryArithm TernQuest (BinaryArithm Lss (word (go "a")) (word (go "0x1f")))
    (BinaryArithm TernColon (UnaryArithm Minus false (UnaryArithm Inc false (word (go "b"))))
       (BinaryArithm Pow (word (go "2")) (BinaryArithm Pow (word (go "3")) (ParenArithm (BinaryArithm Comma (word (go "i")) (word (go "j")))))))).
Lemma arith_parse_roundtrip_witness :
  arithExprSource sample = go "x=a<0x1f?-++b:2**3**(i,j)" ∧ Arithmetic (arithExprSource sample) = Some (Ok sample).
Proof.
  split; [vm_compute; reflexivity|].
  apply (arith_parse_roundtrip sample); vm_compute; first [reflexivity|discriminate].
Defined.

(** ** Numbers *)

(** C36: [parseArithNumber] reads exactly the number literals, decimal, octal, hexadecimal and [base#digits]
    up to base 64, with blanks behind them, and answers their value modulo [2^64]. *)
Theorem parseArithNumber_literals s n :
  parseArithNumber s = Some (Ok n) ↔
  ∃ lit blanks_ v, s = lit ++ blanks_ ∧ blanks blanks_ ∧ number_literal lit v ∧ n = wrap64 v.
Proof.
  split.
  - unfold parseArithNumber. destruct (parseArithNumberPrefix s) as [[[m rest]|]|] eqn:E; [|done..].
    case_decide as Hb; [|by repeat case_match]. intros [= <-].
    apply number_literal_inv in E as (lit&v&->&Hl&->). exists lit, rest, v. by apply trimArithSpace_nil in Hb.
  - intros (lit&bl&v&->&Hb&Hl&->). unfold parseArithNumber. rewrite (number_literal_parsed lit v bl Hl Hb).
    by rewrite decide_True by (by apply trimArithSpace_nil).
Qed.

(** ** The evaluator *)

(** C37: The evaluator computes the integer that an expression denotes, modulo [2^64], and changes nothing,
    where the values of variables that are expressions again are nested [k] deep and [arithDepth + k] is
    under the limit of 1024.  Number literals denote, variables whose values are numbers, names or expressions
    again, the unary and binary operators with the mathematical operations on unbounded integers, and [&&],
    [||] and [?:] that skip an operand; comparisons, divisions, right shifts and the tests of [!], [&&],
    [||] and [?:] denote only on operands of 64 bits, where the code's and the unbounded ones agree. *)
Theorem Arithm_denotes {St} `{!ArithShell St} `{!ScalarShell St} k arithDepth e n (s : St) :
  denotes s k e n → (arithDepth + k < maxArithRecursionDepth)%nat → Arithm arithDepth e s = (Ok (wrap64 n), s).
Proof.
  intros Hd Hk. unfold Arithm. rewrite (proj2 (Nat.leb_gt _ _)) by lia.
  apply (budget_denotes k); [lia|done].
Qed.
Definition two_variables : gmap gostr gostr := {[go "x" := go "2*y"; go "y" := go "16#fF"]}.
Lemma two_variables_x : denotes two_variables 1 (word (go "x")) 510.
Proof.
  assert (number_literal (go "16#fF") 255) as Hy.
  { apply (number_in_base (go "16") [1; 6] 16 (go "fF") [15; 15]); try done; repeat constructor. }
  assert (number_literal (go "2") 2) as H2 by (apply (decimal_number (go "2") [2]); [repeat constructor|done|by left]).
  assert (has_text two_variables (go "x") (go "2*y")) as Hxt by (split_and!; vm_compute; try reflexivity; discriminate).
  assert (has_text two_variables (go "y") (go "16#fF")) as Hyt by (split_and!; vm_compute; try reflexivity; discriminate).
  apply (den_expression _ 0 (go "x") 0 (go "2*y") (BinaryArithm Mul (word (go "2")) (word (go "y")))).
  - by eapply chain_step, chain_end.
  - unfold maxNameRefDepth. lia.
  - done.
  - vm_compute. reflexivity.
  - done.
  - apply (den_binary _ _ Mul _ _ 2 255); [by apply den_number| |done].
    eapply (den_variable _ _ (go "y") 0 (go "16#fF")); [by eapply chain_step, chain_end|unfold maxNameRefDepth; lia|done|done].
Qed.
Lemma Arithm_denotes_witness : Arithm 0 (word (go "x")) two_variables = (Ok 510, two_variables).
Proof. apply (Arithm_denotes 1 0 _ 510 two_variables two_variables_x). unfold maxArithRecursionDepth. lia. Defined.

(** C38: A cycle of variables, where the value of each is an expression that reads another one of them first,
    ends with the error that the recursion level is exceeded, from whatever depth it is evaluated, and
    nothing is changed. *)
Theorem Arithm_cycle {St} `{!ArithShell St} `{!ScalarShell St} (names : gostr → Prop) arithDepth e x (s : St) :
  cycle s names → names x → leads s x e →
  Arithm arithDepth e s = (Err (ArithmDiagnosticError RecursionLevelExceeded), s).
Proof.
  intros Hc Hx Hl. unfold Arithm. case_match; [done|]. by apply (cycle_budget names _ _ e x).
Qed.
Definition ping_pong : gmap gostr gostr := {[go "ping" := go "1+pong"; go "pong" := go "-(ping)"]}.
Lemma ping_pong_cycle : cycle ping_pong (fun x => x = go "ping" ∨ x = go "pong").
Proof.
  assert (number_literal (go "1") 1) as H1 by (apply (decimal_number (go "1") [1]); [repeat constructor|done|by left]).
  intros x [-> | ->]; (split; [done|]); (split; [done|]).
  - exists (go "1+pong"), (BinaryArithm Add (word (go "1")) (word (go "pong"))), (go "pong"). split_and!.
    + split_and!; vm_compute; try reflexivity; discriminate.
    + done.
    + vm_compute. reflexivity.
    + apply (leads_right _ _ Add _ _ 1 0 1); [by apply den_number|done|apply leads_word].
    + by right.
  - exists (go "-(ping)"), (UnaryArithm Minus false (ParenArithm (word (go "ping")))), (go "ping"). split_and!.
    + split_and!; vm_compute; try reflexivity; discriminate.
    + done.
    + vm_compute. reflexivity.
    + apply leads_unary; [done|done|]. apply leads_paren, leads_word.
    + by left.
Qed.
Lemma Arithm_cycle_witness :
  Arithm 0 (word (go "ping")) ping_pong = (Err (ArithmDiagnosticError RecursionLevelExceeded), ping_pong).
Proof. apply (Arithm_cycle _ 0 _ (go "ping") ping_pong ping_pong_cycle); [by left|apply leads_word]. Defined.

(** C39: Assignments, also [op=], [++] and [--], to an ordinary variable other than [LINENO], within the nesting
    limit of 1024.  If the value that the variable holds denotes an integer (a number, the decimal text of
    an earlier assignment, a name or an expression; where it does not, the code fails even for [=], which is one
    of the findings) or it has none, the right-hand side denotes one, and the operator is defined on the two: the
    decimal text of the 64-bit result is stored, the assignment has the value of the new variable, or for a
    postfix operator the old one, and the variable is then read back with the value that was stored, also a
    negative one.  If the shell refuses the store, the assignment fails with that error and the variable has
    its old value.  No other ordinary variable changes in either case. *)
Theorem Arithm_assignment {St} `{!ArithShell St} `{!ScalarShell St} k arithDepth e x c r (s : St) :
  update s k x e c r → ValidName x = true → x ≠ go "LINENO" → (arithDepth + k + 1 < maxArithRecursionDepth)%nat →
  ∃ res s', Arithm arithDepth e s = (res, s') ∧ others_kept s s' x ∧
    match refused s x with
    | Some err => res = Err err ∧ vars s' x = vars s x
    | None => res = Ok (wrap64 r) ∧ Str (vars s' x) = Itoa (wrap64 c) ∧ Arithm arithDepth (word x) s' = (Ok (wrap64 c), s')
    end.
Proof.
  intros Hu Hx Hl Hk. unfold Arithm. rewrite (proj2 (Nat.leb_gt _ _)) by lia.
  destruct (maxArithRecursionDepth - S arithDepth)%nat as [|budget] eqn:E; [lia|].
  pose proof (arithm_update budget (S arithDepth) 0 s k x e c r ltac:(lia) Hx Hu) as Ha. unfold assigned in Ha.
  eexists _, _. split; [apply surjective_pairing|]. destruct (refused s x) as [err|].
  - destruct Ha as [-> (_&Hv&Ho)]. by split_and!.
  - destruct Ha as [-> Hst]. split_and!; [by apply Hst|done|by apply Hst|].
    apply (stores_read budget _ _ s); [done|done|apply wrap64_range|done].
Qed.
(** A variable whose value is an expression, and a readonly one. *)
Definition two_shells : gmap gostr gostr := {[go "n" := go "2*4"; go "PPID" := go "1"]}.
Lemma two_shells_n : update two_shells 0 (go "n") (BinaryArithm subAssgn (word (go "n")) (word (go "9"))) (-1) (-1).
Proof.
  pose proof (show_nat_literal 2 ltac:(lia)) as H2. pose proof (show_nat_literal 4 ltac:(lia)) as H4.
  pose proof (show_nat_literal 9 ltac:(lia)) as H9.
  apply (update_assign _ _ _ subAssgn (word (go "9")) 8 9); [|by apply den_number|done].
  right. exists (go "2*4"). split; [split_and!; [done|vm_compute; reflexivity..|discriminate]|].
  apply (value_expression _ _ _ (BinaryArithm Mul (word (go "2")) (word (go "4")))); [done|done|vm_compute; reflexivity|done|].
  by apply (den_binary _ _ Mul _ _ 2 4); [apply den_number..|].
Qed.
Lemma two_shells_PPID : update two_shells 0 (go "PPID") (UnaryArithm Inc false (word (go "PPID"))) (1 + 1) (1 + 1).
Proof.
  apply (update_inc _ _ _ false). right. exists (go "1"). split; [split_and!; [done|vm_compute; reflexivity..|discriminate]|].
  apply value_word, den_number. exact (show_nat_literal 1 ltac:(lia)).
Qed.
Lemma Arithm_assignment_witness :
  (∃ s', Arithm 0 (BinaryArithm subAssgn (word (go "n")) (word (go "9"))) two_shells = (Ok (-1), s') ∧
         Str (vars s' (go "n")) = go "-1" ∧ vars s' (go "PPID") = vars two_shells (go "PPID")) ∧
  (∃ s', Arithm 0 (UnaryArithm Inc false (word (go "PPID"))) two_shells = (Err (ShellError 2), s') ∧
         vars s' (go "PPID") = vars two_shells (go "PPID") ∧ vars s' (go "n") = vars two_shells (go "n")).
Proof.
  split.
  - destruct (Arithm_assignment 0 0 _ _ _ _ two_shells two_shells_n) as (res&s'&Hr&Ho&Hv);
      [reflexivity|discriminate|unfold maxArithRecursionDepth; lia|].
    destruct Hv as (->&Hv&_). exists s'. split; [exact Hr|]. split; [exact Hv|]. apply Ho; [discriminate|exact I].
  - destruct (Arithm_assignment 0 0 _ _ _ _ two_shells two_shells_PPID) as (res&s'&Hr&Ho&Hv);
      [reflexivity|discriminate|unfold maxArithRecursionDepth; lia|].
    destruct Hv as (->&Hv). exists s'. split; [exact Hr|]. split; [exact Hv|]. apply Ho; [discriminate|exact I].
Defined.
