(* ===== verification/GoUrl.v ===== *)
(** The parts of Go's [net/url] and [strings] that the network client uses on text: percent escapes of
    paths and queries, [EscapedPath], [Hostname] and [Port], and the splitting of fields. *)
From S2P Require Import Prelude GoUtf8.

(** ** Percent escapes *)

Definition is_hex_digit (c : ascii) : bool :=
  between 48 (byte_val c) 57 || between 65 (byte_val c) 70 || between 97 (byte_val c) 102.
(** [unhex]. *)
Definition hex_value (c : ascii) : Z :=
  let b := byte_val c in if between 48 b 57 then b - 48 else if between 97 b 102 then b - 87 else b - 55.
Definition upper_hex (z : Z) : ascii := byte_of (if z <? 10 then 48 + z else 55 + z).

(** [unescape], of a path, a path segment or a query component; [None] is an [EscapeError]. *)
Fixpoint unescape (query : bool) (s : gostr) : option gostr :=
  match s with
  | [] => Some []
  | c :: s' =>
      if Ascii.eqb c "%" then
        match s' with
        | a :: b :: s'' =>
            if is_hex_digit a && is_hex_digit b then cons (byte_of (16 * hex_value a + hex_value b)) <$> unescape query s'' else None
        | _ => None
        end
      else cons (if query && Ascii.eqb c "+" then " "%char else c) <$> unescape query s'
  end.
Definition PathUnescape : gostr → option gostr := unescape false.
Definition QueryUnescape : gostr → option gostr := unescape true.

Definition ascii_letter (c : ascii) : bool := between 65 (byte_val c) 90 || between 97 (byte_val c) 122.
Definition ascii_digit (c : ascii) : bool := between 48 (byte_val c) 57.
Definition one_of (s : string) (c : ascii) : bool := existsb (Ascii.eqb c) (go s).

(** [shouldEscape] for a path: [?] and what is no character of a URL. *)
Definition shouldEscape (c : ascii) : bool :=
  negb (ascii_letter c || ascii_digit c || one_of "-_.~" c || one_of "$&+,/:;=@" c).
Definition escape_byte (c : ascii) : gostr :=
  if shouldEscape c then ["%"%char; upper_hex (byte_val c / 16); upper_hex (byte_val c mod 16)] else [c].
Definition escape (s : gostr) : gostr := concat (map escape_byte s).

(** [validEncoded] for a path; whether escapes are well formed is the caller's question. *)
Definition valid_byte (c : ascii) : bool := one_of "!$&'()*+,;=:@[]%" c || negb (shouldEscape c).
Definition validEncoded (s : gostr) : bool := forallb valid_byte s.

(** ** URLs *)

(** [url.URL]; what the client does not look into is kept as one text. *)
Record URL := MkURL {
  Scheme : gostr;
  Opaque : gostr;
  User : option gostr;
  Host : gostr;
  Path : gostr;
  RawPath : gostr;
  url_rest : gostr;
}.
Definition set_path (path raw : gostr) (u : URL) : URL :=
  MkURL (Scheme u) (Opaque u) (User u) (Host u) path raw (url_rest u).

Definition EscapedPath (u : URL) : gostr :=
  if decide (RawPath u ≠ [] ∧ validEncoded (RawPath u) = true ∧ unescape false (RawPath u) = Some (Path u)) then RawPath u
  else if decide (Path u = go "*") then go "*"
  else escape (Path u).

(** [splitHostPort] of the host of a URL. *)
Definition last_index_byte (c : ascii) (s : gostr) : option nat :=
  (fun i => length s - S i)%nat <$> index_byte c (reverse s).
Definition validOptionalPort (port : gostr) : bool :=
  match port with [] => true | c :: ds => Ascii.eqb c ":" && forallb ascii_digit ds end.
Definition splitHostPort (hostPort : gostr) : gostr * gostr :=
  let '(host, port) :=
    match last_index_byte ":" hostPort with
    | Some i => if validOptionalPort (drop i hostPort) then (take i hostPort, drop (S i) hostPort) else (hostPort, [])
    | None => (hostPort, [])
    end in
  if has_prefix (go "[") host && has_suffix (go "]") host then (slice 1 (length host - 1) host, port) else (host, port).
Definition Hostname (u : URL) : gostr := (splitHostPort (Host u)).1.
Definition Port (u : URL) : gostr := (splitHostPort (Host u)).2.
(** [net.JoinHostPort]. *)
Definition JoinHostPort (host port : gostr) : gostr :=
  if existsb (Ascii.eqb ":"%char) host then go "[" ++ host ++ go "]:" ++ port else host ++ go ":" ++ port.

(** ** Fields *)

(** The parts of a text between the bytes that separate, and [strings.FieldsFunc], which drops empty ones. *)
Fixpoint split_on (sep : ascii → bool) (s : gostr) : list gostr :=
  match s with
  | [] => [[]]
  | c :: s' =>
      if sep c then [] :: split_on sep s'
      else match split_on sep s' with
           | [] => [[c]]
           | part :: parts => (c :: part) :: parts
           end
  end.
Definition FieldsFunc (sep : ascii → bool) (s : gostr) : list gostr := filter (fun p => p ≠ []) (split_on sep s).
(** [strings.Cut] at a byte: the text before it. *)
Definition before (c : ascii) (s : gostr) : gostr := match index_byte c s with Some i => take i s | None => s end.

(** ** Case *)

(** [unicode.ToLower] and [unicode.ToUpper] beyond ASCII. *)
Class UnicodeCase := { unicode_ToLower : rune → rune; unicode_ToUpper : rune → rune }.
Definition lower_ascii (c : ascii) : ascii := if between 65 (byte_val c) 90 then byte_of (byte_val c + 32) else c.
Definition upper_ascii (c : ascii) : ascii := if between 97 (byte_val c) 122 then byte_of (byte_val c - 32) else c.
Definition all_ascii (s : gostr) : bool := forallb (fun c => byte_val c <? RuneSelf) s.
(** [strings.Map] with a mapping that keeps every rune. *)
Definition map_runes (f : rune → rune) (s : gostr) : gostr := concat (map (fun p => encode_rune (f p.2)) (range_string s)).
Definition ToLower `{UnicodeCase} (s : gostr) : gostr :=
  if all_ascii s then map lower_ascii s
  else map_runes (fun r => if r <? RuneSelf then byte_val (lower_ascii (byte_of r)) else unicode_ToLower r) s.
Definition ToUpper `{UnicodeCase} (s : gostr) : gostr :=
  if all_ascii s then map upper_ascii s
  else map_runes (fun r => if r <? RuneSelf then byte_val (upper_ascii (byte_of r)) else unicode_ToUpper r) s.

(** ** Lemmas *)

Lemma escape_byte_unescape c s : unescape false (escape_byte c ++ s) = cons c <$> unescape false s.
Proof.
  assert (∀ c, (if shouldEscape c then
      is_hex_digit (upper_hex (byte_val c / 16)) && is_hex_digit (upper_hex (byte_val c mod 16)) &&
      Ascii.eqb (byte_of (16 * hex_value (upper_hex (byte_val c / 16)) + hex_value (upper_hex (byte_val c mod 16)))) c
    else negb (Ascii.eqb c "%")) = true) as Hall by (apply check_bytes; vm_compute; reflexivity).
  specialize (Hall c). unfold escape_byte. destruct (shouldEscape c).
  - apply andb_prop in Hall as [Hx Hv%Ascii.eqb_eq]. cbn [app unescape]. change (Ascii.eqb "%" "%") with true. cbn iota.
    by rewrite Hx, Hv.
  - apply negb_true_iff in Hall. cbn [app unescape]. by rewrite Hall.
Qed.
Lemma unescape_escape s : unescape false (escape s) = Some s.
Proof.
  induction s as [|c s IH]; [done|]. unfold escape. cbn [map concat]. fold (escape s).
  by rewrite escape_byte_unescape, IH.
Qed.
Lemma validEncoded_escape s : validEncoded (escape s) = true.
Proof.
  assert (∀ c, forallb valid_byte (escape_byte c) = true) as Hc by (apply check_bytes; vm_compute; reflexivity).
  unfold validEncoded, escape. induction s as [|c s IH]; [done|]. cbn [map concat]. by rewrite forallb_app, Hc, IH.
Qed.
Lemma EscapedPath_spec u : validEncoded (EscapedPath u) = true ∧ unescape false (EscapedPath u) = Some (Path u).
Proof.
  unfold EscapedPath. case_decide as Hraw; [tauto|]. case_decide as Hstar; [by rewrite Hstar|].
  split; [apply validEncoded_escape|apply unescape_escape].
Qed.

(** A byte that belongs to no escape keeps its place. *)
Lemma unescape_sep c a b :
  is_hex_digit c = false → c ≠ "%"%char →
  unescape false (a ++ c :: b) = x ← unescape false a; y ← unescape false b; Some (x ++ c :: y).
Proof.
  intros Hh Hp. induction a as [a IH] using (induction_ltof1 _ (@length ascii)). unfold ltof in IH.
  destruct a as [|d a]; cbn [app unescape].
  - destruct (Ascii.eqb_spec c "%") as [|_]; [done|]. by destruct (unescape false b).
  - destruct (Ascii.eqb d "%").
    + destruct a as [|a1 [|a2 a]]; cbn [app].
      * destruct b; [done|]. by rewrite Hh.
      * by rewrite Hh, andb_false_r.
      * destruct (is_hex_digit a1 && is_hex_digit a2); [|done]. rewrite IH by (simpl; lia).
        destruct (unescape false a); [|done]. by destruct (unescape false b).
    + rewrite IH by (simpl; lia). destruct (unescape false a); [|done]. by destruct (unescape false b).
Qed.

Lemma split_on_not_nil sep s : split_on sep s ≠ [].
Proof. destruct s as [|c s]; simpl; [done|]. destruct (sep c); [done|]. by destruct (split_on sep s). Qed.
Lemma split_on_sep sep c a b : sep c = true → split_on sep (a ++ c :: b) = split_on sep a ++ split_on sep b.
Proof.
  intros Hc. induction a as [|d a IH]; cbn [app split_on]; [by rewrite Hc|]. destruct (sep d); [by rewrite IH|].
  rewrite IH. destruct (split_on sep a) eqn:E; [by apply split_on_not_nil in E|]. done.
Qed.
Lemma FieldsFunc_sep sep c a b : sep c = true → FieldsFunc sep (a ++ c :: b) = FieldsFunc sep a ++ FieldsFunc sep b.
Proof. intros Hc. unfold FieldsFunc. by rewrite split_on_sep, list.filter_app. Qed.
