(* ===== verification/Network.v ===== *)
(** The network client: [network/network.go].  The allowlist of URL prefixes, the normalisation of paths,
    the private address ranges, and the loop over redirects.

    What [net/url] and [net/netip] parse is the class [NetLib]; the transport and the resolver are
    arguments.  Every request that is handed to the transport is kept in a log.  Contexts and timeouts
    are not modelled. *)
From S2P Require Import Prelude GoMonad GoUtf8 GoUrl.

(** ** Addresses *)

(** [netip.Addr] without its zone, as a number of 32 or of 128 bits. *)
Inductive Addr := V4 (a : Z) | V6 (a : Z).
Definition net_IP : Type := gostr.
Definition big_endian (bs : gostr) : Z := foldl (fun n b => n * 256 + byte_val b) 0 bs.
Definition AddrFromSlice (ip : net_IP) : option Addr :=
  if (length ip =? 4)%nat then Some (V4 (big_endian ip))
  else if (length ip =? 16)%nat then Some (V6 (big_endian ip)) else None.
Definition Unmap (addr : Addr) : Addr :=
  match addr with
  | V6 a => if Z.shiftr a 32 =? 65535 then V4 (a mod 2 ^ 32) else addr
  | V4 _ => addr
  end.

(** [netip.Prefix] and [Contains]. *)
Record Prefix := MkPrefix { pfx_Addr : Addr; pfx_Bits : Z }.
Definition Contains (p : Prefix) (addr : Addr) : bool :=
  match pfx_Addr p, addr with
  | V4 p4, V4 a => Z.shiftr (Z.lxor a p4) (32 - pfx_Bits p) =? 0
  | V6 p6, V6 a => Z.shiftr (Z.lxor a p6) (128 - pfx_Bits p) =? 0
  | _, _ => false
  end.
Definition ipv4 (a b c d bits : Z) : Prefix := MkPrefix (V4 (((a * 256 + b) * 256 + c) * 256 + d)) bits.
(** From the highest groups of 16 bits; the others are zero. *)
Definition ipv6 (groups : list Z) (bits : Z) : Prefix :=
  MkPrefix (V6 (foldl (fun n g => n * 65536 + g) 0 groups * 65536 ^ (8 - glen groups))) bits.

Definition nonPublicPrefixes : list Prefix :=
  [ ipv4 0 0 0 0 8; ipv4 100 64 0 0 10; ipv4 192 0 0 0 24; ipv4 192 0 2 0 24; ipv4 198 18 0 0 15;
    ipv4 198 51 100 0 24; ipv4 203 0 113 0 24; ipv4 240 0 0 0 4;
    ipv6 [] 96; ipv6 [0; 0; 0; 0; 65535] 96; ipv6 [100; 65435; 1] 48; ipv6 [256] 64; ipv6 [8193; 3512] 32; ipv6 [65216] 10 ].
Definition nat64Prefix : Prefix := ipv6 [100; 65435] 96.
Definition sixToFourNet : Prefix := ipv6 [8194] 16.

(** The classification helpers of [netip.Addr]. *)
Definition IsUnspecified (addr : Addr) : bool := match addr with V4 a | V6 a => a =? 0 end.
Definition IsLoopback (addr : Addr) : bool :=
  match addr with V4 a => Z.shiftr a 24 =? 127 | V6 a => a =? 1 end.
Definition IsPrivate (addr : Addr) : bool :=
  match addr with
  | V4 a => (Z.shiftr a 24 =? 10) || (Z.shiftr a 20 =? 172 * 16 + 1) || (Z.shiftr a 16 =? 192 * 256 + 168)
  | V6 a => Z.shiftr a 121 =? 126
  end.
Definition IsLinkLocalUnicast (addr : Addr) : bool :=
  match addr with V4 a => Z.shiftr a 16 =? 169 * 256 + 254 | V6 a => Z.shiftr a 118 =? 1018 end.
Definition IsMulticast (addr : Addr) : bool :=
  match addr with V4 a => Z.shiftr a 28 =? 14 | V6 a => Z.shiftr a 120 =? 255 end.

(** [isPrivateAddr]; the recursion is on an IPv4 address, which embeds no other. *)
Definition not_public (addr : Addr) : bool :=
  IsUnspecified addr || IsLoopback addr || IsPrivate addr || IsLinkLocalUnicast addr || IsMulticast addr ||
  existsb (fun p => Contains p addr) nonPublicPrefixes.
Definition isPrivateAddr (addr : Addr) : bool :=
  let addr := Unmap addr in
  not_public addr ||
  match addr with
  | V6 a =>
      if Contains nat64Prefix addr then not_public (V4 (a mod 2 ^ 32))
      else if Contains sixToFourNet addr then not_public (V4 (Z.shiftr a 80 mod 2 ^ 32))
      else false
  | V4 _ => false
  end.
Definition isPrivateIP (ip : net_IP) : bool :=
  match AddrFromSlice ip with Some addr => isPrivateAddr addr | None => false end.

(** ** Errors *)

Inductive deny_reason :=
| MissingURL | InvalidURL | OnlyHttp | MissingHost | AmbiguousDotSegment | InvalidPathEscape | NotInAllowlist
| PrivateHost | PrivateRangeCheckFailed | ResolvesToPrivate.
Inductive config_problem := InvalidAllowlistURL (entry : gostr) | NotHttp (entry : gostr) | HasUserinfo (entry : gostr)
| BadPath (r : deny_reason) (entry : gostr) | NoPrefix | NoMethod.
Inductive net_error :=
| AccessDeniedError (URL : gostr) (Reason : deny_reason)
| MethodNotAllowedError (Method : gostr)
| RedirectNotAllowedError (URL : gostr)
| TooManyRedirectsError (MaxRedirects : Z)
| ResponseTooLargeError (MaxBytes : Z)
| InvalidConfigError (Problems : list config_problem)
| UrlError
| OtherError (id : Z).
(** [IsDenied], of errors that are not wrapped. *)
Definition IsDenied (err : net_error) : bool :=
  match err with AccessDeniedError _ _ | MethodNotAllowedError _ | RedirectNotAllowedError _ => true | _ => false end.

(** ** Paths *)

(** [removeDotSegments]: the segments so far, the last one first. *)
Fixpoint remove_dots (out : list gostr) (segments : list gostr) : list gostr :=
  match segments with
  | [] => reverse out
  | segment :: rest =>
      let last out := if decide (rest = []) then [] :: out else out in
      if decide (segment = go ".") then remove_dots (last out) rest
      else if decide (segment = go "..") then remove_dots (last (tail out)) rest
      else remove_dots (segment :: out) rest
  end.
Definition removeDotSegments (escaped : gostr) : gostr :=
  match escaped with
  | c :: s => if Ascii.eqb c "/" then "/"%char :: join (go "/") (remove_dots [] (split_byte "/" s)) else escaped
  | [] => escaped
  end.

Definition path_separator (c : ascii) : bool := Ascii.eqb c "/" || Ascii.eqb c "\".
Definition dot_segment (part : gostr) : bool := bool_decide (part = go "." ∨ part = go "..").
(** [hasDoubleEncodedSeparator], of text in lower case. *)
Fixpoint double_encoded (s : gostr) : bool :=
  match s with
  | [] => false
  | c :: s' =>
      (has_prefix (go "%25") s && existsb (fun p => has_prefix p (drop 3 s)) [go "2e"; go "2f"; go "5c"]) || double_encoded s'
  end.
Definition hasDoubleEncodedSeparator (escaped : gostr) : bool := double_encoded (map lower_ascii escaped).
Definition hasAmbiguousDotSegment (escaped : gostr) : bool :=
  hasDoubleEncodedSeparator escaped ||
  existsb (fun segment =>
      match PathUnescape segment with
      | None => true
      | Some decoded => existsb (fun part => dot_segment (before ";" part)) (FieldsFunc path_separator decoded)
      end) (split_byte "/" escaped).

Definition normalizeURLPath (u : URL) : result deny_reason URL :=
  let escaped := removeDotSegments (EscapedPath u) in
  if hasAmbiguousDotSegment escaped then Err AmbiguousDotSegment
  else match PathUnescape escaped with
       | None => Err InvalidPathEscape
       | Some decoded => Ok (set_path decoded escaped u)
       end.

(** ** The allowlist *)

Record allowListEntry := MkEntry { origin : gostr; pathPrefix : gostr }.
Definition is_http (scheme : gostr) : bool := bool_decide (scheme = go "http" ∨ scheme = go "https").
Definition url_origin (u : URL) : gostr := Scheme u ++ go "://" ++ Host u.
Definition path_or_root (path : gostr) : gostr := if decide (path = []) then go "/" else path.

Definition allowListPathMatches (pathname prefix : gostr) : bool :=
  if decide (prefix = [] ∨ prefix = go "/") then true
  else if decide (pathname = prefix) then true
  else if has_suffix (go "/") prefix then has_prefix prefix pathname
  else has_prefix (prefix ++ go "/") pathname.
Definition urlAllowed (target : URL) (entries : list allowListEntry) : bool :=
  existsb (fun entry => bool_decide (url_origin target = origin entry) &&
                        allowListPathMatches (path_or_root (EscapedPath target)) (pathPrefix entry)) entries.

(** ** The libraries *)

(** [Parse], [String] and [ResolveReference] of [net/url], [netip.ParseAddr], the check that
    [http.NewRequest] makes, and [http.CanonicalHeaderKey]. *)
Class NetLib := {
  net_case :: UnicodeCase;
  url_Parse : gostr → option URL;
  url_String : URL → gostr;
  url_ResolveReference : URL → URL → URL;
  netip_ParseAddr : gostr → option Addr;
  NewRequest_error : gostr → gostr → option net_error;
}.

(** [http.CanonicalHeaderKey]. *)
Definition header_byte (c : ascii) : bool := ascii_letter c || ascii_digit c || one_of "!#$%&'*+-.^_`|~" c.
Fixpoint canonical (upper : bool) (s : gostr) : gostr :=
  match s with
  | [] => []
  | c :: s => (if upper then upper_ascii c else lower_ascii c) :: canonical (Ascii.eqb c "-") s
  end.
Definition CanonicalHeaderKey (s : gostr) : gostr := if forallb header_byte s then canonical true s else s.

Section network.
Context {lib : NetLib}.

(** ** Configuration *)

Record Config := MkConfig {
  AllowedURLPrefixes : list gostr;
  AllowedMethods : list gostr;
  MaxRedirects : Z;
  MaxResponseBytes : Z;
  DenyPrivateRanges : bool;
}.
Record resolvedConfig := MkResolved {
  allowedURLPrefixes : list allowListEntry;
  allowedMethods : gset gostr;
  maxRedirects : Z;
  maxResponseBytes : Z;
  denyPrivateRanges : bool;
}.
Definition defaultMaxRedirects : Z := 20.
Definition defaultMaxResponseSize : Z := 10 * 2 ^ 20.
Definition defaultAllowedMethods : list gostr := [go "GET"; go "HEAD"].

(** One entry of the allowlist; [None] for a blank one. *)
Definition normalize_entry (entry : gostr) : option (result config_problem allowListEntry) :=
  let entry := TrimSpace entry in
  if decide (entry = []) then None
  else Some (
    match url_Parse entry with
    | None => Err (InvalidAllowlistURL entry)
    | Some parsed =>
        if decide (Scheme parsed = [] ∨ Host parsed = []) then Err (InvalidAllowlistURL entry)
        else if negb (is_http (Scheme parsed)) then Err (NotHttp entry)
        else if bool_decide (is_Some (User parsed)) then Err (HasUserinfo entry)
        else match normalizeURLPath parsed with
             | Err r => Err (BadPath r entry)
             | Ok parsed => Ok (MkEntry (url_origin parsed) (path_or_root (EscapedPath parsed)))
             end
    end).
(** The loop of [normalizeAllowList]; [seen] are the keys of the entries so far. *)
Fixpoint normalize_loop (seen : gset gostr) (entries : list gostr) : list allowListEntry * list config_problem :=
  match entries with
  | [] => ([], [])
  | entry :: rest =>
      match normalize_entry entry with
      | None => normalize_loop seen rest
      | Some (Err p) => let '(out, problems) := normalize_loop seen rest in (out, p :: problems)
      | Some (Ok e) =>
          let key := origin e ++ pathPrefix e in
          if decide (key ∈ seen) then normalize_loop seen rest
          else let '(out, problems) := normalize_loop ({[key]} ∪ seen) rest in (e :: out, problems)
      end
  end.
Definition normalizeAllowList (entries : list gostr) : list allowListEntry * list config_problem := normalize_loop ∅ entries.

Definition normalize_method (method : gostr) : gostr := ToUpper (TrimSpace method).
Definition resolveConfig (cfg : Config) : result net_error resolvedConfig :=
  let '(entries, problems) := normalizeAllowList (AllowedURLPrefixes cfg) in
  if decide (problems ≠ []) then Err (InvalidConfigError problems)
  else if decide (entries = []) then Err (InvalidConfigError [NoPrefix])
  else
    let methods := if decide (AllowedMethods cfg = []) then defaultAllowedMethods else AllowedMethods cfg in
    let allowed := list_to_set (filter (fun m => m ≠ []) (map normalize_method methods)) : gset gostr in
    if decide (allowed = ∅) then Err (InvalidConfigError [NoMethod])
    else Ok (MkResolved entries allowed
               (if MaxRedirects cfg <=? 0 then defaultMaxRedirects else MaxRedirects cfg)
               (if MaxResponseBytes cfg <=? 0 then defaultMaxResponseSize else MaxResponseBytes cfg)
               (DenyPrivateRanges cfg)).

(** ** Requests *)

Definition MethodGet : gostr := go "GET".
Definition MethodHead : gostr := go "HEAD".

(** [Request]; the headers are in the order in which the loop over the map meets them. *)
Record Request := MkRequest {
  Method : gostr;
  req_URL : gostr;
  Headers : list (gostr * gostr);
  Body : gostr;
  FollowRedirects : bool;
}.
(** What is handed to the transport, and what it answers: a body that is read may end in an error. *)
Record http_Request := MkHttpRequest {
  hr_Method : gostr;
  hr_URL : URL;
  hr_Header : gmap gostr gostr;
  hr_Body : gostr;
}.
Record http_Response := MkHttpResponse {
  StatusCode : Z;
  Status : gostr;
  resp_Header : gmap gostr (list gostr);
  ContentLength : Z;
  resp_Body : gostr;
  resp_BodyError : option net_error;
}.
Record Response := MkResponse {
  out_StatusCode : Z;
  out_Status : gostr;
  out_Headers : gmap gostr gostr;
  out_Body : gostr;
  out_URL : gostr;
}.

Definition urlOrigin (u : URL) : gostr :=
  let scheme := ToLower (Scheme u) in
  let port := Port u in
  let port :=
    if decide (port = []) then
      if decide (scheme = go "http") then go "80" else if decide (scheme = go "https") then go "443" else []
    else port in
  scheme ++ go "://" ++ JoinHostPort (ToLower (Hostname u)) port.

Definition isRedirect (statusCode : Z) : bool := bool_decide (statusCode ∈ [301; 302; 303; 307; 308]).
Definition redirectSwitchesToGet (statusCode : Z) (method : gostr) : bool :=
  bool_decide (statusCode ∈ [301; 302; 303]) && negb (bool_decide (method = MethodGet ∨ method = MethodHead)).

(** [IsSensitiveName]. *)
Definition sensitiveQueryKeys : list gostr := map go
  ["access_token"; "api_key"; "apikey"; "auth"; "authorization"; "bearer"; "credential"; "id_token"; "key"; "password"; "passwd";
   "refresh_token"; "secret"; "sig"; "signature"; "token"; "x-amz-credential"; "x-amz-security-token"; "x-amz-signature";
   "x-goog-credential"; "x-goog-signature"; "x-ms-signature"]%string.
Definition sensitiveNameFragments : list gostr := map go
  ["token"; "secret"; "passw"; "auth"; "cookie"; "credential"; "signature"; "apikey"; "session"]%string.
Definition sensitiveNameComponents : list gostr := map go ["key"; "sig"; "pwd"; "jwt"]%string.
Fixpoint contains (sub s : gostr) : bool :=
  has_prefix sub s || match s with _ :: s' => contains sub s' | [] => false end.
Definition IsSensitiveName (name : gostr) : bool :=
  let normalized := ToLower (TrimSpace name) in
  if decide (normalized = []) then false
  else bool_decide (normalized ∈ sensitiveQueryKeys) || existsb (fun f => contains f normalized) sensitiveNameFragments ||
       existsb (fun c => bool_decide (c ∈ sensitiveNameComponents)) (FieldsFunc (one_of "-_.") normalized).
Definition isCredentialHeader (name : gostr) : bool :=
  bool_decide (CanonicalHeaderKey (TrimSpace name) ∈ map go ["Authorization"; "Proxy-Authorization"; "Cookie"; "Cookie2"]%string).
Definition isBodyHeader (name : gostr) : bool :=
  bool_decide (CanonicalHeaderKey (TrimSpace name) ∈ map go
    ["Content-Type"; "Content-Length"; "Content-Encoding"; "Content-Language"; "Content-Location"; "Transfer-Encoding"]%string).

(** The headers that are sent: [Header.Set] replaces the values of its canonical name. *)
Definition keeps_header (sameOrigin dropBodyHeaders : bool) (name : gostr) : bool :=
  negb (negb sameOrigin && (isCredentialHeader name || IsSensitiveName name)) && negb (dropBodyHeaders && isBodyHeader name).
Definition request_headers (sameOrigin dropBodyHeaders : bool) (headers : list (gostr * gostr)) : gmap gostr gostr :=
  foldl (fun m '(name, value) => if keeps_header sameOrigin dropBodyHeaders name then <[CanonicalHeaderKey name := value]> m else m) ∅ headers.

(** ** The client *)

(** The resolver's errors that the check for private hosts tells apart. *)
Inductive dns_error := NoSuchHost | DNSFailure.

Section client.
Context {St : Type} (doer : http_Request → St → result net_error http_Response * St)
  (lookup : gostr → St → result dns_error (list net_IP) * St) (cfg : resolvedConfig).

(** The state of the outside and the requests that were sent, the last one first. *)
Definition world : Type := St * list http_Request.
Abbreviation N := (stateful net_error world).
Definition send (r : http_Request) : N http_Response := fun '(s, log) =>
  let '(a, s') := doer r s in (a, (s', r :: log)).
Definition lookupIPAddrs (host : gostr) : N (result dns_error (list net_IP)) := fun '(s, log) =>
  let '(a, s') := lookup host s in (Ok a, (s', log)).

Definition strip_brackets (host : gostr) : gostr :=
  let host := if has_suffix (go "]") host then take (length host - 1) host else host in trim_prefix (go "[") host.
Definition isPrivateHostname (host : gostr) : bool :=
  let host := strip_brackets (TrimSpace (ToLower host)) in
  bool_decide (host = go "localhost") || has_suffix (go ".localhost") host ||
  match netip_ParseAddr host with Some addr => isPrivateAddr addr | None => false end.

Definition checkPrivateHost (parsed : URL) : N unit :=
  let host := Hostname parsed in
  if isPrivateHostname host then throw (AccessDeniedError (url_String parsed) PrivateHost)
  else if bool_decide (is_Some (netip_ParseAddr host)) then mret tt
  else
    addresses ← lookupIPAddrs host;
    match addresses with
    | Err NoSuchHost => mret tt
    | Err DNSFailure => throw (AccessDeniedError (url_String parsed) PrivateRangeCheckFailed)
    | Ok ips => if existsb isPrivateIP ips then throw (AccessDeniedError (url_String parsed) ResolvesToPrivate) else mret tt
    end.

Definition allowedURL (rawURL : gostr) : N URL :=
  match url_Parse rawURL with
  | None => throw (AccessDeniedError rawURL InvalidURL)
  | Some parsed =>
      if negb (is_http (Scheme parsed)) then throw (AccessDeniedError rawURL OnlyHttp)
      else if decide (Host parsed = [] ∨ Opaque parsed ≠ []) then throw (AccessDeniedError rawURL MissingHost)
      else match normalizeURLPath parsed with
           | Err r => throw (AccessDeniedError rawURL r)
           | Ok parsed =>
               if negb (urlAllowed parsed (allowedURLPrefixes cfg)) then throw (AccessDeniedError rawURL NotInAllowlist)
               else if denyPrivateRanges cfg then checkPrivateHost parsed;; mret parsed else mret parsed
           end
  end.

Definition resolveRedirectURL (currentURL location : gostr) : result net_error gostr :=
  match url_Parse currentURL, url_Parse location with
  | Some base, Some next => Ok (url_String (url_ResolveReference base next))
  | _, _ => Err UrlError
  end.

Definition readResponse (requestURL : gostr) (resp : http_Response) : result net_error Response :=
  let max := maxResponseBytes cfg in
  if (0 <? max) && (max <? ContentLength resp) then Err (ResponseTooLargeError max)
  else
    let limited := (0 <? max) && (max + 1 <=? glen (resp_Body resp)) in
    match (if limited then None else resp_BodyError resp) with
    | Some err => Err err
    | None =>
        let body := if limited then take (Z.to_nat (max + 1)) (resp_Body resp) else resp_Body resp in
        if (0 <? max) && (max <? glen body) then Err (ResponseTooLargeError max)
        else Ok (MkResponse (StatusCode resp) (Status resp) (join (go ", ") <$> resp_Header resp) body requestURL)
    end.

(** [Header.Get]. *)
Definition header_Get (h : gmap gostr (list gostr)) (name : gostr) : gostr :=
  match h !! CanonicalHeaderKey name with Some (v :: _) => v | _ => [] end.

(** The loop of [Do]; [fuel] bounds the requests. *)
Record do_state := MkDo {
  do_method : gostr;
  do_url : gostr;
  do_redirects : Z;
  do_body : gostr;
  do_dropBodyHeaders : bool;
  do_originalOrigin : gostr;
}.
Fixpoint do_loop (fuel : nat) (req : Request) (d : do_state) : N (option Response) :=
  match fuel with
  | O => mret None
  | S fuel =>
      target ← allowedURL (do_url d);
      let currentURL := url_String target in
      let originalOrigin := if do_redirects d =? 0 then urlOrigin target else do_originalOrigin d in
      let sameOrigin := bool_decide (urlOrigin target = originalOrigin) in
      match NewRequest_error (do_method d) currentURL with
      | Some err => throw err
      | None =>
          resp ← send (MkHttpRequest (do_method d) target
                         (request_headers sameOrigin (do_dropBodyHeaders d) (Headers req)) (do_body d));
          if isRedirect (StatusCode resp) && FollowRedirects req then
            let location := TrimSpace (header_Get (resp_Header resp) (go "Location")) in
            if decide (location = []) then out ← lift (readResponse currentURL resp); mret (Some out)
            else
              nextURL ← lift (resolveRedirectURL currentURL location);
              map_error (fun _ => RedirectNotAllowedError nextURL) (allowedURL nextURL);;
              let redirects := do_redirects d + 1 in
              if maxRedirects cfg <? redirects then throw (TooManyRedirectsError (maxRedirects cfg))
              else if redirectSwitchesToGet (StatusCode resp) (do_method d) then
                if decide (MethodGet ∈ allowedMethods cfg)
                then do_loop fuel req (MkDo MethodGet nextURL redirects [] true originalOrigin)
                else throw (MethodNotAllowedError MethodGet)
              else do_loop fuel req (MkDo (do_method d) nextURL redirects (do_body d) (do_dropBodyHeaders d) originalOrigin)
          else out ← lift (readResponse currentURL resp); mret (Some out)
      end
  end.

(** One request and at most [maxRedirects] redirects. *)
Definition do_fuel : nat := S (Z.to_nat (maxRedirects cfg)).
Definition Do (req : Request) : N (option Response) :=
  let method := normalize_method (Method req) in
  let method := if decide (method = []) then MethodGet else method in
  if decide (method ∈ allowedMethods cfg) then
    let currentURL := TrimSpace (req_URL req) in
    if decide (currentURL = []) then throw (AccessDeniedError currentURL MissingURL)
    else do_loop do_fuel req (MkDo method currentURL 0 (Body req) false [])
  else throw (MethodNotAllowedError method).
End client.

(** ** Dialing *)

Section dial.
Context {St Conn : Type} (lookup : gostr → St → result dns_error (list net_IP) * St)
  (ParseIP : gostr → option net_IP) (dial : net_IP → gostr → St → result net_error Conn * St) (cfg : resolvedConfig).

(** The state of the outside and the addresses that were dialed, the last one first. *)
Abbreviation D := (stateful net_error (St * list net_IP)).
Definition dial_ip (ip : net_IP) (port : gostr) : D (result net_error Conn) := fun '(s, log) =>
  let '(a, s') := dial ip port s in (Ok a, (s', ip :: log)).

Definition resolveDialIPs (host : gostr) : D (list net_IP) := fun '(s, log) =>
  match ParseIP host with
  | Some ip => (Ok [ip], (s, log))
  | None =>
      let '(a, s') := lookup host s in
      (match a with
       | Err _ => Err UrlError
       | Ok addresses => let ips := filter (fun ip => ip ≠ []) addresses in if decide (ips = []) then Err UrlError else Ok ips
       end, (s', log))
  end.
Fixpoint dial_loop (port : gostr) (ips : list net_IP) (lastErr : net_error) : D Conn :=
  match ips with
  | [] => throw lastErr
  | ip :: ips =>
      conn ← dial_ip ip port;
      match conn with Ok c => mret c | Err err => dial_loop port ips err end
  end.
(** [dialContext], of an address that is split already. *)
Definition dialContext (host port : gostr) : D Conn :=
  ips ← resolveDialIPs host;
  if denyPrivateRanges cfg && existsb isPrivateIP ips then throw (AccessDeniedError host ResolvesToPrivate)
  else dial_loop port ips UrlError.
End dial.
End network.
