(* ===== verification/NetworkProps.v ===== *)
(** The runs of the network client: what every request that is sent satisfies, the bounds of the loop over
    redirects, and the addresses that are dialed. *)
From S2P Require Import Prelude GoMonad GoUtf8 GoUrl Network.

(** * Paths of the network client: what the check of the allowlist says about the segments that a server
    reads from the path. *)

(** ** The reference: a server *)

(** A server decodes the path once, takes slashes and backslashes as separators, drops parameters and
    empty segments, and resolves dot segments. *)
Definition server_segments (path : gostr) : list gostr :=
  filter (fun p => p ≠ []) (map (before ";") (FieldsFunc path_separator path)).
Fixpoint resolve_dots (out : list gostr) (segments : list gostr) : list gostr :=
  match segments with
  | [] => reverse out
  | s :: rest => if decide (s = go ".") then resolve_dots out rest
                 else if decide (s = go "..") then resolve_dots (tail out) rest
                 else resolve_dots (s :: out) rest
  end.
Definition server_path (decoded : gostr) : list gostr := resolve_dots [] (server_segments decoded).

(** ** Segments *)

Lemma server_segments_sep c a b : path_separator c = true → server_segments (a ++ c :: b) = server_segments a ++ server_segments b.
Proof. intros Hc. unfold server_segments. by rewrite FieldsFunc_sep, map_app, list.filter_app. Qed.

Definition no_dots (path : gostr) : Prop := Forall (fun s => dot_segment s = false) (server_segments path).
Lemma resolve_no_dots out segments : Forall (fun s => dot_segment s = false) segments → resolve_dots out segments = reverse out ++ segments.
Proof.
  intros H. revert out. induction H as [|s segments Hs _ IH]; intros out; cbn [resolve_dots]; [by rewrite app_nil_r|].
  unfold dot_segment in Hs. to_prop. rewrite !decide_False by tauto. rewrite IH, reverse_cons, <- (assoc_L (++)). done.
Qed.
Lemma server_path_no_dots path : no_dots path → server_path path = server_segments path.
Proof. intros H. unfold server_path. by rewrite resolve_no_dots. Qed.

Lemma unescape_join segments : segments ≠ [] →
  unescape false (join (go "/") segments) = join (go "/") <$> mapM (unescape false) segments.
Proof.
  intros Hne. induction segments as [|s segments IH]; [done|]. destruct segments as [|t segments].
  - simpl. by destruct (unescape false s).
  - change (join (go "/") (s :: t :: segments)) with (s ++ "/"%char :: join (go "/") (t :: segments)).
    rewrite unescape_sep by done. rewrite IH by done. cbn [mapM]. destruct (unescape false s); [|done]. simpl.
    destruct (unescape false t); [|done]. simpl. by destruct (mapM (unescape false) segments).
Qed.
Lemma FieldsFunc_join sep ds : sep "/"%char = true → ds ≠ [] → FieldsFunc sep (join (go "/") ds) = concat (map (FieldsFunc sep) ds).
Proof.
  intros Hs Hne. induction ds as [|d ds IH]; [done|]. destruct ds as [|e ds].
  - simpl. by rewrite app_nil_r.
  - change (join (go "/") (d :: e :: ds)) with (d ++ "/"%char :: join (go "/") (e :: ds)).
    rewrite FieldsFunc_sep by done. by rewrite IH.
Qed.

(** A path without ambiguous segments has no dots for the server. *)
Lemma unambiguous_no_dots escaped decoded :
  hasAmbiguousDotSegment escaped = false → PathUnescape escaped = Some decoded → no_dots decoded.
Proof.
  unfold hasAmbiguousDotSegment. intros [_ Hseg]%orb_false_elim Hd.
  pose proof (split_byte_not_nil "/" escaped) as Hne. assert (join (go "/") (split_byte "/" escaped) = escaped) as Hj by apply join_split.
  rewrite <- Hj in Hd. unfold PathUnescape in Hd. rewrite (unescape_join _ Hne) in Hd.
  apply fmap_Some in Hd as (ds&Hds&->). apply mapM_Some in Hds.
  assert (ds ≠ []) as Hdne. { intros ->. by inversion Hds; subst. }
  unfold no_dots, server_segments. rewrite FieldsFunc_join by done.
  apply list.Forall_forall. intros s [_ Hs]%list_elem_of_filter. apply list_elem_of_In, in_map_iff in Hs as (part&<-&Hp).
  apply in_concat in Hp as (fields&Hf&Hp). apply in_map_iff in Hf as (d&<-&Hd).
  apply list_elem_of_In, list_elem_of_lookup in Hd as (i&Hi). eapply Forall2_lookup_r in Hds as (seg&Hsi&Hu); [|done].
  destruct (dot_segment (before ";" part)) eqn:Hdot; [|done]. exfalso.
  assert (existsb (fun segment => match PathUnescape segment with
    | None => true | Some decoded => existsb (fun part => dot_segment (before ";" part)) (FieldsFunc path_separator decoded) end)
    (split_byte "/" escaped) = true) as Hex; [|congruence].
  apply existsb_exists. exists seg. split; [by eapply list_elem_of_In, list_elem_of_lookup_2|]. unfold PathUnescape. rewrite Hu.
  apply existsb_exists. by exists part.
Qed.

(** ** Normalisation *)

Lemma remove_dots_Forall (P : gostr → Prop) out segments :
  P [] → Forall P out → Forall P segments → Forall P (remove_dots out segments).
Proof.
  intros H0 Hout Hs. revert out Hout. induction Hs as [|s segments Hs _ IH]; intros out Hout; cbn [remove_dots].
  - by apply Forall_reverse.
  - assert (∀ out, Forall P out → Forall P (if decide (segments = []) then [] :: out else out)) as Hlast
      by (intros o Ho; case_decide; [by constructor|done]).
    destruct (decide (s = go ".")); [by apply IH, Hlast|]. destruct (decide (s = go "..")); [|by apply IH; constructor].
    apply IH, Hlast. by destruct Hout.
Qed.
Lemma validEncoded_join segments : Forall (fun s => validEncoded s = true) segments → validEncoded (join (go "/") segments) = true.
Proof.
  induction 1 as [|s segments Hs Hss IH]; [done|]. destruct segments as [|t segments]; [done|].
  change (join (go "/") (s :: t :: segments)) with (s ++ "/"%char :: join (go "/") (t :: segments)).
  unfold validEncoded in *. rewrite forallb_app. cbn [forallb]. by rewrite Hs, IH.
Qed.
Lemma validEncoded_split s : validEncoded s = true → Forall (fun s => validEncoded s = true) (split_byte "/" s).
Proof.
  unfold validEncoded. induction s as [|c s IH]; cbn [split_byte forallb]; [by repeat constructor|].
  intros [Hc Hs]%andb_prop. specialize (IH Hs). case_decide; [by constructor|].
  destruct (split_byte "/" s) as [|p ps]; inversion IH; subst; constructor; try done; simpl; by rewrite Hc.
Qed.
Lemma removeDotSegments_valid escaped : validEncoded escaped = true → validEncoded (removeDotSegments escaped) = true.
Proof.
  destruct escaped as [|c s]; [done|]. cbn [removeDotSegments]. destruct (Ascii.eqb c "/"); [|done].
  intros H. unfold validEncoded in H. cbn [forallb] in H. apply andb_prop in H as [_ H].
  unfold validEncoded. cbn [forallb]. apply andb_true_intro. split; [done|].
  apply validEncoded_join, remove_dots_Forall; [done|constructor|by apply validEncoded_split].
Qed.

(** What the normalised URL has for a path: the one that goes over the wire is the one that was checked. *)
Lemma normalizeURLPath_spec u u' :
  normalizeURLPath u = Ok u' →
  Scheme u' = Scheme u ∧ Host u' = Host u ∧ Opaque u' = Opaque u ∧ User u' = User u ∧
  EscapedPath u' = removeDotSegments (EscapedPath u) ∧ PathUnescape (EscapedPath u') = Some (Path u') ∧ no_dots (Path u').
Proof.
  unfold normalizeURLPath. set (escaped := removeDotSegments (EscapedPath u)).
  destruct (hasAmbiguousDotSegment escaped) eqn:Ha; [done|]. destruct (PathUnescape escaped) as [decoded|] eqn:Hd; [|done].
  intros [= <-]. pose proof (EscapedPath_spec u) as [Hv _]. apply removeDotSegments_valid in Hv. fold escaped in Hv.
  assert (EscapedPath (set_path decoded escaped u) = escaped) as He.
  { unfold EscapedPath. cbn [RawPath Path set_path]. case_decide as Hr; [done|].
    assert (escaped = []) as Hnil by (destruct (decide (escaped = [])); [done|destruct Hr; by split_and!]).
    rewrite Hnil in *. by injection Hd as <-. }
  rewrite He. split_and!; try done. by eapply unambiguous_no_dots.
Qed.

(** ** The allowlist *)

Lemma server_segments_prefix a b decoded :
  PathUnescape (a ++ "/"%char :: b) = Some decoded →
  ∃ pd, PathUnescape a = Some pd ∧ server_segments pd `prefix_of` server_segments decoded.
Proof.
  unfold PathUnescape. rewrite unescape_sep by done. destruct (unescape false a) as [x|]; [|done].
  destruct (unescape false b) as [y|]; [|done]. intros [= <-]. exists x. split; [done|].
  rewrite server_segments_sep by done. by apply prefix_app_r.
Qed.
Lemma has_suffix_slash prefix : has_suffix (go "/") prefix = true → ∃ p, prefix = p ++ go "/".
Proof.
  unfold has_suffix. intros H%has_prefix_spec. change (reverse (go "/")) with (go "/") in H. destruct H as [k Hk].
  exists (reverse k). rewrite <- (reverse_involutive prefix), Hk, reverse_app. done.
Qed.
(** A path that an entry allows is, for the server, below the path of the entry. *)
Lemma allowListPathMatches_below escaped decoded prefix :
  allowListPathMatches (path_or_root escaped) prefix = true → PathUnescape escaped = Some decoded → no_dots decoded →
  ∃ pd, PathUnescape prefix = Some pd ∧ server_path pd `prefix_of` server_path decoded.
Proof.
  intros Hm Hd Hno. assert (∃ pd, PathUnescape prefix = Some pd ∧ server_segments pd `prefix_of` server_segments decoded) as (pd&Hpd&Hpre).
  { unfold allowListPathMatches in Hm. case_decide as Hroot.
    { destruct Hroot as [-> | ->]; [exists []|exists (go "/")]; (split; [done|]; by apply prefix_nil). }
    assert (path_or_root escaped = prefix ∨ ∃ p r, path_or_root escaped = p ++ "/"%char :: r ∧ (prefix = p ∨ prefix = p ++ go "/")) as Hcases.
    { case_decide; [by left|]. right. destruct (has_suffix (go "/") prefix) eqn:Hs.
      - apply has_suffix_slash in Hs as (p&->). apply has_prefix_spec in Hm as [r ->]. exists p, r. rewrite <- (assoc_L (++)). auto.
      - apply has_prefix_spec in Hm as [r ->]. exists prefix, r. rewrite <- (assoc_L (++)). auto. }
    assert (escaped ≠ []) as Hne. { intros ->. destruct Hcases as [Hc|(p&r&Hc&Hp)]; [by apply Hroot; right|]. change (path_or_root []) with (go "/") in Hc.
      destruct p as [|? p]; [|by destruct p]. injection Hc as <-. destruct Hp as [-> | ->]; tauto. }
    assert (path_or_root escaped = escaped) as Hpath by (unfold path_or_root; by rewrite decide_False). rewrite Hpath in Hcases.
    destruct Hcases as [<-|(p&r&->&Hp)]; [by exists decoded|]. destruct (server_segments_prefix p r decoded Hd) as (pd&Hpd&Hpre).
    destruct Hp as [-> | ->]; [by exists pd|]. exists (pd ++ go "/"). unfold PathUnescape in *. change (go "/") with ("/"%char :: []).
    rewrite unescape_sep by done. rewrite Hpd. split; [done|]. rewrite server_segments_sep by done.
    change (server_segments []) with ([] : list gostr). by rewrite app_nil_r. }
  exists pd. split; [done|]. rewrite !server_path_no_dots; [done|done|].
  unfold no_dots in *. destruct Hpre as [k Hk]. rewrite Hk in Hno. by apply Forall_app in Hno as [? _].
Qed.

Section props.
Context {lib : NetLib}.

(** ** The configuration *)

(** What [resolveConfig] promises. *)
Definition config_ok (cfg : resolvedConfig) : Prop :=
  0 < maxRedirects cfg ∧ 0 < maxResponseBytes cfg ∧
  Forall (fun e => ∃ u, is_http (Scheme u) = true ∧ origin e = url_origin u) (allowedURLPrefixes cfg).

Lemma normalize_entry_ok entry e :
  normalize_entry entry = Some (Ok e) → ∃ u, is_http (Scheme u) = true ∧ origin e = url_origin u.
Proof.
  unfold normalize_entry. case_decide; [done|]. destruct (url_Parse (TrimSpace entry)) as [u|]; [|done].
  case_decide; [done|]. destruct (is_http (Scheme u)) eqn:Hh; [|done]. cbn [negb].
  destruct (bool_decide _); [done|]. destruct (normalizeURLPath u) as [u'|] eqn:Hn; [|done]. intros [= <-].
  apply normalizeURLPath_spec in Hn as (Hs&_). exists u'. by rewrite Hs.
Qed.
Lemma normalize_loop_ok seen entries : Forall (fun e => ∃ u, is_http (Scheme u) = true ∧ origin e = url_origin u) (normalize_loop seen entries).1.
Proof.
  revert seen. induction entries as [|entry entries IH]; intros seen; cbn [normalize_loop]; [constructor|].
  destruct (normalize_entry entry) as [[e|p]|] eqn:He; [| |apply IH].
  - case_decide; [apply IH|]. specialize (IH ({[origin e ++ pathPrefix e]} ∪ seen)).
    destruct (normalize_loop _ entries) as [out problems]. constructor; [by eapply normalize_entry_ok|done].
  - specialize (IH seen). by destruct (normalize_loop seen entries).
Qed.
Lemma resolveConfig_ok c cfg : resolveConfig c = Ok cfg → config_ok cfg.
Proof.
  unfold resolveConfig. pose proof (normalize_loop_ok ∅ (AllowedURLPrefixes c)) as He. fold (normalizeAllowList (AllowedURLPrefixes c)) in He.
  destruct (normalizeAllowList _) as [entries problems]. repeat (case_decide; [done|]). intros [= <-].
  unfold config_ok. cbn. split_and!; [| |done].
  - destruct (Z.leb_spec (MaxRedirects c) 0); [unfold defaultMaxRedirects; lia|done].
  - destruct (Z.leb_spec (MaxResponseBytes c) 0); [unfold defaultMaxResponseSize; lia|done].
Qed.

Section client.
Context {St : Type} (doer : http_Request → St → result net_error http_Response * St)
  (lookup : gostr → St → result dns_error (list net_IP) * St) (cfg : resolvedConfig).

(** ** One URL *)

(** A URL that may be asked for: it belongs to an entry of the allowlist, and below its path also for
    a server that decodes the path. *)
Definition url_ok (u : URL) : Prop :=
  is_http (Scheme u) = true ∧ Host u ≠ [] ∧ Opaque u = [] ∧
  PathUnescape (EscapedPath u) = Some (Path u) ∧
  (∃ e pd, e ∈ allowedURLPrefixes cfg ∧ url_origin u = origin e ∧ PathUnescape (pathPrefix e) = Some pd ∧
           server_path pd `prefix_of` server_path (Path u)) ∧
  (denyPrivateRanges cfg = true → isPrivateHostname (Hostname u) = false).

Lemma checkPrivateHost_spec u s log :
  ((checkPrivateHost lookup u (s, log)).2).2 = log ∧
  ((checkPrivateHost lookup u (s, log)).1 = Ok tt → isPrivateHostname (Hostname u) = false).
Proof.
  unfold checkPrivateHost. destruct (isPrivateHostname (Hostname u)) eqn:Hp; [done|].
  destruct (bool_decide _); [done|]. unfold mbind, stateful_bind, lookupIPAddrs.
  destruct (lookup (Hostname u) s) as [[ips|[]] s']; try done. by destruct (existsb isPrivateIP ips).
Qed.
Lemma urlAllowed_entry u :
  urlAllowed u (allowedURLPrefixes cfg) = true → PathUnescape (EscapedPath u) = Some (Path u) → no_dots (Path u) →
  ∃ e pd, e ∈ allowedURLPrefixes cfg ∧ url_origin u = origin e ∧ PathUnescape (pathPrefix e) = Some pd ∧
          server_path pd `prefix_of` server_path (Path u).
Proof.
  unfold urlAllowed. intros Ha Hd Hno. apply existsb_exists in Ha as (e&He&Hm). apply andb_prop in Hm as [Ho%bool_decide_eq_true_1 Hm].
  destruct (allowListPathMatches_below _ _ _ Hm Hd Hno) as (pd&?&?). exists e, pd. split_and!; try done.
  by apply list_elem_of_In.
Qed.
(** The check sends nothing. *)
Lemma allowedURL_spec raw s log :
  ∃ r s', allowedURL lookup cfg raw (s, log) = (r, (s', log)) ∧ ∀ u, r = Ok u → url_ok u.
Proof.
  unfold allowedURL. destruct (url_Parse raw) as [u|]; [|by eexists _, s].
  destruct (is_http (Scheme u)) eqn:Hh; [|by eexists _, s]. cbn [negb].
  destruct (decide (Host u = [] ∨ Opaque u ≠ [])) as [|Hho]; [by eexists _, s|].
  destruct (normalizeURLPath u) as [u'|r] eqn:Hn; [|by eexists _, s].
  apply normalizeURLPath_spec in Hn as (Hs&Hhost&Hop&_&_&Hd&Hno).
  destruct (urlAllowed u' _) eqn:Ha; [|by eexists _, s]. cbn [negb].
  assert ((denyPrivateRanges cfg = true → isPrivateHostname (Hostname u') = false) → url_ok u') as Hok.
  { intros Hp. unfold url_ok. rewrite Hs, Hhost, Hop. split_and!; try done; [tauto|destruct (decide (Opaque u = [])); tauto|].
    by apply urlAllowed_entry. }
  destruct (denyPrivateRanges cfg) eqn:Hdeny.
  - destruct (checkPrivateHost_spec u' s log) as [Hlog Hp]. unfold mbind, stateful_bind.
    destruct (checkPrivateHost lookup u' (s, log)) as [[[]|err] [s' log']]; simpl in Hlog; subst log'.
    + eexists _, s'. split; [done|]. intros w [= <-]. apply Hok. intros _. by apply Hp.
    + by eexists _, s'.
  - eexists _, s. split; [done|]. intros w [= <-]. by apply Hok.
Qed.

(** ** Requests *)

Definition first_origin (log : list http_Request) : option gostr := (fun r => urlOrigin (hr_URL r)) <$> list.last log.
(** A request that may be sent; credentials only go to the origin of the first request. *)
Record request_ok (req : Request) (first : option gostr) (r : http_Request) : Prop := {
  rq_method : hr_Method r ∈ allowedMethods cfg;
  rq_url : url_ok (hr_URL r);
  rq_headers : ∀ k v, hr_Header r !! k = Some v → ∃ name, (name, v) ∈ Headers req ∧ k = CanonicalHeaderKey name ∧
    (isCredentialHeader name = true ∨ IsSensitiveName name = true → Some (urlOrigin (hr_URL r)) = first);
  rq_body : hr_Body r = Body req ∨ hr_Body r = [] ∧ hr_Method r = MethodGet;
}.
Definition log_ok (req : Request) (log : list http_Request) : Prop :=
  glen log <= maxRedirects cfg + 1 ∧ Forall (request_ok req (first_origin log)) log.

Lemma request_headers_spec same drop headers k v :
  request_headers same drop headers !! k = Some v →
  ∃ name, (name, v) ∈ headers ∧ k = CanonicalHeaderKey name ∧ keeps_header same drop name = true.
Proof.
  unfold request_headers. assert (∀ m : gmap gostr gostr,
    foldl (fun m '(name, value) => if keeps_header same drop name then <[CanonicalHeaderKey name := value]> m else m) m headers !! k = Some v →
    m !! k = Some v ∨ ∃ name, (name, v) ∈ headers ∧ k = CanonicalHeaderKey name ∧ keeps_header same drop name = true) as H.
  { induction headers as [|[name value] headers IH]; intros m; [by left|]. cbn [foldl]. intros H. apply IH in H as [H|(n&Hn&Hk&Hc)].
    - destruct (keeps_header same drop name) eqn:Hkeep; [|by left]. destruct (decide (k = CanonicalHeaderKey name)) as [->|Hne].
      + rewrite lookup_insert_eq in H. injection H as <-. right. exists name. split_and!; [by left|done|done].
      + rewrite lookup_insert_ne in H by done. by left.
    - right. exists n. split_and!; [by right|done|done]. }
  intros Hl. destruct (H ∅ Hl) as [He|?]; [by rewrite lookup_empty in He|done].
Qed.

Lemma readResponse_bounded url resp out :
  config_ok cfg → readResponse cfg url resp = Ok out → glen (out_Body out) <= maxResponseBytes cfg.
Proof.
  intros (_&Hmax&_). unfold readResponse. rewrite (proj2 (Z.ltb_lt 0 _)) by done. cbn [andb].
  destruct (maxResponseBytes cfg <? ContentLength resp); [done|].
  assert (∀ body, (if maxResponseBytes cfg <? glen body then Err (ResponseTooLargeError (maxResponseBytes cfg)) else
    Ok (MkResponse (StatusCode resp) (Status resp) (join (go ", ") <$> resp_Header resp) body url)) = Ok out →
    glen (out_Body out) <= maxResponseBytes cfg) as Hout.
  { intros body. destruct (Z.ltb_spec (maxResponseBytes cfg) (glen body)); [done|]. by intros [= <-]. }
  destruct (maxResponseBytes cfg + 1 <=? glen (resp_Body resp)); [apply Hout|].
  destruct (resp_BodyError resp); [done|apply Hout].
Qed.

Lemma first_origin_cons r log : log ≠ [] → first_origin (r :: log) = first_origin log.
Proof. intros H. unfold first_origin. rewrite last_cons. by destruct (list.last log) eqn:E; [|apply last_None in E]. Qed.

(** The state of the loop: the requests so far, and what the next one is made of. *)
Record loop_ok (req : Request) (d : do_state) (log : list http_Request) : Prop := {
  lo_count : glen log = do_redirects d;
  lo_method : do_method d ∈ allowedMethods cfg;
  lo_body : do_body d = Body req ∨ do_body d = [] ∧ do_method d = MethodGet;
  lo_origin : log ≠ [] → first_origin log = Some (do_originalOrigin d);
  lo_log : Forall (request_ok req (first_origin log)) log;
}.

(** One more request. *)
Lemma send_ok req d log u :
  loop_ok req d log → url_ok u →
  let originalOrigin := if do_redirects d =? 0 then urlOrigin u else do_originalOrigin d in
  let r := MkHttpRequest (do_method d) u
    (request_headers (bool_decide (urlOrigin u = originalOrigin)) (do_dropBodyHeaders d) (Headers req)) (do_body d) in
  first_origin (r :: log) = Some originalOrigin ∧ Forall (request_ok req (first_origin (r :: log))) (r :: log).
Proof.
  intros [Hcount Hm Hb Ho Hlog] Hu originalOrigin r.
  assert (first_origin (r :: log) = Some originalOrigin ∧ (log ≠ [] → first_origin log = Some originalOrigin)) as [Hfirst Hsame].
  { destruct log as [|q log].
    - unfold originalOrigin. rewrite <- Hcount. done.
    - rewrite first_origin_cons by done. unfold originalOrigin. rewrite (proj2 (Z.eqb_neq (do_redirects d) 0)); [by rewrite Ho|].
      rewrite <- Hcount. unfold glen. simpl. lia. }
  split; [done|]. rewrite Hfirst. constructor.
  - split; [done|done| |done]. intros k v Hk. apply request_headers_spec in Hk as (name&Hin&->&Hkeep). exists name. split_and!; [done..|].
    intros Hc. unfold keeps_header in Hkeep. apply andb_prop in Hkeep as [Hkeep _]. cbn [hr_URL r].
    apply negb_true_iff, andb_false_iff in Hkeep as [Hs|Hs].
    + apply negb_false_iff, bool_decide_eq_true_1 in Hs. by rewrite Hs.
    + apply orb_false_elim in Hs as [? ?]. destruct Hc; congruence.
  - destruct log as [|q log]; [constructor|]. rewrite Hsame in Hlog by done. done.
Qed.

(** What a run of the client ends with. *)
Definition run_ok (req : Request) (o : result net_error (option Response) * world (St := St)) : Prop :=
  o.1 ≠ Ok None ∧ log_ok req o.2.2 ∧ ∀ out, o.1 = Ok (Some out) → glen (out_Body out) <= maxResponseBytes cfg.

Lemma run_error req e w : log_ok req w.2 → run_ok req (Err e, w).
Proof. by intros H. Qed.
Lemma run_response req url resp s log :
  config_ok cfg → log_ok req log → run_ok req ((out ← lift (readResponse cfg url resp); mret (Some out)) (s, log)).
Proof.
  intros Hc Hl. unfold mbind, stateful_bind, lift. destruct (readResponse cfg url resp) as [out|e] eqn:Hr; [|by apply run_error].
  split_and!; [done|done|]. intros out' [= <-]. by eapply readResponse_bounded.
Qed.
Lemma loop_log_ok req d log : loop_ok req d log → do_redirects d <= maxRedirects cfg → log_ok req log.
Proof. intros [Hc _ _ _ Hl] Hd. split; [lia|done]. Qed.

(** The loop keeps all of it, and answers. *)
Lemma do_loop_ok fuel req d s log :
  config_ok cfg → loop_ok req d log → 0 <= do_redirects d → Z.of_nat fuel = maxRedirects cfg + 1 - do_redirects d → (0 < fuel)%nat →
  run_ok req (do_loop doer lookup cfg fuel req d (s, log)).
Proof.
  intros Hcfg. revert d s log. induction fuel as [|fuel IH]; intros d s log Hd H0 Hfuel Hpos; [lia|]. cbn [do_loop].
  pose proof (loop_log_ok req d log Hd ltac:(lia)) as Hlog.
  destruct (allowedURL_spec (do_url d) s log) as (r&s1&Hr&Hu). destruct r as [u|e]; [|by rewrite (bind_Err _ _ _ _ _ Hr)].
  rewrite (bind_Ok _ _ _ _ _ Hr). specialize (Hu u eq_refl). destruct (NewRequest_error _ _) as [err|]; [done|].
  destruct (send_ok req d log u Hd Hu) as [Hfirst Hall].
  set (originalOrigin := if do_redirects d =? 0 then urlOrigin u else do_originalOrigin d) in *.
  set (q := MkHttpRequest _ _ _ _) in *. assert (log_ok req (q :: log)) as Hlog1.
  { split; [|done]. rewrite <- (lo_count _ _ _ Hd) in Hfuel. unfold glen in *. simpl. lia. }
  destruct (doer q s1) as [[resp|err] s2] eqn:Hdo.
  2: { rewrite (bind_Err _ _ _ err (s2, q :: log)); [by apply run_error|]. unfold send. by rewrite Hdo. }
  rewrite (bind_Ok _ _ _ resp (s2, q :: log)) by (unfold send; by rewrite Hdo).
  destruct (isRedirect (StatusCode resp) && FollowRedirects req); [|by apply run_response].
  case_decide; [by apply run_response|]. destruct (resolveRedirectURL _ _) as [nextURL|err]; [|by apply run_error].
  rewrite (bind_Ok (lift (Ok nextURL)) _ _ nextURL (s2, q :: log)) by done.
  destruct (allowedURL_spec nextURL s2 (q :: log)) as (r'&s3&Hr'&_).
  destruct r' as [u'|e]; [|rewrite (bind_Err _ _ _ (RedirectNotAllowedError nextURL) (s3, q :: log)); [by apply run_error|unfold map_error; by rewrite Hr']].
  rewrite (bind_Ok _ _ _ u' (s3, q :: log)) by (unfold map_error; by rewrite Hr').
  destruct (Z.ltb_spec (maxRedirects cfg) (do_redirects d + 1)); [by apply run_error|].
  assert (∀ method body drop, method ∈ allowedMethods cfg → (body = Body req ∨ body = [] ∧ method = MethodGet) →
    run_ok req (do_loop doer lookup cfg fuel req (MkDo method nextURL (do_redirects d + 1) body drop originalOrigin) (s3, q :: log))) as Hnext.
  { intros method body drop Hm Hb. apply IH; cbn [do_redirects]; [|lia..]. split; cbn; [|done|done|done|done].
    rewrite <- (lo_count _ _ _ Hd). unfold glen. simpl. lia. }
  destruct (redirectSwitchesToGet _ _); [|by apply Hnext; [apply (lo_method _ _ _ Hd)|apply (lo_body _ _ _ Hd)]].
  case_decide; [|by apply run_error]. by apply Hnext; [|right].
Qed.
Lemma Do_ok req s : config_ok cfg → run_ok req (Do doer lookup cfg req (s, [])).
Proof.
  intros Hcfg. unfold Do. assert (log_ok req []) as Hlog by (destruct Hcfg; split; [unfold glen; simpl; lia|constructor]).
  set (method := if decide _ then MethodGet else _). case_decide as Hm; [|by apply run_error].
  case_decide; [by apply run_error|]. destruct Hcfg as (Hmax&?&?). apply do_loop_ok; [done| |done|unfold do_fuel; cbn; lia|unfold do_fuel; lia].
  split; cbn; [done|done|by left|done|constructor].
Qed.
End client.

(** ** Dialing *)

Section dial.
Context {St Conn : Type} (lookup : gostr → St → result dns_error (list net_IP) * St)
  (ParseIP : gostr → option net_IP) (dial : net_IP → gostr → St → result net_error Conn * St) (cfg : resolvedConfig).

Lemma dial_loop_log port ips err s log : ∃ k, ((dial_loop dial port ips err (s, log)).2).2 = reverse (take k ips) ++ log.
Proof.
  revert err s log. induction ips as [|ip ips IH]; intros err s log; cbn [dial_loop]; [by exists 0%nat|].
  unfold mbind, stateful_bind, dial_ip. destruct (dial ip port s) as [[c|e] s'].
  - exists 1%nat. done.
  - destruct (IH e s' (ip :: log)) as (k&->). exists (S k). cbn [take]. by rewrite reverse_cons, <- (assoc_L (++)).
Qed.
(** Only addresses that are resolved are dialed, in their order, and with the check only when all of them
    are public. *)
Definition resolved host s : list net_IP :=
  match ParseIP host with
  | Some ip => [ip]
  | None => match (lookup host s).1 with Ok ips => filter (fun ip => ip ≠ []) ips | Err _ => [] end
  end.
Lemma dial_checked_log host port s log ips :
  ∃ dialed, ((if denyPrivateRanges cfg && existsb isPrivateIP ips
      then throw (AccessDeniedError host ResolvesToPrivate) else dial_loop dial port ips UrlError) (s, log)).2.2 = dialed ++ log ∧
    (denyPrivateRanges cfg = true → Forall (fun ip => isPrivateIP ip = false) dialed) ∧ reverse dialed `prefix_of` ips.
Proof.
  destruct (denyPrivateRanges cfg && existsb isPrivateIP ips) eqn:Hp; [by exists []; split_and!; [|constructor|apply prefix_nil]|].
  destruct (dial_loop_log port ips UrlError s log) as (k&->). exists (reverse (take k ips)). split; [done|]. split.
  - intros Hd. rewrite Hd in Hp. simpl in Hp. apply Forall_reverse, Forall_take, list.Forall_forall. intros ip Hip.
    destruct (isPrivateIP ip) eqn:E; [|done]. exfalso. assert (existsb isPrivateIP ips = true); [|congruence].
    apply existsb_exists. exists ip. split; [by apply list_elem_of_In|done].
  - rewrite reverse_involutive. exists (drop k ips). by rewrite take_drop.
Qed.
Lemma dialContext_log host port s log :
  ∃ ips, ((dialContext lookup ParseIP dial cfg host port (s, log)).2).2 = ips ++ log ∧
    (denyPrivateRanges cfg = true → Forall (fun ip => isPrivateIP ip = false) ips) ∧ reverse ips `prefix_of` resolved host s.
Proof.
  unfold dialContext, resolveDialIPs, resolved, mbind, stateful_bind.
  destruct (ParseIP host) as [ip|]; [apply dial_checked_log|]. destruct (lookup host s) as [[ips|e] s']; cbn [fst].
  - case_decide; [exists []; split_and!; [done|constructor|apply prefix_nil]|apply dial_checked_log].
  - exists []. split_and!; [done|constructor|apply prefix_nil].
Qed.
End dial.
End props.
