(* ===== verification/NetworkTheorems.v ===== *)
(** What the network client guarantees: where it sends requests and credentials, which addresses it dials,
    and which addresses it takes for private. *)
From Stdlib Require Import Btauto.
From S2P Require Import Prelude GoMonad GoUtf8 GoUrl Network NetworkProps.

(** ** Private addresses *)

(** The ranges of IPv4 addresses that are not public, as the registries list them: first and last. *)
Definition private_ranges : list (Z * Z) :=
  let at_ (a b c d : Z) := ((a * 256 + b) * 256 + c) * 256 + d in
  [ (at_ 0 0 0 0, at_ 0 255 255 255); (at_ 10 0 0 0, at_ 10 255 255 255); (at_ 100 64 0 0, at_ 100 127 255 255);
    (at_ 127 0 0 0, at_ 127 255 255 255); (at_ 169 254 0 0, at_ 169 254 255 255); (at_ 172 16 0 0, at_ 172 31 255 255);
    (at_ 192 0 0 0, at_ 192 0 0 255); (at_ 192 0 2 0, at_ 192 0 2 255); (at_ 192 168 0 0, at_ 192 168 255 255);
    (at_ 198 18 0 0, at_ 198 19 255 255); (at_ 198 51 100 0, at_ 198 51 100 255); (at_ 203 0 113 0, at_ 203 0 113 255);
    (at_ 224 0 0 0, at_ 239 255 255 255); (at_ 240 0 0 0, at_ 255 255 255 255) ].
Definition in_private_range (a : Z) : bool := existsb (fun '(lo, hi) => (lo <=? a) && (a <=? hi)) private_ranges.

(** The same of IPv6 addresses: the first groups of 16 bits that a range has in common, and their bits. *)
Definition groups_range (groups : list Z) (bits : Z) : Z * Z :=
  let lo := foldl (fun n g => n * 65536 + g) 0 groups * 65536 ^ (8 - glen groups) in (lo, lo + 2 ^ (128 - bits) - 1).
Definition private_ranges6 : list (Z * Z) :=
  [ groups_range [] 96; groups_range [0; 0; 0; 0; 65535] 96; groups_range [100; 65435; 1] 48; groups_range [256] 64;
    groups_range [8193; 3512] 32; groups_range [64512] 7; groups_range [65152] 10; groups_range [65216] 10; groups_range [65280] 8 ].
Definition in_private_range6 (n : Z) : bool := existsb (fun '(lo, hi) => (lo <=? n) && (n <=? hi)) private_ranges6.

Lemma Contains_v4 p a bits : 0 <= bits <= 32 → Contains (MkPrefix (V4 p) bits) (V4 a) = (a / 2 ^ (32 - bits) =? p / 2 ^ (32 - bits)).
Proof.
  intros Hb. unfold Contains; cbn [pfx_Addr pfx_Bits]. rewrite Z.shiftr_lxor, !Z.shiftr_div_pow2 by lia.
  apply Bool.eq_iff_eq_true. by rewrite !Z.eqb_eq, Z.lxor_eq_0_iff.
Qed.
Lemma Contains_v6 p a bits : 0 <= bits <= 128 → Contains (MkPrefix (V6 p) bits) (V6 a) = (a / 2 ^ (128 - bits) =? p / 2 ^ (128 - bits)).
Proof.
  intros Hb. unfold Contains; cbn [pfx_Addr pfx_Bits]. rewrite Z.shiftr_lxor, !Z.shiftr_div_pow2 by lia.
  apply Bool.eq_iff_eq_true. by rewrite !Z.eqb_eq, Z.lxor_eq_0_iff.
Qed.

(** The checks of an IPv4 address compare a quotient; each of them is a range. *)
Lemma quotient_range a k q : 0 < k → (a / k =? q) = (q * k <=? a) && (a <=? q * k + (k - 1)).
Proof.
  intros Hk. apply Bool.eq_iff_eq_true. rewrite andb_true_iff, Z.eqb_eq, !Z.leb_le.
  pose proof (Z.div_mod a k ltac:(lia)). pose proof (Z.mod_pos_bound a k Hk). split; [intros <-; lia|].
  intros [? ?]. symmetry. apply (Z.div_unique a k q (a - q * k)); lia.
Qed.
(** Evaluates the bounds of [a], and compares two unions of ranges as booleans. *)
Ltac numeric_bounds a :=
  repeat match goal with |- context [?x <=? a] => progress (let v := eval vm_compute in x in change (x <=? a) with (v <=? a)) end;
  repeat match goal with |- context [a <=? ?x] => progress (let v := eval vm_compute in x in change (a <=? x) with (a <=? v)) end;
  repeat match goal with |- context [a =? ?x] => progress (let v := eval vm_compute in x in change (a =? x) with (a =? v)) end.
Ltac same_ranges a :=
  repeat match goal with |- context [(?x <=? a) && (a <=? ?y)] => generalize ((x <=? a) && (a <=? y)); intro end;
  repeat match goal with |- context [a =? ?x] => generalize (a =? x); intro end; btauto.
Lemma point_range a x lo hi : lo <= x <= hi → (a =? x) = (a =? x) && ((lo <=? a) && (a <=? hi)).
Proof. intros H. destruct (Z.eqb_spec a x); [subst|done]. symmetry. rewrite !andb_true_l, andb_true_iff, !Z.leb_le. lia. Qed.
Lemma not_public_v4 a : 0 <= a < 2 ^ 32 → not_public (V4 a) = in_private_range a.
Proof.
  intros Ha. unfold not_public, IsUnspecified, IsLoopback, IsPrivate, IsLinkLocalUnicast, IsMulticast.
  unfold nonPublicPrefixes, ipv4. cbn [existsb]. rewrite !Contains_v4, !Z.shiftr_div_pow2, !quotient_range by lia.
  unfold in_private_range, private_ranges. cbn [existsb].
  numeric_bounds a.
  repeat match goal with |- context [Contains (ipv6 ?g ?b) (V4 a)] => change (Contains (ipv6 g b) (V4 a)) with false end.
  rewrite (point_range a 0 0 16777215) by lia.
  same_ranges a.
Qed.
Lemma not_public_v6 n : 0 <= n < 2 ^ 128 → not_public (V6 n) = in_private_range6 n.
Proof.
  intros Hn. unfold not_public, IsUnspecified, IsLoopback, IsPrivate, IsLinkLocalUnicast, IsMulticast.
  unfold nonPublicPrefixes, ipv6. cbn [existsb].
  repeat match goal with |- context [Contains (ipv4 ?x ?y ?z ?t ?b) (V6 n)] => change (Contains (ipv4 x y z t b) (V6 n)) with false end.
  rewrite !Contains_v6, !Z.shiftr_div_pow2, !quotient_range by lia.
  unfold in_private_range6, private_ranges6, groups_range. cbn [existsb].
  numeric_bounds n. rewrite (point_range n 0 0 4294967295), (point_range n 1 0 4294967295) by lia. same_ranges n.
Qed.

Lemma isPrivateAddr_v6 n :
  0 <= n < 2 ^ 128 → n / 2 ^ 32 ≠ 65535 →
  isPrivateAddr (V6 n) = in_private_range6 n ||
    (if n / 2 ^ 32 =? (100 * 65536 + 65435) * 2 ^ 64 then in_private_range (n mod 2 ^ 32)
     else if n / 2 ^ 112 =? 8194 then in_private_range (n / 2 ^ 80 mod 2 ^ 32) else false).
Proof.
  intros Hn Hm. unfold isPrivateAddr. unfold Unmap. rewrite !Z.shiftr_div_pow2 by lia.
  rewrite (proj2 (Z.eqb_neq _ _) Hm), not_public_v6 by done. unfold nat64Prefix, sixToFourNet, ipv6.
  rewrite !Contains_v6, !Z.shiftr_div_pow2, !not_public_v4 by first [lia|apply Z.mod_pos_bound; lia].
  f_equal.
Qed.
Lemma mapped_private a : 0 <= a < 2 ^ 32 → isPrivateAddr (V6 (65535 * 2 ^ 32 + a)) = isPrivateAddr (V4 a).
Proof.
  intros Ha. unfold isPrivateAddr, Unmap. rewrite Z.shiftr_div_pow2, Z.div_add_l, Z.div_small by lia. cbn [Z.eqb].
  change (65535 + 0 =? 65535) with true. cbv iota. by rewrite Z.add_comm, Z.mod_add, Z.mod_small by lia.
Qed.
(** The prefixes that embed an IPv4 address are in no private range themselves. *)
Lemma embedding_public n lo hi :
  lo <= n <= hi → existsb (fun '(l, h) => (l <=? hi) && (lo <=? h)) private_ranges6 = false → in_private_range6 n = false.
Proof.
  intros Hn. unfold in_private_range6. generalize private_ranges6. intros rs. induction rs as [|[l h] rs IH]; [done|]. cbn [existsb].
  intros [H1 H2]%orb_false_elim. rewrite IH, orb_false_r by done. apply andb_false_iff in H1. apply andb_false_iff.
  rewrite !Z.leb_gt in *. lia.
Qed.

(** ** Private addresses: the theorem *)

Lemma split_quotient c k a : 0 <= a < k → (c * k + a) / k = c ∧ (c * k + a) mod k = a.
Proof.
  intros Ha. split; [rewrite Z.div_add_l, Z.div_small; lia|]. by rewrite Z.add_comm, Z.mod_add, Z.mod_small by lia.
Qed.
Lemma nat64_private a : 0 <= a < 2 ^ 32 → isPrivateAddr (V6 ((100 * 65536 + 65435) * 2 ^ 96 + a)) = in_private_range a.
Proof.
  intros Ha. replace ((100 * 65536 + 65435) * 2 ^ 96 + a) with ((100 * 65536 + 65435) * 2 ^ 64 * 2 ^ 32 + a) by lia.
  destruct (split_quotient ((100 * 65536 + 65435) * 2 ^ 64) (2 ^ 32) a Ha) as [Hq Hr].
  rewrite isPrivateAddr_v6; [|lia|by rewrite Hq]. rewrite Hq, Hr, Z.eqb_refl.
  rewrite (embedding_public _ ((100 * 65536 + 65435) * 2 ^ 96) ((100 * 65536 + 65435) * 2 ^ 96 + (2 ^ 32 - 1))); [done|lia|by vm_compute].
Qed.
Lemma sixToFour_private a low :
  0 <= a < 2 ^ 32 → 0 <= low < 2 ^ 80 → isPrivateAddr (V6 (8194 * 2 ^ 112 + a * 2 ^ 80 + low)) = in_private_range a.
Proof.
  intros Ha Hlow. set (n := 8194 * 2 ^ 112 + a * 2 ^ 80 + low).
  assert (n / 2 ^ 112 = 8194) as H112.
  { replace n with (8194 * 2 ^ 112 + (a * 2 ^ 80 + low)) by lia. apply split_quotient. lia. }
  assert (n / 2 ^ 80 = 8194 * 2 ^ 32 + a) as H80.
  { replace n with ((8194 * 2 ^ 32 + a) * 2 ^ 80 + low) by lia. by apply split_quotient. }
  assert (8194 * 2 ^ 80 <= n / 2 ^ 32) as H32 by (apply Z.div_le_lower_bound; lia).
  rewrite isPrivateAddr_v6 by lia. rewrite H112, H80, (proj2 (split_quotient 8194 _ a Ha)).
  rewrite (proj2 (Z.eqb_neq (n / 2 ^ 32) _)) by lia.
  rewrite (embedding_public _ (8194 * 2 ^ 112) (8195 * 2 ^ 112 - 1)); [done|lia|by vm_compute].
Qed.
(** An address of four bytes is reserved when it is in a private range.  So is one of sixteen bytes that maps such
    an IPv4 address, translates it (NAT64) or tunnels to it (6to4), and any other in a private range of IPv6. *)
Definition reserved6 (n : Z) : bool :=
  if n / 2 ^ 32 =? 65535 then in_private_range (n mod 2 ^ 32)
  else if n / 2 ^ 32 =? (100 * 65536 + 65435) * 2 ^ 64 then in_private_range (n mod 2 ^ 32)
  else if n / 2 ^ 112 =? 8194 then in_private_range (n / 2 ^ 80 mod 2 ^ 32)
  else in_private_range6 n.
Definition reserved_address (ip : net_IP) : bool :=
  match length ip with 4%nat => in_private_range (big_endian ip) | 16%nat => reserved6 (big_endian ip) | _ => false end.

Lemma isPrivateAddr_v4 a : 0 <= a < 2 ^ 32 → isPrivateAddr (V4 a) = in_private_range a.
Proof. intros Ha. unfold isPrivateAddr. cbn [Unmap]. by rewrite orb_false_r, not_public_v4. Qed.
Lemma isPrivateAddr_reserved6 n : 0 <= n < 2 ^ 128 → isPrivateAddr (V6 n) = reserved6 n.
Proof.
  intros Hn. unfold reserved6. pose proof (Z.div_mod n (2 ^ 32) ltac:(lia)) as H32. pose proof (Z.mod_pos_bound n (2 ^ 32) ltac:(lia)) as Hm.
  destruct (Z.eqb_spec (n / 2 ^ 32) 65535) as [E|E].
  - rewrite E in H32. rewrite H32 at 1. rewrite (Z.mul_comm (2 ^ 32)), mapped_private by done. by apply isPrivateAddr_v4.
  - destruct (Z.eqb_spec (n / 2 ^ 32) ((100 * 65536 + 65435) * 2 ^ 64)) as [E'|E'].
    + rewrite E' in H32. rewrite H32 at 1.
      replace (2 ^ 32 * ((100 * 65536 + 65435) * 2 ^ 64) + n mod 2 ^ 32) with ((100 * 65536 + 65435) * 2 ^ 96 + n mod 2 ^ 32) by lia. by apply nat64_private.
    + destruct (Z.eqb_spec (n / 2 ^ 112) 8194) as [E6|E6].
      * pose proof (Z.div_mod n (2 ^ 80) ltac:(lia)) as H80. pose proof (Z.mod_pos_bound n (2 ^ 80) ltac:(lia)) as Hm80.
        assert (n / 2 ^ 80 / 2 ^ 32 = 8194) as Hq by (rewrite Z.div_div by lia; exact E6).
        pose proof (Z.div_mod (n / 2 ^ 80) (2 ^ 32) ltac:(lia)) as Hd. rewrite Hq in Hd.
        rewrite H80 at 1. rewrite Hd at 1. pose proof (Z.mod_pos_bound (n / 2 ^ 80) (2 ^ 32) ltac:(lia)) as Hmm.
        replace (2 ^ 80 * (2 ^ 32 * 8194 + n / 2 ^ 80 mod 2 ^ 32) + n mod 2 ^ 80) with (8194 * 2 ^ 112 + (n / 2 ^ 80 mod 2 ^ 32) * 2 ^ 80 + n mod 2 ^ 80) by lia.
        by apply sixToFour_private.
      * rewrite isPrivateAddr_v6 by done. rewrite !(proj2 (Z.eqb_neq _ _)) by done. by rewrite orb_false_r.
Qed.
Lemma big_endian_bound ip : 0 <= big_endian ip < 2 ^ (8 * glen ip).
Proof.
  unfold big_endian, glen. induction ip as [|b ip IH] using rev_ind; [done|]. rewrite foldl_app, length_app. cbn [foldl length].
  pose proof (byte_val_range b). replace (8 * Z.of_nat (length ip + 1)) with (8 * Z.of_nat (length ip) + 8) by lia. rewrite Z.pow_add_r by lia. lia.
Qed.
(** The code's check is this one. *)
Lemma isPrivateIP_reserved ip : isPrivateIP ip = reserved_address ip.
Proof.
  unfold isPrivateIP, AddrFromSlice, reserved_address. pose proof (big_endian_bound ip) as Hb. unfold glen in Hb.
  destruct (Nat.eqb_spec (length ip) 4) as [E|E4]; [rewrite E in *; by apply isPrivateAddr_v4|].
  destruct (Nat.eqb_spec (length ip) 16) as [E|E16]; [rewrite E in *; by apply isPrivateAddr_reserved6|]. repeat (case_match; try done).
Qed.

(** ** Requests and addresses *)

Section theorems.
Context {lib : NetLib}.

(** C15: whatever servers and the resolver answer, [Do] ends, with at most [maxRedirects] redirects, and
    every request it sent had an allowed method and a URL of the allowlist: its origin is the origin of an
    entry, and a server that decodes its path and resolves its dot segments stays below the path of that
    entry; with private addresses denied its host is not the name of one.  A header that carries
    credentials only goes to the origin of the first request.  A body that is returned keeps to the limit. *)
Theorem net_requests_confined {St}
    (doer : http_Request → St → result net_error http_Response * St)
    (lookup : gostr → St → result dns_error (list net_IP) * St) c cfg req s r s' log :
  resolveConfig c = Ok cfg → Do doer lookup cfg req (s, []) = (r, (s', log)) →
  r ≠ Ok None ∧ glen log <= maxRedirects cfg + 1 ∧
  (∀ q, q ∈ log →
     hr_Method q ∈ allowedMethods cfg ∧ is_http (Scheme (hr_URL q)) = true ∧ Host (hr_URL q) ≠ [] ∧
     PathUnescape (EscapedPath (hr_URL q)) = Some (Path (hr_URL q)) ∧
     (∃ e pd, e ∈ allowedURLPrefixes cfg ∧ url_origin (hr_URL q) = origin e ∧ PathUnescape (pathPrefix e) = Some pd ∧
              server_path pd `prefix_of` server_path (Path (hr_URL q))) ∧
     (denyPrivateRanges cfg = true → isPrivateHostname (Hostname (hr_URL q)) = false) ∧
     ∀ k v, hr_Header q !! k = Some v → ∃ name, (name, v) ∈ Headers req ∧ k = CanonicalHeaderKey name ∧
       (isCredentialHeader name = true ∨ IsSensitiveName name = true →
        Some (urlOrigin (hr_URL q)) = (fun q0 => urlOrigin (hr_URL q0)) <$> list.last log)) ∧
  (∀ out, r = Ok (Some out) → glen (out_Body out) <= maxResponseBytes cfg).
Proof.
  intros Hcfg Hrun. pose proof (Do_ok doer lookup cfg req s (resolveConfig_ok _ _ Hcfg)) as (Hnone&(Hlen&Hlog)&Hbody).
  rewrite Hrun in *. split_and!; [done|done| |done]. intros q Hq. rewrite list.Forall_forall in Hlog.
  destruct (Hlog q Hq) as [Hm (?&?&_&?&?&?) Hh _]. by split_and!.
Qed.

(** C16: with private addresses denied a connection is only dialed to an address that is not reserved: not in the
    private ranges of IPv4 and IPv6, and embedding no IPv4 address in them.  The addresses that are dialed are
    among those that the host resolves to, in their order, and when one of those is reserved the host is
    refused and nothing is dialed at all. *)
Theorem dialContext_public {St Conn}
    (lookup : gostr → St → result dns_error (list net_IP) * St) (ParseIP : gostr → option net_IP)
    (dial : net_IP → gostr → St → result net_error Conn * St) cfg host port s r s' log :
  let resolved := match ParseIP host with
                  | Some ip => [ip]
                  | None => match (lookup host s).1 with Ok ips => filter (fun ip => ip ≠ []) ips | Err _ => [] end
                  end in
  denyPrivateRanges cfg = true →
  dialContext lookup ParseIP dial cfg host port (s, []) = (r, (s', log)) →
  (∀ ip, ip ∈ log → reserved_address ip = false) ∧ reverse log `prefix_of` resolved ∧
  ((∃ ip, ip ∈ resolved ∧ reserved_address ip = true) → r = Err (AccessDeniedError host ResolvesToPrivate) ∧ log = []).
Proof.
  intros resolved Hd Hrun. destruct (dialContext_log lookup ParseIP dial cfg host port s []) as (ips&Hlog&Hp&Hord).
  rewrite Hrun, app_nil_r in Hlog. simpl in Hlog. subst. specialize (Hp Hd). rewrite list.Forall_forall in Hp. split_and!; [|done|].
  - intros ip Hip. rewrite <- isPrivateIP_reserved. by apply Hp.
  - intros (ip&Hip&Hres). rewrite <- isPrivateIP_reserved in Hres.
    assert (∀ l, ip ∈ l → existsb isPrivateIP l = true) as Hex by (intros l Hl; apply existsb_exists; exists ip; by rewrite <- list_elem_of_In).
    revert Hrun. unfold dialContext, resolveDialIPs, mbind, stateful_bind. subst resolved. rewrite Hd.
    destruct (ParseIP host) as [ip'|].
    { cbn [andb]. unfold mret, stateful_ret. cbn beta iota. rewrite (Hex _ Hip). by intros [= <- _ <-]. }
    destruct (lookup host s) as [[l|e] s1]; cbn [fst] in *; [|by apply elem_of_nil in Hip].
    case_decide as E; [rewrite E in Hip; by apply elem_of_nil in Hip|]. unfold mret, stateful_ret. cbn beta iota. rewrite (Hex _ Hip). cbn [andb]. by intros [= <- _ <-].
Qed.
End theorems.

(** ** Witnesses *)

(** URLs of the form [scheme://host/path]. *)
Definition small_Parse (s : gostr) : option URL :=
  match index_byte ":" s with
  | None => if has_prefix (go "/") s then p ← PathUnescape s; Some (MkURL [] [] None [] p s []) else None
  | Some i =>
      let rest := drop (i + 3) s in
      let host := before "/" rest in
      let path := drop (length host) rest in
      p ← PathUnescape path; Some (MkURL (take i s) [] None host p path [])
  end.
Definition small_String (u : URL) : gostr := url_origin u ++ EscapedPath u.
#[local] Instance small_lib : NetLib := {|
  net_case := {| unicode_ToLower := fun r => r; unicode_ToUpper := fun r => r |};
  url_Parse := small_Parse;
  url_String := small_String;
  url_ResolveReference := fun base next => if decide (Scheme next = []) then
    MkURL (Scheme base) [] None (Host base) (Path next) (RawPath next) [] else next;
  netip_ParseAddr := fun s => None;
  NewRequest_error := fun _ _ => None;
|}.
Definition small_config : Config := MkConfig [go "http://a/api/"; go "https://b"] [] 3 100 true.
(** The first server sends to the second one. *)
Definition small_doer (q : http_Request) (n : nat) : result net_error http_Response * nat :=
  let answer := fun code header body => (Ok (MkHttpResponse code [] header (glen body) body None), S n) in
  if decide (Host (hr_URL q) = go "a") then answer 302 {[go "Location" := [go "https://b/y"]]} (go "") else answer 200 ∅ (go "hello").
Definition small_lookup (host : gostr) (n : nat) : result dns_error (list net_IP) * nat :=
  (Ok [[byte_of 8; byte_of 8; byte_of 8; byte_of 8]], n).
Definition small_request : Request :=
  MkRequest (go "GET") (go "http://a/api/x") [(go "Authorization", go "secret"); (go "Accept", go "text")] [] true.

Definition small_cfg : resolvedConfig :=
  match resolveConfig small_config with Ok cfg => cfg | Err _ => MkResolved [] ∅ 0 0 false end.
Lemma small_config_resolves : resolveConfig small_config = Ok small_cfg.
Proof. vm_compute. reflexivity. Qed.
Definition small_run := Do small_doer small_lookup small_cfg small_request (0%nat, []).

Example small_run_result :
  small_run.1 = Ok (Some (MkResponse 200 [] ∅ (go "hello") (go "https://b/y"))) ∧
  map (fun q => map_to_list (hr_Header q)) small_run.2.2 =
    [[(go "Accept", go "text")]; [(go "Accept", go "text"); (go "Authorization", go "secret")]].
Proof. vm_compute. split; reflexivity. Qed.

Lemma net_requests_confined_witness :
  small_run.1 ≠ Ok None ∧ glen small_run.2.2 <= maxRedirects small_cfg + 1 ∧
  ∀ q, q ∈ small_run.2.2 → hr_Method q ∈ allowedMethods small_cfg.
Proof.
  destruct small_run as [r [s' log]] eqn:Hrun. unfold small_run in Hrun.
  destruct (net_requests_confined small_doer small_lookup small_config small_cfg small_request 0%nat r s' log
    small_config_resolves Hrun) as (Hn&Hl&Hq&_).
  split; [exact Hn|]. split; [exact Hl|]. intros q Hin. apply (Hq q Hin).
Defined.

Definition public_and_private : list net_IP := [map byte_of [8; 8; 8; 8]; map byte_of [9; 9; 9; 9]].
Definition small_dial (ip : net_IP) (port : gostr) (n : nat) : result net_error net_IP * nat :=
  (if decide (ip = map byte_of [8; 8; 8; 8]) then Err UrlError else Ok ip, S n).
Definition small_dialed :=
  dialContext (fun _ n => (Ok public_and_private, n)) (fun _ => None) small_dial small_cfg (go "a") (go "80") (0%nat, []).
Definition small_refused :=
  dialContext (fun _ n => (Ok (map byte_of [127; 0; 0; 1] :: public_and_private), n)) (fun _ => None) small_dial small_cfg (go "a") (go "80") (0%nat, []).
Lemma dialContext_public_witness :
  small_dialed.1 = Ok (map byte_of [9; 9; 9; 9]) ∧ (∀ ip, ip ∈ small_dialed.2.2 → reserved_address ip = false) ∧
  small_refused.1 = Err (AccessDeniedError (go "a") ResolvesToPrivate).
Proof.
  split; [vm_compute; reflexivity|]. split.
  - destruct small_dialed as [r [s' log]] eqn:Hrun.
    apply (dialContext_public (fun _ n => (Ok public_and_private, n)) (fun _ => None) small_dial small_cfg (go "a") (go "80") 0%nat r s' log
      ltac:(vm_compute; reflexivity) Hrun).
  - destruct small_refused as [r [s' log]] eqn:Hrun.
    apply (dialContext_public (fun _ n => (Ok (map byte_of [127; 0; 0; 1] :: public_and_private), n)) (fun _ => None) small_dial small_cfg (go "a") (go "80") 0%nat r s' log
      ltac:(vm_compute; reflexivity) Hrun). exists (map byte_of [127; 0; 0; 1]). split; [vm_compute; left|vm_compute; reflexivity].
Defined.
(** The reserved addresses at the edges of some ranges, and the public ones next to them. *)
Example reserved_addresses :
  map reserved_address [map byte_of [10; 0; 0; 0]; map byte_of [9; 255; 255; 255]; map byte_of [172; 31; 255; 255]; map byte_of [172; 32; 0; 0];
    map byte_of ([0; 0; 0; 0; 0; 0; 0; 0; 0; 0; 255; 255] ++ [127; 0; 0; 1]); map byte_of ([32; 2; 127; 0; 0; 1] ++ replicate 10 0);
    map byte_of ([32; 2; 8; 8; 8; 8] ++ replicate 10 0)] = [true; false; true; false; true; true; false].
Proof. vm_compute. reflexivity. Qed.

(** ** Double decoding *)

(** The check of [hasDoubleEncodedSeparator] looks for one encoded byte behind an encoded percent sign: a
    percent escape whose digits are escaped too passes it, and a second decoding of the path climbs. *)
Example double_decoding_climbs :
  let path := go "/api/%25%32%65%25%32%65/admin" in
  hasAmbiguousDotSegment path = false ∧
  (p ← PathUnescape path; PathUnescape p) = Some (go "/api/../admin").
Proof. vm_compute. split; reflexivity. Qed.
