(* ===== verification/Fields.v ===== *)
(** Field splitting: [shell/expand/expand.go].  The classes of [IFS], the [fieldSplitter] of word expansion,
    and [ReadFieldsFromChars] of the [read] builtin.

    The loops over a text run on an index and get the length of the text for fuel: every turn advances. *)
From S2P Require Import Prelude GoUtf8 GoUtf8Props.

(** ** Classes *)

Inductive ifsRuneType := ifsRuneNone | ifsRuneWhitespace | ifsRuneNonWhitespace.
#[export] Instance ifsRuneType_eq : EqDecision ifsRuneType.
Proof. solve_decision. Defined.

Inductive quoteLevel :=
| quoteNone | quoteNoTilde | quoteRegexp | quoteRegexpNoTilde | quoteAssign | quoteAssignArgs | quoteAssignNoTilde
| quoteDouble | quoteHeredoc | quoteSingle.
#[export] Instance quoteLevel_eq : EqDecision quoteLevel.
Proof. solve_decision. Defined.
Record fieldPart := MkPart { val : gostr; glob : gostr; quote : quoteLevel }.
(** [fieldPart{val: v}]. *)
Definition plain_part (v : gostr) : fieldPart := MkPart v [] quoteNone.

Section ifs.
(** The value of [IFS]. *)
Context (ifs : gostr).

Definition ifsRune (r : rune) : bool := existsb (fun p => r =? p.2) (range_string ifs).
Definition blank (r : rune) : bool := (r =? 32) || (r =? 9) || (r =? 10).
Definition ifsWhitespaceRune (r : rune) : bool := ifsRune r && blank r.
Definition classifyIFSRune (r : rune) : ifsRuneType :=
  if ifsWhitespaceRune r then ifsRuneWhitespace else if ifsRune r then ifsRuneNonWhitespace else ifsRuneNone.
Definition ifsByte (b : ascii) : bool := existsb (Ascii.eqb b) ifs.
Definition classifyIFSByte (b : ascii) : ifsRuneType :=
  if ifsByte b && blank (byte_val b) then ifsRuneWhitespace else if ifsByte b then ifsRuneNonWhitespace else ifsRuneNone.
(** [classifyIFSStringAt] of the text from its index on. *)
Definition classifyIFS (s : gostr) : ifsRuneType * nat :=
  match s with
  | [] => (ifsRuneNone, 0%nat)
  | b :: _ => let '(r, width) := DecodeRuneInString s in
              if (r =? RuneError) && (width =? 1)%nat then (classifyIFSByte b, 1%nat) else (classifyIFSRune r, width)
  end.
Definition classifyIFSStringAt (s : gostr) (start : nat) : ifsRuneType * nat := classifyIFS (drop start s).
Fixpoint hasIFS_loop (fuel : nat) (s : gostr) (i : nat) : bool :=
  match fuel with
  | O => false
  | S fuel => if (i <? length s)%nat then
                let '(rType, width) := classifyIFSStringAt s i in
                if decide (rType = ifsRuneNone) then hasIFS_loop fuel s (i + width) else true
              else false
  end.
Definition stringHasIFS (s : gostr) : bool := hasIFS_loop (length s) s 0.
Definition ifsJoin (strs : list gostr) : gostr := join (take 1 ifs) strs.

(** ** The splitter *)

Record fieldSplitter := MkSplitter {
  fields : list (list fieldPart);
  cur : list fieldPart;
  haveField : bool;
  curElideEmpty : bool;
  clusterStarted : bool;
  clusterPrev : bool;
  clusterNonWS : nat;
}.
Definition newFieldSplitter : fieldSplitter := MkSplitter [] [] false false false false 0.

Definition flushField (s : fieldSplitter) : fieldSplitter :=
  if negb (haveField s) then s
  else if decide (cur s = [] ∧ curElideEmpty s = true)
  then MkSplitter (fields s) [] false false (clusterStarted s) (clusterPrev s) (clusterNonWS s)
  else MkSplitter (fields s ++ [cur s]) [] false false (clusterStarted s) (clusterPrev s) (clusterNonWS s).
Definition finishCluster (s : fieldSplitter) : fieldSplitter :=
  if negb (clusterStarted s) then s
  else
    let empties := if clusterPrev s && (0 <? clusterNonWS s)%nat then (clusterNonWS s - 1)%nat else clusterNonWS s in
    MkSplitter (fields s ++ replicate empties []) (cur s) (haveField s) (curElideEmpty s) false false 0.
Definition set_field (c : list fieldPart) (elide : bool) (s : fieldSplitter) : fieldSplitter :=
  MkSplitter (fields s) c true elide (clusterStarted s) (clusterPrev s) (clusterNonWS s).
Definition ensureField (s : fieldSplitter) : fieldSplitter := let s := finishCluster s in set_field (cur s) false s.
Definition appendPart (part : fieldPart) (s : fieldSplitter) : fieldSplitter :=
  let s := finishCluster s in set_field (cur s ++ [part]) false s.
Definition startCluster (s : fieldSplitter) : fieldSplitter :=
  if clusterStarted s then s
  else
    let prev := haveField s in
    let s := if prev then flushField s else s in
    MkSplitter (fields s) (cur s) (haveField s) (curElideEmpty s) true prev (clusterNonWS s).
Definition count_nonWS (s : fieldSplitter) : fieldSplitter :=
  MkSplitter (fields s) (cur s) (haveField s) (curElideEmpty s) (clusterStarted s) (clusterPrev s) (S (clusterNonWS s)).

(** The loop of [appendUnquoted]. *)
Fixpoint unquoted_loop (fuel : nat) (v : gostr) (start i : nat) (s : fieldSplitter) : fieldSplitter :=
  let rest := if (start <? length v)%nat then appendPart (plain_part (drop start v)) s else s in
  match fuel with
  | O => rest
  | S fuel =>
      if (i <? length v)%nat then
        let '(rType, width) := classifyIFSStringAt v i in
        if decide (rType = ifsRuneNone) then unquoted_loop fuel v start (i + width) s
        else
          let s := if (start <? i)%nat then appendPart (plain_part (slice start i v)) s else s in
          let s := startCluster s in
          let s := if decide (rType = ifsRuneNonWhitespace) then count_nonWS s else s in
          unquoted_loop fuel v (i + width) (i + width) s
      else rest
  end.
Definition appendUnquoted (v : gostr) (s : fieldSplitter) : fieldSplitter :=
  if decide (v = []) then s else unquoted_loop (length v) v 0 0 s.
Definition append_field_part (s : fieldSplitter) (part : fieldPart) : fieldSplitter :=
  if decide (quote part = quoteNone) then appendUnquoted (val part) s else appendPart part s.
Definition appendFieldParts (parts : list fieldPart) (s : fieldSplitter) : fieldSplitter := foldl append_field_part s parts.

(** One turn of the loop of [appendSplitFields]. *)
Definition append_split_field (elideEmpty : bool) (s : fieldSplitter) (field : list fieldPart) : fieldSplitter :=
  if decide (field = []) then
    set_field (cur s) (if haveField s then curElideEmpty s else elideEmpty) s
  else set_field (cur s ++ field) false s.
Definition appendSplitFields (fs : list (list fieldPart)) (elideEmpty : bool) (s : fieldSplitter) : fieldSplitter :=
  let s := finishCluster s in
  match fs with
  | [] => s
  | field :: rest =>
      foldl (fun s field => append_split_field elideEmpty (flushField s) field) (append_split_field elideEmpty s field) rest
  end.
Definition finish (s : fieldSplitter) : list (list fieldPart) := fields (flushField (finishCluster s)).

Definition splitFieldParts (parts : list fieldPart) : list (list fieldPart) := finish (appendFieldParts parts newFieldSplitter).

(** [elemsAsFields] and [splitElemsAsFields] of [param.go]. *)
Definition elemsAsFields (elems : list gostr) : list (list fieldPart) :=
  map (fun elem => if decide (elem = []) then [] else [plain_part elem]) elems.
Definition splitElemsAsFields (elems : list gostr) : list (list fieldPart) :=
  if bool_decide (ifs = []) || forallb (fun elem => bool_decide (elem = []) || negb (stringHasIFS elem)) elems
  then elemsAsFields elems
  else concat (map (fun elem =>
    let elemFields := splitFieldParts [plain_part elem] in
    if decide (elemFields = [] ∧ elem = []) then [[]] else elemFields) elems).

(** ** Reading *)

Record ReadFieldChar := MkChar { Value : ascii; Escaped : bool }.
Record readFieldSpan := MkSpan { sp_start : nat; sp_end : nat }.
Definition readFieldString (chars : list ReadFieldChar) (sp : readFieldSpan) : gostr :=
  map Value (slice (sp_start sp) (sp_end sp) chars).

(** The loop of [readIFSClass] that collects the bytes of one rune. *)
Fixpoint collect_rune (fuel : nat) (buf : gostr) (rest : list ReadFieldChar) : gostr :=
  match fuel, rest with
  | S fuel, c :: rest =>
      if Escaped c then buf
      else let buf := buf ++ [Value c] in if FullRune buf then buf else collect_rune fuel buf rest
  | _, _ => buf
  end.
Definition readClass (chars : list ReadFieldChar) : ifsRuneType * nat :=
  match chars with
  | [] => (ifsRuneNone, 0%nat)
  | c :: rest =>
      if Escaped c then (ifsRuneNone, 1%nat)
      else if byte_val (Value c) <? RuneSelf then (classifyIFSByte (Value c), 1%nat)
      else
        let '(r, width) := DecodeRuneInString (collect_rune 3 [Value c] rest) in
        if (r =? RuneError) && (width =? 1)%nat then (classifyIFSByte (Value c), 1%nat) else (classifyIFSRune r, width)
  end.
Definition readIFSClass (chars : list ReadFieldChar) (start : nat) : ifsRuneType * nat := readClass (drop start chars).

(** The loops over IFS white space, forward ([trimReadLeadingIFSWhitespace]) and backward. *)
Fixpoint skip_whitespace (fuel : nat) (chars : list ReadFieldChar) (start end_ : nat) : nat :=
  match fuel with
  | O => start
  | S fuel => if (start <? end_)%nat then
                let '(class, width) := readIFSClass chars start in
                if decide (class = ifsRuneWhitespace) then skip_whitespace fuel chars (start + width) end_ else start
              else start
  end.
Definition trimReadLeadingIFSWhitespace (chars : list ReadFieldChar) (start end_ : nat) : nat :=
  skip_whitespace (length chars) chars start end_.
Fixpoint trimReadTrailingIFSWhitespace (chars : list ReadFieldChar) (start end_ : nat) : nat :=
  match end_ with
  | O => O
  | S e => if (start <? end_)%nat then
             let '(class, width) := readIFSClass chars e in
             if decide (class = ifsRuneWhitespace ∧ width = 1%nat) then trimReadTrailingIFSWhitespace chars start e else end_
           else end_
  end.

(** The delimiter at an index, of the class and the width given: the index after it. *)
Definition after_delimiter (chars : list ReadFieldChar) (end_ i : nat) (class : ifsRuneType) (width : nat) : nat :=
  let skip i := skip_whitespace (length chars) chars i end_ in
  if decide (class = ifsRuneWhitespace) then
    let i := skip i in
    if (i <? end_)%nat then
      let '(nextClass, nextWidth) := readIFSClass chars i in
      if decide (nextClass = ifsRuneNonWhitespace) then skip (i + nextWidth)%nat else i
    else i
  else skip (i + width)%nat.
Fixpoint read_loop (fuel : nat) (chars : list ReadFieldChar) (end_ fieldStart i : nat) : list readFieldSpan :=
  let rest := if (fieldStart <? end_)%nat then [MkSpan fieldStart end_] else [] in
  match fuel with
  | O => rest
  | S fuel =>
      if (i <? end_)%nat then
        let '(class, width) := readIFSClass chars i in
        if decide (class = ifsRuneNone) then read_loop fuel chars end_ fieldStart (i + width)
        else let j := after_delimiter chars end_ i class width in MkSpan fieldStart i :: read_loop fuel chars end_ j j
      else rest
  end.
Definition read_bounds (chars : list ReadFieldChar) : nat * nat :=
  let start := trimReadLeadingIFSWhitespace chars 0 (length chars) in
  (start, trimReadTrailingIFSWhitespace chars start (length chars)).
Definition read_spans (chars : list ReadFieldChar) : list readFieldSpan :=
  let '(start, end_) := read_bounds chars in
  if (end_ <=? start)%nat then [] else read_loop (length chars) chars end_ start start.
(** [ReadFieldsFromChars]; [n] is -1 for all the fields, and 0 or more otherwise. *)
Definition ReadFieldsFromChars (chars : list ReadFieldChar) (n : Z) : list gostr :=
  let spans := read_spans chars in
  if n =? 0 then []
  else if (n =? -1) || (glen spans <=? n) then map (readFieldString chars) spans
  else match spans !! (Z.to_nat n - 1)%nat, list.last spans with
       | Some sp, Some last =>
           let combinedEnd := if (sp_start last =? sp_end last)%nat then (read_bounds chars).2 else sp_end last in
           map (readFieldString chars) (take (Z.to_nat n - 1) spans) ++ [readFieldString chars (MkSpan (sp_start sp) combinedEnd)]
       | _, _ => []
       end.

(** The characters of [ReadFields]. *)
Fixpoint read_chars (raw escaped : bool) (s : gostr) : list ReadFieldChar :=
  match s with
  | [] => []
  | c :: s =>
      if raw then MkChar c false :: read_chars raw escaped s
      else if escaped then MkChar c true :: read_chars raw false s
      else if Ascii.eqb c "\" then read_chars raw true s
      else MkChar c false :: read_chars raw escaped s
  end.
Definition ReadFields (s : gostr) (n : Z) (raw : bool) : list gostr := ReadFieldsFromChars (read_chars raw false s) n.
End ifs.
