(* ===== verification/FieldsSpec.v ===== *)
(** Field splitting as POSIX describes it, and as a machine on delimiters: the references for
    the splitter and for [read].

    A text is a list of atoms.  White space of [IFS] around a field is ignored; a delimiter is white space,
    or one other separator with the white space around it; a delimiter at the end starts no field. *)
From S2P Require Import Prelude.

(** ** Atoms *)

(** A piece of a field, a separator ([true] for white space), and the marks of the splitter's other
    operations: the start of a field that may be empty ([Opens elide]), a quoted part without text, the end
    of a field, and the end of a run of separators. *)
Inductive atom {A : Type} :=
| Chunk (a : A)
| Sep (ws : bool)
| Opens (elide : bool)
| Quoted
| Break
| Settle.
Arguments atom : clear implicits.

(** ** The grammar of POSIX *)

Section grammar.
Context {A : Type}.
Implicit Types (ats d rest : list (atom A)) (f : list A) (fs : list (list A)).

Definition spaces (k : nat) : list (atom A) := replicate k (Sep true).
(** A delimiter: white space, or a separator with the white space around it. *)
Inductive delimiter : bool → list (atom A) → Prop :=
| delimiter_ws k : (0 < k)%nat → delimiter true (spaces k)
| delimiter_sep j k : delimiter false (spaces j ++ Sep false :: spaces k).
Definition starts_sep (ws : bool) ats : Prop := ∃ rest, ats = Sep ws :: rest.
(** The fields of a text that starts with none of the white space. *)
Inductive Split : list (atom A) → list (list A) → Prop :=
| Split_nil : Split [] []
| Split_last f : f ≠ [] → Split (map Chunk f) [f]
| Split_cons f ws d rest fs :
    delimiter ws d →
    (f = [] → head d = Some (Sep false)) →
    (** The delimiter is the longest one. *)
    ¬ starts_sep true rest → (ws = true → ¬ starts_sep false rest) →
    Split rest fs →
    Split (map Chunk f ++ d ++ rest) (f :: fs).
Definition PosixSplit ats fs : Prop := ∃ k rest, ats = spaces k ++ rest ∧ ¬ starts_sep true rest ∧ Split rest fs.
End grammar.

(** ** The machine *)

(** Between fields: whether the delimiter so far is only white space behind a field; in a field: whether
    it is dropped when it stays empty. *)
Inductive state {A : Type} := Between (absorb : bool) | In (f : list A) (elide : bool).
Arguments state : clear implicits.

Section machine.
Context {A : Type}.
Implicit Types (st : state A) (ats : list (atom A)).

Definition close (f : list A) (elide : bool) : list (list A) :=
  match f with [] => if elide then [] else [[]] | _ => [f] end.
Definition closing st : list (list A) := match st with In f e => close f e | Between _ => [] end.
(** The fields that an atom ends, and the state behind it. *)
Definition step st (a : atom A) : list (list A) * state A :=
  match a, st with
  | Chunk a, In f _ => ([], In (f ++ [a]) false)
  | Chunk a, Between _ => ([], In [a] false)
  | Sep ws, In f e => (close f e, Between ws)
  | Sep true, Between absorb => ([], Between absorb)
  | Sep false, Between absorb => (if absorb then [] else [[]], Between false)
  | Opens e, Between _ => ([], In [] e)
  | Opens _, In _ _ => ([], st)
  | Quoted, Between _ => ([], In [] false)
  | Quoted, In f _ => ([], In f false)
  | Break, _ => (closing st, Between false)
  | Settle, Between _ => ([], Between false)
  | Settle, In _ _ => ([], st)
  end.
Fixpoint run st ats : list (list A) * state A :=
  match ats with
  | [] => ([], st)
  | a :: ats => let '(out, st1) := step st a in let '(out', st2) := run st1 ats in (out ++ out', st2)
  end.
Definition fields_from st ats : list (list A) := let '(out, st') := run st ats in out ++ closing st'.
Definition split_fields ats : list (list A) := fields_from (Between false) ats.

Lemma run_app st as1 as2 :
  run st (as1 ++ as2) = let '(out1, st1) := run st as1 in let '(out2, st2) := run st1 as2 in (out1 ++ out2, st2).
Proof.
  revert st. induction as1 as [|a as1 IH]; intros st; cbn [app run]; [by destruct (run st as2)|].
  destruct (step st a) as [out st1]. rewrite IH. destruct (run st1 as1) as [out1 st2]. destruct (run st2 as2) as [out2 st3].
  by rewrite (assoc_L (++)).
Qed.
Lemma fields_from_app st as1 as2 : fields_from st (as1 ++ as2) = (run st as1).1 ++ fields_from (run st as1).2 as2.
Proof.
  unfold fields_from. rewrite run_app. destruct (run st as1) as [out1 st1]. cbn [fst snd]. destruct (run st1 as2) as [out2 st2].
  by rewrite (assoc_L (++)).
Qed.
Lemma fields_from_cons st a ats : fields_from st (a :: ats) = (step st a).1 ++ fields_from (step st a).2 ats.
Proof.
  change (a :: ats) with ([a] ++ ats). rewrite fields_from_app. cbn [run]. destruct (step st a) as [out st1]. cbn [fst snd].
  by rewrite app_nil_r.
Qed.

(** ** The machine follows the grammar *)

Lemma run_chunks f g e : run (In f e) (map Chunk g) = ([], In (f ++ g) (if g is [] then e else false)).
Proof.
  revert f e. induction g as [|a g IH]; intros f e; cbn [map run step]; [by rewrite app_nil_r|].
  rewrite IH. rewrite <- (assoc_L (++)). cbn [app]. by destruct g.
Qed.
Lemma run_spaces absorb k : run (Between absorb) (spaces k) = ([], Between absorb).
Proof. induction k as [|k IH]; [done|]. cbn [spaces replicate run step]. fold (spaces (A := A) k). by rewrite IH. Qed.

Lemma absorb_irrelevant b ats : (∀ ws, ¬ starts_sep ws ats) → fields_from (Between b) ats = fields_from (Between false) ats.
Proof.
  intros H. destruct ats as [|a ats]; [done|]. rewrite !fields_from_cons. destruct a as [|ws|e| | |]; try done.
  by destruct (H ws); exists ats.
Qed.
Lemma fields_from_chunks b f ats : f ≠ [] → fields_from (Between b) (map Chunk f ++ ats) = fields_from (In f false) ats.
Proof.
  intros Hf. destruct f as [|a f]; [done|]. cbn [map app]. rewrite fields_from_cons. cbn [step fst snd app].
  rewrite fields_from_app, run_chunks. cbn [fst snd app]. by destruct f.
Qed.
Lemma fields_from_spaces b k ats : fields_from (Between b) (spaces k ++ ats) = fields_from (Between b) ats.
Proof. by rewrite fields_from_app, run_spaces. Qed.
Lemma close_nonempty (f : list A) e : f ≠ [] → close f e = [f].
Proof. by destruct f. Qed.
(** A delimiter behind a field closes it. *)
Lemma fields_from_delimiter f ws d rest :
  delimiter ws d → f ≠ [] → ¬ starts_sep true rest → (ws = true → ¬ starts_sep false rest) →
  fields_from (In f false) (d ++ rest) = f :: fields_from (Between false) rest.
Proof.
  intros Hd Hf Ht Hw. destruct Hd as [k Hk|j k].
  - destruct k as [|k]; [lia|]. cbn [spaces replicate app]. rewrite fields_from_cons. cbn [step fst snd]. fold (spaces (A := A) k).
    rewrite fields_from_spaces, close_nonempty by done. cbn [app]. f_equal. apply absorb_irrelevant. intros []; auto.
  - rewrite <- (assoc_L (++)). destruct j as [|j]; cbn [spaces replicate app].
    + rewrite fields_from_cons. cbn [step fst snd]. by rewrite fields_from_spaces, close_nonempty.
    + rewrite fields_from_cons. cbn [step fst snd]. fold (spaces (A := A) j). rewrite fields_from_spaces, close_nonempty by done.
      cbn [app]. rewrite fields_from_cons. cbn [step fst snd app]. by rewrite fields_from_spaces.
Qed.
Lemma Split_fields ats fs : Split ats fs → split_fields ats = fs.
Proof.
  unfold split_fields. induction 1 as [|f Hf|f ws d rest fs Hd Hhead Ht Hw _ IH]; [done| |].
  - rewrite <- (app_nil_r (map Chunk f)), fields_from_chunks by done. unfold fields_from. cbn. by rewrite close_nonempty.
  - destruct (decide (f = [])) as [->|Hf].
    + specialize (Hhead eq_refl). cbn [map app]. destruct Hd as [k Hk|j k].
      * destruct k; [lia|done].
      * destruct j as [|j]; [|done]. cbn [spaces replicate app]. rewrite fields_from_cons. cbn [step fst snd app].
        fold (spaces (A := A) k). by rewrite fields_from_spaces, IH.
    + rewrite fields_from_chunks by done. by rewrite (fields_from_delimiter _ ws), IH.
Qed.

(** Text has atoms of two kinds. *)
Definition textual (a : atom A) : Prop := match a with Chunk _ | Sep _ => True | _ => False end.
Lemma leading_chunks ats : Forall textual ats →
  ∃ f rest, ats = map Chunk f ++ rest ∧ Forall textual rest ∧ (rest = [] ∨ ∃ ws, starts_sep ws rest).
Proof.
  induction 1 as [|a ats Ha Hats IH]; [by exists [], []; auto|]. destruct a as [a|ws| | | |]; try done.
  - destruct IH as (f&rest&->&?&?). by exists (a :: f), rest.
  - exists [], (Sep ws :: ats). split_and!; [done|by constructor|]. right. by exists ws, ats.
Qed.
Lemma leading_spaces ats : Forall textual ats → ∃ k rest, ats = spaces k ++ rest ∧ ¬ starts_sep true rest ∧ Forall textual rest.
Proof.
  induction 1 as [|a ats Ha Hats IH]; [exists 0%nat, []; split_and!; [done|by intros []|done]|].
  destruct a as [a|ws| | | |]; try done.
  - exists 0%nat, (Chunk a :: ats). split_and!; [done|by intros []|by constructor].
  - destruct ws.
    + destruct IH as (k&rest&->&?&?). by exists (S k), rest.
    + exists 0%nat, (Sep false :: ats). split_and!; [done|by intros []|by constructor].
Qed.
(** The longest delimiter. *)
Lemma leading_delimiter ats ws0 : Forall textual ats → starts_sep ws0 ats →
  ∃ ws d rest, ats = d ++ rest ∧ delimiter ws d ∧ ¬ starts_sep true rest ∧ (ws = true → ¬ starts_sep false rest) ∧
    Forall textual rest ∧ (ws0 = false → head d = Some (Sep false)) ∧ (0 < length d)%nat.
Proof.
  intros Hats [tl Htl]. destruct (leading_spaces ats Hats) as (j&rest&Hj&Ht&Hrest).
  assert (starts_sep false rest ∨ ¬ starts_sep false rest) as [[tl' ->]|Hf].
  { destruct rest as [|[|[]| | | |] rest]; try (right; intros []; discriminate). left. by exists rest. }
  - inversion_clear Hrest as [|? ? _ Hrest']. destruct (leading_spaces tl' Hrest') as (k&rest'&->&Ht'&Hr').
    exists false, (spaces j ++ Sep false :: spaces k), rest'. split_and!; [|constructor|done|done|done| |rewrite length_app; cbn; lia].
    + by rewrite <- (assoc_L (++)).
    + intros ->. destruct j as [|j]; [done|]. rewrite Hj in Htl. cbn in Htl. by simplify_eq.
  - assert (0 < j)%nat as H0.
    { destruct j; [|lia]. cbn in Hj. rewrite Hj in Htl. destruct ws0; [destruct Ht|destruct Hf]; by exists tl. }
    exists true, (spaces j), rest. split_and!; [done|by constructor|done|done|done| |unfold spaces; by rewrite length_replicate].
    intros ->. destruct j; [lia|]. rewrite Hj in Htl. cbn in Htl. by simplify_eq.
Qed.
Lemma Split_exists ats : Forall textual ats → ¬ starts_sep true ats → ∃ fs, Split ats fs.
Proof.
  remember (length ats) as n eqn:Hn. assert (length ats ≤ n)%nat as Hle by lia. clear Hn. revert ats Hle.
  induction n as [|n IH]; intros ats Hle Hats Ht; [destruct ats; [by exists []; constructor|simpl in Hle; lia]|].
  destruct (leading_chunks ats Hats) as (f&rest&->&Hrest&[->|(ws0&Hs)]).
  - rewrite app_nil_r. destruct (decide (f = [])) as [->|]; [exists []; constructor|]. exists [f]. by constructor.
  - destruct (leading_delimiter rest ws0 Hrest Hs) as (ws&d&rest'&->&Hd&Ht'&Hw&Hr'&Hhead&Hlen).
    rewrite !length_app in Hle. destruct (IH rest' ltac:(lia) Hr' Ht') as (fs&Hfs). exists (f :: fs).
    apply (Split_cons f ws); try done. intros ->. apply Hhead. destruct ws0; [|done]. by destruct Ht.
Qed.
(** On text the machine is the grammar. *)
Lemma split_fields_posix ats fs : Forall textual ats → split_fields ats = fs ↔ PosixSplit ats fs.
Proof.
  intros Hats. split.
  - intros <-. destruct (leading_spaces ats Hats) as (k&rest&->&Ht&Hr). destruct (Split_exists rest Hr Ht) as (fs&Hfs).
    exists k, rest. split_and!; [done|done|]. unfold split_fields. rewrite fields_from_spaces. fold (split_fields rest).
    by rewrite (Split_fields _ _ Hfs).
  - intros (k&rest&->&_&Hfs). unfold split_fields. rewrite fields_from_spaces. by apply Split_fields.
Qed.
End machine.
