(* ===== verification/FieldsProps.v ===== *)
(** The splitter follows the machine: the loop over a text reads its units one by one, and every operation
    of the splitter is a run over the atoms that it stands for. *)
From S2P Require Import Prelude GoUtf8 GoUtf8Props Fields FieldsSpec.

(** ** Units *)

(** A text as the list of the runes, or of the single bytes, that a classification reads one after another. *)
Section units.
Context {A : Type} (classify : list A → ifsRuneType * nat).

Fixpoint units_from (fuel : nat) (s : list A) : list (ifsRuneType * list A) :=
  match fuel, s with
  | S fuel, _ :: _ => let '(t, w) := classify s in (t, take w s) :: units_from fuel (drop w s)
  | _, _ => []
  end.
Definition units (s : list A) : list (ifsRuneType * list A) := units_from (length s) s.

Hypothesis advances : ∀ a s, (1 ≤ (classify (a :: s)).2 ≤ S (length s))%nat.

Lemma advances_nonempty s : s ≠ [] → (1 ≤ (classify s).2 ≤ length s)%nat.
Proof. destruct s as [|a s]; [done|]. intros _. apply advances. Qed.
Lemma units_fuel n m s : (length s ≤ n)%nat → (length s ≤ m)%nat → units_from n s = units_from m s.
Proof.
  revert m s. induction n as [|n IH]; intros m s Hn Hm; [by destruct s; [destruct m|simpl in Hn; lia]|].
  destruct s as [|a s]; [by destruct m|]. destruct m as [|m]; [simpl in Hm; lia|]. cbn [units_from].
  pose proof (advances a s) as Ha. destruct (classify (a :: s)) as [t w]. cbn [snd] in Ha. f_equal.
  apply IH; rewrite length_drop; simpl in *; lia.
Qed.
Lemma units_cons s : s ≠ [] → units s = ((classify s).1, take (classify s).2 s) :: units (drop (classify s).2 s).
Proof.
  destruct s as [|a s]; [done|]. intros _. unfold units at 1. cbn [length units_from].
  pose proof (advances a s) as Ha. destruct (classify (a :: s)) as [t w]. cbn [fst snd] in *. f_equal.
  apply units_fuel; rewrite length_drop; simpl in *; lia.
Qed.
Lemma units_ind (P : list A → Prop) :
  P [] → (∀ s, s ≠ [] → P (drop (classify s).2 s) → P s) → ∀ s, P s.
Proof.
  intros H0 H s. remember (length s) as n eqn:Hn. assert (length s ≤ n)%nat as Hle by lia. clear Hn. revert s Hle.
  induction n as [|n IH]; intros s Hle; [by destruct s; [|simpl in Hle; lia]|].
  destruct s as [|a s]; [done|]. apply H; [done|]. apply IH. rewrite length_drop. pose proof (advances a s). simpl in *. lia.
Qed.
Lemma units_concat s : concat (map snd (units s)) = s.
Proof.
  induction s as [|s Hs IH] using units_ind; [done|]. rewrite units_cons by done. cbn [map concat snd]. by rewrite IH, take_drop.
Qed.
End units.

(** ** Atoms *)

Section atoms.
Context (ifs : gostr).

Lemma classifyIFS_advances b s : (1 ≤ (classifyIFS ifs (b :: s)).2 ≤ S (length s))%nat.
Proof.
  unfold classifyIFS. pose proof (decode_size b s). destruct (DecodeRuneInString (b :: s)) as [r w].
  destruct (_ && _); cbn [snd] in *; lia.
Qed.
Definition text_units (v : gostr) : list (ifsRuneType * gostr) := units (classifyIFS ifs) v.

Definition chunk_of (v : gostr) : list (atom fieldPart) := if decide (v = []) then [] else [Chunk (plain_part v)].
(** What the separators leave between them is one part; [acc] is what is read of it. *)
Fixpoint unit_atoms (acc : gostr) (us : list (ifsRuneType * gostr)) : list (atom fieldPart) :=
  match us with
  | [] => chunk_of acc
  | (t, u) :: us => if decide (t = ifsRuneNone) then unit_atoms (acc ++ u) us
                    else chunk_of acc ++ Sep (bool_decide (t = ifsRuneWhitespace)) :: unit_atoms [] us
  end.
Definition text_atoms (v : gostr) : list (atom fieldPart) := unit_atoms [] (text_units v).
Definition part_atoms (p : fieldPart) : list (atom fieldPart) := if decide (quote p = quoteNone) then text_atoms (val p) else [Chunk p].
Definition parts_atoms (ps : list fieldPart) : list (atom fieldPart) := concat (map part_atoms ps).
Definition field_atoms (elide : bool) (f : list fieldPart) : list (atom fieldPart) := match f with [] => [Opens elide] | _ => map Chunk f end.
Definition fields_atoms (elide : bool) (fs : list (list fieldPart)) : list (atom fieldPart) :=
  match fs with [] => [Settle] | f :: fs => Settle :: field_atoms elide f ++ concat (map (fun f => Break :: field_atoms elide f) fs) end.

(** ** The simulation *)

(** The state of the splitter for the fields of the machine so far and its state: the empty fields of a
    run of separators are still to come. *)
Definition represents (s : fieldSplitter) (out : list (list fieldPart)) (st : state fieldPart) : Prop :=
  match st with
  | In f e => s = MkSplitter out f true e false false 0
  | Between b =>
      (b = false ∧ s = MkSplitter out [] false false false false 0) ∨
      (∃ fs prev n, s = MkSplitter fs [] false false true prev n ∧ b = prev && (n =? 0)%nat ∧
         out = fs ++ replicate (if prev && (0 <? n)%nat then n - 1 else n)%nat [])
  end.
Definition implements (op : fieldSplitter → fieldSplitter) (ats : list (atom fieldPart)) : Prop :=
  ∀ s out st, represents s out st → represents (op s) (out ++ (run st ats).1) (run st ats).2.

Lemma implements_nil : implements (fun s => s) [].
Proof. intros s out st H. cbn [run fst snd]. by rewrite app_nil_r. Qed.
Lemma implements_app f g a b : implements f a → implements g b → implements (fun s => g (f s)) (a ++ b).
Proof.
  intros Hf Hg s out st H. apply Hf, Hg in H. rewrite run_app. destruct (run st a) as [out1 st1]. cbn [fst snd] in *.
  destruct (run st1 b) as [out2 st2]. cbn [fst snd] in *. by rewrite (assoc_L (++)).
Qed.
Lemma implements_step op a :
  (∀ s out st, represents s out st → represents (op s) (out ++ (step st a).1) (step st a).2) → implements op [a].
Proof. intros H s out st Hs. cbn [run]. specialize (H s out st Hs). destruct (step st a). cbn [fst snd] in *. by rewrite app_nil_r. Qed.
Lemma implements_ext f g ats : (∀ s, f s = g s) → implements f ats → implements g ats.
Proof. intros H Hf s out st Hs. rewrite <- H. by apply Hf. Qed.

(** What the splitter looks like when the run of separators is finished. *)
Definition settled (out : list (list fieldPart)) (st : state fieldPart) : fieldSplitter :=
  match st with In f e => MkSplitter out f true e false false 0 | Between _ => MkSplitter out [] false false false false 0 end.
Lemma finishCluster_settled s out st : represents s out st → finishCluster s = settled out st.
Proof. destruct st as [b|f e]; [intros [[_ ->]|(fs&prev&n&->&_&->)]|intros ->]; done. Qed.
Lemma implements_settle : implements finishCluster [Settle].
Proof.
  apply implements_step. intros s out st H. rewrite (finishCluster_settled _ _ _ H).
  destruct st; cbn; rewrite app_nil_r; [by left|done].
Qed.
Lemma implements_part p : implements (appendPart p) [Chunk p].
Proof.
  apply implements_step. intros s out st H. unfold appendPart. rewrite (finishCluster_settled _ _ _ H).
  destruct st; cbn; by rewrite app_nil_r.
Qed.
Lemma implements_ensure : implements ensureField [Quoted].
Proof.
  apply implements_step. intros s out st H. unfold ensureField. rewrite (finishCluster_settled _ _ _ H).
  destruct st; cbn; by rewrite app_nil_r.
Qed.
Lemma flushField_settled out f e : flushField (MkSplitter out f true e false false 0) = MkSplitter (out ++ close f e) [] false false false false 0.
Proof. unfold flushField. cbn [haveField negb cur curElideEmpty fields]. by destruct f, e; cbn; rewrite ?app_nil_r. Qed.
Lemma implements_sep (ws : bool) : implements (fun s : fieldSplitter => if ws then startCluster s else count_nonWS (startCluster s)) [Sep ws].
Proof.
  apply implements_step. intros s out st H. destruct st as [b|f e].
  - destruct H as [[-> ->]|(fs&prev&n&->&->&->)]; destruct ws; cbn.
    + right. exists out, false, 0%nat. by rewrite !app_nil_r.
    + right. by exists out, false, 1%nat.
    + right. exists fs, prev, n. cbn. by rewrite app_nil_r.
    + right. exists fs, prev, (S n). split_and!; [done|by destruct prev|]. destruct prev; cbn.
      * destruct n as [|n]; cbn; [by rewrite !app_nil_r|]. rewrite Nat.sub_0_r, <- (assoc_L (++)). f_equal.
        by rewrite <- replicate_S_end.
      * rewrite <- (assoc_L (++)). f_equal. by rewrite <- replicate_S_end.
  - cbn [represents] in H. subst s. unfold startCluster. cbn [clusterStarted haveField]. rewrite flushField_settled. destruct ws; cbn.
    + right. exists (out ++ close f e), true, 0%nat. cbn. by rewrite app_nil_r.
    + right. exists (out ++ close f e), true, 1%nat. cbn. by rewrite app_nil_r.
Qed.

(** ** Texts and fields *)

Lemma chunk_of_app acc ats : acc ≠ [] → chunk_of acc ++ ats = Chunk (plain_part acc) :: ats.
Proof. intros H. unfold chunk_of. by rewrite decide_False. Qed.
Lemma implements_chunk_of acc : implements (fun s : fieldSplitter => if decide (acc = []) then s else appendPart (plain_part acc) s) (chunk_of acc).
Proof. unfold chunk_of. case_decide; [apply implements_nil|apply implements_part]. Qed.

Lemma slice_nil (v : gostr) i j : (j ≤ length v)%nat → slice i j v = [] ↔ (j ≤ i)%nat.
Proof.
  intros Hj. unfold slice. split.
  - intros H%(f_equal length). rewrite length_take, length_drop in H. simpl in H. lia.
  - intros H. by replace (j - i)%nat with 0%nat by lia.
Qed.
Lemma slice_app (v : gostr) i j w : (i ≤ j)%nat → slice i (j + w) v = slice i j v ++ take w (drop j v).
Proof.
  intros Hij. unfold slice. replace (j + w - i)%nat with ((j - i) + w)%nat by lia.
  rewrite <- take_take_drop, drop_drop. do 3 f_equal. lia.
Qed.

Lemma implements_rest v start :
  implements (fun s : fieldSplitter => if (start <? length v)%nat then appendPart (plain_part (drop start v)) s else s) (chunk_of (drop start v)).
Proof.
  eapply implements_ext; [|apply implements_chunk_of]. intros s. cbn beta. destruct (Nat.ltb_spec start (length v)).
  - rewrite decide_False; [done|]. intros Hd%(f_equal length). rewrite length_drop in Hd. simpl in Hd. lia.
  - by rewrite decide_True by (apply drop_ge; lia).
Qed.
Lemma slice_to_end {A} (v : list A) i : slice i (length v) v = drop i v.
Proof. unfold slice. by rewrite take_ge by (rewrite length_drop; lia). Qed.

(** The loop of [appendUnquoted] from an index on. *)
Lemma implements_unquoted fuel v start i :
  (start ≤ i)%nat → (i ≤ length v)%nat → (length v - i ≤ fuel)%nat →
  implements (unquoted_loop ifs fuel v start i) (unit_atoms (slice start i v) (text_units (drop i v))).
Proof.
  revert start i. induction fuel as [|fuel IH]; intros start i Hsi Hi Hf.
  { assert (i = length v) as -> by lia. rewrite drop_all, slice_to_end. apply implements_rest. }
  destruct (decide (i = length v)) as [->|Hne].
  { rewrite drop_all, slice_to_end. cbn [unquoted_loop]. rewrite Nat.ltb_irrefl. apply implements_rest. }
  assert (drop i v ≠ []) as Hd by (intros Hd%(f_equal length); rewrite length_drop in Hd; simpl in Hd; lia).
  pose proof (advances_nonempty (classifyIFS ifs) classifyIFS_advances _ Hd) as Hw. rewrite length_drop in Hw.
  unfold text_units. rewrite units_cons by (done || apply classifyIFS_advances). rewrite drop_drop.
  intros s out st Hs. cbn [unquoted_loop]. rewrite (proj2 (Nat.ltb_lt i (length v))) by lia. unfold classifyIFSStringAt.
  destruct (classifyIFS ifs (drop i v)) as [t w]. cbn [fst snd unit_atoms] in *. case_decide as Ht.
  - rewrite <- slice_app by done. by apply IH; [lia..|].
  - change (Sep ?b :: ?l) with ([Sep b] ++ l).
    assert (implements (fun s => if (start <? i)%nat then appendPart (plain_part (slice start i v)) s else s) (chunk_of (slice start i v))) as Hchunk.
    { eapply implements_ext; [|apply implements_chunk_of]. intros s1. cbn beta.
      destruct (Nat.ltb_spec start i); [by rewrite decide_False by (rewrite slice_nil; lia)|by rewrite decide_True by (apply slice_nil; lia)]. }
    assert (implements (unquoted_loop ifs fuel v (i + w) (i + w)) (unit_atoms [] (text_units (drop (i + w) v)))) as Hloop.
    { rewrite <- (proj2 (slice_nil v (i + w) (i + w) ltac:(lia)) ltac:(lia)). apply IH; lia. }
    pose proof (implements_app _ _ _ _ Hchunk (implements_app _ _ _ _ (implements_sep (bool_decide (t = ifsRuneWhitespace))) Hloop) s out st Hs) as H.
    cbn beta in H. by destruct t.
Qed.
Lemma implements_text v : implements (appendUnquoted ifs v) (text_atoms v).
Proof.
  destruct (decide (v = [])) as [->|Hv]; [apply implements_nil|].
  intros s out st Hs. unfold appendUnquoted. destruct (decide (v = [])) as [|_]; [done|].
  exact (implements_unquoted (length v) v 0 0 ltac:(lia) ltac:(lia) ltac:(lia) s out st Hs).
Qed.
Lemma implements_parts parts : implements (appendFieldParts ifs parts) (parts_atoms parts).
Proof.
  induction parts as [|p parts IH]; [apply implements_nil|]. unfold parts_atoms. cbn [map concat].
  apply (implements_app (fun s => append_field_part ifs s p) (appendFieldParts ifs parts)); [|done].
  unfold append_field_part, part_atoms. case_decide; [apply implements_text|apply implements_part].
Qed.

(** One field of [appendSplitFields], when no run of separators is under way. *)
Lemma append_split_field_settled elide out st f :
  let s' := append_split_field elide (settled out st) f in
  ∃ g e, s' = settled (out ++ (run st (field_atoms elide f)).1) (In g e) ∧ (run st (field_atoms elide f)).2 = In g e.
Proof.
  cbn zeta. unfold append_split_field. destruct f as [|p f].
  - rewrite decide_True by done. destruct st as [b|g e]; cbn; rewrite app_nil_r; by eexists _, _.
  - rewrite decide_False by done. change (field_atoms elide (p :: f)) with (map Chunk (p :: f)).
    destruct st as [b|g e].
    + cbn [map run step]. rewrite run_chunks. cbn. rewrite app_nil_r. exists (p :: f), false. by destruct f.
    + rewrite run_chunks. cbn. rewrite app_nil_r. by eexists _, _.
Qed.
Lemma append_split_fields_settled elide fs out g e :
  ∃ g' e', foldl (fun s field => append_split_field elide (flushField s) field) (settled out (In g e)) fs =
      settled (out ++ (run (In g e) (concat (map (fun f => Break :: field_atoms elide f) fs))).1) (In g' e') ∧
    (run (In g e) (concat (map (fun f => Break :: field_atoms elide f) fs))).2 = In g' e'.
Proof.
  revert out g e. induction fs as [|f fs IH]; intros out g e; cbn [foldl map concat].
  { cbn. rewrite app_nil_r. by eexists _, _. }
  change (flushField (settled out (In g e))) with (flushField (MkSplitter out g true e false false 0)). rewrite flushField_settled.
  destruct (append_split_field_settled elide (out ++ close g e) (Between false) f) as (g1&e1&Hs&Hr). cbn [settled] in Hs. rewrite Hs.
  cbn [app run step closing]. rewrite run_app. destruct (run (Between false) (field_atoms elide f)) as [o1 st1]. cbn [fst snd] in *. subst st1.
  destruct (IH ((out ++ close g e) ++ o1) g1 e1) as (g2&e2&Hs2&Hr2). exists g2, e2.
  cbn [settled] in Hs2 |- *. rewrite Hs2. destruct (run (In g1 e1) _) as [o2 st2]. cbn [fst snd] in *. split; [|done].
  by rewrite <- !(assoc_L (++)).
Qed.
Lemma implements_split_fields fs elide : implements (appendSplitFields fs elide) (fields_atoms elide fs).
Proof.
  destruct fs as [|f fs]; [apply implements_settle|]. intros s out st Hs. unfold appendSplitFields. rewrite (finishCluster_settled _ _ _ Hs).
  cbn [fields_atoms run]. assert (∃ st1, step st Settle = ([], st1) ∧ settled out st = settled out st1) as (st1&->&->)
    by (destruct st; by eexists).
  destruct (append_split_field_settled elide out st1 f) as (g&e&->&Hr). rewrite run_app.
  destruct (run st1 (field_atoms elide f)) as [o1 st2]. cbn [fst snd] in *. subst st2.
  destruct (append_split_fields_settled elide fs (out ++ o1) g e) as (g2&e2&->&Hr2). destruct (run (In g e) _) as [o2 st2].
  cbn [fst snd app] in *. subst st2. by rewrite (assoc_L (++)).
Qed.

(** ** Any use of the splitter *)

Inductive splitter_op :=
| OpPart (p : fieldPart) | OpParts (ps : list fieldPart) | OpUnquoted (v : gostr) | OpFields (fs : list (list fieldPart)) (elide : bool) | OpEnsure.
Definition do_op (op : splitter_op) : fieldSplitter → fieldSplitter :=
  match op with
  | OpPart p => appendPart p
  | OpParts ps => appendFieldParts ifs ps
  | OpUnquoted v => appendUnquoted ifs v
  | OpFields fs elide => appendSplitFields fs elide
  | OpEnsure => ensureField
  end.
Definition op_atoms (op : splitter_op) : list (atom fieldPart) :=
  match op with
  | OpPart p => [Chunk p]
  | OpParts ps => parts_atoms ps
  | OpUnquoted v => text_atoms v
  | OpFields fs elide => fields_atoms elide fs
  | OpEnsure => [Quoted]
  end.
Lemma implements_ops ops : implements (fun s => foldl (fun s op => do_op op s) s ops) (concat (map op_atoms ops)).
Proof.
  induction ops as [|op ops IH]; [apply implements_nil|]. cbn [foldl map concat].
  apply (implements_app (do_op op) (fun s => foldl (fun s op => do_op op s) s ops)); [|done].
  destruct op; [apply implements_part|apply implements_parts|apply implements_text|apply implements_split_fields|apply implements_ensure].
Qed.
Lemma implements_finish op ats : implements op ats → finish (op newFieldSplitter) = split_fields ats.
Proof.
  intros H. specialize (H newFieldSplitter [] (Between false)). unfold split_fields, fields_from. destruct (run (Between false) ats) as [out st].
  cbn [fst snd app] in H. unfold finish. rewrite (finishCluster_settled _ out st) by (apply H; by left).
  destruct st; [cbn; by rewrite app_nil_r|]. cbn [settled]. by rewrite flushField_settled.
Qed.
Lemma parts_textual parts : Forall textual (parts_atoms parts).
Proof.
  assert (∀ acc, Forall textual (chunk_of acc)) as Hc by (intros acc; unfold chunk_of; case_decide; repeat constructor).
  assert (∀ us acc, Forall textual (unit_atoms acc us)) as Hu.
  { induction us as [|[t u] us IH]; intros acc; cbn [unit_atoms]; [apply Hc|]. case_decide; [apply IH|].
    apply Forall_app. split; [apply Hc|]. by constructor. }
  unfold parts_atoms. apply Forall_concat, Forall_map, list.Forall_forall. intros p _. unfold part_atoms.
  case_decide; [apply Hu|by repeat constructor].
Qed.
End atoms.
