(* ===== verification/ReadFields.v ===== *)
(** [ReadFieldsFromChars] follows the machine: its loops over indices read the units of the text one by one,
    and the spans that it collects are the fields of the machine. *)
From S2P Require Import Prelude GoUtf8 GoUtf8Props Fields FieldsSpec FieldsProps.

(** A unit of the text: its class and its characters. *)
Abbreviation read_unit := (ifsRuneType * list ReadFieldChar)%type.

(** ** Classes *)

Section read.
Context (ifs : gostr).

Lemma classify_ascii c : is_ascii c → classifyIFSRune ifs (byte_val c) = classifyIFSByte ifs c.
Proof.
  intros Hc. unfold classifyIFSRune, ifsWhitespaceRune, classifyIFSByte.
  assert (ifsRune ifs (byte_val c) = ifsByte ifs c) as -> by (by apply range_ascii). done.
Qed.

(** The bytes up to the first escaped one. *)
Fixpoint unescaped (chars : list ReadFieldChar) : gostr :=
  match chars with c :: rest => if Escaped c then [] else Value c :: unescaped rest | [] => [] end.
Lemma collect_rune_spec n buf rest :
  ∃ t, buf ++ unescaped rest = collect_rune n buf rest ++ t ∧
    (t = [] ∨ FullRune (collect_rune n buf rest) = true ∨ length (collect_rune n buf rest) = (length buf + n)%nat).
Proof.
  revert buf rest. induction n as [|n IH]; intros buf rest; cbn [collect_rune].
  { exists (unescaped rest). split; [done|]. right. right. lia. }
  destruct rest as [|c rest]; [exists []; auto|]. cbn [unescaped]. destruct (Escaped c); [exists []; auto|].
  destruct (FullRune (buf ++ [Value c])) eqn:Hf.
  - exists (unescaped rest). rewrite <- (assoc_L (++)). auto.
  - destruct (IH (buf ++ [Value c]) rest) as (t&Ht&Hor). rewrite <- (assoc_L (++)) in Ht. exists t. split; [done|].
    rewrite length_app in Hor. cbn [length] in Hor. destruct Hor as [|[|Hl]]; [auto..|]. right. right. lia.
Qed.
(** The class of a character is the class at the start of the bytes that are not escaped. *)
Lemma readClass_unescaped c rest :
  Escaped c = false → readClass ifs (c :: rest) = classifyIFS ifs (Value c :: unescaped rest).
Proof.
  intros He. unfold readClass, classifyIFS. rewrite He. destruct (Z.ltb_spec (byte_val (Value c)) RuneSelf) as [Ha|Ha].
  - rewrite decode_ascii by done. rewrite classify_ascii by done.
    destruct (Z.eqb_spec (byte_val (Value c)) RuneError) as [E|]; [|done]. unfold RuneSelf, RuneError in *. lia.
  - destruct (collect_rune_spec 3 [Value c] rest) as (t&Ht&Hor). cbn [app] in Ht. rewrite Ht.
    assert (DecodeRuneInString (collect_rune 3 [Value c] rest ++ t) = DecodeRuneInString (collect_rune 3 [Value c] rest)) as ->; [|done].
    destruct Hor as [->|[Hf|Hl]]; [by rewrite app_nil_r|by apply decode_full|].
    apply decode_full, FullRune_long. rewrite Hl. simpl. lia.
Qed.
Lemma length_unescaped chars : (length (unescaped chars) ≤ length chars)%nat.
Proof. induction chars as [|c chars IH]; [done|]. cbn [unescaped]. destruct (Escaped c); simpl; lia. Qed.
Lemma readClass_advances c chars : (1 ≤ (readClass ifs (c :: chars)).2 ≤ S (length chars))%nat.
Proof.
  destruct (Escaped c) eqn:He; [cbn [readClass]; rewrite He; simpl; lia|]. rewrite readClass_unescaped by done.
  pose proof (classifyIFS_advances ifs (Value c) (unescaped chars)). pose proof (length_unescaped chars). lia.
Qed.

(** A class depends on the characters that it reads. *)
Lemma classifyIFS_prefix u t : u ≠ [] → ((classifyIFS ifs (u ++ t)).2 ≤ length u)%nat → classifyIFS ifs u = classifyIFS ifs (u ++ t).
Proof.
  intros Hu. destruct u as [|b u]; [done|]. unfold classifyIFS. cbn [app]. intros Hw.
  rewrite (decode_prefix (b :: u) t Hu); [done|]. cbn [app]. destruct (DecodeRuneInString (b :: u ++ t)) as [r w].
  cbn [snd] in *. destruct (r =? RuneError); cbn [andb] in Hw; [|done]. destruct (Nat.eqb_spec w 1); [simpl; lia|done].
Qed.
Lemma unescaped_app u t : unescaped (u ++ t) = unescaped u ++ (if forallb (fun c => negb (Escaped c)) u then unescaped t else []).
Proof. induction u as [|c u IH]; [done|]. cbn [app unescaped forallb]. destruct (Escaped c); [done|]. cbn [negb andb app]. by rewrite IH. Qed.
Lemma length_unescaped_all u : forallb (fun c => negb (Escaped c)) u = true → length (unescaped u) = length u.
Proof. induction u as [|c u IH]; [done|]. cbn [forallb unescaped]. destruct (Escaped c); [done|]. cbn. intros H. by rewrite IH. Qed.
Lemma readClass_prefix u t : u ≠ [] → ((readClass ifs (u ++ t)).2 ≤ length u)%nat → readClass ifs u = readClass ifs (u ++ t).
Proof.
  destruct u as [|c u]; [done|]. intros _. cbn [app]. destruct (Escaped c) eqn:He; [cbn [readClass]; by rewrite He|].
  rewrite !readClass_unescaped by done. rewrite unescaped_app. change (Value c :: unescaped u ++ ?x) with ((Value c :: unescaped u) ++ x).
  destruct (forallb _ u) eqn:Hall; [|by rewrite app_nil_r]. intros Hw. apply classifyIFS_prefix; [done|]. cbn [length] in *.
  by rewrite length_unescaped_all.
Qed.

(** ** Units *)

Definition read_units (chars : list ReadFieldChar) : list read_unit := units (readClass ifs) chars.
(** The text of some units. *)
Definition ucat (us : list read_unit) : list ReadFieldChar := concat (map snd us).
Lemma ucat_app us vs : ucat (us ++ vs) = ucat us ++ ucat vs.
Proof. unfold ucat. by rewrite map_app, concat_app. Qed.

(** Read from their text on, with [post] behind it, the units are these. *)
Definition parsed (us : list read_unit) (post : list ReadFieldChar) : Prop := read_units (ucat us ++ post) = us ++ read_units post.
Lemma ucat_read_units chars : ucat (read_units chars) = chars.
Proof. apply units_concat, readClass_advances. Qed.
Lemma parsed_all chars : parsed (read_units chars) [].
Proof. unfold parsed. by rewrite app_nil_r, ucat_read_units, app_nil_r. Qed.
Lemma parsed_cons t u us post :
  parsed ((t, u) :: us) post → u ≠ [] ∧ readClass ifs (u ++ ucat us ++ post) = (t, length u) ∧ parsed us post.
Proof.
  unfold parsed. change (ucat ((t, u) :: us)) with (u ++ ucat us). rewrite <- (assoc_L (++)). set (s := u ++ ucat us ++ post).
  intros H. assert (s ≠ []) as Hs by (intros E; by rewrite E in H).
  unfold read_units at 1 in H. rewrite units_cons in H by (done || apply readClass_advances). cbn [app] in H.
  pose proof (advances_nonempty (readClass ifs) readClass_advances s Hs) as Hw.
  destruct (readClass ifs s) as [t' w] eqn:Hc. cbn [fst snd] in *. injection H as -> Hu Hd.
  assert (length u = w) as <-. { rewrite <- Hu, length_take. lia. }
  split_and!; [|done|]. { intros E. subst u. simpl in Hw. lia. }
  rewrite <- Hd. unfold s. by rewrite drop_app_length.
Qed.
Lemma parsed_app us vs post : parsed (us ++ vs) post → parsed vs post.
Proof. induction us as [|[t u] us IH]; [done|]. intros (_&_&H)%parsed_cons. by apply IH. Qed.
(** Whatever follows them. *)
Lemma parsed_prefix us vs post : parsed (us ++ vs) post → read_units (ucat us) = us.
Proof.
  induction us as [|[t u] us IH]; [done|]. cbn [app]. intros (Hu&Hc&H)%parsed_cons. change (ucat ((t, u) :: us)) with (u ++ ucat us).
  assert (u ++ ucat us ≠ []) as Hne by (by destruct u). rewrite ucat_app, <- (assoc_L (++)) in Hc.
  assert (readClass ifs (u ++ ucat us) = (t, length u)) as Hcl.
  { rewrite (readClass_prefix (u ++ ucat us) (ucat vs ++ post) Hne); rewrite <- (assoc_L (++)), Hc; [done|].
    cbn [snd]. rewrite length_app. lia. }
  unfold read_units. rewrite units_cons by (done || apply readClass_advances). rewrite Hcl. cbn [fst snd].
  rewrite take_app_length, drop_app_length. f_equal. by apply IH.
Qed.

(** A character that is never inside a unit. *)
Definition starter (c : ReadFieldChar) : Prop := Escaped c = true ∨ is_ascii (Value c).
Lemma lookup_unescaped u i d : forallb (fun c => negb (Escaped c)) u = true → unescaped u !! i = Some d → ∃ c, u !! i = Some c ∧ Value c = d.
Proof.
  revert i. induction u as [|c u IH]; intros i; [done|]. cbn [forallb unescaped]. destruct (Escaped c) eqn:He; [done|]. cbn.
  intros H Hi. destruct i as [|i]; [exists c; by simplify_eq/=|by apply IH].
Qed.
Lemma readClass_starter u c t : u ≠ [] → starter c → ((readClass ifs (u ++ c :: t)).2 ≤ length u)%nat.
Proof.
  destruct u as [|d u]; [done|]. intros _ Hc. cbn [app]. destruct (Escaped d) eqn:Hd; [cbn [readClass]; rewrite Hd; simpl; lia|].
  rewrite readClass_unescaped, unescaped_app by done. destruct (forallb _ u) eqn:Hall.
  - destruct Hc as [Hc|Hc]; cbn [unescaped].
    + rewrite Hc, app_nil_r. pose proof (classifyIFS_advances ifs (Value d) (unescaped u)).
      rewrite length_unescaped_all in H by done. cbn [length]. lia.
    + destruct (Escaped c) eqn:He.
      { rewrite app_nil_r. pose proof (classifyIFS_advances ifs (Value d) (unescaped u)). rewrite length_unescaped_all in H by done. cbn [length]. lia. }
      unfold classifyIFS. pose proof (decode_tail (Value d) (unescaped u ++ Value c :: unescaped t) (S (length u)) (Value c)) as Htail.
      destruct (DecodeRuneInString _) as [r w]. destruct (_ && _); cbn [snd] in *; [cbn [length]; lia|]. cbn [length].
      destruct (decide (w ≤ S (length u))%nat); [done|]. exfalso.
      assert (128 ≤ byte_val (Value c)); [|unfold is_ascii, RuneSelf in Hc; lia]. apply Htail; [lia|].
      change ((unescaped u ++ Value c :: unescaped t) !! length u = Some (Value c)).
      rewrite lookup_app_r, length_unescaped_all, Nat.sub_diag by (rewrite ?length_unescaped_all by done; lia || done). done.
  - rewrite app_nil_r. pose proof (classifyIFS_advances ifs (Value d) (unescaped u)). pose proof (length_unescaped u). cbn [length]. lia.
Qed.
(** The units of a text up to such a character. *)
Lemma parsed_starter s c t : starter c → parsed (read_units s) (c :: t).
Proof.
  intros Hc. unfold parsed, ucat, read_units. rewrite units_concat by apply readClass_advances.
  induction s as [|s Hs IH] using (units_ind (readClass ifs) readClass_advances); [done|].
  assert (s ++ c :: t ≠ []) as Hst by (by destruct s).
  rewrite (units_cons _ readClass_advances _ Hst), (units_cons _ readClass_advances s Hs).
  pose proof (readClass_starter s c t Hs Hc) as Hw. rewrite <- (readClass_prefix s (c :: t) Hs Hw).
  rewrite <- (readClass_prefix s (c :: t) Hs Hw) in Hw. cbn [app]. rewrite take_app_le, drop_app_le by lia. f_equal. exact IH.
Qed.

(** ** The loops *)

Definition unit_atom (p : read_unit) : atom (list ReadFieldChar) :=
  if decide (p.1 = ifsRuneNone) then Chunk p.2 else Sep (bool_decide (p.1 = ifsRuneWhitespace)).
Definition unit_list (us : list read_unit) : list (atom (list ReadFieldChar)) := map unit_atom us.
Lemma unit_list_textual us : Forall textual (unit_list us).
Proof. apply Forall_map, list.Forall_forall. intros [t u] _. unfold unit_atom. cbn. by case_decide. Qed.

Lemma class_at pre t u us post :
  parsed ((t, u) :: us) post → readIFSClass ifs (pre ++ ucat ((t, u) :: us) ++ post) (length pre) = (t, length u).
Proof.
  intros (_&Hc&_)%parsed_cons. unfold readIFSClass. rewrite drop_app_length. change (ucat ((t, u) :: us)) with (u ++ ucat us).
  by rewrite <- (assoc_L (++)).
Qed.
Lemma ucat_cons_length t u us : length (ucat ((t, u) :: us)) = (length u + length (ucat us))%nat.
Proof. change (ucat ((t, u) :: us)) with (u ++ ucat us). apply length_app. Qed.
(** One unit further. *)
Lemma shift_unit (pre : list ReadFieldChar) t u us post : pre ++ ucat ((t, u) :: us) ++ post = (pre ++ u) ++ ucat us ++ post.
Proof. change (ucat ((t, u) :: us)) with (u ++ ucat us). by rewrite <- !(assoc_L (++)). Qed.

Lemma skip_spec fuel pre us post :
  parsed us post → (length (ucat us) ≤ fuel)%nat →
  ∃ k ws us', us = ws ++ us' ∧ unit_list ws = spaces k ∧ ¬ starts_sep true (unit_list us') ∧
    skip_whitespace ifs fuel (pre ++ ucat us ++ post) (length pre) (length pre + length (ucat us)) = (length pre + length (ucat ws))%nat.
Proof.
  revert pre us. induction fuel as [|fuel IH]; intros pre us Hp Hf.
  { destruct us as [|[t u] us]; [|apply parsed_cons in Hp as (Hu&_); rewrite ucat_cons_length in Hf; destruct u; [done|simpl in Hf; lia]].
    exists 0%nat, [], []. split_and!; [done|done|by intros []|]. simpl. lia. }
  destruct us as [|[t u] us].
  { exists 0%nat, [], []. split_and!; [done|done|by intros []|]. cbn [skip_whitespace]. rewrite (proj2 (Nat.ltb_ge _ _)) by (simpl; lia). simpl. lia. }
  pose proof (class_at pre _ _ _ _ Hp) as Hc. pose proof (parsed_cons _ _ _ _ Hp) as (Hu&_&Hp'). cbn [skip_whitespace]. rewrite Hc.
  assert (0 < length u)%nat as Hul by (destruct u; [done|simpl; lia]). rewrite ucat_cons_length in Hf |- *.
  rewrite (proj2 (Nat.ltb_lt _ _)) by lia. case_decide as Ht.
  - subst t. destruct (IH (pre ++ u) us Hp' ltac:(lia)) as (k&ws&us'&->&Hws&Hus'&Hs).
    exists (S k), ((ifsRuneWhitespace, u) :: ws), us'. split_and!; [done|by cbn; f_equal|done|].
    rewrite shift_unit. rewrite ucat_cons_length. rewrite length_app in Hs. rewrite Nat.add_assoc, Hs. lia.
  - exists 0%nat, [], ((t, u) :: us). split_and!; [done|done| |simpl; lia]. intros [r Hr]. cbn in Hr. unfold unit_atom in Hr. cbn in Hr.
    destruct t; [done| |done]. by destruct Ht.
Qed.
Lemma spaces_forall us k : unit_list us = spaces k → starts_sep true (unit_list us) ∨ k = 0%nat.
Proof. destruct k; [by right|]. intros ->. left. by eexists. Qed.

(** The delimiter behind a field: its longest form. *)
Lemma after_delimiter_spec pre t u us post :
  parsed ((t, u) :: us) post → t ≠ ifsRuneNone →
  let chars := pre ++ ucat ((t, u) :: us) ++ post in
  ∃ ws d us', (t, u) :: us = d ++ us' ∧ delimiter ws (unit_list d) ∧ ¬ starts_sep true (unit_list us') ∧
    (ws = true → ¬ starts_sep false (unit_list us')) ∧ (t ≠ ifsRuneWhitespace → head (unit_list d) = Some (Sep false)) ∧
    after_delimiter ifs chars (length pre + length (ucat ((t, u) :: us))) (length pre) t (length u) = (length pre + length (ucat d))%nat.
Proof.
  intros Hp Ht chars. assert (∀ us, pre ++ ucat ((t, u) :: us) ++ post = chars → (length (ucat ((t, u) :: us)) ≤ length chars)%nat) as Hfuel.
  { intros vs <-. rewrite !length_app. lia. }
  unfold after_delimiter. case_decide as Hws.
  - subst t. destruct (skip_spec (length chars) pre _ post Hp (Hfuel us eq_refl)) as (k&ws&us'&Hus&Hk&Ht'&Hs0).
    fold chars in Hs0. rewrite Hs0.
    assert (0 < k)%nat as Hk0.
    { destruct k; [|lia]. destruct ws; [|done]. cbn in Hus. subst us'. destruct Ht'. by eexists. }
    destruct us' as [|[t2 u2] us2].
    { exists true, ws, []. rewrite Hk. split_and!; [done|by constructor|done|by intros _ []|done|]. rewrite Hus, app_nil_r.
      by rewrite Nat.ltb_irrefl. }
    rewrite Hus in Hp |- *. apply parsed_app in Hp as Hp2. pose proof (parsed_cons _ _ _ _ Hp2) as (Hu2&_&Hp3).
    assert (chars = (pre ++ ucat ws) ++ ucat ((t2, u2) :: us2) ++ post) as Hch.
    { unfold chars. by rewrite Hus, ucat_app, <- !(assoc_L (++)). }
    assert (readIFSClass ifs chars (length pre + length (ucat ws)) = (t2, length u2)) as ->.
    { rewrite Hch, <- length_app. by apply class_at. }
    rewrite ucat_app, length_app, (proj2 (Nat.ltb_lt _ _)) by (rewrite ucat_cons_length; destruct u2; [done|simpl; lia]).
    case_decide as Ht2.
    + subst t2. destruct (skip_spec (length chars) ((pre ++ ucat ws) ++ u2) us2 post Hp3) as (k2&ws2&us3&->&Hk2&Ht3&Hs).
      { rewrite Hch. rewrite !length_app, ucat_cons_length. lia. }
      exists false, (ws ++ (ifsRuneNonWhitespace, u2) :: ws2), us3. split_and!; [by rewrite <- (assoc_L (++))| |done|done|done|].
      { unfold unit_list in *. rewrite map_app, Hk. cbn [map]. rewrite Hk2. constructor. }
      rewrite <- (shift_unit _ ifsRuneNonWhitespace), <- Hch in Hs. rewrite !length_app in Hs. rewrite ucat_app, ucat_cons_length, length_app, ucat_cons_length.
      replace (length pre + (length (ucat ws) + (length u2 + length (ucat (ws2 ++ us3)))))%nat
        with (length pre + length (ucat ws) + length u2 + length (ucat (ws2 ++ us3)))%nat by lia. rewrite Hs. lia.
    + exists true, ws, ((t2, u2) :: us2). rewrite Hk. split_and!; [done|by constructor|done| |done|done].
      intros _ [r Hr]. cbn in Hr. unfold unit_atom in Hr. cbn in Hr. by destruct t2.
  - pose proof (parsed_cons _ _ _ _ Hp) as (Hu&_&Hp'). destruct t; try done.
    destruct (skip_spec (length chars) (pre ++ u) us post Hp') as (k&ws&us'&->&Hk&Ht'&Hs).
    { unfold chars. rewrite !length_app, ucat_cons_length. lia. }
    exists false, ((ifsRuneNonWhitespace, u) :: ws), us'. split_and!; [done| |done|done|done|].
    { change (unit_list ((ifsRuneNonWhitespace, u) :: ws)) with (Sep false :: unit_list ws). rewrite Hk. apply (delimiter_sep 0). }
    rewrite <- (shift_unit _ ifsRuneNonWhitespace) in Hs. rewrite length_app in Hs. rewrite !ucat_cons_length. rewrite Nat.add_assoc. fold chars in Hs. rewrite Hs. lia.
Qed.

(** ** The spans *)

Definition nones (fs : list (list ReadFieldChar)) : list read_unit := map (pair ifsRuneNone) fs.
Lemma ucat_nones fs : ucat (nones fs) = concat fs.
Proof. unfold ucat, nones. rewrite map_map. by rewrite map_id. Qed.
Lemma unit_list_nones fs : unit_list (nones fs) = map Chunk fs.
Proof. unfold unit_list, nones. rewrite map_map. done. Qed.

(** The spans of a text from an offset on, along the grammar. *)
Inductive spans_of : nat → list read_unit → list readFieldSpan → list (list (list ReadFieldChar)) → Prop :=
| spans_nil off : spans_of off [] [] []
| spans_last off fs : fs ≠ [] → spans_of off (nones fs) [MkSpan off (off + length (concat fs))] [fs]
| spans_cons off fs ws d us spans fields :
    delimiter ws (unit_list d) → (fs = [] → head (unit_list d) = Some (Sep false)) →
    ¬ starts_sep true (unit_list us) → (ws = true → ¬ starts_sep false (unit_list us)) →
    spans_of (off + length (concat fs) + length (ucat d)) us spans fields →
    spans_of off (nones fs ++ d ++ us) (MkSpan off (off + length (concat fs)) :: spans) (fs :: fields).
Lemma spans_of_split off us spans fields : spans_of off us spans fields → Split (unit_list us) fields.
Proof.
  induction 1 as [|off fs Hfs|off fs ws d us spans fields Hd Hh Ht Hw _ IH]; [constructor| |].
  - rewrite unit_list_nones. by constructor.
  - unfold unit_list in *. rewrite !map_app. change (map unit_atom (nones fs)) with (unit_list (nones fs)). rewrite unit_list_nones.
    by apply (Split_cons fs ws).
Qed.

Lemma delimiter_length ws d : delimiter ws (unit_list d) → d ≠ [].
Proof. intros Hd ->. inversion Hd as [k Hk E|j k E]; [by destruct k; [lia|]|by destruct j]. Qed.
Lemma end_span off fs post :
  parsed (nones fs) post →
  ∃ fields, spans_of off (nones fs) (if (off <? off + length (concat fs))%nat then [MkSpan off (off + length (concat fs))] else []) fields.
Proof.
  intros Hp. destruct fs as [|f fs]; [exists []; rewrite (proj2 (Nat.ltb_ge _ _)) by (simpl; lia); constructor|].
  apply parsed_cons in Hp as (Hf&_&_). exists [f :: fs]. rewrite (proj2 (Nat.ltb_lt _ _)); [by constructor|].
  cbn [concat]. rewrite length_app. destruct f; [done|simpl; lia].
Qed.
Lemma nones_app fs gs : nones (fs ++ gs) = nones fs ++ nones gs.
Proof. apply map_app. Qed.
Lemma read_loop_spans fuel pre fs us post :
  parsed (nones fs ++ us) post → (length (ucat us) ≤ fuel)%nat → (fs = [] → ¬ starts_sep true (unit_list us)) →
  ∃ fields, spans_of (length pre) (nones fs ++ us)
    (read_loop ifs fuel (pre ++ ucat (nones fs ++ us) ++ post) (length pre + length (ucat (nones fs ++ us)))
       (length pre) (length pre + length (concat fs))) fields.
Proof.
  revert pre fs us. induction fuel as [|fuel IH]; intros pre fs us Hp Hf Hws.
  all: destruct us as [|[t u] us];
    [rewrite app_nil_r, ucat_nones in *; cbn [read_loop]; rewrite ?Nat.ltb_irrefl; by apply (end_span _ _ post)|].
  all: pose proof (parsed_app _ _ _ Hp) as Hp1; pose proof (parsed_cons _ _ _ _ Hp1) as (Hu&_&Hp2);
    assert (0 < length u)%nat as Hul by (destruct u; [done|simpl; lia]); rewrite ucat_cons_length in Hf; try lia.
  set (chars := pre ++ ucat (nones fs ++ (t, u) :: us) ++ post).
  assert (chars = (pre ++ concat fs) ++ ucat ((t, u) :: us) ++ post) as Hch by (unfold chars; by rewrite ucat_app, ucat_nones, <- !(assoc_L (++))).
  assert (length pre + length (ucat (nones fs ++ (t, u) :: us)) = length (pre ++ concat fs) + length (ucat ((t, u) :: us)))%nat as Hend
    by (rewrite ucat_app, ucat_nones, !length_app; lia).
  cbn [read_loop]. rewrite Hend. rewrite (proj2 (Nat.ltb_lt (length pre + length (concat fs)) _)) by (rewrite length_app, ucat_cons_length; lia).
  rewrite <- (length_app pre). pose proof (class_at (pre ++ concat fs) _ _ _ _ Hp1) as Hc. rewrite <- Hch in Hc. rewrite Hc. case_decide as Ht.
  - subst t. assert (nones fs ++ (ifsRuneNone, u) :: us = nones (fs ++ [u]) ++ us) as Hall by (rewrite nones_app, <- (assoc_L (++)); done).
    unfold chars in *. rewrite Hall in *. rewrite <- Hend.
    destruct (IH pre (fs ++ [u]) us Hp ltac:(lia)) as [fields Hs]; [by destruct fs|]. exists fields.
    rewrite concat_app in Hs. cbn [concat] in Hs. rewrite app_nil_r, length_app in Hs. by rewrite length_app, <- Nat.add_assoc.
  - destruct (after_delimiter_spec (pre ++ concat fs) t u us post Hp1 Ht) as (ws&d&us'&Hus&Hd&Hnt&Hnw&Hhd&Hj).
    rewrite <- Hch in Hj. rewrite Hj. rewrite Hus in Hp |- *. clear Hend.
    pose proof (parsed_app _ _ _ (parsed_app _ _ _ Hp)) as Hp3. pose proof (delimiter_length _ _ Hd) as Hdn.
    assert (length u + length (ucat us) = length (ucat d) + length (ucat us'))%nat as Hl by (rewrite <- (ucat_cons_length t), Hus, ucat_app, length_app; done).
    assert (0 < length (ucat d))%nat as Hd0.
    { destruct d as [|[t1 u1] d]; [done|]. injection Hus as <- <- _. rewrite ucat_cons_length. lia. }
    destruct (IH (pre ++ concat fs ++ ucat d) [] us' Hp3 ltac:(lia)) as [fields Hs]; [done|]. exists (fs :: fields).
    rewrite length_app. apply (spans_cons _ _ ws); [done| |done|done|].
    { intros ->. apply Hhd. intros ->. destruct (Hws eq_refl). by eexists. }
    cbn [nones map app] in Hs. revert Hs. rewrite Hch, Hus, !length_app, !ucat_app, !length_app. cbn [concat length].
    rewrite !Nat.add_0_r, <- !(assoc_L (++)), !Nat.add_assoc. done.
Qed.
End read.
