(* ===== verification/ReadFieldsProps.v ===== *)
(** What [read] splits: its fields are the fields of the machine, and with a limit the last name gets
    the text of the fields that are left. *)
From S2P Require Import Prelude GoUtf8 GoUtf8Props Fields FieldsSpec FieldsProps ReadFields.

Section read.
Context (ifs : gostr).
Abbreviation read_units := (ReadFields.read_units ifs).
Abbreviation parsed := (ReadFields.parsed ifs).

(** ** White space at the end *)

Definition ws_char (c : ReadFieldChar) : Prop := Escaped c = false ∧ classifyIFSByte ifs (Value c) = ifsRuneWhitespace.
Lemma ws_char_ascii c : ws_char c → is_ascii (Value c).
Proof.
  intros [_ H]. unfold classifyIFSByte in H. destruct (ifsByte ifs (Value c) && blank (byte_val (Value c))) eqn:E; [|by destruct (ifsByte _ _)].
  apply andb_prop in E as [_ E]. unfold blank in E. unfold is_ascii, RuneSelf. rewrite !orb_true_iff, !Z.eqb_eq in E. lia.
Qed.
Lemma readClass_ws c rest : ws_char c → readClass ifs (c :: rest) = (ifsRuneWhitespace, 1%nat).
Proof.
  intros Hc. pose proof (ws_char_ascii c Hc) as Ha. destruct Hc as [He Hc]. unfold readClass. rewrite He.
  unfold is_ascii in Ha. by rewrite (proj2 (Z.ltb_lt _ _)), Hc by done.
Qed.
Lemma readClass_is_ws c rest : readClass ifs (c :: rest) = (ifsRuneWhitespace, 1%nat) → ws_char c.
Proof.
  destruct (Escaped c) eqn:He; [cbn [readClass]; by rewrite He|]. rewrite readClass_unescaped by done. unfold classifyIFS.
  destruct (decide (is_ascii (Value c))) as [Ha|Ha].
  - rewrite decode_ascii, classify_ascii by done. destruct (_ && _); intros [= H]; by split.
  - pose proof (decode_high (Value c) (unescaped rest) Ha) as Hh. destruct (DecodeRuneInString _) as [r w]. cbn [fst] in Hh.
    destruct (_ && _); intros [= H]; [by split|]. exfalso. unfold classifyIFSRune, ifsWhitespaceRune in H.
    destruct (ifsRune ifs r && blank r) eqn:E; [|by destruct (ifsRune ifs r)]. apply andb_prop in E as [_ E]. unfold blank in E.
    rewrite !orb_true_iff, !Z.eqb_eq in E. lia.
Qed.
Lemma ws_units chars : Forall ws_char chars → read_units chars = map (fun c => (ifsRuneWhitespace, [c])) chars.
Proof.
  induction 1 as [|c chars Hc _ IH]; [done|]. unfold ReadFields.read_units.
  rewrite units_cons by (done || apply readClass_advances). rewrite readClass_ws by done. cbn [fst snd take drop map]. by rewrite <- IH.
Qed.
Lemma ws_unit_list chars : Forall ws_char chars → unit_list (read_units chars) = spaces (length chars).
Proof. intros H. rewrite ws_units by done. clear H. induction chars as [|c chars IH]; [done|]. cbn in *. by f_equal. Qed.

Lemma trim_trailing chars start end_ :
  (start ≤ end_)%nat → (end_ ≤ length chars)%nat →
  let e := trimReadTrailingIFSWhitespace ifs chars start end_ in
  (start ≤ e ≤ end_)%nat ∧ Forall ws_char (slice e end_ chars).
Proof.
  assert (∀ i, slice i i chars = []) as Hself by (intros i; unfold slice; by rewrite Nat.sub_diag).
  induction end_ as [|e IH]; intros Hs He; cbn [trimReadTrailingIFSWhitespace]; [split; [lia|rewrite Hself; constructor]|].
  destruct (Nat.ltb_spec start (S e)) as [Hlt|]; [|split; [lia|rewrite Hself; constructor]].
  destruct (readIFSClass ifs chars e) as [class width] eqn:Hc. case_decide as Hw; [|split; [lia|rewrite Hself; constructor]].
  destruct Hw as [-> ->]. destruct (IH ltac:(lia) ltac:(lia)) as [Hle Hall]. split; [lia|].
  destruct (drop e chars) as [|c rest] eqn:Hd; [apply (f_equal length) in Hd; rewrite length_drop in Hd; simpl in Hd; lia|].
  unfold readIFSClass in Hc. rewrite Hd in Hc. apply readClass_is_ws in Hc. set (k := trimReadTrailingIFSWhitespace ifs chars start e) in *.
  assert (slice k (S e) chars = slice k e chars ++ [c]) as ->; [|apply Forall_app; auto].
  unfold slice. replace (S e - k)%nat with ((e - k) + 1)%nat by lia. rewrite <- take_take_drop, drop_drop.
  replace (k + (e - k))%nat with e by lia. by rewrite Hd.
Qed.

Lemma fields_from_trailing {A} (st : state A) ats k : fields_from st (ats ++ spaces k) = fields_from st ats.
Proof.
  rewrite fields_from_app. unfold fields_from at 2. destruct (run st ats) as [out st1]. cbn [fst snd]. f_equal.
  destruct k as [|k]; [done|]. destruct st1 as [b|f e].
  - unfold fields_from. rewrite run_spaces. done.
  - cbn [spaces replicate]. rewrite fields_from_cons. cbn [step fst snd]. fold (spaces (A := A) k). unfold fields_from. rewrite run_spaces.
    cbn. by rewrite app_nil_r.
Qed.

(** ** The spans *)

Definition char_fields (chars : list ReadFieldChar) : list (list (list ReadFieldChar)) := split_fields (unit_list (read_units chars)).
(** Two ways to cut the units of a text. *)
Lemma cut_units ws us U chars :
  ws ++ us = U ++ read_units chars → (length (ucat ws) ≤ length (ucat U))%nat → ∃ l, U = ws ++ l ∧ us = l ++ read_units chars.
Proof.
  intros H Hl. apply app_eq_app in H as (l&[[-> H]|[-> H]]); [|by exists l].
  exists []. rewrite ucat_app, length_app in Hl. assert (ucat l = []) as Hc by (destruct (ucat l); [done|simpl in Hl; lia]).
  assert (l = []) as ->; [|by rewrite !app_nil_r].
  destruct l as [|[t u] l]; [done|]. exfalso. assert (parsed ((t, u) :: l ++ us) []) as Hp.
  { change ((t, u) :: l ++ us) with (((t, u) :: l) ++ us). rewrite <- H. apply parsed_all. }
  apply parsed_cons in Hp as (Hu&_). by destruct u.
Qed.
Lemma read_spans_spec chars :
  ∃ lead us post, chars = lead ++ ucat us ++ post ∧ parsed us post ∧ Forall ws_char post ∧
    spans_of (length lead) us (read_spans ifs chars) (char_fields chars) ∧
    (read_spans ifs chars ≠ [] → (read_bounds ifs chars).2 = length lead + length (ucat us))%nat.
Proof.
  pose proof (ucat_read_units ifs chars) as Hall.
  destruct (skip_spec ifs (length chars) [] (read_units chars) [] (parsed_all ifs chars)) as (k&ws&us&Hus&Hk&Hnt&Hs); [by rewrite Hall|].
  cbn [app length Nat.add] in Hs. rewrite app_nil_r, Hall in Hs.
  unfold read_spans, read_bounds, trimReadLeadingIFSWhitespace. rewrite Hs. cbn [snd].
  assert (length (ucat ws) ≤ length chars)%nat as Hlen by (rewrite <- Hall, Hus, ucat_app, length_app; lia).
  destruct (trim_trailing chars (length (ucat ws)) (length chars) Hlen ltac:(lia)) as [He Hws].
  set (e := trimReadTrailingIFSWhitespace ifs chars (length (ucat ws)) (length chars)) in *. rewrite slice_to_end in Hws.
  assert (parsed (read_units (take e chars)) (drop e chars)) as Hp.
  { destruct (drop e chars) as [|c rest] eqn:Hd; [apply parsed_all|]. apply parsed_starter. right. apply ws_char_ascii. by inversion Hws. }
  assert (ws ++ us = read_units (take e chars) ++ read_units (drop e chars)) as Hsplit.
  { rewrite <- Hus. unfold ReadFields.parsed in Hp. rewrite ucat_read_units, take_drop in Hp. done. }
  assert (char_fields chars = split_fields (unit_list us)) as Hfields.
  { unfold char_fields, split_fields. rewrite Hus. unfold unit_list in *. rewrite map_app, Hk. apply fields_from_spaces. }
  assert (length (ucat (read_units (take e chars))) = e) as Htake by (rewrite ucat_read_units, length_take; lia).
  destruct (cut_units ws us _ _ Hsplit ltac:(lia)) as (l&HU&Hl). rewrite HU, ucat_app, length_app in Htake.
  assert (unit_list us = unit_list l ++ spaces (length (drop e chars))) as Hatoms.
  { rewrite Hl. unfold unit_list at 1. rewrite map_app. f_equal. by apply ws_unit_list. }
  assert (¬ starts_sep true (unit_list l)) as Hnl by (intros [r Hr]; destruct Hnt; rewrite Hatoms, Hr; by eexists).
  rewrite HU in Hp. apply parsed_app in Hp.
  assert (chars = ucat ws ++ ucat l ++ drop e chars) as Hch by (by rewrite (assoc_L (++)), <- ucat_app, <- HU, ucat_read_units, take_drop).
  assert (char_fields chars = split_fields (unit_list l)) as Hfl by (rewrite Hfields, Hatoms; apply fields_from_trailing).
  exists (ucat ws), l, (drop e chars). split_and!; [done|done|done| |by rewrite Htake].
  rewrite Hfl. destruct (Nat.leb_spec e (length (ucat ws))) as [Hempty|Hlt].
  - assert (l = []) as ->; [|constructor]. destruct l as [|[t u] l]; [done|]. exfalso. apply parsed_cons in Hp as (Hu&_).
    rewrite ucat_cons_length in Htake. destruct u; [done|simpl in Htake; lia].
  - destruct (read_loop_spans ifs (length chars) (ucat ws) [] l (drop e chars) Hp) as [fields Hsp]; [|done|].
    { apply (f_equal length) in Hch. rewrite !length_app in Hch. lia. }
    cbn [nones map app concat length] in Hsp. rewrite Nat.add_0_r, Htake, <- Hch in Hsp.
    by rewrite (Split_fields _ _ (spans_of_split _ _ _ _ Hsp)).
Qed.

(** The texts between the bounds of the spans. *)
Lemma slice_mid {A} (pre mid post : list A) : slice (length pre) (length pre + length mid) (pre ++ mid ++ post) = mid.
Proof. unfold slice. rewrite drop_app_length. replace (length pre + length mid - length pre)%nat with (length mid) by lia. apply take_app_length. Qed.
Lemma spans_text off us spans fields pre post :
  spans_of off us spans fields → off = length pre →
  map (fun sp => slice (sp_start sp) (sp_end sp) (pre ++ ucat us ++ post)) spans = map (@concat ReadFieldChar) fields.
Proof.
  intros H. revert pre. induction H as [|off fs _|off fs ws d us spans fields _ _ _ _ _ IH]; intros pre ->; [done| |].
  - cbn [map sp_start sp_end]. by rewrite ucat_nones, slice_mid.
  - cbn [map sp_start sp_end]. rewrite !ucat_app, ucat_nones, <- !(assoc_L (++)). f_equal; [by rewrite slice_mid|].
    specialize (IH (pre ++ concat fs ++ ucat d)). rewrite <- !(assoc_L (++)) in IH. apply IH. rewrite !length_app. lia.
Qed.
Definition texts (fields : list (list (list ReadFieldChar))) : list gostr := map (fun f => map Value (concat f)) fields.
Lemma read_all chars : ReadFieldsFromChars ifs chars (-1) = texts (char_fields chars).
Proof.
  destruct (read_spans_spec chars) as (lead&us&post&->&_&_&Hsp&_). unfold ReadFieldsFromChars. cbn [Z.eqb orb].
  change (-1 =? 0) with false. change (-1 =? -1) with true. cbn [orb]. set (chars := lead ++ ucat us ++ post) in *.
  unfold texts. rewrite <- (map_map (@concat ReadFieldChar) (map Value)). rewrite <- (spans_text _ _ _ _ lead post Hsp eq_refl).
  rewrite map_map. done.
Qed.

(** ** The limit *)

Lemma spans_length off us spans fields : spans_of off us spans fields → length spans = length fields.
Proof. induction 1; simpl; congruence. Qed.
(** The spans from one of them on are the spans of the rest of the text. *)
Lemma spans_suffix k off us spans fields sp :
  spans_of off us spans fields → spans !! k = Some sp →
  ∃ front rest, us = front ++ rest ∧ sp_start sp = (off + length (ucat front))%nat ∧
    spans_of (sp_start sp) rest (drop k spans) (drop k fields).
Proof.
  revert off us spans fields. induction k as [|k IH]; intros off us spans fields H Hk.
  - exists [], us. destruct H as [off|off fs Hne|off fs ws d us spans fields ? ? ? ? H]; [done| |]; simpl in Hk; injection Hk as <-;
      cbn [sp_start drop]; (split_and!; [done|simpl; lia|]); by econstructor.
  - destruct H as [off|off fs Hne|off fs ws d us spans fields ? ? ? ? H]; [done|done|].
    destruct (IH _ _ _ _ H Hk) as (front&rest&->&Hs&Hr). exists (nones fs ++ d ++ front), rest.
    rewrite <- !(assoc_L (++)). split_and!; [done| |done]. rewrite Hs, !ucat_app, ucat_nones, !length_app. lia.
Qed.
Definition separators (us : list read_unit) : Prop := Forall (fun p => p.1 ≠ ifsRuneNone) us.
Lemma delimiter_separators ws d : delimiter ws (unit_list d) → separators d.
Proof.
  set (is_sep := fun a : atom (list ReadFieldChar) => match a with Sep _ => true | _ => false end).
  assert (∀ k, forallb is_sep (spaces k) = true) as Hs by (by induction k).
  intros Hd. assert (forallb is_sep (unit_list d) = true) as H by (destruct Hd; rewrite ?forallb_app; cbn; rewrite ?Hs; done).
  clear Hd. induction d as [|[t u] d IH]; [constructor|]. cbn in H. apply andb_prop in H as [Ht H]. constructor; [|by apply IH].
  cbn. intros ->. done.
Qed.
(** The text up to the end of the last span, or all of it when that one is empty, has the same fields. *)
Lemma spans_last off us spans fields sp :
  spans_of off us spans fields → list.last spans = Some sp →
  ∃ front rest, us = front ++ rest ∧ separators rest ∧ Split (unit_list front) fields ∧
    if (sp_start sp =? sp_end sp)%nat then rest = [] else sp_end sp = (off + length (ucat front))%nat.
Proof.
  intros H. induction H as [off|off fs Hne|off fs ws d us spans fields Hd Hh Ht Hw H IH]; intros Hl; [done| |].
  - injection Hl as <-. cbn [sp_start sp_end]. exists (nones fs), []. rewrite app_nil_r, ucat_nones. split_and!; [done|constructor| |by case_match].
    rewrite unit_list_nones. by constructor.
  - destruct spans as [|sp2 spans].
    + injection Hl as <-. cbn [sp_start sp_end]. pose proof (spans_length _ _ _ _ H) as Hlen. destruct fields; [|done].
      assert (us = []) as -> by (by inversion H). rewrite app_nil_r. destruct (Nat.eqb_spec off (off + length (concat fs))) as [Heq|Hneq].
      * exists (nones fs ++ d), []. rewrite app_nil_r. split_and!; [done|constructor| |done].
        pose proof (Split_cons fs ws _ [] [] Hd Hh Ht Hw Split_nil) as Hsplit. rewrite app_nil_r in Hsplit. unfold unit_list in *.
        rewrite map_app. change (map unit_atom (nones fs)) with (unit_list (nones fs)). by rewrite unit_list_nones.
      * exists (nones fs), d. rewrite ucat_nones, unit_list_nones. split_and!; [done|by eapply delimiter_separators| |done].
        constructor. intros ->. simpl in Hneq. lia.
    + destruct (IH Hl) as (front&rest&->&Hsep&Hsplit&Hend). exists (nones fs ++ d ++ front), rest.
      rewrite <- !(assoc_L (++)). assert (∀ b, ¬ starts_sep b (unit_list (front ++ rest)) → ¬ starts_sep b (unit_list front)) as Hpre.
      { intros b Hb [r Hr]. destruct Hb. exists (r ++ unit_list rest). unfold unit_list in *. by rewrite map_app, Hr. }
      split_and!; [done|done| |].
      * pose proof (Split_cons fs ws _ _ _ Hd Hh (Hpre _ Ht) (λ E, Hpre _ (Hw E)) Hsplit) as Hall. unfold unit_list in *.
        rewrite !map_app. change (map unit_atom (nones fs)) with (unit_list (nones fs)). by rewrite unit_list_nones.
      * destruct (_ =? _)%nat; [done|]. rewrite Hend, !ucat_app, ucat_nones, !length_app. lia.
Qed.

Lemma last_drop {A} k (l : list A) x : l !! k = Some x → list.last (drop k l) = list.last l.
Proof.
  intros Hk. rewrite <- (take_drop k l) at 2. rewrite last_app. destruct (list.last (drop k l)) eqn:E; [done|].
  apply last_None in E. apply lookup_lt_Some in Hk. apply (f_equal length) in E. rewrite length_drop in E. simpl in E. lia.
Qed.
Lemma read_limit chars n :
  0 < n < glen (char_fields chars) →
  ∃ front rest back, chars = front ++ rest ++ back ∧ separators (read_units back) ∧
    ReadFieldsFromChars ifs chars n = take (Z.to_nat n - 1) (texts (char_fields chars)) ++ [map Value rest] ∧
    texts (char_fields rest) = drop (Z.to_nat n - 1) (texts (char_fields chars)).
Proof.
  intros Hn. destruct (read_spans_spec chars) as (lead&us&post&Hch&Hp&Hpost&Hsp&Hbound).
  pose proof (spans_length _ _ _ _ Hsp) as Hlen. unfold glen in Hn. set (spans := read_spans ifs chars) in *.
  destruct (spans !! (Z.to_nat n - 1)%nat) as [sp|] eqn:Hk; [|apply lookup_ge_None in Hk; lia].
  destruct (list.last spans) as [sp2|] eqn:Hlast; [|apply last_None in Hlast; rewrite Hlast in Hk; done].
  destruct (spans_suffix _ _ _ _ _ _ Hsp Hk) as (front&rest0&Hus&Hstart&Hrest).
  destruct (spans_last _ _ _ _ sp2 Hrest) as (rest&back&->&Hsep&Hsplit&Hend); [by rewrite (last_drop _ _ sp)|].
  subst us. rewrite !ucat_app in Hch. pose proof (parsed_app _ _ _ _ Hp) as Hp2.
  exists (lead ++ ucat front), (ucat rest), (ucat back ++ post).
  assert (chars = (lead ++ ucat front) ++ ucat rest ++ ucat back ++ post) as Hch2 by (rewrite Hch; by rewrite <- !(assoc_L (++))).
  split_and!; [done| | |].
  - assert (read_units (ucat back ++ post) = back ++ read_units post) as -> by exact (parsed_app _ _ _ _ Hp2).
    apply Forall_app. split; [done|]. rewrite ws_units by done. by apply Forall_map, list.Forall_forall.
  - unfold ReadFieldsFromChars. fold spans. rewrite (proj2 (Z.eqb_neq n 0)), (proj2 (Z.eqb_neq n (-1))) by lia.
    unfold glen. rewrite (proj2 (Z.leb_gt _ _)) by lia. cbn [orb]. rewrite Hk, Hlast. f_equal.
    + unfold texts. rewrite <- !map_take || idtac. rewrite <- (map_map (@concat ReadFieldChar) (map Value)).
      rewrite <- (spans_text _ _ _ _ lead post Hsp eq_refl), map_map. rewrite !ucat_app, <- Hch. unfold readFieldString. by rewrite !firstn_map.
    + f_equal. unfold readFieldString. cbn [sp_start sp_end]. f_equal.
      assert ((if (sp_start sp2 =? sp_end sp2)%nat then (read_bounds ifs chars).2 else sp_end sp2) = (sp_start sp + length (ucat rest))%nat) as ->.
      { destruct (_ =? _)%nat; [|done]. subst back. rewrite Hbound by (by intros E; rewrite E in Hk). rewrite !ucat_app, !length_app. simpl. lia. }
      rewrite Hstart, <- length_app. rewrite Hch2 at 1. by rewrite slice_mid.
  - assert (read_units (ucat rest) = rest) as Hr.
    { unfold ReadFields.parsed in *. by apply (parsed_prefix ifs rest back post). }
    unfold char_fields at 1. rewrite Hr. rewrite (Split_fields _ _ Hsplit). unfold texts. by rewrite skipn_map.
Qed.

(** ** Reading and word splitting *)

Definition part_text (f : list fieldPart) : gostr := concat (map val f).
Definition char_text (f : list (list ReadFieldChar)) : gostr := map Value (concat f).
(** The states of the two machines when [acc] is what one of them has not taken as a part yet. *)
Definition in_step (acc : gostr) (st1 : state fieldPart) (st2 : state (list ReadFieldChar)) : Prop :=
  match st1, st2 with
  | Between b, Between b' => b = b' ∧ acc = []
  | Between _, In f2 e2 => acc ≠ [] ∧ e2 = false ∧ char_text f2 = acc
  | In f1 e1, In f2 e2 => e1 = false ∧ e2 = false ∧ char_text f2 = part_text f1 ++ acc
  | In _ _, Between _ => False
  end.
Definition unescaped_unit (p : ifsRuneType * gostr) : read_unit := (p.1, map (fun c => MkChar c false) p.2).
Lemma in_step_chunk acc st1 st2 :
  in_step acc st1 st2 →
  (run st1 (chunk_of acc)).1 = [] ∧ in_step [] (run st1 (chunk_of acc)).2 st2.
Proof.
  intros H. unfold chunk_of. case_decide as Hacc.
  - split; [done|]. cbn. subst acc. done.
  - cbn. destruct st1 as [b|f1 e1], st2 as [b'|f2 e2]; cbn in *; try tauto; (split; [done|]); cbn.
    + destruct H as (_&->&H). split_and!; [done..|]. unfold part_text. cbn. by rewrite !app_nil_r.
    + destruct H as (->&->&H). split_and!; [done..|]. unfold part_text in *. rewrite map_app, concat_app. cbn. by rewrite !app_nil_r.
Qed.
Lemma char_text_app f g : char_text (f ++ g) = char_text f ++ char_text g.
Proof. unfold char_text. by rewrite concat_app, map_app. Qed.
Lemma char_text_one c u : char_text [map (fun c => MkChar c false) (c :: u)] = c :: u.
Proof. unfold char_text. cbn [concat]. rewrite app_nil_r, map_map. cbn. f_equal. apply map_id. Qed.
Lemma machines_agree us acc st1 st2 :
  Forall (fun p => p.2 ≠ []) us → in_step acc st1 st2 →
  map part_text (fields_from st1 (unit_atoms acc us)) = map char_text (fields_from st2 (unit_list (map unescaped_unit us))).
Proof.
  intros Hus. revert acc st1 st2. induction Hus as [|[t u] us Hu _ IH]; intros acc st1 st2 H; cbn [unit_atoms map unit_list].
  - apply in_step_chunk in H as [Hout H]. rewrite <- (app_nil_r (chunk_of acc)), fields_from_app, Hout. cbn [app].
    destruct (run st1 (chunk_of acc)) as [out st]. cbn [snd] in *. unfold fields_from. cbn.
    destruct st as [b|f1 e1], st2 as [b'|f2 e2]; cbn in *; try tauto.
    destruct H as (->&->&H). rewrite app_nil_r in H. unfold close. destruct f1, f2; cbn in *; by rewrite ?H.
  - fold (unit_list (map unescaped_unit us)). case_decide as Ht.
    + subst t. change (unit_atom (unescaped_unit (ifsRuneNone, u))) with (Chunk (map (fun c => MkChar c false) u)).
      rewrite fields_from_cons. destruct u as [|c u]; [done|]. assert (acc ++ c :: u ≠ []) as Hne by (by destruct acc).
      destruct st2 as [b'|f2 e2]; cbn [step fst snd app]; apply IH; destruct st1 as [b|f1 e1]; cbn in *; try tauto.
      * destruct H as (->&->). split_and!; [done|done|]. apply char_text_one.
      * destruct H as (_&->&H). split_and!; [done|done|]. rewrite char_text_app, H. f_equal. apply char_text_one.
      * destruct H as (->&->&H). split_and!; [done|done|]. rewrite char_text_app, H, <- (assoc_L (++)). do 2 f_equal. apply char_text_one.
    + change (unit_atom (unescaped_unit (t, u))) with (unit_atom (t, map (fun c => MkChar c false) u)). unfold unit_atom at 1. cbn [fst].
      rewrite decide_False by done. apply in_step_chunk in H as [Hout H]. rewrite fields_from_app, Hout. cbn [app].
      destruct (run st1 (chunk_of acc)) as [out st]. cbn [snd] in *. rewrite !fields_from_cons, !map_app.
      destruct st as [b|f1 e1], st2 as [b'|f2 e2]; cbn in H; try tauto.
      * destruct H as (->&_). destruct (bool_decide _); cbn [step fst snd]; [by apply IH|]. f_equal; [by destruct b'|by apply IH].
      * destruct H as (->&->&H). rewrite app_nil_r in H.
        assert (map part_text (close f1 false) = map char_text (close f2 false)) as Hc by (unfold close; destruct f1, f2; cbn in *; by rewrite ?H).
        destruct (bool_decide _); cbn [step fst snd]; rewrite Hc; f_equal; by apply IH.
Qed.
End read.
