(* ===== verification/FieldsTheorems.v ===== *)
(** Field splitting: the theorems. *)
From S2P Require Import Prelude GoUtf8 GoUtf8Props Fields FieldsSpec FieldsProps ReadFields ReadFieldsProps.

Section theorems.
Context (ifs : gostr).

(** ** Word expansion *)

(** C31: the splitter implements the field splitting of POSIX: the fields that parts of a word split into
    are exactly those that the grammar gives to the atoms of the parts - quoted parts and runs of
    other characters between separators -, with white space of [IFS] ignored at both ends, a delimiter
    of white space or of one other separator with the white space around it, and no empty field behind
    the last delimiter.  Any sequence of the splitter's operations gives the fields of the machine. *)
Theorem splitFieldParts_posix :
  (∀ parts fs, splitFieldParts ifs parts = fs ↔ PosixSplit (parts_atoms ifs parts) fs) ∧
  (∀ ops, finish (foldl (fun s op => do_op ifs op s) newFieldSplitter ops) = split_fields (concat (map (op_atoms ifs) ops))).
Proof.
  split.
  - intros parts fs. rewrite <- split_fields_posix by apply parts_textual. unfold splitFieldParts.
    by rewrite (implements_finish _ _ (implements_parts ifs parts)).
  - intros ops. apply (implements_finish (fun s => foldl (fun s op => do_op ifs op s) s ops)), implements_ops.
Qed.

(** ** Reading *)

(** C32: [ReadFieldsFromChars] implements the same grammar: without a limit it returns the fields of the
    characters, where an escaped character belongs to a field whatever it is.  With a limit of [n] names
    and more fields than that, the first [n - 1] fields are returned as they are, and the last is a
    contiguous piece of the text behind which only separators are left and that splits into the
    fields that remain. *)
Theorem ReadFieldsFromChars_posix chars :
  (∃ fs, PosixSplit (unit_list (read_units ifs chars)) fs ∧
     ReadFieldsFromChars ifs chars (-1) = map char_text fs) ∧
  (∀ n, glen (ReadFieldsFromChars ifs chars (-1)) <= n → 0 < n → ReadFieldsFromChars ifs chars n = ReadFieldsFromChars ifs chars (-1)) ∧
  (∀ n, 0 < n < glen (ReadFieldsFromChars ifs chars (-1)) →
     ∃ front rest back, chars = front ++ rest ++ back ∧ separators (read_units ifs back) ∧
       ReadFieldsFromChars ifs chars n = take (Z.to_nat n - 1) (ReadFieldsFromChars ifs chars (-1)) ++ [map Value rest] ∧
       ReadFieldsFromChars ifs rest (-1) = drop (Z.to_nat n - 1) (ReadFieldsFromChars ifs chars (-1))).
Proof.
  rewrite read_all. split_and!.
  - exists (char_fields ifs chars). split; [|done]. apply split_fields_posix; [apply unit_list_textual|done].
  - intros n Hn Hpos. rewrite <- read_all in *. unfold ReadFieldsFromChars in *. revert Hn. change (-1 =? 0) with false.
    change (-1 =? -1) with true. cbn [orb]. unfold glen. rewrite length_map. intros Hn.
    rewrite (proj2 (Z.eqb_neq n 0)), (proj2 (Z.leb_le _ _) Hn), orb_true_r by lia. done.
  - intros n Hn. unfold texts, glen in Hn. rewrite length_map in Hn.
    destruct (read_limit ifs chars n Hn) as (front&rest&back&?&?&?&?). exists front, rest, back. by rewrite read_all.
Qed.

(** ** The two agree *)

Lemma read_chars_raw s : read_chars true false s = map (fun c => MkChar c false) s.
Proof. induction s as [|c s IH]; [done|]. cbn [read_chars map]. by rewrite IH. Qed.
Lemma unescaped_plain s : unescaped (map (fun c => MkChar c false) s) = s.
Proof. induction s as [|c s IH]; [done|]. cbn. by rewrite IH. Qed.
Lemma read_units_plain s : read_units ifs (map (fun c => MkChar c false) s) = map unescaped_unit (text_units ifs s).
Proof.
  induction s as [|s Hs IH] using (units_ind (classifyIFS ifs) (classifyIFS_advances ifs)); [done|].
  unfold read_units, text_units. rewrite (units_cons _ (classifyIFS_advances ifs)) by done.
  rewrite (units_cons _ (readClass_advances ifs)) by (by destruct s).
  assert (readClass ifs (map (fun c => MkChar c false) s) = classifyIFS ifs s) as ->.
  { destruct s as [|c s]; [done|]. cbn [map]. rewrite readClass_unescaped by done. by rewrite unescaped_plain. }
  cbn [map]. rewrite firstn_map, skipn_map. f_equal. exact IH.
Qed.
Lemma text_units_nonempty s : Forall (fun p => p.2 ≠ []) (text_units ifs s).
Proof.
  induction s as [|s Hs IH] using (units_ind (classifyIFS ifs) (classifyIFS_advances ifs)); [constructor|].
  unfold text_units. rewrite (units_cons _ (classifyIFS_advances ifs)) by done. constructor; [|exact IH]. cbn [snd].
  pose proof (advances_nonempty _ (classifyIFS_advances ifs) s Hs) as Hw. intros E%(f_equal length).
  rewrite length_take in E. simpl in E. lia.
Qed.

(** C33: [read] and word expansion split alike: the fields that [ReadFields] gives for a text without
    escapes are the texts of the fields that the splitter gives for the same text unquoted, whatever
    bytes are in the text and in [IFS]. *)
Theorem ReadFields_is_word_splitting s :
  ReadFields ifs s (-1) true = map part_text (splitFieldParts ifs [plain_part s]).
Proof.
  unfold ReadFields. rewrite read_chars_raw, read_all. unfold splitFieldParts.
  rewrite (implements_finish _ _ (implements_parts ifs [plain_part s])). unfold parts_atoms, part_atoms. cbn [map concat val quote plain_part].
  rewrite decide_True, app_nil_r by done. unfold char_fields. rewrite read_units_plain. unfold text_atoms, split_fields.
  by rewrite (machines_agree (text_units ifs s) [] (Between false) (Between false) (text_units_nonempty s)).
Qed.

(** ** Elements of arrays *)

Lemma hasIFS_units fuel s i :
  (length s - i ≤ fuel)%nat → (i ≤ length s)%nat →
  hasIFS_loop ifs fuel s i = false → Forall (fun p => p.1 = ifsRuneNone) (text_units ifs (drop i s)).
Proof.
  revert i. induction fuel as [|fuel IH]; intros i Hf Hi H.
  { assert (i = length s) as -> by lia. rewrite drop_all. constructor. }
  cbn [hasIFS_loop] in H. destruct (Nat.ltb_spec i (length s)) as [Hlt|]; [|by rewrite drop_ge].
  assert (drop i s ≠ []) as Hd by (intros E%(f_equal length); rewrite length_drop in E; simpl in E; lia).
  pose proof (advances_nonempty _ (classifyIFS_advances ifs) _ Hd) as Hw. rewrite length_drop in Hw.
  unfold text_units. rewrite (units_cons _ (classifyIFS_advances ifs)) by done. unfold classifyIFSStringAt in H.
  destruct (classifyIFS ifs (drop i s)) as [t w]. cbn [fst snd] in *. case_decide as Ht; [|done].
  constructor; [done|]. rewrite drop_drop. apply IH; [lia|lia|done].
Qed.
Lemma no_ifs_units s : ifs = [] → Forall (fun p => p.1 = ifsRuneNone) (text_units ifs s).
Proof.
  intros Hifs. induction s as [|s Hs IH] using (units_ind (classifyIFS ifs) (classifyIFS_advances ifs)); [constructor|].
  unfold text_units. rewrite (units_cons _ (classifyIFS_advances ifs)) by done. constructor; [|exact IH]. cbn [fst].
  rewrite Hifs. unfold classifyIFS. destruct s; [done|]. destruct (DecodeRuneInString _). by destruct (_ && _).
Qed.
Lemma split_whole s : s ≠ [] → Forall (fun p => p.1 = ifsRuneNone) (text_units ifs s) → splitFieldParts ifs [plain_part s] = [[plain_part s]].
Proof.
  intros Hs Hall. unfold splitFieldParts. rewrite (implements_finish _ _ (implements_parts ifs [plain_part s])).
  unfold parts_atoms, part_atoms. cbn [map concat val quote plain_part]. rewrite decide_True, app_nil_r by done. unfold text_atoms.
  assert (∀ us acc, Forall (fun p => p.1 = ifsRuneNone) us → unit_atoms acc us = chunk_of (acc ++ concat (map snd us))) as Hacc.
  { intros us acc H. revert acc. induction H as [|[t u] us Ht _ IH]; intros acc; cbn [unit_atoms map concat]; [by rewrite app_nil_r|].
    cbn in Ht. rewrite decide_True by done. by rewrite IH, (assoc_L (++)). }
  rewrite Hacc by done. unfold text_units. rewrite units_concat by apply classifyIFS_advances. unfold chunk_of. cbn [app].
  by rewrite decide_False.
Qed.

(** The shortcut of [splitElemsAsFields] changes nothing: whether or not it is taken, the elements split
    one by one into the fields of POSIX, and an empty element is an empty field. *)
Theorem splitElemsAsFields_exact elems :
  splitElemsAsFields ifs elems = concat (map (fun e => if decide (e = []) then [[]] else splitFieldParts ifs [plain_part e]) elems).
Proof.
  unfold splitElemsAsFields. destruct (_ || _) eqn:Hfast.
  - assert (Forall (fun e => e ≠ [] → Forall (fun p => p.1 = ifsRuneNone) (text_units ifs e)) elems) as Hall.
    { apply list.Forall_forall. intros e He Hne. apply orb_prop in Hfast as [Hifs%bool_decide_eq_true_1|Hf]; [by apply no_ifs_units|].
      rewrite forallb_forall in Hf. specialize (Hf e (proj1 (list_elem_of_In _ _) He)). rewrite bool_decide_eq_false_2 in Hf by done.
      rewrite <- (drop_0 e). apply (hasIFS_units (length e)); [lia|lia|by apply negb_true_iff]. }
    clear Hfast. induction Hall as [|e elems He _ IH]; [done|]. cbn [elemsAsFields map concat].
    fold (elemsAsFields elems). rewrite IH. case_decide; [done|]. by rewrite split_whole by auto.
  - clear Hfast. f_equal. apply map_ext. intros e. cbn zeta. destruct (decide (e = [])) as [->|He].
    + by rewrite decide_True by done.
    + by rewrite decide_False by tauto.
Qed.
End theorems.

(** ** Examples *)

Definition ifs_default : gostr := [" "%char; ascii_of_nat 9; ascii_of_nat 10].
Example split_default : map part_text (splitFieldParts ifs_default [plain_part (go "  a b "); MkPart (go " c") [] quoteDouble; plain_part (go "d ")])
  = [go "a"; go "b"; go " cd"].
Proof. vm_compute. reflexivity. Qed.
Example split_colons : map part_text (splitFieldParts (go ": ") [plain_part (go "a : b::c:")]) = [go "a"; go "b"; []; go "c"].
Proof. vm_compute. reflexivity. Qed.
Example read_limited : ReadFields (go ":") (go "a:b:c") 2 true = [go "a"; go "b:c"].
Proof. vm_compute. reflexivity. Qed.

(** The delimiter behind the last field is dropped even when there are more fields than names: the shell
    that the code follows assigns [b:c:] to the second name. *)
Example read_drops_last_delimiter : ReadFields (go ":") (go "a:b:c:") 2 true = [go "a"; go "b:c"].
Proof. vm_compute. reflexivity. Qed.
(** A backslash escapes one byte: behind it a separator of two bytes still separates, in its middle. *)
Definition cedilla : gostr := map byte_of [195; 167].
Example escaped_multibyte : ReadFields cedilla (go "\" ++ cedilla ++ go "x") (-1) false = [[byte_of 195]; go "x"].
Proof. vm_compute. reflexivity. Qed.
(** [ifsJoin] joins with the first byte of [IFS], not with its first character. *)
Example join_first_byte : ifsJoin cedilla [go "a"; go "b"] = go "a" ++ [byte_of 195] ++ go "b".
Proof. vm_compute. reflexivity. Qed.
