(* ===== verification/Quote.v ===== *)
(** Quoting: the shell words that the program writes for a value, and the decoding of [$'...'].
    [Quote] of [shell/syntax/quote.go], [printf %q] of [internal/printfutil/quote.go], [${v@Q}] of
    [shell/expand/param.go], [declare -p] of [internal/shell/interp] and [decodeANSICString] of
    [shell/expand/expand.go].

    The loops run over the runes of a text with their bytes ([runes_of]); [isPrint] is [unicode.IsPrint]. *)
From S2P Require Import Prelude GoUtf8 GoUtf8Props.

(** ** Runes and numbers *)

(** The runes that a loop with [utf8.DecodeRuneInString] visits, each with its bytes. *)
Fixpoint decode_runes (fuel : nat) (s : gostr) : list (rune * gostr) :=
  match fuel, s with
  | S fuel, _ :: _ => let '(r, size) := DecodeRuneInString s in (r, take size s) :: decode_runes fuel (drop size s)
  | _, _ => []
  end.
Definition runes_of (s : gostr) : list (rune * gostr) := decode_runes (length s) s.
(** [r == utf8.RuneError && size == 1]. *)
Definition invalid_rune (u : rune * gostr) : bool := (u.1 =? RuneError) && (length u.2 =? 1)%nat.

Definition char_in (r : rune) (s : gostr) : bool := existsb (fun c => r =? byte_val c) s.
Definition byte_in (c : ascii) (s : gostr) : bool := existsb (Ascii.eqb c) s.
Definition dquote : ascii := byte_of 34.

(** The digits of [%o], [%x] and [%X], padded with zeros to a width. *)
Definition digit_byte (upper : bool) (d : Z) : ascii := byte_of (if d <? 10 then 48 + d else (if upper then 55 else 87) + d).
Fixpoint radix_digits (base : Z) (k : nat) (n : Z) : list Z :=
  match k with O => [] | S k => radix_digits base k (n / base) ++ [n mod base] end.
Definition radix_width (base n : Z) : nat := S (Z.to_nat (Z.log2 n / Z.log2 base)).
Definition fmt_radix (base : Z) (upper : bool) (width : nat) (n : Z) : gostr :=
  map (digit_byte upper) (radix_digits base (Nat.max width (radix_width base n)) n).
Definition octal_escape (c : ascii) : gostr := go "\" ++ fmt_radix 8 false 3 (byte_val c).

(** [isHex]. *)
Definition isHex (r : Z) : bool := between 48 r 57 || between 97 r 102 || between 65 r 70.
Definition isOctal (r : Z) : bool := between 48 r 55.

(** [IsKeyword] of [shell/syntax/parser.go]. *)
Definition keywords : list gostr :=
  map go ["!"; "[["; "]]"; "case"; "coproc"; "do"; "done"; "else"; "esac"; "fi"; "for"; "function"; "if"; "in"; "select"; "then"; "time";
          "until"; "while"; "{"; "}"]%string.
Definition IsKeyword (word : gostr) : bool := bool_decide (word ∈ keywords).

(** The escapes with a letter, which the writers and the reader share: \a \b \f \n \r \t \v. *)
Definition letter_escapes : list (Z * ascii) := [(7, "a"); (8, "b"); (12, "f"); (10, "n"); (13, "r"); (9, "t"); (11, "v")]%char.
Definition escape_letter (r : Z) : option ascii := (fun p => p.2.2) <$> list_find (fun e => e.1 = r) letter_escapes.

Section quote.
Variable isPrint : rune → bool.

(** ** [syntax.Quote] *)

Inductive LangVariant := LangBash | LangPOSIX | LangMirBSDKorn | LangBats | LangZsh.
#[export] Instance LangVariant_eq : EqDecision LangVariant.
Proof. solve_decision. Defined.
Record QuoteError := MkQuoteError { ByteOffset : Z; Message : gostr }.
Definition quoteErrNull : gostr := go "shell strings cannot contain null bytes".
Definition quoteErrPOSIX : gostr := go "POSIX shell lacks escape sequences".
Definition quoteErrRange : gostr := go "rune out of range".
Definition quoteErrMksh : gostr := go "mksh cannot escape codepoints above 16 bits".

(** The characters that need quotes. *)
Definition shell_chars : gostr := dquote :: go ";'()$|&><` " ++ map byte_of [9; 13; 10] ++ go "\#{~*?[=".
(** The first loop: whether there are such characters and others that are not printable. *)
Fixpoint quote_scan (lang : LangVariant) (us : list (rune * gostr)) (offs : Z) (shellChars nonPrintable : bool) : result QuoteError (bool * bool) :=
  match us with
  | [] => Ok (shellChars, nonPrintable)
  | (r, raw) :: us =>
      if r =? 0 then Err (MkQuoteError offs quoteErrNull)
      else
        let shellChars := shellChars || char_in r shell_chars in
        if (r =? RuneError) || negb (isPrint r) then
          if decide (lang = LangPOSIX) then Err (MkQuoteError offs quoteErrPOSIX)
          else quote_scan lang us (offs + glen raw) shellChars true
        else quote_scan lang us (offs + glen raw) shellChars nonPrintable
  end.
(** The loop that writes the text between [$'] and [']. *)
Fixpoint quote_ansi (lang : LangVariant) (us : list (rune * gostr)) (offs : Z) (lastRequoteIfHex : bool) : result QuoteError gostr :=
  match us with
  | [] => Ok []
  | (r, raw) :: us =>
      let continue (out : gostr) (next : bool) := rest ← quote_ansi lang us (offs + glen raw) next; mret (out ++ rest) in
      if char_in r (go "'\") then continue (go "\" ++ encode_rune r) false
      else if isPrint r && negb (r =? RuneError) then
        continue ((if lastRequoteIfHex && isHex r then go "'$'" else []) ++ encode_rune r) false
      else match escape_letter r with
      | Some c => continue (go "\" ++ [c]) false
      | None =>
          if (r <? RuneSelf) || invalid_rune (r, raw) then
            continue (go "\x" ++ fmt_radix 16 false 2 (byte_val (default "000"%char (head raw)))) (bool_decide (lang = LangMirBSDKorn))
          else if 1114111 <? r then Err (MkQuoteError offs quoteErrRange)
          else if bool_decide (lang = LangMirBSDKorn) && (65533 <? r) then Err (MkQuoteError offs quoteErrMksh)
          else if r <? 65536 then continue (go "\u" ++ fmt_radix 16 false 4 r) false
          else continue (go "\U" ++ fmt_radix 16 false 8 r) false
      end
  end.
(** The text between double quotes: a backslash in front of each byte that is special there. *)
Definition dq_special (r : Z) : bool := char_in r (dquote :: go "\`$").
Definition quote_double (us : list (rune * gostr)) : gostr :=
  flat_map (fun u => (if dq_special u.1 then go "\" else []) ++ encode_rune u.1) us.

Definition Quote (s : gostr) (lang : LangVariant) : result QuoteError gostr :=
  if decide (s = []) then Ok (go "''")
  else
    '(shellChars, nonPrintable) ← quote_scan lang (runes_of s) 0 false false;
    if negb shellChars && negb nonPrintable && negb (IsKeyword s) then Ok s
    else if nonPrintable : bool then body ← quote_ansi lang (runes_of s) 0 false; Ok (go "$'" ++ body ++ go "'")
    else if negb (byte_in "'" s) then Ok (go "'" ++ s ++ go "'")
    else Ok ([dquote] ++ quote_double (runes_of s) ++ [dquote]).

(** ** [printf %q] in the Bash dialect *)

Definition needsANSIQuote (s : gostr) : bool :=
  existsb (fun u => invalid_rune u || bool_decide (is_Some (escape_letter u.1)) || negb (isPrint u.1)) (runes_of s).
Definition needsBackslashEscape (r : rune) : bool := char_in r (dquote :: go " !#$&'()*;<=>?[\]`{|}~").
Definition isSafeRawWord (s : gostr) : bool := negb (IsKeyword s) && negb (existsb (fun u => needsBackslashEscape u.1) (runes_of s)).
Definition quoteANSI (s : gostr) : gostr :=
  go "$'" ++ flat_map (fun u : rune * gostr =>
    if invalid_rune u then flat_map octal_escape u.2
    else if char_in u.1 (go "'\") then go "\" ++ encode_rune u.1
    else match escape_letter u.1 with
         | Some c => go "\" ++ [c]
         | None => if negb (isPrint u.1) then flat_map octal_escape u.2 else encode_rune u.1
         end) (runes_of s) ++ go "'".
Definition quoteShellBash (s : gostr) : gostr :=
  if decide (s = []) then go "''"
  else if needsANSIQuote s then quoteANSI s
  else if isSafeRawWord s then s
  else flat_map (fun u => (if needsBackslashEscape u.1 then go "\" else []) ++ encode_rune u.1) (runes_of s).

(** ** [${v@Q}] *)

Definition bashQuoteNeedsANSI (str : gostr) : bool := existsb (fun u => invalid_rune u || negb (isPrint u.1)) (runes_of str).
(** One byte of [bashANSIQuote] and [traceANSIQuote]. *)
Definition ansi_byte (c : ascii) : gostr :=
  match escape_letter (byte_val c) with
  | Some l => go "\" ++ [l]
  | None =>
      if byte_in c (go "'\") then go "\" ++ [c]
      else if (32 <=? byte_val c) && (byte_val c <? 127) then [c] else octal_escape c
  end.
Definition bashANSIQuote (str : gostr) : gostr :=
  go "$'" ++ flat_map (fun u : rune * gostr =>
    if invalid_rune u then flat_map octal_escape u.2
    else if (length u.2 =? 1)%nat then flat_map ansi_byte u.2
    else if isPrint u.1 then u.2 else flat_map octal_escape u.2) (runes_of str) ++ go "'".
Definition bashQuoteValue (str : gostr) : result QuoteError gostr :=
  _ ← Quote str LangBash;
  if bashQuoteNeedsANSI str then Ok (bashANSIQuote str)
  else if negb (byte_in "'" str) then Ok (go "'" ++ str ++ go "'")
  else Ok (join (go "\'") (map (fun part => go "'" ++ part ++ go "'") (split_byte "'" str))).

(** ** [declare -p] and [set] *)

Definition needsTraceANSIQuote (arg : gostr) : bool := existsb (fun c => (byte_val c <? 32) || (127 <=? byte_val c)) arg.
(** [traceANSIQuote] visits a rune at a time when it keeps printable ones, else a byte at a time. *)
Fixpoint trace_loop (fuel : nat) (cLocale : bool) (arg : gostr) : gostr :=
  match fuel, arg with
  | S fuel, c :: arg' =>
      let '(r, size) := DecodeRuneInString arg in
      if negb cLocale && (1 <? size)%nat && isPrint r then take size arg ++ trace_loop fuel cLocale (drop size arg)
      else ansi_byte c ++ trace_loop fuel cLocale arg'
  | _, _ => []
  end.
Definition traceANSIQuote (arg : gostr) (cLocale : bool) : gostr := go "$'" ++ trace_loop (length arg) cLocale arg ++ go "'".
Definition bashDeclDoubleQuote (value : gostr) : gostr :=
  [dquote] ++ flat_map (fun c => (if dq_special (byte_val c) then go "\" else []) ++ [c]) value ++ [dquote].
Definition bashDeclPrintValue (value : gostr) : gostr :=
  if needsTraceANSIQuote value then traceANSIQuote value true else bashDeclDoubleQuote value.
Definition bashDeclPlainValue (lang : LangVariant) (value : gostr) : gostr :=
  if needsTraceANSIQuote value then traceANSIQuote value true
  else match Quote value lang with Ok quoted => quoted | Err _ => bashDeclDoubleQuote value end.

(** ** [printf %q] in the GNU dialect *)

Inductive gnuEscapeState := gnuEscapeChar | gnuEscapeForceQuote | gnuEscapeQuotedSingle | gnuEscapeDollar | gnuEscapeOctal.
Definition classifyGNUShellChar (r : rune) (quotes : ascii) (utf8Locale : bool) : gnuEscapeState * rune :=
  match escape_letter r with
  | Some l => (gnuEscapeDollar, byte_val l)
  | None =>
      if r =? 39 then if Ascii.eqb quotes "'" then (gnuEscapeQuotedSingle, r) else (gnuEscapeChar, r)
      else if (r <? 32) || (r =? 127) then (gnuEscapeOctal, r)
      else if utf8Locale && negb (isPrint r) then (gnuEscapeOctal, r)
      else if char_in r (dquote :: go "`$&*()|[;\'<>?! ") then (gnuEscapeForceQuote, r)
      else (gnuEscapeChar, r)
  end.
Definition gnuShellHasInitialQuotePressure (s : gostr) : bool :=
  existsb (fun b => byte_in b (dquote :: go "`$\^=") || (byte_val b <? 32) || (byte_val b =? 127)) s.
Definition gnuSpecialShellStart (s : gostr) : bool := match s with c :: _ => byte_in c (go "~#") | [] => false end.
Record gnu_state := MkGnu { g_out : gostr; g_inDollar : bool; g_mustQuote : bool }.
Definition enterDollar (g : gnu_state) : gnu_state :=
  if g_inDollar g then g else MkGnu (g_out g ++ go "'$'") true (g_mustQuote g).
Definition exitDollar (g : gnu_state) : gnu_state :=
  if g_inDollar g then MkGnu (g_out g ++ go "''") false (g_mustQuote g) else g.
Definition gnu_write (out : gostr) (g : gnu_state) : gnu_state := MkGnu (g_out g ++ out) (g_inDollar g) (g_mustQuote g).
Definition gnu_must (g : gnu_state) : gnu_state := MkGnu (g_out g) (g_inDollar g) true.
Fixpoint gnu_loop (fuel : nat) (quotes : ascii) (utf8Locale : bool) (s : gostr) (g : gnu_state) : gnu_state :=
  match fuel, s with
  | S fuel, c :: _ =>
      let '(r, size) := DecodeRuneInString s in
      let octal n := gnu_loop fuel quotes utf8Locale (drop n s) (gnu_write (flat_map octal_escape (take n s)) (gnu_must (enterDollar g))) in
      if invalid_rune (r, take size s) then octal 1%nat
      else if negb utf8Locale && (128 <=? byte_val c) then octal 1%nat
      else
        let '(state, ch) := classifyGNUShellChar r quotes utf8Locale in
        let next := gnu_loop fuel quotes utf8Locale (drop size s) in
        match state with
        | gnuEscapeChar => next (gnu_write (encode_rune ch) (exitDollar g))
        | gnuEscapeForceQuote => next (gnu_write (encode_rune ch) (gnu_must (exitDollar g)))
        | gnuEscapeQuotedSingle => next (MkGnu (g_out g ++ go "'\''") false true)
        | gnuEscapeDollar => next (gnu_write (go "\" ++ encode_rune ch) (gnu_must (enterDollar g)))
        | gnuEscapeOctal => octal size
        end
  | _, _ => g
  end.
Definition quoteShellGNU (s : gostr) (utf8Locale : bool) : gostr :=
  if decide (s = []) then go "''"
  else
    let '(quotes, mustQuote) :=
      if gnuShellHasInitialQuotePressure s then ("'"%char, true)
      else if byte_in "'" s then (dquote, true) else ("'"%char, false) in
    let g := gnu_loop (length s) quotes utf8Locale s (MkGnu [] false mustQuote) in
    if negb (g_mustQuote g) && negb (gnuSpecialShellStart s) then g_out g else [quotes] ++ g_out g ++ [quotes].
End quote.

(** ** Reading [$'...'] *)

(** The bytes at the start of [s], at most [max], that [p] holds for. *)
Fixpoint span_bytes (p : Z → bool) (max : nat) (s : gostr) : gostr :=
  match max, s with
  | S max, c :: s => if p (byte_val c) then c :: span_bytes p max s else []
  | _, _ => []
  end.
Definition digit_value (r : Z) : Z := if between 48 r 57 then r - 48 else if between 97 r 102 then r - 87 else r - 55.
(** [strconv.ParseUint] of digits. *)
Definition radix_value (base : Z) (ds : gostr) : Z := foldl (fun n c => n * base + digit_value (byte_val c)) 0 ds.

Definition ValidRune (r : Z) : bool := between 0 r 55295 || between 57344 r 1114111.
(** [writeRawUTF8]: the pattern of UTF-8 for any value of 31 bits. *)
Definition writeRawUTF8 (v : Z) : gostr :=
  let cont k := byte_of (Z.lor 128 (Z.land (Z.shiftr v k) 63)) in
  let lead l k := byte_of (Z.lor l (Z.shiftr v k)) in
  if 2147483647 <? v then []
  else if v <=? 127 then [byte_of v]
  else if v <=? 2047 then [lead 192 6; cont 0]
  else if v <=? 65535 then [lead 224 12; cont 6; cont 0]
  else if v <=? 2097151 then [lead 240 18; cont 12; cont 6; cont 0]
  else if v <=? 67108863 then [lead 248 24; cont 18; cont 12; cont 6; cont 0]
  else [lead 252 30; cont 24; cont 18; cont 12; cont 6; cont 0].

(** What [\x], [\u] and [\U] with the value [n] stand for. *)
Definition hex_escape (cLocale : bool) (c : ascii) (n : Z) : gostr :=
  if Ascii.eqb c "x" then [byte_of (n mod 256)]
  else if cLocale then
    if n <=? 65535 then go "\u" ++ fmt_radix 16 true 4 n else go "\U" ++ fmt_radix 16 true 8 n
  else
    let r := if n <? 2 ^ 31 then n else n - 2 ^ 32 in
    if negb (ValidRune r) then writeRawUTF8 n else encode_rune r.
(** The escapes of one letter. *)
Definition simple_escape (c : ascii) : option ascii :=
  if byte_in c (go "eE") then Some (byte_of 27)
  else if byte_in c (dquote :: go "\'?") then Some c
  else (fun p => byte_of p.2.1) <$> list_find (fun e => e.2 = c) letter_escapes.
Fixpoint decode_loop (cLocale : bool) (fuel : nat) (src : gostr) : gostr :=
  match fuel with
  | O => []
  | S fuel =>
      let next := decode_loop cLocale fuel in
      match src with
      | [] => []
      | c :: rest =>
          if negb (Ascii.eqb c "\") then c :: next rest
          else
            match rest with
            | [] => go "\"
            | c :: rest =>
                match simple_escape c with
                | Some b => b :: next rest
                | None =>
                    if Ascii.eqb c "c" then
                      match rest with [] => go "\c" | d :: rest => byte_of (Z.land (byte_val d) 31) :: next rest end
                    else if isOctal (byte_val c) then
                      let more := span_bytes isOctal 2 rest in
                      byte_of (Z.min 255 (radix_value 8 (c :: more))) :: next (drop (length more) rest)
                    else if byte_in c (go "xuU") then
                      let maxDigits := if Ascii.eqb c "u" then 4%nat else if Ascii.eqb c "U" then 8%nat else 2%nat in
                      let ds := span_bytes isHex maxDigits rest in
                      if decide (ds = []) then "\"%char :: c :: next rest
                      else hex_escape cLocale c (radix_value 16 ds) ++ next (drop (length ds) rest)
                    else "\"%char :: c :: next rest
                end
            end
      end
  end.
Definition decodeANSICString (cLocale : bool) (src : gostr) : gostr := decode_loop cLocale (length src) src.

(** ** Lemmas *)

Abbreviation c92 := "\"%char.
Lemma elem_forallb {A} (p : A → bool) (l : list A) x : forallb p l = true → x ∈ l → p x = true.
Proof. intros H Hx. rewrite forallb_forall in H. apply H. by apply list_elem_of_In. Qed.

(** ** Runes of a text *)

(** A rune of valid UTF-8 with its bytes. *)
Definition good (u : rune * gostr) : Prop := u.2 ≠ [] ∧ DecodeRuneInString u.2 = (u.1, length u.2) ∧ invalid_rune u = false.

Lemma runes_fuel f s : (length s ≤ f)%nat → decode_runes f s = runes_of s.
Proof.
  unfold runes_of. revert s. assert (∀ n f g s, (length s ≤ n)%nat → (length s ≤ f)%nat → (length s ≤ g)%nat → decode_runes f s = decode_runes g s) as H.
  { induction n as [|n IH]; intros f' g s Hn Hf Hg; destruct s as [|c s]; try (by destruct f', g); [simpl in Hn; lia|].
    destruct f' as [|f'], g as [|g]; try (simpl in *; lia). cbn [decode_runes]. pose proof (decode_size c s) as Hw.
    destruct (DecodeRuneInString (c :: s)) as [r w]. cbn [snd] in Hw. f_equal. apply IH; rewrite length_drop; simpl in *; lia. }
  intros s Hs. by apply (H (length s)).
Qed.
Lemma runes_cons c s : let '(r, w) := DecodeRuneInString (c :: s) in runes_of (c :: s) = (r, take w (c :: s)) :: runes_of (drop w (c :: s)).
Proof.
  pose proof (decode_size c s) as Hw. unfold runes_of at 1. cbn [length decode_runes]. destruct (DecodeRuneInString (c :: s)) as [r w]. cbn [snd] in Hw.
  f_equal. apply runes_fuel. rewrite length_drop. simpl. lia.
Qed.
(** Induction over the runes of a text. *)
Lemma runes_ind (P : gostr → Prop) : P [] → (∀ u s, u.2 ≠ [] → runes_of (u.2 ++ s) = u :: runes_of s → (invalid_rune u = false → good u) →
  (length u.2 ≤ 4)%nat → P s → P (u.2 ++ s)) → ∀ s, P s.
Proof.
  intros H0 HS s. remember (length s) as n eqn:Hn. assert (length s ≤ n)%nat as Hle by lia. clear Hn. revert s Hle.
  induction n as [|n IH]; intros s Hle; [by destruct s; [|simpl in Hle; lia]|]. destruct s as [|c s]; [done|].
  pose proof (runes_cons c s) as Hr. pose proof (decode_size c s) as Hw. destruct (DecodeRuneInString (c :: s)) as [r w] eqn:Ed. cbn [snd] in Hw.
  assert (take w (c :: s) ≠ []) as Hne by (destruct w; [lia|done]).
  assert (length (take w (c :: s)) = w) as Hlen by (rewrite length_take; simpl; lia).
  pose proof (HS (r, take w (c :: s)) (drop w (c :: s))) as Hs. cbn [snd] in Hs. rewrite take_drop in Hs. apply Hs; [done|done| | |].
  - intros Hi. split; [done|]. split; [|done]. cbn [fst snd]. rewrite Hlen, <- Ed. rewrite (decode_prefix (take w (c :: s)) (drop w (c :: s))); rewrite ?take_drop, ?Ed; [done|done|cbn [snd]; lia].
  - rewrite Hlen. revert Ed. unfold DecodeRuneInString. destruct (accept_range _). repeat case_match; intros [= _ <-]; lia.
  - apply IH. rewrite length_drop. simpl in *. lia.
Qed.
Lemma runes_concat s : concat (map snd (runes_of s)) = s.
Proof. induction s as [|u s Hne Hr _ _ IH] using runes_ind; [done|]. rewrite Hr. cbn [map concat]. by rewrite IH. Qed.
Lemma good_encode u : good u → encode_rune u.1 = u.2.
Proof.
  intros (Hne&Hd&Hi). destruct u as [r [|c s]]; [done|]. cbn [fst snd] in *. pose proof (decode_encode c s) as He. rewrite Hd in He. cbn [fst snd] in He.
  rewrite He; [apply take_ge; lia|]. unfold invalid. rewrite Hd. intros [= Hr Hl]. destruct s; [|done]. unfold invalid_rune in Hi. rewrite Hr in Hi. simpl in Hi. done.
Qed.
(** Either an ASCII byte, or bytes that are none. *)
Lemma good_cases u : good u → (∃ c, u = (byte_val c, [c]) ∧ is_ascii c) ∨ (128 ≤ u.1 ∧ ∀ c, c ∈ u.2 → ¬ is_ascii c).
Proof.
  intros (Hne&Hd&Hi). destruct u as [r [|c s]]; [done|]. cbn [fst snd] in *. destruct (decide (is_ascii c)) as [Hc|Hc].
  - left. exists c. rewrite decode_ascii in Hd by done. injection Hd as <- Hl. by destruct s.
  - right. pose proof (decode_high c s Hc) as Hh. rewrite Hd in Hh. split; [done|]. intros d [i Hi']%list_elem_of_lookup. unfold is_ascii, RuneSelf in *.
    destruct i as [|i]; [by injection Hi' as ->|]. pose proof (decode_tail c s (S i) d) as Ht. rewrite Hd in Ht. cbn [snd] in Ht.
    pose proof (lookup_lt_Some _ _ _ Hi'). specialize (Ht ltac:(simpl in *; lia) Hi'). lia.
Qed.
Lemma good_ascii c : is_ascii c → good (byte_val c, [c]).
Proof. intros Hc. split; [done|]. split; [cbn [fst snd]; by rewrite decode_ascii|]. unfold invalid_rune. cbn [fst snd length]. unfold is_ascii, RuneSelf, RuneError in *. by rewrite (proj2 (Z.eqb_neq _ _)) by lia. Qed.
(** Its bytes read the same whatever follows. *)
Lemma good_decode u t : good u → DecodeRuneInString (u.2 ++ t) = (u.1, length u.2).
Proof.
  intros Hg. pose proof Hg as (Hne&Hd&Hi). destruct (good_cases u Hg) as [(c&->&Hc)|[Hh _]]; [by apply decode_ascii|].
  rewrite decode_full; [done|]. destruct u as [r [|c0 s]]; [done|]. unfold FullRune. cbn [fst snd] in *. unfold DecodeRuneInString in Hd. destruct (accept_range (byte_val c0)) as [lo hi].
  apply orb_true_iff. left. apply Nat.leb_le. unfold rune_size.
  destruct (byte_val c0 <? RuneSelf) eqn:E1. { injection Hd as <- Hl. unfold RuneSelf in *. to_prop. lia. }
  assert (∀ w, (RuneError, 1%nat) = (r, w) → w = length (c0 :: s) → False) as Hbad.
  { intros w [= <- <-] Hl. unfold invalid_rune in Hi. simpl fst in Hi. cbn [snd] in Hi. rewrite <- Hl in Hi. done. }
  destruct (between 194 (byte_val c0) 223) eqn:E2, (between 224 (byte_val c0) 239) eqn:E3, (between 240 (byte_val c0) 244) eqn:E4; between_facts; try lia;
    destruct s as [|c1 [|c2 [|c3 s]]]; repeat case_match; try (by exfalso; eapply Hbad); simpl; lia.
Qed.

(** ** Decoding [$'...'] *)

Lemma length_span p max s : (length (span_bytes p max s) ≤ length s)%nat.
Proof. revert s. induction max as [|max IH]; intros [|c s]; simpl; [lia..|]. destruct (p _); simpl; [specialize (IH s)|]; lia. Qed.
Lemma decode_fuel cl f g src : (length src ≤ f)%nat → (length src ≤ g)%nat → decode_loop cl f src = decode_loop cl g src.
Proof.
  revert g src. induction f as [|f IH]; intros g src Hf Hg; [by destruct src; [destruct g|simpl in Hf; lia]|].
  destruct g as [|g]; [by destruct src; [|simpl in Hg; lia]|]. cbn [decode_loop]. destruct src as [|c src]; [done|].
  simpl in Hf, Hg. destruct (negb _); [f_equal; apply IH; lia|]. destruct src as [|d src]; [done|]. simpl in Hf, Hg.
  destruct (simple_escape d); [f_equal; apply IH; lia|]. destruct (Ascii.eqb d "c"); [destruct src; [done|f_equal; apply IH; simpl in *; lia]|].
  destruct (isOctal _); [f_equal; apply IH; rewrite length_drop; lia|]. destruct (byte_in _ _); [|by do 2 f_equal; apply IH; lia].
  cbv zeta. case_decide; [by do 2 f_equal; apply IH; lia|]. f_equal. apply IH; rewrite length_drop; lia.
Qed.

Section decoding.
Variable cl : bool.
Abbreviation D := (decodeANSICString cl).
(** The text [p] stands for the bytes [x], whatever follows. *)
Definition decodes (p x : gostr) : Prop := ∀ t, D (p ++ t) = x ++ D t.

Lemma decodes_nil : decodes [] [].
Proof. done. Qed.
Lemma decodes_app p q x y : decodes p x → decodes q y → decodes (p ++ q) (x ++ y).
Proof. intros Hp Hq t. rewrite <- !(assoc_L (++)). by rewrite Hp, Hq. Qed.
Lemma decodes_byte c : c ≠ c92 → decodes [c] [c].
Proof.
  intros Hc t. unfold decodeANSICString. cbn [app length decode_loop]. rewrite (proj2 (Ascii.eqb_neq _ _)) by done. done.
Qed.
Lemma decodes_bytes s : c92 ∉ s → decodes s s.
Proof.
  induction s as [|c s IH]; intros Hs; [done|]. apply (decodes_app [c] s [c] s); [apply decodes_byte|apply IH]; set_solver.
Qed.
Lemma decode_escape c t : ∃ n, (length t < n)%nat ∧ D (c92 :: c :: t) = decode_loop cl (S n) (c92 :: c :: t).
Proof. exists (length (c :: t)). split; [simpl; lia|done]. Qed.
Lemma decodes_simple c b : simple_escape c = Some b → decodes [c92; c] [b].
Proof.
  intros Hc t. cbn [app]. destruct (decode_escape c t) as (n&Hn&->). cbn [decode_loop]. rewrite Ascii.eqb_refl. cbn [negb].
  rewrite Hc. f_equal. apply decode_fuel; lia.
Qed.
(** The octal escape of a byte: three digits. *)
Lemma octal_digits c : ∃ d1 d2 d3, octal_escape c = [c92; d1; d2; d3] ∧ simple_escape d1 = None ∧ Ascii.eqb d1 "c" = false ∧
  isOctal (byte_val d1) = true ∧ isOctal (byte_val d2) = true ∧ isOctal (byte_val d3) = true ∧ byte_of (Z.min 255 (radix_value 8 [d1; d2; d3])) = c.
Proof. destruct c as [[] [] [] [] [] [] [] []]; do 3 eexists; (split; [vm_compute; reflexivity|]); repeat split; vm_compute; reflexivity. Qed.
Lemma decodes_octal c : decodes (octal_escape c) [c].
Proof.
  destruct (octal_digits c) as (d1&d2&d3&->&Hs&Hc&H1&H2&H3&Hv). intros t. cbn [app]. destruct (decode_escape d1 (d2 :: d3 :: t)) as (n&Hn&->). cbn [decode_loop]. rewrite Ascii.eqb_refl. cbn [negb].
  rewrite Hs, Hc, H1. cbn [span_bytes]. rewrite H2, H3. cbn [length drop]. rewrite Hv. f_equal. apply decode_fuel; simpl in *; lia.
Qed.
Lemma decodes_octals s : decodes (flat_map octal_escape s) s.
Proof. induction s as [|c s IH]; [done|]. exact (decodes_app _ _ [c] s (decodes_octal c) IH). Qed.

(** Digits of a fixed width. *)
Lemma radix_digits_spec b k n : 1 < b → 0 ≤ n < b ^ Z.of_nat k → length (radix_digits b k n) = k ∧ Forall (fun d => 0 ≤ d < b) (radix_digits b k n) ∧
  foldl (fun a d => a * b + d) 0 (radix_digits b k n) = n.
Proof.
  intros Hb. revert n. induction k as [|k IH]; intros n Hn; [simpl; split_and!; [done|constructor|change (b ^ Z.of_nat 0) with 1 in Hn; lia]|].
  cbn [radix_digits]. assert (0 ≤ n / b < b ^ Z.of_nat k) as Hd.
  { rewrite Nat2Z.inj_succ, Z.pow_succ_r in Hn by lia. split; [apply Z.div_pos; lia|]. apply Z.div_lt_upper_bound; lia. }
  destruct (IH (n / b) Hd) as (Hl&Hf&Hv). rewrite length_app, Hl, foldl_app, Hv. simpl. split_and!; [lia| |].
  - apply Forall_app. split; [done|]. repeat constructor; apply Z.mod_pos_bound; lia.
  - pose proof (Z.div_mod n b). lia.
Qed.
Lemma hex_digits k n : (k ≠ 0)%nat → 0 ≤ n < 16 ^ Z.of_nat k → let ds := fmt_radix 16 false k n in
  length ds = k ∧ forallb (fun c => isHex (byte_val c)) ds = true ∧ radix_value 16 ds = n.
Proof.
  intros Hk Hn ds. assert (Nat.max k (radix_width 16 n) = k) as Hw.
  { enough (radix_width 16 n ≤ k)%nat by lia. unfold radix_width. change (Z.log2 16) with 4. destruct (decide (n = 0)) as [->|Hne]; [change (Z.log2 0) with 0; change (0 / 4) with 0; lia|].
    change 16 with (2 ^ 4) in Hn. rewrite <- Z.pow_mul_r in Hn by lia. assert (Z.log2 n < 4 * Z.of_nat k) by (apply Z.log2_lt_pow2; lia).
    assert (Z.log2 n / 4 < Z.of_nat k) by (apply Z.div_lt_upper_bound; lia). pose proof (Z.log2_nonneg n). pose proof (Z.div_pos (Z.log2 n) 4). lia. }
  unfold ds, fmt_radix. rewrite Hw. destruct (radix_digits_spec 16 k n) as (Hl&Hf&Hv); [lia|done|]. rewrite length_map. split; [done|]. clear Hl Hw.
  assert (∀ d, 0 ≤ d < 16 → isHex (byte_val (digit_byte false d)) = true ∧ digit_value (byte_val (digit_byte false d)) = d) as Hd.
  { intros d Hd. assert (d ∈ seqZ 0 16) as Hin by (by apply elem_of_seqZ). 
    pose proof (elem_forallb (fun d => isHex (byte_val (digit_byte false d)) && (digit_value (byte_val (digit_byte false d)) =? d)) (seqZ 0 16) d eq_refl Hin) as H.
    cbn beta in H. to_prop. done. }
  split.
  - apply forallb_forall. intros c (d&<-&Hin%list_elem_of_In)%in_map_iff. apply Hd. rewrite list.Forall_forall in Hf. by apply Hf.
  - rewrite <- Hv at 2. clear Hv. unfold radix_value. generalize 0 as a. induction Hf as [|d l Hdr Hf IH]; intros a; [done|]. cbn [map foldl]. rewrite (proj2 (Hd d Hdr)). apply IH.
Qed.
Lemma span_all p ds t : forallb (fun c => p (byte_val c)) ds = true → span_bytes p (length ds) (ds ++ t) = ds.
Proof. induction ds as [|c ds IH]; [done|]. simpl. intros [-> Hds]%andb_prop. by rewrite IH. Qed.
Lemma decodes_hex c k n : (c, k) ∈ [("x"%char, 2%nat); ("u"%char, 4%nat); ("U"%char, 8%nat)] → 0 ≤ n < 16 ^ Z.of_nat k →
  decodes ([c92; c] ++ fmt_radix 16 false k n) (hex_escape cl c n).
Proof.
  intros Hc Hn t. assert (k ≠ 0)%nat as Hk by (intros ->; set_solver). destruct (hex_digits k n Hk Hn) as (Hl&Hh&Hv). set (ds := fmt_radix 16 false k n) in *.
  cbn [app]. destruct (decode_escape c (ds ++ t)) as (m&Hm&->). cbn [decode_loop]. rewrite Ascii.eqb_refl. cbn [negb].
  assert (simple_escape c = None ∧ Ascii.eqb c "c" = false ∧ isOctal (byte_val c) = false ∧ byte_in c (go "xuU") = true ∧
    (if Ascii.eqb c "u" then 4%nat else if Ascii.eqb c "U" then 8%nat else 2%nat) = k) as (H1&H2&H3&H4&H5).
  { rewrite !elem_of_cons, elem_of_nil in Hc. destruct Hc as [[= -> ->]|[[= -> ->]|[[= -> ->]|[]]]]; by vm_compute. }
  rewrite H1, H2, H3, H4, H5. pose proof (span_all isHex ds t Hh) as Hsp. rewrite Hl in Hsp. rewrite Hsp. rewrite decide_False by (intros ->; simpl in Hl; congruence).
  replace k with (length ds). rewrite Hv, drop_app_length. f_equal. apply decode_fuel; rewrite length_app in *; lia.
Qed.
Lemma decodes_flat {A} (f : A → gostr) (x : A → gostr) us : (∀ u, u ∈ us → decodes (f u) (x u)) → decodes (flat_map f us) (flat_map x us).
Proof.
  induction us as [|u us IH]; intros H; [done|]. cbn [flat_map]. apply decodes_app; [apply H; left|]. apply IH. intros u' Hu'. apply H. by right.
Qed.
End decoding.

Lemma good_valid u : good u → ValidRune u.1 = true ∧ 0 ≤ u.1 < 2 ^ 31.
Proof.
  intros Hg. pose proof (good_encode u Hg) as He. destruct Hg as (Hne&Hd&Hi). assert (ValidRune u.1 = true) as Hv; [|split; [done|unfold ValidRune, between in Hv; lia]].
  destruct (ValidRune u.1) eqn:E; [done|exfalso]. assert (encode_rune u.1 = encode_rune RuneError) as Hx.
  { unfold encode_rune. unfold ValidRune in E. assert (between 0 u.1 1114111 && negb (between 55296 u.1 57343) = false) as ->; [unfold between in *; lia|done]. }
  rewrite He in Hx. rewrite Hx in Hd. assert (u.1 = RuneError) as Hr by (vm_compute in Hd; by injection Hd). rewrite Hr in E. by vm_compute in E.
Qed.
