(* ===== verification/WordRead.v ===== *)
(** Reading a quoted word back: the lexer ([rune], [next], [advanceLit*] of [shell/syntax/lexer.go]) and the
    parser of the parts of a word ([wordParts], [wordPart], [dblQuoted] of [shell/syntax/parser.go]) on words of
    literals and quotes, and the expansion of such a word into fields ([wordFieldsOpt], [wordField],
    [escapedGlobField] of [shell/expand/expand.go]), for arguments of simple commands outside backquotes.

    [None] stands for what this part of the program leaves to others: expansions, operators of patterns, process
    substitutions, brace and pathname expansion, and errors of syntax. *)
From S2P Require Import Prelude GoUtf8 GoUtf8Props Quote Pattern Fields.

(** ** The lexer *)

Definition escNewl : Z := 129.
Inductive quoteState := noState | unquotedWordCont | dblQuotes.
#[export] Instance quoteState_eq : EqDecision quoteState.
Proof. solve_decision. Defined.

(** The unread bytes, [p.r] with its bytes ([p.w] of them), [p.litBs] (nil or not) and [p.val]. *)
Record lexer := MkLexer { lx_bs : gostr; lx_r : Z; lx_cur : gostr; lx_lit : option gostr; lx_val : gostr }.
Definition lx_set_lit (lit : option gostr) (l : lexer) : lexer := MkLexer (lx_bs l) (lx_r l) (lx_cur l) lit (lx_val l).
Definition lx_set_val (v : gostr) (l : lexer) : lexer := MkLexer (lx_bs l) (lx_r l) (lx_cur l) (lx_lit l) v.

(** The tokens that matter for a word. [Ended] is what does not belong to it: the end, an operator, a comment or
    a blank, behind which the next word is read. *)
Inductive token := Literal (v : gostr) | SglQuote (dollar : bool) | DblQuote (dollar : bool) | Ended (spaced : bool).
#[export] Instance token_eq : EqDecision token.
Proof. solve_decision. Defined.

(** [Parser.rune] on the bytes [bs] after the rune [r]; [None] is the error of invalid UTF-8. *)
Fixpoint read_rune (bs : gostr) (r : Z) (lit : option gostr) (v : gostr) : option lexer :=
  match bs with
  | [] => Some (MkLexer [] RuneSelf [] lit v)
  | b :: rest =>
      if byte_val b <? RuneSelf then
        if byte_val b =? 0 then read_rune rest r lit v
        else if (byte_val b =? 13) && has_prefix [byte_of 10] rest then read_rune rest r lit v
        else if (byte_val b =? 92) && negb (r =? 92) && has_prefix [byte_of 10] rest then
          Some (MkLexer (drop 1 rest) escNewl (go "\") lit v)
        else if (byte_val b =? 92) && negb (r =? 92) && has_prefix (map byte_of [13; 10]) rest then
          Some (MkLexer (drop 2 rest) escNewl (go "\") lit v)
        else Some (MkLexer rest (byte_val b) [b] ((.++ [b]) <$> lit) v)
      else
        let '(r, w) := DecodeRuneInString bs in
        if (r =? RuneError) && (w =? 1)%nat then None
        else
          let r := if r =? RuneSelf then 160 else if r =? escNewl then 161 else r in
          Some (MkLexer (drop w bs) r (take w bs) ((.++ take w bs) <$> lit) v)
  end.
Definition next_rune (l : lexer) : option lexer := read_rune (lx_bs l) (lx_r l) (lx_lit l) (lx_val l).

(** [newLit(p.r)]. *)
Definition newLit (l : lexer) : lexer :=
  lx_set_lit (Some (if lx_r l =? RuneSelf then [] else if lx_r l =? escNewl then [] else lx_cur l)) l.
(** [endLit]: the bytes of the literal, without those of the rune that ended it. *)
Definition endLit (l : lexer) : gostr * lexer :=
  let lit := default [] (lx_lit l) in
  (if (lx_r l =? RuneSelf) || (lx_r l =? escNewl) then lit else take (length lit - length (lx_cur l)) lit, lx_set_lit None l).

Section lexer.
(** Whether extended patterns are parsed. *)
Variable parseExtGlob : bool.

(** [extendedGlob], outside the dialect of zsh. *)
Definition extendedGlob (l : lexer) : bool :=
  parseExtGlob && negb (bool_decide (lx_val l = go "function")) && has_prefix (go "(") (lx_bs l) && negb (has_prefix (go "()") (lx_bs l)).
Definition is_char (c : ascii) (r : Z) : bool := r =? byte_val c.

Definition lit_done (l : lexer) : option (token * lexer) :=
  let '(v, l) := endLit l in Some (Literal v, lx_set_val v l).

(** The loops of the literals, at the rune that was read: every turn reads one. *)
Fixpoint lit_none (fuel : nat) (l : lexer) : option (token * lexer) :=
  match fuel with
  | O => None
  | S fuel =>
      let r := lx_r l in
      let lit := default [] (lx_lit l) in
      let next l := l ← next_rune l; lit_none fuel l in
      if r =? RuneSelf then lit_done l
      else if char_in r (map byte_of [32; 9; 10] ++ go "&|;)(><`'$" ++ [dquote]) then lit_done l
      else if is_char "\" r then l ← next_rune l; next l
      else if char_in r (go "?*+@!") && extendedGlob l then lit_done l
      else if is_char "[" r && (1 <? length lit)%nat && negb (has_prefix (go "[") lit) then lit_done l
      else next l
  end.
Definition advanceLitNone (l : lexer) : option (token * lexer) := lit_none (S (S (length (lx_bs l)))) (newLit l).

Fixpoint lit_dquote (fuel : nat) (l : lexer) : option (token * lexer) :=
  match fuel with
  | O => None
  | S fuel =>
      let r := lx_r l in
      let next l := l ← next_rune l; lit_dquote fuel l in
      if r =? RuneSelf then lit_done l
      else if is_char dquote r then lit_done l
      else if is_char "\" r then l ← next_rune l; next l
      else if (r =? escNewl) || char_in r (go "`$") then lit_done l
      else next l
  end.
Definition advanceLitDquote (l : lexer) : option (token * lexer) := lit_dquote (S (S (length (lx_bs l)))) (newLit l).

(** [for r == escNewl { r = p.rune() }]. *)
Fixpoint skip_escNewl (fuel : nat) (l : lexer) : option lexer :=
  match fuel with
  | O => None
  | S fuel => if lx_r l =? escNewl then l ← next_rune l; skip_escNewl fuel l else Some l
  end.

(** [regToken]. *)
Definition regToken (l : lexer) : option (token * lexer) :=
  let r := lx_r l in
  if is_char "'" r then l ← next_rune l; Some (SglQuote false, l)
  else if is_char dquote r then l ← next_rune l; Some (DblQuote false, l)
  else if is_char "$" r then
    l ← next_rune l;
    if is_char "'" (lx_r l) then l ← next_rune l; Some (SglQuote true, l)
    else if is_char dquote (lx_r l) then l ← next_rune l; Some (DblQuote true, l)
    else None
  else if is_char "`" r then None
  else if char_in r (go "<>") then
    if has_prefix (go "(") (lx_bs l) then None else Some (Ended false, l)
  else Some (Ended false, l).

(** [Parser.next] at the rune that was read: in a word, at its start or between double quotes. *)
Definition next_token (quote : quoteState) (spaced : bool) (l : lexer) : option (token * lexer) :=
  if lx_r l =? RuneSelf then Some (Ended false, l)
  else
    l ← skip_escNewl (S (S (length (lx_bs l)))) l;
    let r := lx_r l in
    if decide (quote = dblQuotes) then
      if is_char dquote r then l ← next_rune l; Some (DblQuote false, l)
      else if char_in r (go "`$") then None
      else advanceLitDquote l
    else if r =? RuneSelf then Some (Ended false, l)
    else if char_in r (map byte_of [32; 9; 10]) then Some (Ended true, l)
    else if char_in r (dquote :: go ";'()$|&><`") then regToken l
    else if is_char "#" r then
      if bool_decide (quote = unquotedWordCont) && negb spaced then advanceLitNone l else Some (Ended false, l)
    else if is_char "=" r && has_prefix (go "(") (lx_bs l) then None
    else if char_in r (go "?*+@!") && extendedGlob l then None
    else advanceLitNone l.

(** ** The parts of a word *)

Inductive WordPart := Lit (Value : gostr) | SglQuoted (Dollar : bool) (Value : gostr) | DblQuoted (Dollar : bool) (Parts : list gostr).

(** The loop over the text between single quotes. *)
Fixpoint sgl_loop (fuel : nat) (dollar : bool) (l : lexer) : option (gostr * lexer) :=
  match fuel with
  | O => None
  | S fuel =>
      let next l := l ← next_rune l; sgl_loop fuel dollar l in
      if is_char "\" (lx_r l) then if dollar then l ← next_rune l; next l else next l
      else if is_char "'" (lx_r l) then Some (endLit l)
      else if lx_r l =? escNewl then next (lx_set_lit ((.++ [("\")%char; byte_of 10]) <$> lx_lit l) l)
      else if lx_r l =? RuneSelf then None
      else next l
  end.

(** [wordParts] between double quotes: literals, up to the closing quote. *)
Fixpoint dbl_parts (fuel : nat) (tok : token) (l : lexer) (parts : list gostr) : option (list gostr * token * lexer) :=
  match fuel with
  | O => None
  | S fuel =>
      match tok with
      | Literal v => '(tok, l) ← next_token dblQuotes false l; dbl_parts fuel tok l (parts ++ [v])
      | _ => Some (parts, tok, l)
      end
  end.

(** [wordPart] at a token: the part and the token behind it; no part where the word ends. *)
Definition wordPart (tok : token) (l : lexer) : option (option (WordPart * token * lexer)) :=
  match tok with
  | Literal v => '(tok, l) ← next_token unquotedWordCont false l; Some (Some (Lit v, tok, l))
  | SglQuote dollar =>
      '(v, l) ← sgl_loop (S (S (length (lx_bs l)))) dollar (newLit l);
      l ← next_rune l;
      '(tok, l) ← next_token unquotedWordCont false l;
      Some (Some (SglQuoted dollar v, tok, l))
  | DblQuote dollar =>
      '(tok, l) ← next_token dblQuotes false l;
      '(parts, tok, l) ← dbl_parts (S (S (length (lx_bs l)))) tok l [];
      if decide (tok = DblQuote false) then
        '(tok, l) ← next_token unquotedWordCont false l;
        Some (Some (DblQuoted dollar parts, tok, l))
      else None
  | Ended _ => Some None
  end.
Fixpoint wordParts (fuel : nat) (tok : token) (l : lexer) (wps : list WordPart) : option (list WordPart * lexer) :=
  match fuel with
  | O => None
  | S fuel =>
      r ← wordPart tok l;
      match r with
      | None => Some (wps, l)
      | Some (part, tok, l) => if decide (tok = Ended true) then Some (wps ++ [part], l) else wordParts fuel tok l (wps ++ [part])
      end
  end.
End lexer.

(** ** Expansion *)

(** Where a tilde leads: [HOME], the home of the startup, those of users, and [USERPROFILE] on Windows. *)
Record homes := MkHomes { HOME : option gostr; StartupHome : gostr; user_home : gostr → option gostr; USERPROFILE : option gostr }.

Section expand.
Variable cfg : homes.

Definition joinTildeHome (home rest : gostr) : gostr * gostr :=
  (home, if bool_decide (home = go "/") && has_prefix (go "/") rest then trim_prefix (go "/") rest else rest).
(** [expandUserWithHome]: the prefix and the rest, when a tilde is expanded. *)
Definition expandUserWithHome (field : gostr) (moreFields : bool) (preferStartupHome : bool) : option (gostr * gostr) :=
  if negb (has_prefix (go "~") field) then None
  else
    let name := drop 1 field in
    let i := index_byte "/" name in
    if bool_decide (i = None) && moreFields then None
    else
      let rest := match i with Some i => drop i name | None => [] end in
      let name := match i with Some i => take i name | None => name end in
      let home_of h := Some (joinTildeHome h rest) in
      if decide (name = []) then
        if preferStartupHome && negb (bool_decide (StartupHome cfg = [])) then home_of (StartupHome cfg)
        else
          match HOME cfg with
          | Some h => home_of h
          | None =>
              if negb preferStartupHome && negb (bool_decide (StartupHome cfg = [])) then home_of (StartupHome cfg)
              else match USERPROFILE cfg with Some h => home_of h | None => None end
          end
      else match user_home cfg name with Some h => home_of h | None => None end.

(** The parts of an unquoted literal: a backslash quotes the byte behind it. *)
Fixpoint lit_parts (s acc : gostr) : list fieldPart :=
  let flush := if decide (acc = []) then [] else [plain_part acc] in
  match s with
  | [] => flush
  | c :: s' =>
      if Ascii.eqb c "\" then match s' with [] => flush | d :: s' => flush ++ MkPart [d] [] quoteSingle :: lit_parts s' [] end
      else lit_parts s' (acc ++ [c])
  end.
(** [strings.Cut(s, "\x00")]. *)
Definition cut_null (s : gostr) : gostr := match index_byte (byte_of 0) s with Some i => take i s | None => s end.
(** A literal between double quotes ([wordField] with [quoteDouble]). *)
Fixpoint dq_unescape (s : gostr) : gostr :=
  match s with
  | c :: s1 =>
      match s1 with
      | d :: s' => if Ascii.eqb c "\" && byte_in d (dquote :: go "\$`") then d :: dq_unescape s' else c :: dq_unescape s1
      | [] => [c]
      end
  | [] => []
  end.
Definition dq_fields (parts : list gostr) : list fieldPart := map (fun s => MkPart (cut_null (dq_unescape s)) [] quoteDouble) parts.

(** The parts that [wordFieldsOpt] appends for the [i]-th of [n] word parts. *)
Definition part_fields (preferStartupHome cLocale : bool) (n i : nat) (wp : WordPart) : list fieldPart :=
  match wp with
  | Lit s =>
      match (if (i =? 0)%nat then expandUserWithHome s (1 <? n)%nat preferStartupHome else None) with
      | Some (prefix, rest) =>
          (if negb (bool_decide (prefix = [])) || bool_decide (rest = []) then [MkPart prefix [] quoteSingle] else []) ++ lit_parts rest []
      | None => lit_parts s []
      end
  | SglQuoted dollar s => [MkPart (if dollar then cut_null (decodeANSICString cLocale s) else s) [] quoteSingle]
  | DblQuoted _ parts => match dq_fields parts with [] => [MkPart [] [] quoteDouble] | fs => fs end
  end.
(** [wordFieldsOpt] without the tildes of assignments. *)
Definition wordFieldsOpt (preferStartupHome cLocale : bool) (wps : list WordPart) : list (list fieldPart) :=
  finish (foldl (fun s p => appendPart p s) newFieldSplitter (concat (imap (part_fields preferStartupHome cLocale (length wps)) wps))).

Definition fieldJoin (parts : list fieldPart) : gostr := concat (map val parts).
(** Whether [escapedGlobField] finds a pattern. *)
Definition escapedGlobField (extGlob : bool) (parts : list fieldPart) : bool :=
  existsb (fun p => bool_decide (quote p = quoteNone) && HasMeta (val p) (if extGlob then ExtendedOperators else 0%N)) parts.
(** [expandPathField], where there is no pattern. *)
Definition expandPathField (extGlob canReadDir : bool) (field : list fieldPart) : option (list gostr) :=
  if negb (escapedGlobField extGlob field) || negb canReadDir then Some [fieldJoin field] else None.

(** [finishWord] and [fieldsSeq] on one word: words with braces go on to the brace scanner. *)
Definition has_brace (wp : WordPart) : bool := match wp with Lit s => byte_in "{" s | _ => false end.
Definition word_fields (extGlob canReadDir preferStartupHome cLocale : bool) (wps : list WordPart) : option (list gostr) :=
  if existsb has_brace wps then None
  else fields ← mapM (expandPathField extGlob canReadDir) (wordFieldsOpt preferStartupHome cLocale wps); Some (concat fields).
End expand.

(** ** Reading an argument *)

(** How a shell reads: its dialect, its locale and its environment. *)
Record reader := MkReader { rd_parseExtGlob : bool; rd_extGlob : bool; rd_canReadDir : bool; rd_preferStartupHome : bool; rd_cLocale : bool; rd_homes : homes; rd_val : gostr }.
(** The word at the start of [src] and the text behind it. *)
Definition parse_word (rd : reader) (src : gostr) : option (list WordPart * gostr) :=
  l ← read_rune src 32 None (rd_val rd);
  '(tok, l) ← next_token (rd_parseExtGlob rd) noState true l;
  '(wps, l) ← wordParts (rd_parseExtGlob rd) (S (length src)) tok l [];
  Some (wps, lx_cur l ++ lx_bs l).
(** The fields of the argument at the start of [src], and the text behind it. *)
Definition read_argument (rd : reader) (src : gostr) : option (list gostr * gostr) :=
  '(wps, rest) ← parse_word rd src;
  fields ← word_fields (rd_homes rd) (rd_extGlob rd) (rd_canReadDir rd) (rd_preferStartupHome rd) (rd_cLocale rd) wps;
  Some (fields, rest).

(** ** Reading a rune *)

(** The first byte of a text, as a number; -1 at the end. *)
Definition head_val (t : gostr) : Z := match t with c :: _ => byte_val c | [] => -1 end.
Definition norm (r : rune) : rune := if r =? RuneSelf then 160 else if r =? escNewl then 161 else r.
Lemma norm_ne u : good u → norm u.1 ≠ RuneSelf ∧ norm u.1 ≠ escNewl.
Proof.
  intros _. unfold norm, RuneSelf, escNewl. destruct (Z.eqb_spec u.1 128); [done|]. by destruct (Z.eqb_spec u.1 129).
Qed.
Lemma norm_ascii u z : good u → z < 128 → (norm u.1 =? z) = (u.1 =? z).
Proof.
  intros _ Hz. unfold norm, RuneSelf, escNewl. destruct (Z.eqb_spec u.1 128) as [->|]; [|destruct (Z.eqb_spec u.1 129) as [->|]; [|done]].
  - rewrite !(proj2 (Z.eqb_neq _ _)) by lia. done.
  - rewrite !(proj2 (Z.eqb_neq _ _)) by lia. done.
Qed.
Lemma good_head u t : good u → head_val (u.2 ++ t) = u.1 ∨ (128 ≤ u.1 ∧ 128 ≤ head_val (u.2 ++ t)).
Proof.
  intros Hg. destruct (good_cases u Hg) as [(c&->&Hc)|[Hh Hb]]; [by left|]. right. split; [done|]. destruct Hg as (Hne&_). destruct u as [r [|c s]]; [done|].
  specialize (Hb c ltac:(left)). unfold is_ascii, RuneSelf in Hb. simpl. lia.
Qed.

(** What is read next of a text: its first rune, ordinary or a backslash that stays one. *)
Lemma read_good u t r lit v : good u → u.1 ∉ [0; 13; 92] → read_rune (u.2 ++ t) r lit v = Some (MkLexer t (norm u.1) u.2 ((.++ u.2) <$> lit) v).
Proof.
  intros Hg Hr. destruct (good_cases u Hg) as [(c&->&Hc)|[Hh Hb]].
  - cbn [snd app read_rune]. unfold is_ascii in Hc. cbn [fst] in *. rewrite (proj2 (Z.ltb_lt _ _)) by done.
    assert (byte_val c ≠ 0 ∧ byte_val c ≠ 13 ∧ byte_val c ≠ 92) as (H1&H2&H3) by (split_and!; intros E; apply Hr; rewrite E; set_solver).
    rewrite (proj2 (Z.eqb_neq _ 0)), (proj2 (Z.eqb_neq _ 13)), (proj2 (Z.eqb_neq _ 92)) by done. cbn [andb].
    unfold norm, RuneSelf, escNewl in *. by rewrite !(proj2 (Z.eqb_neq _ _)) by lia.
  - pose proof (good_decode u t Hg) as Hd. pose proof Hg as (Hne&_&Hi). destruct u as [ru [|c s]]; [done|]. cbn [fst snd] in *.
    specialize (Hb c ltac:(left)). unfold is_ascii in Hb. cbn [app read_rune]. rewrite (proj2 (Z.ltb_ge _ _)) by lia. cbn [app] in Hd. rewrite Hd.
    unfold invalid_rune in Hi. cbn [fst snd] in Hi. rewrite Hi. f_equal. unfold norm. change (c :: s ++ t) with ((c :: s) ++ t).
    rewrite drop_app_length, take_app_length. done.
Qed.
Lemma read_backslash t r lit v : (r = 92 ∨ (head_val t ≠ 10 ∧ head_val t ≠ 13)) →
  read_rune (c92 :: t) r lit v = Some (MkLexer t 92 [c92] ((.++ [c92]) <$> lit) v).
Proof.
  intros H. cbn [read_rune]. change (byte_val c92) with 92. cbn [Z.ltb Z.eqb RuneSelf]. change (92 <? RuneSelf) with true. cbn [andb Z.eqb].
  change (92 =? 0) with false. change (92 =? 13) with false. change (92 =? 92) with true. cbn [andb].
  destruct H as [->|[H1 H2]]; [done|]. destruct (negb (r =? 92)); [|done]. cbn [andb]. destruct t as [|d t]; [done|]. simpl in H1, H2.
  assert (∀ z, byte_val d ≠ z → 0 ≤ z < 256 → bool_decide (byte_of z = d) = false) as Hne.
  { intros z Hz Hb. apply bool_decide_eq_false_2. intros <-. by rewrite byte_val_of in Hz. }
  cbn [has_prefix map]. by rewrite !Hne by done.
Qed.
Lemma read_end r lit v : read_rune [] r lit v = Some (MkLexer [] RuneSelf [] lit v).
Proof. done. Qed.

(** The lexer at a text, with a literal so far: the rune before matters for line continuations only. *)
Definition st (t : gostr) (lit : option gostr) (v : gostr) : lexer := default (MkLexer [] 0 [] None []) (read_rune t 32 lit v).
Lemma st_unit u t lit v : good u → u.1 ∉ [0; 13; 92] → st (u.2 ++ t) lit v = MkLexer t (norm u.1) u.2 ((.++ u.2) <$> lit) v.
Proof. intros Hg Hr. unfold st. by rewrite read_good. Qed.
Lemma st_backslash t lit v : head_val t ≠ 10 → head_val t ≠ 13 → st (c92 :: t) lit v = MkLexer t 92 [c92] ((.++ [c92]) <$> lit) v.
Proof. intros. unfold st. rewrite read_backslash; [done|by right]. Qed.

(** Texts whose first rune is read as itself. *)
Definition plain_head (t : gostr) : Prop :=
  t = [] ∨ (∃ u t', t = u.2 ++ t' ∧ good u ∧ u.1 ∉ [0; 13; 92]) ∨ (∃ t', t = c92 :: t' ∧ head_val t' ≠ 10 ∧ head_val t' ≠ 13).
Lemma next_st t r cur lit v : plain_head t → next_rune (MkLexer t r cur lit v) = Some (st t lit v).
Proof.
  unfold next_rune. cbn [lx_bs lx_r lx_lit lx_val]. intros [->|[(u&t'&->&Hg&Hr)|(t'&->&H1&H2)]]; [done|by rewrite read_good, st_unit|].
  rewrite read_backslash, st_backslash by auto. done.
Qed.
Lemma plain_head_ascii c t : is_ascii c → byte_val c ∉ [0; 13; 92] → plain_head (c :: t).
Proof. intros Hc Hr. right. left. exists (byte_val c, [c]), t. split; [done|]. split; [by apply good_ascii|done]. Qed.
Lemma st_ascii c t lit v : is_ascii c → byte_val c ∉ [0; 13; 92] → st (c :: t) lit v = MkLexer t (byte_val c) [c] ((.++ [c]) <$> lit) v.
Proof.
  intros Hc Hr. pose proof (st_unit (byte_val c, [c]) t lit v (good_ascii c Hc) Hr) as E. cbn [fst snd app] in E. rewrite E. f_equal. unfold norm, is_ascii, RuneSelf, escNewl in *.
  by rewrite !(proj2 (Z.eqb_neq _ _)) by lia.
Qed.
(** The byte behind a backslash that was read. *)
Lemma next_escaped d t cur lit v : is_ascii d → 32 ≤ byte_val d →
  next_rune (MkLexer (d :: t) 92 cur lit v) = Some (MkLexer t (byte_val d) [d] ((.++ [d]) <$> lit) v).
Proof.
  intros Hd H32. destruct (decide (byte_val d = 92)) as [E|Hne].
  - assert (d = c92) as -> by (by rewrite <- (byte_of_val d), E). unfold next_rune. cbn [lx_bs lx_r lx_lit lx_val]. rewrite read_backslash by (by left). done.
  - assert (byte_val d ∉ [0; 13; 92]) as Hn by (rewrite !elem_of_cons, elem_of_nil; lia).
    rewrite next_st by (by apply plain_head_ascii). by rewrite st_ascii.
Qed.

(** ** Texts that a loop of the lexer goes over *)

(** How a loop takes backslashes: there are none, each quotes the byte behind it, or they are bytes as others. *)
Inductive backslashes := NoBackslash | Pairs | AsBytes.
Inductive seg (m : backslashes) (U : rune → Prop) : gostr → Prop :=
| seg_nil : seg m U []
| seg_unit u s : good u → 32 ≤ u.1 → u.1 ≠ 92 → U u.1 → seg m U s → seg m U (u.2 ++ s)
| seg_pair d s : m = Pairs → is_ascii d → 32 ≤ byte_val d → seg m U s → seg m U (c92 :: d :: s)
| seg_byte s : m = AsBytes → seg m U s → seg m U (c92 :: s).

Lemma unit_plain u : 32 ≤ u.1 → u.1 ≠ 92 → (u : rune * gostr).1 ∉ [0; 13; 92].
Proof. rewrite !elem_of_cons, elem_of_nil. lia. Qed.
Lemma seg_head m U s t : seg m U s → s = [] ∨ 32 ≤ head_val (s ++ t).
Proof.
  intros [|u s' Hg H32 _ _ _|d s' _ _ _ _|s' _ _]; [by left|right..]; [|by vm_compute..]. rewrite <- (assoc_L (++)).
  destruct (good_head u (s' ++ t) Hg) as [->|[_ H]]; lia.
Qed.
Lemma seg_plain_head m U s t : seg m U s → (m = AsBytes → head_val t ≠ 10 ∧ head_val t ≠ 13) → plain_head t → plain_head (s ++ t).
Proof.
  intros Hs Ht Hp. destruct Hs as [|u s' Hg H32 Hne _ Hs|d s' _ Hd H32 _|s' Hm Hs]; [done|..].
  - right. left. exists u, (s' ++ t). rewrite (assoc_L (++)). split; [done|]. split; [done|]. by apply unit_plain.
  - right. right. exists (d :: s' ++ t). simpl. split; [done|]. lia.
  - right. right. exists (s' ++ t). split; [done|]. destruct (seg_head m U s' t Hs) as [->|H]; [by apply Ht|lia].
Qed.

(** How many turns a loop has left at most. *)
Definition turns (l : lexer) : nat := length (lx_bs l) + if decide (lx_cur l = []) then 1 else 2.
Lemma turns_st x lit v : plain_head x → (turns (st x lit v) ≤ S (length x))%nat.
Proof.
  intros [->|[(u&x'&->&Hg&Hr)|(x'&->&H1&H2)]]; [by vm_compute; lia| |].
  - rewrite st_unit by done. unfold turns. cbn [lx_bs lx_cur]. destruct Hg as (Hne&_). rewrite decide_False by done. rewrite length_app. destruct u as [r [|c w]]; [done|]. simpl. lia.
  - rewrite st_backslash by done. unfold turns. simpl. lia.
Qed.

Section scan.
Context {X : Type} (loop : nat → lexer → option X) (m : backslashes) (U : rune → Prop) (t : gostr).
Hypothesis t_plain : plain_head t.
Hypothesis t_head : m = AsBytes → head_val t ≠ 10 ∧ head_val t ≠ 13.
(** What a turn of the loop does on runes that it goes over. *)
Hypothesis loop_unit : ∀ fuel u s lit v, good u → 32 ≤ u.1 → u.1 ≠ 92 → U u.1 → seg m U s →
  loop (S fuel) (MkLexer (s ++ t) (norm u.1) u.2 lit v) = next_rune (MkLexer (s ++ t) (norm u.1) u.2 lit v) ≫= loop fuel.
Hypothesis loop_pair : ∀ fuel s lit v, m = Pairs →
  loop (S fuel) (MkLexer s 92 [c92] lit v) = next_rune (MkLexer s 92 [c92] lit v) ≫= fun l => next_rune l ≫= loop fuel.
Hypothesis loop_byte : ∀ fuel s lit v, m = AsBytes → loop (S fuel) (MkLexer s 92 [c92] lit v) = next_rune (MkLexer s 92 [c92] lit v) ≫= loop fuel.

(** The loop goes over the text and is then at what follows. *)
Lemma scan s : seg m U s → ∀ fuel done v, (turns (st (s ++ t) (Some done) v) ≤ fuel)%nat →
  ∃ fuel', (turns (st t (Some (done ++ s)) v) ≤ fuel')%nat ∧ loop fuel (st (s ++ t) (Some done) v) = loop fuel' (st t (Some (done ++ s)) v).
Proof using All.
  induction 1 as [|u s Hg H32 Hne Hu Hs IH|d s Hm Hd H32 Hs IH|s Hm Hs IH]; intros fuel done v Hfuel.
  - exists fuel. rewrite app_nil_r. done.
  - assert (plain_head (s ++ t)) as Hp by (by eapply seg_plain_head). pose proof (turns_st (s ++ t) (Some (done ++ u.2)) v Hp) as Hl.
    rewrite <- (assoc_L (++)) in *. rewrite st_unit in * by (by try apply unit_plain). cbn [fmap option_fmap option_map] in *.
    unfold turns in Hfuel. cbn [lx_bs lx_cur] in Hfuel. rewrite decide_False in Hfuel by apply Hg. destruct fuel as [|fuel]; [lia|].
    rewrite loop_unit, next_st by done. cbn [mbind option_bind]. destruct (IH fuel (done ++ u.2) v) as (f'&Hf'&->); [lia|].
    exists f'. by rewrite <- (assoc_L (++)) in *.
  - assert (plain_head (s ++ t)) as Hp by (by eapply seg_plain_head). pose proof (turns_st (s ++ t) (Some (done ++ [c92; d])) v Hp) as Hl.
    cbn [app] in *. rewrite st_backslash in * by (simpl; lia). cbn [fmap option_fmap option_map] in *. unfold turns in Hfuel. simpl in Hfuel. destruct fuel as [|fuel]; [lia|].
    rewrite loop_pair by done. rewrite next_escaped by done. cbn [mbind option_bind fmap option_fmap option_map]. rewrite next_st by done. cbn [mbind option_bind].
    rewrite <- (assoc_L (++)). destruct (IH fuel (done ++ [c92; d]) v) as (f'&Hf'&Hx); [lia|]. cbn [app] in *. rewrite Hx. exists f'. rewrite <- (assoc_L (++)) in *. done.
  - assert (plain_head (s ++ t)) as Hp by (by eapply seg_plain_head). pose proof (turns_st (s ++ t) (Some (done ++ [c92])) v Hp) as Hl.
    assert (head_val (s ++ t) ≠ 10 ∧ head_val (s ++ t) ≠ 13) as [H1 H2].
    { destruct (seg_head m U s t Hs) as [->|H]; [by apply t_head|lia]. }
    cbn [app] in *. rewrite st_backslash in * by done. cbn [fmap option_fmap option_map] in *. unfold turns in Hfuel. simpl in Hfuel. destruct fuel as [|fuel]; [lia|].
    rewrite loop_byte, next_st by done. cbn [mbind option_bind]. destruct (IH fuel (done ++ [c92]) v) as (f'&Hf'&Hx); [lia|].
    rewrite Hx. exists f'. by rewrite <- (assoc_L (++)) in *.
Qed.
End scan.

Lemma st_lit t lit v lit' v' : plain_head t →
  st t lit v = MkLexer (lx_bs (st t lit' v')) (lx_r (st t lit' v')) (lx_cur (st t lit' v')) ((.++ lx_cur (st t lit' v')) <$> lit) v.
Proof.
  intros [->|[(u&t'&->&Hg&Hr)|(t'&->&H1&H2)]].
  - unfold st. simpl. f_equal. destruct lit; simpl; by rewrite ?app_nil_r.
  - by rewrite !st_unit by done.
  - by rewrite !st_backslash by done.
Qed.
Lemma st_not_special t lit v : plain_head t → lx_r (st t lit v) ≠ escNewl ∧ (lx_r (st t lit v) = RuneSelf → lx_cur (st t lit v) = []).
Proof.
  intros [->|[(u&t'&->&Hg&Hr)|(t'&->&H1&H2)]]; [by vm_compute| |].
  - rewrite st_unit by done. simpl. destruct (norm_ne u Hg). done.
  - by rewrite st_backslash by done.
Qed.
Lemma newLit_st t v : plain_head t → newLit (st t None v) = st t (Some []) v.
Proof.
  intros Hp. rewrite (st_lit t (Some []) v None v Hp). destruct (st_not_special t None v Hp) as [H1 H2]. unfold newLit, lx_set_lit.
  pose proof (st_lit t None v None v Hp) as E. destruct (st t None v) as [bs r cur lit v']. cbn [lx_bs lx_r lx_cur lx_lit lx_val] in *. injection E as -> ->.
  f_equal. simpl. rewrite (proj2 (Z.eqb_neq r escNewl)) by done. destruct (Z.eqb_spec r RuneSelf) as [->|]; [by rewrite H2|done].
Qed.
(** The end of a literal at a rune: its bytes are put back. *)
Lemma endLit_st t done_ v : plain_head t → endLit (st t (Some done_) v) = (done_, st t None v).
Proof.
  intros Hp. destruct (st_not_special t (Some done_) v Hp) as [H1 H2]. pose proof (st_lit t None v (Some done_) v Hp) as E0. pose proof (st_lit t (Some done_) v None v Hp) as E1.
  unfold endLit, lx_set_lit. rewrite E0. rewrite E1. cbn [lx_bs lx_r lx_cur lx_lit lx_val default from_option fmap option_fmap option_map]. f_equal.
  rewrite E1 in H1, H2. cbn [lx_r lx_cur] in H1, H2. rewrite (proj2 (Z.eqb_neq _ escNewl)) by done. rewrite orb_false_r.
  destruct (Z.eqb_spec (lx_r (st t None v)) RuneSelf) as [E|]; [by rewrite H2, app_nil_r|]. simpl. rewrite length_app, Nat.add_sub. by apply take_app_length.
Qed.
Lemma st_val t lit v v' : plain_head t → lx_set_val v' (st t lit v) = st t lit v'.
Proof. intros Hp. rewrite (st_lit t lit v None v Hp), (st_lit t lit v' None v Hp). done. Qed.

Lemma char_in_norm u L : good u → forallb (fun c => byte_val c <? 128) L = true → char_in (norm u.1) L = char_in u.1 L.
Proof.
  intros Hg. unfold char_in. induction L as [|c L IH]; [done|]. simpl. intros [Hc HL]%andb_prop. rewrite norm_ascii; [|done|by apply Z.ltb_lt]. by rewrite IH.
Qed.
Lemma char_in_false r L : (∀ c, c ∈ L → r ≠ byte_val c) → char_in r L = false.
Proof.
  intros H. apply not_true_iff_false. intros (c&Hc%list_elem_of_In&E%Z.eqb_eq)%existsb_exists. by eapply H.
Qed.
Lemma is_char_norm u c : good u → byte_val c < 128 → is_char c (norm u.1) = (u.1 =? byte_val c).
Proof. intros. by apply norm_ascii. Qed.
Lemma has_paren x : head_val x ≠ 40 → has_prefix (go "(") x = false.
Proof. intros H. destruct x as [|c x]; [done|]. simpl in *. rewrite bool_decide_eq_false_2; [done|]. intros <-. by vm_compute in H. Qed.
Lemma seg_head_ne m U s t z : z < 128 → z ≠ 92 → ¬ U z → head_val t ≠ z → seg m U s → head_val (s ++ t) ≠ z.
Proof.
  intros Hz H92 HU Ht [|u s' Hg H32 _ Hu _|d s' _ _ _ _|s' _ _]; [done| |simpl; change (byte_val c92) with 92; lia..].
  rewrite <- (assoc_L (++)). destruct (good_head u (s' ++ t) Hg) as [->|[_ H]]; [|lia]. intros <-. by apply HU.
Qed.

(** ** The literals and quotes *)

Definition lit_stops : gostr := map byte_of [32; 9; 10] ++ go "&|;)(><`'$" ++ [dquote].
Definition calm (r : rune) : Prop := char_in r lit_stops = false ∧ r ≠ 91.
(** Where an unquoted literal stops. *)
Definition stops (t : gostr) : Prop := t = [] ∨ ∃ c t', t = c :: t' ∧ c ∈ map byte_of [32; 9; 10] ++ go "&|;)'$" ++ [dquote].
Lemma stop_byte c : c ∈ map byte_of [32; 9; 10] ++ go "&|;)'$" ++ [dquote] →
  is_ascii c ∧ (byte_val c ∉ [0; 13; 92]) ∧ byte_val c ≠ 40 ∧ byte_val c ≠ 128 ∧ char_in (byte_val c) lit_stops = true.
Proof.
  intros Hc. assert ((byte_val c <? 128) && negb (existsb (Z.eqb (byte_val c)) [0; 13; 92; 40]) && char_in (byte_val c) lit_stops = true) as H.
  { by apply (elem_forallb (fun c => (byte_val c <? 128) && negb (existsb (Z.eqb (byte_val c)) [0; 13; 92; 40]) && char_in (byte_val c) lit_stops) (map byte_of [32; 9; 10] ++ go "&|;)'$" ++ [dquote])). }
  apply andb_prop in H as [H Hs]. apply andb_prop in H as [H Hn]. cbn [existsb] in Hn. to_prop. unfold is_ascii, RuneSelf. rewrite !elem_of_cons, elem_of_nil. split_and!; [lia..|done].
Qed.
Lemma stops_plain t : stops t → plain_head t ∧ head_val t ≠ 40.
Proof.
  intros [->|(c&t'&->&Hc)]; [split; [by left|done]|]. destruct (stop_byte c Hc) as (H1&H2&H3&_). split; [by apply plain_head_ascii|done].
Qed.

Section words.
Variable ext : bool.

Lemma lit_none_stop f t done_ v : stops t → lit_none ext (S f) (st t (Some done_) v) = Some (Literal done_, st t None done_).
Proof.
  intros Hs. destruct (stops_plain t Hs) as [Hp _]. cbn [lit_none]. unfold lit_done. rewrite (endLit_st t done_ v Hp), (st_val t None v done_ Hp).
  destruct Hs as [->|(c&t'&->&Hc)]; [done|]. destruct (stop_byte c Hc) as (H1&H2&_&_&H4). rewrite (st_ascii c t' (Some done_)) by done. cbn [lx_r].
  destruct (byte_val c =? RuneSelf); [done|]. fold lit_stops. by rewrite H4.
Qed.
Lemma lex_literal s t v : seg Pairs calm s → s ≠ [] → stops t → advanceLitNone ext (st (s ++ t) None v) = Some (Literal s, st t None s).
Proof.
  intros Hs Hne Ht. destruct (stops_plain t Ht) as [Hp H40]. assert (plain_head (s ++ t)) as Hps by (by eapply seg_plain_head).
  unfold advanceLitNone. rewrite newLit_st by done.
  destruct (scan (lit_none ext) Pairs calm t Hp ltac:(done)) with (s := s) (fuel := S (S (length (lx_bs (st (s ++ t) None v))))) (done := [] : gostr) (v := v) as (f'&Hf'&->); [| |done|done| |].
  - intros fuel u s' lit v' Hg H32 H92 [Hu H91] Hs'. cbn [lit_none lx_r lx_lit]. rewrite (proj2 (Z.eqb_neq _ _)) by (by apply norm_ne).
    fold lit_stops. rewrite char_in_norm, Hu by done. rewrite is_char_norm by done. change (byte_val "\") with 92. rewrite (proj2 (Z.eqb_neq u.1 92)) by done.
    unfold extendedGlob. cbn [lx_bs]. rewrite has_paren; [|eapply (seg_head_ne Pairs calm); [done..| |done|done]; intros [H _]; by vm_compute in H].
    rewrite andb_false_r. cbn [andb]. rewrite andb_false_r. rewrite is_char_norm by done. change (byte_val "[") with 91. rewrite (proj2 (Z.eqb_neq u.1 91)) by done. done.
  - intros fuel s' lit v' _. done.
  - rewrite (st_lit (s ++ t) (Some []) v None v Hps). unfold turns. cbn [lx_bs lx_cur]. destruct (decide _); lia.
  - unfold turns in Hf'. destruct f' as [|f']; [destruct (decide _); lia|]. by apply lit_none_stop.
Qed.

(** The text between single quotes. *)
Definition in_single (r : rune) : Prop := r ≠ 39.
Lemma quote_plain c t : c ∈ [("'")%char; dquote] → plain_head (c :: t).
Proof. rewrite !elem_of_cons, elem_of_nil. intros [->|[->|[]]]; (apply plain_head_ascii; [done|apply (bool_decide_unpack _); vm_compute; done]). Qed.
Lemma st_quote c t lit v : c ∈ [("'")%char; dquote] → st (c :: t) lit v = MkLexer t (byte_val c) [c] ((.++ [c]) <$> lit) v.
Proof. rewrite !elem_of_cons, elem_of_nil. intros [->|[->|[]]]; (apply st_ascii; [done|apply (bool_decide_unpack _); vm_compute; done]). Qed.
Lemma lex_single (dollar : bool) s t v : seg (if dollar then Pairs else AsBytes) in_single s →
  sgl_loop (S (S (length (lx_bs (st (s ++ "'"%char :: t) None v))))) dollar (newLit (st (s ++ "'"%char :: t) None v)) = Some (s, st ("'"%char :: t) None v).
Proof.
  intros Hs. assert (plain_head ("'"%char :: t)) as Hp by (apply quote_plain; set_solver).
  assert (plain_head (s ++ "'"%char :: t)) as Hps by (by eapply seg_plain_head). rewrite newLit_st by done.
  destruct (scan (fun f => sgl_loop f dollar) (if dollar then Pairs else AsBytes) in_single ("'"%char :: t) Hp ltac:(done)) with
    (s := s) (fuel := S (S (length (lx_bs (st (s ++ "'"%char :: t) None v))))) (done := [] : gostr) (v := v) as (f'&Hf'&->); [| | |done| |].
  - intros fuel u s' lit v' Hg H32 H92 Hu Hs'. unfold in_single in Hu. cbn [sgl_loop lx_r]. rewrite !is_char_norm by done.
    change (byte_val "\") with 92. change (byte_val "'") with 39. rewrite (proj2 (Z.eqb_neq u.1 92)), (proj2 (Z.eqb_neq u.1 39)) by done.
    destruct (norm_ne u Hg). by rewrite !(proj2 (Z.eqb_neq _ _)) by done.
  - intros fuel s' lit v' Hm. destruct dollar; done.
  - intros fuel s' lit v' Hm. destruct dollar; done.
  - rewrite (st_lit (s ++ "'"%char :: t) (Some []) v None v Hps). unfold turns. cbn [lx_bs lx_cur]. destruct (decide _); lia.
  - unfold turns in Hf'. destruct f' as [|f']; [destruct (decide _); lia|]. cbn [sgl_loop app]. rewrite st_quote by set_solver. cbn [lx_r].
    change (is_char "\" (byte_val "'")) with false. change (is_char "'" (byte_val "'")) with true. cbn [orb].
    pose proof (endLit_st ("'"%char :: t) s v Hp) as He. rewrite !st_quote in He by set_solver. rewrite st_quote by set_solver. by rewrite He.
Qed.

(** A literal between double quotes. *)
Definition in_double (r : rune) : Prop := r ∉ [34; 96; 36].
Lemma lex_double s t v : seg Pairs in_double s → advanceLitDquote (st (s ++ dquote :: t) None v) = Some (Literal s, st (dquote :: t) None s).
Proof.
  intros Hs. assert (plain_head (dquote :: t)) as Hp by (apply quote_plain; set_solver).
  assert (plain_head (s ++ dquote :: t)) as Hps by (by eapply seg_plain_head). unfold advanceLitDquote. rewrite newLit_st by done.
  destruct (scan lit_dquote Pairs in_double (dquote :: t) Hp ltac:(done)) with
    (s := s) (fuel := S (S (length (lx_bs (st (s ++ dquote :: t) None v))))) (done := [] : gostr) (v := v) as (f'&Hf'&->); [| |done|done| |].
  - intros fuel u s' lit v' Hg H32 H92 Hu Hs'. unfold in_double in Hu. rewrite !elem_of_cons, elem_of_nil in Hu. cbn [lit_dquote lx_r]. rewrite !is_char_norm by done.
    change (byte_val "\") with 92. change (byte_val dquote) with 34. destruct (norm_ne u Hg). rewrite char_in_norm by done.
    assert (u.1 ≠ 34 ∧ u.1 ≠ 96 ∧ u.1 ≠ 36) as (H1&H2&H3) by naive_solver.
    rewrite (char_in_false u.1 (go "`$")) by (intros c [->|[->|[]%elem_of_nil]%elem_of_cons]%elem_of_cons; done).
    by rewrite (proj2 (Z.eqb_neq _ RuneSelf)), (proj2 (Z.eqb_neq u.1 34)), (proj2 (Z.eqb_neq u.1 92)), (proj2 (Z.eqb_neq _ escNewl)) by done.
  - intros fuel s' lit v' _. done.
  - rewrite (st_lit (s ++ dquote :: t) (Some []) v None v Hps). unfold turns. cbn [lx_bs lx_cur]. destruct (decide _); lia.
  - unfold turns in Hf'. destruct f' as [|f']; [destruct (decide _); lia|]. cbn [lit_dquote app]. rewrite (st_quote dquote t (Some s)) by set_solver. cbn [lx_r].
    change (byte_val dquote =? RuneSelf) with false. change (is_char dquote (byte_val dquote)) with true. cbn iota. rewrite <- st_quote by set_solver. unfold lit_done.
    rewrite (endLit_st (dquote :: t) s v Hp). by rewrite (st_val (dquote :: t) None v s Hp).
Qed.

(** ** Tokens and parts *)

Lemma skip_st f t lit v : plain_head t → skip_escNewl (S f) (st t lit v) = Some (st t lit v).
Proof. intros Hp. cbn [skip_escNewl]. destruct (st_not_special t lit v Hp) as [H _]. by rewrite (proj2 (Z.eqb_neq _ _)). Qed.
Lemma next_single q sp x v : q ≠ dblQuotes → plain_head x → next_token ext q sp (st ("'"%char :: x) None v) = Some (SglQuote false, st x None v).
Proof.
  intros Hq Hx. unfold next_token. rewrite skip_st by (apply quote_plain; set_solver). rewrite st_quote by set_solver. cbn [lx_r lx_bs mbind option_bind].
  change (byte_val "'" =? RuneSelf) with false. cbn iota. rewrite decide_False by done. unfold regToken. cbn [lx_r].
  change (is_char "'" (byte_val "'")) with true. cbn iota. rewrite next_st by done. done.
Qed.
Lemma next_double q sp x v : plain_head x → next_token ext q sp (st (dquote :: x) None v) = Some (DblQuote false, st x None v).
Proof.
  intros Hx. unfold next_token. rewrite skip_st by (apply quote_plain; set_solver). rewrite st_quote by set_solver. cbn [lx_r lx_bs mbind option_bind].
  change (byte_val dquote =? RuneSelf) with false. cbn iota. unfold regToken. cbn [lx_r].
  change (is_char dquote (byte_val dquote)) with true. change (is_char "'" (byte_val dquote)) with false. cbn iota. rewrite next_st by done. by destruct (decide _).
Qed.
Lemma dollar_plain x : plain_head ("$"%char :: x).
Proof. apply plain_head_ascii; [done|apply (bool_decide_unpack _); vm_compute; done]. Qed.
Lemma next_dollar q sp x v : q ≠ dblQuotes → plain_head x → next_token ext q sp (st ("$"%char :: "'"%char :: x) None v) = Some (SglQuote true, st x None v).
Proof.
  intros Hq Hx. unfold next_token. rewrite skip_st by apply dollar_plain.
  rewrite (st_ascii "$" ("'"%char :: x) None v) by (first [done|apply (bool_decide_unpack _); vm_compute; done]). cbn [lx_r lx_bs mbind option_bind].
  change (byte_val "$" =? RuneSelf) with false. cbn iota. rewrite decide_False by done. unfold regToken. cbn [lx_r].
  change (is_char "'" (byte_val "$")) with false. change (is_char dquote (byte_val "$")) with false. change (is_char "$" (byte_val "$")) with true. cbn iota.
  rewrite next_st by (apply quote_plain; set_solver). cbn [mbind option_bind]. rewrite st_quote by set_solver. cbn [lx_r].
  change (is_char "'" (byte_val "'")) with true. cbn iota. rewrite next_st by done. done.
Qed.
(** A literal, at the start of a word or in it. *)
Lemma next_literal q sp s t v : q ≠ dblQuotes → seg Pairs calm s → s ≠ [] → stops t → (head_val s ≠ 35) →
  next_token ext q sp (st (s ++ t) None v) = Some (Literal s, st t None s).
Proof.
  intros Hq Hs Hne Ht H35. destruct (stops_plain t Ht) as [Hp H40]. assert (plain_head (s ++ t)) as Hps by (by eapply seg_plain_head).
  rewrite <- (lex_literal s t v) by done. unfold next_token. rewrite skip_st by done. cbn [mbind option_bind].
  destruct Hs as [|u s' Hg H32 H92 [Hu H91] Hs|d s' _ Hd Hd32 Hs|s' Hm]; [done| | |done].
  - rewrite <- !(assoc_L (++)) in *. rewrite st_unit by (by try apply unit_plain). cbn [lx_r lx_bs]. rewrite (proj2 (Z.eqb_neq _ _)) by (by apply norm_ne).
    rewrite decide_False by done. rewrite !char_in_norm by done. rewrite !is_char_norm by done.
    assert (∀ c, c ∈ lit_stops → u.1 ≠ byte_val c) as Hc.
    { intros c Hc E. unfold char_in in Hu. apply not_true_iff_false in Hu. apply Hu. apply existsb_exists. exists c. split; [by apply list_elem_of_In|by apply Z.eqb_eq]. }
    rewrite (char_in_false u.1 (map byte_of [32; 9; 10])), (char_in_false u.1 (dquote :: go ";'()$|&><`")) by (intros c Hin; apply Hc; unfold lit_stops; set_solver).
    assert (u.1 ≠ 35) as Hh. { intros E. destruct (good_head u s' Hg) as [E'|[E' _]]; [congruence|lia]. }
    change (byte_val "#") with 35. rewrite (proj2 (Z.eqb_neq _ _)) by done. unfold extendedGlob. cbn [lx_bs].
    rewrite has_paren; [destruct (u.1 =? byte_val "="), (char_in u.1 (go "?*+@!")), ext; cbn [andb]; rewrite ?andb_false_r; done|].
    eapply (seg_head_ne Pairs calm); [done..| |done|done]. intros [H _]. by vm_compute in H.
  - cbn [app]. rewrite st_backslash by (simpl; lia). cbn [lx_r lx_bs]. by rewrite decide_False.
Qed.

(** Where a word ends. *)
Definition word_end (t : gostr) : Prop := t = [] ∨ ∃ c t', t = c :: t' ∧ c ∈ map byte_of [32; 9; 10] ++ go "&|;)".
Lemma word_end_stops t : word_end t → stops t.
Proof. intros [->|(c&t'&->&Hc)]; [by left|right]. exists c, t'. split; [done|]. set_solver. Qed.
Lemma next_end q sp t v : q ≠ dblQuotes → word_end t → ∃ b, next_token ext q sp (st t None v) = Some (Ended b, st t None v).
Proof.
  intros Hq Ht. destruct (stops_plain t (word_end_stops t Ht)) as [Hp _]. unfold next_token. rewrite skip_st by done. cbn [mbind option_bind].
  destruct Ht as [->|(c&t'&->&Hc)]; [by exists false|]. rewrite decide_False by done. destruct (stop_byte c) as (H1&H2&_&H4&_); [set_solver|].
  rewrite st_ascii by done. cbn [lx_r]. rewrite (proj2 (Z.eqb_neq _ RuneSelf)) by done.
  apply elem_of_app in Hc as [Hc|Hc].
  - exists true. assert (char_in (byte_val c) (map byte_of [32; 9; 10]) = true) as ->; [|done]. by apply (elem_forallb (fun c => char_in (byte_val c) (map byte_of [32; 9; 10])) (map byte_of [32; 9; 10])).
  - exists false. assert (forallb (fun b => negb (char_in (byte_val b) (map byte_of [32; 9; 10])) && char_in (byte_val b) (dquote :: go ";'()$|&><`") && negb (is_char "'" (byte_val b)) &&
      negb (is_char dquote (byte_val b)) && negb (is_char "$" (byte_val b)) && negb (is_char "`" (byte_val b)) && negb (char_in (byte_val b) (go "<>"))) (go "&|;)") = true) as H by (vm_compute; done).
    eapply elem_forallb in H; [|exact Hc]. cbn beta in H. to_prop. unfold regToken. cbn [lx_r].
    repeat match goal with E : _ = _ |- _ => rewrite E; clear E end. done.
Qed.

Lemma part_single (dollar : bool) s t v : seg (if dollar then Pairs else AsBytes) in_single s → plain_head t →
  wordPart ext (SglQuote dollar) (st (s ++ "'"%char :: t) None v) =
    '(tok, l) ← next_token ext unquotedWordCont false (st t None v); Some (Some (SglQuoted dollar s, tok, l)).
Proof.
  intros Hs Hp. cbn [wordPart]. rewrite lex_single by done. cbn [mbind option_bind]. rewrite st_quote by set_solver. rewrite next_st by done. done.
Qed.
Lemma part_double s t v : seg Pairs in_double s → plain_head t →
  ∃ v', wordPart ext (DblQuote false) (st (s ++ dquote :: t) None v) =
    '(tok, l) ← next_token ext unquotedWordCont false (st t None v'); Some (Some (DblQuoted false (if decide (s = []) then [] else [s]), tok, l)).
Proof.
  intros Hs Hp. destruct (decide (s = [])) as [->|Hne].
  - exists v. cbn [wordPart app]. rewrite next_double by done. done.
  - exists s. assert (plain_head (s ++ dquote :: t)) as Hps by (eapply seg_plain_head; [done|done|apply quote_plain; set_solver]).
    assert (next_token ext dblQuotes false (st (s ++ dquote :: t) None v) = Some (Literal s, st (dquote :: t) None s)) as Hn.
    { rewrite <- (lex_double s t v) by done. unfold next_token. rewrite skip_st by done. cbn [mbind option_bind]. destruct (st_not_special _ None v Hps) as [Hn1 Hn2].
      destruct Hs as [|u s' Hg H32 H92 Hu Hs|d s' _ Hd Hd32 Hs|s' Hm]; [done| | |done].
      - rewrite <- !(assoc_L (++)) in *. rewrite st_unit by (by try apply unit_plain). cbn [lx_r lx_bs]. rewrite (proj2 (Z.eqb_neq _ _)) by (by apply norm_ne).
        unfold in_double in Hu. rewrite !elem_of_cons, elem_of_nil in Hu. assert (u.1 ≠ 34 ∧ u.1 ≠ 96 ∧ u.1 ≠ 36) as (H1&H2&H3) by naive_solver.
        rewrite is_char_norm by done. change (byte_val dquote) with 34. rewrite (proj2 (Z.eqb_neq u.1 34)) by done. rewrite char_in_norm by done.
        rewrite (char_in_false u.1 (go "`$")) by (intros c [->|[->|[]%elem_of_nil]%elem_of_cons]%elem_of_cons; done). done.
      - cbn [app]. rewrite st_backslash by (simpl; lia). done. }
    cbn [wordPart]. rewrite Hn. cbn [mbind option_bind dbl_parts]. rewrite next_double by done. done.
Qed.
End words.

(** ** Words *)

Section reading.
Variable rd : reader.
Abbreviation ext := (rd_parseExtGlob rd).

Lemma read_st t lit v : plain_head t → read_rune t 32 lit v = Some (st t lit v).
Proof. intros Hp. exact (next_st t 32 [] lit v Hp). Qed.
Lemma rest_end t v : word_end t → lx_cur (st t None v) ++ lx_bs (st t None v) = t.
Proof.
  intros [->|(c&t'&->&Hc)]; [done|]. destruct (stop_byte c) as (H1&H2&_); [set_solver|]. by rewrite st_ascii.
Qed.
Lemma word_end_plain t : word_end t → plain_head t.
Proof. intros Ht. by apply stops_plain, word_end_stops. Qed.
(** The last part of a word. *)
Lemma last_part fuel tok l wps wp t v : word_end t → (2 ≤ fuel)%nat →
  wordPart ext tok l = ('(tok, l) ← next_token ext unquotedWordCont false (st t None v); Some (Some (wp, tok, l))) →
  wordParts ext fuel tok l wps = Some (wps ++ [wp], st t None v).
Proof.
  intros Ht Hf Hw. destruct (next_end ext unquotedWordCont false t v) as [b Hb]; [done|done|]. rewrite Hb in Hw. cbn [mbind option_bind] in Hw.
  destruct fuel as [|[|fuel]]; [lia..|]. cbn [wordParts]. rewrite Hw. cbn [mbind option_bind]. by destruct b.
Qed.
Lemma parse_one q t tok l wp v : plain_head (q ++ t) → q ≠ [] → word_end t → next_token ext noState true (st (q ++ t) None (rd_val rd)) = Some (tok, l) →
  wordPart ext tok l = ('(tok, l) ← next_token ext unquotedWordCont false (st t None v); Some (Some (wp, tok, l))) →
  parse_word rd (q ++ t) = Some ([wp], t).
Proof.
  intros Hp Hq Ht Hn Hw. unfold parse_word. rewrite read_st by done. cbn [mbind option_bind]. rewrite Hn. cbn [mbind option_bind].
  erewrite last_part; [|exact Ht| |exact Hw]; [|destruct q; [done|simpl; lia]]. cbn [mbind option_bind]. by rewrite rest_end.
Qed.

Lemma parse_literal s t : seg Pairs calm s → s ≠ [] → head_val s ≠ 35 → word_end t → parse_word rd (s ++ t) = Some ([Lit s], t).
Proof.
  intros Hs Hne H35 Ht. apply (parse_one s t (Literal s) (st t None s) (Lit s) s); [|done|done| |done].
  - eapply seg_plain_head; [done|done|by apply word_end_plain].
  - apply next_literal; [done..|by apply word_end_stops|done].
Qed.
Lemma parse_single s t : seg AsBytes in_single s → word_end t → parse_word rd ((go "'" ++ s ++ go "'") ++ t) = Some ([SglQuoted false s], t).
Proof.
  intros Hs Ht. assert (plain_head (s ++ "'"%char :: t)) as Hp by (eapply seg_plain_head; [done|done|apply quote_plain; set_solver]).
  apply (parse_one _ t (SglQuote false) (st (s ++ "'"%char :: t) None (rd_val rd)) _ (rd_val rd)); [|done|done| |].
  - apply quote_plain. set_solver.
  - rewrite <- !(assoc_L (++)). by apply next_single.
  - apply (part_single ext false); [done|by apply word_end_plain].
Qed.
Lemma parse_ansi s t : seg Pairs in_single s → word_end t → parse_word rd ((go "$'" ++ s ++ go "'") ++ t) = Some ([SglQuoted true s], t).
Proof.
  intros Hs Ht. assert (plain_head (s ++ "'"%char :: t)) as Hp by (eapply seg_plain_head; [done|done|apply quote_plain; set_solver]).
  apply (parse_one _ t (SglQuote true) (st (s ++ "'"%char :: t) None (rd_val rd)) _ (rd_val rd)); [|done|done| |].
  - apply dollar_plain.
  - rewrite <- !(assoc_L (++)). by apply next_dollar.
  - apply (part_single ext true); [done|by apply word_end_plain].
Qed.
Lemma parse_double s t : seg Pairs in_double s → word_end t →
  parse_word rd (([dquote] ++ s ++ [dquote]) ++ t) = Some ([DblQuoted false (if decide (s = []) then [] else [s])], t).
Proof.
  intros Hs Ht. assert (plain_head (s ++ dquote :: t)) as Hp by (eapply seg_plain_head; [done|done|apply quote_plain; set_solver]).
  destruct (part_double ext s t (rd_val rd) Hs (word_end_plain t Ht)) as [v' Hw].
  apply (parse_one _ t (DblQuote false) (st (s ++ dquote :: t) None (rd_val rd)) _ v'); [|done|done| |done].
  - apply quote_plain. set_solver.
  - rewrite <- !(assoc_L (++)). by apply next_double.
Qed.
(** Texts between single quotes, with a quoted quote between them. *)
Definition quoted_join (parts : list gostr) : gostr := join (go "\'") (map (fun part => go "'" ++ part ++ go "'") parts).
Fixpoint joined_parts (parts : list gostr) : list WordPart :=
  match parts with [] => [] | [p] => [SglQuoted false p] | p :: ps => SglQuoted false p :: Lit (go "\'") :: joined_parts ps end.
Lemma escaped_quote : seg Pairs calm (go "\'").
Proof. apply (seg_pair _ _ "'"%char []); [done..|constructor]. Qed.
Lemma joined_open p ps t : seg AsBytes in_single p → plain_head (drop 1 (quoted_join (p :: ps)) ++ t).
Proof.
  intros Hp. assert (∃ y, drop 1 (quoted_join (p :: ps)) ++ t = p ++ "'"%char :: y) as [y ->].
  { destruct ps as [|p' ps]; [exists t|exists (go "\'" ++ quoted_join (p' :: ps) ++ t)].
    - simpl. by rewrite drop_0, <- (assoc_L (++)).
    - change (quoted_join (p :: p' :: ps)) with ((go "'" ++ p ++ go "'") ++ go "\'" ++ quoted_join (p' :: ps)). generalize (quoted_join (p' :: ps)). intros y.
      simpl. by rewrite drop_0, <- !(assoc_L (++)). }
  eapply seg_plain_head; [done|done|apply quote_plain; set_solver].
Qed.
Lemma joined_end ps p t v wps fuel : Forall (seg AsBytes in_single) (p :: ps) → word_end t → (2 * length ps + 2 ≤ fuel)%nat →
  ∃ v', wordParts ext fuel (SglQuote false) (st (drop 1 (quoted_join (p :: ps)) ++ t) None v) wps = Some (wps ++ joined_parts (p :: ps), st t None v').
Proof.
  revert p v wps fuel. induction ps as [|p' ps IH]; intros p v wps fuel [Hp Hps]%Forall_cons_1 Ht Hf.
  - exists v. apply last_part; [done|simpl in Hf; lia|]. replace (drop 1 (quoted_join [p]) ++ t) with (p ++ "'"%char :: t) by (simpl; rewrite drop_0; by rewrite <- (assoc_L (++))).
    apply (part_single ext false); [done|by apply word_end_plain].
  - assert (quoted_join (p :: p' :: ps) = go "'" ++ p ++ go "'" ++ go "\'" ++ quoted_join (p' :: ps)) as Hj.
    { unfold quoted_join. cbn [map join]. by rewrite <- !(assoc_L (++)). }
    assert (∃ x, quoted_join (p' :: ps) = "'"%char :: x) as [x Hx] by (destruct ps; by eexists).
    replace (drop 1 (quoted_join (p :: p' :: ps)) ++ t) with (p ++ "'"%char :: go "\'" ++ quoted_join (p' :: ps) ++ t)
      by (rewrite Hj; generalize (quoted_join (p' :: ps)); intros y; simpl; rewrite drop_0, <- (assoc_L (++)); done).
    simpl length in Hf. destruct fuel as [|[|fuel]]; [lia..|]. cbn [wordParts].
    rewrite (part_single ext false) by (first [done|right; right; eexists; split; [done|]; simpl; vm_compute; done]).
    assert (stops (quoted_join (p' :: ps) ++ t)) as Hstop.
    { right. rewrite Hx. eexists "'"%char, _. split; [done|]. set_solver. }
    pose proof (next_literal ext unquotedWordCont false (go "\'") (quoted_join (p' :: ps) ++ t) v ltac:(done) escaped_quote ltac:(done) Hstop ltac:(done)) as Hn.
    cbn [app go] in Hn. rewrite Hn. cbn [mbind option_bind]. rewrite decide_False by done. cbn [wordPart].
    destruct (IH p' (go "\'") (wps ++ [SglQuoted false p] ++ [Lit (go "\'")]) fuel Hps Ht) as [v' Hv]; [lia|].
    exists v'. rewrite Hx in Hv |- *. cbn [app] in *.
    rewrite next_single; [|done|]; last first.
    { replace x with (drop 1 (quoted_join (p' :: ps))) by (by rewrite Hx). apply Forall_cons_1 in Hps as [Hp' _]. by apply joined_open. }
    cbn [mbind option_bind]. rewrite decide_False by done. rewrite <- (assoc_L (++)). cbn [app drop] in *. rewrite drop_0 in Hv. rewrite Hv.
    by rewrite <- (assoc_L (++)).
Qed.
Lemma length_joined p ps : (3 * length ps + 2 ≤ length (quoted_join (p :: ps)))%nat.
Proof.
  revert p. induction ps as [|p' ps IH]; intros p; [simpl; rewrite length_app; simpl; lia|].
  change (quoted_join (p :: p' :: ps)) with ((go "'" ++ p ++ go "'") ++ go "\'" ++ quoted_join (p' :: ps)). rewrite !length_app. specialize (IH p'). simpl. lia.
Qed.
Lemma parse_joined ps p t : Forall (seg AsBytes in_single) (p :: ps) → word_end t →
  parse_word rd (quoted_join (p :: ps) ++ t) = Some (joined_parts (p :: ps), t).
Proof.
  intros Hps Ht. assert (∃ x, quoted_join (p :: ps) = "'"%char :: x) as [x Hx] by (destruct ps; by eexists).
  assert (2 * length ps + 2 ≤ S (length (quoted_join (p :: ps) ++ t)))%nat as Hlen.
  { rewrite length_app. pose proof (length_joined p ps). lia. }
  destruct (joined_end ps p t (rd_val rd) [] (S (length (quoted_join (p :: ps) ++ t))) Hps Ht Hlen) as [v' Hv].
  assert (plain_head (x ++ t)) as Hp.
  { replace x with (drop 1 (quoted_join (p :: ps))) by (by rewrite Hx). apply Forall_cons_1 in Hps as [Hp' _]. by apply joined_open. }
  unfold parse_word. rewrite Hx in *. cbn [app drop] in *. rewrite read_st by (apply quote_plain; set_solver). cbn [mbind option_bind]. rewrite next_single by done.
  cbn [mbind option_bind]. change (length ("'"%char :: x ++ t)) with (S (length (x ++ t))) in *. rewrite drop_0 in Hv. cbn [length] in *. rewrite Hv. cbn [mbind option_bind app]. by rewrite rest_end.
Qed.
End reading.

(** ** Expansion *)

Lemma finish_append p ps : finish (foldl (fun s p => appendPart p s) newFieldSplitter (p :: ps)) = [p :: ps].
Proof.
  assert (∀ ps c, foldl (fun s p => appendPart p s) (MkSplitter [] c true false false false 0) ps = MkSplitter [] (c ++ ps) true false false false 0) as H.
  { clear. induction ps as [|q ps IH]; intros c; cbn [foldl]; [by rewrite app_nil_r|]. unfold appendPart at 2, finishCluster, set_field. simpl. by rewrite IH, <- (assoc_L (++)). }
  change (foldl (fun s p => appendPart p s) newFieldSplitter (p :: ps)) with (foldl (fun s p => appendPart p s) (MkSplitter [] [p] true false false false 0) ps).
  rewrite H. unfold finish, finishCluster, flushField. done.
Qed.
(** The bytes that patterns are made of. *)
Definition no_meta (s : gostr) : bool := forallb (fun c => negb (byte_in c (go "*?[(\"))) s.
Lemma HasMeta_plain s mode : no_meta s = true → HasMeta s mode = false.
Proof.
  unfold HasMeta. induction s as [|c s IH]; [done|]. simpl. intros [Hc Hs]%andb_prop. apply negb_true_iff in Hc. unfold byte_in in Hc. cbn [existsb go String.list_ascii_of_string] in Hc.
  to_prop. repeat match goal with H : Ascii.eqb _ _ = false |- _ => apply Ascii.eqb_neq in H end.
  assert (s !! 0%nat ≠ Some "("%char) as Hp. { destruct s as [|d s]; [done|]. intros [= ->]. done. }
  rewrite decide_False by done. rewrite decide_False by set_solver. rewrite bool_decide_eq_false_2 with (P := s !! 0%nat = _) by done. rewrite andb_false_r. by apply IH.
Qed.

(** An unquoted literal without its backslashes. *)
Fixpoint strip (s : gostr) : gostr :=
  match s with
  | [] => []
  | c :: s' => if Ascii.eqb c "\" then match s' with [] => [] | d :: s' => d :: strip s' end else c :: strip s'
  end.
Fixpoint calm_bytes (s : gostr) : bool :=
  match s with
  | [] => true
  | c :: s' => if Ascii.eqb c "\" then match s' with [] => true | _ :: s' => calm_bytes s' end else negb (byte_in c (go "*?[(\")) && calm_bytes s'
  end.
Lemma strip_ind (P : gostr → Prop) : P [] → P (go "\") → (∀ d s, P s → P ("\"%char :: d :: s)) → (∀ c s, c ≠ "\"%char → P s → P (c :: s)) → ∀ s, P s.
Proof.
  intros H0 H1 H2 H3 s. remember (length s) as n eqn:Hn. assert (length s ≤ n)%nat as Hle by lia. clear Hn. revert s Hle.
  induction n as [|n IH]; intros s Hle; [by destruct s; [|simpl in Hle; lia]|]. destruct s as [|c s]; [done|].
  destruct (decide (c = "\"%char)) as [->|Hc]; [destruct s as [|d s]; [done|apply H2]|apply H3; [done|]]; apply IH; simpl in *; lia.
Qed.
Lemma lit_parts_val s acc : concat (map val (lit_parts s acc)) = acc ++ strip s.
Proof.
  revert acc. induction s as [| |d s IH|c s Hc IH] using strip_ind; intros acc.
  - simpl. case_decide as E; [by rewrite E|]. simpl. by rewrite app_nil_r.
  - simpl. case_decide as E; [by rewrite E|]. simpl. by rewrite app_nil_r.
  - cbn [lit_parts strip]. rewrite Ascii.eqb_refl. rewrite map_app, concat_app. cbn [map concat val]. rewrite IH. cbn [app].
    case_decide as E; [by rewrite E|]. cbn [map concat plain_part val app]. by rewrite app_nil_r.
  - cbn [lit_parts strip]. rewrite (proj2 (Ascii.eqb_neq _ _)) by done. rewrite IH. by rewrite <- (assoc_L (++)).
Qed.
Lemma lit_parts_calm s acc mode : no_meta acc = true → calm_bytes s = true →
  existsb (fun p => bool_decide (quote p = quoteNone) && HasMeta (val p) mode) (lit_parts s acc) = false.
Proof.
  assert (∀ acc rest, no_meta acc = true → existsb (fun p => bool_decide (quote p = quoteNone) && HasMeta (val p) mode) rest = false →
    existsb (fun p => bool_decide (quote p = quoteNone) && HasMeta (val p) mode) ((if decide (acc = []) then [] else [plain_part acc]) ++ rest) = false) as Hflush.
  { intros a rest Ha Hr. case_decide; [done|]. cbn [app existsb plain_part val quote]. by rewrite (HasMeta_plain a mode), andb_false_r. }
  revert acc. induction s as [| |d s IH|c s Hc IH] using strip_ind; intros acc Ha.
  - intros _. cbn [lit_parts]. pose proof (Hflush acc [] Ha eq_refl) as H. by rewrite app_nil_r in H.
  - intros _. cbn [lit_parts]. pose proof (Hflush acc [] Ha eq_refl) as H. by rewrite app_nil_r in H.
  - cbn [calm_bytes lit_parts]. rewrite Ascii.eqb_refl. intros Hs. apply Hflush; [done|]. cbn [existsb quote val]. by apply (IH []).
  - cbn [calm_bytes lit_parts]. rewrite (proj2 (Ascii.eqb_neq _ _)) by done. intros [Hm Hs]%andb_prop. apply IH; [|done]. unfold no_meta in *. rewrite forallb_app, Ha. simpl. simpl in Hm. by rewrite Hm.
Qed.

Section expansion.
Variable rd : reader.
Abbreviation expand wps := (word_fields (rd_homes rd) (rd_extGlob rd) (rd_canReadDir rd) (rd_preferStartupHome rd) (rd_cLocale rd) wps).

Lemma one_field wps p ps : existsb has_brace wps = false →
  concat (imap (part_fields (rd_homes rd) (rd_preferStartupHome rd) (rd_cLocale rd) (length wps)) wps) = p :: ps →
  escapedGlobField (rd_extGlob rd) (p :: ps) = false → expand wps = Some [concat (map val (p :: ps))].
Proof.
  intros Hb Hc Hg. unfold word_fields. rewrite Hb. unfold wordFieldsOpt. rewrite Hc, finish_append. cbn [mapM]. unfold expandPathField. rewrite Hg. done.
Qed.
Lemma expand_single dollar s : expand [SglQuoted dollar s] = Some [if dollar then cut_null (decodeANSICString (rd_cLocale rd) s) else s].
Proof. rewrite (one_field _ (MkPart (if dollar then cut_null (decodeANSICString (rd_cLocale rd) s) else s) [] quoteSingle) []); [|done..]. simpl. by rewrite app_nil_r. Qed.
Lemma expand_double s : s ≠ [] → expand [DblQuoted false [s]] = Some [cut_null (dq_unescape s)].
Proof. intros Hs. rewrite (one_field _ (MkPart (cut_null (dq_unescape s)) [] quoteDouble) []); [|done..]. simpl. by rewrite app_nil_r. Qed.
Lemma expand_literal s : byte_in "{" s = false → head_val s ≠ 126 → s ≠ [] → s ≠ go "\" → calm_bytes s = true → expand [Lit s] = Some [strip s].
Proof.
  intros Hb Ht Hne Hne' Hc. pose proof (lit_parts_val s []) as Hv. pose proof (lit_parts_calm s [] (if rd_extGlob rd then ExtendedOperators else 0%N) eq_refl Hc) as Hg.
  assert (part_fields (rd_homes rd) (rd_preferStartupHome rd) (rd_cLocale rd) 1 0 (Lit s) = lit_parts s []) as Hp.
  { cbn [part_fields Nat.eqb]. unfold expandUserWithHome. destruct s as [|c s]; [done|]. cbn [go String.list_ascii_of_string has_prefix].
    rewrite bool_decide_eq_false_2; [done|]. intros <-. by vm_compute in Ht. }
  destruct (lit_parts s []) as [|p ps] eqn:El.
  - destruct s as [|c s]; [done|]. cbn [map concat strip app] in Hv. destruct (Ascii.eqb c "\") eqn:Ec; [|done]. destruct s; [|done]. apply Ascii.eqb_eq in Ec. by subst c.
  - rewrite (one_field _ p ps); [by rewrite Hv|simpl; by rewrite Hb| |done]. rewrite imap_cons. cbn [length concat]. rewrite Hp. by rewrite app_nil_r.
Qed.
Lemma expand_joined p ps : expand (joined_parts (p :: ps)) = Some [join (go "'") (p :: ps)].
Proof.
  assert (∀ n k p ps, existsb has_brace (joined_parts (p :: ps)) = false ∧
    ∃ fs, concat (imap (fun i => part_fields (rd_homes rd) (rd_preferStartupHome rd) (rd_cLocale rd) n (k + i)) (joined_parts (p :: ps))) = MkPart p [] quoteSingle :: fs ∧
      escapedGlobField (rd_extGlob rd) (MkPart p [] quoteSingle :: fs) = false ∧ p ++ concat (map val fs) = join (go "'") (p :: ps)) as H.
  { clear. intros n k p ps. revert k p. induction ps as [|p' ps IH]; intros k p.
    - split; [done|]. exists []. simpl. by rewrite app_nil_r.
    - destruct (IH (2 + k)%nat p') as (Hb&fs&Hf&Hg&Hj). change (joined_parts (p :: p' :: ps)) with (SglQuoted false p :: Lit (go "\'") :: joined_parts (p' :: ps)).
      split; [exact Hb|]. exists (MkPart (go "'") [] quoteSingle :: MkPart p' [] quoteSingle :: fs). rewrite !imap_cons. cbn [concat].
      split; [|split; [exact Hg|]].
      + cbn [part_fields app]. assert (part_fields (rd_homes rd) (rd_preferStartupHome rd) (rd_cLocale rd) n (k + 1) (Lit (go "\'")) = [MkPart (go "'") [] quoteSingle]) as Hl.
        { cbn [part_fields]. by destruct (k + 1 =? 0)%nat. }
        simpl in Hl |- *. rewrite Hl. simpl. f_equal. f_equal. rewrite <- Hf. f_equal. apply imap_ext. intros i x _. simpl. f_equal. lia.
      + change (join (go "'") (p :: p' :: ps)) with (p ++ go "'" ++ join (go "'") (p' :: ps)). rewrite <- Hj. done. }
  destruct (H (length (joined_parts (p :: ps))) 0%nat p ps) as (Hb&fs&Hf&Hg&Hj). rewrite (one_field _ (MkPart p [] quoteSingle) fs); [|done|exact Hf|done].
  cbn [map concat val]. by rewrite Hj.
Qed.
End expansion.
