(* ===== verification/QuoteTheorems.v ===== *)
(** Quoted values read back: what [Quote], [printf %q], [${v@Q}] and [declare -p] write for a value is, for the
    lexer, the parser and the expansion of words, one argument with that value. *)
From S2P Require Import Prelude GoUtf8 GoUtf8Props Quote Pattern Fields WordRead.

(** ** Runes as they are written *)

(** The runes of a text are good or single bytes that are not ASCII. *)
Definition bad (u : rune * gostr) : Prop := invalid_rune u = true ∧ u.1 = RuneError ∧ ∃ c, u.2 = [c] ∧ ¬ is_ascii c.
Lemma runes_units s : Forall (fun u => good u ∨ bad u) (runes_of s).
Proof.
  induction s as [|u s Hne Hr Hg _ IH] using runes_ind; [constructor|]. rewrite Hr. constructor; [|done].
  destruct (invalid_rune u) eqn:Hi; [right|left; by apply Hg]. unfold invalid_rune in Hi. apply andb_prop in Hi as [Hi1%Z.eqb_eq Hi2%Nat.eqb_eq].
  split; [unfold invalid_rune; rewrite Hi1, Hi2; done|]. split; [done|]. destruct u as [r [|c [|d x]]]; [done| |done]. cbn [fst snd app] in *. exists c. split; [done|]. intros Hc.
  pose proof (runes_cons c s) as Hx. rewrite decode_ascii, Hr in Hx by done. injection Hx; clear Hx; intros. unfold is_ascii, RuneSelf, RuneError in *. lia.
Qed.
Lemma runes_good s : Forall (fun u => invalid_rune u = false) (runes_of s) → Forall good (runes_of s).
Proof.
  intros H. pose proof (runes_units s) as Hu. induction H as [|u us Hi H IH]; [constructor|]. apply Forall_cons_1 in Hu as [[Hg|(Hb&_)] Hu]; [|congruence]. constructor; [done|by apply IH].
Qed.
Definition ascii_unit (c : ascii) : rune * gostr := (byte_val c, [c]).
Lemma ascii_units s : Forall is_ascii s → Forall good (map ascii_unit s) ∧ concat (map snd (map ascii_unit s)) = s.
Proof.
  induction 1 as [|c s Hc _ [IH1 IH2]]; [done|]. split; [constructor; [by apply good_ascii|done]|]. simpl. by f_equal.
Qed.
(** A byte of a good rune is its rune, or none below 128 is. *)
Lemma good_byte u c : good u → c ∈ u.2 → is_ascii c → u = ascii_unit c.
Proof.
  intros Hg Hc Ha. destruct (good_cases u Hg) as [(d&->&_)|[_ H]]; [|by destruct (H c Hc)]. cbn [snd] in Hc. apply list_elem_of_singleton in Hc as ->. done.
Qed.
Lemma unit_free u c : good u → is_ascii c → u.1 ≠ byte_val c → c ∉ u.2.
Proof. intros Hg Ha Hne Hc. apply Hne. by rewrite (good_byte u c Hg Hc Ha). Qed.
Lemma unit_is u c : good u → u.1 = byte_val c → is_ascii c → u = ascii_unit c.
Proof.
  intros Hg Hu Ha. destruct (good_cases u Hg) as [(d&->&_)|[Hh _]]; [|unfold is_ascii, RuneSelf in *; lia]. cbn [fst] in Hu.
  by rewrite <- (byte_of_val d), Hu, byte_of_val.
Qed.
Lemma text_free us c : Forall (fun u => good u ∨ bad u) us → is_ascii c → (∀ u, u ∈ us → u.1 ≠ byte_val c) → c ∉ concat (map snd us).
Proof.
  induction 1 as [|u us Hu _ IH]; intros Ha H; [apply not_elem_of_nil|]. cbn [map concat]. rewrite not_elem_of_app. split; [|apply IH; [done|]; intros; apply H; by right].
  destruct Hu as [Hg|(_&_&d&->&Hd)]; [apply unit_free; [done..|]; apply H; by left|]. intros ->%list_elem_of_singleton. done.
Qed.

(** *** Segments *)

Section segments.
Context (m : backslashes) (U : rune → Prop).
Lemma seg_app s t : seg m U s → seg m U t → seg m U (s ++ t).
Proof. intros Hs Ht. induction Hs; [done|rewrite <- (assoc_L (++)); by apply seg_unit|by apply seg_pair|by apply seg_byte]. Qed.
Lemma seg_one u : good u → 32 ≤ u.1 → u.1 ≠ 92 → U u.1 → seg m U u.2.
Proof. intros. rewrite <- (app_nil_r u.2). apply seg_unit; [done..|constructor]. Qed.
Lemma seg_escape d : m = Pairs → is_ascii d → 32 ≤ byte_val d → seg m U [c92; d].
Proof. intros. apply seg_pair; [done..|constructor]. Qed.
Lemma seg_flat {A} (f : A → gostr) us : (∀ u, u ∈ us → seg m U (f u)) → seg m U (flat_map f us).
Proof.
  induction us as [|u us IH]; intros H; [constructor|]. cbn [flat_map]. apply seg_app; [apply H; left|]. apply IH. intros u' Hu'. apply H. by right.
Qed.
Lemma seg_ascii s : Forall (fun c => is_ascii c ∧ 32 ≤ byte_val c ∧ c ≠ c92 ∧ U (byte_val c)) s → seg m U s.
Proof.
  induction 1 as [|c s (Hc&H32&Hne&HU) _ IH]; [constructor|]. apply (seg_unit m U (ascii_unit c) s); [by apply good_ascii|done| |done|done].
  intros E. apply Hne. cbn [fst ascii_unit] in E. by rewrite <- (byte_of_val c), E.
Qed.
Lemma seg_text us : Forall good us → (∀ u, u ∈ us → 32 ≤ u.1 ∧ (u.1 = 92 → m = AsBytes) ∧ (u.1 ≠ 92 → U u.1)) → seg m U (concat (map snd us)).
Proof.
  induction 1 as [|u us Hg _ IH]; intros H; [constructor|]. destruct (H u ltac:(left)) as (H32&Hm&HU). cbn [map concat].
  assert (seg m U (concat (map snd us))) as Hs by (apply IH; intros; apply H; by right). destruct (decide (u.1 = 92)) as [E|E].
  - rewrite (unit_is u c92) by done. cbn [snd ascii_unit app]. apply seg_byte; [by apply Hm|done].
  - apply seg_unit; auto.
Qed.
End segments.

(** *** Runes with backslashes in front of some *)

Definition escaped (p : rune → bool) (us : list (rune * gostr)) : gostr := flat_map (fun u => (if p u.1 then go "\" else []) ++ encode_rune u.1) us.
Section escapes.
Variable p : rune → bool.
Hypothesis p_ascii : ∀ r, p r = true → r < 128.
Hypothesis p_backslash : p 92 = true.

Lemma escaped_cons u us : good u → escaped p (u :: us) = (if p u.1 then go "\" else []) ++ u.2 ++ escaped p us.
Proof. intros Hg. unfold escaped. cbn [flat_map]. by rewrite (good_encode u Hg), <- (assoc_L (++)). Qed.
(** Induction over what is written: a backslash and a byte, or a rune without a backslash in it. *)
Lemma escaped_ind (P : gostr → gostr → Prop) us : Forall good us → P [] [] →
  (∀ c x s, ascii_unit c ∈ us → p (byte_val c) = true → is_ascii c → P x s → P (c92 :: c :: x) (c :: s)) →
  (∀ u x s, u ∈ us → good u → p u.1 = false → c92 ∉ u.2 → P x s → P (u.2 ++ x) (u.2 ++ s)) → P (escaped p us) (concat (map snd us)).
Proof using All.
  intros Hus H0 H1 H2. induction Hus as [|u us Hg _ IH]; [done|]. rewrite escaped_cons by done. cbn [map concat].
  assert (P (escaped p us) (concat (map snd us))) as Hx by (apply IH; [intros; apply H1|intros; apply H2]; try done; by right).
  destruct (p u.1) eqn:Hp; last (apply H2; [left|done|done| |done]; apply unit_free; [done..|]; intros E; rewrite E in Hp; vm_compute (byte_val c92) in Hp; congruence).
  destruct (good_cases u Hg) as [(c&->&Hc)|[Hh _]]; [|apply p_ascii in Hp; lia]. cbn [fst snd app go String.list_ascii_of_string] in *. apply H1; [left|done..].
Qed.
Lemma seg_escaped U us : Forall good us → (∀ u, u ∈ us → 32 ≤ u.1 ∧ (p u.1 = false → U u.1)) → seg Pairs U (escaped p us).
Proof using All.
  intros Hg H. apply (escaped_ind (fun x _ => seg Pairs U x)); [done|constructor| |].
  - intros c x _ Hin Hp Hc Hx. apply seg_pair; [done..| |done]. by destruct (H _ Hin).
  - intros u x _ Hin Hu Hp _ Hx. destruct (H u Hin). apply seg_unit; auto. intros E. rewrite E in Hp. congruence.
Qed.
Lemma dq_unescape_free x t : c92 ∉ x → dq_unescape (x ++ t) = x ++ dq_unescape t.
Proof.
  induction x as [|c x IH]; [done|]. intros [Hc Hx]%not_elem_of_cons. cbn [app]. rewrite <- (IH Hx). cbn [dq_unescape]. destruct (x ++ t); [done|].
  by rewrite (proj2 (Ascii.eqb_neq _ _)).
Qed.
Lemma dq_unescape_escaped us : Forall good us → (∀ c, p (byte_val c) = true → byte_in c (dquote :: go "\$`") = true) → dq_unescape (escaped p us) = concat (map snd us).
Proof using All.
  intros Hg Hp. apply (escaped_ind (fun x s => dq_unescape x = s)); [done..| |].
  - intros c x s _ Hc _ <-. cbn [dq_unescape]. by rewrite (Hp c Hc).
  - intros u x s _ _ _ Hu <-. by apply dq_unescape_free.
Qed.
Lemma strip_free x t : c92 ∉ x → strip (x ++ t) = x ++ strip t.
Proof. induction x as [|c x IH]; [done|]. intros [Hc Hx]%not_elem_of_cons. cbn [app strip]. rewrite (proj2 (Ascii.eqb_neq _ _)) by done. by rewrite IH. Qed.
Lemma strip_escaped us : Forall good us → strip (escaped p us) = concat (map snd us).
Proof using All.
  intros Hg. apply (escaped_ind (fun x s => strip x = s)); [done..| |].
  - intros c x s _ _ _ <-. done.
  - intros u x s _ _ _ Hu <-. by apply strip_free.
Qed.
Lemma calm_free x t : (∀ c, c ∈ x → byte_in c (go "*?[(\") = false) → calm_bytes (x ++ t) = calm_bytes t.
Proof.
  induction x as [|c x IH]; [done|]. intros H. cbn [app calm_bytes]. pose proof (H c ltac:(left)) as Hc. rewrite Hc. rewrite IH by (intros; apply H; by right).
  destruct (Ascii.eqb_spec c c92) as [->|]; [by vm_compute in Hc|done].
Qed.
Lemma good_not_in u x : good u → char_in u.1 x = false → Forall is_ascii x → ∀ c, c ∈ u.2 → byte_in c x = false.
Proof.
  intros Hg Hx Ha c Hc. apply not_true_iff_false. intros (d&Hd&<-%Ascii.eqb_eq)%existsb_exists. apply not_true_iff_false in Hx. apply Hx. apply existsb_exists.
  exists c. split; [done|]. rewrite list.Forall_forall in Ha. rewrite (good_byte u c Hg Hc); [|by apply Ha, list_elem_of_In]. apply Z.eqb_refl.
Qed.
Lemma calm_escaped_on us : Forall good us → (∀ u, u ∈ us → p u.1 = false → char_in u.1 (go "*?[(\") = false) → calm_bytes (escaped p us) = true.
Proof using All.
  intros Hg Hp. apply (escaped_ind (fun x _ => calm_bytes x = true)); [done..| |].
  - done.
  - intros u x _ Hin Hu Hpu _ Hx. rewrite calm_free; [done|]. apply good_not_in; [done|by apply Hp|]. repeat constructor.
Qed.
Lemma byte_in_app c x y : byte_in c (x ++ y) = byte_in c x || byte_in c y.
Proof. apply existsb_app. Qed.
Lemma byte_in_escaped us c : Forall good us → c ≠ c92 → byte_in c (escaped p us) = byte_in c (concat (map snd us)).
Proof using All.
  intros Hg Hc. apply (escaped_ind (fun x s => byte_in c x = byte_in c s)); [done..| |].
  - intros d x s _ _ _ E. unfold byte_in in *. cbn [existsb]. rewrite E. by rewrite (proj2 (Ascii.eqb_neq _ _)).
  - intros u x s _ _ _ _ E. by rewrite !byte_in_app, E.
Qed.
Lemma escaped_raw us : Forall good us → (∀ u, u ∈ us → p u.1 = false) → escaped p us = concat (map snd us).
Proof.
  induction 1 as [|u us Hg _ IH]; intros H; [done|]. rewrite escaped_cons, H by (done || left). cbn [map concat app]. f_equal. apply IH. intros. apply H. by right.
Qed.
End escapes.

(** *** What stands between [$'] and ['] *)

Section writers.
Variable cl : bool.
(** The text [p] can stand there, and is decoded to [x]. *)
Definition writes (p x : gostr) : Prop := decodes cl p x ∧ seg Pairs in_single p.

Lemma writes_nil : writes [] [].
Proof. split; [done|constructor]. Qed.
Lemma writes_app p q x y : writes p x → writes q y → writes (p ++ q) (x ++ y).
Proof. intros [? ?] [? ?]. split; [by apply decodes_app|by apply seg_app]. Qed.
Lemma writes_flat {A} (f : A → gostr) (x : A → gostr) us : (∀ u, u ∈ us → writes (f u) (x u)) → writes (flat_map f us) (flat_map x us).
Proof. intros H. split; [apply decodes_flat|apply seg_flat]; intros; by apply H. Qed.
Lemma writes_simple c b : simple_escape c = Some b → is_ascii c → 32 ≤ byte_val c → writes [c92; c] [b].
Proof. intros. split; [by apply decodes_simple|by apply seg_escape]. Qed.
Lemma writes_good u : good u → 32 ≤ u.1 → char_in u.1 (go "'\") = false → writes u.2 u.2.
Proof.
  intros Hg H32 Hc. unfold char_in in Hc. cbn [existsb go String.list_ascii_of_string] in Hc. to_prop. change (byte_val "'") with 39 in *. change (byte_val "\") with 92 in *.
  assert (u.1 ≠ 39 ∧ u.1 ≠ 92) as [H39 H92] by lia.
  split; [apply decodes_bytes, unit_free; done|]. by apply seg_one.
Qed.
(** An escape with plain bytes behind its backslash and its letter. *)
Lemma seg_escape_ascii c ds : is_ascii c → 32 ≤ byte_val c → forallb (fun c => isHex (byte_val c)) ds = true → seg Pairs in_single ([c92; c] ++ ds).
Proof.
  intros Hc H32 Hds. apply seg_app; [by apply seg_escape|]. apply seg_ascii. apply list.Forall_forall. intros d Hd.
  rewrite forallb_forall in Hds. pose proof (Hds d ltac:(by apply list_elem_of_In)) as Hx. unfold isHex in Hx. unfold is_ascii, in_single, RuneSelf.
  split_and!; [unfold between in Hx; lia..| |unfold between in Hx; lia]. intros ->. by vm_compute in Hx.
Qed.
Lemma writes_octal c : writes (octal_escape c) [c].
Proof.
  split; [apply decodes_octal|]. destruct (octal_digits c) as (d1&d2&d3&->&_&_&H1&H2&H3&_). unfold isOctal in *.
  apply (seg_escape_ascii d1 [d2; d3]); [unfold is_ascii, RuneSelf, between in *; lia..|]. cbn [forallb]. unfold isHex, between in *. lia.
Qed.
Lemma writes_octals s : writes (flat_map octal_escape s) s.
Proof. induction s as [|c s IH]; [apply writes_nil|]. exact (writes_app _ _ [c] s (writes_octal c) IH). Qed.
Lemma writes_hex c k n : (c, k) ∈ [("x"%char, 2%nat); ("u"%char, 4%nat); ("U"%char, 8%nat)] → 0 ≤ n < 16 ^ Z.of_nat k →
  writes ([c92; c] ++ fmt_radix 16 false k n) (hex_escape cl c n).
Proof.
  intros Hc Hn. split; [by apply decodes_hex|]. assert (k ≠ 0)%nat as Hk by (intros ->; set_solver). destruct (hex_digits k n Hk Hn) as (_&Hh&_).
  apply seg_escape_ascii; [..|done]; rewrite !elem_of_cons, elem_of_nil in Hc; destruct Hc as [[= -> _]|[[= -> _]|[[= -> _]|[]]]]; by vm_compute.
Qed.
(** A letter for a control character. *)
Lemma escape_letter_spec r c : escape_letter r = Some c → simple_escape c = Some (byte_of r) ∧ is_ascii c ∧ 32 ≤ byte_val c ∧ 0 ≤ r < 32.
Proof.
  unfold escape_letter. destruct (list_find _ _) as [[i e]|] eqn:E; [|done]. intros [= <-]. apply list_find_Some in E as (Hi&<-&_). cbn [snd].
  apply list_elem_of_lookup_2 in Hi. unfold letter_escapes in Hi. rewrite !elem_of_cons, elem_of_nil in Hi.
  repeat (destruct Hi as [->|Hi]; [by vm_compute|]). done.
Qed.
Lemma writes_letter u c : good u → escape_letter u.1 = Some c → writes [c92; c] u.2.
Proof.
  intros Hg Hc. destruct (escape_letter_spec _ _ Hc) as (Hs&Ha&H32&Hr). rewrite (unit_is u (byte_of u.1)); [cbn [snd ascii_unit]|done| |].
  - by apply writes_simple.
  - rewrite byte_val_of; lia.
  - unfold is_ascii, RuneSelf. rewrite byte_val_of; lia.
Qed.
Lemma char_in_elem r x : char_in r x = true → ∃ c, c ∈ x ∧ r = byte_val c.
Proof. intros (c&Hc%list_elem_of_In&E%Z.eqb_eq)%existsb_exists. by exists c. Qed.
Lemma writes_quoted u : good u → char_in u.1 (go "'\") = true → writes (go "\" ++ encode_rune u.1) u.2.
Proof.
  intros Hg (c&Hc&E)%char_in_elem. rewrite good_encode by done. cbn [go String.list_ascii_of_string] in Hc. rewrite !elem_of_cons, elem_of_nil in Hc.
  destruct Hc as [->|[->|[]]]; (rewrite (unit_is u _ Hg E) by done); by apply writes_simple.
Qed.
(** One byte of [bashANSIQuote] and [traceANSIQuote]. *)
Lemma writes_byte c : writes (ansi_byte c) [c].
Proof.
  unfold ansi_byte. destruct (escape_letter (byte_val c)) as [l|] eqn:El.
  - destruct (escape_letter_spec _ _ El) as (Hs&Ha&H32&Hr). rewrite byte_of_val in Hs. by apply writes_simple.
  - destruct (byte_in c (go "'\")) eqn:Ec.
    + unfold byte_in in Ec. cbn [existsb go String.list_ascii_of_string] in Ec. apply orb_prop in Ec as [->%Ascii.eqb_eq|Ec]; [by apply writes_simple|].
      apply orb_prop in Ec as [->%Ascii.eqb_eq|]; [by apply writes_simple|done].
    + destruct ((32 <=? byte_val c) && (byte_val c <? 127)) eqn:Er; [|apply writes_octal]. to_prop.
      apply (writes_good (ascii_unit c)); [apply good_ascii; unfold is_ascii, RuneSelf; lia|done|]. apply not_true_iff_false. intros (d&Hd&E)%char_in_elem.
      cbn [fst ascii_unit] in E. apply not_true_iff_false in Ec. apply Ec. apply existsb_exists. exists d. split; [by apply list_elem_of_In|].
      apply Ascii.eqb_eq. by rewrite <- (byte_of_val c), E, byte_of_val.
Qed.
End writers.

Lemma cut_null_free s : byte_of 0 ∉ s → cut_null s = s.
Proof. intros H. unfold cut_null. by rewrite (proj2 (index_byte_None _ _) H). Qed.
Lemma decodes_all cl p x : decodes cl p x → decodeANSICString cl p = x.
Proof. intros H. specialize (H []). rewrite app_nil_r in H. rewrite H. apply app_nil_r. Qed.

Section quoting.
Variable isPrint : rune → bool.
Hypothesis isPrint_ascii : ∀ r, 0 ≤ r < 128 → isPrint r = between 32 r 126.

Lemma good_range u : good u → 0 ≤ u.1 ≤ 1114111.
Proof. intros Hg. destruct (good_valid u Hg) as [Hv _]. unfold ValidRune, between in Hv. lia. Qed.
Lemma print_ge u : good u → isPrint u.1 = true → 32 ≤ u.1.
Proof.
  intros Hg Hp. destruct (decide (u.1 < 128)); [|lia]. pose proof (good_range u Hg). rewrite isPrint_ascii in Hp by lia. unfold between in Hp. lia.
Qed.
Lemma concat_flat (us : list (rune * gostr)) : concat (map snd us) = flat_map snd us.
Proof. by rewrite flat_map_concat_map. Qed.

Lemma quote_scan_spec us offs sc np r : quote_scan isPrint LangBash us offs sc np = r →
  (Forall (fun u => u.1 ≠ 0) us ∧ r = Ok (sc || existsb (fun u => char_in u.1 shell_chars) us, np || existsb (fun u => (u.1 =? RuneError) || negb (isPrint u.1)) us)) ∨
  (∃ u e, u ∈ us ∧ u.1 = 0 ∧ r = Err e).
Proof.
  intros <-. revert offs sc np. induction us as [|[ru raw] us IH]; intros offs sc np; cbn [quote_scan].
  - left. split; [constructor|]. cbn [existsb]. by rewrite !orb_false_r.
  - destruct (Z.eqb_spec ru 0) as [->|Hne]; [right; eexists _, _; split; [left|done]|]. rewrite decide_False by done.
    cbn [existsb fst]. destruct ((ru =? RuneError) || negb (isPrint ru)) eqn:Enp.
    + destruct (IH (offs + glen raw) (sc || char_in ru shell_chars) true) as [[Hu ->]|(u&e&Hu&H0&->)]; [left|right].
      * split; [by constructor|]. rewrite <- !orb_assoc. by rewrite orb_true_r.
      * exists u, e. split; [by right|done].
    + destruct (IH (offs + glen raw) (sc || char_in ru shell_chars) np) as [[Hu ->]|(u&e&Hu&H0&->)]; [left|right].
      * split; [by constructor|]. rewrite <- !orb_assoc. done.
      * exists u, e. split; [by right|done].
Qed.
Lemma quote_ansi_writes us offs : Forall (fun u => good u ∨ bad u) us →
  ∃ body, quote_ansi isPrint LangBash us offs false = Ok body ∧ writes false body (concat (map snd us)).
Proof using All.
  intros Hus. revert offs. induction Hus as [|u us Hu _ IH]; intros offs; [exists []; split; [done|apply writes_nil]|].
  destruct u as [r raw]. destruct (IH (offs + glen raw)) as (body&Hb&Hw). cbn [quote_ansi map concat snd]. change (bool_decide (LangBash = LangMirBSDKorn)) with false. cbn [andb].
  rewrite Hb. cbn [mbind result_bind mret result_ret].
  assert (∀ out, writes false out raw → ∃ body0, (Ok (out ++ body) : result QuoteError gostr) = Ok body0 ∧ writes false body0 (raw ++ concat (map snd us))) as Hk.
  { intros out Ho. eexists. split; [done|by apply writes_app]. }
  destruct (char_in r (go "'\")) eqn:Ec.
  { destruct Hu as [Hg|(_&Hr&_)]; [apply Hk; by apply (writes_quoted false (r, raw))|]. cbn [fst] in Hr. subst r. by vm_compute in Ec. }
  destruct (isPrint r && negb (r =? RuneError)) eqn:Ep.
  { to_prop. destruct Hu as [Hg|(_&Hr&_)]; [|cbn [fst] in Hr; subst r; by vm_compute in H0].
    apply Hk. pose proof (good_encode _ Hg) as He. cbn [fst snd] in He. rewrite He. apply (writes_good false (r, raw)); [done|by apply print_ge|done]. }
  destruct (escape_letter r) as [l|] eqn:El.
  { destruct Hu as [Hg|(_&Hr&_)]; [apply Hk; by apply (writes_letter false (r, raw))|]. cbn [fst] in Hr. subst r. by vm_compute in El. }
  assert (∀ c, raw = [c] → writes false (go "\x" ++ fmt_radix 16 false 2 (byte_val (default "000"%char (head raw)))) raw) as Hx.
  { intros c ->. cbn [head hd_error default from_option]. pose proof (byte_val_range c) as Hc. pose proof (writes_hex false "x" 2 (byte_val c) ltac:(left) Hc) as W.
    unfold hex_escape in W. rewrite Ascii.eqb_refl, Z.mod_small, byte_of_val in W by done. exact W. }
  destruct Hu as [Hg|(Hi&Hr&c&Hraw&_)]; cbn [fst snd] in *; last (rewrite Hi, orb_true_r; apply Hk; by eapply Hx).
  destruct ((r <? RuneSelf) || invalid_rune (r, raw)) eqn:Es.
  { apply orb_prop in Es as [Es%Z.ltb_lt|Es]; [|destruct Hg as (_&_&Hg); congruence]. apply Hk. destruct (good_cases _ Hg) as [(c&[= Hrc Hraw]&_)|[Hh _]]; [by eapply Hx|].
    cbn [fst] in Hh. unfold RuneSelf in Es. lia. }
  pose proof (good_range _ Hg) as Hrg. destruct (good_valid _ Hg) as [Hv Hr31]. pose proof (good_encode _ Hg) as He. cbn [fst snd] in *.
  rewrite (proj2 (Z.ltb_ge _ _)) by lia.
  assert (∀ c, hex_escape false c r = if Ascii.eqb c "x" then [byte_of (r mod 256)] else raw) as Hhex.
  { intros c. unfold hex_escape. rewrite (proj2 (Z.ltb_lt r (2 ^ 31))) by lia. rewrite Hv, He. done. }
  destruct (r <? 65536) eqn:E16; to_prop; apply Hk.
  - pose proof (writes_hex false "u" 4 r ltac:(set_solver) ltac:(change (16 ^ Z.of_nat 4) with 65536; lia)) as W. by rewrite Hhex in W.
  - pose proof (writes_hex false "U" 8 r ltac:(set_solver) ltac:(change (16 ^ Z.of_nat 8) with 4294967296; lia)) as W. by rewrite Hhex in W.
Qed.
Lemma quoteANSI_writes cl s :
  ∃ body, quoteANSI isPrint s = go "$'" ++ body ++ go "'" ∧ writes cl body s.
Proof using All.
  eexists. split; [reflexivity|]. rewrite <- (runes_concat s) at 2. rewrite concat_flat. apply writes_flat. intros u Hin.
  pose proof (runes_units s) as Hu. rewrite list.Forall_forall in Hu. specialize (Hu u Hin). destruct (invalid_rune u) eqn:Hi; [apply writes_octals|].
  destruct Hu as [Hg|(Hb&_)]; [|congruence]. destruct (char_in u.1 (go "'\")) eqn:Ec; [by apply writes_quoted|]. destruct (escape_letter u.1) eqn:El; [by apply writes_letter|].
  destruct (isPrint u.1) eqn:Ep; cbn [negb]; [|apply writes_octals]. rewrite good_encode by done. apply writes_good; [done|by apply print_ge|done].
Qed.
Lemma bashANSIQuote_writes cl s : ∃ body, bashANSIQuote isPrint s = go "$'" ++ body ++ go "'" ∧ writes cl body s.
Proof using All.
  eexists. split; [reflexivity|]. rewrite <- (runes_concat s) at 2. rewrite concat_flat. apply writes_flat. intros u Hin.
  pose proof (runes_units s) as Hu. rewrite list.Forall_forall in Hu. specialize (Hu u Hin). destruct (invalid_rune u) eqn:Hi; [apply writes_octals|].
  destruct Hu as [Hg|(Hb&_)]; [|congruence]. destruct (Nat.eqb_spec (length u.2) 1) as [Hl|Hl].
  - destruct u as [r [|c [|d x]]]; [done| |done]. cbn [snd flat_map]. rewrite app_nil_r. apply writes_byte.
  - destruct (isPrint u.1) eqn:Ep; [|apply writes_octals]. apply writes_good; [done|by apply print_ge|]. apply not_true_iff_false. intros (c&Hc&E)%char_in_elem.
    apply Hl. rewrite (unit_is u c Hg E); [done|]. cbn [go String.list_ascii_of_string] in Hc. rewrite !elem_of_cons, elem_of_nil in Hc. destruct Hc as [->|[->|[]]]; done.
Qed.
End quoting.
Lemma traceANSIQuote_writes isPrint cl s : ∃ body, traceANSIQuote isPrint s true = go "$'" ++ body ++ go "'" ∧ writes cl body s.
Proof.
  eexists. split; [reflexivity|]. remember (length s) as n eqn:Hn. assert (length s ≤ n)%nat as Hle by lia. clear Hn. revert s Hle.
  induction n as [|n IH]; intros [|c s] Hle; try (apply writes_nil); [simpl in Hle; lia|]. cbn [trace_loop]. destruct (DecodeRuneInString (c :: s)) as [r w]. cbn [negb andb].
  apply (writes_app cl (ansi_byte c) _ [c] s); [apply writes_byte|]. apply IH. simpl in Hle. lia.
Qed.

(** ** Arguments *)

Section arguments.
Variable rd : reader.
Abbreviation expand wps := (word_fields (rd_homes rd) (rd_extGlob rd) (rd_canReadDir rd) (rd_preferStartupHome rd) (rd_cLocale rd) wps).

Lemma read_as q t wps s : parse_word rd (q ++ t) = Some (wps, t) → expand wps = Some [s] → read_argument rd (q ++ t) = Some ([s], t).
Proof. intros Hp He. unfold read_argument. rewrite Hp. cbn [mbind option_bind]. by rewrite He. Qed.
Lemma read_single s t : seg AsBytes in_single s → word_end t → read_argument rd ((go "'" ++ s ++ go "'") ++ t) = Some ([s], t).
Proof. intros. eapply read_as; [by apply parse_single|]. apply (expand_single rd false). Qed.
Lemma read_ansi body s t : writes (rd_cLocale rd) body s → byte_of 0 ∉ s → word_end t → read_argument rd ((go "$'" ++ body ++ go "'") ++ t) = Some ([s], t).
Proof.
  intros [Hd Hs] H0 Ht. eapply read_as; [by apply parse_ansi|]. rewrite (expand_single rd true). by rewrite (decodes_all _ _ _ Hd), cut_null_free.
Qed.
Lemma dq_special_ascii r : dq_special r = true → r < 128.
Proof. unfold dq_special, char_in. cbn [existsb go String.list_ascii_of_string]. intros H. repeat (apply orb_prop in H as [->%Z.eqb_eq|H]; [by vm_compute|]). done. Qed.
Lemma dq_special_byte c : dq_special (byte_val c) = true → byte_in c (dquote :: go "\$`") = true.
Proof.
  intros (d&Hd&E)%char_in_elem. assert (c = d) as -> by (by rewrite <- (byte_of_val c), E, byte_of_val). apply existsb_exists. exists d. split; [|apply Ascii.eqb_refl].
  apply list_elem_of_In. cbn [go String.list_ascii_of_string] in *. rewrite !elem_of_cons in *. naive_solver.
Qed.
Lemma read_double us t : Forall good us → (∀ u, u ∈ us → 32 ≤ u.1) → byte_of 0 ∉ concat (map snd us) → word_end t →
  read_argument rd (([dquote] ++ quote_double us ++ [dquote]) ++ t) = Some ([concat (map snd us)], t).
Proof.
  intros Hg H32 H0 Ht. change (quote_double us) with (escaped dq_special us).
  assert (seg Pairs in_double (escaped dq_special us)) as Hs.
  { apply seg_escaped; [apply dq_special_ascii|done|done|]. intros u Hu. split; [by apply H32|]. unfold dq_special, char_in, in_double. cbn [existsb go String.list_ascii_of_string]. intros H. to_prop.
    rewrite !elem_of_cons, elem_of_nil. change (byte_val dquote) with 34 in *. change (byte_val "`") with 96 in *. change (byte_val "$") with 36 in *. lia. }
  assert (dq_unescape (escaped dq_special us) = concat (map snd us)) as Hd by (apply dq_unescape_escaped; [apply dq_special_ascii|done|done|apply dq_special_byte]).
  eapply read_as; [by apply parse_double|]. case_decide as E; [|by rewrite (expand_double rd), Hd, cut_null_free].
  rewrite E in Hd. rewrite <- Hd. done.
Qed.

(** The bytes that an unquoted word cannot have without a backslash. *)
Definition word_specials : gostr := go "#~" ++ lit_stops ++ go "[*?(\".
Section unquoted.
Variable p : rune → bool.
Hypothesis p_ascii : ∀ r, p r = true → r < 128.
Hypothesis p_specials : forallb (fun c => (byte_val c <? 32) || p (byte_val c)) word_specials = true.

Lemma p_special c : c ∈ word_specials → 32 ≤ byte_val c → p (byte_val c) = true.
Proof using All.
  intros Hc H32. pose proof (elem_forallb _ _ c p_specials Hc) as H. cbn beta in H. apply orb_prop in H as [H%Z.ltb_lt|]; [lia|done].
Qed.
Lemma p_free r x : x ⊆ word_specials → 32 ≤ r → p r = false → char_in r x = false.
Proof using All. intros Hx H32 Hp. apply char_in_false. intros c Hc ->. rewrite p_special in Hp; [done|by apply Hx|done]. Qed.
Lemma escaped_head us z : Forall good us → us ≠ [] → p z = true → z ≠ 92 → head_val (escaped p us) ≠ z.
Proof using All.
  intros Hg Hne Hz H92. pose proof (p_ascii z Hz). destruct us as [|u us]; [done|]. apply Forall_cons_1 in Hg as [Hg _]. rewrite escaped_cons by done.
  destruct (p u.1) eqn:Hp; [simpl; change (byte_val c92) with 92; lia|]. cbn [app]. intros E.
  destruct (good_head u (escaped p us) Hg) as [E'|[_ Hh]]; [|lia]. congruence.
Qed.
Lemma read_escaped us t : Forall good us → us ≠ [] → (∀ u, u ∈ us → 32 ≤ u.1) → byte_in "{" (concat (map snd us)) = false → word_end t →
  read_argument rd (escaped p us ++ t) = Some ([concat (map snd us)], t).
Proof using All.
  intros Hg Hne H32 Hb Ht. assert (p 92 = true) as H92 by (apply (p_special c92); [|by vm_compute]; by apply (bool_decide_unpack _); vm_compute).
  assert (p 35 = true ∧ p 126 = true) as [H35 H126].
  { split; [apply (p_special "#"%char)|apply (p_special "~"%char)]; first [done|by apply (bool_decide_unpack _); vm_compute]. }
  pose proof (strip_escaped p p_ascii H92 us Hg) as Hst.
  assert (concat (map snd us) ≠ []) as Hcne. { destruct us as [|u us]; [done|]. apply Forall_cons_1 in Hg as [(Hu&_) _]. cbn [map concat]. by intros [? _]%app_eq_nil. }
  assert (escaped p us ≠ []) as Hene by (intros E; rewrite E in Hst; by rewrite <- Hst in Hcne).
  eapply read_as.
  - apply parse_literal; [|done|by apply escaped_head|done]. apply seg_escaped; [done..|]. intros u Hu. specialize (H32 u Hu). split; [done|]. intros Hp.
    split; [apply p_free; [unfold word_specials; set_solver|done..]|]. intros E. rewrite E in Hp. change 91 with (byte_val "["%char) in Hp.
    rewrite p_special in Hp; [done|unfold word_specials; set_solver|by vm_compute].
  - rewrite (expand_literal rd), Hst; [done| |by apply escaped_head|done| |].
    + by rewrite byte_in_escaped.
    + intros E. rewrite E in Hst. by rewrite <- Hst in Hcne.
    + apply calm_escaped_on; [done..|]. intros u Hu Hp. specialize (H32 u Hu). apply p_free; [|done..]. unfold word_specials. cbn [go String.list_ascii_of_string]. set_solver.
Qed.
End unquoted.
End arguments.

(** ** Values *)

Lemma zero_byte s u : u ∈ runes_of s → u.1 = 0 → byte_of 0 ∈ s.
Proof.
  intros Hin H0. pose proof (runes_units s) as Hu. rewrite list.Forall_forall in Hu. destruct (Hu u Hin) as [Hg|(_&Hr&_)]; [|rewrite H0 in Hr; done].
  rewrite <- (runes_concat s). apply list_elem_of_In, in_concat. exists u.2. split; [apply in_map, list_elem_of_In, Hin|]. rewrite (unit_is u (byte_of 0)); [by left|done..].
Qed.
(** A text all of whose runes are printable, and none a byte that is no UTF-8. *)
Definition printable (isPrint : rune → bool) (s : gostr) : Prop := Forall good (runes_of s) ∧ ∀ u, u ∈ runes_of s → 32 ≤ u.1.
Lemma existsb_none {A} (f : A → bool) l : existsb f l = false → ∀ x, x ∈ l → f x = false.
Proof. intros H x Hx. apply not_true_iff_false. intros Hf. apply not_true_iff_false in H. apply H, existsb_exists. exists x. split; [by apply list_elem_of_In|done]. Qed.

Section values.
Variable isPrint : rune → bool.
Hypothesis isPrint_ascii : ∀ r, 0 ≤ r < 128 → isPrint r = between 32 r 126.

Lemma printable_text s : (∀ u, u ∈ runes_of s → invalid_rune u = false ∧ isPrint u.1 = true) → printable isPrint s.
Proof using All.
  intros H. assert (Forall good (runes_of s)) as Hg by (apply runes_good, list.Forall_forall; intros u Hu; by apply H).
  split; [done|]. rewrite list.Forall_forall in Hg. intros u Hu. eapply (print_ge isPrint isPrint_ascii); [by apply Hg|by apply H].
Qed.
Lemma seg_printable m U s : printable isPrint s → (∀ u, u ∈ runes_of s → (u.1 = 92 → m = AsBytes) ∧ U u.1) → seg m U s.
Proof.
  intros [Hg H32] HU. rewrite <- (runes_concat s). apply seg_text; [done|]. intros u Hu. destruct (HU u Hu). auto.
Qed.
Lemma quote_free s c : is_ascii c → byte_in c s = false → ∀ u, u ∈ runes_of s → Forall good (runes_of s) → u.1 ≠ byte_val c.
Proof.
  intros Hc Hs u Hu Hg E. rewrite list.Forall_forall in Hg. apply not_true_iff_false in Hs. apply Hs, existsb_exists. exists c. split; [|apply Ascii.eqb_refl].
  rewrite <- (runes_concat s). apply in_concat. exists u.2. split; [apply in_map, list_elem_of_In, Hu|]. rewrite (unit_is u c); [by left|by apply Hg|done..].
Qed.
Lemma read_printable rd s t : printable isPrint s → byte_in "'" s = false → word_end t → read_argument rd ((go "'" ++ s ++ go "'") ++ t) = Some ([s], t).
Proof.
  intros Hp Hq Ht. apply read_single; [|done]. apply seg_printable; [done|]. intros u Hu. split; [done|]. exact (quote_free s "'" ltac:(done) Hq u Hu (proj1 Hp)).
Qed.
Lemma not_invalid u : good u ∨ bad u → u.1 ≠ RuneError → invalid_rune u = false.
Proof. intros [(_&_&Hi)|(_&Hr&_)]; done. Qed.

(** *** [syntax.Quote] *)

Lemma Quote_null s : match Quote isPrint s LangBash with Ok _ => byte_of 0 ∉ s | Err _ => byte_of 0 ∈ s end.
Proof using All.
  unfold Quote. case_decide as E; [subst; apply not_elem_of_nil|].
  destruct (quote_scan_spec isPrint (runes_of s) 0 false false _ eq_refl) as [[H0 ->]|(u&e&Hu&Hz&->)]; cbn [mbind result_bind]; [|by eapply zero_byte].
  assert (byte_of 0 ∉ s) as Hn.
  { rewrite <- (runes_concat s). apply text_free; [apply runes_units|done|]. rewrite list.Forall_forall in H0. exact H0. }
  destruct (_ && _ && _); [done|]. destruct (false || _).
  - destruct (quote_ansi_writes isPrint isPrint_ascii (runes_of s) 0 (runes_units s)) as (body&->&_). done.
  - by destruct (negb (byte_in _ _)).
Qed.
Lemma char_in_ascii x r : forallb (fun c => byte_val c <? 128) x = true → char_in r x = true → r < 128.
Proof. intros Hx (c&Hc&->)%char_in_elem. pose proof (elem_forallb _ _ c Hx Hc) as H. cbn beta in H. lia. Qed.
Lemma shell_chars_ascii r : char_in r shell_chars = true → r < 128.
Proof. by apply char_in_ascii. Qed.
Lemma Quote_value rd s t : rd_cLocale rd = false → word_end t →
  match Quote isPrint s LangBash with Ok q => read_argument rd (q ++ t) = Some ([s], t) | Err _ => byte_of 0 ∈ s end.
Proof using All.
  intros Hcl Ht. pose proof (Quote_null s) as Hn. revert Hn. unfold Quote. case_decide as Es; [intros _; subst; apply (read_single rd []); [constructor|done]|].
  destruct (quote_scan_spec isPrint (runes_of s) 0 false false _ eq_refl) as [[H0 ->]|(u&e&Hu&Hz&->)]; cbn [mbind result_bind]; [|done].
  cbn [orb]. destruct (existsb (fun u => _ || _) (runes_of s)) eqn:Enp.
  { rewrite andb_false_r. cbn [andb]. destruct (quote_ansi_writes isPrint isPrint_ascii (runes_of s) 0 (runes_units s)) as (body&->&Hw). cbn [mbind result_bind].
    rewrite runes_concat in Hw. intros Hn. apply read_ansi; [by rewrite Hcl|done..]. }
  assert (printable isPrint s) as Hp.
  { apply printable_text. intros u Hu. pose proof (existsb_none _ _ Enp u Hu) as H. cbn beta in H. to_prop. split; [|done]. apply not_invalid; [|done].
    pose proof (runes_units s) as Hx. rewrite list.Forall_forall in Hx. by apply Hx. }
  pose proof Hp as [Hg H32]. destruct (negb (existsb _ _) && _ && _) eqn:Eraw.
  - intros _. to_prop. assert (escaped (fun r => char_in r shell_chars) (runes_of s) = s) as Hraw.
    { rewrite escaped_raw, runes_concat; [done..|]. intros u Hu. exact (existsb_none (fun u : rune * gostr => char_in u.1 shell_chars) _ H u Hu). }
    rewrite <- Hraw at 1. rewrite (read_escaped rd (fun r => char_in r shell_chars)); rewrite ?runes_concat; [done|exact shell_chars_ascii|done|done| |done| |done].
    + intros E. apply Es. by rewrite <- (runes_concat s), E.
    + apply not_true_iff_false. intros (c&Hc%list_elem_of_In&<-%Ascii.eqb_eq)%existsb_exists. revert Hc. rewrite <- (runes_concat s). apply text_free; [apply runes_units|done|].
      intros u Hu E. pose proof (existsb_none (fun u : rune * gostr => char_in u.1 shell_chars) _ H u Hu) as Hx. cbn beta in Hx. rewrite E in Hx. done.
  - destruct (negb (byte_in "'" s)) eqn:Eq; intros Hn; [to_prop; by apply read_printable|].
    rewrite <- (runes_concat s) at 2. apply read_double; [done..| |done]. by rewrite runes_concat.
Qed.

(** *** [${v@Q}] *)

Lemma split_byte_prepend c x s p ps : c ∉ x → split_byte c s = p :: ps → split_byte c (x ++ s) = (x ++ p) :: ps.
Proof.
  intros Hx Hs. induction x as [|d x IH]; [done|]. apply not_elem_of_cons in Hx as [Hd Hx]. cbn [app split_byte]. rewrite decide_False by done. by rewrite IH.
Qed.
Lemma seg_split s : seg AsBytes (fun _ => True) s → Forall (seg AsBytes in_single) (split_byte "'" s).
Proof.
  induction 1 as [|u s Hg H32 H92 _ _ IH|d s Hm _ _ _ _|s _ _ IH]; [repeat constructor| |done|].
  - destruct (decide (u.1 = 39)) as [E|E].
    + rewrite (unit_is u "'"%char) by done. cbn [snd ascii_unit app split_byte]. rewrite decide_True by done. constructor; [constructor|done].
    + destruct (split_byte "'" s) as [|p ps] eqn:Es; [by apply split_byte_not_nil in Es|].
      rewrite (split_byte_prepend _ u.2 s p ps); [|apply unit_free; done|done]. apply Forall_cons_1 in IH as [Hp Hps]. constructor; [by apply seg_unit|done].
  - destruct (split_byte "'" s) as [|p ps] eqn:Es; [by apply split_byte_not_nil in Es|].
    rewrite (split_byte_prepend _ [c92] s p ps); [|by intros ?%list_elem_of_singleton|done]. apply Forall_cons_1 in IH as [Hp Hps]. constructor; [by apply seg_byte|done].
Qed.
Lemma bashQuote_value rd s t : word_end t →
  match bashQuoteValue isPrint s with Ok q => read_argument rd (q ++ t) = Some ([s], t) | Err _ => byte_of 0 ∈ s end.
Proof using All.
  intros Ht. pose proof (Quote_null s) as Hn. unfold bashQuoteValue. destruct (Quote isPrint s LangBash) as [q|e]; cbn [mbind result_bind]; [|done].
  destruct (bashQuoteNeedsANSI isPrint s) eqn:Ea.
  { destruct (bashANSIQuote_writes isPrint isPrint_ascii (rd_cLocale rd) s) as (body&->&Hw). by apply read_ansi. }
  assert (printable isPrint s) as Hp.
  { apply printable_text. intros u Hu. pose proof (existsb_none _ _ Ea u Hu) as H. cbn beta in H. to_prop. done. }
  destruct (negb (byte_in "'" s)) eqn:Eq; [to_prop; by apply read_printable|].
  assert (Forall (seg AsBytes in_single) (split_byte "'" s)) as Hs by (apply seg_split, seg_printable; done).
  destruct (split_byte "'" s) as [|p ps] eqn:Es; [by apply split_byte_not_nil in Es|].
  eapply read_as; [by apply (parse_joined rd)|]. rewrite (expand_joined rd). rewrite <- Es. f_equal. f_equal. apply (join_split "'").
Qed.

(** *** [declare -p] *)

Lemma declPrint_value rd s t : byte_of 0 ∉ s → word_end t → read_argument rd (bashDeclPrintValue isPrint s ++ t) = Some ([s], t).
Proof using Type.
  intros H0 Ht. unfold bashDeclPrintValue. destruct (needsTraceANSIQuote s) eqn:Ea.
  { destruct (traceANSIQuote_writes isPrint (rd_cLocale rd) s) as (body&->&Hw). by apply read_ansi. }
  assert (∀ c, c ∈ s → is_ascii c ∧ 32 ≤ byte_val c) as Hs.
  { intros c Hc. pose proof (existsb_none _ _ Ea c Hc) as H. cbn beta in H. to_prop. unfold is_ascii, RuneSelf. lia. }
  destruct (ascii_units s) as [Hg Hc]; [apply list.Forall_forall; intros; by apply Hs|].
  assert (bashDeclDoubleQuote s = [dquote] ++ quote_double (map ascii_unit s) ++ [dquote]) as ->.
  { unfold bashDeclDoubleQuote, quote_double. do 2 f_equal. clear H0 Ea Hs Hc. induction s as [|c s IH]; [done|]. apply Forall_cons_1 in Hg as [Hc Hg]. cbn [map flat_map fst ascii_unit].
    rewrite IH by done. pose proof (good_encode _ Hc) as E. cbn [fst snd ascii_unit] in E. by rewrite E. }
  rewrite <- Hc at 2. apply read_double; [done| |by rewrite Hc|done]. intros u (c&->&Hin)%list_elem_of_fmap. by apply Hs.
Qed.

(** *** [printf %q] *)

Lemma needsBackslash_ascii r : needsBackslashEscape r = true → r < 128.
Proof. by apply char_in_ascii. Qed.
Lemma quoteShell_value rd s t : byte_of 0 ∉ s → needsANSIQuote isPrint s = true ∨ byte_in "{" s = false → word_end t →
  read_argument rd (quoteShellBash isPrint s ++ t) = Some ([s], t).
Proof using All.
  intros H0 Hb Ht. unfold quoteShellBash. case_decide as Es; [subst; apply (read_single rd []); [constructor|done]|].
  destruct (needsANSIQuote isPrint s) eqn:Ea.
  { destruct (quoteANSI_writes isPrint isPrint_ascii (rd_cLocale rd) s) as (body&->&Hw). by apply read_ansi. }
  destruct Hb as [|Hb]; [done|].
  assert (printable isPrint s) as [Hg H32].
  { apply printable_text. intros u Hu. pose proof (existsb_none _ _ Ea u Hu) as H. cbn beta in H. to_prop. done. }
  assert (runes_of s ≠ []) as Hne by (intros E; apply Es; by rewrite <- (runes_concat s), E).
  assert (read_argument rd (escaped needsBackslashEscape (runes_of s) ++ t) = Some ([s], t)) as Hr.
  { rewrite read_escaped, runes_concat; [done|exact needsBackslash_ascii|done..|by rewrite runes_concat|done]. }
  destruct (isSafeRawWord s) eqn:Er; [|exact Hr]. unfold isSafeRawWord in Er. to_prop. rewrite <- Hr. f_equal. rewrite escaped_raw, runes_concat; [done..|].
  intros u Hu. exact (existsb_none (fun u : rune * gostr => needsBackslashEscape u.1) _ H1 u Hu).
Qed.
End values.

(** ** Theorems *)

(** C21: [syntax.Quote] for Bash and the shell agree on every value: unless the value has a null byte, which [Quote]
    refuses, the text that it writes is read by the lexer, the parser and the expansion of words (outside the C
    locale) as one argument, the value itself, whatever the shell's patterns, home directories and previous token,
    and reading stops where the text ends. *)
Theorem Quote_reads_back isPrint rd s rest (Hprint : ∀ r, 0 ≤ r < 128 → isPrint r = between 32 r 126) : rd_cLocale rd = false → word_end rest →
  match Quote isPrint s LangBash with
  | Ok q => (byte_of 0 ∉ s) ∧ read_argument rd (q ++ rest) = Some ([s], rest)
  | Err _ => byte_of 0 ∈ s
  end.
Proof.
  intros Hcl Ht. pose proof (Quote_value isPrint Hprint rd s rest Hcl Ht) as Hv. pose proof (Quote_null isPrint Hprint s) as Hn. by destruct (Quote isPrint s LangBash).
Qed.

(** C22: [${v@Q}] in any locale: the text it is expanded to is read as one argument with the value of [v], unless the
    value has a null byte; single quotes, bytes that are no UTF-8 and control characters included. *)
Theorem bashQuoteValue_reads_back isPrint rd s rest (Hprint : ∀ r, 0 ≤ r < 128 → isPrint r = between 32 r 126) : word_end rest →
  match bashQuoteValue isPrint s with
  | Ok q => (byte_of 0 ∉ s) ∧ read_argument rd (q ++ rest) = Some ([s], rest)
  | Err _ => byte_of 0 ∈ s
  end.
Proof.
  intros Ht. pose proof (bashQuote_value isPrint Hprint rd s rest Ht) as Hv. pose proof (Quote_null isPrint Hprint s) as Hn. unfold bashQuoteValue in *.
  destruct (Quote isPrint s LangBash); cbn [mbind result_bind] in *; [|done]. destruct (if bashQuoteNeedsANSI _ _ then _ else _) eqn:E; [done|].
  repeat case_match; done.
Qed.

(** C23: what [declare -p] writes for the value of a variable, between double quotes or as [$'...'], is read as one
    argument with that value, whatever the value is, null bytes apart, and whatever runes are printable. *)
Theorem declare_reads_back isPrint rd s rest : byte_of 0 ∉ s → word_end rest → read_argument rd (bashDeclPrintValue isPrint s ++ rest) = Some ([s], rest).
Proof. apply declPrint_value. Qed.

(** C24: what [printf %q] writes for an argument is read as one argument with the same value, for arguments without
    null bytes and, where no [$'...'] is needed, without an opening brace: backslashes do not keep those from
    brace expansion. *)
Theorem printf_q_reads_back isPrint rd s rest (Hprint : ∀ r, 0 ≤ r < 128 → isPrint r = between 32 r 126) :
  byte_of 0 ∉ s → needsANSIQuote isPrint s = true ∨ byte_in "{" s = false → word_end rest →
  read_argument rd (quoteShellBash isPrint s ++ rest) = Some ([s], rest).
Proof. by apply quoteShell_value. Qed.

(** *** Instances *)

Definition demo_print (r : rune) : bool := between 32 r 126 || (161 <=? r).
Definition demo_reader : reader := MkReader true true true false false (MkHomes (Some (go "/home/u")) [] (fun _ => None) None) [].
Definition c_reader : reader := MkReader true true true false true (MkHomes (Some (go "/home/u")) [] (fun _ => None) None) [].
Lemma demo_print_ascii r : 0 ≤ r < 128 → demo_print r = between 32 r 126.
Proof. intros Hr. unfold demo_print. rewrite (proj2 (Z.leb_gt 161 r)) by lia. apply orb_false_r. Qed.
(** A space, a quote, a dollar sign, a tab and a byte that is no UTF-8. *)
Definition demo_value : gostr := go "it's $x" ++ map byte_of [9; 255].
Lemma demo_rest : word_end (go "; x").
Proof. right. exists ";"%char, (go " x"). split; [done|]. apply (bool_decide_unpack _). vm_compute. done. Qed.

Example Quote_texts :
  Quote demo_print demo_value LangBash = Ok (go "$'it\'s $x\t\xff'") ∧ Quote demo_print (go "a b") LangBash = Ok (go "'a b'") ∧
  Quote demo_print (go "it's") LangBash = Ok ([dquote] ++ go "it's" ++ [dquote]) ∧ Quote demo_print (go "then") LangBash = Ok (go "'then'") ∧
  Quote demo_print demo_value LangPOSIX = Err (MkQuoteError 7 quoteErrPOSIX).
Proof. vm_compute. repeat split; reflexivity. Qed.
Example value_texts :
  bashQuoteValue demo_print (go "it's") = Ok (go "'it'\''s'") ∧ quoteShellBash demo_print (go "it's $x") = go "it\'s\ \$x" ∧
  bashDeclPrintValue demo_print (go "it's $x") = [dquote] ++ go "it's \$x" ++ [dquote] ∧ bashDeclPrintValue demo_print demo_value = go "$'it\'s $x\t\377'".
Proof. vm_compute. repeat split; reflexivity. Qed.

Lemma Quote_reads_back_witness :
  match Quote demo_print demo_value LangBash with
  | Ok q => (byte_of 0 ∉ demo_value) ∧ read_argument demo_reader (q ++ go "; x") = Some ([demo_value], go "; x")
  | Err _ => byte_of 0 ∈ demo_value
  end.
Proof. exact (Quote_reads_back demo_print demo_reader demo_value (go "; x") demo_print_ascii eq_refl demo_rest). Defined.
Lemma bashQuoteValue_reads_back_witness :
  match bashQuoteValue demo_print (go "it's") with
  | Ok q => (byte_of 0 ∉ go "it's") ∧ read_argument c_reader (q ++ go "; x") = Some ([go "it's"], go "; x")
  | Err _ => byte_of 0 ∈ go "it's"
  end.
Proof. exact (bashQuoteValue_reads_back demo_print c_reader (go "it's") (go "; x") demo_print_ascii demo_rest). Defined.
Lemma demo_no_null : byte_of 0 ∉ demo_value.
Proof. apply (bool_decide_unpack _). vm_compute. done. Qed.
Lemma declare_reads_back_witness : read_argument c_reader (bashDeclPrintValue demo_print demo_value ++ go "; x") = Some ([demo_value], go "; x").
Proof. exact (declare_reads_back demo_print c_reader demo_value (go "; x") demo_no_null demo_rest). Defined.
Lemma printf_q_reads_back_witness : read_argument c_reader (quoteShellBash demo_print (go "it's $x") ++ go "; x") = Some ([go "it's $x"], go "; x").
Proof.
  apply (printf_q_reads_back demo_print c_reader (go "it's $x") (go "; x") demo_print_ascii); [|right; vm_compute; reflexivity|exact demo_rest].
  apply (bool_decide_unpack _). vm_compute. done.
Defined.

(** *** Values that do not read back *)

(** U+200B is written with [\u], which the C locale keeps as text. *)
Example Quote_in_C_locale : let s := map byte_of [226; 128; 139] in
  Quote (fun r => between 32 r 126) s LangBash = Ok (go "$'\u200b'") ∧ read_argument c_reader (go "$'\u200b'") = Some ([go "\u200B"], []).
Proof. vm_compute. repeat split; reflexivity. Qed.
(** [printf %q] in the GNU dialect: the octal escape stands between double quotes. *)
Example gnu_octal_in_double_quotes : quoteShellGNU demo_print (go "it's" ++ [byte_of 255]) true = [dquote] ++ go "it's'$'\377" ++ [dquote].
Proof. vm_compute. reflexivity. Qed.
