(* ===== verification/Effects.v ===== *)
(** What the operations of the in-memory filesystem keep: an interface for invariants of the filesystem that
    hold whatever is allocated, bound or loaded, and the proof that every operation keeps them. *)
From S2P Require Import Prelude GoPath FsTypes MemoryFS MemoryFSWf MemoryFSInv MemoryFSOps MemoryFSSafe MemoryFSProps MemoryFSResolve.

(** ** Resolution below a resolved directory *)

(** Creating at [ts] ends at [q], with some budget of links. *)
Definition creates (m : MemoryFS) (ts q : list gostr) : Prop := valid_comps q ∧ ∃ h, resolveCreate_hops h m (render ts) = Ok (render q).

Lemma creates_det m ts q q' : creates m ts q → creates m ts q' → q = q'.
Proof.
  intros [Hq [h Hh]] [Hq' [h' Hh']]. apply render_inj; [done..|].
  assert ((Ok (render q) : result error gostr) = Ok (render q')) as E by (by eapply (create_agree h h')). congruence.
Qed.
Lemma creates_landing m cs : wf m → valid_comps cs → landing m cs → creates m cs cs.
Proof. intros Hwf Hcs Hl. split; [done|]. exists 1%nat. by apply create_fix. Qed.
Lemma creates_view m m' ts q : same_view m m' → creates m ts q ↔ creates m' ts q.
Proof. intros Hsv. unfold creates. f_equiv. f_equiv. intros h. by rewrite (resolveCreate_view m m' h _ Hsv). Qed.
(** What is below a path resolves as what is below its resolution. *)
Lemma creates_suffix m ts ps rs q : wf m → valid_comps ts → valid_comps rs → creates m ts ps →
  creates m (ps ++ rs) q → creates m (ts ++ rs) q.
Proof.
  intros Hwf Hts. revert q. induction rs as [|b rs IH] using rev_ind; intros q Hrs Hps.
  { rewrite !app_nil_r. destruct Hps as [Hvps [h Hh]]. destruct (create_lands _ _ _ _ Hwf Hh) as (ps'&?&E&Hl).
    apply render_inj in E as <-; [|done..]. intros Hq. rewrite <- (creates_det m ps ps q); [by split; [|exists h]|by apply creates_landing|done]. }
  apply valid_comps_snoc in Hrs as [Hrs Hb]. intros [Hvq [h Hq]]. pose proof Hps as [Hvps _].
  rewrite (assoc_L (++)) in Hq. pose proof (create_snoc h m (ps ++ rs) b Hwf) as Ho. unfold one_more in Ho.
  destruct (resolveCreate_hops h m (render (ps ++ rs))) as [P|e] eqn:EP; last first.
  { assert (valid_comps (ps ++ rs)) as Hv by (by apply Forall_app). specialize (Ho Hv Hb). rewrite Nat.add_0_r in Ho. congruence. }
  destruct (create_lands _ _ _ _ Hwf EP) as (us&Hus&->&Hland).
  destruct Ho as (us'&h0&Hus'&E&Hk); [by apply Forall_app|done|]. apply render_inj in E as <-; [|done..].
  destruct (IH us Hrs Hps) as [_ [h1 Hh1]]; [by split; [|exists h]|].
  pose proof (create_snoc h1 m (ts ++ rs) b Hwf) as Ho. unfold one_more in Ho. rewrite Hh1 in Ho.
  destruct Ho as (us''&h2&Hus''&E&Hk'); [by apply Forall_app|done|]. apply render_inj in E as <-; [|done..].
  split; [done|]. rewrite (assoc_L (++)). specialize (Hk 0%nat). rewrite Nat.add_0_r, Hq, Nat.add_0_r in Hk. symmetry in Hk.
  exists (h1 + h0)%nat. rewrite Hk'. unfold create_step in *.
  destruct (nodes m !! render us ≫= _) as [nd|]; [|done]. destruct (negb _); [done|].
  destruct (nodes m !! render (us ++ [b]) ≫= _) as [nd'|]; [|done]. destruct (isSymlink nd'); [|done].
  rewrite (create_mono h0 (h2 + h0)); [done|lia|by rewrite Hk].
Qed.
(** An existing path, found with its final link followed. *)
Lemma creates_existing m cs p o am : wf m → valid_comps cs → resolveAbs_hops (S maxSymlinkDepth) m (render cs) true am = Ok (render p, o) →
  valid_comps p → creates m cs p.
Proof.
  intros Hwf Hcs Hr Hp. pose proof (resolve_agrees (S maxSymlinkDepth) m (render cs) am Hwf) as Ha. rewrite Hr in Ha.
  split; [done|]. by eexists.
Qed.
Lemma creates_unbound m cs c rs : wf m → valid_comps (cs ++ c :: rs) → dir_at m cs → nodes m !! render (cs ++ [c]) = None →
  creates m (cs ++ c :: rs) (cs ++ c :: rs).
Proof. intros Hwf Hv Hd Hno. apply creates_landing; [done..|]. by apply landing_unbound. Qed.

(** Without following: the same path, unless it ends at a link. *)
Lemma abs_walk_nofollow m follow root n cs rs q o am : valid_comps cs → valid_comps rs →
  abs_walk m follow root false am n (render cs) (join [slash] rs) = Ok (q, o) →
  (∀ l nd, o = Some l → heap m !! l = Some nd → isSymlink nd = false) →
  abs_walk m follow root true am n (render cs) (join [slash] rs) = Ok (q, o).
Proof.
  revert cs rs. induction n as [|n IH]; intros cs rs Hcs Hrs; [by destruct (join [slash] rs)|].
  destruct rs as [|c rs]; [done|]. rewrite !abs_walk_cons by done. pose proof Hrs as [Hc Hrs']%Forall_cons_1.
  assert (valid_comps (cs ++ [c])) as Hv by (by apply valid_comps_snoc).
  destruct (nodes m !! render (cs ++ [c])) as [l|]; [|done]. destruct (heap m !! l) as [nd|] eqn:En; [|done].
  destruct (isSymlink nd) eqn:Es; cbn [andb].
  - case_bool_decide; cbn [negb orb]; [|done]. intros [= <- <-] Hnl. by rewrite (Hnl l nd) in Es.
  - case_bool_decide; [done|]. destruct (mode_IsDir (n_mode nd)); cbn [negb]; [|done]. by apply IH.
Qed.
Lemma resolve_nofollow h m p q o am : resolveAbs_hops h m p false am = Ok (q, o) →
  (∀ l n, o = Some l → heap m !! l = Some n → isSymlink n = false) → resolveAbs_hops h m p true am = Ok (q, o).
Proof.
  destruct h as [|h]; [done|]. rewrite !resolveAbs_hops_S. cbv zeta. pose proof (comps_valid p) as Hv.
  destruct (comps p) as [|c rs]; [done|]. apply abs_walk_nofollow; [constructor|done].
Qed.

Lemma abs_walk_nofollow_Err m follow root n cs rs e am : valid_comps cs → valid_comps rs →
  abs_walk m follow root false am n (render cs) (join [slash] rs) = Err e →
  abs_walk m follow root true am n (render cs) (join [slash] rs) = Err e.
Proof.
  revert cs rs. induction n as [|n IH]; intros cs rs Hcs Hrs; [by destruct (join [slash] rs)|].
  destruct rs as [|c rs]; [done|]. rewrite !abs_walk_cons by done. pose proof Hrs as [Hc Hrs']%Forall_cons_1.
  assert (valid_comps (cs ++ [c])) as Hv by (by apply valid_comps_snoc).
  destruct (nodes m !! render (cs ++ [c])) as [l|]; [|done]. destruct (heap m !! l) as [nd|]; [|done].
  destruct (isSymlink nd); cbn [andb]; case_bool_decide; cbn [negb orb]; try done.
  destruct (mode_IsDir (n_mode nd)); cbn [negb]; [|done]. by apply IH.
Qed.
Lemma resolve_nofollow_Err h m p e am : resolveAbs_hops h m p false am = Err e → resolveAbs_hops h m p true am = Err e.
Proof.
  destruct h as [|h]; [done|]. rewrite !resolveAbs_hops_S. cbv zeta. pose proof (comps_valid p) as Hv.
  destruct (comps p) as [|c rs]; [done|]. apply abs_walk_nofollow_Err; [constructor|done].
Qed.

Lemma creates_lands m ts q : wf m → creates m ts q → landing m q.
Proof.
  intros Hwf [Hq [h Hh]]. destruct (create_lands _ _ _ _ Hwf Hh) as (cs&Hcs&E&Hl). apply render_inj in E as ->; done.
Qed.
Lemma landing_nolink m cs : wf m → landing m cs → nolink m cs.
Proof.
  intros Hwf [H1 H2] pre l n [ks ->] Hl Hn. destruct ks as [|k ks]; [rewrite app_nil_r in H2; by eapply H2|].
  specialize (H1 pre k ks l n eq_refl Hl Hn). by apply (wf_kind m Hwf l n Hn).
Qed.
Lemma landing_parent m cs c : wf m → landing m (cs ++ [c]) → landing m cs.
Proof.
  intros Hwf [H1 H2]. split.
  - intros pre k ks l n ->. apply (H1 pre k (ks ++ [c])). by rewrite <- (assoc_L (++)).
  - intros l n Hl Hn. apply (wf_kind m Hwf l n Hn). by apply (H1 cs c [] l n).
Qed.
Lemma create_target_state op name m m' : (create_target op name m m').2 = m'.
Proof. unfold create_target. by repeat case_match. Qed.
(** Where [Symlink] and [Link] make their entry. *)
Lemma create_target_creates op name m abs m' : wf m → create_target op name m m = (Ok abs, m') → nodes m !! abs = None →
  m' = m ∧ ∃ cs c, valid_comps (cs ++ [c]) ∧ abs = render (cs ++ [c]) ∧ creates m (comps (Resolve (cwd m) name)) (cs ++ [c]).
Proof.
  intros Hwf Ht Hno. pose proof (wp_create_target op name m Hwf) as Hwp. unfold wp in Hwp. rewrite Ht in Hwp.
  destruct Hwp as [-> [(cs&c&Hv&->&Hnl)|[? ?]]]; [|congruence]. split; [done|]. exists cs, c. split_and!; [done..|].
  destruct (cwd_resolve m name Hwf) as (rs&Hrs&Er). rewrite Er, comps_render by done.
  unfold create_target, resolvePathLocked, resolveAbsLocked, resolveCreatePathLocked in Ht. rewrite Er in Ht.
  change (S maxSymlinkDepth - 0)%nat with (S maxSymlinkDepth) in Ht.
  destruct (resolveAbs_hops (S maxSymlinkDepth) m (render rs) false true) as [[p [l|]]|e] eqn:Ea; [done| |].
  - injection Ht as ->. apply resolve_nofollow in Ea; [|done]. by eapply creates_existing.
  - apply resolve_nofollow_Err in Ea. pose proof (resolve_agrees (S maxSymlinkDepth) m (render rs) true Hwf) as Hag. rewrite Ea in Hag.
    destruct (errors_Is e ErrNotExist) eqn:Ee; [|done]. destruct rs as [|b rs _] using rev_ind.
    { exfalso. change (parentDir (render [])) with (render []) in Ht. destruct (resolveCreate_hops _ m (render [])) as [pa|] eqn:Ep; [|done].
      rewrite resolveCreate_hops_S, (comps_render []) in Ep by constructor. injection Ep as <-. injection Ht as Hx. rewrite <- Hx in Hno.
      destruct (root_bound m Hwf) as [l0 Hl0]. change (nodes m !! render [] = None) in Hno. congruence. }
    pose proof Hrs as [Hds Hb]%valid_comps_snoc. rewrite parentDir_snoc in Ht by done.
    pose proof (create_snoc (S maxSymlinkDepth) m rs b Hwf Hds Hb) as Ho. unfold one_more in Ho.
    destruct (resolveCreate_hops (S maxSymlinkDepth) m (render rs)) as [pa|]; [|done]. destruct Ho as (ps&h'&Hps&->&Hk).
    rewrite Resolve_base in Ht by done. injection Ht as Hx. rewrite <- Hx in Hno. split; [done|]. exists (S maxSymlinkDepth + 0)%nat.
    rewrite <- Hx, Hk. unfold create_step. rewrite Hno. cbn [mbind option_bind].
    destruct (nodes m !! render ps ≫= (heap m !!.)) as [nd|] eqn:End; [|done]. destruct (mode_IsDir (n_mode nd)) eqn:Edir; [done|]. exfalso.
    specialize (Hk 0%nat). unfold create_step in Hk. rewrite End, Edir in Hk. cbn [negb] in Hk. rewrite Nat.add_0_r in Hk. rewrite Hk in Hag.
    destruct e as [[]| | | | |]; try done. by destruct Hag as (?&?&_).
Qed.

(** ** Invariants of the filesystem *)

(** Addresses are handed out in order. *)
Definition fresh (m : MemoryFS) : Prop :=
  ∀ l, is_Some (heap m !! l) ∨ (∃ q, nodes m !! q = Some l) → (l < next_loc m)%positive.

Lemma wf_is_fresh m : wf m → fresh m.
Proof. intros Hwf l [H|[q Hq]]; [by apply (wf_fresh m Hwf)|]. apply (wf_fresh m Hwf). by eapply (wf_key m Hwf). Qed.

Section effects.
Variable provider : nat → result error gostr.

(** An assignment that leaves the bytes, the metadata (the times apart) and the kind of a node alone: also the loading of a lazy
    node, since its bytes are the provider's. *)
Definition quiet (n n' : memoryNode) : Prop :=
  content provider n' = content provider n ∧ n_mode n' = n_mode n ∧ n_uid n' = n_uid n ∧ n_gid n' = n_gid n ∧
  n_target n' = n_target n ∧ (isLazyFileNode n = false → isLazyFileNode n' = false).
(** A node with no bytes. *)
Definition blank (n : memoryNode) : Prop := isLazyFileNode n = false ∧ n_data n = [].

(** What an invariant [I] has to allow to be kept by the operations: allocating, counting, binding a fresh
    node at one of the paths [N] and quiet assignments. *)
Class Invariant (I : MemoryFS → Prop) (N : gostr → Prop) := {
  inv_alloc m n : I m → fresh m → blank n →
    I (MkFS (cwd m) (nodes m) (nextNodeID m) (implicitParents m) (<[next_loc m := n]> (heap m)) (Pos.succ (next_loc m)));
  inv_count m id nl : I m → (next_loc m ≤ nl)%positive → I (MkFS (cwd m) (nodes m) id (implicitParents m) (heap m) nl);
  inv_bind m abs l : I m → N abs → nodes m !! abs = None → (∀ q, nodes m !! q ≠ Some l) → is_Some (heap m !! l) →
    I (set_nodes (<[abs := l]> (nodes m)) m);
  inv_quiet m l n n' : I m → heap m !! l = Some n → quiet n n' → I (set_heap (<[l := n']> (heap m)) m);
}.

Section kept.
Context (I : MemoryFS → Prop) (N : gostr → Prop) `{!Invariant I N}.

Definition kept (m : MemoryFS) : Prop := I m ∧ fresh m.
(** From [m], the call keeps [I] also when it fails; when it does not it ends with [Q]. *)
Definition keeps {A} (c : M A) (m : MemoryFS) (Q : A → MemoryFS → Prop) : Prop :=
  match c m with (Ok a, m') => kept m' ∧ Q a m' | (Err _, m') => kept m' end.

(** *** Rules *)

Lemma keeps_seq {A B} (c : M A) (f : A → M B) m Q : keeps c m (fun a m' => keeps (f a) m' Q) → keeps (c ≫= f) m Q.
Proof. unfold keeps, mbind, M_bind. destruct (c m) as [[a|e] m']; [|done]. by intros [_ H]. Qed.
Lemma keeps_mono {A} (c : M A) m (P Q : A → MemoryFS → Prop) : keeps c m P → (∀ a m', kept m' → P a m' → Q a m') → keeps c m Q.
Proof. unfold keeps. destruct (c m) as [[a|e] m']; naive_solver. Qed.
Lemma keeps_value {A} (a : A) m (Q : A → MemoryFS → Prop) : kept m → Q a m → keeps (mret a) m Q.
Proof. by split. Qed.
Lemma keeps_error {A} e m (Q : A → MemoryFS → Prop) : kept m → keeps (throw e) m Q.
Proof. done. Qed.
Lemma keeps_throw_path {A} op p e m (Q : A → MemoryFS → Prop) : kept m → keeps (throw_path op p e) m Q.
Proof. done. Qed.
Lemma keeps_get m (Q : MemoryFS → MemoryFS → Prop) : kept m → Q m m → keeps get m Q.
Proof. by split. Qed.
Lemma keeps_load l m (Q : memoryNode → MemoryFS → Prop) : kept m → (∀ n, heap m !! l = Some n → Q n m) → keeps (load l) m Q.
Proof. intros Hm HQ. unfold keeps, load. destruct (heap m !! l) eqn:E; [|done]. split; [done|by apply HQ]. Qed.
Lemma keeps_resolve name ff m Q : kept m → (∀ abs l, resolvePathLocked m name ff false = Ok (abs, Some l) → Q (Ok (abs, l)) m) →
  (∀ e, resolvePathLocked m name ff false = Err e → Q (Err e) m) → keeps (resolve_existing name ff) m Q.
Proof. intros Hm H1 H2. unfold keeps, resolve_existing. destruct (resolvePathLocked m name ff false) as [[abs [l|]]|e] eqn:E; auto. Qed.
Lemma keeps_attempt {A} (c : M A) m (P : A → MemoryFS → Prop) (Q : result error A → MemoryFS → Prop) :
  keeps c m P → (∀ a m', kept m' → P a m' → Q (Ok a) m') → (∀ e m', kept m' → Q (Err e) m') → keeps (attempt c) m Q.
Proof. unfold keeps, attempt. destruct (c m) as [[a|e] m']; naive_solver. Qed.
(** What is known of a call otherwise. *)
Lemma keeps_wp {A} (c : M A) m (P Q : A → MemoryFS → Prop) : wp c m P → keeps c m (fun _ _ => True) → (∀ a m', kept m' → P a m' → Q a m') →
  keeps c m Q.
Proof. unfold keeps, wp. destruct (c m) as [[a|e] m']; naive_solver. Qed.
Lemma kept_quiet l n n' m : kept m → heap m !! l = Some n → quiet n n' → kept (set_heap (<[l := n']> (heap m)) m).
Proof.
  intros [HI Hf] Hn Hq. split; [by eapply inv_quiet|]. intros l' [H|H]; [|apply Hf; by right].
  apply Hf. left. simpl in H. rewrite lookup_insert in H. case_decide; [subst; by rewrite Hn|done].
Qed.
Lemma keeps_update l f m Q : kept m → (∀ n, heap m !! l = Some n → quiet n (f n) ∧ Q tt (set_heap (<[l := f n]> (heap m)) m)) →
  keeps (update_node l f) m Q.
Proof.
  intros Hm Hq. unfold keeps, update_node. destruct (heap m !! l) as [n|] eqn:E; [|done]. destruct (Hq n eq_refl) as [Hqu HQ].
  split; [by eapply kept_quiet|done].
Qed.
Lemma keeps_newNodeID m Q : kept m → (∀ id nid, kept (MkFS (cwd m) (nodes m) nid (implicitParents m) (heap m) (next_loc m)) →
  Q id (MkFS (cwd m) (nodes m) nid (implicitParents m) (heap m) (next_loc m))) → keeps newNodeIDLocked m Q.
Proof.
  intros [HI Hf] HQ. assert (∀ nid, kept (MkFS (cwd m) (nodes m) nid (implicitParents m) (heap m) (next_loc m))) as Hk.
  { intros nid. split; [by apply inv_count|exact Hf]. }
  split; [apply Hk|by apply HQ].
Qed.
Lemma keeps_newFIFO m Q : kept m → (∀ f m', kept m' → nodes m' = nodes m → heap m' = heap m → cwd m' = cwd m → Q f m') → keeps newMemoryFIFO m Q.
Proof.
  intros [HI Hf] HQ. unfold newMemoryFIFO, keeps.
  assert (kept (MkFS (cwd m) (nodes m) (nextNodeID m) (implicitParents m) (heap m) (Pos.succ (next_loc m)))) as Hk.
  { split; [apply inv_count; [done|lia]|]. intros l Hl. apply Hf in Hl. simpl. lia. }
  split; [done|]. by apply HQ.
Qed.
(** A fresh node is bound nowhere. *)
Lemma keeps_alloc n m Q : kept m → blank n → (∀ l m', kept m' → nodes m' = nodes m → heap m' = <[l := n]> (heap m) → cwd m' = cwd m →
  (∀ q, nodes m' !! q ≠ Some l) → heap m !! l = None → implicitParents m' = implicitParents m → Q l m') → keeps (alloc n) m Q.
Proof.
  intros [HI Hf] Hb HQ. unfold alloc, keeps.
  assert (kept (MkFS (cwd m) (nodes m) (nextNodeID m) (implicitParents m) (<[next_loc m := n]> (heap m)) (Pos.succ (next_loc m)))) as Hk.
  { split; [by apply inv_alloc|]. intros l Hl. simpl in *. destruct (decide (l = next_loc m)) as [->|Hne]; [lia|].
    rewrite lookup_insert_ne in Hl by done. apply Hf in Hl. lia. }
  split; [done|]. apply HQ; [done..| | |done].
  - intros q Hq. simpl in Hq. assert (next_loc m < next_loc m)%positive; [|lia]. apply Hf. right. by exists q.
  - destruct (heap m !! next_loc m) eqn:E; [|done]. assert (next_loc m < next_loc m)%positive; [|lia]. apply Hf. left. by rewrite E.
Qed.
Lemma keeps_bind_path abs l m Q : kept m → N abs → nodes m !! abs = None → (∀ q, nodes m !! q ≠ Some l) → is_Some (heap m !! l) →
  (kept (set_nodes (<[abs := l]> (nodes m)) m) → Q tt (set_nodes (<[abs := l]> (nodes m)) m)) → keeps (bind_path abs l) m Q.
Proof.
  intros [HI Hf] Ha Hno Hl Hs HQ. unfold keeps, bind_path, modify.
  assert (kept (set_nodes (<[abs := l]> (nodes m)) m)) as Hk; [|split; [done|by apply HQ]].
  split; [by apply inv_bind|]. intros l' [H|[q Hq]]; [apply Hf; by left|]. simpl in *. rewrite lookup_insert in Hq.
  case_decide; [simplify_eq; apply Hf; by left|]. apply Hf. right. by exists q.
Qed.
Lemma quiet_children ch n : quiet n (set_children ch n).
Proof. done. Qed.
Lemma keeps_add_child_loc l name m Q : kept m → (∀ m', kept m' → nodes m' = nodes m → cwd m' = cwd m → Q tt m') → keeps (add_child_loc l name) m Q.
Proof.
  intros Hm HQ. unfold keeps, add_child_loc. destruct (heap m !! l) as [n|] eqn:E; [|done]. destruct (n_children n) as [ch|]; [|done].
  pose proof (kept_quiet l n (set_children (Some ({[name]} ∪ ch)) n) m Hm E (quiet_children _ _)) as Hk. split; [done|by apply HQ].
Qed.
Lemma keeps_add_child dir name m Q : kept m → (∀ m', kept m' → nodes m' = nodes m → cwd m' = cwd m → Q tt m') → keeps (add_child dir name) m Q.
Proof. intros Hm HQ. unfold keeps, add_child. destruct (nodes m !! dir); [by apply keeps_add_child_loc|done]. Qed.
Lemma keeps_attach abs l m Q : kept m → N abs → nodes m !! abs = None → (∀ q, nodes m !! q ≠ Some l) → is_Some (heap m !! l) →
  (∀ m', kept m' → Q tt m') → keeps (attach abs l) m Q.
Proof.
  intros Hm Ha Hno Hl Hs HQ. unfold attach. apply keeps_seq, keeps_bind_path; [done..|]. intros Hk.
  apply keeps_add_child; [done|]. auto.
Qed.
(** A call that only looks. *)
Lemma keeps_pure {A} (c : M A) m : kept m → (c m).2 = m → keeps c m (fun _ _ => True).
Proof. intros Hm H. unfold keeps. destruct (c m) as [[a|e] m']; simpl in H; by subst. Qed.

(** *** Loading *)

Lemma materialize_quiet n data : isLazyFileNode n = true → content provider n = Ok data → quiet n (set_lazy None (set_data data n)).
Proof. intros Hl Hc. split_and!; [|done..]. by rewrite Hc. Qed.
Lemma keeps_materializeNode l m : kept m → keeps (materializeNode provider l) m (fun _ m' => same_view m m').
Proof.
  intros Hm. unfold keeps. destruct (heap m !! l) as [n|] eqn:En; last first.
  { unfold materializeNode, load, mbind, M_bind. by rewrite En. }
  rewrite (materializeNode_eq provider l n m En). destruct (content provider n) as [data|e] eqn:Ec; [|done].
  destruct (isLazyFileNode n) eqn:El; [|done]. split; [|by apply (same_view_update m l n)].
  apply (kept_quiet l n); [done..|by apply materialize_quiet].
Qed.
Lemma keeps_materializePath name ff mo m : kept m → keeps (materializePath provider name ff mo) m (fun _ m' => same_view m m').
Proof.
  intros Hm. unfold materializePath. apply keeps_seq, keeps_resolve; [done| |].
  - intros abs l Hr. apply keeps_seq. unfold lift. apply keeps_value; [done|]. apply keeps_seq, keeps_load; [done|]. intros n Hn.
    destruct (_ || _); [by apply keeps_value|]. apply keeps_seq. eapply keeps_mono; [by apply keeps_materializeNode|].
    intros [] m' Hm' Hsv. by apply keeps_value.
  - intros e _. apply keeps_seq. by apply (keeps_error (A := gostr * loc)).
Qed.
Lemma keeps_stat op name ff m : kept m → keeps (stat_path provider op name ff) m (fun _ m' => same_view m m').
Proof.
  intros Hm. unfold stat_path. apply keeps_seq, keeps_get; [done|]. cbv zeta. apply keeps_seq.
  eapply keeps_attempt; [by apply keeps_materializePath| |]; [|intros; by apply keeps_throw_path].
  intros abs m' Hm' Hsv. apply keeps_seq, keeps_get; [done|]. destruct (nodes m' !! abs); [|by apply keeps_throw_path].
  apply keeps_seq, keeps_load; [done|]. intros n _. by apply keeps_value.
Qed.
Lemma keeps_file_Stat f m : kept m → keeps (file_Stat provider f) m (fun _ m' => same_view m m').
Proof.
  intros Hm. unfold file_Stat. destruct (f_closed f); [by apply keeps_error|]. apply keeps_seq, keeps_load; [done|]. intros n Hn.
  apply keeps_seq. apply (keeps_mono _ _ (fun _ m' => same_view m m')).
  - destruct (_ && _); [|by apply keeps_value]. apply keeps_seq.
    eapply keeps_attempt; [by apply keeps_materializeNode| |]; [intros; by apply keeps_value|intros; by apply keeps_throw_path].
  - intros [] m' Hm' Hsv. apply keeps_seq, keeps_load; [done|]. intros n' _. by apply keeps_value.
Qed.
Lemma keeps_file_Read f k m : kept m → keeps (file_Read provider f k) m (fun _ m' => same_view m m').
Proof.
  intros Hm. unfold file_Read. destruct (f_closed f); [by apply keeps_error|]. destruct (negb _); [by apply keeps_throw_path|].
  apply keeps_seq. eapply keeps_attempt; [by apply keeps_materializeNode| |]; [|intros; by apply keeps_throw_path].
  intros [] m' Hm' Hsv. apply keeps_seq, keeps_load; [done|]. intros n Hn. destruct (mode_IsDir _); [by apply keeps_throw_path|].
  destruct (_ <=? _); [by apply keeps_error|]. by apply keeps_value.
Qed.
(** A write is one assignment to the loaded node. *)
Lemma keeps_file_Write now f p m : kept m →
  (∀ m1 n, kept m1 → same_view m m1 → heap m1 !! f_node f = Some n → canWrite (f_flag f) = true → f_closed f = false → isLazyFileNode n = false →
    let off := if has_bits (f_flag f) O_APPEND then glen (n_data n) else f_offset f in
    kept (set_heap (<[f_node f := set_modTime now (set_data (write_at (n_data n) (Z.to_nat off) p) n)]> (heap m1)) m1)) →
  keeps (file_Write provider now f p) m (fun _ m' => same_view m m').
Proof.
  intros Hm Hw. unfold file_Write. destruct (f_closed f) eqn:Ecl; [by apply keeps_error|]. destruct (canWrite _) eqn:Ew; [|by apply keeps_throw_path].
  cbn [negb]. apply keeps_seq. unfold keeps at 1, attempt. pose proof (keeps_materializeNode (f_node f) m Hm) as Hk. unfold keeps in Hk.
  destruct (heap m !! f_node f) as [n0|] eqn:En0; last first.
  { unfold materializeNode, load, mbind, M_bind. rewrite En0. split; [done|]. by apply keeps_throw_path. }
  rewrite (materializeNode_eq provider _ n0 m En0) in *.
  assert (∀ m1 n, kept m1 → same_view m m1 → heap m1 !! f_node f = Some n → isLazyFileNode n = false →
    keeps (node ← load (f_node f); if mode_IsDir (n_mode node) then throw_path "write" (f_path f) (ESent ErrInvalid) else
      update_node (f_node f) (fun n => set_modTime now (set_data (write_at (n_data n) (Z.to_nat (if has_bits (f_flag f) O_APPEND then glen (n_data node) else f_offset f)) p) n));;
      mret (glen p, MkFile (f_path f) (f_node f) (f_flag f) ((if has_bits (f_flag f) O_APPEND then glen (n_data node) else f_offset f) + glen p) (f_closed f)))
      m1 (fun _ m' => same_view m m')) as Hrest.
  { intros m1 n Hm1 Hsv Hn Hl. apply keeps_seq, keeps_load; [done|]. intros n' Hn'. assert (n' = n) as -> by congruence.
    destruct (mode_IsDir _); [by apply keeps_throw_path|]. cbv zeta. apply keeps_seq. unfold keeps at 1, update_node. rewrite Hn.
    assert (∀ k k' : memoryNode, n_mode k' = n_mode k → n_target k' = n_target k → heap m1 !! f_node f = Some k → same_view m1 (set_heap (<[f_node f := k']> (heap m1)) m1)) as Hsv'.
    { intros k k' ???. by eapply same_view_update. }
    pose proof (Hw m1 n Hm1 Hsv Hn eq_refl eq_refl Hl) as Hk'. cbv zeta in Hk'. split; [exact Hk'|].
    apply keeps_value; [exact Hk'|]. etrans; [done|]. by apply (Hsv' n). }
  destruct (content provider n0) as [data|e]; [|split; [done|by apply keeps_throw_path]].
  destruct (isLazyFileNode n0) eqn:El; destruct Hk as [Hk Hsv]; (split; [done|]); rewrite Ecl in Hrest.
  - eapply Hrest; [done..| |]; [by apply lookup_insert_eq|done].
  - by eapply Hrest.
Qed.

(** *** Creating *)

(** The directories made by [mkdir_loop] are on the way to where its path leads. *)
Definition way_to (m : MemoryFS) (ts : list gostr) : Prop := ∀ q pre, creates m ts q → pre `prefix_of` q → N (render pre).

Lemma way_to_link m cs rs ds o : wf m → valid_comps cs → valid_comps rs → valid_comps ds →
  resolveAbsLocked m (render cs) true false 0 = Ok (render ds, o) → way_to m (cs ++ rs) → way_to m (ds ++ rs).
Proof.
  intros Hwf Hcs Hrs Hds Hr Hw q pre Hq. apply Hw. eapply (creates_suffix m cs ds); [done..| |done].
  exact (creates_existing m cs ds o false Hwf Hcs Hr Hds).
Qed.
Lemma keeps_mkdir_loop n now cs rs perm m : wf m → kept m → valid_comps cs → valid_comps rs → dir_at m cs → (length rs ≤ n)%nat →
  way_to m (cs ++ rs) → keeps (mkdir_loop n now (render cs) (join [slash] rs) perm) m (fun _ _ => True).
Proof.
  revert cs rs perm m. induction n as [|n IH]; intros cs rs perm m Hwf Hm Hcs Hrs Hd Hn Hw.
  { destruct rs; [by apply keeps_value|simpl in Hn; lia]. }
  destruct rs as [|c rs]; [by apply keeps_value|]. apply Forall_cons_1 in Hrs as [Hc Hrs].
  assert (valid_comps (cs ++ [c])) as Hv by (by apply valid_comps_snoc).
  assert (cs ++ c :: rs = (cs ++ [c]) ++ rs) as Happ by (by rewrite <- (assoc_L (++))).
  cbn [mkdir_loop]. destruct (join [slash] (c :: rs)) as [|x xs] eqn:E; [by apply join_cons_ne in E|].
  rewrite <- E, next_part_join, joinClean_render by done. apply keeps_seq, keeps_get; [done|].
  destruct (nodes m !! render (cs ++ [c])) as [l|] eqn:El.
  - apply keeps_seq, keeps_load; [done|]. intros nd En. destruct (isSymlink nd).
    + pose proof (resolveAbs_hops_spec (S maxSymlinkDepth - 0) m (render (cs ++ [c])) true false Hwf) as Hr.
      destruct (resolveAbsLocked m (render (cs ++ [c])) true false 0) as [[p [l'|]]|e] eqn:Er; [|by apply keeps_throw_path..].
      unfold resolveAbsLocked in Er. rewrite Er in Hr. destruct Hr as [Hl' _]. destruct (wf_key m Hwf _ _ Hl') as [(ds&Hds&->) _].
      apply keeps_seq, keeps_load; [done|]. intros nd' En'. destruct (mode_IsDir (n_mode nd')) eqn:Ed; cbn [negb]; [|by apply keeps_throw_path].
      apply IH; [done..|by exists l', nd'|simpl in Hn; lia|]. apply (way_to_link m (cs ++ [c]) rs ds (Some l')); [done..|]. by rewrite <- Happ.
    + destruct (mode_IsDir (n_mode nd)) eqn:Ed; cbn [negb]; [|by apply keeps_throw_path].
      apply IH; [done..|by exists l, nd|simpl in Hn; lia|]. by rewrite <- Happ.
  - set (perm1 := if (N.land perm storedPermBits =? 0)%N then 493%N else N.land perm storedPermBits).
    assert (valid_comps (cs ++ c :: rs)) as Hall by (by apply Forall_app; split; [|constructor]).
    pose proof (creates_unbound m cs c rs Hwf Hall Hd El) as Hq.
    assert (∀ pre, pre `prefix_of` (cs ++ c :: rs) → N (render pre)) as HN by (intros pre; by apply (Hw _ pre Hq)).
    assert (keeps (id ← newNodeIDLocked; l ← alloc (dirNode id (N.lor ModeDir perm1) now); bind_path (render (cs ++ [c])) l;; add_child (render cs) c) m
      (fun _ _ => True)) as Hk.
    { apply keeps_seq, keeps_newNodeID; [done|]. intros id nid Hm1. apply keeps_seq, keeps_alloc; [done|by split|].
      intros l m2 Hm2 Hns Hh _ Hnb _ _. simpl in *. apply keeps_seq, keeps_bind_path; [done| |by rewrite Hns|done|by rewrite Hh, lookup_insert_eq|].
      - apply HN. rewrite Happ. by apply prefix_app_r.
      - intros Hm3. by apply keeps_add_child. }
    pose proof (wp_new_dir now cs c perm1 m (fun _ m' => wf m' ∧ dir_at m' (cs ++ [c]) ∧
      ∀ p, p ≠ render (cs ++ [c]) → nodes m' !! p = nodes m !! p) Hwf Hv El Hd) as Hwp.
    assert (N.land perm1 storedPermBits = perm1) as Hp1 by (by apply perm_default_stored). rewrite Hp1 in Hwp. specialize (Hwp ltac:(intros; by split_and!)).
    assert (∀ A (c1 : M BinNums.N) (c2 : BinNums.N → M loc) (c3 : loc → M unit) (c4 : M unit) (k : M A) Q,
      keeps (id ← c1; l ← c2 id; c3 l;; c4) m (fun _ m1 => keeps k m1 Q) → keeps (id ← c1; l ← c2 id; c3 l;; c4;; k) m Q) as Hassoc.
    { clear. intros A c1 c2 c3 c4 k Q. unfold keeps, mbind, M_bind.
      destruct (c1 m) as [[id|] m1]; [|done]. destruct (c2 id m1) as [[l|] m2]; [|done].
      destruct (c3 l m2) as [[[]|] m3]; [|done]. destruct (c4 m3) as [[[]|] m4]; [|done]. by intros [_ H]. }
    apply Hassoc. eapply keeps_wp; [exact Hwp|exact Hk|]. intros [] m' Hm' (Hwf'&Hd'&Hsame).
    apply IH; [done..|simpl in Hn; lia|]. rewrite <- Happ. intros q pre Hq' Hpre. apply HN.
    enough (creates m' (cs ++ c :: rs) (cs ++ c :: rs)) as Hq'' by (by rewrite (creates_det m' _ _ _ Hq'' Hq')).
    rewrite Happ. destruct rs as [|r rs]; [rewrite app_nil_r|].
    + apply creates_landing; [done..|]. destruct Hd' as (l'&n'&Hl'&Hn'&Hd'). eapply landing_bound; [done..|]. by eapply (wf_kind m' Hwf').
    + apply creates_unbound; [done|by rewrite <- Happ|done|]. assert (valid_comps ((cs ++ [c]) ++ [r])) as Hvr.
      { apply valid_comps_snoc. split; [done|]. by inversion Hrs. }
      rewrite <- (assoc_L (++)) in *. rewrite Hsame; [by apply (unbound_below m cs c [r])|].
      intros Ee%render_inj; [|done..]. apply app_inv_head in Ee. done.
Qed.
Lemma keeps_mkdirAll now ts perm m : wf m → kept m → valid_comps ts → way_to m ts → keeps (mkdirAllLocked now (render ts) perm) m (fun _ _ => True).
Proof.
  intros Hwf Hm Hts Hw. unfold mkdirAllLocked. rewrite Clean_render by done. cbv zeta. case_decide; [by apply keeps_value|].
  rewrite drop1_render. change root_path with (render []). apply (keeps_mkdir_loop _ now []); [done..|constructor|done|by apply wf_root|by apply length_render|done].
Qed.
Lemma keeps_MkdirAll now name perm m : wf m → kept m → way_to m (comps (Resolve (cwd m) name)) → keeps (MkdirAll now name perm) m (fun _ _ => True).
Proof.
  intros Hwf Hm Hw. unfold MkdirAll. apply keeps_seq, keeps_get; [done|]. destruct (cwd_resolve m name Hwf) as (rs&Hrs&Er). rewrite Er in *.
  rewrite comps_render in Hw by done. by apply keeps_mkdirAll.
Qed.
(** A path where something may be made: it is final, and it and what is missing above it may be bound. *)
Definition makeable (m : MemoryFS) (cs : list gostr) : Prop :=
  valid_comps cs ∧ landing m cs ∧ ∀ pre, pre `prefix_of` cs → N (render pre).

Lemma creates_makeable m ts q : wf m → creates m ts q → way_to m ts → makeable m q.
Proof. intros Hwf Hq Hw. split_and!; [apply Hq|by eapply creates_lands|]. intros pre. by apply Hw. Qed.
Lemma keeps_ensureParent now op cs c m Q : wf m → kept m → makeable m (cs ++ [c]) → nodes m !! render (cs ++ [c]) = None →
  (∀ m', kept m' → wf m' → grows m m' → dir_at m' cs → nodes m' !! render (cs ++ [c]) = None → Q tt m') →
  keeps (ensureParentLocked now op (render (cs ++ [c]))) m Q.
Proof.
  intros Hwf Hm (Hv&Hl&HN) Hno HQ. pose proof Hv as [Hcs _]%valid_comps_snoc. pose proof (landing_parent m cs c Hwf Hl) as Hlp.
  eapply keeps_wp; [eapply (wp_ensureParent now op cs c m (fun _ m' => wf m' ∧ grows m m' ∧ dir_at m' cs ∧ nodes m' !! render (cs ++ [c]) = None))| |];
    [done..|by apply landing_nolink|by intros; split_and!| |by intros [] m' ? (?&?&?&?); apply HQ].
  unfold ensureParentLocked. rewrite parentDir_snoc by done. cbv zeta. apply keeps_seq, keeps_get; [done|].
  destruct (implicitParents m).
  - apply keeps_mkdirAll; [done..|]. intros q pre Hq Hpre. rewrite (creates_det m cs q cs Hq) in Hpre by (by apply creates_landing).
    apply HN. by apply prefix_app_r.
  - destruct (nodes m !! render cs); [|by apply keeps_throw_path]. apply keeps_seq, keeps_load; [done|]. intros n _.
    destruct (negb _); [by apply keeps_throw_path|by apply keeps_value].
Qed.
(** Making the parent, a node and its entry. *)
Lemma keeps_make now op cs c (mk : BinNums.N → memoryNode) m : wf m → kept m → makeable m (cs ++ [c]) → nodes m !! render (cs ++ [c]) = None →
  (∀ id, blank (mk id)) →
  keeps (ensureParentLocked now op (render (cs ++ [c]));; id ← newNodeIDLocked; l ← alloc (mk id); attach (render (cs ++ [c])) l) m (fun _ _ => True).
Proof.
  intros Hwf Hm Hmk Hno Hb. apply keeps_seq, keeps_ensureParent; [done..|]. intros m1 Hm1 _ _ _ Hno1.
  apply keeps_seq, keeps_newNodeID; [done|]. intros id nid Hm2. apply keeps_seq, keeps_alloc; [done..|].
  intros l m3 Hm3 Hns Hh _ Hnb _ _. simpl in *. destruct Hmk as (_&_&HN). apply keeps_attach; [done|by apply HN|by rewrite Hns|done|by rewrite Hh, lookup_insert_eq|done].
Qed.
Lemma keeps_Symlink now target linkName m : wf m → kept m → way_to m (comps (Resolve (cwd m) linkName)) →
  keeps (Symlink now target linkName) m (fun _ _ => True).
Proof.
  intros Hwf Hm Hw. unfold Symlink. apply keeps_seq, keeps_get; [done|].
  change (keeps (abs ← create_target "symlink" linkName m;
    if decide (is_Some (nodes m !! abs)) then throw_path "symlink" abs (ESent ErrExist)
    else ensureParentLocked now "symlink" abs;; id ← newNodeIDLocked;
      l ← alloc (MkNode id (N.lor ModeSymlink 511) [] None None 0 false target None now now DefaultOwnerUID DefaultOwnerGID); attach abs l) m (fun _ _ => True)).
  apply keeps_seq. unfold keeps at 1. destruct (create_target "symlink" linkName m m) as [[abs|e] m1] eqn:Et; last first.
  { pose proof (create_target_state "symlink" linkName m m) as Hst. rewrite Et in Hst. simpl in Hst. by subst. }
  case_decide as Hb.
  { pose proof (create_target_state "symlink" linkName m m) as Hst. rewrite Et in Hst. simpl in Hst. by subst. }
  apply eq_None_not_Some in Hb. destruct (create_target_creates _ _ _ _ _ Hwf Et Hb) as (->&cs&c&Hv&->&Hc). split; [done|].
  apply (keeps_make now "symlink" cs c (fun id => MkNode id (N.lor ModeSymlink 511) [] None None 0 false target None now now DefaultOwnerUID DefaultOwnerGID));
    [done..|by eapply creates_makeable|done|done].
Qed.
Lemma keeps_Mkfifo now name perm m : wf m → kept m → way_to m (comps (Resolve (cwd m) name)) → keeps (Mkfifo now name perm) m (fun _ _ => True).
Proof.
  intros Hwf Hm Hw. unfold Mkfifo. apply keeps_seq, keeps_get; [done|]. cbv zeta. destruct (cwd_resolve m name Hwf) as (rs&Hrs&Er).
  pose proof (resolveAbs_hops_spec (S maxSymlinkDepth - 0) m (Resolve (cwd m) name) false true Hwf) as Hr.
  destruct (resolvePathLocked m name false true) as [[abs [l|]]|e] eqn:Ea; unfold resolvePathLocked, resolveAbsLocked in Ea; rewrite Ea in Hr;
    [by apply keeps_throw_path| |by apply keeps_throw_path]. destruct Hr as (_&Hno&cs&c&Hv&->&_). rewrite Er in *. rewrite comps_render in Hw by done.
  apply resolve_nofollow in Ea; [|done]. pose proof (creates_existing _ _ _ _ _ Hwf Hrs Ea Hv) as Hc.
  destruct (resolveAbsLocked m (parentDir (render (cs ++ [c]))) true false 0) as [[pa [pl|]]|e] eqn:Ep; [|by apply keeps_throw_path..].
  apply keeps_seq, keeps_load; [done|]. intros pn Hpn. destruct (negb _); [by apply keeps_throw_path|].
  apply keeps_seq, keeps_newNodeID; [done|]. intros id nid Hm1. apply keeps_seq, keeps_newFIFO; [done|]. intros f m2 Hm2 Hns2 Hh2 _.
  apply keeps_seq, keeps_alloc; [done|by split|]. intros l m3 Hm3 Hns3 Hh3 _ Hnb _ _. simpl in *.
  apply keeps_seq, keeps_bind_path; [done|by apply (Hw _ _ Hc)|by rewrite Hns3, Hns2|done|by rewrite Hh3, lookup_insert_eq|].
  intros Hm4. by apply keeps_add_child_loc.
Qed.

(** *** Opening *)

(** What [O_TRUNC] stores. *)
Definition truncated (now : time) (n : memoryNode) : memoryNode := set_modTime now (set_data [] (set_lazy None n)).

Lemma keeps_open_node now abs l created flag m : kept m →
  (∀ n, heap m !! l = Some n → mode_IsDir (n_mode n) = false → has_bits flag O_TRUNC = true → canWrite flag = true →
    kept (set_heap (<[l := truncated now n]> (heap m)) m)) →
  keeps (open_node now abs l created flag) m (fun _ _ => True).
Proof.
  intros Hm Ht. unfold open_node. destruct (_ && _ && _); [by apply keeps_throw_path|]. apply keeps_seq, keeps_load; [done|]. intros n Hn.
  destruct (mode_IsDir _) eqn:Ed; [by apply keeps_throw_path|]. destruct (has_bits (n_mode n) ModeNamedPipe).
  - destruct (n_fifo n); [by apply keeps_value|]. apply keeps_seq, keeps_newFIFO; [done|]. intros f m1 Hm1 Hns Hh _.
    apply keeps_seq, keeps_update; [done|]. intros n1 Hn1. split; [done|]. apply keeps_value; [|done]. by apply (kept_quiet l n1).
  - apply keeps_seq. apply (keeps_mono _ _ (fun _ _ => True)).
    + destruct (has_bits flag O_TRUNC && canWrite flag) eqn:E; [|by apply keeps_value]. apply andb_true_iff in E as [E1 E2].
      unfold keeps, update_node. rewrite Hn. by split; [apply Ht|].
    + intros [] m1 Hm1 _. apply keeps_seq, keeps_load; [done|]. intros n1 _. by apply keeps_value.
Qed.
Lemma truncated_blank now n ch : blank n → n_lazy n = None → quiet (set_children ch n) (truncated now (set_children ch n)).
Proof. intros [Hl Hd] Hn. split_and!; [|done..]. unfold content. unfold isLazyFileNode. simpl. by rewrite Hn, Hd. Qed.
Lemma keeps_open_create now cs c flag perm m : wf m → kept m → makeable m (cs ++ [c]) → nodes m !! render (cs ++ [c]) = None →
  keeps (open_create now (render (cs ++ [c])) flag perm) m (fun _ _ => True).
Proof.
  intros Hwf Hm Hmk Hno. pose proof Hmk as (Hv&_&HN). unfold open_create. apply keeps_seq, keeps_ensureParent; [done..|]. intros m1 Hm1 Hwf1 _ Hd Hno1.
  cbv zeta. apply keeps_seq, keeps_newNodeID; [done|]. intros id nid Hm2.
  set (n := MkNode id _ _ _ _ _ _ _ _ _ _ _ _). assert (blank n) as Hb by done.
  assert (node_ok n) as Hok by (by apply perm_file_ok).
  assert (mode_IsDir (n_mode n) = false) as Hnd by (unfold n; simpl; case_match; [done|apply has_bits_lor_dir]).
  set (m2 := MkFS _ _ _ _ _ _) in *. assert (wf m2) as Hwf2 by (apply wf_other; [done|reflexivity]).
  assert (wp (l ← alloc n; attach (render (cs ++ [c])) l;; mret l) m2 (fun l m' => ∃ ch, heap m' !! l = Some (set_children ch n))) as Hwp.
  { pose proof (wf_alloc m2 n Hwf2 Hok) as Hwf3. apply wp_bind. unfold wp at 1, alloc. apply wp_bind.
    eapply (wp_attach cs c _ n); [exact Hwf3|done|done| |simpl; apply lookup_insert_eq|by rewrite Hnd|].
    - destruct Hd as (pl&pn&?&Hpn&?). exists pl, pn. split_and!; [done| |done]. simpl. rewrite lookup_insert_ne; [done|]. intros E.
      assert (next_loc m2 < next_loc m2)%positive; [|lia]. apply (wf_fresh m2 Hwf2). simpl in *. rewrite E, Hpn. by eexists.
    - intros m4 _ _ Hh _ _. apply wp_ret. destruct (Hh (next_loc m2) n) as (ch&Hl&_); [simpl; apply lookup_insert_eq|]. by exists ch. }
  assert (keeps (l ← alloc n; attach (render (cs ++ [c])) l;; mret l) m2 (fun _ _ => True)) as Hk.
  { apply keeps_seq, keeps_alloc; [done..|]. intros l m3 Hm3 Hns Hh _ Hnb _ _. apply keeps_seq, keeps_attach; [done|by apply HN|by rewrite Hns|done|by rewrite Hh, lookup_insert_eq|].
    intros m4 Hm4. by apply keeps_value. }
  assert (keeps (l ← alloc n; attach (render (cs ++ [c])) l;; mret l) m2 (fun l m' => keeps (open_node now (render (cs ++ [c])) l true flag) m' (fun _ _ => True))) as Hall.
  { eapply keeps_wp; [exact Hwp|exact Hk|]. intros l m4 Hm4 [ch Hl]. apply keeps_open_node; [done|]. intros n' Hn' _ _ _.
    assert (n' = set_children ch n) as -> by congruence. apply (kept_quiet l (set_children ch n)); [done..|]. by apply truncated_blank. }
  revert Hall. unfold keeps, mbind, M_bind, alloc. destruct (attach _ _ _) as [[[]|e] m4]; [|done]. by intros [_ H].
Qed.
Lemma keeps_OpenFile now name flag perm m : (∀ p, provider p ≠ Err EPanic) → wf m → kept m →
  (has_bits flag O_CREATE = true → way_to m (comps (Resolve (cwd m) name))) →
  (∀ m1 cs l n, kept m1 → wf m1 → same_view m m1 → creates m (comps (Resolve (cwd m) name)) cs → nodes m1 !! render cs = Some l →
    heap m1 !! l = Some n → mode_IsDir (n_mode n) = false → has_bits flag O_TRUNC = true → canWrite flag = true →
    kept (set_heap (<[l := truncated now n]> (heap m1)) m1)) →
  keeps (OpenFile provider now name flag perm) m (fun _ _ => True).
Proof.
  intros Hp Hwf Hm Hw Ht. unfold OpenFile. destruct (cwd_resolve m name Hwf) as (rs&Hrs&Er). rewrite Er, comps_render in * by done.
  apply keeps_seq. apply (keeps_wp _ _ (fun _ m' => wf m' ∧ same_view m m')).
  { destruct (_ && negb _); [by apply wp_open_materialize|by apply wp_ret]. }
  { destruct (_ && negb _); [|by apply keeps_value]. apply keeps_seq. eapply keeps_attempt; [by apply keeps_materializePath|by intros; apply keeps_value|].
    intros e m1 Hm1. destruct e; try (by apply keeps_error); (destruct (_ || _); [apply keeps_seq, keeps_get; [done|by apply keeps_throw_path]|by apply keeps_value]). }
  intros [] m1 Hm1 [Hwf1 Hsv]. apply keeps_seq, keeps_get; [done|]. cbv zeta. rewrite (sv_cwd _ _ Hsv), Er.
  destruct (has_bits flag O_CREATE) eqn:Ecr.
  - apply keeps_seq. apply (keeps_mono _ _ (fun _ m' => m' = m1)).
    { case_match; [|by apply keeps_value]. repeat case_match; by first [apply keeps_value|apply keeps_throw_path]. }
    intros [] m' _ ->. unfold resolveCreatePathLocked.
    destruct (resolveCreate_hops (S maxSymlinkDepth - 0) m1 (render rs)) as [abs|e] eqn:Ec; [|by apply keeps_throw_path].
    destruct (create_lands _ _ _ _ Hwf1 Ec) as (cs&Hcs&->&Hl).
    assert (creates m1 rs cs) as Hc1 by (split; [done|by eexists]). pose proof (proj2 (creates_view m m1 rs cs Hsv) Hc1) as Hc.
    destruct (nodes m1 !! render cs) as [l|] eqn:El.
    + apply keeps_open_node; [done|]. intros n Hn Hd Htr Hcw. by eapply (Ht m1 cs l n).
    + destruct (unbound_snoc m1 cs Hwf1 El) as (ds&c&->). apply keeps_open_create; [done..| |done]. split_and!; [done..|].
      intros pre. by apply (Hw eq_refl).
  - apply keeps_seq, keeps_resolve; [done| |intros; by apply keeps_throw_path]. intros abs l Hr. apply keeps_open_node; [done|].
    intros n Hn Hd Htr Hcw. unfold resolvePathLocked, resolveAbsLocked in Hr. rewrite (sv_cwd _ _ Hsv), Er in Hr.
    pose proof (resolveAbs_hops_spec (S maxSymlinkDepth - 0) m1 (render rs) true false Hwf1) as Hs. rewrite Hr in Hs. destruct Hs as [Hl _].
    destruct (wf_key m1 Hwf1 _ _ Hl) as [(cs&Hcs&->) _]. eapply (Ht m1 cs l n); try done.
    apply (creates_view m m1 rs cs Hsv). by eapply (creates_existing m1 rs cs).
Qed.

(** *** Metadata and hard links *)

Lemma keeps_update_meta op name ff rb f m : wf m → kept m →
  (∀ cs l n, valid_comps cs → resolvePathLocked m name ff false = Ok (render cs, Some l) → nodes m !! render cs = Some l → heap m !! l = Some n →
    (ff = true → creates m (comps (Resolve (cwd m) name)) cs ∧ isSymlink n = false) → kept (set_heap (<[l := f n]> (heap m)) m)) →
  keeps (update_meta op name ff rb f) m (fun _ _ => True).
Proof.
  intros Hwf Hm Hk. unfold update_meta. apply keeps_seq, keeps_get; [done|]. apply keeps_seq, keeps_resolve; [done| |intros; by apply keeps_throw_path].
  intros abs l Hr. pose proof Hr as Hr'. unfold resolvePathLocked, resolveAbsLocked in Hr'.
  pose proof (resolveAbs_hops_spec (S maxSymlinkDepth - 0) m (Resolve (cwd m) name) ff false Hwf) as Hs. rewrite Hr' in Hs. destruct Hs as [Hl Hs].
  destruct (wf_key m Hwf _ _ Hl) as [(cs&Hcs&->) [n Hn]]. apply keeps_seq. unfold keeps at 1, update_node. rewrite Hn.
  assert (kept (set_heap (<[l := f n]> (heap m)) m)) as Hk'.
  { apply (Hk cs l n); [done..|]. intros ->. split; [|by apply (Hs eq_refl)]. destruct (cwd_resolve m name Hwf) as (rs&Hrs&Er).
    rewrite Er, comps_render in * by done. by eapply (creates_existing m rs cs). }
  split; [done|]. destruct rb; [|by apply keeps_value]. unfold keeps, bind_path, modify. cbn [nodes set_heap]. rewrite insert_id by done. split; [|done]. by destruct m.
Qed.
Lemma keeps_Link now oldName newName m : wf m → kept m → way_to m (comps (Resolve (cwd m) newName)) →
  (∀ m1 os cs l n n1, kept m1 → valid_comps os → resolvePathLocked m oldName false false = Ok (render os, Some l) →
    heap m !! l = Some n → mode_IsDir (n_mode n) = false → creates m (comps (Resolve (cwd m) newName)) cs → nodes m1 !! render os = Some l →
    heap m1 !! l = Some n1 → isSymlink n1 = isSymlink n → nodes m1 !! render cs = None → kept (set_nodes (<[render cs := l]> (nodes m1)) m1)) →
  keeps (Link now oldName newName) m (fun _ _ => True).
Proof.
  intros Hwf Hm Hw Hbind. unfold Link. apply keeps_seq, keeps_get; [done|]. apply keeps_seq, keeps_resolve; [done| |intros; by apply keeps_throw_path].
  intros abs l Hr. pose proof Hr as Hr'. unfold resolvePathLocked, resolveAbsLocked in Hr'.
  pose proof (resolveAbs_hops_spec (S maxSymlinkDepth - 0) m (Resolve (cwd m) oldName) false false Hwf) as Hs. rewrite Hr' in Hs. destruct Hs as [Hl Hs].
  destruct (wf_key m Hwf _ _ Hl) as [(os&Hos&->) _]. apply keeps_seq, keeps_load; [done|]. intros n Hn.
  destruct (mode_IsDir (n_mode n)) eqn:Ed; [by apply keeps_throw_path|]. cbv zeta. apply keeps_seq.
  set (tgt := match resolvePathLocked m newName false true with Ok (_, Some _) => _ | Ok (newAbs, None) => _ | Err err => _ end).
  assert (keeps tgt m (fun abs m' => m' = m ∧ nodes m !! abs = None ∧ create_target "link" newName m m = (Ok abs, m))) as Ht.
  { unfold tgt, create_target. destruct (resolvePathLocked m newName false true) as [[na [nl|]]|e] eqn:Ea; [by apply keeps_throw_path| |].
    - apply keeps_value; [done|]. split_and!; [done| |done]. unfold resolvePathLocked, resolveAbsLocked in Ea.
      pose proof (resolveAbs_hops_spec (S maxSymlinkDepth - 0) m (Resolve (cwd m) newName) false true Hwf) as Hno. rewrite Ea in Hno. by destruct Hno as (_&?&_).
    - destruct (errors_Is e ErrNotExist); [|by apply keeps_throw_path]. destruct (resolveCreatePathLocked m _ 0) as [pa|]; [|by apply keeps_throw_path].
      case_decide as Hb; [by apply keeps_throw_path|]. apply keeps_value; [done|]. by rewrite <- eq_None_not_Some in Hb. }
  eapply keeps_mono; [exact Ht|]. intros na m' _ (->&Hno&Hct). destruct (create_target_creates _ _ _ _ _ Hwf Hct Hno) as (_&cs&c&Hv&->&Hc).
  apply keeps_seq, keeps_ensureParent; [done..|by eapply creates_makeable|done|]. intros m1 Hm1 Hwf1 Hg _ Hno1.
  destruct (grows_heap _ _ Hg _ _ Hn) as (ch&Hn1&_). apply keeps_seq. unfold attach. apply keeps_seq. unfold keeps at 1, bind_path, modify.
  assert (kept (set_nodes (<[render (cs ++ [c]) := l]> (nodes m1)) m1)) as Hk.
  { eapply (Hbind m1 os (cs ++ [c]) l n (set_children ch n)); try done. by apply (grows_nodes _ _ Hg). }
  split; [done|]. apply keeps_add_child; [done|]. intros m2 Hm2 _ _. apply keeps_update; [done|]. intros n2 Hn2. split; done.
Qed.
End kept.
End effects.
