(* ===== verification/CommandFS.v ===== *)
(** The filesystem that commands see: [CommandFS] of [commands/invocation_capabilities.go], which checks the
    policy before every operation on the session's filesystem and caps the files that it opens for writing,
    with [ResolvePhysical] of [fs/fs.go] and [readAllWithLimit] of [commands/read.go].

    The filesystem below is [MemoryFS]; tracing and what is written to standard error are not modelled. *)
From S2P Require Import Prelude GoMonad GoPath FsTypes Policy MemoryFS Confinement.

(** * The size cap on the files that commands write: [LimitFileSize] of [fs/limit.go], over any file. *)

(** [File] with the optional methods that [LimitFileSize] asks for: [Read] and [Write] return what was read
    or how much was written together with an error. *)
Class File (St F : Type) := {
  File_Read : F → nat → St → (gostr * option error) * F * St;
  File_Write : F → gostr → St → (Z * option error) * F * St;
  File_Stat : F → St → result error fileInfo * St;
  File_Seek : option (F → Z → Z → St → result error Z * F * St);
  File_Truncate : option (F → Z → St → option error * St);
}.

Section limit.
Context {St F : Type} {file_ops : File St F}.

Record sizeLimitedFile := MkLimited { sl_File : F; sl_flag : N; sl_max : Z; sl_offset : Z }.
Inductive limited_file := Unlimited (f : F) | Limited (f : sizeLimitedFile).

Definition SeekCurrent : Z := 1.
(** [Mode().IsRegular()]: no type bit is set. *)
Definition IsRegular (mode : N) : bool := (N.land mode ModeType =? 0)%N.
Definition LimitFileSize (file : F) (flag : N) (maxBytes : Z) (s : St) : limited_file * St :=
  if (maxBytes <=? 0) || negb (hasWriteIntent flag) then (Unlimited file, s)
  else
    match File_Stat file s with
    | (Err _, s) => (Unlimited file, s)
    | (Ok info, s) =>
        if negb (IsRegular (fi_mode info)) then (Unlimited file, s)
        else
          match File_Seek with
          | Some seek =>
              match seek file 0 SeekCurrent s with
              | (Ok pos, file, s) => (Limited (MkLimited file flag maxBytes pos), s)
              | (Err _, file, s) => (Limited (MkLimited file flag maxBytes 0), s)
              end
          | None => (Limited (MkLimited file flag maxBytes 0), s)
          end
    end.

Definition sl_name (f : sizeLimitedFile) (s : St) : gostr * St :=
  match File_Stat (sl_File f) s with (Ok info, s) => (fi_name info, s) | (Err _, s) => ([], s) end.
Definition tooLarge (op : string) (f : sizeLimitedFile) (s : St) : error * St :=
  let '(name, s) := sl_name f s in (EPath (go op) name (ESent EFBIG), s).
Definition sl_Read (f : sizeLimitedFile) (k : nat) (s : St) : (gostr * option error) * sizeLimitedFile * St :=
  let '(p, err, file, s) := File_Read (sl_File f) k s in
  (p, err, MkLimited file (sl_flag f) (sl_max f) (sl_offset f + glen p), s).
(** The write of [p], and the cap's offset behind it. *)
Definition sl_advance (f : sizeLimitedFile) (p : gostr) (s : St) : (Z * option error) * sizeLimitedFile * St :=
  let '(n, err, file, s) := File_Write (sl_File f) p s in
  (n, err, MkLimited file (sl_flag f) (sl_max f) (sl_offset f + n), s).
Definition sl_Write (f : sizeLimitedFile) (p : gostr) (s : St) : (Z * option error) * sizeLimitedFile * St :=
  let '(f, s) :=
    if has_bits (sl_flag f) O_APPEND then
      match File_Stat (sl_File f) s with
      | (Ok info, s) => (MkLimited (sl_File f) (sl_flag f) (sl_max f) (fi_size info), s)
      | (Err _, s) => (f, s)
      end
    else (f, s) in
  let allowed := Z.max (sl_max f - sl_offset f) 0 in
  if glen p <=? allowed then sl_advance f p s
  else
    let '(n, err, f, s) := if 0 <? allowed then sl_advance f (take (Z.to_nat allowed) p) s else (0, None, f, s) in
    match err with
    | Some err => (n, Some err, f, s)
    | None => let '(err, s) := tooLarge "write" f s in (n, Some err, f, s)
    end.
Definition sl_seek (f : sizeLimitedFile) (offset whence : Z) (s : St) : result error Z * sizeLimitedFile * St :=
  match File_Seek with
  | None => let '(name, s) := sl_name f s in (Err (EPath (go "seek") name (ESent ErrUnsupported)), f, s)
  | Some seek =>
      match seek (sl_File f) offset whence s with
      | (Ok pos, file, s) => (Ok pos, MkLimited file (sl_flag f) (sl_max f) pos, s)
      | (Err e, file, s) => (Err e, MkLimited file (sl_flag f) (sl_max f) (sl_offset f), s)
      end
  end.
Definition sl_truncate (f : sizeLimitedFile) (size : Z) (s : St) : option error * St :=
  if sl_max f <? size then let '(err, s) := tooLarge "truncate" f s in (Some err, s)
  else match File_Truncate with
       | None => let '(name, s) := sl_name f s in (Some (EPath (go "truncate") name (ESent ErrUnsupported)), s)
       | Some truncate => truncate (sl_File f) size s
       end.
End limit.
Arguments sizeLimitedFile : clear implicits.
Arguments limited_file : clear implicits.

(** ** A [memoryFile] as a [File]: it has neither [Seek] nor [Truncate] *)

#[export] Instance memoryFile_File (provider : nat → result error gostr) (now : time) : File MemoryFS memoryFile := {|
  File_Read f k m := match file_Read provider f k m with (Ok (p, f'), m) => ((p, None), f', m) | (Err e, m) => (([], Some e), f, m) end;
  File_Write f p m := match file_Write provider now f p m with (Ok (n, f'), m) => ((n, None), f', m) | (Err e, m) => ((0, Some e), f, m) end;
  File_Stat f m := file_Stat provider f m;
  File_Seek := None;
  File_Truncate := None;
|}.

(** ** Names: [ResolvePhysical] *)

Section names.
Context {FS : Type} `{!PathFS FS}.

Definition physical_step (s : FS) (current part : gostr) : gostr :=
  if bool_decide (part = []) || bool_decide (part = go ".") then current
  else if decide (part = go "..") then
    parentDir (match fs_Realpath s current with Ok resolved => Clean resolved | Err _ => current end)
  else joinClean current part.
(** [fsys] is [None] for a nil filesystem. *)
Definition ResolvePhysical (fsys : option FS) (dir name : gostr) : gostr :=
  match fsys with
  | None => Resolve dir name
  | Some s =>
      if negb (hasDotDotComponent name) then Resolve dir name
      else
        let current := if has_prefix (go "/") name then go "/" else Clean dir in
        foldl (physical_step s) current (split_byte slash name)
  end.
End names.

(** ** The capability *)

Record CommandFS := MkCommandFS { cfs_cwd : gostr; cfs_pol : option Policy; cfs_limits : Limits }.

(** The filesystem of [NewInvocation]: the limits are the policy's. *)
Definition NewCommandFS (cwd : gostr) (pol : option Policy) : CommandFS :=
  MkCommandFS (Resolve (go "/") cwd) pol (match pol with Some p => pol_Limits p | None => zeroLimits end).

(** [*ExitError]: the exit status of a failed command and its cause. *)
Record ExitError := MkExit { ee_Code : Z; ee_Err : error }.
Definition exitCodeForError (err : error) : Z := if IsDenied (Some err) then 126 else 1.
(** [wrapCommandError]; the errors of the filesystem are no [*ExitError]. *)
Definition wrapCommandError (err : error) : ExitError := MkExit 1 err.

(** A call of a command: it may fail with an exit status. *)
Abbreviation C := (stateful ExitError MemoryFS).
(** A call of the filesystem below. *)
Definition raw {A} (c : MemoryFS.M A) : C A := fun m =>
  match c m with (Ok a, m) => (Ok a, m) | (Err e, m) => (Err (wrapCommandError e), m) end.

(** An open file as a command holds it. *)
Inductive handle :=
| HFile (f : limited_file memoryFile)
| HFifo (path : gostr) (fifo : loc) (flag : N).

Section operations.
Variable provider : nat → result error gostr.
Variable now : time.
Variable fs : CommandFS.
#[local] Instance memory_view : PathFS MemoryFS := memory_PathFS provider.
#[local] Instance memory_file : File MemoryFS memoryFile := memoryFile_File provider now.

Definition cmd_Resolve (name : gostr) : gostr := Resolve (cfs_cwd fs) name.
Definition ResolveAt (name : gostr) : C gostr := fun m => (Ok (ResolvePhysical (Some m) (cfs_cwd fs) name), m).

Definition check (action abs : gostr) : C unit := fun m =>
  match CheckPath (cfs_pol fs) (Some m) action abs with
  | (Some err, s) => (Err (MkExit (exitCodeForError err) err), default m s)
  | (None, s) => (Ok tt, default m s)
  end.
Definition prepare (action name : gostr) : C gostr :=
  abs ← ResolveAt name;
  check action abs;;
  mret abs.

(** [gbfs.LimitFileSize] on what the filesystem opened: a FIFO is no regular file. *)
Definition limit_opened (flag : N) (maxBytes : Z) (file : openFile) : C handle := fun m =>
  match file with
  | MemFile f => let '(f, m) := LimitFileSize f flag maxBytes m in (Ok (HFile f), m)
  | FifoFile path fifo flag => (Ok (HFifo path fifo flag), m)
  end.
(** A file that is returned as the filesystem opened it. *)
Definition unlimited (file : openFile) : handle :=
  match file with MemFile f => HFile (Unlimited f) | FifoFile path fifo flag => HFifo path fifo flag end.

Definition cmd_Open (name : gostr) : C handle :=
  abs ← prepare FileActionRead name;
  file ← raw (Open provider now abs);
  mret (unlimited file).

Definition openFileHasWriteIntent (flag : N) : bool :=
  if has_bits flag (N.lor O_WRONLY O_RDWR) then true
  else has_bits flag (N.lor O_APPEND (N.lor O_CREATE O_TRUNC)).
Definition cmd_OpenFile (name : gostr) (flag perm : N) : C handle :=
  abs ← ResolveAt name;
  (if negb (N.land flag (N.lor O_WRONLY O_RDWR) =? O_WRONLY)%N then check FileActionRead abs else mret tt);;
  (if openFileHasWriteIntent flag then check FileActionWrite abs else mret tt);;
  file ← raw (OpenFile provider now abs flag perm);
  limit_opened flag (MaxFileBytes (cfs_limits fs)) file.

Definition cmd_Stat (name : gostr) : C fileInfo := abs ← prepare FileActionStat name; raw (Stat provider abs).
Definition cmd_Lstat (name : gostr) : C fileInfo := abs ← prepare FileActionLstat name; raw (Lstat provider abs).
Definition cmd_ReadDir (name : gostr) : C (list (gostr * N)) := abs ← prepare FileActionReadDir name; raw (ReadDir abs).
Definition cmd_Readlink (name : gostr) : C gostr := abs ← prepare FileActionReadlink name; raw (Readlink abs).
Definition cmd_Realpath (name : gostr) : C gostr := abs ← prepare FileActionStat name; raw (Realpath abs).
Definition cmd_Symlink (target linkName : gostr) : C unit :=
  linkAbs ← prepare FileActionWrite linkName; raw (Symlink now target linkAbs).
Definition cmd_Link (oldName newName : gostr) : C unit :=
  oldAbs ← prepare FileActionRead oldName;
  check FileActionWrite oldAbs;;
  newAbs ← prepare FileActionWrite newName;
  raw (Link now oldAbs newAbs).
Definition cmd_Chown (name : gostr) (uid gid : N) (follow : bool) : C unit :=
  abs ← prepare FileActionWrite name; raw (Chown abs uid gid follow).
Definition cmd_Chmod (name : gostr) (mode : N) : C unit := abs ← prepare FileActionWrite name; raw (Chmod now abs mode).
Definition cmd_Chtimes (name : gostr) (atime mtime : time) : C unit :=
  abs ← prepare FileActionWrite name; raw (Chtimes now abs atime mtime).
Definition cmd_Lchtimes (name : gostr) (atime mtime : time) : C unit :=
  abs ← prepare FileActionWrite name; raw (Lchtimes now abs atime mtime).
Definition cmd_MkdirAll (name : gostr) (perm : N) : C unit :=
  abs ← prepare FileActionMkdir name; raw (MkdirAll now abs perm).
Definition cmd_Mkfifo (name : gostr) (perm : N) : C unit :=
  abs ← prepare FileActionWrite name; raw (Mkfifo now abs perm).
Definition cmd_Remove (name : gostr) (recursive : bool) : C unit :=
  abs ← prepare FileActionRemove name; raw (Remove abs recursive).
Definition cmd_Rename (oldName newName : gostr) : C unit :=
  oldAbs ← prepare FileActionRename oldName;
  newAbs ← prepare FileActionRename newName;
  raw (Rename now oldAbs newAbs).
Definition cmd_Getwd : gostr := cfs_cwd fs.
Definition cmd_Chdir (name : gostr) : CommandFS := MkCommandFS (cmd_Resolve name) (cfs_pol fs) (cfs_limits fs).

(** *** Open files *)

Definition limited_Read (f : limited_file memoryFile) (k : nat) (m : MemoryFS)
  : (gostr * option error) * limited_file memoryFile * MemoryFS :=
  match f with
  | Unlimited f => let '(r, f, m) := File_Read f k m in (r, Unlimited f, m)
  | Limited f => let '(r, f, m) := sl_Read f k m in (r, Limited f, m)
  end.
Definition limited_Write (f : limited_file memoryFile) (p : gostr) (m : MemoryFS)
  : (Z * option error) * limited_file memoryFile * MemoryFS :=
  match f with
  | Unlimited f => let '(r, f, m) := File_Write f p m in (r, Unlimited f, m)
  | Limited f => let '(r, f, m) := sl_Write f p m in (r, Limited f, m)
  end.
Definition limited_node (f : limited_file memoryFile) : memoryFile := match f with Unlimited f => f | Limited f => sl_File f end.
Definition limited_Stat (f : limited_file memoryFile) (m : MemoryFS) : result error fileInfo * MemoryFS := File_Stat (limited_node f) m.
Definition limited_Close (f : limited_file memoryFile) : limited_file memoryFile :=
  match f with
  | Unlimited f => Unlimited (file_Close f)
  | Limited f => Limited (MkLimited (file_Close (sl_File f)) (sl_flag f) (sl_max f) (sl_offset f))
  end.
End operations.

(** ** [ReadFile] *)

Section read.
Context {St F : Type} {file_ops : File St F}.
(** How many bytes the buffer of [io.ReadAll] has free after [n] bytes: its growth is the runtime's. *)
Variable room : nat → nat.

(** [io.ReadAll] over the file, through an [io.LimitReader] when there is a limit: what is left of it. *)
Fixpoint read_all (fuel : nat) (file : F) (left : option Z) (acc : gostr) (s : St) : result error gostr * F * St :=
  match fuel with
  | O => (Err (ESent ErrFuel), file, s)
  | Datatypes.S fuel =>
      if match left with Some n => n <=? 0 | None => false end then (Ok acc, file, s)
      else
        let k := match left with Some n => Nat.min (room (length acc)) (Z.to_nat n) | None => room (length acc) end in
        let '(p, err, file, s) := File_Read file k s in
        let acc := acc ++ p in
        match err with
        | Some err => if decide (err = ESent ErrEOF) then (Ok acc, file, s) else (Err err, file, s)
        | None => read_all fuel file ((fun n => n - glen p) <$> left) acc s
        end
  end.
End read.

Definition MaxInt64 : Z := 2 ^ 63 - 1.
(** What [readAllWithLimit] fails with: the error of a read as an exit status, or the diagnostic that the input
    exceeds the limit, with exit status 1. *)
Inductive read_failure := ReadFails (e : ExitError) | InputTooLarge (maxFileBytes : Z).
Definition readAllWithLimit {St F : Type} {file_ops : File St F} (room : nat → nat) (fuel : nat) (file : F) (maxFileBytes : Z) (s : St)
  : result read_failure gostr * F * St :=
  if (maxFileBytes <=? 0) || (maxFileBytes =? MaxInt64) then
    match read_all room fuel file None [] s with
    | (Ok data, file, s) => (Ok data, file, s)
    | (Err e, file, s) => (Err (ReadFails (wrapCommandError e)), file, s)
    end
  else
    match read_all room fuel file (Some (maxFileBytes + 1)) [] s with
    | (Ok data, file, s) => if maxFileBytes <? glen data then (Err (InputTooLarge maxFileBytes), file, s) else (Ok data, file, s)
    | (Err e, file, s) => (Err (ReadFails (wrapCommandError e)), file, s)
    end.
(** [ReadFile]; [None] when the path names a FIFO, whose bytes [Fifo] has. *)
Definition cmd_ReadFile (provider : nat → result error gostr) (now : time) (fs : CommandFS) (room : nat → nat) (fuel : nat) (name : gostr)
  (m : MemoryFS) : option (result read_failure gostr) * MemoryFS :=
  let file_ops := memoryFile_File provider now in
  match cmd_Open provider now fs name m with
  | (Err e, m) => (Some (Err (ReadFails e)), m)
  | (Ok (HFifo _ _ _), m) => (None, m)
  | (Ok (HFile f), m) =>
      let '(r, _, m) := readAllWithLimit room fuel (limited_node f) (MaxFileBytes (cfs_limits fs)) m in (Some r, m)
  end.
