(* ===== verification/Session.v ===== *)
(** A session: the requests that commands make of their filesystem and of the files they opened, one after
    the other, and the answers. *)
From S2P Require Import Prelude GoMonad GoPath FsTypes Policy MemoryFS MemoryFSWf MemoryFSInv MemoryFSOps MemoryFSSafe MemoryFSProps MemoryFSResolve Confinement Effects CommandFS.

Inductive request :=
| ReqOpen (name : gostr)
| ReqOpenFile (name : gostr) (flag perm : N)
| ReqRead (h : nat) (k : nat)
| ReqWrite (h : nat) (p : gostr)
| ReqFileStat (h : nat)
| ReqClose (h : nat)
| ReqStat (name : gostr)
| ReqLstat (name : gostr)
| ReqReadDir (name : gostr)
| ReqReadlink (name : gostr)
| ReqRealpath (name : gostr)
| ReqSymlink (target linkName : gostr)
| ReqLink (oldName newName : gostr)
| ReqChown (name : gostr) (uid gid : N) (follow : bool)
| ReqChmod (name : gostr) (mode : N)
| ReqChtimes (name : gostr) (atime mtime : time)
| ReqLchtimes (name : gostr) (atime mtime : time)
| ReqMkdirAll (name : gostr) (perm : N)
| ReqMkfifo (name : gostr) (perm : N)
| ReqRemove (name : gostr) (recursive : bool)
| ReqRename (oldName newName : gostr)
| ReqChdir (name : gostr).

Inductive response :=
| ResDone
| ResFailed (e : ExitError)
| ResHandle (h : nat)
| ResRead (p : gostr) (err : option error)
| ResWrote (n : Z) (err : option error)
| ResFileStat (r : result error fileInfo)
| ResInfo (i : fileInfo)
| ResEntries (es : list (gostr * N))
| ResText (s : gostr)
| ResNoFile    (* no such handle *)
| ResFifo.     (* an end of a FIFO: answered by the FIFO, whose bytes are not the filesystem's *)

Record session := MkSession { ss_fs : CommandFS; ss_mem : MemoryFS; ss_handles : list handle }.

Definition set_mem (m : MemoryFS) (s : session) : session := MkSession (ss_fs s) m (ss_handles s).

(** A call of the filesystem, with its answer. *)
Definition call {A} (c : C A) (answer : A → response) (s : session) : response * session :=
  match c (ss_mem s) with
  | (Ok a, m) => (answer a, set_mem m s)
  | (Err e, m) => (ResFailed e, set_mem m s)
  end.
(** One that opens a file. *)
Definition call_open (c : C handle) (s : session) : response * session :=
  match c (ss_mem s) with
  | (Ok h, m) => (ResHandle (length (ss_handles s)), MkSession (ss_fs s) m (ss_handles s ++ [h]))
  | (Err e, m) => (ResFailed e, set_mem m s)
  end.
(** A method of an open file. *)
Definition on_handle (h : nat) (f : limited_file memoryFile → MemoryFS → response * limited_file memoryFile * MemoryFS) (s : session)
  : response * session :=
  match ss_handles s !! h with
  | None => (ResNoFile, s)
  | Some (HFifo _ _ _) => (ResFifo, s)
  | Some (HFile lf) => let '(r, lf, m) := f lf (ss_mem s) in (r, MkSession (ss_fs s) m (<[h := HFile lf]> (ss_handles s)))
  end.

Section run.
Variable provider : nat → result error gostr.

(** One request, made at the time [now]. *)
Definition run_request (now : time) (r : request) (s : session) : response * session :=
  let fs := ss_fs s in
  match r with
  | ReqOpen name => call_open (cmd_Open provider now fs name) s
  | ReqOpenFile name flag perm => call_open (cmd_OpenFile provider now fs name flag perm) s
  | ReqRead h k => on_handle h (fun f m => let '(p, err, f, m) := limited_Read provider now f k m in (ResRead p err, f, m)) s
  | ReqWrite h p => on_handle h (fun f m => let '(n, err, f, m) := limited_Write provider now f p m in (ResWrote n err, f, m)) s
  | ReqFileStat h => on_handle h (fun f m => let '(r, m) := limited_Stat provider now f m in (ResFileStat r, f, m)) s
  | ReqClose h => on_handle h (fun f m => (ResDone, limited_Close f, m)) s
  | ReqStat name => call (cmd_Stat provider fs name) ResInfo s
  | ReqLstat name => call (cmd_Lstat provider fs name) ResInfo s
  | ReqReadDir name => call (cmd_ReadDir provider fs name) ResEntries s
  | ReqReadlink name => call (cmd_Readlink provider fs name) ResText s
  | ReqRealpath name => call (cmd_Realpath provider fs name) ResText s
  | ReqSymlink target linkName => call (cmd_Symlink provider now fs target linkName) (fun _ => ResDone) s
  | ReqLink oldName newName => call (cmd_Link provider now fs oldName newName) (fun _ => ResDone) s
  | ReqChown name uid gid follow => call (cmd_Chown provider fs name uid gid follow) (fun _ => ResDone) s
  | ReqChmod name mode => call (cmd_Chmod provider now fs name mode) (fun _ => ResDone) s
  | ReqChtimes name atime mtime => call (cmd_Chtimes provider now fs name atime mtime) (fun _ => ResDone) s
  | ReqLchtimes name atime mtime => call (cmd_Lchtimes provider now fs name atime mtime) (fun _ => ResDone) s
  | ReqMkdirAll name perm => call (cmd_MkdirAll provider now fs name perm) (fun _ => ResDone) s
  | ReqMkfifo name perm => call (cmd_Mkfifo provider now fs name perm) (fun _ => ResDone) s
  | ReqRemove name recursive => call (cmd_Remove provider fs name recursive) (fun _ => ResDone) s
  | ReqRename oldName newName => call (cmd_Rename provider now fs oldName newName) (fun _ => ResDone) s
  | ReqChdir name => (ResDone, MkSession (cmd_Chdir fs name) (ss_mem s) (ss_handles s))
  end.
Fixpoint run (rs : list (time * request)) (s : session) : list response * session :=
  match rs with
  | [] => ([], s)
  | (now, r) :: rs => let '(a, s) := run_request now r s in let '(l, s) := run rs s in (a :: l, s)
  end.
End run.

(** A session begins with no open file. *)
Definition start (cwd : gostr) (pol : option Policy) (m : MemoryFS) : session := MkSession (NewCommandFS cwd pol) m [].

(** ** Rules *)

(** What is known of a call from the state [m]: in every case [P], and with a value [Q]. *)
Definition ends {A} (c : C A) (m : MemoryFS) (P : MemoryFS → Prop) (Q : A → MemoryFS → Prop) : Prop :=
  P (c m).2 ∧ ∀ a, (c m).1 = Ok a → Q a (c m).2.

Section rules.
Implicit Types (P : MemoryFS → Prop).
Lemma ends_bind {A B} (c : C A) (f : A → C B) m P Q :
  ends c m P (fun a m' => ends (f a) m' P Q) → ends (c ≫= f) m P Q.
Proof.
  unfold ends, mbind, stateful_bind. destruct (c m) as [[a|e] m']; simpl; [|by intros [? _]]. intros [_ H]. by apply H.
Qed.
Lemma ends_mono {A} (c : C A) m P (Q Q' : A → MemoryFS → Prop) : ends c m P Q → (∀ a m', P m' → Q a m' → Q' a m') → ends c m P Q'.
Proof. unfold ends. intros [HP HQ] H. split; [done|]. auto. Qed.
Lemma ends_ret {A} (a : A) m P (Q : A → MemoryFS → Prop) : P m → Q a m → ends (mret a : C A) m P Q.
Proof. intros ??. split; [done|]. by intros ? [= <-]. Qed.
Lemma ends_raw {A} (c : MemoryFS.M A) m P (Q : A → MemoryFS → Prop) :
  P (c m).2 → (∀ a m', c m = (Ok a, m') → Q a m') → ends (raw c) m P Q.
Proof. unfold ends, raw. destruct (c m) as [[a|e] m']; simpl; [|done]. intros HP HQ. split; [done|]. intros ? [= <-]. by apply HQ. Qed.
End rules.

(** Invariants of a session. *)
Lemma run_invariant provider (J : session → Prop) (ok : request → Prop) rs s :
  (∀ now r s, J s → ok r → J (run_request provider now r s).2) → J s → (∀ now r, (now, r) ∈ rs → ok r) → J (run provider rs s).2.
Proof.
  intros Hstep. revert s. induction rs as [|[now r] rs IH]; intros s Hs Hok; simpl; [done|].
  pose proof (Hstep now r s Hs) as H. destruct (run_request provider now r s) as [a s1]. simpl in H.
  specialize (IH s1). destruct (run provider rs s1) as [l s2]. apply IH; [apply H, (Hok now r), list_elem_of_here|].
  intros now' r' Hin. apply (Hok now' r'). by apply list_elem_of_further.
Qed.

(** * The policy checks of [CommandFS] keep what the operations keep, and what a check for writing says about
    where an operation would create. *)

(** ** Flags *)

Lemma has_bits_lor mode a b : has_bits mode (N.lor a b) = has_bits mode a || has_bits mode b.
Proof.
  unfold has_bits. rewrite N.land_lor_distr_r, <- negb_andb. f_equal. apply eq_bool_prop_intro. rewrite andb_True, !Is_true_true, !N.eqb_eq. apply N.lor_eq_0_iff.
Qed.
Lemma create_writes flag : has_bits flag O_CREATE = true → openFileHasWriteIntent flag = true.
Proof. intros H. unfold openFileHasWriteIntent. rewrite !has_bits_lor, H. by repeat destruct (has_bits _ _). Qed.
Lemma canWrite_writes flag : canWrite flag = true → openFileHasWriteIntent flag = true.
Proof.
  unfold canWrite, openFileHasWriteIntent. change (accmode flag) with (N.land flag 3). change (has_bits flag (N.lor O_WRONLY O_RDWR)) with (negb (N.land flag 3 =? 0)%N).
  destruct (N.land flag 3 =? 0)%N eqn:E; [|done]. apply N.eqb_eq in E. by rewrite E.
Qed.

(** ** The state after a path check *)

Section state.
Context {FS : Type} `{!PathFS FS} (J : FS → Prop).
Hypothesis lstat_keeps : ∀ s p, clean_abs p → J s → J (fs_Lstat s p).2.

Lemma resolve_hops_state h n s target ff : J s → J (resolve_hops h n s target ff).2.
Proof using lstat_keeps.
  revert n s target ff. induction h as [|h IHh]; [done|]. intros n. induction n as [|n IHn]; intros s target ff Hs; rewrite resolve_hops_eq; cbv zeta;
    destruct (if ff then _ else None); try done; case_decide; try done.
  specialize (IHn s (path_Dir (cleanAbs target)) true Hs). destruct (resolve_hops (S h) n s _ true) as [[parent|e] s1]; [|done]. destruct (negb ff); [done|].
  pose proof (lstat_keeps s1 (cleanAbs (path_Join parent (path_Base (cleanAbs target)))) (Clean_clean_abs _) IHn) as Hl.
  destruct (fs_Lstat s1 _) as [[mode|e] s2]; [|by case_match]. destruct (negb _); [done|]. destruct (fs_Readlink s2 _); [|done]. by apply IHh.
Qed.
Lemma CheckPath_state pol s action target : J s → ∃ s', (CheckPath pol (Some s) action target).2 = Some s' ∧ J s'.
Proof using lstat_keeps.
  intros Hs. unfold CheckPath. cbv zeta. destruct pol as [pol|]; [|by exists s]. destruct (pol_AllowPath pol action (cleanAbs target)); [by exists s|].
  assert (J (resolveTarget s action (cleanAbs target)).2) as Hr.
  { unfold resolveTarget, resolveMaybeMissing. pose proof (resolve_hops_state (S maxSymlinkHops - 0) (length (comps (cleanAbs target))) s (cleanAbs target)) as Hh.
    case_decide; [by destruct (fs_Realpath s _)|]. case_decide; [|case_decide; [|done]]; [specialize (Hh false Hs)|specialize (Hh true Hs)];
      by destruct (resolve_hops _ _ s _ _) as [[]]. }
  destruct (resolveTarget s action (cleanAbs target)) as [[[resolved traversed] [e|]] s1]; simpl in Hr; repeat case_match; eauto.
Qed.
End state.

(** ** Names *)

Section names.
Context {FS : Type} `{!PathFS FS}.
Lemma physical_step_clean (s : FS) current part : clean_abs current → slash ∉ part → clean_abs (physical_step s current part).
Proof.
  intros Hc Hp. unfold physical_step. destruct (bool_decide (part = []) || _) eqn:E; [done|]. apply orb_false_iff in E as [E1 E2]. to_prop.
  case_decide as E3.
  - assert (clean_abs (match fs_Realpath s current with Ok resolved => Clean resolved | Err _ => current end)) as Hx by (case_match; [apply Clean_clean_abs|done]).
    destruct Hx as (cs&Hcs&->). destruct cs as [|c cs _] using rev_ind; [exists []; split; [constructor|done]|]. rewrite parentDir_snoc by done.
    exists cs. split; [|done]. by apply valid_comps_snoc in Hcs as [? _].
  - destruct Hc as (cs&Hcs&->). assert (valid_comp part) as Hv by (by split_and!). rewrite joinClean_render by done. exists (cs ++ [part]). split; [by apply valid_comps_snoc|done].
Qed.
Lemma ResolvePhysical_clean (s : FS) dir name : clean_abs (ResolvePhysical (Some s) dir name).
Proof.
  unfold ResolvePhysical. assert (∀ d n, clean_abs (Resolve d n)) as HR.
  { intros d n. unfold Resolve. repeat case_match; apply Clean_clean_abs. }
  destruct (negb _); [apply HR|]. pose proof (split_byte_parts slash name) as Hparts.
  assert (clean_abs (if has_prefix (go "/") name then go "/" else Clean dir)) as Hc by (case_match; [exists []; split; [constructor|done]|apply Clean_clean_abs]).
  revert Hc. generalize (if has_prefix (go "/") name then go "/" else Clean dir). induction Hparts as [|part parts Hp _ IH]; intros cur Hc; [done|].
  simpl. apply IH. by apply physical_step_clean.
Qed.
End names.

Lemma Resolve_clean_comps d p : clean_abs p → comps (Resolve d p) = comps p.
Proof. intros (cs&Hcs&->). rewrite Resolve_abs by apply render_abs. rewrite (comps_render cs), comps_render; done. Qed.

(** ** Checks *)

Section checks.
Variable provider : nat → result error gostr.
Hypothesis provider_total : ∀ p, provider p ≠ Err EPanic.
Variable fs : CommandFS.
Context (I : MemoryFS → Prop) (N : gostr → Prop) `{!Invariant provider I N}.

(** What holds between the calls. *)
Definition settled (m : MemoryFS) : Prop := wf m ∧ I m.
Lemma settled_kept m : settled m → kept I m.
Proof. intros [Hwf HI]. split; [done|by apply wf_is_fresh]. Qed.
(** A call of the filesystem. *)
Lemma settled_call {A} (c : MemoryFS.M A) m : safe c → settled m → (kept I m → keeps I c m (fun _ _ => True)) → settled (c m).2.
Proof.
  intros Hsafe Hm Hk. specialize (Hsafe m (proj1 Hm)). specialize (Hk (settled_kept m Hm)). unfold wp, keeps in *.
  destruct (c m) as [[a|e] m']; simpl in *; unfold kept in *; split; tauto.
Qed.
Lemma ends_call {A} (c : MemoryFS.M A) m : safe c → settled m → (kept I m → keeps I c m (fun _ _ => True)) → ends (raw c) m settled (fun _ _ => True).
Proof. intros Hs Hm Hk. apply ends_raw; [by apply settled_call|done]. Qed.

(** What a check for [action] at [abs] from [m] says. *)
Definition cleared (m : MemoryFS) (action abs : gostr) : Prop :=
  ∀ cfg, cfs_pol fs = Some (static_policy (NewStatic (Some cfg))) → action = FileActionWrite ∨ action = FileActionMkdir →
    ∀ cs, creates m (comps abs) cs → within_roots cfg FileActionWrite (render cs).

Lemma memory_Lstat_settled m0 m p : clean_abs p → settled m ∧ same_view m0 m →
  settled (@fs_Lstat _ (memory_PathFS provider) m p).2 ∧ same_view m0 (@fs_Lstat _ (memory_PathFS provider) m p).2.
Proof using provider_total Invariant0.
  intros (cs&Hcs&->) [Hm Hsv]. assert (settled (Lstat provider (render cs) m).2) as Hs.
  { apply settled_call; [by apply stat_safe|done|]. intros Hk. eapply keeps_mono; [by eapply keeps_stat|done]. }
  destruct (@fs_Lstat _ (memory_PathFS provider) m (render cs)) as [r m'] eqn:E.
  destruct (Lstat_cases provider provider_total m cs r m' (proj1 Hm) Hcs E) as (_&Hv&_). cbn [fs_Lstat memory_PathFS] in E.
  destruct (Lstat provider (render cs) m) as [r0 m1]. injection E as _ <-. simpl. split; [done|by etrans].
Qed.
Lemma check_ends action abs m Q : settled m → clean_abs abs → (∀ m', settled m' → same_view m m' → cleared m action abs → Q tt m') →
  ends (check provider fs action abs) m settled Q.
Proof using provider_total Invariant0.
  intros Hm Habs HQ. unfold ends, check.
  destruct (@CheckPath_state MemoryFS (memory_PathFS provider) (fun m' => settled m' ∧ same_view m m') (memory_Lstat_settled m) (cfs_pol fs) m action abs) as (m'&Em&Hm'&Hsv);
    [by split|]. destruct (CheckPath _ _ _ _) as [r os] eqn:Ec. simpl in Em. subst os. destruct r as [e|]; simpl; (split; [done|]); [done|].
  intros [] _. apply HQ; [done..|]. intros cfg Hcfg Ha cs Hc. rewrite Hcfg in Ec.
  destruct (CheckPath_allows provider cfg m action abs m' (proj1 Hm) Ec) as (_&res&Hres&Hin). destruct Habs as (ts&Hts&->).
  rewrite cleanAbs_Clean, Clean_render in Hres by done. rewrite comps_render in Hc by done.
  assert (@resolveTarget _ (memory_PathFS provider) m action (render ts) = match @resolveMaybeMissing _ (memory_PathFS provider) m (render ts) true 0 with
    | (Err err, s) => (([], false, Some err), s) | (Ok resolved, s) => ((resolved, bool_decide (resolved ≠ cleanAbs (render ts)), None), s) end) as Ert.
  { unfold resolveTarget. destruct Ha as [->| ->]; by rewrite decide_False, decide_False, decide_True by set_solver. }
  rewrite Ert in Hres. unfold resolveMaybeMissing in Hres. destruct (resolve_hops _ _ m (render ts) true) as [r m2] eqn:Er.
  apply (resolve_hops_lands provider provider_total) in Er as (_&_&Hl); [|apply Hm]. rewrite comps_render in Hl by done. destruct Hc as [Hcs [h Hh]].
  assert (∀ q, within_roots cfg action q → within_roots cfg FileActionWrite q) as Hact.
  { unfold within_roots, configured_roots. by destruct Ha as [->| ->]. }
  destruct r as [q|e]; injection Hres as <- <-; simpl in *.
  - apply Hact. destruct Hl as [h' Hh']. by rewrite (create_det _ _ _ _ _ _ Hh Hh').
  - by destruct (Hl Hin h (render cs)).
Qed.
Lemma ResolveAt_ends name m Q : settled m → (∀ abs, clean_abs abs → Q abs m) → ends (ResolveAt provider fs name) m settled Q.
Proof using. intros Hm HQ. split; [done|]. intros a [= <-]. apply HQ, ResolvePhysical_clean. Qed.
Lemma prepare_ends action name m Q : settled m → (∀ abs m', settled m' → clean_abs abs → same_view m m' → cleared m action abs → Q abs m') →
  ends (prepare provider fs action name) m settled Q.
Proof using provider_total Invariant0.
  intros Hm HQ. apply ends_bind, ResolveAt_ends; [done|]. intros abs Habs. apply ends_bind, check_ends; [done..|]. intros m' Hm' Hsv Hc.
  apply ends_ret; [done|]. by apply HQ.
Qed.
(** A checked call. *)
Lemma prepared_ends {A} action name (c : gostr → MemoryFS.M A) m : settled m → (∀ abs, safe (c abs)) →
  (∀ abs m', clean_abs abs → settled m' → same_view m m' → cleared m action abs → keeps I (c abs) m' (fun _ _ => True)) →
  ends (abs ← prepare provider fs action name; raw (c abs)) m settled (fun _ _ => True).
Proof using provider_total Invariant0.
  intros Hm Hs Hk. apply ends_bind, prepare_ends; [done|]. intros abs m' Hm' Habs Hsv Hc. apply ends_call; [done..|]. intros _. by apply Hk.
Qed.
Lemma cleared_view m m' action abs : same_view m m' → cleared m action abs → cleared m' action abs.
Proof. intros Hsv Hc cfg Hcfg Ha cs Hcs. apply (Hc cfg Hcfg Ha). by apply (creates_view m m' _ _ Hsv). Qed.
End checks.

(** ** Open files *)

Lemma file_Read_handle provider f k m p f' m' : file_Read provider f k m = (Ok (p, f'), m') →
  f_node f' = f_node f ∧ f_flag f' = f_flag f ∧ f_closed f' = f_closed f.
Proof. unfold file_Read, attempt, load, throw, throw_path, mbind, M_bind, mret, M_ret. repeat (case_match; simplify_eq/=); intros; by simplify_eq/=. Qed.
Lemma file_Write_handle provider now f p m n f' m' : file_Write provider now f p m = (Ok (n, f'), m') →
  f_node f' = f_node f ∧ f_flag f' = f_flag f ∧ f_closed f' = f_closed f.
Proof.
  unfold file_Write, attempt, load, update_node, throw, throw_path, mbind, M_bind, mret, M_ret. repeat (case_match; simplify_eq/=); intros; by simplify_eq/=.
Qed.

Section files.
Variable provider : nat → result error gostr.
Variable now : time.
(** What every call on a handle of the node [l] with the flags [fl] keeps, a capped one keeps. *)
Context (J : MemoryFS → Prop) (l : loc) (fl : N).
Hypothesis read_keeps : ∀ f k m, f_node f = l → f_flag f = fl → J m → J (file_Read provider f k m).2.
Hypothesis write_keeps : ∀ f p m, f_node f = l → f_flag f = fl → J m → J (file_Write provider now f p m).2.
Hypothesis stat_keeps : ∀ f m, f_node f = l → f_flag f = fl → J m → J (file_Stat provider f m).2.

Definition of_file (f : memoryFile) : Prop := f_node f = l ∧ f_flag f = fl.

#[local] Instance memory_file : File MemoryFS memoryFile := memoryFile_File provider now.

Lemma Stat_J f m r m' : of_file f → J m → File_Stat f m = (r, m') → J m'.
Proof using stat_keeps. intros [??] Hm E. cbn [File_Stat memory_file memoryFile_File] in E. specialize (stat_keeps f m). rewrite E in stat_keeps. by apply stat_keeps. Qed.
Lemma Read_J f k m r f' m' : of_file f → J m → File_Read f k m = (r, f', m') → J m' ∧ of_file f'.
Proof using read_keeps.
  intros [Hl Hf] Hm. cbn [File_Read memory_file memoryFile_File]. specialize (read_keeps f k m Hl Hf Hm). pose proof (file_Read_handle provider f k m) as Hh.
  destruct (file_Read provider f k m) as [[[p f1]|e] m1]; intros [= <- <- <-]; (split; [done|]); [|done]. destruct (Hh p f1 m1 eq_refl) as (?&?&_). split; congruence.
Qed.
Lemma Write_J f p m r f' m' : of_file f → J m → File_Write f p m = (r, f', m') → J m' ∧ of_file f'.
Proof using write_keeps.
  intros [Hl Hf] Hm. cbn [File_Write memory_file memoryFile_File]. specialize (write_keeps f p m Hl Hf Hm). pose proof (file_Write_handle provider now f p m) as Hh.
  destruct (file_Write provider now f p m) as [[[n f1]|e] m1]; intros [= <- <- <-]; (split; [done|]); [|done]. destruct (Hh n f1 m1 eq_refl) as (?&?&_). split; congruence.
Qed.
Lemma tooLarge_J op f m e m' : of_file (sl_File f) → J m → tooLarge op f m = (e, m') → J m'.
Proof using stat_keeps.
  intros Hf Hm. unfold tooLarge, sl_name. destruct (File_Stat (sl_File f) m) as [[i|e0] m1] eqn:E; intros [= _ <-]; by eapply Stat_J.
Qed.
Lemma sl_advance_J f p m r f' m' : of_file (sl_File f) → J m → sl_advance f p m = (r, f', m') → J m' ∧ of_file (sl_File f').
Proof using write_keeps.
  intros Hf Hm. unfold sl_advance. destruct (File_Write (sl_File f) p m) as [[[n err] f1] m1] eqn:E. intros [= <- <- <-]. by eapply Write_J.
Qed.
Lemma sl_Write_J f p m r f' m' : of_file (sl_File f) → J m → sl_Write f p m = (r, f', m') → J m' ∧ of_file (sl_File f').
Proof using write_keeps stat_keeps.
  intros Hf Hm. unfold sl_Write.
  destruct (if has_bits (sl_flag f) O_APPEND then _ else _) as [f1 m1] eqn:E1. assert (J m1 ∧ of_file (sl_File f1)) as [Hm1 Hf1].
  { destruct (has_bits (sl_flag f) O_APPEND); [|by simplify_eq]. destruct (File_Stat (sl_File f) m) as [[i|e0] m0] eqn:E; simplify_eq; (split; [by eapply Stat_J|done]). }
  destruct (glen p <=? _); [by apply sl_advance_J|].
  destruct (if 0 <? _ then _ else _) as [[[n err] f2] m2] eqn:E2. assert (J m2 ∧ of_file (sl_File f2)) as [Hm2 Hf2].
  { destruct (0 <? _); [by eapply sl_advance_J|by simplify_eq]. }
  destruct err as [e|]; [by intros [= <- <- <-]|]. destruct (tooLarge _ f2 m2) as [e m3] eqn:E3. intros [= <- <- <-]. split; [by eapply tooLarge_J|done].
Qed.
Lemma limited_Write_J f p m r f' m' : of_file (limited_node f) → J m → limited_Write provider now f p m = (r, f', m') → J m' ∧ of_file (limited_node f').
Proof using write_keeps stat_keeps.
  intros Hf Hm. unfold limited_Write. fold memory_file. destruct f as [f|f].
  - destruct (File_Write f p m) as [[r1 f1] m1] eqn:E. intros [= <- <- <-]. by eapply Write_J.
  - destruct (sl_Write f p m) as [[r1 f1] m1] eqn:E. intros [= <- <- <-]. by eapply sl_Write_J.
Qed.
Lemma limited_Read_J f k m r f' m' : of_file (limited_node f) → J m → limited_Read provider now f k m = (r, f', m') → J m' ∧ of_file (limited_node f').
Proof using read_keeps.
  intros Hf Hm. unfold limited_Read. fold memory_file. destruct f as [f|f].
  - destruct (File_Read f k m) as [[r1 f1] m1] eqn:E. intros [= <- <- <-]. by eapply Read_J.
  - unfold sl_Read. destruct (File_Read (sl_File f) k m) as [[[p err] f1] m1] eqn:E. intros [= <- <- <-]. by eapply Read_J.
Qed.
Lemma LimitFileSize_J f flag max m lf m' : of_file f → J m → LimitFileSize f flag max m = (lf, m') → J m' ∧ limited_node lf = f.
Proof using stat_keeps.
  intros Hf Hm. unfold LimitFileSize. destruct (_ || _); [by intros [= <- <-]|]. destruct (File_Stat f m) as [[i|e] m1] eqn:E;
    [destruct (negb _)|]; intros [= <- <-]; (split; [by eapply Stat_J|done]).
Qed.
Lemma limited_Close_node f : f_node (limited_node (limited_Close f)) = f_node (limited_node f) ∧ f_flag (limited_node (limited_Close f)) = f_flag (limited_node f).
Proof using. by destruct f. Qed.
End files.
