(* ===== verification/ReadFile.v ===== *)
(** [CommandFS.ReadFile]: it reads a file to its end, and fails when the file is larger than the limit. *)
From S2P Require Import Prelude GoMonad GoPath FsTypes Policy MemoryFS MemoryFSWf MemoryFSInv MemoryFSOps MemoryFSSafe MemoryFSProps MemoryFSResolve Confinement.
From S2P Require Import Effects CommandFS Session MemoryFSExamples.

(** ** Reading an open file *)

Section reading.
Variable provider : nat → result error gostr.
Variable now : time.
#[local] Instance memory_file : File MemoryFS memoryFile := memoryFile_File provider now.
Variable room : nat → nat.
Hypothesis room_pos : ∀ k, (0 < room k)%nat.

(** A file that is open for reading on the loaded node [n]. *)
Definition readable (m : MemoryFS) (f : memoryFile) (n : memoryNode) : Prop :=
  heap m !! f_node f = Some n ∧ isLazyFileNode n = false ∧ mode_IsDir (n_mode n) = false ∧ f_closed f = false ∧ canRead (f_flag f) = true ∧ 0 ≤ f_offset f.
(** What is left of it. *)
Definition rest (f : memoryFile) (n : memoryNode) : gostr := drop (Z.to_nat (f_offset f)) (n_data n).

Lemma File_Read_loaded f n k m : readable m f n →
  File_Read f k m = if decide (rest f n = []) then (([], Some (ESent ErrEOF)), f, m)
                    else ((take k (rest f n), None), MkFile (f_path f) (f_node f) (f_flag f) (f_offset f + glen (take k (rest f n))) false, m).
Proof.
  intros (Hn&Hl&Hd&Hc&Hr&Ho). unfold File_Read, memory_file, memoryFile_File, file_Read, rest. rewrite Hc, Hr. cbn [negb].
  unfold attempt, load, throw, mbind, M_bind, mret, M_ret.
  assert (materializeNode provider (f_node f) m = (Ok tt, m)) as ->.
  { rewrite (materializeNode_eq provider _ n m Hn). unfold content. by rewrite Hl. }
  rewrite Hn, Hd. destruct (glen (n_data n) <=? f_offset f) eqn:E; to_prop.
  - rewrite decide_True; [done|]. apply drop_ge. unfold glen in E. lia.
  - rewrite decide_False; [done|]. intros Hx%(f_equal length). rewrite length_drop in Hx. unfold glen in E. simpl in Hx. lia.
Qed.
Lemma readable_advance m f n k : readable m f n →
  let f' := MkFile (f_path f) (f_node f) (f_flag f) (f_offset f + glen (take k (rest f n))) false in
  readable m f' n ∧ rest f' n = drop k (rest f n).
Proof.
  intros (Hn&Hl&Hd&Hc&Hr&Ho). split; [split_and!; try done; simpl; unfold glen; lia|]. unfold rest. simpl. rewrite drop_drop.
  rewrite Z2Nat.inj_add by (unfold glen; lia). unfold glen. rewrite Nat2Z.id, length_take, length_drop.
  destruct (decide (k ≤ length (n_data n) - Z.to_nat (f_offset f))%nat); [f_equal; lia|]. rewrite !drop_ge by lia. done.
Qed.

(** Every turn but the last reads something, so the length of the file and one turn are enough. *)
Lemma read_all_exact fuel f left acc n m : readable m f n → (length (rest f n) < fuel)%nat →
  ∃ f', read_all room fuel f left acc m = (Ok (acc ++ match left with Some k => take (Z.to_nat k) (rest f n) | None => rest f n end), f', m).
Proof using room_pos.
  revert f left acc. induction fuel as [|fuel IH]; intros f left acc Hf Hlen; [lia|]. cbn [read_all].
  destruct (match left with Some k => k <=? 0 | None => false end) eqn:El.
  { destruct left as [k|]; [|done]. to_prop. exists f. replace (Z.to_nat k) with 0%nat by lia. by rewrite take_0, app_nil_r. }
  set (k := match left with Some k => _ | None => _ end). assert (0 < k)%nat as Hk.
  { subst k. pose proof (room_pos (length acc)). destruct left as [k|]; [|done]. to_prop. lia. }
  rewrite (File_Read_loaded f n k m Hf). case_decide as Hr.
  - rewrite decide_True by done. exists f. rewrite Hr, app_nil_r. destruct left; by rewrite ?take_nil, app_nil_r.
  - destruct (readable_advance m f n k Hf) as [Hf' Hrest]. cbv zeta in Hf', Hrest.
    assert (length (take k (rest f n)) ≠ 0)%nat as Hpos by (rewrite length_take; destruct (rest f n); simpl; [done|lia]).
    edestruct (IH _ ((fun k' => k' - glen (take k (rest f n))) <$> left) (acc ++ take k (rest f n)) Hf') as [f'' ->].
    { rewrite Hrest, length_drop. destruct (rest f n); simpl in *; [done|lia]. }
    exists f''. rewrite Hrest, <- (assoc_L (++)). do 4 f_equal. destruct left as [z|]; simpl; [|apply take_drop].
    to_prop. trans (take (Z.to_nat z) (take k (rest f n) ++ drop k (rest f n))); [|by rewrite take_drop]. rewrite take_app. f_equal.
    + rewrite (take_ge (take k _)); [done|]. rewrite length_take. subst k. lia.
    + f_equal. unfold glen. lia.
Qed.
End reading.

(** ** Reading a file by its name *)

Section content.
Variable provider : nat → result error gostr.
Hypothesis provider_total : ∀ p, provider p ≠ Err EPanic.
Variable m0 : MemoryFS.

(** The nodes have the content they had. *)
Definition same_content (m : MemoryFS) : Prop := ∀ l n, heap m0 !! l = Some n → ∃ n', heap m !! l = Some n' ∧ content provider n' = content provider n.

#[local] Instance same_content_Invariant : Invariant provider same_content (fun _ => True).
Proof using.
  split.
  - intros m n H Hf _ l k (k'&Hk&Hc)%H. exists k'. split; [|done]. simpl. rewrite lookup_insert_ne; [done|]. intros <-.
    assert (next_loc m < next_loc m)%positive; [|lia]. apply Hf. left. by rewrite Hk.
  - done.
  - done.
  - intros m l n n' H Hn Hq l' k (k'&Hk&Hc)%H. simpl. destruct (decide (l' = l)) as [->|Hne].
    + exists n'. rewrite lookup_insert_eq. split; [done|]. destruct Hq as [Hq _]. congruence.
    + exists k'. by rewrite lookup_insert_ne by done.
Qed.

Lemma resolve_view m m' name ff am : same_view m m' → resolvePathLocked m' name ff am = resolvePathLocked m name ff am.
Proof using. intros Hsv. unfold resolvePathLocked, resolveAbsLocked. rewrite (sv_cwd _ _ Hsv). by apply resolveAbs_view. Qed.
Lemma open_node_regular now m abs l n : heap m !! l = Some n → mode_IsDir (n_mode n) = false → has_bits (n_mode n) ModeNamedPipe = false →
  open_node now abs l false O_RDONLY m = (Ok (MemFile (MkFile abs l O_RDONLY 0 false)), m).
Proof using.
  intros Hn Hd Hp. unfold open_node. change (has_bits O_RDONLY O_CREATE) with false. change (has_bits O_RDONLY O_TRUNC) with false.
  change (has_bits O_RDONLY O_APPEND) with false. cbn [negb andb]. unfold load, mbind, M_bind, mret, M_ret. by rewrite Hn, Hd, Hp, Hn.
Qed.
(** Opening a regular file for reading loads it and changes nothing else. *)
Lemma Open_regular now m name abs l n data : resolvePathLocked m name true false = Ok (abs, Some l) → heap m !! l = Some n →
  mode_IsDir (n_mode n) = false → has_bits (n_mode n) ModeNamedPipe = false → content provider n = Ok data →
  ∃ m' n', Open provider now name m = (Ok (MemFile (MkFile abs l O_RDONLY 0 false)), m') ∧ same_view m m' ∧
    heap m' !! l = Some n' ∧ isLazyFileNode n' = false ∧ n_data n' = data ∧ mode_IsDir (n_mode n') = false ∧
    (same_content m → same_content m').
Proof using.
  intros Hr Hn Hd Hp Hc. unfold Open, OpenFile. change (has_bits O_RDONLY O_CREATE) with false. change (has_bits O_RDONLY O_TRUNC) with false. cbn [negb orb andb].
  unfold materializePath, mbind, M_bind, attempt, resolve_existing. rewrite Hr. unfold lift, mret at 1, M_ret at 1, load. rewrite Hn.
  rewrite orb_false_r. pose proof (materializeNode_eq provider l n m Hn) as Hm. rewrite Hc in Hm.
  destruct (isLazyFileNode n) eqn:El; cbn [negb]; cbn beta iota.
  - rewrite Hm. set (n' := set_lazy None (set_data data n)). set (m' := set_heap _ m). exists m', n'.
    assert (same_view m m') as Hsv by (by apply (same_view_update m l n)). assert (heap m' !! l = Some n') as Hn' by apply lookup_insert_eq.
    unfold get, mret, M_ret. cbn beta iota zeta. rewrite (resolve_view m m') by done. rewrite Hr. cbn beta iota.
    rewrite (open_node_regular now m' abs l n') by done. split_and!; [done..|]. intros Hk. apply (@inv_quiet provider same_content (fun _ => True) _ m l n n'); [done..|].
    by apply materialize_quiet.
  - exists m, n. unfold get, mret, M_ret. cbn beta iota zeta. rewrite Hr. cbn beta iota. rewrite (open_node_regular now m abs l n) by done.
    split_and!; try done. unfold content in Hc. rewrite El in Hc. congruence.
Qed.

(** The check before: what it asks the filesystem loads nodes at most. *)
Lemma check_content fs m action abs : wf m → same_content m →
  ∃ m', (@CheckPath _ (memory_PathFS provider) (cfs_pol fs) (Some m) action abs).2 = Some m' ∧ same_content m' ∧ same_view m m'.
Proof using provider_total.
  intros Hwf Hm.
  destruct (@CheckPath_state MemoryFS (memory_PathFS provider) (fun m' => settled same_content m' ∧ same_view m m')
    (memory_Lstat_settled provider provider_total same_content (fun _ => True) m) (cfs_pol fs) m action abs) as (m'&Em&[_ Hc]&Hsv); [by split|].
  by exists m'.
Qed.
End content.

Section by_name.
Variable provider : nat → result error gostr.
Variable now : time.
Variable room : nat → nat.
Hypothesis room_pos : ∀ k, (0 < room k)%nat.
#[local] Instance memory_view : PathFS MemoryFS := memory_PathFS provider.
#[local] Instance memory_reader : File MemoryFS memoryFile := memoryFile_File provider now.

Lemma cmd_Open_eq fs name m : cmd_Open provider now fs name m =
  let path := ResolvePhysical (Some m) (cfs_cwd fs) name in
  match CheckPath (cfs_pol fs) (Some m) FileActionRead path with
  | (Some err, s) => (Err (MkExit (exitCodeForError err) err), default m s)
  | (None, s) =>
      match Open provider now path (default m s) with
      | (Ok f, m') => (Ok (unlimited f), m')
      | (Err e, m') => (Err (wrapCommandError e), m')
      end
  end.
Proof using.
  unfold cmd_Open, prepare, ResolveAt, check, raw. cbv zeta. unfold mbind, stateful_bind, mret, stateful_ret. cbn beta iota.
  change (CommandFS.memory_view provider) with memory_view. destruct (CheckPath _ _ _ _) as [[e|] s]; [done|]. cbn beta iota. by destruct (Open _ _ _ _) as [[f|e] m'].
Qed.
Lemma readAllWithLimit_exact fuel limit f n m : readable m f n → (length (rest f n) < fuel)%nat →
  ∃ f', readAllWithLimit room fuel f limit m =
    (if decide (limit ≤ 0 ∨ limit = MaxInt64 ∨ glen (rest f n) ≤ limit) then Ok (rest f n) else Err (InputTooLarge limit), f', m).
Proof using room_pos.
  intros Hf Hfuel. unfold readAllWithLimit. destruct ((limit <=? 0) || (limit =? MaxInt64)) eqn:E.
  - destruct (read_all_exact provider now room room_pos fuel f None [] n m Hf Hfuel) as [f' Hx]. change (memory_file provider now) with memory_reader in Hx. rewrite Hx. exists f'.
    rewrite decide_True; [done|]. apply orb_true_iff in E as [E|E]; to_prop; tauto.
  - destruct (read_all_exact provider now room room_pos fuel f (Some (limit + 1)) [] n m Hf Hfuel) as [f' Hx]. change (memory_file provider now) with memory_reader in Hx. rewrite Hx. exists f'.
    apply orb_false_iff in E as [E1 E2]. to_prop. simpl. unfold glen. rewrite length_take. case_decide as Hd; unfold glen in Hd.
    + assert ((limit <? Z.of_nat (Nat.min (Z.to_nat (limit + 1)) (length (rest f n)))) = false) as -> by (apply Z.ltb_ge; lia).
      rewrite take_ge by lia. done.
    + assert ((limit <? Z.of_nat (Nat.min (Z.to_nat (limit + 1)) (length (rest f n)))) = true) as -> by (apply Z.ltb_lt; lia). done.
Qed.
End by_name.

(** [ReadFile] of a name that resolves to a regular file, under any policy: the check, the file and the limit. *)
Lemma ReadFile_checked provider now fs room fuel m name abs l n data :
  wf m → (∀ p, provider p ≠ Err EPanic) → (∀ k, 0 < room k)%nat →
  let path := @ResolvePhysical _ (memory_PathFS provider) (Some m) (cfs_cwd fs) name in
  let limit := MaxFileBytes (cfs_limits fs) in
  resolvePathLocked m path true false = Ok (abs, Some l) → heap m !! l = Some n →
  mode_IsDir (n_mode n) = false → has_bits (n_mode n) ModeNamedPipe = false → content provider n = Ok data → (length data < fuel)%nat →
  let '(answer, m') := cmd_ReadFile provider now fs room fuel name m in
  answer = Some (match (@CheckPath _ (memory_PathFS provider) (cfs_pol fs) (Some m) FileActionRead path).1 with
                 | Some err => Err (ReadFails (MkExit (exitCodeForError err) err))
                 | None => if decide (limit ≤ 0 ∨ limit = MaxInt64 ∨ glen data ≤ limit) then Ok data else Err (InputTooLarge limit)
                 end) ∧
  same_view m m' ∧ same_content provider m m'.
Proof.
  intros Hwf Hp Hroom path limit Hr Hn Hd Hpipe Hc Hfuel. assert (same_content provider m m) as Hm0 by (intros l' n' ?; by exists n').
  destruct (check_content provider Hp m fs m FileActionRead path Hwf Hm0) as (m1&Em1&Hm1&Hsv1).
  pose proof (cmd_Open_eq provider now fs name m) as Ho. change (memory_view provider) with (memory_PathFS provider) in Ho. cbv zeta in Ho. fold path in Ho.
  unfold cmd_ReadFile. rewrite Ho. clear Ho.
  destruct (CheckPath (cfs_pol fs) (Some m) FileActionRead path) as [[e|] os]; simpl in Em1; subst os; [by split_and!|]. change (default m (Some m1)) with m1.
  destruct (Hm1 l n Hn) as (n1&Hn1&Hc1).
  pose proof (sv_heap _ _ Hsv1 l) as Hmode. rewrite Hn, Hn1 in Hmode. injection Hmode as Hmode _.
  destruct (Open_regular provider m now m1 path abs l n1 data) as (m2&n2&->&Hsv2&Hn2&Hl2&<-&Hd2&Hk2); [by rewrite (resolve_view m m1)|congruence..|].
  destruct (readAllWithLimit_exact provider now room Hroom fuel limit (MkFile abs l O_RDONLY 0 false) n2 m2) as [f' Hx]; [by split_and!|done|].
  simpl. unfold limit in Hx. change (memory_reader provider now) with (memoryFile_File provider now) in Hx. rewrite Hx. split; [done|]. split; [by etrans|auto].
Qed.

(** What a [Static] policy lets a session read: the cleaned name and the path behind its links lie inside the read
    roots, and where links are denied there are none on the way. *)
Definition may_read (cfg : Config) (path abs : gostr) : Prop :=
  within_roots cfg FileActionRead path ∧ within_roots cfg FileActionRead abs ∧ (abs = path ∨ symlinkMode (NewStatic (Some cfg)) ≠ SymlinkDeny).
Lemma AllowPath_denies p action target err : AllowPath p action target = Some err → ∃ subject why, err = EDenied action subject why.
Proof. unfold AllowPath. cbv zeta. case_match; [done|]. intros [= <-]. eauto. Qed.
Lemma CheckPath_read provider cfg m path abs l : wf m → clean_abs path → resolvePathLocked m path true false = Ok (abs, Some l) →
  let answer := (@CheckPath _ (memory_PathFS provider) (Some (static_policy (NewStatic (Some cfg)))) (Some m) FileActionRead path).1 in
  (may_read cfg path abs → answer = None) ∧ (¬ may_read cfg path abs → ∃ subject why, answer = Some (EDenied FileActionRead subject why)).
Proof.
  intros Hwf Hcl Hr answer. assert (clean_abs abs) as Hcabs.
  { unfold resolvePathLocked, resolveAbsLocked in Hr. pose proof (resolveAbs_hops_spec (S maxSymlinkDepth) m (Resolve (cwd m) path) true false Hwf) as Hs.
    change (S maxSymlinkDepth - 0)%nat with (S maxSymlinkDepth) in Hr. rewrite Hr in Hs. destruct Hs as [Hs _]. by eapply (wf_key m Hwf). }
  assert (@fs_Realpath _ (memory_PathFS provider) m path = Ok abs) as Hreal by (destruct Hcl as (ts&Hts&->); by eapply Realpath_resolved).
  subst answer. unfold CheckPath, may_read. cbv zeta. rewrite (cleanAbs_id path) by done. cbn [pol_AllowPath pol_SymlinkMode static_policy].
  destruct (AllowPath _ _ path) as [e|] eqn:Ep.
  { destruct (AllowPath_denies _ _ _ _ Ep) as (subject&why&->). split; [|eauto]. intros (Hp&_). apply AllowPath_within in Hp. congruence. }
  apply AllowPath_within in Ep. unfold resolveTarget. rewrite decide_True by set_solver. rewrite Hreal. rewrite !(cleanAbs_id path), !(cleanAbs_id abs) by done.
  destruct (decide (abs = path)) as [->|Hne].
  { rewrite bool_decide_eq_false_2 by tauto. cbn [andb]. rewrite decide_False by tauto. split; [done|]. intros []. by split_and!; [..|left]. }
  rewrite (bool_decide_eq_true_2 (abs ≠ path)) by done. cbn [andb]. destruct (bool_decide (_ = SymlinkDeny)) eqn:Ed; to_prop.
  { split; [|eauto]. intros (_&_&[|Hx]); done. }
  rewrite decide_True by done. cbn [fst]. destruct (AllowPath _ _ abs) as [e|] eqn:Ea.
  - destruct (AllowPath_denies _ _ _ _ Ea) as (subject&why&->). split; [|eauto]. intros (_&Hp&_). apply AllowPath_within in Hp. congruence.
  - split; [done|]. apply AllowPath_within in Ea. intros []. by split_and!; [..|right].
Qed.

(** C7: reading a file by its name gives all of it or fails as documented.  Under a [Static] policy, for a name that
    resolves, the dot-dots behind the links before them, to a regular file: when the policy allows to read it (the
    name and the resolved path lie inside the read roots, and no link is on the way where links are denied),
    [ReadFile] answers with exactly the bytes of the file, or, when these are more than the session's limit on
    file sizes, with the diagnostic about the limit; when the policy does not, it fails with exit status 126 and an
    error that is a denial.  In every case it ends, whatever the sizes of the buffers of [io.ReadAll] are, and the
    tree, the modes and the contents of all files are what they were, files with lazy content included. *)
Theorem ReadFile_exact provider now cfg fs room fuel m name abs l n data :
  wf m → (∀ p, provider p ≠ Err EPanic) → (∀ k, 0 < room k)%nat → cfs_pol fs = Some (static_policy (NewStatic (Some cfg))) →
  let path := @ResolvePhysical _ (memory_PathFS provider) (Some m) (cfs_cwd fs) name in
  let limit := MaxFileBytes (cfs_limits fs) in
  resolvePathLocked m path true false = Ok (abs, Some l) → heap m !! l = Some n →
  mode_IsDir (n_mode n) = false → has_bits (n_mode n) ModeNamedPipe = false → content provider n = Ok data → (length data < fuel)%nat →
  let '(answer, m') := cmd_ReadFile provider now fs room fuel name m in
  (may_read cfg path abs → answer = Some (if decide (limit ≤ 0 ∨ limit = MaxInt64 ∨ glen data ≤ limit) then Ok data else Err (InputTooLarge limit))) ∧
  (¬ may_read cfg path abs → ∃ subject why, answer = Some (Err (ReadFails (MkExit 126 (EDenied FileActionRead subject why))))) ∧
  same_view m m' ∧ same_content provider m m'.
Proof.
  intros Hwf Hp Hroom Hpol path limit Hr Hn Hd Hpipe Hc Hfuel.
  pose proof (ReadFile_checked provider now fs room fuel m name abs l n data Hwf Hp Hroom Hr Hn Hd Hpipe Hc Hfuel) as H. fold path limit in H. rewrite Hpol in H.
  assert (clean_abs path) as Hcl by apply ResolvePhysical_clean. destruct (CheckPath_read provider cfg m path abs l Hwf Hcl Hr) as [Hok Hno].
  destruct (cmd_ReadFile _ _ _ _ _ _ _) as [answer m']. destruct H as (->&Hsv&Hsc). split_and!; [..|done|done].
  - intros Hm. by rewrite (Hok Hm).
  - intros Hm. destruct (Hno Hm) as (subject&why&->). by exists subject, why.
Qed.

(** A session in "/w" that may read below [root], files of at most [limit] bytes. *)
Definition reading_config (root : gostr) (limit : Z) : Config :=
  Build_Config [] [] [root] [root] (Build_Limits 0 0 0 0 0 0 0 0 limit 0 0) SymlinkFollow.
Definition reading_fs (root : gostr) (limit : Z) : CommandFS :=
  NewCommandFS (go "/w") (Some (static_policy (NewStatic (Some (reading_config root limit))))).
(** "out" leads to "/etc", whose parent is the root. *)
Definition read_demo (root : gostr) (limit : Z) (name : gostr) : option (result read_failure gostr) * MemoryFS :=
  cmd_ReadFile no_lazy 9 (reading_fs root limit) (fun _ => 3%nat) 6 name demo_fs.
Example read_answers :
  (read_demo (go "/w") 5 (go "out/../w/g")).1 = Some (Ok (go "hello")) ∧
  (read_demo (go "/w") 4 (go "g")).1 = Some (Err (InputTooLarge 4)) ∧
  (read_demo (go "/w") 5 (go "out")).1 = Some (Err (ReadFails (MkExit 126 (EDenied FileActionRead (go "/etc") (go "outside allowed roots"))))).
Proof. vm_compute. repeat split; reflexivity. Qed.
Lemma ReadFile_exact_witness :
  (read_demo (go "/w") 5 (go "out/../w/g")).1 = Some (Ok (go "hello")) ∧ same_view demo_fs (read_demo (go "/w") 5 (go "out/../w/g")).2 ∧
  ∃ subject why, (read_demo (go "/x") 5 (go "g")).1 = Some (Err (ReadFails (MkExit 126 (EDenied FileActionRead subject why)))).
Proof.
  assert (∀ root name, @ResolvePhysical _ (memory_PathFS no_lazy) (Some demo_fs) (go "/w") name = go "/w/g" →
    let '(answer, m') := read_demo root 5 name in
    (may_read (reading_config root 5) (go "/w/g") (go "/w/g") → answer = Some (Ok (go "hello"))) ∧
    (¬ may_read (reading_config root 5) (go "/w/g") (go "/w/g") → ∃ subject why, answer = Some (Err (ReadFails (MkExit 126 (EDenied FileActionRead subject why))))) ∧
    same_view demo_fs m' ∧ same_content no_lazy demo_fs m') as H.
  { intros root name Hname.
    pose proof (ReadFile_exact no_lazy 9 (reading_config root 5) (reading_fs root 5) (fun _ => 3%nat) 6 demo_fs name (go "/w/g") (f_node demo_file) demo_node (go "hello")
      demo_wf no_lazy_total (fun _ => Nat.lt_0_succ 2) eq_refl) as H. cbv zeta in H. change (cfs_cwd (reading_fs root 5)) with (go "/w") in H. rewrite Hname in H.
    exact (H ltac:(vm_compute; reflexivity) demo_node_at ltac:(vm_compute; reflexivity) ltac:(vm_compute; reflexivity) ltac:(vm_compute; reflexivity) ltac:(simpl; lia)). }
  assert (∀ root, within_roots (reading_config root 5) FileActionRead (go "/w/g") ↔ comps root `prefix_of` comps (go "/w/g")) as Hw.
  { intros root. unfold within_roots, configured_roots. rewrite decide_False by (apply (bool_decide_unpack _); vm_compute; done). cbn [cfg_ReadRoots reading_config]. split.
    - intros [|(r&Hr%list_elem_of_singleton&Hp)]; [done|]. by subst.
    - intros Hp. right. exists root. split; [left|done]. }
  split_and!.
  - pose proof (H (go "/w") (go "out/../w/g") ltac:(vm_compute; reflexivity)) as Ho. destruct (read_demo _ _ _) as [a m']. apply Ho.
    split_and!; [apply Hw..|by left]; by exists [go "g"].
  - pose proof (H (go "/w") (go "out/../w/g") ltac:(vm_compute; reflexivity)) as Ho. destruct (read_demo _ _ _) as [a m']. apply Ho.
  - pose proof (H (go "/x") (go "g") ltac:(vm_compute; reflexivity)) as Ho. destruct (read_demo _ _ _) as [a m']. apply Ho.
    intros (Hin%Hw&_). by apply (bool_decide_pack _) in Hin.
Defined.
