(* ===== verification/SessionIntegrity.v ===== *)
(** The integrity of a session under a [Static] policy: what its requests change lies inside the write roots. *)
From S2P Require Import Prelude GoMonad GoPath FsTypes Policy MemoryFS MemoryFSWf MemoryFSInv MemoryFSOps MemoryFSSafe MemoryFSProps MemoryFSResolve Confinement.
From S2P Require Import Effects CommandFS Session MemoryFSExamples.

(** ** Nodes from one state to a later one *)

(** Paths stay bound, nodes stay links or no links, and a node that is new is bound once. *)
Record extends (m m' : MemoryFS) : Prop := {
  ext_bound : ∀ p l, nodes m !! p = Some l → nodes m' !! p = Some l;
  ext_kind : ∀ l n, heap m !! l = Some n → ∃ n', heap m' !! l = Some n' ∧ isSymlink n' = isSymlink n;
  ext_once : ∀ p q l, heap m !! l = None → nodes m' !! p = Some l → nodes m' !! q = Some l → p = q;
}.

Lemma extends_refl m : wf m → extends m m.
Proof.
  intros Hwf. split; [done|intros l n Hn; by exists n|]. intros p q l Hl Hp. destruct (wf_key m Hwf _ _ Hp) as [_ [n Hn]]. congruence.
Qed.
Lemma quiet_symlink provider n n' : quiet provider n n' → isSymlink n' = isSymlink n.
Proof. intros (_&Hm&_). unfold isSymlink. by rewrite Hm. Qed.
Lemma extends_update m m' l n n' : extends m m' → heap m' !! l = Some n → isSymlink n' = isSymlink n → extends m (set_heap (<[l := n']> (heap m')) m').
Proof.
  intros [Hb Hk Ho] Hn Hs. split; [done| |done]. intros l0 n0 Hn0. destruct (Hk l0 n0 Hn0) as (n1&Hn1&Hs1). simpl. rewrite lookup_insert.
  case_decide; [|by exists n1]. subst. exists n'. split; [done|]. congruence.
Qed.
#[export] Instance extends_Invariant provider m : Invariant provider (extends m) (fun _ => True).
Proof.
  split.
  - intros m' n [Hx Hk Ho] Hf Hb. split; [done| |done]. intros l n0 (n1&Hn1&Hs)%Hk. exists n1. split; [|done]. simpl. rewrite lookup_insert_ne; [done|].
    intros <-. assert (next_loc m' < next_loc m')%positive; [|lia]. apply Hf. left. by rewrite Hn1.
  - intros m' id nl [Hb Hk Ho] _. by split.
  - intros m' abs l [Hb Hk Ho] _ Hno Hl _. split; [|done|].
    { intros p l0 Hp. simpl. rewrite lookup_insert_ne; [by apply Hb|]. intros <-. apply Hb in Hp. congruence. }
    intros p q l0 Hl0. simpl. rewrite !lookup_insert. repeat case_decide; simplify_eq; try done; naive_solver.
  - intros m' l n n' He Hn Hq. eapply extends_update; [done..|]. by eapply quiet_symlink.
Qed.

Section integrity.
Variable provider : nat → result error gostr.
Hypothesis provider_total : ∀ p, provider p ≠ Err EPanic.
Variable cfg : Config.

(** ** The guard *)

Abbreviation inside p := (within_roots cfg FileActionWrite p).
(** An open file may be written: all its paths are inside the write roots. *)
Definition writable (m : MemoryFS) (l : loc) : Prop := (∃ p, nodes m !! p = Some l) ∧ ∀ p, nodes m !! p = Some l → inside p.
(** A path on the way to one inside the write roots. *)
Definition on_the_way (p : gostr) : Prop := ∃ pre q, p = render pre ∧ valid_comps q ∧ pre `prefix_of` q ∧ inside (render q).
(** No file has names on both sides of the write roots; symbolic links may. *)
Definition apart (m : MemoryFS) : Prop :=
  ∀ p q l n, nodes m !! p = Some l → nodes m !! q = Some l → heap m !! l = Some n → isSymlink n = false → inside p → inside q.

(** What a session keeps from [m0] on, with the nodes [L] open, those with [true] for writing. *)
Record guarded (m0 : MemoryFS) (L : list (loc * bool)) (m : MemoryFS) : Prop := {
  gu_bound : ∀ p l, nodes m0 !! p = Some l → nodes m !! p = Some l;
  gu_new : ∀ p, is_Some (nodes m !! p) → is_Some (nodes m0 !! p) ∨ on_the_way p;
  gu_kept : ∀ p l n0, nodes m0 !! p = Some l → ¬ inside p → heap m0 !! l = Some n0 → ∃ n, heap m !! l = Some n ∧ quiet provider n0 n;
  gu_apart : apart m;
  gu_files : ∀ l w, (l, w) ∈ L → is_Some (heap m !! l) ∧ (w = true → writable m l);
}.

Lemma quiet_refl n : quiet provider n n.
Proof. by split_and!. Qed.
Lemma quiet_trans n1 n2 n3 : quiet provider n1 n2 → quiet provider n2 n3 → quiet provider n1 n3.
Proof. intros (?&?&?&?&?&?) (?&?&?&?&?&?). split_and!; [congruence..|auto]. Qed.

Lemma guarded_start m0 : wf m0 → apart m0 → guarded m0 [] m0.
Proof.
  intros Hwf Ha. split; [done|by left| |done|by intros l w ?%elem_of_nil]. intros p l n0 _ _ Hn. exists n0. split; [done|apply quiet_refl].
Qed.
Lemma guarded_more m0 L L' m : guarded m0 L m → (∀ l w, (l, w) ∈ L' → is_Some (heap m !! l) ∧ (w = true → writable m l)) → guarded m0 (L ++ L') m.
Proof. intros [] Hl. split; [done..|]. intros l w [?|?]%elem_of_app; auto. Qed.
Lemma is_Some_insert (h : gmap loc memoryNode) l k n : is_Some (h !! l) → is_Some (<[k := n]> h !! l).
Proof. intros H. rewrite lookup_insert. case_decide; [by eexists|done]. Qed.

(** The one assignment that is not quiet: to a node whose names are inside. *)
Lemma guarded_write m0 L m l n n' : guarded m0 L m → writable m l → heap m !! l = Some n → isSymlink n' = isSymlink n →
  guarded m0 L (set_heap (<[l := n']> (heap m)) m).
Proof.
  intros Hg [_ Hw] Hn Hs. split; [apply Hg|apply Hg| | |].
  - intros p l0 n0 Hp Hout Hn0. destruct (gu_kept _ _ _ Hg p l0 n0 Hp Hout Hn0) as (n1&Hn1&Hq). exists n1. split; [|done]. simpl.
    rewrite lookup_insert_ne; [done|]. intros ->. apply Hout, Hw. by apply (gu_bound _ _ _ Hg).
  - intros p q l0 n0 Hp Hq. simpl. rewrite lookup_insert. case_decide; [|by apply (gu_apart _ _ _ Hg)]. subst. intros [= <-] Hs'.
    apply (gu_apart _ _ _ Hg p q l0 n); [done..|]. congruence.
  - intros l0 w Hl0. destruct (gu_files _ _ _ Hg l0 w Hl0). split; [by apply is_Some_insert|done].
Qed.
#[export] Instance guarded_Invariant m0 L : Invariant provider (guarded m0 L) on_the_way.
Proof.
  split.
  - intros m n Hg Hf Hb. split; [apply Hg|apply Hg| | |].
    + intros p l n0 Hp Hout Hn0. destruct (gu_kept _ _ _ Hg p l n0 Hp Hout Hn0) as (n1&Hn1&Hq). exists n1. split; [|done]. simpl.
      rewrite lookup_insert_ne; [done|]. intros <-. assert (next_loc m < next_loc m)%positive; [|lia]. apply Hf. left. by rewrite Hn1.
    + intros p q l n0 Hp Hq. simpl. rewrite lookup_insert. case_decide as E; [|by apply (gu_apart _ _ _ Hg)]. subst. exfalso.
      assert (next_loc m < next_loc m)%positive; [|lia]. apply Hf. right. by exists p.
    + intros l0 w Hl0. destruct (gu_files _ _ _ Hg l0 w Hl0). split; [by apply is_Some_insert|done].
  - intros m id nl Hg _. by destruct Hg; split.
  - intros m abs l Hg HN Hno Hl _. split.
    + intros p l0 Hp. simpl. rewrite lookup_insert_ne; [by apply (gu_bound _ _ _ Hg)|]. intros <-. apply (gu_bound _ _ _ Hg) in Hp. congruence.
    + intros p. simpl. rewrite lookup_insert. case_decide; [subst; by right|apply (gu_new _ _ _ Hg)].
    + apply Hg.
    + intros p q l0 n0. simpl. rewrite !lookup_insert. intros Hp Hq. repeat case_decide; simplify_eq; try done; try (exfalso; naive_solver).
      by apply (gu_apart _ _ _ Hg p q l0 n0).
    + intros l0 w Hl0. destruct (gu_files _ _ _ Hg l0 w Hl0) as [Hs Hwr]. split; [done|]. intros [[p Hp] Hw]%Hwr.
      assert (l0 ≠ l) as Hne by (intros ->; by apply (Hl p)). split.
      * exists p. simpl. rewrite lookup_insert_ne; [done|]. congruence.
      * intros q. simpl. rewrite lookup_insert. case_decide; [congruence|apply Hw].
  - intros m l n n' Hg Hn Hq. pose proof (quiet_symlink _ _ _ Hq) as Hs. split; [apply Hg|apply Hg| | |].
    + intros p l0 n0 Hp Hout Hn0. destruct (gu_kept _ _ _ Hg p l0 n0 Hp Hout Hn0) as (n1&Hn1&Hq1). simpl. rewrite lookup_insert.
      case_decide; [|by exists n1]. subst. exists n'. split; [done|]. assert (n1 = n) as -> by congruence. by eapply quiet_trans.
    + intros p q l0 n0 Hp Hq'. simpl. rewrite lookup_insert. case_decide; [|by apply (gu_apart _ _ _ Hg)]. subst. intros [= <-] Hs'.
      apply (gu_apart _ _ _ Hg p q l0 n); [done..|]. congruence.
    + intros l0 w Hl0. destruct (gu_files _ _ _ Hg l0 w Hl0). split; [by apply is_Some_insert|done].
Qed.

(** ** Requests *)

Variable fs : CommandFS.
Hypothesis fs_pol : cfs_pol fs = Some (static_policy (NewStatic (Some cfg))).
Variable m0 : MemoryFS.
Variable L : list (loc * bool).

Abbreviation ok := (settled (guarded m0 L)).

Lemma cleared_inside m action abs cs : clean_abs abs → cleared fs m action abs → action = FileActionWrite ∨ action = FileActionMkdir →
  creates m (comps (Resolve (cwd m) abs)) cs → inside (render cs).
Proof using fs_pol. intros Habs Hc Ha Hcs. rewrite Resolve_clean_comps in Hcs by done. by apply (Hc cfg fs_pol Ha). Qed.
Lemma cleared_way m action abs : clean_abs abs → cleared fs m action abs → action = FileActionWrite ∨ action = FileActionMkdir →
  way_to on_the_way m (comps (Resolve (cwd m) abs)).
Proof using fs_pol.
  intros Habs Hc Ha q pre Hq Hpre. exists pre, q. split_and!; [done|by destruct Hq|done|]. by eapply cleared_inside.
Qed.
(** A node found at a checked path is one that may be written. *)
Lemma inside_writable m cs l n : guarded m0 L m → nodes m !! render cs = Some l → heap m !! l = Some n → isSymlink n = false →
  inside (render cs) → writable m l.
Proof using. intros Hg Hl Hn Hs Hin. split; [by eexists|]. intros p Hp. by apply (gu_apart _ _ _ Hg (render cs) p l n). Qed.
Lemma creates_nolink m ts cs l n : wf m → creates m ts cs → nodes m !! render cs = Some l → heap m !! l = Some n → isSymlink n = false.
Proof using. intros Hwf Hc Hl Hn. destruct (creates_lands m ts cs Hwf Hc) as [_ H]. by eapply H. Qed.

Lemma kept_write m l n n' : kept (guarded m0 L) m → writable m l → heap m !! l = Some n → isSymlink n' = isSymlink n →
  kept (guarded m0 L) (set_heap (<[l := n']> (heap m)) m).
Proof using.
  intros [Hg Hf] Hw Hn Hs. split; [by eapply guarded_write|]. intros l' [H|H]; [|apply Hf; by right]. apply Hf. left. simpl in H.
  rewrite lookup_insert in H. case_decide; [subst; by rewrite Hn|done].
Qed.

Lemma OpenFile_ok now abs flag perm m : clean_abs abs → ok m → (openFileHasWriteIntent flag = true → cleared fs m FileActionWrite abs) →
  ends (raw (OpenFile provider now abs flag perm)) m ok (fun f m' => ∀ mf, f = MemFile mf →
    f_flag mf = flag ∧ is_Some (heap m' !! f_node mf) ∧ (canWrite flag = true → writable m' (f_node mf))).
Proof using provider_total fs_pol.
  intros Habs Hm Hc. pose proof Hm as [Hwf Hg].
  assert (keeps (guarded m0 L) (OpenFile provider now abs flag perm) m (fun _ _ => True)) as Hk.
  { apply (keeps_OpenFile provider _ on_the_way); [done|done|by apply settled_kept| |].
    - intros Hcr. eapply cleared_way; [done|by apply Hc, create_writes|by left].
    - intros m1 cs l n Hm1 Hwf1 Hsv Hcs Hl Hn Hd Ht Hw. eapply kept_write; [done| |done|done].
      eapply inside_writable; [apply Hm1|done|done| |]; [eapply creates_nolink; [done| |done|done]; by apply (creates_view _ _ _ _ Hsv)|].
      eapply cleared_inside; [done|by apply Hc, canWrite_writes|by left|done]. }
  pose proof (OpenFile_spec provider provider_total now abs flag perm m Hwf) as Hs.
  assert (keeps (extends m) (OpenFile provider now abs flag perm) m (fun _ _ => True)) as Hx.
  { apply (keeps_OpenFile provider _ (fun _ => True)); [done|done|split; [by apply extends_refl|by apply wf_is_fresh]|done|].
    intros m1 cs l n [Hx Hf] Hwf1 _ _ _ Hn _ _ _. split; [by eapply extends_update|]. intros l' [H|H]; [|apply Hf; by right]. apply Hf. left. simpl in H.
    rewrite lookup_insert in H. case_decide; [subst; by rewrite Hn|done]. }
  unfold ends, raw, keeps, wp in *. destruct (OpenFile provider now abs flag perm m) as [[f|e] m']; simpl.
  - destruct Hs as (Hwf'&p&l&Ht&Hl&Ho&Hnew&_), Hk as [[Hg' _] _], Hx as [[Hx _] _]. split; [by split|]. intros ? [= <-] mf ->.
    destruct Ho as (_&<-&<-&_&n&Hn&_). split_and!; [done|by eexists|]. intros Hw.
    apply open_target_lands in Ht; [|done]. destruct (create_lands _ _ _ _ Hwf Ht) as (cs&Hcs&->&_).
    assert (creates m (comps (Resolve (cwd m) abs)) cs) as Hcr.
    { split; [done|]. exists (S maxSymlinkDepth). destruct (cwd_resolve m abs Hwf) as (rs&Hrs&Er). by rewrite Er, comps_render in * by done. }
    assert (inside (render cs)) as Hin by (eapply cleared_inside; [done|by apply Hc, canWrite_writes|by left|done]).
    destruct (nodes m !! render cs) as [l0|] eqn:E0.
    + assert (l0 = f_node mf) as ->. { apply (ext_bound _ _ Hx) in E0. congruence. }
      destruct (wf_key m Hwf _ _ E0) as [_ [n0 Hn0]]. destruct (ext_kind _ _ Hx _ _ Hn0) as (n1&Hn1&Hs1).
      apply (inside_writable m' cs (f_node mf) n1); [done..| |done]. by rewrite Hs1, (creates_nolink m _ cs _ n0 Hwf Hcr E0 Hn0).
    + split; [by eexists|]. intros q Hq. by rewrite (ext_once _ _ Hx q (render cs) (f_node mf) (Hnew eq_refl) Hq Hl).
  - split; [|done]. destruct Hs as [_ Hwf'], Hk as [Hg' _]. by split.
Qed.

(** *** Calls *)

Lemma ok_kept m : ok m → kept (guarded m0 L) m.
Proof using. apply settled_kept. Qed.
(** The calls that only load or create. *)
Lemma making_ends {A} action name (c : gostr → MemoryFS.M A) m : ok m → (∀ abs, safe (c abs)) → action = FileActionWrite ∨ action = FileActionMkdir →
  (∀ abs m', wf m' → kept (guarded m0 L) m' → way_to on_the_way m' (comps (Resolve (cwd m') abs)) → keeps (guarded m0 L) (c abs) m' (fun _ _ => True)) →
  ends (abs ← prepare provider fs action name; raw (c abs)) m ok (fun _ _ => True).
Proof using provider_total fs_pol.
  intros Hm Hs Ha Hk. apply (prepared_ends provider provider_total fs _ on_the_way); [done..|]. intros abs m' Habs Hm' Hsv Hc. apply Hk; [apply Hm'|by apply ok_kept|].
  eapply cleared_way; [done| |done]. by eapply cleared_view.
Qed.
Lemma looking_ends {A} action name (c : gostr → MemoryFS.M A) m : ok m → (∀ abs, safe (c abs)) →
  (∀ abs m', kept (guarded m0 L) m' → keeps (guarded m0 L) (c abs) m' (fun _ _ => True)) →
  ends (abs ← prepare provider fs action name; raw (c abs)) m ok (fun _ _ => True).
Proof using provider_total.
  intros Hm Hs Hk. apply (prepared_ends provider provider_total fs _ on_the_way); [done..|]. intros abs m' _ Hm' _ _. by apply Hk, ok_kept.
Qed.
(** The calls that assign to the metadata of the file that a checked path leads to. *)
Lemma assigning_ends op name (f : memoryNode → memoryNode) rb m : ok m → (∀ abs, safe (update_meta op abs true rb f)) → (∀ n, isSymlink (f n) = isSymlink n) →
  ends (abs ← prepare provider fs FileActionWrite name; raw (update_meta op abs true rb f)) m ok (fun _ _ => True).
Proof using provider_total fs_pol.
  intros Hm Hs Hf. apply (prepared_ends provider provider_total fs _ on_the_way); [done..|]. intros abs m' Habs Hm' Hsv Hc.
  apply keeps_update_meta; [apply Hm'|by apply ok_kept|]. intros cs l n Hcs Hr Hl Hn Hff. destruct (Hff eq_refl) as [Hcr Hnl].
  apply (kept_write m' l n); [by apply ok_kept| |done|done]. apply (inside_writable m' cs l n); [apply Hm'|done..|].
  eapply cleared_inside; [done|by eapply cleared_view|by left|done].
Qed.
(** A hard link to a file inside, or to a symbolic link. *)
Lemma guarded_link m os cs l n : guarded m0 L m → inside (render cs) → valid_comps cs → nodes m !! render os = Some l → heap m !! l = Some n →
  (isSymlink n = false → inside (render os)) → nodes m !! render cs = None → guarded m0 L (set_nodes (<[render cs := l]> (nodes m)) m).
Proof using.
  intros Hg Hin Hcs Ho Hn Hos Hno. split.
  - intros p l0 Hp. simpl. rewrite lookup_insert_ne; [by apply (gu_bound _ _ _ Hg)|]. intros <-. apply (gu_bound _ _ _ Hg) in Hp. congruence.
  - intros p. simpl. rewrite lookup_insert. case_decide; [subst|apply (gu_new _ _ _ Hg)]. intros _. right. by exists cs, cs.
  - apply Hg.
  - intros p q l0 n0. simpl. rewrite !lookup_insert. intros Hp Hq Hn0 Hs. repeat case_decide; simplify_eq; try done.
    + intros _. eapply (gu_apart _ _ _ Hg (render os) q); eauto.
    + by eapply (gu_apart _ _ _ Hg p q).
  - intros l0 w Hl0. destruct (gu_files _ _ _ Hg l0 w Hl0) as [Hs Hw]. split; [done|]. intros [[p Hp] Hall]%Hw. split.
    + exists p. simpl. rewrite lookup_insert_ne; [done|]. congruence.
    + intros q. simpl. rewrite lookup_insert. case_decide; [by subst|apply Hall].
Qed.
Lemma Link_ends now oldName newName m : ok m → ends (cmd_Link provider now fs oldName newName) m ok (fun _ _ => True).
Proof using provider_total fs_pol.
  intros Hm. unfold cmd_Link. apply ends_bind, (prepare_ends provider provider_total fs _ on_the_way); [done|]. intros old m1 Hm1 Hold Hsv1 _.
  apply ends_bind, (check_ends provider provider_total fs _ on_the_way); [done..|]. intros m2 Hm2 Hsv2 Hc2.
  apply ends_bind, (prepare_ends provider provider_total fs _ on_the_way); [done|]. intros new m3 Hm3 Hnew Hsv3 Hc3.
  apply ends_call; [by apply Link_safe|done|]. intros Hk. pose proof Hm3 as [Hwf3 _].
  apply (keeps_Link provider _ on_the_way); [done..| |].
  - eapply cleared_way; [done|by eapply cleared_view|by left].
  - intros m4 os cs l n n1 [Hg4 Hf4] Hos Hr Hn Hd Hcs Ho Hn1 Hs Hno. destruct Hcs as [Hcs Hcr].
    assert (inside (render cs)) as Hin by (eapply cleared_inside; [done|by eapply cleared_view|by left|by split]).
    split; [|intros l' [H|[q Hq]]; [apply Hf4; by left|]; simpl in Hq; rewrite lookup_insert in Hq; apply Hf4; right;
      case_decide; simplify_eq; [by exists (render os)|by exists q]].
    apply (guarded_link m4 os cs l n1); try done. intros Hs1. rewrite Hs1 in Hs. symmetry in Hs.
    unfold resolvePathLocked, resolveAbsLocked in Hr. destruct (cwd_resolve m3 old Hwf3) as (rs&Hrs&Er). rewrite Er in Hr.
    apply resolve_nofollow in Hr; [|by intros; simplify_eq]. eapply (cleared_inside m3 FileActionWrite old); [done| |by left|].
    + eapply cleared_view; [|exact Hc2]. by etrans.
    + rewrite Er, comps_render by done. by eapply (creates_existing m3 rs os).
Qed.

(** *** Open files *)

Lemma file_keeps now f w : (f_node f, w) ∈ L → (canWrite (f_flag f) = true → w = true) →
  (∀ k m, ok m → ok (file_Read provider f k m).2) ∧ (∀ p m, ok m → ok (file_Write provider now f p m).2) ∧ (∀ m, ok m → ok (file_Stat provider f m).2).
Proof using provider_total.
  intros HL Hw.
  assert (∀ A (c : MemoryFS.M A) m Q Q', ok m → wp c m (fun a m' => wf m' ∧ Q a m') → keeps (guarded m0 L) c m Q' → ok (c m).2) as Hboth.
  { intros A c m Q Q' _ Hwp Hk. unfold wp, keeps, settled, kept in *. destruct (c m) as [[a|e] m']; simpl in *; tauto. }
  assert (∀ m, ok m → is_Some (heap m !! f_node f)) as Hs by (intros m [_ Hg]; by destruct (gu_files _ _ _ Hg _ _ HL)).
  split_and!.
  - intros k m Hm. eapply Hboth; [done|apply wp_file_Read; [done|apply Hm|by apply Hs]|by apply (keeps_file_Read _ _ on_the_way), ok_kept].
  - intros p m Hm. eapply Hboth; [done|apply wp_file_Write; [done|apply Hm|by apply Hs]|].
    apply (keeps_file_Write _ _ on_the_way); [by apply ok_kept|]. intros m1 n Hm1 Hsv Hn Hcw _ _. cbv zeta. apply (kept_write m1 _ n); [done| |done|done].
    destruct Hm1 as [Hg1 _]. by apply (gu_files _ _ _ Hg1 _ _ HL), Hw.
  - intros m Hm. eapply (Hboth _ _ m (fun _ _ => True)); [done|eapply wp_mono; [apply file_Stat_safe; [done|apply Hm|by apply Hs]|done]|by apply (keeps_file_Stat _ _ on_the_way), ok_kept].
Qed.
End integrity.

(** ** Sessions *)

Definition handle_nodes (h : handle) : list (loc * bool) :=
  match h with HFile lf => [(f_node (limited_node lf), canWrite (f_flag (limited_node lf)))] | HFifo _ _ _ => [] end.
Definition open_nodes (s : session) : list (loc * bool) := mjoin (handle_nodes <$> ss_handles s).

(** The requests of the theorem.  A link behind a linked directory is followed by the filesystem where it should not be, so removing,
    renaming and changing the owner of a link can reach outside (see [MemoryFSExamples.remove_escapes_roots]). *)
Definition confined_request (r : request) : Prop :=
  match r with ReqRemove _ _ | ReqRename _ _ => False | ReqChown _ _ _ follow => follow = true | _ => True end.

Section session.
Variable provider : nat → result error gostr.
Hypothesis provider_total : ∀ p, provider p ≠ Err EPanic.
Variable cfg : Config.
Variable m0 : MemoryFS.

Definition session_ok (s : session) : Prop :=
  cfs_pol (ss_fs s) = Some (static_policy (NewStatic (Some cfg))) ∧ settled (guarded provider cfg m0 (open_nodes s)) (ss_mem s).

Lemma open_nodes_same (hs : list handle) i h h' : hs !! i = Some h → handle_nodes h' = handle_nodes h →
  mjoin (handle_nodes <$> <[i := h']> hs) = mjoin (handle_nodes <$> hs).
Proof using. intros Hi Hh. rewrite list_fmap_insert, list_insert_id; [done|]. by rewrite list_lookup_fmap, Hi, Hh. Qed.

Lemma call_ok {A} (c : C A) answer s : session_ok s →
  ends c (ss_mem s) (settled (guarded provider cfg m0 (open_nodes s))) (fun _ _ => True) → session_ok (call c answer s).2.
Proof using. intros [Hp Hm] [Hc _]. unfold call. destruct (c (ss_mem s)) as [[a|e] m']; by split. Qed.
Lemma call_open_ok (c : C handle) s : session_ok s →
  ends c (ss_mem s) (settled (guarded provider cfg m0 (open_nodes s))) (fun h m' => ∀ l w, (l, w) ∈ handle_nodes h → is_Some (heap m' !! l) ∧ (w = true → writable cfg m' l)) →
  session_ok (call_open c s).2.
Proof using.
  intros [Hp Hm] [Hc Hh]. unfold call_open. destruct (c (ss_mem s)) as [[h|e] m']; [|by split]. split; [done|]. destruct Hc as [Hwf Hg]. split; [done|].
  unfold open_nodes. cbn [ss_handles ss_mem snd]. rewrite fmap_app, join_app. apply guarded_more; [done|]. intros l w. simpl. rewrite app_nil_r. by apply Hh.
Qed.
Lemma on_handle_ok h f s : session_ok s →
  (∀ lf, ss_handles s !! h = Some (HFile lf) → ∀ r lf' m', f lf (ss_mem s) = (r, lf', m') →
    handle_nodes (HFile lf') = handle_nodes (HFile lf) ∧ settled (guarded provider cfg m0 (open_nodes s)) m') →
  session_ok (on_handle h f s).2.
Proof using.
  intros [Hp Hm] Hf. unfold on_handle. destruct (ss_handles s !! h) as [[lf|]|] eqn:E; [|by split..].
  specialize (Hf lf eq_refl). destruct (f lf (ss_mem s)) as [[r lf'] m']. destruct (Hf r lf' m' eq_refl) as [Hh Hm']. split; [done|].
  unfold open_nodes. cbn [ss_handles ss_mem snd]. by rewrite (open_nodes_same _ _ (HFile lf)).
Qed.
Lemma open_handle_nodes s h lf : ss_handles s !! h = Some (HFile lf) → (f_node (limited_node lf), canWrite (f_flag (limited_node lf))) ∈ open_nodes s.
Proof using.
  intros Hh. unfold open_nodes. apply list_elem_of_join. exists (handle_nodes (HFile lf)). split; [by apply list_elem_of_here|].
  apply list_elem_of_fmap. exists (HFile lf). split; [done|]. by eapply list_elem_of_lookup_2.
Qed.
(** A method of an open file that keeps what the calls on its node keep. *)
Lemma file_method_ok now h f s : session_ok s →
  (∀ lf r lf' m', ss_handles s !! h = Some (HFile lf) →
    (∀ f' k m, f_node f' = f_node (limited_node lf) → f_flag f' = f_flag (limited_node lf) → settled (guarded provider cfg m0 (open_nodes s)) m →
       settled (guarded provider cfg m0 (open_nodes s)) (file_Read provider f' k m).2) →
    (∀ f' p m, f_node f' = f_node (limited_node lf) → f_flag f' = f_flag (limited_node lf) → settled (guarded provider cfg m0 (open_nodes s)) m →
       settled (guarded provider cfg m0 (open_nodes s)) (file_Write provider now f' p m).2) →
    (∀ f' m, f_node f' = f_node (limited_node lf) → f_flag f' = f_flag (limited_node lf) → settled (guarded provider cfg m0 (open_nodes s)) m →
       settled (guarded provider cfg m0 (open_nodes s)) (file_Stat provider f' m).2) →
    f lf (ss_mem s) = (r, lf', m') →
    of_file (f_node (limited_node lf)) (f_flag (limited_node lf)) (limited_node lf') ∧ settled (guarded provider cfg m0 (open_nodes s)) m') →
  session_ok (on_handle h f s).2.
Proof using provider_total.
  intros Hs Hf. apply on_handle_ok; [done|]. intros lf Hh r lf' m' E. pose proof (open_handle_nodes s h lf Hh) as Hin.
  assert (∀ f', f_node f' = f_node (limited_node lf) → f_flag f' = f_flag (limited_node lf) → (f_node f', canWrite (f_flag f')) ∈ open_nodes s) as Hin' by (by intros f' -> ->).
  destruct (Hf lf r lf' m' Hh) as [[Hn Hfl] Hm']; [..|done|split; [|done]].
  - intros f' k m Hn Hfl Hm. by eapply (file_keeps provider provider_total cfg m0 (open_nodes s) now f'); [by apply Hin'|..].
  - intros f' p m Hn Hfl Hm. by eapply (file_keeps provider provider_total cfg m0 (open_nodes s) now f'); [by apply Hin'|..].
  - intros f' m Hn Hfl Hm. by eapply (file_keeps provider provider_total cfg m0 (open_nodes s) now f'); [by apply Hin'|..].
  - simpl. by rewrite Hn, Hfl.
Qed.
Lemma open_read_ok now name s : session_ok s → session_ok (call_open (cmd_Open provider now (ss_fs s) name) s).2.
Proof using provider_total.
  intros Hs. pose proof Hs as [Hp Hm]. apply call_open_ok; [done|]. unfold cmd_Open.
  apply ends_bind, (prepare_ends provider provider_total _ _ (on_the_way cfg)); [done|]. intros abs m1 Hm1 Habs _ _. apply ends_bind.
  eapply ends_mono; [by apply (OpenFile_ok provider provider_total cfg (ss_fs s) Hp)|]. intros f m2 Hm2 Hf. apply ends_ret; [done|].
  intros l w. destruct f as [f|]; simpl; [|by intros ?%elem_of_nil]. intros [= -> ->]%list_elem_of_singleton.
  destruct (Hf f eq_refl) as (Hfl&Hsome&_). split; [done|]. by rewrite Hfl.
Qed.
Lemma open_file_ok now name flag perm s : session_ok s → session_ok (call_open (cmd_OpenFile provider now (ss_fs s) name flag perm) s).2.
Proof using provider_total.
  intros Hs. pose proof Hs as [Hp Hm]. apply call_open_ok; [done|]. unfold cmd_OpenFile.
  apply ends_bind, ResolveAt_ends; [done|]. intros abs Habs. apply ends_bind.
  apply (ends_mono _ _ _ (fun _ _ => True)).
  { destruct (negb _); [|by apply ends_ret]. by apply (check_ends provider provider_total _ _ (on_the_way cfg)). }
  intros [] m1 Hm1 _. apply ends_bind. apply (ends_mono _ _ _ (fun _ m' => openFileHasWriteIntent flag = true → cleared (ss_fs s) m' FileActionWrite abs)).
  { destruct (openFileHasWriteIntent flag); [|by apply ends_ret]. apply (check_ends provider provider_total _ _ (on_the_way cfg)); [done..|].
    intros m2 Hm2 Hsv Hc _. by eapply cleared_view. }
  intros [] m2 Hm2 Hc. apply ends_bind. eapply ends_mono; [by apply (OpenFile_ok provider provider_total cfg (ss_fs s) Hp)|].
  intros f m3 Hm3 Hf. unfold ends, limit_opened. destruct f as [f|]; simpl; [|split; [done|]; by intros a [= <-] l w ?%elem_of_nil].
  destruct (Hf f eq_refl) as (Hfl&Hsome&Hw).
  assert (settled (guarded provider cfg m0 (open_nodes s ++ [(f_node f, canWrite flag)])) m3) as Hm4.
  { destruct Hm3 as [Hwf3 Hg3]. split; [done|]. apply guarded_more; [done|]. by intros l w [= -> ->]%list_elem_of_singleton. }
  destruct (LimitFileSize f flag (MaxFileBytes (cfs_limits (ss_fs s))) m3) as [lf m4] eqn:El.
  assert (∀ f' m, f_node f' = f_node f → f_flag f' = f_flag f → settled (guarded provider cfg m0 (open_nodes s ++ [(f_node f, canWrite flag)])) m →
    settled (guarded provider cfg m0 (open_nodes s ++ [(f_node f, canWrite flag)])) (file_Stat provider f' m).2) as Hstat.
  { intros f' m Hn' Hf' Hm'. eapply (file_keeps provider provider_total cfg m0 _ now f' (canWrite flag)); [|by rewrite Hf', Hfl|done].
    rewrite Hn'. apply elem_of_app. right. by apply list_elem_of_here. }
  destruct (LimitFileSize_J provider now _ _ _ Hstat f flag _ m3 lf m4 ltac:(done) Hm4 El) as [[Hwf4 Hg4] Hn].
  simpl. split.
  - split; [done|]. destruct Hg4. split; try done. intros l w Hl. apply gu_files0, elem_of_app. by left.
  - intros a [= <-] l w. simpl. intros [= -> ->]%list_elem_of_singleton. rewrite Hn, Hfl. apply (gu_files _ _ _ _ _ Hg4), elem_of_app. right. by apply list_elem_of_here.
Qed.
Lemma ReadDir_state name m : (ReadDir name m).2 = m.
Proof using. unfold ReadDir, get, resolve_existing, throw_path, throw, load, mbind, M_bind, mret, M_ret. by repeat (case_match; simplify_eq/=). Qed.
Lemma Readlink_state name m : (Readlink name m).2 = m.
Proof using. unfold Readlink, get, resolve_existing, throw_path, throw, load, mbind, M_bind, mret, M_ret. by repeat (case_match; simplify_eq/=). Qed.
Lemma Realpath_state name m : (Realpath name m).2 = m.
Proof using. unfold Realpath, get, resolve_existing, throw_path, throw, load, mbind, M_bind, mret, M_ret. by repeat (case_match; simplify_eq/=). Qed.
Lemma Lchtimes_ends now name atime mtime s : session_ok s →
  ends (cmd_Lchtimes provider now (ss_fs s) name atime mtime) (ss_mem s) (settled (guarded provider cfg m0 (open_nodes s))) (fun _ _ => True).
Proof using provider_total.
  intros [Hp Hm]. apply (prepared_ends provider provider_total _ _ (on_the_way cfg)); [done|intros; apply Lchtimes_safe|]. intros abs m' Habs Hm' _ _.
  apply keeps_update_meta; [apply Hm'|by apply settled_kept|]. intros cs l n Hcs Hr Hl Hn _. apply (kept_quiet provider _ (on_the_way cfg) l n); [by apply settled_kept|done|by split_and!].
Qed.
(** Every request of the theorem keeps the guard. *)
Lemma request_ok now r s : session_ok s → confined_request r → session_ok (run_request provider now r s).2.
Proof using provider_total.
  intros Hs Hr. pose proof Hs as [Hp Hm]. destruct r; cbn [run_request confined_request] in *; try done;
    try (apply call_ok; [done|]; apply (looking_ends provider provider_total cfg); [done|by intros; (apply stat_safe||apply ReadDir_safe||apply Readlink_safe||apply Realpath_safe)|];
      intros abs m' Hk; first [apply keeps_pure; [done|by first [apply ReadDir_state|apply Readlink_state|apply Realpath_state]]
        |eapply keeps_mono; [by apply (keeps_stat provider _ (on_the_way cfg))|done]]).
  - by apply open_read_ok.
  - by apply open_file_ok.
  - apply file_method_ok with (now := now); [done|]. intros lf r lf' m' Hh HR HW HS E. destruct (limited_Read provider now lf k (ss_mem s)) as [[[p err] f1] m1] eqn:E1. injection E as <- <- <-.
    by apply and_comm, (limited_Read_J provider now _ _ _ HR lf k (ss_mem s) (p, err) f1 m1).
  - apply file_method_ok with (now := now); [done|]. intros lf r lf' m' Hh HR HW HS E. destruct (limited_Write provider now lf p (ss_mem s)) as [[[n err] f1] m1] eqn:E1. injection E as <- <- <-.
    by apply and_comm, (limited_Write_J provider now _ _ _ HW HS lf p (ss_mem s) (n, err) f1 m1).
  - apply file_method_ok with (now := now); [done|]. intros lf r lf' m' Hh HR HW HS E. destruct (limited_Stat provider now lf (ss_mem s)) as [i m1] eqn:E1. injection E as <- <- <-.
    split; [done|]. by apply (Stat_J provider now _ _ _ HS (limited_node lf) (ss_mem s) i m1).
  - apply on_handle_ok; [done|]. intros lf Hh r lf' m' [= <- <- <-]. split; [|done]. simpl. by destruct (limited_Close_node lf) as [-> ->].
  - apply call_ok; [done|]. apply (making_ends provider provider_total cfg _ Hp); [done|by intros; apply Symlink_safe|by left|]. intros. by apply (keeps_Symlink provider _ (on_the_way cfg)).
  - apply call_ok; [done|]. by apply (Link_ends provider provider_total cfg _ Hp).
  - subst follow. apply call_ok; [done|]. by apply (assigning_ends provider provider_total cfg _ Hp); [|intros; apply Chown_safe|].
  - apply call_ok; [done|]. apply (assigning_ends provider provider_total cfg _ Hp); [done|intros; apply Chmod_safe|]. intros n. rewrite !isSymlink_testbit. by apply chmod_bit.
  - apply call_ok; [done|]. by apply (assigning_ends provider provider_total cfg _ Hp); [|intros; apply Chtimes_safe|].
  - apply call_ok; [done|]. by apply Lchtimes_ends.
  - apply call_ok; [done|]. apply (making_ends provider provider_total cfg _ Hp); [done|by intros; apply MkdirAll_safe|by right|]. intros. by apply (keeps_MkdirAll provider _ (on_the_way cfg)).
  - apply call_ok; [done|]. apply (making_ends provider provider_total cfg _ Hp); [done|by intros; apply Mkfifo_safe|by left|]. intros. by apply (keeps_Mkfifo provider _ (on_the_way cfg)).
Qed.
End session.

(** Outside the write roots a path on the way to one is above a root. *)
Lemma on_the_way_above cfg p : on_the_way cfg p → ¬ within_roots cfg FileActionWrite p →
  ∃ root, root ∈ configured_roots cfg FileActionWrite ∧ comps p `prefix_of` comps root.
Proof.
  intros (pre&q&->&Hq&Hpre&Hin) Hout. destruct Hin as [Hno|(root&Hr&Hpr)]; [by destruct Hout; left|]. exists root. split; [done|].
  assert (valid_comps pre) as Hv by (destruct Hpre as [k ->]; by apply Forall_app in Hq as [? _]).
  rewrite comps_render in * by done. destruct (prefix_weak_total (comps root) pre q Hpr Hpre) as [H|H]; [|done].
  destruct Hout. right. exists root. by rewrite comps_render.
Qed.

(** C2: what a session changes lies inside the write roots.  Under a [Static] policy, from a well-formed filesystem in which
    no file has names both inside and outside the write roots, after any sequence of requests of commands (opening, reading
    and writing files, making links, directories and pipes, changing modes, owners and times, moving about; all but the
    removals, renames and changes of a link's owner that the findings are about), every path outside the write roots that was
    bound is bound to the same node, with the same bytes, mode, owner and link target; and a path outside that has become
    bound is above a write root. *)
Theorem session_integrity provider cfg m0 cwd rs :
  wf m0 → (∀ p, provider p ≠ Err EPanic) → apart cfg m0 → (∀ now r, (now, r) ∈ rs → confined_request r) →
  let m := ss_mem (run provider rs (start cwd (Some (static_policy (NewStatic (Some cfg)))) m0)).2 in
  wf m ∧ ∀ p, ¬ within_roots cfg FileActionWrite p →
    (∀ l n0, nodes m0 !! p = Some l → heap m0 !! l = Some n0 → nodes m !! p = Some l ∧ ∃ n, heap m !! l = Some n ∧
       content provider n = content provider n0 ∧ n_mode n = n_mode n0 ∧ n_uid n = n_uid n0 ∧ n_gid n = n_gid n0 ∧ n_target n = n_target n0) ∧
    (nodes m0 !! p = None → is_Some (nodes m !! p) → ∃ root, root ∈ configured_roots cfg FileActionWrite ∧ comps p `prefix_of` comps root).
Proof.
  intros Hwf Hp Ha Hrs m.
  assert (session_ok provider cfg m0 (run provider rs (start cwd (Some (static_policy (NewStatic (Some cfg)))) m0)).2) as [_ [Hwf' Hg]].
  { apply (run_invariant provider _ confined_request); [by intros; apply request_ok| |done]. split; [done|]. split; [done|]. by apply guarded_start. }
  split; [exact Hwf'|]. intros p Hout. split.
  - intros l n0 Hl Hn0. split; [by apply (gu_bound _ _ _ _ _ Hg)|]. destruct (gu_kept _ _ _ _ _ Hg p l n0 Hl Hout Hn0) as (n&Hn&Hq&?&?&?&?&_). by exists n.
  - intros Hno Hsome. destruct (gu_new _ _ _ _ _ Hg p Hsome) as [[l Hl]|Hw]; [congruence|]. by apply on_the_way_above.
Qed.

(** The sandbox of the examples: commands read everything and write below "/w". *)
Definition demo_cfg : Config := Build_Config [] [] [go "/"] [go "/w"] zeroLimits SymlinkFollow.
Definition demo_session (rs : list (time * request)) : list response * session :=
  run no_lazy rs (start (go "/w") (Some (static_policy (NewStatic (Some demo_cfg)))) demo_fs).
(** A check of [apart] on a concrete filesystem. *)
Definition apart_check (cfg : Config) (m : MemoryFS) : bool :=
  forallb (fun e1 => forallb (fun e2 =>
    negb (bool_decide (e1.2 = e2.2) && bool_decide (AllowPath (NewStatic (Some cfg)) FileActionWrite e1.1 = None))
    || bool_decide (AllowPath (NewStatic (Some cfg)) FileActionWrite e2.1 = None)) (map_to_list (nodes m))) (map_to_list (nodes m)).
Lemma apart_check_apart cfg m : apart_check cfg m = true → apart cfg m.
Proof.
  unfold apart_check. rewrite forallb_forall. intros H p q l n Hp Hq _ _ Hin.
  specialize (H (p, l)). rewrite forallb_forall in H. specialize (H ltac:(by apply list_elem_of_In, elem_of_map_to_list) (q, l) ltac:(by apply list_elem_of_In, elem_of_map_to_list)).
  simpl in H. apply AllowPath_within. apply AllowPath_within in Hin. rewrite Hin in H. rewrite !bool_decide_eq_true_2 in H by done. simpl in H. by apply bool_decide_eq_true in H.
Qed.
Definition demo_requests : list (time * request) := [
  (8, ReqOpenFile (go "out/../w/d/f") (N.lor O_WRONLY O_TRUNC) 420);
  (8, ReqWrite 0 (go "bye"));
  (9, ReqOpenFile (go "/w/out/passwd") (N.lor O_WRONLY O_CREATE) 420);
  (9, ReqSymlink (go "/etc") (go "/w/etc"));
  (9, ReqMkdirAll (go "/w/etc/x") 493);
  (9, ReqMkdirAll (go "/w/x/y") 493);
  (9, ReqChmod (go "out") 511);
  (9, ReqLink (go "/w/d/f") (go "/etc/f"));
  (9, ReqLink (go "/w/d/f") (go "/w/x/f"))
].
Example demo_session_answers : (demo_session demo_requests).1 = [
  ResHandle 0; ResWrote 3 None;
  ResFailed (MkExit 126 (EDenied FileActionWrite (go "/etc/passwd") (go "outside allowed roots"))); ResDone;
  ResFailed (MkExit 126 (EDenied FileActionMkdir (go "/etc/x") (go "outside allowed roots"))); ResDone;
  ResFailed (MkExit 126 (EDenied FileActionWrite (go "/etc") (go "outside allowed roots")));
  ResFailed (MkExit 126 (EDenied FileActionWrite (go "/etc/f") (go "outside allowed roots"))); ResDone].
Proof. vm_compute. reflexivity. Qed.

Lemma demo_requests_confined now r : (now, r) ∈ demo_requests → confined_request r.
Proof. unfold demo_requests. rewrite !elem_of_cons, elem_of_nil. naive_solver. Qed.
Lemma session_integrity_witness :
  let m := ss_mem (demo_session demo_requests).2 in
  apart demo_cfg demo_fs ∧ wf m ∧ ¬ within_roots demo_cfg FileActionWrite (go "/etc") ∧ ∃ l, nodes demo_fs !! go "/etc" = Some l ∧ nodes m !! go "/etc" = Some l.
Proof.
  intros m. assert (apart demo_cfg demo_fs) as Ha by (apply apart_check_apart; vm_compute; reflexivity).
  destruct (session_integrity no_lazy demo_cfg demo_fs (go "/w") demo_requests demo_wf no_lazy_total Ha demo_requests_confined) as [Hwf Hall].
  assert (¬ within_roots demo_cfg FileActionWrite (go "/etc")) as Hout by (rewrite <- AllowPath_within; vm_compute; discriminate).
  split; [exact Ha|]. split; [exact Hwf|]. split; [exact Hout|].
  destruct (nodes demo_fs !! go "/etc") as [l|] eqn:E; [|vm_compute in E; discriminate].
  destruct (wf_key demo_fs demo_wf _ _ E) as [_ [n Hn]]. exists l. split; [reflexivity|]. exact (proj1 (proj1 (Hall (go "/etc") Hout) l n E Hn)).
Defined.
