(* ===== verification/SessionLimit.v ===== *)
(** The size of the files of a session: what is written through capped handles stays below the cap, whatever the
    session does. *)
From S2P Require Import Prelude GoMonad GoPath FsTypes Policy MemoryFS MemoryFSWf MemoryFSInv MemoryFSTree MemoryFSOps MemoryFSMove MemoryFSSafe MemoryFSProps Confinement MemoryFSExamples.
From S2P Require Import Effects CommandFS Session SessionIntegrity.

Section limit.
Variable provider : nat → result error gostr.
Hypothesis provider_total : ∀ p, provider p ≠ Err EPanic.
(** The cap, and the filesystem at the start. *)
Variable M : Z.
Hypothesis M_pos : 0 < M.
Variable m0 : MemoryFS.

(** A file may keep the size that it had. *)
Definition bound (l : loc) : Z := Z.max M (match heap m0 !! l with Some n => glen (n_data n) | None => 0 end).

Definition within_bound (l : loc) (n : memoryNode) : Prop :=
  isLazyFileNode n = false ∧ (IsRegular (n_mode n) = true → glen (n_data n) ≤ bound l).
(** With the open nodes [A], and whether they are regular files. *)
Definition bounded (A : list (loc * bool)) (m : MemoryFS) : Prop :=
  (∀ l n, heap m !! l = Some n → within_bound l n) ∧ ∀ l b, (l, b) ∈ A → ∃ n, heap m !! l = Some n ∧ IsRegular (n_mode n) = b.

Lemma bound_pos l : 0 < bound l.
Proof using M_pos. unfold bound. lia. Qed.
Lemma bound_cap l : M ≤ bound l.
Proof using. unfold bound. lia. Qed.

Lemma bounded_start : (∀ l n, heap m0 !! l = Some n → isLazyFileNode n = false) → bounded [] m0.
Proof using.
  intros H. split; [|by intros l b ?%elem_of_nil]. intros l n Hn. split; [by eapply H|]. intros _. unfold bound. rewrite Hn. lia.
Qed.
(** Assignments that do not grow a file. *)
Lemma bounded_update A m l n n' : bounded A m → heap m !! l = Some n → IsRegular (n_mode n') = IsRegular (n_mode n) → isLazyFileNode n' = false →
  (IsRegular (n_mode n) = true → glen (n_data n') ≤ bound l) → bounded A (set_heap (<[l := n']> (heap m)) m).
Proof using.
  intros [Hb HA] Hn Hr Hl Hd. split.
  - intros l0 n0. simpl. rewrite lookup_insert. case_decide; [|apply Hb]. subst. intros [= <-]. split; [done|]. by rewrite Hr.
  - intros l0 b Hl0. destruct (HA l0 b Hl0) as (n0&Hn0&Hr0). simpl. rewrite lookup_insert. case_decide; [|by exists n0]. subst.
    exists n'. split; [done|]. rewrite Hr. congruence.
Qed.
Lemma bounded_heap A m m' : bounded A m → heap m' = heap m → bounded A m'.
Proof using. intros [Hb HA] Hh. split; by rewrite Hh. Qed.
Lemma quiet_data n n' : isLazyFileNode n = false → quiet provider n n' → isLazyFileNode n' = false ∧ n_data n' = n_data n.
Proof using. intros Hl (Hc&_&_&_&_&Hk). specialize (Hk Hl). split; [done|]. unfold content in Hc. rewrite Hl, Hk in Hc. by injection Hc. Qed.
#[export] Instance bounded_Invariant A : Invariant provider (bounded A) (fun _ => True).
Proof using M_pos.
  split.
  - intros m n [Hb HA] Hf [Hl Hd]. split.
    + intros l0 n0. simpl. rewrite lookup_insert. case_decide; [|apply Hb]. intros [= <-]. split; [done|]. rewrite Hd. pose proof (bound_pos l0). simpl. unfold glen. simpl. lia.
    + intros l0 b Hl0. destruct (HA l0 b Hl0) as (n0&Hn0&Hr0). simpl. exists n0. rewrite lookup_insert_ne; [done|].
      intros <-. assert (next_loc m < next_loc m)%positive; [|lia]. apply Hf. left. by rewrite Hn0.
  - intros m id nl Hb _. by eapply bounded_heap.
  - intros m abs l Hb _ _ _ _. by eapply bounded_heap.
  - intros m l n n' Hb Hn Hq. destruct (proj1 Hb l n Hn) as [Hl Hd]. destruct (quiet_data n n' Hl Hq) as [Hl' Hd']. destruct Hq as (_&Hm&_).
    apply (bounded_update A m l n n'); [done|done|by rewrite Hm|done|]. by rewrite Hd'.
Qed.
Lemma kept_update A m l n n' : kept (bounded A) m → heap m !! l = Some n → IsRegular (n_mode n') = IsRegular (n_mode n) → isLazyFileNode n' = false →
  (IsRegular (n_mode n) = true → glen (n_data n') ≤ bound l) → kept (bounded A) (set_heap (<[l := n']> (heap m)) m).
Proof using.
  intros [Hb Hf] Hn Hr Hl Hd. split; [by eapply bounded_update|]. intros l' [H|H]; [|apply Hf; by right]. apply Hf. left. simpl in H.
  rewrite lookup_insert in H. case_decide; [subst; by rewrite Hn|done].
Qed.
Lemma kept_nonlazy A m l n : kept (bounded A) m → heap m !! l = Some n → isLazyFileNode n = false.
Proof using. intros [[Hb _] _] Hn. by destruct (Hb l n Hn). Qed.

(** ** Removing and renaming *)

Section stable.
Variable A : list (loc * bool).

Definition tame (m : MemoryFS) : Prop := bounded A m ∧ ∀ l, is_Some (heap m !! l) → (l < next_loc m)%positive.
Definition stable {B} (c : MemoryFS.M B) : Prop := ∀ m, tame m → tame (c m).2.

Lemma stable_bind {B D} (c : MemoryFS.M B) (f : B → MemoryFS.M D) : stable c → (∀ b, stable (f b)) → stable (c ≫= f).
Proof using. intros Hc Hf m Hm. unfold mbind, M_bind. specialize (Hc m Hm). destruct (c m) as [[b|e] m']; [|done]. by apply Hf. Qed.
Lemma stable_pure {B} (c : MemoryFS.M B) : (∀ m, (c m).2 = m) → stable c.
Proof using. intros H m. by rewrite H. Qed.
Lemma stable_modify f : (∀ m, heap (f m) = heap m ∧ next_loc (f m) = next_loc m) → stable (modify f).
Proof using. intros H m [Hb Hf]. simpl. destruct (H m) as [Hh Hn]. split; [by eapply bounded_heap|]. by rewrite Hh, Hn. Qed.
Lemma stable_newNodeID : stable newNodeIDLocked.
Proof using. intros m [Hb Hf]. split; [by eapply bounded_heap|done]. Qed.
Lemma stable_alloc n : blank n → stable (alloc n).
Proof using M_pos.
  intros [Hl Hd] m [[Hb HA] Hf]. split; [split|]; simpl.
  - intros l n0. rewrite lookup_insert. case_decide; [|apply Hb]. intros [= <-]. split; [done|]. rewrite Hd. pose proof (bound_pos l). unfold glen. simpl. lia.
  - intros l b Hlb. destruct (HA l b Hlb) as (n0&Hn0&Hr0). exists n0. rewrite lookup_insert_ne; [done|]. intros <-. specialize (Hf (next_loc m) ltac:(by rewrite Hn0)). lia.
  - intros l. rewrite lookup_insert. case_decide; [lia|]. intros Hx%Hf. lia.
Qed.
Lemma tame_children m l n ch : tame m → heap m !! l = Some n → tame (set_heap (<[l := set_children ch n]> (heap m)) m).
Proof using.
  intros [Hb Hf] Hn. split.
  - destruct (proj1 Hb l n Hn) as [Hl Hd]. by apply (bounded_update A m l n).
  - intros l' Hx. apply Hf. simpl in Hx. rewrite lookup_insert in Hx. case_decide; [subst; by rewrite Hn|done].
Qed.
Lemma stable_add_child d c : stable (add_child d c).
Proof using.
  intros m Hm. unfold add_child, add_child_loc. destruct (nodes m !! d) as [l|]; [|done]. destruct (heap m !! l) as [n|] eqn:En; [|done].
  destruct (n_children n); [by apply tame_children|done].
Qed.
Lemma stable_del_child d c : stable (del_child d c).
Proof using.
  intros m Hm. unfold del_child. destruct (nodes m !! d) as [l|]; [|done]. destruct (heap m !! l) as [n|] eqn:En; [|done]. by apply tame_children.
Qed.
Lemma stable_load l : stable (load l).
Proof using. intros m Hm. unfold load. by destruct (heap m !! l). Qed.
Lemma stable_resolve n ff : stable (resolve_existing n ff).
Proof using. intros m Hm. unfold resolve_existing. by destruct (resolvePathLocked m n ff false) as [[? [?|]]|?]. Qed.
Lemma stable_rebuild : stable rebuildDirectoryChildrenLocked.
Proof using.
  intros m [[Hb HA] Hf]. split; [split|].
  - intros l n'. rewrite rebuild_lookup. destruct (heap m !! l) as [n|] eqn:En; [|done]. simpl. intros [= <-]. specialize (Hb l n En). by repeat case_match.
  - intros l b Hl. destruct (HA l b Hl) as (n&Hn&Hr). rewrite rebuild_lookup, Hn. simpl. eexists. split; [done|]. by repeat case_match.
  - intros l. rewrite rebuild_lookup. intros H. apply Hf. by destruct (heap m !! l).
Qed.
Create HintDb stable.
#[local] Hint Resolve stable_newNodeID stable_add_child stable_del_child stable_load stable_resolve stable_rebuild : stable.
(** Reads the structure of an operation. *)
Ltac stable_step := first
  [ apply stable_bind; [|intros] | apply stable_pure; done | apply stable_modify; done | apply stable_alloc; done | solve [eauto with stable] | case_match ].
Lemma stable_mkdir_loop n now cur rem perm : stable (mkdir_loop n now cur rem perm).
Proof using M_pos.
  revert cur rem perm. induction n as [|n IH]; intros cur rem perm; simpl; unfold bind_path; repeat stable_step; apply IH.
Qed.
#[local] Hint Resolve stable_mkdir_loop : stable.
Lemma stable_Remove name r : stable (Remove name r).
Proof using. unfold Remove. repeat stable_step. Qed.
Lemma stable_Rename now a b : stable (Rename now a b).
Proof using M_pos. unfold Rename, ensureParentLocked, mkdirAllLocked. repeat stable_step. Qed.
End stable.

Lemma settled_tame A m : settled (bounded A) m → tame A m.
Proof using. intros [Hwf Hb]. split; [done|]. apply (wf_fresh m Hwf). Qed.
Lemma settled_stable {B} A (c : MemoryFS.M B) m : safe c → stable A c → settled (bounded A) m → settled (bounded A) (c m).2.
Proof using.
  intros Hs Hc Hm. split; [|by apply Hc, settled_tame]. specialize (Hs m (proj1 Hm)). unfold wp in Hs. destruct (c m) as [[a|e] m']; simpl; [done|by destruct Hs].
Qed.

(** ** Open files *)

(** The calls on the file of a loaded node. *)
Lemma loaded_materialize l n m : heap m !! l = Some n → isLazyFileNode n = false → materializeNode provider l m = (Ok tt, m).
Proof using. intros Hn Hl. rewrite (materializeNode_eq provider l n m Hn), (content_loaded provider n Hl). by rewrite Hl. Qed.
Lemma loaded_Stat f n m : heap m !! f_node f = Some n → isLazyFileNode n = false →
  file_Stat provider f m = if f_closed f then (Err (ESent ErrClosed), m) else (Ok (newFileInfo (path_Base (f_path f)) n), m).
Proof using.
  intros Hn Hl. unfold file_Stat. destruct (f_closed f); [done|]. unfold load, mbind, M_bind, mret, M_ret. rewrite Hn, Hl. cbn [andb]. by rewrite Hn.
Qed.
Lemma loaded_Read f n k m r m' : heap m !! f_node f = Some n → isLazyFileNode n = false → 0 ≤ f_offset f → file_Read provider f k m = (r, m') →
  m' = m ∧ ∀ p f', r = Ok (p, f') → f' = MkFile (f_path f) (f_node f) (f_flag f) (f_offset f + glen p) (f_closed f) ∧
    f_offset f + glen p ≤ Z.max (f_offset f) (glen (n_data n)).
Proof using.
  intros Hn Hl Hoff. unfold file_Read. destruct (f_closed f); [by intros [= <- <-]|]. destruct (negb _); [by intros [= <- <-]|].
  unfold attempt, load, mbind, M_bind, mret, M_ret. rewrite (loaded_materialize _ n) by done. rewrite Hn.
  destruct (mode_IsDir _); [by intros [= <- <-]|]. destruct (_ <=? _) eqn:E; [by intros [= <- <-]|]. to_prop. intros [= <- <-]. split; [done|].
  intros p f' [= <- <-]. split; [done|]. unfold glen in *. rewrite length_take, length_drop. lia.
Qed.
Lemma loaded_Write now f n p m r m' : heap m !! f_node f = Some n → isLazyFileNode n = false → file_Write provider now f p m = (r, m') →
  let off := if has_bits (f_flag f) O_APPEND then glen (n_data n) else f_offset f in
  (∃ e, r = Err e ∧ m' = m) ∨
  (f_closed f = false ∧ canWrite (f_flag f) = true ∧ r = Ok (glen p, MkFile (f_path f) (f_node f) (f_flag f) (off + glen p) (f_closed f)) ∧
   m' = set_heap (<[f_node f := set_modTime now (set_data (write_at (n_data n) (Z.to_nat off) p) n)]> (heap m)) m).
Proof using.
  intros Hn Hl. unfold file_Write. destruct (f_closed f); [intros [= <- <-]; left; by eexists|]. destruct (canWrite _); [|intros [= <- <-]; left; by eexists].
  cbn [negb]. unfold attempt, load, update_node, mbind, M_bind, mret, M_ret. rewrite (loaded_materialize _ n) by done. rewrite Hn.
  destruct (mode_IsDir _); [intros [= <- <-]; left; by eexists|]. cbn beta iota. rewrite Hn. intros [= <- <-]. right. done.
Qed.
Lemma write_at_bound data off p b : 0 ≤ off → glen data ≤ b → off + glen p ≤ b → glen (write_at data (Z.to_nat off) p) ≤ b.
Proof using. unfold glen. rewrite length_write_at. lia. Qed.

(** A handle of a regular file that may write: capped, with the cap's offset at the file's. *)
Definition capped (lf : limited_file memoryFile) : Prop :=
  match lf with
  | Unlimited _ => False
  | Limited sl => sl_max sl = M ∧ sl_flag sl = f_flag (sl_File sl) ∧ 0 ≤ f_offset (sl_File sl) ≤ bound (f_node (sl_File sl)) ∧
      (has_bits (sl_flag sl) O_APPEND = false → sl_offset sl = f_offset (sl_File sl))
  end.
Definition handle_bounded (A : list (loc * bool)) (h : handle) : Prop :=
  match h with
  | HFifo _ _ _ => True
  | HFile lf => 0 ≤ f_offset (limited_node lf) ∧ ∃ b, (f_node (limited_node lf), b) ∈ A ∧ (canWrite (f_flag (limited_node lf)) = true → b = true → capped lf)
  end.

Lemma handle_node A m lf : settled (bounded A) m → handle_bounded A (HFile lf) → ∃ n b, (f_node (limited_node lf), b) ∈ A ∧
  heap m !! f_node (limited_node lf) = Some n ∧ isLazyFileNode n = false ∧ IsRegular (n_mode n) = b ∧ (b = true → glen (n_data n) ≤ bound (f_node (limited_node lf))).
Proof using.
  intros [Hwf [Hb HA]] [_ (b&Hin&_)]. destruct (HA _ _ Hin) as (n&Hn&Hr). destruct (Hb _ _ Hn) as [Hl Hd]. exists n, b. split_and!; try done. by rewrite <- Hr.
Qed.

Section files.
Variable now : time.
#[local] Instance memory_file : File MemoryFS memoryFile := memoryFile_File provider now.

Lemma limited_Read_bounded A lf k m r lf' m' : settled (bounded A) m → handle_bounded A (HFile lf) →
  limited_Read provider now lf k m = (r, lf', m') → settled (bounded A) m' ∧ handle_bounded A (HFile lf').
Proof using.
  intros Hm Hh. destruct (handle_node A m lf Hm Hh) as (n&b&Hin&Hn&Hl&Hr&Hd). destruct Hh as [Hoff (b'&Hin'&Hcap)].
  assert (∀ r1 m1, file_Read provider (limited_node lf) k m = (r1, m1) → m1 = m ∧ ∀ p f', r1 = Ok (p, f') →
    f' = MkFile (f_path (limited_node lf)) (f_node (limited_node lf)) (f_flag (limited_node lf)) (f_offset (limited_node lf) + glen p) (f_closed (limited_node lf)) ∧
    f_offset (limited_node lf) + glen p ≤ Z.max (f_offset (limited_node lf)) (glen (n_data n))) as Hread by (intros r1 m1; by apply loaded_Read).
  assert (b' = b) as ->.
  { destruct Hm as [_ [_ HA]]. destruct (HA _ _ Hin') as (n'&Hn'&Hr'). congruence. }
  unfold limited_Read. destruct lf as [f|f]; simpl in *.
  - destruct (file_Read provider f k m) as [[[p f1]|e] m1] eqn:E; destruct (Hread _ _ eq_refl) as [-> Hok]; intros [= <- <- <-]; (split; [done|]).
    + destruct (Hok p f1 eq_refl) as [-> Hle]. simpl. split; [pose proof (glen_nonneg p); lia|]. by exists b.
    + split; [done|]. by exists b.
  - unfold sl_Read. simpl. destruct (file_Read provider (sl_File f) k m) as [[[p f1]|e] m1] eqn:E; destruct (Hread _ _ eq_refl) as [-> Hok]; intros [= <- <- <-]; (split; [done|]).
    + destruct (Hok p f1 eq_refl) as [-> Hle]. simpl. pose proof (glen_nonneg p). split; [lia|]. exists b. split; [done|]. intros Hw Hb.
      destruct (Hcap Hw Hb) as (?&?&?&Ho). specialize (Hd Hb). split_and!; simpl; try done; [lia|lia|]. intros Ha. rewrite (Ho Ha). done.
    + simpl. split; [done|]. exists b. split; [done|]. intros Hw Hb. destruct (Hcap Hw Hb) as (?&?&?&Ho). split_and!; simpl; try done; try lia.
      intros Ha. rewrite (Ho Ha). unfold glen. simpl. lia.
Qed.

Lemma no_type_bit mode b : IsRegular mode = true → N.land b ModeType = b → has_bits mode b = false.
Proof using.
  unfold IsRegular, has_bits. intros H%N.eqb_eq Hb. rewrite <- Hb, (N.land_comm b), N.land_assoc, H. done.
Qed.
Lemma regular_size name n : IsRegular (n_mode n) = true → isLazyFileNode n = false → fi_size (newFileInfo name n) = glen (n_data n).
Proof using.
  intros Hr Hl. unfold newFileInfo. rewrite Hl. unfold mode_IsDir. rewrite !(no_type_bit (n_mode n)) by done. done.
Qed.

(** Where a write starts. *)
Definition start_of (f : memoryFile) (n : memoryNode) : Z := if has_bits (f_flag f) O_APPEND then glen (n_data n) else f_offset f.
Lemma file_Write_bounded A f n p m r m' : settled (bounded A) m → heap m !! f_node f = Some n → isLazyFileNode n = false → 0 ≤ start_of f n →
  (f_closed f = false → canWrite (f_flag f) = true → IsRegular (n_mode n) = true → start_of f n + glen p ≤ bound (f_node f)) →
  file_Write provider now f p m = (r, m') → settled (bounded A) m' ∧
    ((∃ e, r = Err e) ∨ f_closed f = false ∧ r = Ok (glen p, MkFile (f_path f) (f_node f) (f_flag f) (start_of f n + glen p) (f_closed f))).
Proof using provider_total.
  intros [Hwf Hb] Hn Hl Hoff Hle E. pose proof (wp_file_Write provider provider_total now f p m Hwf ltac:(by eexists)) as Hwp. unfold wp in Hwp. rewrite E in Hwp.
  destruct (loaded_Write now f n p m r m' Hn Hl E) as [(e&->&->)|(Hc&Hw&->&->)]; [split; [done|left; by eexists]|].
  destruct Hwp as [Hwf' _]. fold (start_of f n) in *. split; [|by right]. split; [done|]. apply (bounded_update A m (f_node f) n); [done..|].
  intros Hr. simpl. specialize (Hle Hc Hw Hr). apply write_at_bound; [done| |done]. by apply (proj1 Hb (f_node f) n Hn).
Qed.
Lemma Stat_same A f m : settled (bounded A) m → is_Some (heap m !! f_node f) → (File_Stat f m).2 = m.
Proof using.
  intros [_ [Hb _]] [n Hn]. destruct (Hb _ _ Hn) as [Hl _]. cbn [File_Stat memory_file memoryFile_File]. rewrite (loaded_Stat f n m Hn Hl). by destruct (f_closed f).
Qed.
Lemma tooLarge_same A op sl m : settled (bounded A) m → is_Some (heap m !! f_node (sl_File sl)) → (tooLarge op sl m).2 = m.
Proof using.
  intros Hm Hs. unfold tooLarge, sl_name. pose proof (Stat_same A (sl_File sl) m Hm Hs) as Hx. by destruct (File_Stat (sl_File sl) m) as [[i|e] m1].
Qed.
(** The cap's offset is where the next write starts. *)
Definition primed (sl : sizeLimitedFile memoryFile) (n : memoryNode) : Prop := f_closed (sl_File sl) = false → sl_offset sl = start_of (sl_File sl) n.
(** The write of what fits. *)
Lemma sl_advance_bounded A sl n p m r sl' m' : settled (bounded A) m → handle_bounded A (HFile (Limited sl)) → heap m !! f_node (sl_File sl) = Some n →
  (canWrite (f_flag (sl_File sl)) = true → IsRegular (n_mode n) = true → primed sl n ∧ glen p ≤ Z.max (M - sl_offset sl) 0) →
  sl_advance sl p m = (r, sl', m') → settled (bounded A) m' ∧ handle_bounded A (HFile (Limited sl')).
Proof using provider_total.
  intros Hm Hh Hn Hcond. destruct (handle_node A m _ Hm Hh) as (n'&b&Hin&Hn'&Hl&Hr&Hd). destruct Hh as [Hoff (b'&Hin'&Hcap)]. simpl in *.
  assert (n' = n) as -> by congruence. assert (b' = b) as ->.
  { destruct Hm as [_ [_ HA]]. destruct (HA _ _ Hin') as (n0&Hn0&Hr'). congruence. }
  assert (0 ≤ start_of (sl_File sl) n) as H0 by (unfold start_of; case_match; [apply glen_nonneg|done]). pose proof (glen_nonneg p) as Hp.
  assert (f_closed (sl_File sl) = false → canWrite (f_flag (sl_File sl)) = true → IsRegular (n_mode n) = true →
    start_of (sl_File sl) n + glen p ≤ bound (f_node (sl_File sl))) as Hfit.
  { intros Hc Hcw Hreg. destruct (Hcond Hcw Hreg) as [Hpr Hle]. rewrite (Hpr Hc) in Hle. pose proof (bound_cap (f_node (sl_File sl))).
    destruct (Hcap Hcw ltac:(congruence)) as (_&_&Hbd&_). specialize (Hd ltac:(congruence)). revert Hle. unfold start_of. destruct (has_bits (f_flag (sl_File sl)) O_APPEND); lia. }
  unfold sl_advance. simpl. destruct (file_Write provider now (sl_File sl) p m) as [w m1] eqn:E.
  destruct (file_Write_bounded A (sl_File sl) n p m w m1 Hm Hn Hl H0 Hfit E) as [Hm1 [[e ->]|[Hc ->]]]; intros [= <- <- <-]; (split; [done|]); simpl.
  - split; [done|]. exists b. split; [done|]. intros Hw Hb. destruct (Hcap Hw Hb) as (?&?&?&Ho). split_and!; simpl; try done; try lia. intros Ha. rewrite (Ho Ha). lia.
  - split; [lia|]. exists b. split; [done|]. intros Hw Hb. destruct (Hcap Hw Hb) as (?&Hfl&?&Ho). split_and!; simpl; try done; [lia|apply Hfit; congruence|].
    intros Ha. rewrite (Ho Ha). unfold start_of. rewrite <- Hfl, Ha. lia.
Qed.
Lemma limited_Write_bounded A lf p m r lf' m' : settled (bounded A) m → handle_bounded A (HFile lf) →
  limited_Write provider now lf p m = (r, lf', m') → settled (bounded A) m' ∧ handle_bounded A (HFile lf').
Proof using provider_total.
  intros Hm Hh. destruct (handle_node A m lf Hm Hh) as (n&b&Hin&Hn&Hl&Hr&Hd). unfold limited_Write. fold memory_file. destruct lf as [f|sl].
  - destruct Hh as [Hoff (b'&Hin'&Hcap)]. simpl in *. assert (b' = b) as ->.
    { destruct Hm as [_ [_ HA]]. destruct (HA _ _ Hin') as (n0&Hn0&Hr'). congruence. }
    assert (0 ≤ start_of f n) as H0 by (unfold start_of; case_match; [apply glen_nonneg|done]). pose proof (glen_nonneg p) as Hp.
    destruct (file_Write provider now f p m) as [w m1] eqn:E.
    destruct (file_Write_bounded A f n p m w m1 Hm Hn Hl H0) as [Hm1 [[e ->]|[Hc ->]]]; [|done|..]; [by intros _ Hw Hreg; destruct (Hcap Hw ltac:(congruence))|..];
      intros [= <- <- <-]; (split; [done|]); simpl; (split; [lia|]); by exists b.
  - unfold sl_Write.
    destruct (if has_bits (sl_flag sl) O_APPEND then _ else _) as [sl1 m1] eqn:E1. assert (m1 = m ∧ handle_bounded A (HFile (Limited sl1)) ∧ sl_File sl1 = sl_File sl ∧
      (canWrite (f_flag (sl_File sl)) = true → IsRegular (n_mode n) = true → primed sl1 n ∧ sl_max sl1 = M)) as (->&Hh1&Hf1&Hpr).
    { pose proof Hh as [Hoff (b'&Hin'&Hcap)]. simpl in Hoff, Hin', Hcap, Hn, Hin. assert (b' = b) as ->.
      { destruct Hm as [_ [_ HA]]. destruct (HA _ _ Hin') as (n0&Hn0&Hr'). congruence. }
      destruct (has_bits (sl_flag sl) O_APPEND) eqn:Ea.
      - change (File_Stat (sl_File sl) m) with (file_Stat provider (sl_File sl) m) in E1. rewrite (loaded_Stat (sl_File sl) n m Hn Hl) in E1. destruct (f_closed (sl_File sl)) eqn:Ec; injection E1 as <- <-.
        + split; [done|]. split; [exact Hh|]. split; [done|]. intros Hw Hreg. destruct (Hcap Hw ltac:(congruence)) as (?&?&?&?). split; [|done]. intros Hc. congruence.
        + split; [done|]. split; [|split; [done|]].
          * split; [done|]. exists b. split; [done|]. intros Hw Hb. destruct (Hcap Hw Hb) as (?&?&?&?). split_and!; simpl; try done; try lia. congruence.
          * intros Hw Hreg. destruct (Hcap Hw ltac:(congruence)) as (?&Hfl&?&?). split; [|done]. intros _. simpl. unfold start_of.
            rewrite <- Hfl, Ea. change (fi_size (newFileInfo (path_Base (f_path (sl_File sl))) n) = glen (n_data n)). by apply regular_size.
      - injection E1 as <- <-. split; [done|]. split; [exact Hh|]. split; [done|]. intros Hw Hreg. destruct (Hcap Hw ltac:(congruence)) as (?&Hfl&?&Ho). split; [|done].
        intros _. unfold start_of. by rewrite <- Hfl, Ea, (Ho eq_refl). }
    assert (heap m !! f_node (sl_File sl1) = Some n) as Hn1 by (by rewrite Hf1).
    destruct (glen p <=? Z.max (sl_max sl1 - sl_offset sl1) 0) eqn:Efit; to_prop.
    { destruct (sl_advance sl1 p m) as [[r1 sl2] m2] eqn:E2. intros [= <- <- <-]. eapply (sl_advance_bounded A sl1 n); [done..| |done].
      rewrite Hf1. intros Hw Hreg. destruct (Hpr Hw Hreg) as [? HM]. split; [done|]. by rewrite <- HM. }
    destruct (if 0 <? Z.max (sl_max sl1 - sl_offset sl1) 0 then _ else _) as [[[k err] sl2] m2] eqn:E2.
    assert (settled (bounded A) m2 ∧ handle_bounded A (HFile (Limited sl2))) as [Hm2 Hh2].
    { destruct (0 <? _) eqn:E0; [|by simplify_eq]. to_prop. eapply (sl_advance_bounded A sl1 n); [done..| |done].
      rewrite Hf1. intros Hw Hreg. destruct (Hpr Hw Hreg) as [? HM]. split; [done|]. rewrite <- HM. unfold glen. rewrite length_take. lia. }
    destruct err as [e|]; [by intros [= <- <- <-]|]. destruct (handle_node A m2 _ Hm2 Hh2) as (n2&_&_&Hn2&_).
    pose proof (tooLarge_same A "write" sl2 m2 Hm2 ltac:(by eexists)) as Hx. destruct (tooLarge "write" sl2 m2) as [e m3]. simpl in Hx. subst m3. by intros [= <- <- <-].
Qed.
End files.

(** ** Requests *)

Lemma handle_more A A' h : (∀ x, x ∈ A → x ∈ A') → handle_bounded A h → handle_bounded A' h.
Proof using. destruct h as [lf|]; [|done]. intros Hsub [Hoff (b&Hin&Hcap)]. split; [done|]. exists b. auto. Qed.
Definition session_bounded (s : session) : Prop :=
  MaxFileBytes (cfs_limits (ss_fs s)) = M ∧ ∃ A, settled (bounded A) (ss_mem s) ∧ Forall (handle_bounded A) (ss_handles s).

Lemma call_bounded {B} (c : C B) answer s : session_bounded s → (∀ A, settled (bounded A) (ss_mem s) → ends c (ss_mem s) (settled (bounded A)) (fun _ _ => True)) →
  session_bounded (call c answer s).2.
Proof using.
  intros [HM (A&Hm&Hh)] Hc. destruct (Hc A Hm) as [Hm' _]. unfold call. destruct (c (ss_mem s)) as [[a|e] m']; (split; [done|]); by exists A.
Qed.
Definition opens (A : list (loc * bool)) (h : handle) (m : MemoryFS) : Prop :=
  ∃ A', settled (bounded A') m ∧ (∀ x, x ∈ A → x ∈ A') ∧ handle_bounded A' h.
Lemma call_open_bounded (c : C handle) s : session_bounded s → (∀ A, settled (bounded A) (ss_mem s) → ends c (ss_mem s) (settled (bounded A)) (opens A)) →
  session_bounded (call_open c s).2.
Proof using.
  intros [HM (A&Hm&Hh)] Hc. destruct (Hc A Hm) as [Hm' Ho]. unfold call_open. destruct (c (ss_mem s)) as [[h|e] m']; (split; [done|]); [|by exists A].
  destruct (Ho h eq_refl) as (A'&Hm1&Hsub&Hh'). exists A'. split; [done|]. apply Forall_app. split; [|by apply Forall_singleton].
  revert Hh. apply Forall_impl. intros x. by apply handle_more.
Qed.
Lemma on_handle_bounded h f s : session_bounded s →
  (∀ A lf r lf' m', settled (bounded A) (ss_mem s) → handle_bounded A (HFile lf) → f lf (ss_mem s) = (r, lf', m') → settled (bounded A) m' ∧ handle_bounded A (HFile lf')) →
  session_bounded (on_handle h f s).2.
Proof using.
  intros [HM (A&Hm&Hh)] Hf. unfold on_handle. destruct (ss_handles s !! h) as [[lf|]|] eqn:E; [|by (split; [done|by exists A])..].
  assert (handle_bounded A (HFile lf)) as Hlf by (by eapply (Forall_lookup_1 _ _ h)). specialize (Hf A lf). destruct (f lf (ss_mem s)) as [[r lf'] m'].
  destruct (Hf r lf' m' Hm Hlf eq_refl) as [Hm' Hlf']. split; [done|]. exists A. split; [done|]. by apply Forall_insert.
Qed.

Section calls.
Variable fs : CommandFS.
Variable A : list (loc * bool).

Lemma prepared_bounded {B} action name (c : gostr → MemoryFS.M B) m : settled (bounded A) m → (∀ abs, safe (c abs)) →
  (∀ abs m', wf m' → kept (bounded A) m' → keeps (bounded A) (c abs) m' (fun _ _ => True)) →
  ends (abs ← prepare provider fs action name; raw (c abs)) m (settled (bounded A)) (fun _ _ => True).
Proof using provider_total M_pos.
  intros Hm Hs Hk. apply (prepared_ends provider provider_total fs _ (fun _ => True)); [done..|]. intros abs m' _ Hm' _ _. apply Hk; [apply Hm'|by apply settled_kept].
Qed.
(** Assigning to metadata. *)
Lemma assigned_bounded op name ff rb f m : wf m → kept (bounded A) m →
  (∀ n, n_data (f n) = n_data n ∧ n_lazy (f n) = n_lazy n ∧ mode_IsDir (n_mode (f n)) = mode_IsDir (n_mode n) ∧
     has_bits (n_mode (f n)) ModeSymlink = has_bits (n_mode n) ModeSymlink ∧ IsRegular (n_mode (f n)) = IsRegular (n_mode n)) →
  keeps (bounded A) (update_meta op name ff rb f) m (fun _ _ => True).
Proof using.
  intros Hwf Hm Hf. apply keeps_update_meta; [done..|]. intros cs l n _ _ _ Hn _. destruct (Hf n) as (Hd&Hl&Hdir&Hs&Hr). destruct (proj1 (proj1 Hm) l n Hn) as [Hnl Hb].
  apply (kept_update A m l n); [done..| |by rewrite Hd]. unfold isLazyFileNode in *. by rewrite Hl, Hdir, Hs.
Qed.
Lemma Link_bounded now oldName newName m : wf m → kept (bounded A) m → keeps (bounded A) (Link now oldName newName) m (fun _ _ => True).
Proof using provider M_pos.
  intros Hwf Hm. apply (keeps_Link provider _ (fun _ => True)); [done..|by intros ? ? ?|]. intros m1 os cs l n n1 [Hb Hf] _ _ _ _ _ Ho _ _ _.
  split; [by eapply bounded_heap|]. intros l' [H|[q Hq]]; [apply Hf; by left|]. simpl in Hq. rewrite lookup_insert in Hq. apply Hf. right.
  case_decide; simplify_eq; [by exists (render os)|by exists q].
Qed.
Lemma OpenFile_bounded now abs flag perm m : settled (bounded A) m →
  ends (raw (OpenFile provider now abs flag perm)) m (settled (bounded A)) (fun f m' => ∀ mf, f = MemFile mf → ∃ n, heap m' !! f_node mf = Some n ∧
    f_flag mf = flag ∧ f_closed mf = false ∧ f_offset mf = if has_bits flag O_APPEND then glen (n_data n) else 0).
Proof using provider_total M_pos.
  intros [Hwf Hb]. assert (keeps (bounded A) (OpenFile provider now abs flag perm) m (fun _ _ => True)) as Hk.
  { apply (keeps_OpenFile provider _ (fun _ => True)); [done|done|by apply settled_kept|by intros ? ? ?|]. intros m1 cs l n Hm1 _ _ _ _ Hn _ _ _.
    apply (kept_update A m1 l n); [done..|]. intros _. unfold glen. simpl. pose proof (bound_pos l). lia. }
  pose proof (OpenFile_spec provider provider_total now abs flag perm m Hwf) as Hs. unfold ends, raw, keeps, wp in *.
  destruct (OpenFile provider now abs flag perm m) as [[f|e] m']; simpl.
  - destruct Hs as (Hwf'&p&l&_&_&Ho&_), Hk as [[Hb' _] _]. split; [by split|]. intros ? [= <-] mf ->. destruct Ho as (_&<-&<-&Hc&n&Hn&_&Hoff&_). by exists n.
  - destruct Hs as [_ Hwf'], Hk as [Hb' _]. by split.
Qed.
(** An opened file is a new entry of the table. *)
Lemma bounded_more m l n : settled (bounded A) m → heap m !! l = Some n → settled (bounded (A ++ [(l, IsRegular (n_mode n))])) m.
Proof using.
  intros [Hwf [Hb HA]] Hn. split; [done|]. split; [done|]. intros l' b [?|Heq%list_elem_of_singleton]%elem_of_app; [by apply HA|]. injection Heq as -> ->. by exists n.
Qed.
End calls.

Lemma open_bounded now name s : session_bounded s → session_bounded (call_open (cmd_Open provider now (ss_fs s) name) s).2.
Proof using provider_total M_pos.
  intros Hs. apply call_open_bounded; [done|]. intros A Hm. unfold cmd_Open. apply ends_bind, (prepare_ends provider provider_total _ _ (fun _ => True)); [done|].
  intros abs m1 Hm1 _ _ _. apply ends_bind. eapply ends_mono; [by apply OpenFile_bounded|]. intros f m2 Hm2 Hf. apply ends_ret; [done|].
  destruct f as [f|]; simpl; [|by exists A]. destruct (Hf f eq_refl) as (n&Hn&Hfl&_&Hoff). exists (A ++ [(f_node f, IsRegular (n_mode n))]). split; [by apply bounded_more|].
  split; [intros x Hx; apply elem_of_app; by left|]. split; [simpl; by rewrite Hoff|]. eexists. split; [apply elem_of_app; right; by apply list_elem_of_here|]. simpl. by rewrite Hfl.
Qed.
Lemma open_file_bounded now name flag perm s : session_bounded s → session_bounded (call_open (cmd_OpenFile provider now (ss_fs s) name flag perm) s).2.
Proof using provider_total M_pos.
  intros Hs. apply call_open_bounded; [done|]. destruct Hs as [HM _]. intros A Hm. unfold cmd_OpenFile.
  assert (∀ b action abs m, settled (bounded A) m → clean_abs abs → ends (if b : bool then check provider (ss_fs s) action abs else mret tt) m (settled (bounded A)) (fun _ _ => True)) as Hck.
  { intros [] action abs m Hm' Habs; [|by apply ends_ret]. by apply (check_ends provider provider_total _ _ (fun _ => True)). }
  apply ends_bind, ResolveAt_ends; [done|]. intros abs Habs. apply ends_bind. eapply ends_mono; [by apply Hck|]. intros [] m1 Hm1 _.
  apply ends_bind. eapply ends_mono; [by apply Hck|]. intros [] m2 Hm2 _. apply ends_bind. eapply ends_mono; [by apply OpenFile_bounded|].
  intros f m3 Hm3 Hf. unfold ends, limit_opened. destruct f as [f|]; [|split; [done|]; intros a [= <-]; by exists A].
  destruct (Hf f eq_refl) as (n&Hn&Hfl&Hc&Hoff). destruct (proj1 (proj2 Hm3) _ _ Hn) as [Hl Hd].
  assert (0 ≤ f_offset f) as H0 by (rewrite Hoff; case_match; [apply glen_nonneg|done]).
  assert (∀ lf, limited_node lf = f → (canWrite flag = true → IsRegular (n_mode n) = true → capped lf) → opens A (HFile lf) m3) as Hopen.
  { intros lf Hnode Hcap. exists (A ++ [(f_node f, IsRegular (n_mode n))]). split; [by apply bounded_more|]. split; [intros x Hx; apply elem_of_app; by left|].
    split; [by rewrite Hnode|]. exists (IsRegular (n_mode n)). rewrite Hnode, Hfl. split; [apply elem_of_app; right; by apply list_elem_of_here|done]. }
  unfold LimitFileSize. rewrite HM. destruct ((M <=? 0) || negb (hasWriteIntent flag)) eqn:E.
  { split; [done|]. intros a [= <-]. apply Hopen; [done|]. intros Hw. unfold hasWriteIntent in E. rewrite Hw, orb_false_r in E. to_prop. lia. }
  change (@File_Stat MemoryFS memoryFile (CommandFS.memory_file provider now) f m3) with (file_Stat provider f m3). rewrite (loaded_Stat f n m3 Hn Hl), Hc. simpl.
  destruct (IsRegular (n_mode n)) eqn:Er; simpl; (split; [done|]); intros a [= <-]; apply Hopen; try done. intros _ _. simpl. rewrite Hfl. split_and!; [done..| |].
  - rewrite Hoff. case_match; [by apply Hd|]. pose proof (bound_pos (f_node f)). lia.
  - intros Ha. by rewrite Hoff, Ha.
Qed.
Lemma chmod_regular mode new : IsRegular (N.lor (N.ldiff mode storedPermBits) (N.land new storedPermBits)) = IsRegular mode.
Proof using.
  unfold IsRegular. f_equal. apply N.bits_inj. intros k. rewrite !N.land_spec. destruct (N.testbit ModeType k) eqn:E; [|by rewrite !andb_false_r].
  rewrite !andb_true_r. apply chmod_bit. assert (N.land storedPermBits ModeType = 0%N) as H0 by done. apply (f_equal (fun x => N.testbit x k)) in H0.
  rewrite N.land_spec, E, andb_true_r, N.bits_0 in H0. done.
Qed.
(** Every request keeps the files within their bounds. *)
Lemma request_bounded now r s : session_bounded s → session_bounded (run_request provider now r s).2.
Proof using provider_total M_pos.
  intros Hs. destruct r; cbn [run_request]; try (apply call_bounded; [done|]; intros A Hm);
    try (apply prepared_bounded; [done|by intros; (apply stat_safe||apply ReadDir_safe||apply Readlink_safe||apply Realpath_safe)|];
      intros abs m' _ Hk; first [apply keeps_pure; [done|by first [apply ReadDir_state|apply Readlink_state|apply Realpath_state]]
        |eapply keeps_mono; [by apply (keeps_stat provider _ (fun _ => True))|done]]).
  - by apply open_bounded.
  - by apply open_file_bounded.
  - apply on_handle_bounded; [done|]. intros A lf r lf' m' Hm Hh. destruct (limited_Read provider now lf k (ss_mem s)) as [[[p err] f1] m1] eqn:E. intros [= <- <- <-]. by eapply limited_Read_bounded.
  - apply on_handle_bounded; [done|]. intros A lf r lf' m' Hm Hh. destruct (limited_Write provider now lf p (ss_mem s)) as [[[n err] f1] m1] eqn:E. intros [= <- <- <-]. by eapply limited_Write_bounded.
  - apply on_handle_bounded; [done|]. intros A lf r lf' m' Hm Hh. destruct (limited_Stat provider now lf (ss_mem s)) as [i m1] eqn:E. intros [= <- <- <-].
    destruct (handle_node A _ lf Hm Hh) as (n&_&_&Hn&_). pose proof (Stat_same now A (limited_node lf) (ss_mem s) Hm ltac:(by eexists)) as Hx.
    unfold limited_Stat in E. rewrite (E : @File_Stat MemoryFS memoryFile (memory_file now) (limited_node lf) (ss_mem s) = _) in Hx. simpl in Hx. by subst.
  - apply on_handle_bounded; [done|]. intros A lf r lf' m' Hm [Hoff (b&Hin&Hcap)] [= <- <- <-]. split; [done|]. destruct lf as [f|sl]; (split; [done|]); by exists b.
  - apply prepared_bounded; [done|by intros; apply Symlink_safe|]. intros. apply (keeps_Symlink provider _ (fun _ => True)); [done..|by intros ? ? ?].
  - apply ends_bind, (prepare_ends provider provider_total _ _ (fun _ => True)); [done|]. intros old m1 Hm1 Hold _ _.
    apply ends_bind, (check_ends provider provider_total _ _ (fun _ => True)); [done..|]. intros m2 Hm2 _ _. apply prepared_bounded; [done|by intros; apply Link_safe|].
    intros. by apply Link_bounded.
  - apply prepared_bounded; [done|by intros; apply Chown_safe|]. intros. by apply assigned_bounded.
  - apply prepared_bounded; [done|by intros; apply Chmod_safe|]. intros. apply assigned_bounded; [done..|]. intros n. split_and!; [done..| | |apply chmod_regular].
    + rewrite !IsDir_testbit. by apply chmod_bit.
    + change (isSymlink (set_mode (N.lor (N.ldiff (n_mode n) storedPermBits) (N.land mode storedPermBits)) n) = isSymlink n). rewrite !isSymlink_testbit. by apply chmod_bit.
  - apply prepared_bounded; [done|by intros; apply Chtimes_safe|]. intros. by apply assigned_bounded.
  - apply prepared_bounded; [done|by intros; apply Lchtimes_safe|]. intros. by apply assigned_bounded.
  - apply prepared_bounded; [done|by intros; apply MkdirAll_safe|]. intros. apply (keeps_MkdirAll provider _ (fun _ => True)); [done..|by intros ? ? ?].
  - apply prepared_bounded; [done|by intros; apply Mkfifo_safe|]. intros. apply (keeps_Mkfifo provider _ (fun _ => True)); [done..|by intros ? ? ?].
  - apply ends_bind, (prepare_ends provider provider_total _ _ (fun _ => True)); [done|]. intros abs m1 Hm1 _ _ _.
    apply ends_raw; [|done]. by apply settled_stable; [apply Remove_safe|apply stable_Remove|].
  - apply ends_bind, (prepare_ends provider provider_total _ _ (fun _ => True)); [done|]. intros old m1 Hm1 _ _ _.
    apply ends_bind, (prepare_ends provider provider_total _ _ (fun _ => True)); [done|]. intros new m2 Hm2 _ _ _.
    apply ends_raw; [|done]. by apply settled_stable; [apply Rename_safe|apply stable_Rename|].
  - done.
Qed.
End limit.

(** C5: no file outgrows the cap.  With a positive [MaxFileBytes], from a well-formed filesystem whose content is loaded, after any
    sequence of requests of commands, removals and renames included, every regular file under whatever name is no longer
    than the cap, or than it was at the start. *)
Theorem session_size_bounded provider pol m0 cwd rs :
  wf m0 → (∀ p, provider p ≠ Err EPanic) → (∀ l n, heap m0 !! l = Some n → isLazyFileNode n = false) → 0 < MaxFileBytes (pol_Limits pol) →
  let m := ss_mem (run provider rs (start cwd (Some pol) m0)).2 in
  ∀ l n, heap m !! l = Some n → IsRegular (n_mode n) = true →
    glen (n_data n) ≤ Z.max (MaxFileBytes (pol_Limits pol)) (match heap m0 !! l with Some n0 => glen (n_data n0) | None => 0 end).
Proof.
  intros Hwf Hp Hlazy HM m l n Hn Hr. set (M := MaxFileBytes (pol_Limits pol)) in *.
  assert (session_bounded M m0 (run provider rs (start cwd (Some pol) m0)).2) as [_ (A&[_ [Hb _]]&_)].
  { apply (run_invariant provider _ (fun _ => True)); [by intros; apply request_bounded| |done]. split; [done|]. exists []. split; [|done]. split; [done|]. by apply bounded_start. }
  by destruct (Hb l n Hn) as [_ Hd]; apply Hd.
Qed.

(** Commands that may write four bytes. *)
Definition small_limits : Limits := Build_Limits 0 0 0 0 0 0 0 0 4 0 0.
Definition small_policy : Policy := static_policy (NewStatic (Some (Build_Config [] [] [go "/"] [go "/w"] small_limits SymlinkFollow))).
Definition small_requests : list (time * request) := [
  (8, ReqOpenFile (go "n") (N.lor O_RDWR O_CREATE) 420);
  (8, ReqWrite 0 (go "abc"));
  (8, ReqWrite 0 (go "def"));
  (9, ReqOpenFile (go "d/f") (N.lor O_WRONLY O_APPEND) 420);
  (9, ReqWrite 1 (go "x"));
  (9, ReqRename (go "n") (go "d/m"));
  (9, ReqWrite 0 (go "x"))
].
Definition small_session : list response * session := run no_lazy small_requests (start (go "/w") (Some small_policy) demo_fs).
(** What does not fit is cut off; the file that was longer is left as it is. *)
Example small_session_answers : small_session.1 = [
  ResHandle 0; ResWrote 3 None; ResWrote 1 (Some (EPath (go "write") (go "n") (ESent EFBIG)));
  ResHandle 1; ResWrote 0 (Some (EPath (go "write") (go "f") (ESent EFBIG))); ResDone;
  ResWrote 0 (Some (EPath (go "write") (go "n") (ESent EFBIG)))].
Proof. vm_compute. reflexivity. Qed.
Lemma demo_loaded l n : heap demo_fs !! l = Some n → isLazyFileNode n = false.
Proof.
  assert (map_Forall (fun _ n => isLazyFileNode n = false) (heap demo_fs)) as H by (apply (bool_decide_unpack _); vm_compute; exact I).
  apply H.
Qed.
Lemma session_size_bounded_witness :
  let m := ss_mem small_session.2 in
  (∃ n, node_at m (go "/w/d/m") = Some n ∧ n_data n = go "abcd") ∧
  ∀ l n, heap m !! l = Some n → IsRegular (n_mode n) = true →
    glen (n_data n) ≤ Z.max 4 (match heap demo_fs !! l with Some n0 => glen (n_data n0) | None => 0 end).
Proof.
  intros m. split; [eexists; split; vm_compute; reflexivity|].
  exact (session_size_bounded no_lazy small_policy demo_fs (go "/w") small_requests demo_wf no_lazy_total demo_loaded ltac:(vm_compute; reflexivity)).
Defined.
